(* ===== verification/_CoqProject ===== *)
-Q . S2P
Prelude.v
Nodes.v
Terms.v
PgList.v
ListSpec.v
ListOps.v
ListSets.v
TrueVar.v
TrueVarSpec.v
Walker.v
Codd.v
Marked.v
HookClass.v
Semantics.v
SelfOpt.v
SplitOpt.v
ExistOpt.v
Hook.v
Samples.v
SplitProps.v
Mutators.v
CoddProps.v
MarkedProps.v
CoddNeg.v
NotNull.v
Regions.v
WalkerSpec.v
QueryWalk.v
QueryMutate.v
CertainAnswer.v
CoddCertain.v
MarkedOps.v
MarkedCertain.v
SelfProps.v
Rename.v
ListProps.v
TrueVarProps.v
ExistProps.v
SelfPush.v
SelfQuery.v
Answers.v
ExistQuery.v
ExistGraph.v
ExistComp.v
ExistMove.v
Bitmapset.v
BitWords.v
BitSpec.v
BitIter.v
BitProps.v
NodeText.v
NodeTree.v
NodeSchema.v
NodeOut.v
NodeRead.v
NodeTextProps.v
NodeStore.v
NodeRoundtrip.v
NodeProps.v
NodeTotal.v
NodeTyped.v
NodeFields.v
NodeCopy.v
NodeEqual.v
NodeCopyProps.v
NodeEquiv.v
NodeStoredEq.v
HookProps.v
HookCases.v
OptCases.v
