(* ===== verification/Prelude.v ===== *)
(** * Certain answers in PostgreSQL: the rewriting hooks and the structures they stand on

    ** The program

    The repository is PostgreSQL 9.6 with two loadable modules that rewrite a query
    after parse analysis, so that it returns only certain answers on a database with
    nulls (src/gitrepo/postgresqlgit/src/, called src/ below).  The hook for Codd
    nulls, certain_answer_codd.c, runs

      my_walker             collect, per AND and OR, the columns that cannot be null
      my_mutator            rewrite the comparisons under a negation
      optimize_self_constraint   push conditions on one relation into the range table
      optimize_split        NOT EXISTS of a disjunction -> conjunction of NOT EXISTS
      optimize_exist        move unconnected relations into nested EXISTS

    and the hook for marked nulls, certain_answer_marked.c, the first two steps in a
    variant.  true_var.c holds the contexts and the lists of "true variables" of both;
    split_optimize.c, self_optimize.c and exist_optimize.c the optimisations.  All of
    them work on parse trees with the traversals of backend/nodes/nodeFuncs.c and on
    lists of backend/nodes/list.c, whose in-place updates and shared cells they depend
    on.  backend/nodes/bitmapset.c is the other container of the node library.  The hook
    for Codd nulls writes the condition it rewrites to the log with nodeToString of
    backend/nodes/outfuncs.c; the same text form, read back by stringToNode (read.c and
    readfuncs.c), is how PostgreSQL stores views, rules, defaults and constraints, which
    reach the hooks as parts of queries.  The optimisations copy conditions, target entries
    and queries with copyObject of copyfuncs.c; equal of equalfuncs.c is what list.c compares
    nodes with.

    ** Where it is modelled

    - Prelude: outcomes ([res], [error]: failed assertions, NULL and dangling
      accesses, elog), the state and error monad, [Build] (with or without assertions).
    - Nodes: [node], the struct types of primnodes.h and parsenodes.h, with
      [expression_tree_walker] and [expression_tree_mutator]; Terms: terms and what
      mutators do that only read them.
    - PgList: every routine of list.c on a heap of headers and cells.  ListSpec, ListOps
      and ListSets: their correctness, against functions on Rocq lists, with frame
      conditions; ListProps: the theorems for callers.
    - TrueVar: true_var.c and true_var.h; TrueVarSpec and TrueVarProps: correctness.
    - Walker: the cases the two [my_walker] share; Codd and Marked: the walkers and
      mutators of the two hooks, Marked also its hook; Hook: the hook for Codd nulls,
      _PG_init and _PG_fini.
    - SplitOpt, SelfOpt, ExistOpt: the three optimisations.
    - Semantics: three-valued evaluation of conditions, the reference for "equivalent"
      and "certain"; the rows of a sub-query are those of the relations that its FROM list
      names, and a FROM list that does not name every range table entry once, which the
      parser never makes, yields none ([from_rows], [from_ok]).  Samples: concrete queries.
    - HookClass: what the two hooks have in common, as type classes; the theorems on whole
      queries are proved against them, once for both hooks.  Mutators: the mutators on all
      conditions; QueryMutate: on whole conditions under a negation; NotNull, WalkerSpec,
      QueryWalk: the walkers, as a function, step by step and on whole queries;
      CertainAnswer: walker and mutator together.
    - CoddProps, CoddNeg, CoddCertain: the hook for Codd nulls, on all conditions, on
      comparisons, on queries; MarkedProps, MarkedOps, MarkedCertain: the same for marked
      nulls.
    - SplitProps: the split.  SelfProps, SelfPush, SelfQuery: the pass, the push into the
      range table and both together; Answers: the answers of queries with sub-selects in
      the range table, which the pass makes.  Rename: conditions under a change of range table;
      ExistProps, ExistQuery: moving one component; ExistGraph, ExistComp: the connected
      components, as sets and on the heap; ExistMove: all components.  Regions: disjoint
      parts of the heap, for the proofs on several lists at once.
    - Bitmapset: bitmapset.c; BitWords: 32-bit words, bit by bit; BitSpec: the set of an
      array of words; BitIter: iteration and counting; BitProps: the theorems.
    - The text form of nodes: NodeText: the lexer of read.c, the escapes of outfuncs.c,
      printf and strtol; NodeTree: trees with all their fields, and the macros that write
      and read fields; NodeSchema: the fields of 60 node types, once as the output function
      has them and once as the input function has them; NodeOut: outfuncs.c, with the
      functions that have code of their own; NodeRead: read.c and readfuncs.c.
      NodeTextProps: tokens; NodeStore: which trees can be stored and what is read back;
      NodeRoundtrip, NodeProps: values and fields, structs and trees; NodeTotal,
      NodeTyped: the reader on arbitrary strings.
    - NodeFields, NodeCopy, NodeEqual: copyfuncs.c and equalfuncs.c on the same trees, with
      datum.c; NodeCopyProps: copies of structs; NodeEquiv: copies and comparison of trees;
      NodeStoredEq: comparison with what is read back.
    - HookProps: the hook for Codd nulls as a whole, on select-join queries.
    - HookCases, OptCases: inputs on which the code does not do what it is meant to.

    Functions keep the names of the source.  A C pointer to a node is a [node], [NULL]
    included; a list whose identity or sharing matters is a location of the heap, one
    that is only read is a Rocq list.  A walker or mutator with a context is a
    function in the monad over that context (and over the heap).

    ** What the theorems show

    - The rewriting for Codd nulls: the answers of the rewritten query are certain, they
      stay answers of the original query under every completion of the nulls
      ([rewrite_query_certain], for conjunctions of comparisons and of negated conditions
      with AND, OR and nested EXISTS over other relations, whose comparisons use the
      operators that the mutator rewrites; beyond them it can fail, see
      [twice_negated_not_certain] and HookCases); whatever the walker collected, the
      rewritten condition has no more answers than the given one
      ([rewrite_query_conservative], for comparisons, null tests, AND, OR, NOT and EXISTS);
      under a negation a comparison becomes a condition that is true whenever some
      completion of the nulls makes the comparison true, if the columns taken for not null
      have values ([negative_comparison_possible]).
    - The hook for Codd nulls with its optimisations: on a select-join query over plain
      relations it returns, and the query it returns has the same answers, all of them
      certain, provided the target list has the columns in use at their own positions, as
      SELECT * does ([hook_select_join]; without this proviso columns get lost, see
      [optimize_self_hides_columns]).
    - The rewriting for marked nulls, which are negative numbers, the same null wherever
      the same number occurs: the answers are certain under every valuation of the nulls
      ([marked_query_certain], for comparisons of columns and non-negative constants without
      "<>" and strict comparisons; with them it fails, see [marked_unequal_not_certain] and
      [marked_greater_not_certain]); each
      comparison is guarded as it should ([marked_comparison_guarded]); no answers are
      added ([marked_conservative]).
    - The walker: on comparisons, AND, OR, NOT and EXISTS it refines the function [collect],
      builds the scopes of the sub-queries and lists their NOT NULL columns
      ([my_walker_refines_collect]); for conditions without null tests and EXISTS over
      relations that are not joined with themselves, the columns it collects are not null
      in the rows that matter ([my_walker_not_null]).
    - The optimisations preserve the truth value of the conditions they are meant for:
      [optimize_split_equiv], [trueSplit_dnf] (with termination),
      [optimize_self_constraint_sound] and [my_modifier_self_conserves].  For
      optimize_exist: the lists merged in place are the connected components
      ([components_of_connected]); moving a component of one relation keeps the value of the
      EXISTS, while one of several relations gets a FROM list that does not name them
      ([rewrite_connexe_sound], [component_renumbering]); the loop keeps the value when
      everything it moves is a single relation ([move_connexe_sound]).  A condition with an
      OR at its root is never split ([trueSplit_or_diverges]).
    - list.c: arbitrary sequences of routines refine the functions on sequences
      ([list_commands_refine]); sharing, release, set operations, index bounds.
    - true_var.c: duplicates, intersection by counting, scopes.
    - bitmapset.c: set operations, tests, iteration in increasing order, counting,
      hashing, error cases and the range of C ints ([bms_ints_fit]; iteration fails at
      INT_MAX, [bms_loops_visit]).
    - The text form of nodes: what is written is read back, for all modelled node types
      with storable values ([stringToNode_nodeToString]; not for bit strings,
      [bit_strings_not_stored]); on every
      string the reader terminates ([stringToNode_total]) and what it returns is well typed
      ([stringToNode_typed]).  Copies have the same text and are equal
      ([copyObject_faithful]), what is read back is equal to what was written
      ([stored_equal]), comparison is symmetric and not transitive ([equal_symmetric]).
    - HookCases, OptCases and parts of SplitProps: endless loops, crashes and wrong
      answers, each on a concrete input or for every input of a kind.

    ** Bounds and fuel

    - [foreach] and the other loops along next pointers: the number of locations ever
      allocated, more than the length of every chain that ends ([ListSpec]); a cyclic
      list, which the C code follows for ever, runs out of fuel.
    - [trueSplit]: 2 to the number of AND, OR and leaf nodes of the
      condition ([tsize] in SplitProps); the
      hook takes fuel as an argument, and the theorems on endless loops hold for all.
    - [nodeRead] and the loops of the reader: the length of the string, because every turn
      takes a token ([stringToNode_total] shows that more fuel changes nothing).
    - Bit loops of bitmapset.c: four turns, the bytes of a word; loops of the callers:
      one more than the number of members.

    ** Parameters

    The system catalog ([SysCache]), the meaning of operators and functions ([Interp]),
    equal() on nodes and hash_any are arguments of the definitions, and the theorems hold
    for all of them; SQL operators and functions are strict, as those the hooks name
    are.  The theorems on marked nulls assume of the operators of int4, which the hook
    names by OID, that they compare integers ([Int4Ops], [OrEqualOps]).

    ** Not modelled

    The parser, planner, executor, storage and utilities of PostgreSQL around the
    hooks; memory contexts beyond palloc and pfree; log output; node types that the
    hooks do not handle (one constructor, at which the traversals stop with [EUnmodelled]);
    in the text form, in copies and in comparisons, plan nodes with cost estimates
    (floating point), SubPlan, extensible nodes, utility statements other than NOTIFY and
    DECLARE CURSOR, and the path, planner and raw parse nodes that are only written;
    optimize.c, an older version of the optimisations that is not built; the Python
    prototype. *)

From Stdlib Require Export ZArith Lia.
From stdpp Require Export base tactics numbers option sets list gmap strings.
Export stdpp.list_basics.list.

#[global] Open Scope Z_scope.
#[global] Set Warnings "-register-all".

(** ** Outcomes of C code *)

(** What a run of the modelled C code can end with instead of a value. *)
Inductive error :=
  | EAssert        (** an [Assert] failed (builds with assertions only) *)
  | ENullDeref     (** a NULL pointer was dereferenced *)
  | EDangling      (** a freed object, or an object of another kind, was accessed *)
  | EBadCast       (** a node was read through a struct it is not *)
  | EElog          (** [elog(ERROR, ...)] was raised *)
  | EFuel          (** the fuel of a loop ran out *)
  | EUnmodelled.   (** the model does not follow the code here *)

Inductive res (A : Type) :=
  | Ok (a : A)
  | Err (e : error).
Arguments Ok {A} a.
Arguments Err {A} e.

#[global] Instance error_eq_dec : EqDecision error.
Proof. solve_decision. Defined.

#[global] Instance res_eq_dec {A} `{EqDecision A} : EqDecision (res A).
Proof. solve_decision. Defined.

(** ** A state and error monad *)

Definition M (S A : Type) : Type := S → res (A * S).

Definition ret {S A : Type} (a : A) : M S A := λ s, Ok (a, s).

Definition bind {S A B : Type} (m : M S A) (k : A → M S B) : M S B := λ s,
  match m s with
  | Ok (a, s') => k a s'
  | Err e => Err e
  end.

Definition fail {S A : Type} (e : error) : M S A := λ _, Err e.
Definition get {S : Type} : M S S := λ s, Ok (s, s).
Definition put {S : Type} (s' : S) : M S () := λ _, Ok ((), s').
Definition modify {S : Type} (f : S → S) : M S () := λ s, Ok ((), f s).
Definition of_res {S A : Type} (r : res A) : M S A := λ s,
  match r with Ok a => Ok (a, s) | Err e => Err e end.

Declare Scope pg_scope.
Delimit Scope pg_scope with pg.
#[global] Open Scope pg_scope.

Notation "x <- m ;; k" := (bind m (λ x, k))
  (at level 100, m at next level, right associativity) : pg_scope.
Notation "m ;;; k" := (bind m (λ _, k))
  (at level 100, right associativity) : pg_scope.

(** [zoom] runs a computation on the first half of a pair of states: list
    operations work on the heap, the hook's walkers on a heap and a context. *)
Definition zoom {S C A : Type} (m : M S A) : M (S * C) A := λ '(s, c),
  match m s with
  | Ok (a, s') => Ok (a, (s', c))
  | Err e => Err e
  end.

Definition getc {S C : Type} : M (S * C) C := λ '(s, c), Ok (c, (s, c)).
Definition modc {S C : Type} (f : C → C) : M (S * C) () := λ '(s, c), Ok ((), (s, f c)).

(** Builds of PostgreSQL differ in whether [Assert] is compiled in
    (USE_ASSERT_CHECKING). *)
Class Build := use_assert : bool.

Definition Assert {S : Type} {B : Build} (b : bool) : M S () :=
  if use_assert && negb b then fail EAssert else ret ().

(** Rewriting a bind whose first computation is known. *)
Lemma bind_Ok {S A B : Type} (m : M S A) (k : A → M S B) s a s' :
  m s = Ok (a, s') → bind m k s = k a s'.
Proof. intros E. unfold bind. by rewrite E. Qed.

Lemma bind_Err {S A B : Type} (m : M S A) (k : A → M S B) s e :
  m s = Err e → bind m k s = Err e.
Proof. intros E. unfold bind. by rewrite E. Qed.

Lemma bind_inv {S A B : Type} (m : M S A) (k : A → M S B) s b s' :
  bind m k s = Ok (b, s') → ∃ a s1, m s = Ok (a, s1) ∧ k a s1 = Ok (b, s').
Proof. unfold bind. destruct (m s) as [[a s1]|e] eqn:E; naive_solver. Qed.

Lemma bind_assoc {S A B C : Type} (m : M S A) (f : A → M S B) (g : B → M S C) s :
  bind (bind m f) g s = bind m (λ a, bind (f a) g) s.
Proof. unfold bind. by destruct (m s) as [[a s1]|e]. Qed.

Lemma bind_ext {S A B : Type} (m : M S A) (k1 k2 : A → M S B) s : (∀ a s', k1 a s' = k2 a s') → bind m k1 s = bind m k2 s.
Proof. intros H. unfold bind. by destruct (m s) as [[a s']|]. Qed.

Lemma zoom_Ok {S C A : Type} (m : M S A) s (c : C) a s' :
  m s = Ok (a, s') → zoom m (s, c) = Ok (a, (s', c)).
Proof. intros E. unfold zoom. by rewrite E. Qed.

Lemma Assert_true {S : Type} {B : Build} b (s : S) :
  b = true → Assert b s = Ok ((), s).
Proof. intros ->. unfold Assert. by rewrite andb_false_r. Qed.

(** Splits a hypothesis [m s = Ok _] along its binds. *)
Ltac mstep H :=
  let a := fresh "a" in let s := fresh "s" in let E := fresh "E" in
  apply bind_inv in H as (a & s & E & H).

Ltac mret H := unfold ret in H; simplify_eq H.

(** ** Lists *)

Lemma last_snoc_cons {A} (x : A) l : ∃ l' y, x :: l = l' ++ [y].
Proof.
  destruct (decide (x :: l = [])) as [|Hne]; [done|].
  destruct (exists_last Hne) as (l' & y & ->). eauto.
Qed.

Lemma existsb_app {A} (f : A → bool) l1 l2 :
  existsb f (l1 ++ l2) = existsb f l1 || existsb f l2.
Proof. induction l1 as [|x l1 IH]; simpl; [done|]. by rewrite IH, orb_assoc. Qed.

Lemma forallb_Forall {A} (f : A → bool) l : forallb f l = true ↔ Forall (λ x, f x = true) l.
Proof. induction l as [|x l IH]; simpl; [done|]. by rewrite andb_true_iff, IH, Forall_cons. Qed.

Lemma bool_nonempty {A} (l : list A) b : match l with [] => false | _ => b end = true → l ≠ [] ∧ b = true.
Proof. by destruct l. Qed.

Create HintDb pg discriminated.
#[export] Hint Resolve lookup_lt_Some : pg.
