(* ===== verification/Nodes.v ===== *)
(** Parse tree nodes of PostgreSQL and the two generic traversals that the hooks
    are written with.

    [node] is the type of [Node *] values: [NULL] is the null pointer, every other
    constructor a node of the struct of the same name (include/nodes/primnodes.h and
    parsenodes.h).  A [List *] field is a [node] too: NIL is [NULL], a list of
    pointers is [NList].  Scalar fields that no modelled function reads or writes are
    left out of the records; a flat copy of a node copies them unchanged.

    [expression_tree_walker] and [expression_tree_mutator] follow nodeFuncs.c on the
    node types that occur in the range tables, jointrees and target lists the hooks
    see; every other node type is [OtherNode], at which the model stops with
    [EUnmodelled], whether the code walks it or raises the error of its default case.  A
    range table entry is of a type that the default case rejects. *)

From S2P Require Import Prelude.

(** ** Data *)

Record var := mkVar {
  varno : Z; varattno : Z; vartype : Z; vartypmod : Z; varcollid : Z;
  varlevelsup : Z; varnoold : Z; varoattno : Z; var_location : Z }.

Record const := mkConst {
  consttype : Z; consttypmod : Z; constcollid : Z; constlen : Z;
  constvalue : Z; constisnull : bool; constbyval : bool; const_location : Z }.

Record opinfo := mkOp {
  opno : Z; opfuncid : Z; opresulttype : Z; inputcollid : Z; op_location : Z }.

Inductive BoolExprType := AND_EXPR | OR_EXPR | NOT_EXPR.

Inductive NullTestType := IS_NULL | IS_NOT_NULL.

Inductive SubLinkType :=
  | EXISTS_SUBLINK | ALL_SUBLINK | ANY_SUBLINK | ROWCOMPARE_SUBLINK
  | EXPR_SUBLINK | MULTIEXPR_SUBLINK | ARRAY_SUBLINK | CTE_SUBLINK.

Inductive RTEKind :=
  | RTE_RELATION | RTE_SUBQUERY | RTE_JOIN | RTE_FUNCTION | RTE_VALUES | RTE_CTE.

Record alias := mkAlias { aliasname : string; colnames : list string }.

Record rteinfo := mkRte {
  rtekind : RTEKind; relid : Z; rte_alias : option alias; rte_eref : option alias }.

Record queryinfo := mkQueryInfo {
  commandType : Z; canSetTag : bool; hasAggs : bool; hasWindowFuncs : bool;
  hasSubLinks : bool; hasDistinctOn : bool; hasRecursive : bool;
  hasModifyingCTE : bool; hasForUpdate : bool; hasRowSecurity : bool }.

Record teinfo := mkTe { resno : Z; resname : string; resjunk : bool }.

#[global] Instance var_eq_dec : EqDecision var.
Proof. solve_decision. Defined.
#[global] Instance const_eq_dec : EqDecision const.
Proof. solve_decision. Defined.
#[global] Instance opinfo_eq_dec : EqDecision opinfo.
Proof. solve_decision. Defined.
#[global] Instance BoolExprType_eq_dec : EqDecision BoolExprType.
Proof. solve_decision. Defined.
#[global] Instance NullTestType_eq_dec : EqDecision NullTestType.
Proof. solve_decision. Defined.
#[global] Instance RTEKind_eq_dec : EqDecision RTEKind.
Proof. solve_decision. Defined.

Inductive node :=
  | NULL
  | Var (v : var)
  | Const (c : const)
  | FuncExpr (funcid : Z) (args : node)
  | OpExpr (o : opinfo) (args : node)
  | BoolExpr (boolop : BoolExprType) (args : node) (location : Z)
  | NullTest (nulltesttype : NullTestType) (arg : node) (location : Z)
  | RelabelType (resulttype : Z) (arg : node)
  | SubLink (subLinkType : SubLinkType) (testexpr subselect : node)
  | TargetEntry (te : teinfo) (expr : node)
  | RangeTblRef (rtindex : Z)
  | JoinExpr (jointype : Z) (larg rarg quals : node)
  | FromExpr (fromlist quals : node)
  | RangeTblEntry (rte : rteinfo) (subquery : node)
  | Query (q : queryinfo) (rtable jointree targetList : node)
  | NList (elements : list node)
  | OtherNode (tag : Z).

(** Induction over nodes that also reaches the elements of lists. *)
Section NodeInd.
Variable P : node → Prop.
Hypothesis HNULL : P NULL.
Hypothesis HVar : ∀ v, P (Var v).
Hypothesis HConst : ∀ c, P (Const c).
Hypothesis HFuncExpr : ∀ f a, P a → P (FuncExpr f a).
Hypothesis HOpExpr : ∀ o a, P a → P (OpExpr o a).
Hypothesis HBoolExpr : ∀ b a l, P a → P (BoolExpr b a l).
Hypothesis HNullTest : ∀ t a l, P a → P (NullTest t a l).
Hypothesis HRelabelType : ∀ t a, P a → P (RelabelType t a).
Hypothesis HSubLink : ∀ t a s, P a → P s → P (SubLink t a s).
Hypothesis HTargetEntry : ∀ t a, P a → P (TargetEntry t a).
Hypothesis HRangeTblRef : ∀ i, P (RangeTblRef i).
Hypothesis HJoinExpr : ∀ t l r q, P l → P r → P q → P (JoinExpr t l r q).
Hypothesis HFromExpr : ∀ f q, P f → P q → P (FromExpr f q).
Hypothesis HRangeTblEntry : ∀ r s, P s → P (RangeTblEntry r s).
Hypothesis HQuery : ∀ q r j t, P r → P j → P t → P (Query q r j t).
Hypothesis HNList : ∀ l, Forall P l → P (NList l).
Hypothesis HOther : ∀ t, P (OtherNode t).

Fixpoint node_ind' (n : node) : P n :=
  match n with
  | NULL => HNULL
  | Var v => HVar v
  | Const c => HConst c
  | FuncExpr f a => HFuncExpr f a (node_ind' a)
  | OpExpr o a => HOpExpr o a (node_ind' a)
  | BoolExpr b a l => HBoolExpr b a l (node_ind' a)
  | NullTest t a l => HNullTest t a l (node_ind' a)
  | RelabelType t a => HRelabelType t a (node_ind' a)
  | SubLink t a s => HSubLink t a s (node_ind' a) (node_ind' s)
  | TargetEntry t a => HTargetEntry t a (node_ind' a)
  | RangeTblRef i => HRangeTblRef i
  | JoinExpr t l r q => HJoinExpr t l r q (node_ind' l) (node_ind' r) (node_ind' q)
  | FromExpr f q => HFromExpr f q (node_ind' f) (node_ind' q)
  | RangeTblEntry r s => HRangeTblEntry r s (node_ind' s)
  | Query q r j t => HQuery q r j t (node_ind' r) (node_ind' j) (node_ind' t)
  | NList l => HNList l ((fix go (l : list node) : Forall P l :=
      match l with
      | [] => Forall_nil_2 P
      | x :: l => Forall_cons_2 P x l (node_ind' x) (go l)
      end) l)
  | OtherNode t => HOther t
  end.
End NodeInd.

(** ** Lists of nodes stored in nodes *)

(** A [List *] field read as a list of its elements; the cast of another node is an
    error. *)
Definition as_list (n : node) : res (list node) :=
  match n with
  | NULL => Ok []
  | NList l => Ok l
  | _ => Err EBadCast
  end.

(** The pointer to a freshly built list: NIL when it has no element. *)
Definition of_list (l : list node) : node :=
  match l with
  | [] => NULL
  | _ => NList l
  end.

Lemma of_list_ne l : l ≠ [] → of_list l = NList l.
Proof. by destruct l. Qed.

(** [list->length]: NIL is dereferenced. *)
Definition length_field (n : node) : res Z :=
  match n with
  | NULL => Err ENullDeref
  | NList l => Ok (Z.of_nat (length l))
  | _ => Err EBadCast
  end.

(** [list_nth] of an unshared list of nodes.  Out of range the code asserts; without
    assertions a negative index gives the first element, one past the end runs off
    the chain. *)
Definition nth_node {B : Build} (n : node) (i : Z) : res node :=
  match n with
  | NULL => Err (if use_assert then EAssert else ENullDeref)
  | NList l =>
      if (i <? 0) && use_assert then Err EAssert
      else match l !! Z.to_nat i with
           | Some x => Ok x
           | None => Err (if use_assert then EAssert else ENullDeref)
           end
  | _ => Err EBadCast
  end.

(** ** makefuncs.c *)

Definition makeVar0 : var := mkVar 0 0 0 0 0 0 0 0 0.

Definition makeBoolExpr (boolop : BoolExprType) (args : node) (location : Z) : node :=
  BoolExpr boolop args location.

Definition makeFromExpr (fromlist quals : node) : node := FromExpr fromlist quals.

Definition makeAlias (name : string) (cols : list string) : alias := mkAlias name cols.

Definition makeConst (ctype ctypmod ccollid clen cvalue : Z) (cisnull cbyval : bool) : const :=
  mkConst ctype ctypmod ccollid clen cvalue cisnull cbyval (-1).

(** ** expression_tree_walker *)

Section Walker.
Context {S : Type}.
Variable walker : node → M S bool.

(** The loop over a List: stop at the first element whose walk returns true. *)
Definition walk_list : list node → M S bool :=
  fix go (l : list node) : M S bool :=
    match l with
    | [] => ret false
    | x :: l' => b <- walker x;; if b then ret true else go l'
    end.

(** [expression_tree_walker] on a List field. *)
Definition walk_args (n : node) : M S bool :=
  match n with
  | NULL => ret false
  | NList l => walk_list l
  | _ => fail EBadCast
  end.

Definition expression_tree_walker (n : node) : M S bool :=
  match n with
  | NULL => ret false
  | Var _ | Const _ | RangeTblRef _ => ret false
  | FuncExpr _ args => walk_args args
  | OpExpr _ args => walk_args args
  | BoolExpr _ args _ => walk_args args
  | SubLink _ testexpr subselect =>
      b <- walker testexpr;; if b then ret true else walker subselect
  | RelabelType _ arg => walker arg
  | NullTest _ arg _ => walker arg
  | TargetEntry _ expr => walker expr
  | Query _ _ _ _ => ret false
  | NList l => walk_list l
  | FromExpr fromlist quals =>
      b <- walker fromlist;; if b then ret true else walker quals
  | JoinExpr _ larg rarg quals =>
      b <- walker larg;; if b then ret true else
      b <- walker rarg;; if b then ret true else walker quals
  | RangeTblEntry _ _ => fail EElog
  | OtherNode _ => fail EUnmodelled
  end.
End Walker.

(** ** expression_tree_mutator *)

Section Mutator.
Context {S : Type}.
Variable mutator : node → M S node.

(** The loop over a List: collect the mutated elements. *)
Definition mutate_list : list node → M S (list node) :=
  fix go (l : list node) : M S (list node) :=
    match l with
    | [] => ret []
    | x :: l' => x' <- mutator x;; r <- go l';; ret (x' :: r)
    end.

Definition expression_tree_mutator (n : node) : M S node :=
  match n with
  | NULL => ret NULL
  | Var v => ret (Var v)
  | Const c => ret (Const c)
  | RangeTblRef i => ret (RangeTblRef i)
  | FuncExpr f args => args' <- mutator args;; ret (FuncExpr f args')
  | OpExpr o args => args' <- mutator args;; ret (OpExpr o args')
  | BoolExpr b args loc => args' <- mutator args;; ret (BoolExpr b args' loc)
  | SubLink t testexpr subselect =>
      testexpr' <- mutator testexpr;;
      subselect' <- mutator subselect;;
      ret (SubLink t testexpr' subselect')
  | RelabelType t arg => arg' <- mutator arg;; ret (RelabelType t arg')
  | NullTest t arg loc => arg' <- mutator arg;; ret (NullTest t arg' loc)
  | TargetEntry t expr => expr' <- mutator expr;; ret (TargetEntry t expr')
  | Query _ _ _ _ => ret n
  | NList l => l' <- mutate_list l;; ret (of_list l')
  | FromExpr fromlist quals =>
      fromlist' <- mutator fromlist;;
      quals' <- mutator quals;;
      ret (FromExpr fromlist' quals')
  | JoinExpr t larg rarg quals =>
      larg' <- mutator larg;;
      rarg' <- mutator rarg;;
      quals' <- mutator quals;;
      ret (JoinExpr t larg' rarg' quals')
  | RangeTblEntry _ _ => fail EElog
  | OtherNode _ => fail EUnmodelled
  end.
End Mutator.
