(* ===== verification/Terms.v ===== *)
(** Terms, their variables, and mutators that only read them.

    Several mutators of the optimisers leave terms as they are and change their state
    at every variable; [scan_term] and [scan_args] say so once for all of them. *)

From S2P Require Import Prelude Nodes.

(** ** Terms *)

(** Columns, constants, functions and casts of them. *)
Fixpoint is_term (n : node) : bool :=
  match n with
  | Var _ | Const _ => true
  | FuncExpr _ (NList args) => match args with [] => false | _ => forallb is_term args end
  | RelabelType _ arg => is_term arg
  | _ => false
  end.

(** The variables of a term or condition, from left to right. *)
Fixpoint term_vars (n : node) : list var :=
  match n with
  | Var v => [v]
  | FuncExpr _ args | OpExpr _ args => term_vars args
  | RelabelType _ arg => term_vars arg
  | NullTest _ arg _ => term_vars arg
  | BoolExpr _ args _ => term_vars args
  | NList l => concat (map term_vars l)
  | _ => []
  end.

Lemma term_vars_cons x l : term_vars (NList (x :: l)) = term_vars x ++ term_vars (NList l).
Proof. done. Qed.

(** ** Conjunctions *)

(** The conjuncts of a condition. *)
Definition conjuncts (quals : node) : list node :=
  match quals with BoolExpr AND_EXPR (NList args) _ => args | _ => [quals] end.

Lemma conjuncts_cases quals : conjuncts quals = [quals] ∨ ∃ args loc, quals = BoolExpr AND_EXPR (NList args) loc.
Proof. destruct quals as [| | | | |[] [] loc| | | | | | | | | | |]; eauto. Qed.

(** ** Mutators that read terms *)

(** [m] returns variables unchanged, with the state changed by [f], and uses the
    generic mutator on the other nodes of terms. *)
Class ReadsTerms {S : Type} (m : node → M S node) (f : var → S → S) : Prop := {
  reads_var v s : m (Var v) s = Ok (Var v, f v s);
  reads_const c s : m (Const c) s = Ok (Const c, s);
  reads_func g a s : m (FuncExpr g a) s = expression_tree_mutator m (FuncExpr g a) s;
  reads_relabel t a s : m (RelabelType t a) s = expression_tree_mutator m (RelabelType t a) s;
  reads_nlist l s : m (NList l) s = expression_tree_mutator m (NList l) s }.

Section Scan.
Context {S : Type} (m : node → M S node) (f : var → S → S) `{!ReadsTerms m f}.

(** The state after the variables of a node are read from left to right. *)
Definition scan (n : node) (s : S) : S := fold_left (λ s v, f v s) (term_vars n) s.

Definition scanned (n : node) : Prop := ∀ s, m n s = Ok (n, scan n s).

Lemma scan_list l : Forall scanned l → ∀ s, mutate_list m l s = Ok (l, scan (NList l) s).
Proof.
  induction 1 as [|x l Hx _ IH]; intros s; [done|]. cbn. erewrite bind_Ok by apply Hx. erewrite bind_Ok by apply IH.
  unfold ret, scan. cbn. by rewrite fold_left_app.
Qed.

Lemma scan_nlist l : l ≠ [] → Forall scanned l → scanned (NList l).
Proof.
  intros Hne Hl s. rewrite (reads_nlist (f := f)). cbn. erewrite bind_Ok by (by apply scan_list). unfold ret.
  by rewrite of_list_ne.
Qed.

Lemma scan_parts n : (is_term n = true → scanned n) ∧ ∀ l, n = NList l → forallb is_term l = true → Forall scanned l.
Proof.
  induction n using node_ind'; destruct_and?; (split; [|intros l' [=]; subst; try done]); try done.
  - intros _ s. by rewrite (reads_var (f := f)).
  - intros _ s. by rewrite (reads_const (f := f)).
  - destruct n; try done. intros [Hne Ht]%bool_nonempty s. rewrite (reads_func (f := f)). cbn.
    by erewrite bind_Ok by (apply scan_nlist; eauto).
  - intros Ht s. rewrite (reads_relabel (f := f)). cbn. by erewrite bind_Ok by (by apply H).
  - intros Ht. apply forallb_Forall in Ht. rewrite Forall_forall in H, Ht |- *. intros x Hx. apply H; auto.
Qed.

(** A term is returned as it is. *)
Lemma scan_term n s : is_term n = true → m n s = Ok (n, scan n s).
Proof. intros Ht. by apply scan_parts. Qed.

(** So are the arguments of an operator. *)
Lemma scan_args args s : args ≠ [] → forallb is_term args = true → m (NList args) s = Ok (NList args, scan (NList args) s).
Proof. intros Hne Ht. apply scan_nlist; [done|]. by apply (scan_parts (NList args)). Qed.

Lemma scan_op o args s : args ≠ [] → forallb is_term args = true →
  expression_tree_mutator m (OpExpr o (NList args)) s = Ok (OpExpr o (NList args), scan (OpExpr o (NList args)) s).
Proof. intros Hne Ht. cbn. by erewrite bind_Ok by (by apply scan_args). Qed.

Lemma scan_null_test t a loc s : is_term a = true →
  expression_tree_mutator m (NullTest t a loc) s = Ok (NullTest t a loc, scan (NullTest t a loc) s).
Proof. intros Ht. cbn. by erewrite bind_Ok by (by apply scan_term). Qed.
End Scan.
