(* ===== verification/PgList.v ===== *)
(** The generic list package, src/backend/nodes/list.c, on an explicit heap.

    A [List] is a header object (type, length, head, tail) and a chain of
    [ListCell] objects; most routines update them in place and [list_concat] makes
    two lists share cells.  The hooks depend on that sharing, so the model keeps
    it: headers, cells and the nodes that cells point to are objects of a [heap],
    [palloc] takes a fresh location, [pfree] removes an object, and an access
    through NULL or to a freed object is an error.  Both kinds of builds, with and
    without assertions, are covered by [Build].

    The three variants of a routine (pointer, integer, OID) are one definition over
    the type tag and the datum, instantiated as in the source.  [foreach] follows
    the next pointers; its fuel is the number of locations ever allocated, which
    is more than the length of any chain that ends (see [ListSpec]). *)

From S2P Require Import Prelude Nodes.

(** ** The heap *)

Abbreviation loc := positive (only parsing).
Abbreviation ptr := (option positive) (only parsing).

Inductive NodeTag := T_List | T_IntList | T_OidList.

#[global] Instance NodeTag_eq_dec : EqDecision NodeTag.
Proof. solve_decision. Defined.

(** The union in a [ListCell]; a cell that [palloc] returned holds no value yet. *)
Inductive datum :=
  | DUndef
  | DPtr (p : ptr)
  | DInt (z : Z)
  | DOid (z : Z).

#[global] Instance datum_eq_dec : EqDecision datum.
Proof. solve_decision. Defined.

Record ListCell := mkCell { c_data : datum; c_next : ptr }.

Record ListHdr := mkHdr { l_type : NodeTag; l_length : Z; l_head : ptr; l_tail : ptr }.

Inductive obj :=
  | OList (l : ListHdr)
  | OCell (c : ListCell)
  | ONode (n : node).

Record heap := mkHeap { h_objs : gmap positive obj; h_brk : positive }.

Definition empty_heap : heap := mkHeap ∅ 1.

Definition palloc (o : obj) : M heap loc := λ h,
  Ok (h_brk h, mkHeap (<[h_brk h := o]> (h_objs h)) (Pos.succ (h_brk h))).

Definition get_obj (p : ptr) : M heap obj := λ h,
  match p with
  | None => Err ENullDeref
  | Some l =>
      match h_objs h !! l with
      | Some o => Ok (o, h)
      | None => Err EDangling
      end
  end.

Definition set_obj (l : loc) (o : obj) : M heap () := λ h,
  Ok ((), mkHeap (<[l := o]> (h_objs h)) (h_brk h)).

Definition pfree (p : ptr) : M heap () := λ h,
  match p with
  | None => Err ENullDeref
  | Some l =>
      match h_objs h !! l with
      | Some _ => Ok ((), mkHeap (delete l (h_objs h)) (h_brk h))
      | None => Err EDangling
      end
  end.

Definition get_list (p : ptr) : M heap ListHdr :=
  o <- get_obj p;; match o with OList l => ret l | _ => fail EDangling end.

Definition get_cell (p : ptr) : M heap ListCell :=
  o <- get_obj p;; match o with OCell c => ret c | _ => fail EDangling end.

Definition get_node (p : ptr) : M heap node :=
  o <- get_obj p;; match o with ONode n => ret n | _ => fail EDangling end.

(** Writes of one field: the object is read first, so a write through NULL or to a
    freed object is an error. *)
Definition set_list (p : ptr) (f : ListHdr → ListHdr) : M heap () :=
  l <- get_list p;;
  match p with Some x => set_obj x (OList (f l)) | None => fail ENullDeref end.

Definition set_cell (p : ptr) (f : ListCell → ListCell) : M heap () :=
  c <- get_cell p;;
  match p with Some x => set_obj x (OCell (f c)) | None => fail ENullDeref end.

Definition with_length (n : Z) (l : ListHdr) : ListHdr := mkHdr (l_type l) n (l_head l) (l_tail l).
Definition with_head (p : ptr) (l : ListHdr) : ListHdr := mkHdr (l_type l) (l_length l) p (l_tail l).
Definition with_tail (p : ptr) (l : ListHdr) : ListHdr := mkHdr (l_type l) (l_length l) (l_head l) p.
Definition with_next (p : ptr) (c : ListCell) : ListCell := mkCell (c_data c) p.
Definition with_data (d : datum) (c : ListCell) : ListCell := mkCell d (c_next c).

(** ** pg_list.h *)

Definition list_head (l : ptr) : M heap ptr :=
  match l with None => ret None | Some _ => h <- get_list l;; ret (l_head h) end.

Definition list_tail (l : ptr) : M heap ptr :=
  match l with None => ret None | Some _ => h <- get_list l;; ret (l_tail h) end.

Definition list_length (l : ptr) : M heap Z :=
  match l with None => ret 0 | Some _ => h <- get_list l;; ret (l_length h) end.

Definition lnext (c : ptr) : M heap ptr := x <- get_cell c;; ret (c_next x).
Definition ldata (c : ptr) : M heap datum := x <- get_cell c;; ret (c_data x).

Definition lfirst (c : ptr) : M heap ptr :=
  d <- ldata c;; match d with DPtr p => ret p | _ => fail EBadCast end.
Definition lfirst_int (c : ptr) : M heap Z :=
  d <- ldata c;; match d with DInt z => ret z | _ => fail EBadCast end.
Definition lfirst_oid (c : ptr) : M heap Z :=
  d <- ldata c;; match d with DOid z => ret z | _ => fail EBadCast end.

(** The body of a [foreach] either goes on or returns from the function. *)
Inductive loop (A R : Type) :=
  | Cont (a : A)
  | Done (r : R).
Arguments Cont {A R} a.
Arguments Done {A R} r.

Fixpoint foreach_from {A R : Type} (fuel : nat) (c : ptr)
    (body : ptr → A → M heap (loop A R)) (a : A) : M heap (loop A R) :=
  match fuel with
  | O => fail EFuel
  | S fuel =>
      match c with
      | None => ret (Cont a)
      | Some _ =>
          r <- body c a;;
          match r with
          | Done r => ret (Done r)
          | Cont a' => n <- lnext c;; foreach_from fuel n body a'
          end
      end
  end.

Definition heap_fuel : M heap nat := λ h, Ok (Pos.to_nat (h_brk h), h).

Definition foreach {A R : Type} (l : ptr) (body : ptr → A → M heap (loop A R)) (a : A)
    : M heap (loop A R) :=
  c <- list_head l;; fuel <- heap_fuel;; foreach_from fuel c body a.

Section PgList.
Context {B : Build}.

(** ** list.c: assertions *)

(** IsPointerList, IsIntegerList and IsOidList. *)
Definition IsTypedList (t : NodeTag) (l : ptr) : M heap bool :=
  match l with
  | None => ret true
  | Some _ => h <- get_list l;; ret (bool_decide (l_type h = t))
  end.

Definition assert_typed (t : NodeTag) (l : ptr) : M heap () :=
  if use_assert then b <- IsTypedList t l;; Assert b else ret ().

Definition check_list_invariants (l : ptr) : M heap () :=
  if use_assert then
    match l with
    | None => ret ()
    | Some _ =>
        h <- get_list l;;
        Assert (0 <? l_length h);;;
        Assert (bool_decide (l_head h ≠ None));;;
        Assert (bool_decide (l_tail h ≠ None));;;
        (if l_length h =? 1 then Assert (bool_decide (l_head h = l_tail h)) else ret ());;;
        (if l_length h =? 2 then
           n <- lnext (l_head h);; Assert (bool_decide (n = l_tail h))
         else ret ());;;
        n <- lnext (l_tail h);;
        Assert (bool_decide (n = None))
    end
  else ret ().

(** ** list.c: construction *)

Definition new_list (type : NodeTag) : M heap ptr :=
  new_head <- palloc (OCell (mkCell DUndef None));;
  new_list <- palloc (OList (mkHdr type 1 (Some new_head) (Some new_head)));;
  ret (Some new_list).

Definition new_head_cell (list : ptr) : M heap () :=
  h <- get_list list;;
  new_head <- palloc (OCell (mkCell DUndef (l_head h)));;
  set_list list (with_head (Some new_head));;;
  set_list list (λ h, with_length (l_length h + 1) h).

Definition new_tail_cell (list : ptr) : M heap () :=
  new_tail <- palloc (OCell (mkCell DUndef None));;
  h <- get_list list;;
  set_cell (l_tail h) (with_next (Some new_tail));;;
  set_list list (with_tail (Some new_tail));;;
  set_list list (λ h, with_length (l_length h + 1) h).

(** [lappend], [lappend_int] and [lappend_oid] share this text up to the type. *)
Definition lappend_gen (t : NodeTag) (list : ptr) (d : datum) : M heap ptr :=
  assert_typed t list;;;
  list <- match list with
          | None => new_list t
          | Some _ => new_tail_cell list;;; ret list
          end;;
  h <- get_list list;;
  set_cell (l_tail h) (with_data d);;;
  check_list_invariants list;;;
  ret list.

Definition lappend (list : ptr) (p : ptr) : M heap ptr := lappend_gen T_List list (DPtr p).
Definition lappend_int (list : ptr) (z : Z) : M heap ptr := lappend_gen T_IntList list (DInt z).
Definition lappend_oid (list : ptr) (z : Z) : M heap ptr := lappend_gen T_OidList list (DOid z).

Definition add_new_cell (list prev_cell : ptr) : M heap ptr :=
  pc <- get_cell prev_cell;;
  new_cell <- palloc (OCell (mkCell DUndef (c_next pc)));;
  set_cell prev_cell (with_next (Some new_cell));;;
  h <- get_list list;;
  (if bool_decide (l_tail h = prev_cell) then set_list list (with_tail (Some new_cell)) else ret ());;;
  set_list list (λ h, with_length (l_length h + 1) h);;;
  ret (Some new_cell).

Definition lappend_cell_gen (t : NodeTag) (list prev : ptr) (d : datum) : M heap ptr :=
  assert_typed t list;;;
  new_cell <- add_new_cell list prev;;
  set_cell new_cell (with_data d);;;
  check_list_invariants list;;;
  ret new_cell.

Definition lappend_cell (list prev : ptr) (p : ptr) := lappend_cell_gen T_List list prev (DPtr p).
Definition lappend_cell_int (list prev : ptr) (z : Z) := lappend_cell_gen T_IntList list prev (DInt z).
Definition lappend_cell_oid (list prev : ptr) (z : Z) := lappend_cell_gen T_OidList list prev (DOid z).

Definition lcons_gen (t : NodeTag) (d : datum) (list : ptr) : M heap ptr :=
  assert_typed t list;;;
  list <- match list with
          | None => new_list t
          | Some _ => new_head_cell list;;; ret list
          end;;
  h <- get_list list;;
  set_cell (l_head h) (with_data d);;;
  check_list_invariants list;;;
  ret list.

Definition lcons (p : ptr) (list : ptr) : M heap ptr := lcons_gen T_List (DPtr p) list.
Definition lcons_int (z : Z) (list : ptr) : M heap ptr := lcons_gen T_IntList (DInt z) list.
Definition lcons_oid (z : Z) (list : ptr) : M heap ptr := lcons_gen T_OidList (DOid z) list.

Definition list_concat (list1 list2 : ptr) : M heap ptr :=
  match list1, list2 with
  | None, _ => ret list2
  | _, None => ret list1
  | Some a, Some b =>
      if bool_decide (a = b) then fail EElog else
      h1 <- get_list list1;;
      h2 <- get_list list2;;
      Assert (bool_decide (l_type h1 = l_type h2));;;
      set_list list1 (λ h, with_length (l_length h + l_length h2) h);;;
      set_cell (l_tail h1) (with_next (l_head h2));;;
      set_list list1 (with_tail (l_tail h2));;;
      check_list_invariants list1;;;
      ret list1
  end.

Definition list_truncate (list : ptr) (new_size : Z) : M heap ptr :=
  if new_size <=? 0 then ret None else
  len <- list_length list;;
  if len <=? new_size then ret list else
  r <- foreach list (λ cell n,
         if n =? new_size then
           set_cell cell (with_next None);;;
           set_list list (with_tail cell);;;
           set_list list (with_length new_size);;;
           check_list_invariants list;;;
           ret (Done list)
         else ret (Cont (n + 1))) 1;;
  match r with
  | Done l => ret l
  | Cont _ => Assert false;;; ret list
  end.

(** ** list.c: access *)

Fixpoint advance (n : nat) (match_ : ptr) : M heap ptr :=
  match n with
  | O => ret match_
  | S n => m <- lnext match_;; advance n m
  end.

Definition list_nth_cell (list : ptr) (n : Z) : M heap ptr :=
  Assert (bool_decide (list ≠ None));;;
  Assert (0 <=? n);;;
  h <- get_list list;;
  Assert (n <? l_length h);;;
  check_list_invariants list;;;
  if n =? l_length h - 1 then ret (l_tail h) else advance (Z.to_nat n) (l_head h).

Definition list_nth (list : ptr) (n : Z) : M heap ptr :=
  assert_typed T_List list;;; c <- list_nth_cell list n;; lfirst c.
Definition list_nth_int (list : ptr) (n : Z) : M heap Z :=
  assert_typed T_IntList list;;; c <- list_nth_cell list n;; lfirst_int c.
Definition list_nth_oid (list : ptr) (n : Z) : M heap Z :=
  assert_typed T_OidList list;;; c <- list_nth_cell list n;; lfirst_oid c.

(** The membership loops differ in the type of the list and the comparison. *)
Definition list_member_gen (t : NodeTag) (test : ptr → M heap bool) (list : ptr) : M heap bool :=
  assert_typed t list;;;
  check_list_invariants list;;;
  r <- foreach list (λ cell (_ : ()),
         b <- test cell;; ret (if b : bool then Done true else Cont ())) ();;
  ret match r with Done b => b | Cont _ => false end.

Section Equal.
(** [equal()] on the nodes that two pointers point to. *)
Variable equal : ptr → ptr → bool.

Definition test_equal (datum : ptr) (cell : ptr) : M heap bool :=
  d <- lfirst cell;; ret (equal d datum).

Definition list_member (list : ptr) (datum : ptr) : M heap bool :=
  list_member_gen T_List (test_equal datum) list.
End Equal.

Definition ptr_eqb (p q : ptr) : bool := bool_decide (p = q).

Definition list_member_ptr (list : ptr) (datum : ptr) : M heap bool :=
  list_member_gen T_List (test_equal ptr_eqb datum) list.

Definition test_int (datum : Z) (cell : ptr) : M heap bool :=
  d <- lfirst_int cell;; ret (d =? datum).
Definition test_oid (datum : Z) (cell : ptr) : M heap bool :=
  d <- lfirst_oid cell;; ret (d =? datum).

Definition list_member_int (list : ptr) (datum : Z) : M heap bool :=
  list_member_gen T_IntList (test_int datum) list.
Definition list_member_oid (list : ptr) (datum : Z) : M heap bool :=
  list_member_gen T_OidList (test_oid datum) list.

(** ** list.c: release *)

Fixpoint free_cells (fuel : nat) (deep : bool) (cell : ptr) : M heap () :=
  match fuel with
  | O => fail EFuel
  | S fuel =>
      match cell with
      | None => ret ()
      | Some _ =>
          next <- lnext cell;;
          (if deep then d <- lfirst cell;; pfree d else ret ());;;
          pfree cell;;;
          free_cells fuel deep next
      end
  end.

Definition list_free_private (list : ptr) (deep : bool) : M heap () :=
  check_list_invariants list;;;
  cell <- list_head list;;
  fuel <- heap_fuel;;
  free_cells fuel deep cell;;;
  match list with None => ret () | Some _ => pfree list end.

Definition list_free (list : ptr) : M heap () := list_free_private list false.

Definition list_free_deep (list : ptr) : M heap () :=
  assert_typed T_List list;;; list_free_private list true.

(** ** list.c: deletion *)

Definition list_delete_cell (list cell prev : ptr) : M heap ptr :=
  check_list_invariants list;;;
  (if use_assert then
     match prev with
     | Some _ => n <- lnext prev;; Assert (bool_decide (n = cell))
     | None => hd <- list_head list;; Assert (bool_decide (hd = cell))
     end
   else ret ());;;
  h <- get_list list;;
  if l_length h =? 1 then list_free list;;; ret None else
  set_list list (λ h, with_length (l_length h - 1) h);;;
  c <- get_cell cell;;
  match prev with
  | Some _ => set_cell prev (with_next (c_next c))
  | None => set_list list (with_head (c_next c))
  end;;;
  h <- get_list list;;
  (if bool_decide (l_tail h = cell) then set_list list (with_tail prev) else ret ());;;
  pfree cell;;;
  ret list.

Definition list_delete_gen (t : NodeTag) (test : ptr → M heap bool) (list : ptr) : M heap ptr :=
  assert_typed t list;;;
  check_list_invariants list;;;
  r <- foreach list (λ cell prev,
         b <- test cell;;
         if b : bool then l <- list_delete_cell list cell prev;; ret (Done l)
         else ret (Cont cell)) None;;
  ret match r with Done l => l | Cont _ => list end.

Definition list_delete (equal : ptr → ptr → bool) (list datum : ptr) : M heap ptr :=
  list_delete_gen T_List (test_equal equal datum) list.
Definition list_delete_ptr (list datum : ptr) : M heap ptr :=
  list_delete_gen T_List (test_equal ptr_eqb datum) list.
Definition list_delete_int (list : ptr) (datum : Z) : M heap ptr :=
  list_delete_gen T_IntList (test_int datum) list.
Definition list_delete_oid (list : ptr) (datum : Z) : M heap ptr :=
  list_delete_gen T_OidList (test_oid datum) list.

Definition list_delete_first (list : ptr) : M heap ptr :=
  check_list_invariants list;;;
  match list with
  | None => ret None
  | Some _ => hd <- list_head list;; list_delete_cell list hd None
  end.

(** ** list.c: copies *)

(** The copying loop of [list_copy] and [list_copy_tail]: returns the last new cell. *)
Fixpoint copy_cells (fuel : nat) (newlist_prev oldlist_cur : ptr) : M heap ptr :=
  match fuel with
  | O => fail EFuel
  | S fuel =>
      match oldlist_cur with
      | None => ret newlist_prev
      | Some _ =>
          d <- ldata oldlist_cur;;
          newlist_cur <- palloc (OCell (mkCell d None));;
          set_cell newlist_prev (with_next (Some newlist_cur));;;
          n <- lnext oldlist_cur;;
          copy_cells fuel (Some newlist_cur) n
      end
  end.

(** The part the two copies share, from the first cell to copy on. *)
Definition copy_from (oldlist : ListHdr) (len : Z) (oldlist_cur : ptr) : M heap ptr :=
  newlist <- new_list (l_type oldlist);;
  set_list newlist (with_length len);;;
  hd <- list_head newlist;;
  d <- ldata oldlist_cur;;
  set_cell hd (with_data d);;;
  n <- lnext oldlist_cur;;
  fuel <- heap_fuel;;
  newlist_prev <- copy_cells fuel hd n;;
  set_cell newlist_prev (with_next None);;;
  set_list newlist (with_tail newlist_prev);;;
  check_list_invariants newlist;;;
  ret newlist.

Definition list_copy (oldlist : ptr) : M heap ptr :=
  match oldlist with
  | None => ret None
  | Some _ => h <- get_list oldlist;; copy_from h (l_length h) (l_head h)
  end.

Definition list_copy_tail (oldlist : ptr) (nskip : Z) : M heap ptr :=
  let nskip := if nskip <? 0 then 0 else nskip in
  match oldlist with
  | None => ret None
  | Some _ =>
      h <- get_list oldlist;;
      if l_length h <=? nskip then ret None else
      cur <- advance (Z.to_nat nskip) (l_head h);;
      copy_from h (l_length h - nskip) cur
  end.

(** ** list.c: set operations *)

(** One loop per set operation; [read] is lfirst, lfirst_int or lfirst_oid, [mem]
    the membership test and [app] the append of the same type. *)
Definition append_missing {X : Type} (read : ptr → M heap X) (mem : ptr → X → M heap bool)
    (app : ptr → X → M heap ptr) (list2 result : ptr) : M heap ptr :=
  r <- foreach (R := ptr) list2 (λ cell result,
         x <- read cell;;
         b <- mem result x;;
         if b : bool then ret (Cont result) else result <- app result x;; ret (Cont result)) result;;
  match r with Cont l => ret l | Done l => ret l end.

(** Keeps the members of [list1] whose membership in [list2] is [want]. *)
Definition filter_by {X : Type} (read : ptr → M heap X) (mem : ptr → X → M heap bool)
    (app : ptr → X → M heap ptr) (want : bool) (list1 list2 : ptr) : M heap ptr :=
  r <- foreach (R := ptr) list1 (λ cell result,
         x <- read cell;;
         b <- mem list2 x;;
         if Bool.eqb b want then result <- app result x;; ret (Cont result)
         else ret (Cont result)) None;;
  match r with Cont l => ret l | Done l => ret l end.

Definition list_union_gen {X : Type} (t : NodeTag) (read : ptr → M heap X)
    (mem : ptr → X → M heap bool) (app : ptr → X → M heap ptr) (list1 list2 : ptr) : M heap ptr :=
  assert_typed t list1;;;
  assert_typed t list2;;;
  result <- list_copy list1;;
  result <- append_missing read mem app list2 result;;
  check_list_invariants result;;;
  ret result.

Definition list_union (equal : ptr → ptr → bool) : ptr → ptr → M heap ptr :=
  list_union_gen T_List lfirst (list_member equal) lappend.
Definition list_union_ptr : ptr → ptr → M heap ptr :=
  list_union_gen T_List lfirst list_member_ptr lappend.
Definition list_union_int : ptr → ptr → M heap ptr :=
  list_union_gen T_IntList lfirst_int list_member_int lappend_int.
Definition list_union_oid : ptr → ptr → M heap ptr :=
  list_union_gen T_OidList lfirst_oid list_member_oid lappend_oid.

Definition list_intersection_gen {X : Type} (t : NodeTag) (read : ptr → M heap X)
    (mem : ptr → X → M heap bool) (app : ptr → X → M heap ptr) (list1 list2 : ptr) : M heap ptr :=
  match list1, list2 with
  | None, _ | _, None => ret None
  | _, _ =>
      assert_typed t list1;;;
      assert_typed t list2;;;
      result <- filter_by read mem app true list1 list2;;
      check_list_invariants result;;;
      ret result
  end.

Definition list_intersection (equal : ptr → ptr → bool) : ptr → ptr → M heap ptr :=
  list_intersection_gen T_List lfirst (list_member equal) lappend.
Definition list_intersection_int : ptr → ptr → M heap ptr :=
  list_intersection_gen T_IntList lfirst_int list_member_int lappend_int.

Definition list_difference_gen {X : Type} (t : NodeTag) (read : ptr → M heap X)
    (mem : ptr → X → M heap bool) (app : ptr → X → M heap ptr) (list1 list2 : ptr) : M heap ptr :=
  assert_typed t list1;;;
  assert_typed t list2;;;
  match list2 with
  | None => list_copy list1
  | Some _ =>
      result <- filter_by read mem app false list1 list2;;
      check_list_invariants result;;;
      ret result
  end.

Definition list_difference (equal : ptr → ptr → bool) : ptr → ptr → M heap ptr :=
  list_difference_gen T_List lfirst (list_member equal) lappend.
Definition list_difference_ptr : ptr → ptr → M heap ptr :=
  list_difference_gen T_List lfirst list_member_ptr lappend.
Definition list_difference_int : ptr → ptr → M heap ptr :=
  list_difference_gen T_IntList lfirst_int list_member_int lappend_int.
Definition list_difference_oid : ptr → ptr → M heap ptr :=
  list_difference_gen T_OidList lfirst_oid list_member_oid lappend_oid.

Definition append_unique_gen {X : Type} (mem : ptr → X → M heap bool)
    (app : ptr → X → M heap ptr) (list : ptr) (datum : X) : M heap ptr :=
  b <- mem list datum;; if b : bool then ret list else app list datum.

Definition list_append_unique (equal : ptr → ptr → bool) : ptr → ptr → M heap ptr :=
  append_unique_gen (list_member equal) lappend.
Definition list_append_unique_ptr : ptr → ptr → M heap ptr :=
  append_unique_gen list_member_ptr lappend.
Definition list_append_unique_int : ptr → Z → M heap ptr :=
  append_unique_gen list_member_int lappend_int.
Definition list_append_unique_oid : ptr → Z → M heap ptr :=
  append_unique_gen list_member_oid lappend_oid.

Definition concat_unique_gen {X : Type} (t : NodeTag) (read : ptr → M heap X)
    (mem : ptr → X → M heap bool) (app : ptr → X → M heap ptr) (list1 list2 : ptr) : M heap ptr :=
  assert_typed t list1;;;
  assert_typed t list2;;;
  list1 <- append_missing read mem app list2 list1;;
  check_list_invariants list1;;;
  ret list1.

Definition list_concat_unique (equal : ptr → ptr → bool) : ptr → ptr → M heap ptr :=
  concat_unique_gen T_List lfirst (list_member equal) lappend.
Definition list_concat_unique_ptr : ptr → ptr → M heap ptr :=
  concat_unique_gen T_List lfirst list_member_ptr lappend.
Definition list_concat_unique_int : ptr → ptr → M heap ptr :=
  concat_unique_gen T_IntList lfirst_int list_member_int lappend_int.
Definition list_concat_unique_oid : ptr → ptr → M heap ptr :=
  concat_unique_gen T_OidList lfirst_oid list_member_oid lappend_oid.

End PgList.

(** ** Reading a list back *)

(** The data of the cells that a [foreach] over a list visits. *)
Definition read_list (l : ptr) : M heap (list datum) :=
  r <- foreach (R := list datum) l (λ cell acc, d <- ldata cell;; ret (Cont (acc ++ [d]))) [];;
  match r with Cont ds => ret ds | Done ds => ret ds end.
