(* ===== verification/ListSpec.v ===== *)
(** Correctness of list.c: every routine of [PgList], run on a heap that holds a
    well-formed list, returns a well-formed list whose data is what the
    corresponding function on Rocq lists gives, in builds with and without
    assertions, and leaves every object outside the lists it may modify unchanged.

    [is_list h t p cs] says that pointer [p] is a list of type [t] whose cells and
    data are [cs]; [framed X h h'] that [h'] differs from [h] only in [X] and in
    newly allocated objects. *)

From S2P Require Import Prelude Nodes PgList.

(** ** Representation *)

Definition cells := list (positive * datum).

Definition heap_ok (h : heap) : Prop :=
  ∀ l o, h_objs h !! l = Some o → (l < h_brk h)%positive.

Fixpoint seg (h : heap) (p : option positive) (cs : cells) (q : option positive) : Prop :=
  match cs with
  | [] => p = q
  | (l, d) :: cs' =>
      p = Some l ∧ ∃ n, h_objs h !! l = Some (OCell (mkCell d n)) ∧ seg h n cs' q
  end.

Definition head_ptr (cs : cells) : option positive := fst <$> head cs.
Definition last_ptr (cs : cells) : option positive := fst <$> last cs.

Definition is_list (h : heap) (t : NodeTag) (p : option positive) (cs : cells) : Prop :=
  match p with
  | None => cs = []
  | Some a =>
      cs ≠ [] ∧
      h_objs h !! a =
        Some (OList (mkHdr t (Z.of_nat (length cs)) (head_ptr cs) (last_ptr cs))) ∧
      seg h (head_ptr cs) cs None
  end.

Definition footprint (p : option positive) (cs : cells) : list positive :=
  option_list p ++ cs.*1.

Definition framed (X : list positive) (h h' : heap) : Prop :=
  (h_brk h ≤ h_brk h')%positive ∧
  ∀ x, (x < h_brk h)%positive → x ∉ X → h_objs h' !! x = h_objs h !! x.

Lemma elem_footprint x p cs : x ∈ footprint p cs ↔ p = Some x ∨ x ∈ cs.*1.
Proof.
  unfold footprint. rewrite elem_of_app. destruct p; simpl; [|set_solver].
  rewrite list_elem_of_singleton. naive_solver.
Qed.

Lemma elem_cells_app x (cs1 cs2 : cells) : x ∈ (cs1 ++ cs2).*1 ↔ x ∈ cs1.*1 ∨ x ∈ cs2.*1.
Proof. by rewrite fmap_app, elem_of_app. Qed.

Lemma elem_cells_one x l (d : datum) : x ∈ ([(l, d)] : cells).*1 ↔ x = l.
Proof. simpl. by rewrite list_elem_of_singleton. Qed.

(** ** Segments *)

Lemma seg_app h p cs1 cs2 q :
  seg h p (cs1 ++ cs2) q ↔ ∃ r, seg h p cs1 r ∧ seg h r cs2 q.
Proof.
  revert p. induction cs1 as [|[l d] cs1 IH]; intros p; simpl.
  - split; [eauto|]. by intros (r & -> & ?).
  - setoid_rewrite IH. naive_solver.
Qed.

Lemma seg_frame h h' p cs q :
  (∀ x, x ∈ cs.*1 → h_objs h' !! x = h_objs h !! x) → seg h p cs q → seg h' p cs q.
Proof.
  revert p. induction cs as [|[l d] cs IH]; intros p Hf; simpl; [done|].
  intros [-> (n & Hl & Hs)]. split; [done|]. exists n. split.
  - rewrite Hf; [done|]. set_solver.
  - apply IH; [|done]. set_solver.
Qed.

Lemma seg_lookup h p cs q x :
  seg h p cs q → x ∈ cs.*1 → ∃ c, h_objs h !! x = Some (OCell c).
Proof.
  revert p. induction cs as [|[l d] cs IH]; intros p; simpl; [set_solver|].
  intros [-> (n & Hl & Hs)] [->|Hx]%elem_of_cons; eauto.
Qed.

(** A chain that ends in NULL is determined by its first cell. *)
Lemma seg_det h p cs cs' :
  seg h p cs None → seg h p cs' None → cs = cs'.
Proof.
  revert p cs'. induction cs as [|[l d] cs IH]; intros p [|[l' d'] cs']; simpl.
  - done.
  - intros -> [? _]. done.
  - intros [-> _] ?. done.
  - intros [-> (n & Hl & Hs)] [? (n' & Hl' & Hs')]. simplify_eq.
    f_equal. eauto.
Qed.

(** A cell occurs once in a chain that ends. *)
Lemma seg_NoDup h p cs : seg h p cs None → NoDup cs.*1.
Proof.
  revert p. induction cs as [|[l d] cs IH]; intros p; simpl; [constructor|].
  intros [-> (n & Hl & Hs)]. constructor; [|eauto].
  intros ([l' d'] & Heq & Hin)%list_elem_of_fmap. simpl in Heq. subst l'.
  apply list_elem_of_split in Hin as (c1 & c2 & ->).
  apply seg_app in Hs as Hs'. destruct Hs' as (r & _ & Hr).
  assert ((l, d) :: c1 ++ (l, d') :: c2 = (l, d') :: c2) as E.
  { eapply (seg_det h (Some l)); simpl; [eauto|]. by destruct Hr as [-> ?]. }
  apply (f_equal length) in E. simpl in E. rewrite length_app in E. simpl in E. lia.
Qed.

Lemma head_ptr_seg h p cs q : cs ≠ [] → seg h p cs q → p = head_ptr cs.
Proof. destruct cs as [|[l d] cs]; [done|]. by intros _ [-> _]. Qed.

Lemma last_ptr_snoc cs l d : last_ptr (cs ++ [(l, d)]) = Some l.
Proof. unfold last_ptr. by rewrite last_snoc. Qed.

Lemma last_ptr_app cs cs' : cs' ≠ [] → last_ptr (cs ++ cs') = last_ptr cs'.
Proof.
  intros Hne. destruct (exists_last Hne) as (c & [l d] & ->).
  by rewrite app_assoc, !last_ptr_snoc.
Qed.

Lemma head_ptr_app cs cs' : cs ≠ [] → head_ptr (cs ++ cs') = head_ptr cs.
Proof. by destruct cs. Qed.

(** Redirecting the last cell of a chain to another segment. *)
Lemma seg_relink h h' p cs l d q q' :
  seg h p (cs ++ [(l, d)]) q →
  (∀ x, x ∈ cs.*1 → h_objs h' !! x = h_objs h !! x) →
  h_objs h' !! l = Some (OCell (mkCell d q')) →
  seg h' p (cs ++ [(l, d)]) q'.
Proof.
  intros (r & Hs & Hl)%seg_app Hf Hl'. apply seg_app. exists r. split.
  - by eapply seg_frame.
  - simpl in *. destruct Hl as [-> _]. eauto.
Qed.

(** ** Frames *)

Lemma framed_refl X h : framed X h h.
Proof. split; [lia|done]. Qed.

Lemma framed_mono X Y h h' : framed X h h' → X ⊆ Y → framed Y h h'.
Proof. intros [? H] HXY. split; [done|]. intros x ? ?. apply H; set_solver. Qed.

Lemma framed_trans X Y h1 h2 h3 :
  framed X h1 h2 → framed Y h2 h3 →
  (∀ x, x ∈ Y → x ∈ X ∨ (h_brk h1 ≤ x)%positive) →
  framed X h1 h3.
Proof.
  intros [Hb1 H1] [Hb2 H2] HY. split; [lia|]. intros x Hx HnX.
  rewrite H2; [by apply H1|lia|]. intros HxY. destruct (HY x HxY); [done|lia].
Qed.

Lemma heap_ok_fresh h : heap_ok h → h_objs h !! h_brk h = None.
Proof.
  intros Hok. destruct (_ !! _) as [o|] eqn:E; [|done]. apply Hok in E. lia.
Qed.

Lemma is_list_bound h t p cs x :
  heap_ok h → is_list h t p cs → x ∈ footprint p cs → (x < h_brk h)%positive.
Proof.
  unfold footprint. intros Hok Hl Hx. destruct p as [a|]; simpl in *.
  - destruct Hl as (_ & Ha & Hs). apply elem_of_cons in Hx as [->|Hx]; [eauto|].
    destruct (seg_lookup _ _ _ _ _ Hs Hx). eauto.
  - subst. set_solver.
Qed.

Lemma is_list_frame X h h' t p cs :
  heap_ok h → framed X h h' → footprint p cs ## X →
  is_list h t p cs → is_list h' t p cs.
Proof.
  intros Hok [Hb Hf] Hd Hl.
  assert (∀ x, x ∈ footprint p cs → h_objs h' !! x = h_objs h !! x) as Hsame.
  { intros x Hx. apply Hf; [by eapply is_list_bound|]. set_solver. }
  unfold footprint in Hsame. destruct p as [a|]; simpl in *; [|done].
  destruct Hl as (Hne & Ha & Hs). split; [done|]. split.
  - rewrite Hsame; [done|set_solver].
  - eapply seg_frame; [|done]. set_solver.
Qed.

Lemma is_list_nil h t cs : is_list h t None cs → cs = [].
Proof. done. Qed.

Lemma is_list_header_not_cell h t a cs :
  is_list h t (Some a) cs → a ∉ cs.*1.
Proof.
  intros (_ & Ha & Hs) Hin. destruct (seg_lookup _ _ _ _ _ Hs Hin). naive_solver.
Qed.

Lemma is_list_NoDup h t p cs : is_list h t p cs → NoDup (footprint p cs).
Proof.
  destruct p as [a|]; simpl.
  - intros Hl. constructor; [by eapply is_list_header_not_cell|].
    destruct Hl as (_ & _ & Hs). by eapply seg_NoDup.
  - intros ->. constructor.
Qed.

(** The number of cells of a list is below the fuel of [foreach]. *)
Lemma NoDup_bounded (l : list positive) (n : positive) :
  NoDup l → (∀ x, x ∈ l → (x < n)%positive) → (length l < Pos.to_nat n)%nat.
Proof.
  intros Hnd Hb.
  assert (length (Pos.to_nat <$> l) ≤ length (seq 1 (Pos.to_nat n - 1)))%nat as H.
  { apply NoDup_incl_length.
    - apply NoDup_ListNoDup. apply NoDup_fmap; [|done]. intros ???. lia.
    - intros x Hx. apply list_elem_of_In in Hx. apply list_elem_of_fmap in Hx as (y & -> & Hy).
      apply in_seq. specialize (Hb y Hy). lia. }
  rewrite length_fmap, length_seq in H. lia.
Qed.

Lemma is_list_fuel h t p cs :
  heap_ok h → is_list h t p cs → (length cs < Pos.to_nat (h_brk h))%nat.
Proof.
  intros Hok Hl. assert (length (footprint p cs) < Pos.to_nat (h_brk h))%nat as H.
  { apply NoDup_bounded; [by eapply is_list_NoDup|]. eauto using is_list_bound. }
  unfold footprint in H. rewrite length_app, length_fmap in H. lia.
Qed.

(** ** Running the primitives *)

Lemma get_list_Ok h a l :
  h_objs h !! a = Some (OList l) → get_list (Some a) h = Ok (l, h).
Proof. intros E. unfold get_list, bind, get_obj. by rewrite E. Qed.

Lemma get_cell_Ok h a c :
  h_objs h !! a = Some (OCell c) → get_cell (Some a) h = Ok (c, h).
Proof. intros E. unfold get_cell, bind, get_obj. by rewrite E. Qed.

Lemma get_node_Ok h a n :
  h_objs h !! a = Some (ONode n) → get_node (Some a) h = Ok (n, h).
Proof. intros E. unfold get_node, bind, get_obj. by rewrite E. Qed.

Lemma set_list_Ok h a l f :
  h_objs h !! a = Some (OList l) →
  set_list (Some a) f h = Ok ((), mkHeap (<[a := OList (f l)]> (h_objs h)) (h_brk h)).
Proof. intros E. unfold set_list, bind, get_list, bind, get_obj. by rewrite E. Qed.

Lemma set_cell_Ok h a c f :
  h_objs h !! a = Some (OCell c) →
  set_cell (Some a) f h = Ok ((), mkHeap (<[a := OCell (f c)]> (h_objs h)) (h_brk h)).
Proof. intros E. unfold set_cell, bind, get_cell, bind, get_obj. by rewrite E. Qed.

Lemma lnext_Ok h a c :
  h_objs h !! a = Some (OCell c) → lnext (Some a) h = Ok (c_next c, h).
Proof. intros E. unfold lnext, bind. by rewrite (get_cell_Ok _ _ _ E). Qed.

Lemma ldata_Ok h a c :
  h_objs h !! a = Some (OCell c) → ldata (Some a) h = Ok (c_data c, h).
Proof. intros E. unfold ldata, bind. by rewrite (get_cell_Ok _ _ _ E). Qed.

Lemma list_head_Ok h a l :
  h_objs h !! a = Some (OList l) → list_head (Some a) h = Ok (l_head l, h).
Proof. intros E. unfold list_head, bind. by rewrite (get_list_Ok _ _ _ E). Qed.

Lemma pfree_Ok h a o :
  h_objs h !! a = Some o →
  pfree (Some a) h = Ok ((), mkHeap (delete a (h_objs h)) (h_brk h)).
Proof. intros E. unfold pfree. by rewrite E. Qed.

(** [mlookup] solves a lookup in an updated heap, [mprim] one primitive step and
    [mrun] a sequence of steps whose outcome the heap determines. *)
Ltac mlookup := simpl; simplify_map_eq; reflexivity.

Ltac mprim :=
  lazymatch goal with
  | |- get_list _ _ = _ => apply get_list_Ok; mlookup
  | |- get_cell _ _ = _ => apply get_cell_Ok; mlookup
  | |- lnext _ _ = _ => apply lnext_Ok; mlookup
  | |- ldata _ _ = _ => apply ldata_Ok; mlookup
  | |- list_head _ _ = _ => apply list_head_Ok; mlookup
  | |- set_list _ _ _ = _ => apply set_list_Ok; mlookup
  | |- set_cell _ _ _ = _ => apply set_cell_Ok; mlookup
  | |- pfree _ _ = _ => eapply pfree_Ok; mlookup
  | |- palloc _ _ = _ => reflexivity
  | |- ret _ _ = _ => reflexivity
  | |- heap_fuel _ = _ => reflexivity
  | |- modc _ _ = _ => reflexivity
  | |- getc _ = _ => reflexivity
  end.

Ltac mrun :=
  repeat first
    [ rewrite bind_assoc
    | erewrite bind_Ok by mprim; cbn beta iota delta [h_brk h_objs l_type l_length l_head l_tail c_data c_next
        with_length with_head with_tail with_next with_data] ].

Section Specs.
Context {B : Build}.

(** ** Assertions hold on well-formed lists *)

Lemma assert_typed_ok h t p cs :
  is_list h t p cs → assert_typed t p h = Ok ((), h).
Proof.
  unfold assert_typed, IsTypedList. destruct use_assert; [|done].
  destruct p as [a|]; simpl.
  - intros (_ & Ha & _). mrun. apply Assert_true. by apply bool_decide_eq_true.
  - intros _. unfold bind, ret. apply Assert_true. done.
Qed.

Lemma check_list_invariants_ok h t p cs :
  is_list h t p cs → check_list_invariants p h = Ok ((), h).
Proof.
  unfold check_list_invariants. destruct use_assert; [|done].
  destruct p as [a|]; simpl; [|done].
  intros (Hne & Ha & Hs). mrun.
  destruct (exists_last Hne) as (c & [l d] & ->).
  rewrite last_ptr_snoc in *. apply seg_app in Hs as Hs'.
  destruct Hs' as (r & Hc & [-> (n & Hl & ->)]).
  assert (is_Some (head_ptr (c ++ [(l, d)]))) as [hd Hhd] by (destruct c; simpl; eauto).
  rewrite Hhd in *.
  rewrite length_app. simpl length. 
  erewrite bind_Ok by (apply Assert_true; apply Z.ltb_lt; lia).
  erewrite bind_Ok by (apply Assert_true; by apply bool_decide_eq_true).
  erewrite bind_Ok by (apply Assert_true; by apply bool_decide_eq_true).
  destruct c as [|[l1 d1] [|[l2 d2] c]]; unfold head_ptr in Hhd; simpl in Hhd; simplify_eq; simpl in Hs, Hc.
  - rewrite bind_Ok with (a := ()) (s' := h); [|apply Assert_true; by apply bool_decide_eq_true].
    simpl. rewrite bind_Ok with (a := ()) (s' := h); [|done].
    mrun. apply Assert_true. by apply bool_decide_eq_true.
  - rewrite bind_Ok with (a := ()) (s' := h); [|done].
    destruct Hc as [_ (n & Hn & ->)]. simpl.
    mrun. erewrite bind_Ok by (apply Assert_true; by apply bool_decide_eq_true).
    mrun. apply Assert_true. by apply bool_decide_eq_true.
  - simpl length. 
    replace (Z.of_nat (S (S (length c)) + 1) =? 1) with false by (symmetry; apply Z.eqb_neq; lia).
    replace (Z.of_nat (S (S (length c)) + 1) =? 2) with false by (symmetry; apply Z.eqb_neq; lia).
    rewrite bind_Ok with (a := ()) (s' := h); [|done].
    rewrite bind_Ok with (a := ()) (s' := h); [|done].
    mrun. apply Assert_true. by apply bool_decide_eq_true.
Qed.

(** ** What a list operation leaves behind *)

(** [list_step h p cs h' t p' cs']: the list [p] of [h] became the list [p'] of
    [h'], which consists of cells of the old list and of new ones, and nothing
    else that existed before was touched. *)
Definition list_step (h : heap) (p : option positive) (cs : cells)
    (h' : heap) (t : NodeTag) (p' : option positive) (cs' : cells) : Prop :=
  is_list h' t p' cs' ∧ heap_ok h' ∧ framed (footprint p cs) h h' ∧
  ∀ x, x ∈ footprint p' cs' → x ∈ footprint p cs ∨ (h_brk h ≤ x)%positive.

Lemma heap_ok_insert h l o b :
  heap_ok h → (l < b)%positive → (h_brk h ≤ b)%positive →
  heap_ok (mkHeap (<[l := o]> (h_objs h)) b).
Proof.
  intros Hok Hl Hb x o' Hx. simpl in *. apply lookup_insert_Some in Hx as [[-> _]|[_ Hx]]; [done|].
  apply Hok in Hx. lia.
Qed.

Lemma heap_ok_delete h l : heap_ok h → heap_ok (mkHeap (delete l (h_objs h)) (h_brk h)).
Proof. intros Hok x o Hx. simpl in *. apply lookup_delete_Some in Hx as [_ Hx]. eauto. Qed.

Lemma new_list_singleton h t d d0 :
  heap_ok h →
  let h' := mkHeap (<[h_brk h := OCell (mkCell d None)]>
              (<[Pos.succ (h_brk h) := OList (mkHdr t 1 (Some (h_brk h)) (Some (h_brk h)))]>
                (<[h_brk h := OCell (mkCell d0 None)]> (h_objs h))))
              (Pos.succ (Pos.succ (h_brk h))) in
  list_step h None [] h' t (Some (Pos.succ (h_brk h))) [(h_brk h, d)].
Proof.
  intros Hok h'. assert (h_brk h ≠ Pos.succ (h_brk h)) as Hne by lia.
  repeat split; simpl.
  - done.
  - by simplify_map_eq.
  - eexists. by simplify_map_eq.
  - intros x o Hx. subst h'. simpl in *.
    repeat (apply lookup_insert_Some in Hx as [[<- _]|[_ Hx]]; [lia|]). apply Hok in Hx. lia.
  - lia.
  - intros x Hx _. by rewrite !lookup_insert_ne by lia.
  - intros x Hx. unfold footprint in Hx. simpl in Hx. right. set_unfold in Hx. naive_solver lia.
Qed.

(** ** Inserting a cell *)

Lemma not_in_parts (h : heap) p c1 l d c2 :
  seg h p (c1 ++ (l, d) :: c2) None →
  (l ∉ c1.*1) ∧ (l ∉ c2.*1) ∧ (∀ x, x ∈ c1.*1 → x ∉ c2.*1).
Proof.
  intros Hnd%seg_NoDup. rewrite fmap_app, fmap_cons in Hnd.
  apply NoDup_app in Hnd as (_ & H1 & [H2 _]%NoDup_cons). simpl in *.
  split_and!; [|done|].
  - intros Hl. apply (H1 l Hl). constructor.
  - intros x Hx1 Hx2. apply (H1 x Hx1). by constructor.
Qed.

Lemma seg_split h p c1 l d c2 q :
  seg h p (c1 ++ (l, d) :: c2) q →
  seg h p c1 (Some l) ∧ ∃ n, h_objs h !! l = Some (OCell (mkCell d n)) ∧ seg h n c2 q.
Proof. intros (r & H1 & [-> H2])%seg_app. eauto. Qed.

Lemma head_ptr_seg_None h n c : seg h n c None → n = head_ptr c.
Proof. destruct c as [|c0 c]; [done|]. intros H. by eapply head_ptr_seg. Qed.

Lemma last_ptr_cons_app c1 l (d : datum) c2 :
  last_ptr (c1 ++ (l, d) :: c2) = match last_ptr c2 with Some x => Some x | None => Some l end.
Proof.
  rewrite last_ptr_app by done. destruct c2 as [|c c2]; [done|].
  unfold last_ptr. simpl. by destruct (last (c :: c2)) eqn:E; [|apply last_None in E].
Qed.

Lemma last_ptr_None c : last_ptr c = None ↔ c = [].
Proof. unfold last_ptr. rewrite fmap_None. apply last_None. Qed.

Lemma last_ptr_in c x : last_ptr c = Some x → x ∈ c.*1.
Proof.
  unfold last_ptr. intros ([l d] & Hl & ->)%fmap_Some. simpl.
  apply last_Some in Hl as [c' ->]. rewrite elem_cells_app. right. constructor.
Qed.

(** Splicing a new cell between two parts of a list: the state that [lcons] and
    [lappend_cell] leave. *)
Lemma splice_is_list h h' t a c1 l d c2 :
  heap_ok h → is_list h t (Some a) (c1 ++ c2) → c1 ++ c2 ≠ [] →
  h_objs h' !! a = Some (OList (mkHdr t (Z.of_nat (length (c1 ++ c2)) + 1)
      (head_ptr (c1 ++ (l, d) :: c2)) (last_ptr (c1 ++ (l, d) :: c2)))) →
  h_objs h' !! l = Some (OCell (mkCell d (head_ptr c2))) →
  (∀ x, x ∈ c2.*1 → h_objs h' !! x = h_objs h !! x) →
  seg h' (head_ptr (c1 ++ (l, d) :: c2)) c1 (Some l) →
  is_list h' t (Some a) (c1 ++ (l, d) :: c2).
Proof.
  intros Hok (_ & _ & Hs) Hne Ha Hl Hf Hs1. split; [by destruct c1|]. split.
  - rewrite Ha. do 4 f_equal. rewrite !length_app. simpl. lia.
  - apply seg_app. exists (Some l). split; [done|]. simpl. split; [done|].
    exists (head_ptr c2). split; [done|].
    apply seg_app in Hs as (r & _ & Hr). destruct c2 as [|c c2]; [done|].
    rewrite <- (head_ptr_seg h r (c :: c2) None) by done. by eapply seg_frame.
Qed.

(** A new cell behind cell [l0]: the state that [lappend] and [lappend_cell] leave. *)
Lemma inserted_step h h' t a c1 l0 d0 c2 d :
  let l := h_brk h in
  let cs' := c1 ++ (l0, d0) :: (l, d) :: c2 in
  heap_ok h → is_list h t (Some a) (c1 ++ (l0, d0) :: c2) → h_brk h' = Pos.succ l →
  h_objs h' !! a = Some (OList (mkHdr t (Z.of_nat (length (c1 ++ (l0, d0) :: c2)) + 1) (head_ptr cs') (last_ptr cs'))) →
  h_objs h' !! l0 = Some (OCell (mkCell d0 (Some l))) → h_objs h' !! l = Some (OCell (mkCell d (head_ptr c2))) →
  (∀ x, x ≠ a → x ≠ l0 → x ≠ l → h_objs h' !! x = h_objs h !! x) →
  list_step h (Some a) (c1 ++ (l0, d0) :: c2) h' t (Some a) cs'.
Proof.
  intros l cs' Hok Hl Hb Ha' Hl0' Hl' Hsame. subst cs'. pose proof Hl as (Hne & Ha & Hs).
  destruct (not_in_parts _ _ _ _ _ _ Hs) as (Hn1 & Hn2 & Hn12).
  destruct (seg_split _ _ _ _ _ _ _ Hs) as (Hs1 & n & Hl0 & Hs2).
  assert (∀ x, x ∈ (c1 ++ (l0, d0) :: c2).*1 → (x < l)%positive ∧ x ≠ a) as Hin.
  { intros x Hx. split; [eapply is_list_bound; [done..|]; apply elem_footprint; auto|].
    intros ->. by apply (is_list_header_not_cell _ _ _ _ Hl). }
  assert (∀ x, x ∈ c1.*1 ∨ x ∈ c2.*1 → h_objs h' !! x = h_objs h !! x) as Hkeep.
  { intros x Hx. assert (x ∈ (c1 ++ (l0, d0) :: c2).*1) as Hx' by (rewrite elem_cells_app, fmap_cons, elem_of_cons; tauto).
    apply Hin in Hx' as []. apply Hsame; [done| |lia]. intros ->. tauto. }
  change ((l0, d0) :: (l, d) :: c2) with ([(l0, d0)] ++ (l, d) :: c2) in *.
  change ((l0, d0) :: c2) with ([(l0, d0)] ++ c2) in *. rewrite !app_assoc in *. split_and!.
  - apply (splice_is_list h); try done; [auto|].
    replace (head_ptr _) with (head_ptr ((c1 ++ [(l0, d0)]) ++ c2)) by (by destruct c1).
    eapply (seg_relink h); [apply seg_app; exists (Some l0); split; [exact Hs1|]; simpl; eauto|auto|done].
  - intros x o Hx. rewrite Hb. destruct (decide (x = a)) as [->|]; [apply Hok in Ha; lia|].
    destruct (decide (x = l0)) as [->|]; [apply Hok in Hl0; lia|]. destruct (decide (x = l)) as [->|]; [lia|].
    rewrite Hsame in Hx by done. apply Hok in Hx. lia.
  - split; [lia|]. intros x Hx Hnx. rewrite elem_footprint, !elem_cells_app, elem_cells_one in Hnx.
    apply Hsame; naive_solver lia.
  - intros x. rewrite !elem_footprint, !elem_cells_app, elem_cells_one, fmap_cons, elem_of_cons. simpl.
    intros [?|[?|[->|?]]]; auto. right. lia.
Qed.

(** ** Appending at the end *)

Lemma lappend_gen_ok h t p cs d :
  heap_ok h → is_list h t p cs →
  ∃ p' l h', lappend_gen t p d h = Ok (p', h') ∧
    list_step h p cs h' t p' (cs ++ [(l, d)]) ∧ (h_brk h ≤ l)%positive.
Proof.
  intros Hok Hl. unfold lappend_gen. erewrite bind_Ok by by eapply assert_typed_ok.
  destruct p as [a|].
  - pose proof Hl as (Hne & Ha & Hs). pose proof (Hok _ _ Ha) as Hlt.
    destruct (exists_last Hne) as (c & [l0 d0] & ->). rewrite last_ptr_snoc in Ha.
    pose proof (seg_split _ _ _ _ _ _ _ Hs) as (_ & n & Hl0 & ->). pose proof (Hok _ _ Hl0) as Hlt0.
    assert (a ≠ l0) as Hal by congruence. assert (a ≠ h_brk h) as Hab by lia. assert (l0 ≠ h_brk h) as Hlb by lia.
    unfold new_tail_cell. mrun. set (h' := mkHeap _ _).
    assert (list_step h (Some a) (c ++ [(l0, d0)]) h' t (Some a) ((c ++ [(l0, d0)]) ++ [(h_brk h, d)])) as Hstep.
    { rewrite <- app_assoc. apply (inserted_step h h' t a c l0 d0 [] d); try done; subst h'; simpl; simplify_map_eq; try done.
      - rewrite last_ptr_cons_app. do 3 f_equal. by destruct c.
      - intros x ???. by rewrite !lookup_insert_ne. }
    erewrite bind_Ok by (eapply check_list_invariants_ok; apply Hstep).
    exists (Some a), (h_brk h), h'. split; [done|]. split; [done|lia].
  - simpl in Hl. subst cs. unfold new_list. assert (Pos.succ (h_brk h) ≠ h_brk h) by lia. mrun.
    pose proof (new_list_singleton h t d DUndef Hok) as Hstep. cbv zeta in Hstep.
    erewrite bind_Ok by (eapply check_list_invariants_ok; apply Hstep).
    eexists _, _, _. split; [done|]. split; [apply Hstep|lia].
Qed.

(** ** Concatenation *)

(** On lists that do not share cells, [list_concat] returns the concatenation; the
    second list stays valid and its cells are now the tail of the first. *)
Lemma list_concat_ok h t p1 cs1 p2 cs2 :
  heap_ok h → is_list h t p1 cs1 → is_list h t p2 cs2 →
  footprint p1 cs1 ## footprint p2 cs2 →
  ∃ p h', list_concat p1 p2 h = Ok (p, h') ∧
    is_list h' t p (cs1 ++ cs2) ∧ is_list h' t p2 cs2 ∧
    heap_ok h' ∧ framed (footprint p1 cs1) h h' ∧ h_brk h' = h_brk h ∧
    p = match p1 with None => p2 | Some _ => p1 end.
Proof.
  intros Hok H1 H2 Hdisj. unfold list_concat.
  destruct p1 as [a|].
  2: { simpl in H1. subst cs1. exists p2, h. split_and!; auto using framed_refl. }
  destruct p2 as [b|].
  2: { simpl in H2. subst cs2. exists (Some a), h. rewrite app_nil_r.
       split; [done|]. split_and!; try done; apply framed_refl. }
  assert (a ≠ b) as Hab by (unfold footprint in Hdisj; set_solver).
  rewrite bool_decide_eq_false_2 by done.
  pose proof H1 as (Hne1 & Ha & Hs1). pose proof H2 as (Hne2 & Hb & Hs2).
  destruct (exists_last Hne1) as (c & [l d] & ->).
  rewrite last_ptr_snoc in Ha.
  assert (∃ n, h_objs h !! l = Some (OCell (mkCell d n))) as [n Hl].
  { apply seg_app in Hs1 as (r & _ & [-> (n & Hl & _)]). eauto. }
  assert (a ≠ l) as Hal by congruence. assert (b ≠ l) as Hbl by congruence.
  assert (∀ x, x ∈ cs2.*1 → x ≠ a ∧ x ≠ l) as Hx2.
  { intros x Hx. split; intros ->; eapply Hdisj; rewrite elem_footprint; [left|right|right|right];
      rewrite ?elem_cells_app, ?elem_cells_one; eauto. }
  mrun. erewrite bind_Ok by (apply Assert_true; by apply bool_decide_eq_true).
  mrun. set (h' := mkHeap _ _).
  assert (∀ x, x ≠ a → x ≠ l → h_objs h' !! x = h_objs h !! x) as Hsame.
  { intros x ? ?. subst h'. simpl. by rewrite !lookup_insert_ne by done. }
  assert (is_list h' t (Some b) cs2) as H2'.
  { split; [done|]. split; [by rewrite Hsame|]. eapply seg_frame; [|done].
    intros x Hx. by apply Hsame; apply Hx2. }
  assert (is_list h' t (Some a) ((c ++ [(l, d)]) ++ cs2)) as H1'.
  { split; [by destruct c|]. split.
    - rewrite last_ptr_app, head_ptr_app by done. subst h'. simpl. simplify_map_eq.
      unfold with_length, with_tail. simpl. rewrite !length_app. simpl. do 3 f_equal. lia.
    - rewrite head_ptr_app by done. apply seg_app. exists (head_ptr cs2). split; [|apply H2'].
      pose proof (seg_NoDup _ _ _ Hs1) as Hnd. rewrite fmap_app in Hnd.
      apply NoDup_app in Hnd as (_ & Hnd & _).
      eapply (seg_relink h); [done|..].
      + intros x Hx. apply Hsame; intros ->; [|apply (Hnd l); simpl; [done|constructor]].
        apply (is_list_header_not_cell _ _ _ _ H1). rewrite elem_cells_app. by left.
      + subst h'. simpl. by simplify_map_eq. }
  erewrite bind_Ok by by eapply check_list_invariants_ok.
  exists (Some a), h'. split_and!; try done.
  - intros x o Hx. subst h'. simpl in *.
    repeat (apply lookup_insert_Some in Hx as [[<- _]|[_ Hx]]; [eauto|]). eauto.
  - split; [done|]. intros x _ Hx. rewrite elem_footprint, elem_cells_app, elem_cells_one in Hx.
    apply Hsame; naive_solver.
Qed.

(** ** Loops *)

(** The result of a [foreach] whose body only reads. *)
Fixpoint run_loop {A R : Type} (g : datum → A → loop A R) (ds : list datum) (a : A) : loop A R :=
  match ds with
  | [] => Cont a
  | d :: ds => match g d a with Cont a' => run_loop g ds a' | Done r => Done r end
  end.

Lemma foreach_from_readonly {A R : Type} (body : option positive → A → M heap (loop A R)) g h cs p fuel a :
  seg h p cs None → (length cs < fuel)%nat →
  (∀ l d a, (l, d) ∈ cs → body (Some l) a h = Ok (g d a, h)) →
  foreach_from fuel p body a h = Ok (run_loop g cs.*2 a, h).
Proof.
  revert p fuel a. induction cs as [|[l d] cs IH]; intros p [|fuel] a; simpl; try lia.
  - intros -> _ _. done.
  - intros [-> (n & Hl & Hs)] Hf Hbody.
    erewrite bind_Ok by (apply Hbody; constructor).
    destruct (g d a) as [a'|r]; [|done].
    mrun. apply IH; [done|lia|]. intros l' d' a'' Hin. apply Hbody. by constructor.
Qed.

Lemma foreach_readonly {A R : Type} (body : option positive → A → M heap (loop A R)) g h t p cs a :
  heap_ok h → is_list h t p cs →
  (∀ l d a, (l, d) ∈ cs → body (Some l) a h = Ok (g d a, h)) →
  foreach p body a h = Ok (run_loop g cs.*2 a, h).
Proof.
  intros Hok Hl Hbody. unfold foreach. pose proof (is_list_fuel _ _ _ _ Hok Hl) as Hfuel.
  destruct p as [b|]; simpl in Hl.
  - destruct Hl as (_ & Hb & Hs). mrun. by apply foreach_from_readonly.
  - subst. simpl. mrun. destruct (Pos.to_nat (h_brk h)) eqn:E; [lia|]. done.
Qed.

(** The general rule: an invariant on the cells visited so far; the body must keep
    the link of the cell it is at. *)
Lemma foreach_from_rule {A R : Type} (body : option positive → A → M heap (loop A R))
    (I : cells → A → heap → Prop) (Q : R → heap → Prop) (cs : cells) :
  (∀ done l d rest a h, cs = done ++ (l, d) :: rest → I done a h →
     (∃ a' h' d', body (Some l) a h = Ok (Cont a', h') ∧ I (done ++ [(l, d)]) a' h' ∧
        h_objs h' !! l = Some (OCell (mkCell d' (head_ptr rest)))) ∨
     (∃ r h', body (Some l) a h = Ok (Done r, h') ∧ Q r h')) →
  ∀ rest done fuel a h, cs = done ++ rest → (length rest < fuel)%nat → I done a h →
  ∃ out h', foreach_from fuel (head_ptr rest) body a h = Ok (out, h') ∧
    match out with Cont a' => I cs a' h' | Done r => Q r h' end.
Proof.
  intros Hbody rest. induction rest as [|[l d] rest IH]; intros done [|fuel] a h Hcs Hf HI;
    simpl in Hf; try lia; simpl.
  - exists (Cont a), h. split; [done|]. rewrite app_nil_r in Hcs. by subst.
  - destruct (Hbody done l d rest a h Hcs HI) as [(a' & h' & d' & E & HI' & Hl)|(r & h' & E & HQ)].
    + erewrite bind_Ok by done. cbn beta iota. mrun.
      apply (IH (done ++ [(l, d)])); [|lia|done]. by rewrite <- app_assoc.
    + erewrite bind_Ok by done. eexists (Done r), h'. done.
Qed.
End Specs.
