(* ===== verification/ListOps.v ===== *)
(** Correctness of the routines of list.c that the properties state: access,
    membership, insertion, deletion, truncation, copies, release and the set
    operations, against functions on Rocq lists.  The pointer, integer and OID
    variants are instances of one record of operations with laws, [elem_ops]. *)

From S2P Require Import Prelude Nodes PgList ListSpec.

Section Ops.
Context {B : Build}.

(** ** Access by position *)

Lemma advance_ok h cs p n l d :
  seg h p cs None → cs !! n = Some (l, d) → advance n p h = Ok (Some l, h).
Proof.
  revert p cs. induction n as [|n IH]; intros p [|[l' d'] cs]; simpl; try done.
  - intros [-> _] ?. by simplify_eq.
  - intros [-> (m & Hl & Hs)] Hn. mrun. eauto.
Qed.

Lemma seg_cell h p cs q l d :
  seg h p cs q → (l, d) ∈ cs → ∃ n, h_objs h !! l = Some (OCell (mkCell d n)).
Proof.
  revert p. induction cs as [|[l' d'] cs IH]; intros p; simpl; [set_solver|].
  intros [-> (n & Hl & Hs)] [?|Hin]%elem_of_cons; simplify_eq; eauto.
Qed.

Lemma last_ptr_lookup cs i l d :
  cs !! i = Some (l, d) → i = Nat.pred (length cs) → last_ptr cs = Some l.
Proof. intros Hi ->. unfold last_ptr. rewrite last_lookup. by rewrite Hi. Qed.

Lemma list_nth_cell_ok h t p cs n l d :
  is_list h t p cs → 0 ≤ n → cs !! Z.to_nat n = Some (l, d) →
  list_nth_cell p n h = Ok (Some l, h).
Proof.
  intros Hl Hn Hi. unfold list_nth_cell.
  destruct p as [a|]; [|simpl in Hl; by subst cs].
  pose proof (lookup_lt_Some _ _ _ Hi) as Hlt.
  erewrite bind_Ok by (apply Assert_true; by apply bool_decide_eq_true).
  erewrite bind_Ok by (apply Assert_true; by apply Z.leb_le).
  pose proof Hl as (Hne & Ha & Hs). mrun.
  erewrite bind_Ok by (apply Assert_true; apply Z.ltb_lt; lia).
  erewrite bind_Ok by by eapply check_list_invariants_ok.
  destruct (Z.eqb_spec n (Z.of_nat (length cs) - 1)) as [E|E].
  - unfold ret. erewrite last_ptr_lookup; [done|done|lia].
  - by eapply advance_ok.
Qed.

(** ** Insertion at the front and after a cell *)

Lemma list_cells_bound h t p cs l d :
  heap_ok h → is_list h t p cs → (l, d) ∈ cs → (l < h_brk h)%positive.
Proof.
  intros Hok Hl Hin. eapply is_list_bound; [done..|]. apply elem_footprint. right.
  apply list_elem_of_fmap. by exists (l, d).
Qed.

Lemma lcons_gen_ok h t p cs d :
  heap_ok h → is_list h t p cs →
  ∃ p' l h', lcons_gen t d p h = Ok (p', h') ∧
    list_step h p cs h' t p' ((l, d) :: cs) ∧ (h_brk h ≤ l)%positive.
Proof.
  intros Hok Hl. unfold lcons_gen. erewrite bind_Ok by by eapply assert_typed_ok.
  destruct p as [a|].
  - pose proof Hl as (Hne & Ha & Hs). pose proof (Hok _ _ Ha) as Hlt.
    assert (a ≠ h_brk h) as Hab by lia.
    unfold new_head_cell. mrun. set (h' := mkHeap _ _).
    assert (list_step h (Some a) cs h' t (Some a) ((h_brk h, d) :: cs)) as Hstep.
    { split_and!.
      - apply (splice_is_list h h' t a [] (h_brk h) d cs); try done.
        + subst h'. simpl. simplify_map_eq. unfold with_length, with_head. simpl.
          by rewrite <- (last_ptr_app [(h_brk h, d)] cs) by done.
        + subst h'. simpl. by simplify_map_eq.
        + intros x Hx. assert (x ∈ footprint (Some a) cs) as Hx' by (apply elem_footprint; auto).
          pose proof (is_list_bound _ _ _ _ _ Hok Hl Hx'). subst h'. simpl.
          assert (x ≠ a) by (intros ->; by apply (is_list_header_not_cell _ _ _ _ Hl)).
          rewrite !lookup_insert_ne by lia. done.
      - subst h'. intros x o Hx. simpl in *.
        repeat (apply lookup_insert_Some in Hx as [[<- _]|[_ Hx]]; [lia|]). apply Hok in Hx. lia.
      - subst h'. split; simpl; [lia|]. intros x Hx Hnx. rewrite elem_footprint in Hnx.
        assert (x ≠ a) by naive_solver. by rewrite !lookup_insert_ne by lia.
      - intros x. rewrite !elem_footprint, fmap_cons, elem_of_cons. simpl. intros [?|[->|?]]; eauto. lia. }
    erewrite bind_Ok by (eapply check_list_invariants_ok; apply Hstep).
    eexists _, _, _. split; [done|]. split; [done|lia].
  - simpl in Hl. subst cs. unfold new_list. assert (Pos.succ (h_brk h) ≠ h_brk h) by lia. mrun.
    pose proof (new_list_singleton h t d DUndef Hok) as Hstep. cbv zeta in Hstep.
    erewrite bind_Ok by (eapply check_list_invariants_ok; apply Hstep).
    eexists _, _, _. split; [done|]. split; [apply Hstep|lia].
Qed.

(** [lappend_cell] inserts the new cell right after [prev]. *)
Lemma lappend_cell_gen_ok h t a c1 l0 d0 c2 d :
  heap_ok h → is_list h t (Some a) (c1 ++ (l0, d0) :: c2) →
  ∃ l h', lappend_cell_gen t (Some a) (Some l0) d h = Ok (Some l, h') ∧
    list_step h (Some a) (c1 ++ (l0, d0) :: c2) h' t (Some a) (c1 ++ (l0, d0) :: (l, d) :: c2).
Proof.
  intros Hok Hl. unfold lappend_cell_gen, add_new_cell.
  erewrite bind_Ok by by eapply assert_typed_ok.
  pose proof Hl as (Hne & Ha & Hs). pose proof (Hok _ _ Ha) as Hlt.
  destruct (not_in_parts _ _ _ _ _ _ Hs) as (Hn1 & Hn2 & Hn12).
  destruct (seg_split _ _ _ _ _ _ _ Hs) as (Hs1 & n & Hl0 & Hs2).
  pose proof (head_ptr_seg_None _ _ _ Hs2) as ->. pose proof (Hok _ _ Hl0) as Hlt0.
  assert (a ≠ l0) as Hal by congruence.
  assert (a ≠ h_brk h) as Hab by lia. assert (l0 ≠ h_brk h) as Hlb by lia.
  set (tl := last_ptr (c1 ++ (l0, d0) :: (h_brk h, d) :: c2)).
  assert (tl = if bool_decide (last_ptr (c1 ++ (l0, d0) :: c2) = Some l0)
               then Some (h_brk h) else last_ptr (c1 ++ (l0, d0) :: c2)) as Htl.
  { subst tl. rewrite !(last_ptr_app c1) by done.
    change (last_ptr ([(l0, d0)] ++ (h_brk h, d) :: c2) = if bool_decide (last_ptr ([] ++ (l0, d0) :: c2) = Some l0)
      then Some (h_brk h) else last_ptr ([] ++ (l0, d0) :: c2)).
    rewrite !last_ptr_cons_app. destruct (last_ptr c2) as [x|] eqn:E.
    - rewrite bool_decide_eq_false_2; [done|]. intros [= ->]. by apply Hn2, last_ptr_in.
    - by rewrite bool_decide_eq_true_2. }
  mrun.
  assert (∃ h1, (if bool_decide (last_ptr (c1 ++ (l0, d0) :: c2) = Some l0)
             then set_list (Some a) (with_tail (Some (h_brk h))) else ret ())
      (mkHeap (<[l0:=OCell (mkCell d0 (Some (h_brk h)))]>
         (<[h_brk h:=OCell (mkCell DUndef (head_ptr c2))]> (h_objs h))) (Pos.succ (h_brk h)))
     = Ok ((), h1) ∧ h1 = mkHeap (<[a := OList (mkHdr t (Z.of_nat (length (c1 ++ (l0, d0) :: c2)))
         (head_ptr (c1 ++ (l0, d0) :: c2)) tl)]> (<[l0:=OCell (mkCell d0 (Some (h_brk h)))]>
         (<[h_brk h:=OCell (mkCell DUndef (head_ptr c2))]> (h_objs h)))) (Pos.succ (h_brk h))) as (h1 & E1 & ->).
  { case_bool_decide.
    - eexists. split; [erewrite set_list_Ok by mlookup; reflexivity|]. unfold with_tail. simpl. by rewrite Htl.
    - eexists. split; [reflexivity|]. rewrite Htl. f_equal. symmetry. apply insert_id. by simplify_map_eq. }
  erewrite bind_Ok by exact E1. clear E1 Htl. mrun. set (h' := mkHeap _ _).
  assert (list_step h (Some a) (c1 ++ (l0, d0) :: c2) h' t (Some a) (c1 ++ (l0, d0) :: (h_brk h, d) :: c2)) as Hstep.
  { apply inserted_step; try done; subst h'; simpl; simplify_map_eq; try done.
    - do 3 f_equal. by destruct c1.
    - intros x ???. by rewrite !lookup_insert_ne. }
  erewrite bind_Ok by (eapply check_list_invariants_ok; apply Hstep).
  eexists _, _. split; [done|done].
Qed.

(** ** Copies *)

Lemma copy_cells_ok cs : ∀ h fuel prev d0 cur,
  heap_ok h → seg h cur cs None → h_objs h !! prev = Some (OCell (mkCell d0 None)) →
  prev ∉ cs.*1 → (length cs < fuel)%nat →
  ∃ lastp new h', copy_cells fuel (Some prev) cur h = Ok (Some lastp, h') ∧
    seg h' (Some prev) ((prev, d0) :: new) None ∧ last_ptr ((prev, d0) :: new) = Some lastp ∧
    new.*2 = cs.*2 ∧ heap_ok h' ∧ framed [prev] h h' ∧
    (∀ x, x ∈ new.*1 → (h_brk h ≤ x)%positive).
Proof.
  induction cs as [|[l d] cs IH]; intros h [|fuel] prev d0 cur Hok; simpl; try lia.
  - intros -> Hp _ _. exists prev, [], h. split; [done|]. split; [simpl; eauto|].
    do 3 (split; [done|]). split; [apply framed_refl|]. simpl. intros x Hx. by apply elem_of_nil in Hx.
  - intros [-> (n & Hl & Hs)] Hp Hnp Hf. pose proof (Hok _ _ Hp) as Hltp.
    pose proof (Hok _ _ Hl) as Hltl.
    assert (prev ≠ l) as Hpl by set_solver. assert (prev ≠ h_brk h) by lia.
    assert (l ≠ h_brk h) by lia. mrun.
    set (h1 := mkHeap _ _).
    assert (∀ x, x ∈ cs.*1 → x ≠ prev ∧ (x < h_brk h)%positive) as Hcs.
    { intros x Hx. split; [set_solver|]. destruct (seg_lookup _ _ _ _ _ Hs Hx). eauto. }
    destruct (IH h1 fuel (h_brk h) d n) as (lastp & new & h' & E & Hseg & Hlast & Hdata & Hok' & Hfr & Hnew).
    + subst h1. intros x o Hx. simpl in *.
      repeat (apply lookup_insert_Some in Hx as [[<- _]|[_ Hx]]; [lia|]). apply Hok in Hx. lia.
    + eapply seg_frame; [|exact Hs]. intros x Hx. destruct (Hcs x Hx). subst h1. simpl.
      by rewrite !lookup_insert_ne by lia.
    + subst h1. simpl. by simplify_map_eq.
    + intros Hx. destruct (Hcs _ Hx). lia.
    + lia.
    + exists lastp, ((h_brk h, d) :: new), h'. split_and!; try done.
      * eexists. split; [|exact Hseg]. destruct Hfr as [_ Hfr].
        rewrite Hfr; [subst h1; simpl; by simplify_map_eq|subst h1; simpl; lia|].
        rewrite list_elem_of_singleton. lia.
      * change (d :: new.*2 = d :: cs.*2). by rewrite Hdata.
      * eapply (framed_trans [prev] [h_brk h] h h1); [|done|].
        -- subst h1. split; simpl; [lia|]. intros x Hx Hnx. rewrite list_elem_of_singleton in Hnx.
           by rewrite !lookup_insert_ne by lia.
        -- intros x. rewrite list_elem_of_singleton. intros ->. right. lia.
      * intros x. rewrite fmap_cons, elem_of_cons. intros [->|Hx]; simpl; [lia|].
        apply Hnew in Hx. subst h1. simpl in Hx. lia.
Qed.

Lemma seg_head_eq h c cs : seg h (Some c) cs None → ∃ d cs', cs = (c, d) :: cs'.
Proof. destruct cs as [|[l d] cs]; [done|]. intros [[= ->] _]. eauto. Qed.

(** The last cell of a chain. *)
Lemma seg_last h p cs l : seg h p cs None → last_ptr cs = Some l → ∃ d, h_objs h !! l = Some (OCell (mkCell d None)).
Proof.
  intros Hs Hl. destruct (exists_last (l := cs)) as (c & [l' d] & ->); [by intros ->|].
  rewrite last_ptr_snoc in Hl. simplify_eq. apply seg_split in Hs as (_ & n & Hl & <-). by exists d.
Qed.

(** The new list, once its cells are copied: the header, allocated behind the first cell, is
    given its tail pointer. *)
Lemma copied_step h h2 h' t d new lastp :
  let b := h_brk h in
  let cs := (b, d) :: new in
  (Pos.succ (Pos.succ b) ≤ h_brk h2)%positive → heap_ok h2 →
  (∀ x, (x < b)%positive → h_objs h2 !! x = h_objs h !! x) → (∀ x, x ∈ new.*1 → (Pos.succ b < x)%positive) →
  seg h2 (Some b) cs None → last_ptr cs = Some lastp → h_brk h' = h_brk h2 →
  h_objs h' = <[Pos.succ b := OList (mkHdr t (Z.of_nat (length cs)) (Some b) (Some lastp))]> (h_objs h2) →
  list_step h None [] h' t (Some (Pos.succ b)) cs.
Proof.
  intros b cs Hb Hok2 Hfr Hnew Hseg Hlast Hbrk Hobjs. split_and!.
  - split; [done|]. split; [by rewrite Hobjs, lookup_insert_eq, Hlast|]. eapply seg_frame; [|exact Hseg].
    intros x Hx. rewrite Hobjs, lookup_insert_ne; [done|]. subst cs. rewrite fmap_cons, elem_of_cons in Hx.
    destruct Hx as [->|Hx%Hnew]; cbn; lia.
  - intros x o Hx. rewrite Hobjs in Hx. rewrite Hbrk. apply lookup_insert_Some in Hx as [[<- _]|[_ Hx]]; [lia|eauto].
  - split; [lia|]. intros x Hx _. rewrite Hobjs, lookup_insert_ne by lia. by apply Hfr.
  - intros x. rewrite elem_footprint. subst cs. rewrite fmap_cons, elem_of_cons.
    intros [[= <-]|[->|Hx%Hnew]]; right; simpl; lia.
Qed.

(** The shared part of the two copies, from a cell of the old list on. *)
Lemma copy_from_ok h hd c cs :
  heap_ok h → seg h (Some c) cs None → (length cs < Pos.to_nat (h_brk h))%nat →
  ∃ p' cs' h', copy_from hd (Z.of_nat (length cs)) (Some c) h = Ok (p', h') ∧
    list_step h None [] h' (l_type hd) p' cs' ∧ cs'.*2 = cs.*2.
Proof.
  intros Hok Hs Hfuel. destruct (seg_head_eq _ _ _ Hs) as (d & cs0 & ->).
  pose proof Hs as [_ (n & Hc & Hs0)]. pose proof (Hok _ _ Hc) as Hltc.
  assert (c ≠ h_brk h) by lia. assert (c ≠ Pos.succ (h_brk h)) by lia.
  assert (Pos.succ (h_brk h) ≠ h_brk h) by lia.
  unfold copy_from, new_list. mrun. set (h1 := mkHeap _ _).
  assert (∀ x, (x < h_brk h)%positive → h_objs h1 !! x = h_objs h !! x) as Hold.
  { intros x Hx. subst h1. simpl. by rewrite !lookup_insert_ne by lia. }
  assert (∀ x, x ∈ cs0.*1 → (x < h_brk h)%positive) as Hlt.
  { intros x Hx. destruct (seg_lookup _ _ _ _ _ Hs0 Hx) as [? Hx']. by apply Hok in Hx'. }
  destruct (copy_cells_ok cs0 h1 (Pos.to_nat (Pos.succ (Pos.succ (h_brk h)))) (h_brk h) d n)
    as (lastp & new & h2 & E & Hseg & Hlast & Hdata & Hok2 & [Hb Hfr] & Hnew).
  - subst h1. intros x o Hx. simpl in *.
    repeat (apply lookup_insert_Some in Hx as [[<- _]|[_ Hx]]; [lia|]). apply Hok in Hx. lia.
  - eapply seg_frame; [|exact Hs0]. auto.
  - subst h1. simpl. by simplify_map_eq.
  - intros Hx%Hlt. lia.
  - simpl in Hfuel. lia.
  - erewrite bind_Ok by exact E. destruct (seg_last _ _ _ _ Hseg Hlast) as (dl & Hdl).
    assert (∀ x, x ∈ new.*1 → (Pos.succ (h_brk h) < x)%positive) as Hnew' by (intros x Hx%Hnew; subst h1; simpl in Hx; lia).
    assert (lastp ≠ Pos.succ (h_brk h)) as Hne.
    { apply last_ptr_in in Hlast. rewrite fmap_cons, elem_of_cons in Hlast. destruct Hlast as [->|Hx%Hnew']; cbn; lia. }
    assert (h_objs h2 !! Pos.succ (h_brk h) = Some (OList (mkHdr (l_type hd)
       (Z.of_nat (length ((c, d) :: cs0))) (Some (h_brk h)) (Some (h_brk h))))) as Hhdr.
    { rewrite Hfr; [subst h1; simpl; by simplify_map_eq|subst h1; simpl; lia|]. rewrite list_elem_of_singleton. lia. }
    assert (length new = length cs0) as Hlen by (apply (f_equal length) in Hdata; by rewrite !length_fmap in Hdata).
    mrun. set (h' := mkHeap _ _).
    assert (list_step h None [] h' (l_type hd) (Some (Pos.succ (h_brk h))) ((h_brk h, d) :: new)) as Hstep.
    { apply (copied_step h h2 h' _ d new lastp); try done.
      - intros x Hx. rewrite Hfr; [by apply Hold|subst h1; simpl; lia|]. rewrite list_elem_of_singleton. lia.
      - subst h'. simpl. rewrite Hlen. f_equal. by apply insert_id. }
    erewrite bind_Ok by (eapply check_list_invariants_ok; apply Hstep).
    eexists _, _, _. split; [done|]. split; [done|].
    change (d :: new.*2 = d :: cs0.*2). by rewrite Hdata.
Qed.

Lemma list_copy_ok h t p cs :
  heap_ok h → is_list h t p cs →
  ∃ p' cs' h', list_copy p h = Ok (p', h') ∧
    list_step h None [] h' t p' cs' ∧ cs'.*2 = cs.*2.
Proof.
  intros Hok Hl. pose proof (is_list_fuel _ _ _ _ Hok Hl) as Hfuel.
  destruct p as [a|]; simpl.
  - destruct Hl as (Hne & Ha & Hs). mrun.
    destruct (head_ptr cs) as [c|] eqn:E; [|by destruct cs].
    by destruct (copy_from_ok h (mkHdr t (Z.of_nat (length cs)) (Some c) (last_ptr cs)) c cs)
      as (p' & cs' & h' & ? & ? & ?); eauto 10.
  - simpl in Hl. subst. eexists None, [], h. split; [done|]. split; [|done].
    split_and!; try done. by intros x Hx%elem_of_nil.
Qed.

Lemma seg_drop h p cs n l d :
  seg h p cs None → cs !! n = Some (l, d) → seg h (Some l) (drop n cs) None.
Proof.
  revert p n. induction cs as [|[l' d'] cs IH]; intros p [|n]; simpl; try done.
  - intros Hs ?. simplify_eq. destruct Hs as [-> ?]. done.
  - intros [_ (m & _ & Hs)] Hn. eauto.
Qed.

(** [list_copy_tail] drops the first [nskip] elements. *)
Lemma list_copy_tail_ok h t p cs nskip :
  heap_ok h → is_list h t p cs →
  ∃ p' cs' h', list_copy_tail p nskip h = Ok (p', h') ∧
    list_step h None [] h' t p' cs' ∧ cs'.*2 = drop (Z.to_nat nskip) cs.*2.
Proof.
  intros Hok Hl. unfold list_copy_tail. set (k := if nskip <? 0 then 0 else nskip).
  assert (Z.to_nat nskip = Z.to_nat k ∧ 0 ≤ k) as [-> Hk].
  { subst k. destruct (Z.ltb_spec nskip 0); [|lia]. split; [|done]. by destruct nskip. }
  clearbody k. clear nskip. pose proof (is_list_fuel _ _ _ _ Hok Hl) as Hfuel.
  destruct p as [a|]; simpl in Hl.
  2: { subst. exists None, [], h. split; [done|]. split; [|by destruct (Z.to_nat k)].
       split_and!; try done. by intros x Hx%elem_of_nil. }
  destruct Hl as (Hne & Ha & Hs). mrun.
  destruct (Z.leb_spec (Z.of_nat (length cs)) k) as [Hge|Hlt].
  - exists None, [], h. split; [done|]. split.
    + split_and!; try done. by intros x Hx%elem_of_nil.
    + rewrite drop_ge; [done|]. rewrite length_fmap. lia.
  - destruct (lookup_lt_is_Some_2 cs (Z.to_nat k)) as [[l d] Hkl]; [lia|].
    erewrite bind_Ok by by eapply advance_ok.
    pose proof (seg_drop _ _ _ _ _ _ Hs Hkl) as Hs'.
    replace (Z.of_nat (length cs) - k) with (Z.of_nat (length (drop (Z.to_nat k) cs)))
      by (rewrite length_drop; lia).
    destruct (copy_from_ok h (mkHdr t (Z.of_nat (length cs)) (head_ptr cs) (last_ptr cs)) l
                (drop (Z.to_nat k) cs)) as (p' & cs' & h' & ? & ? & Hd); [done|done|rewrite length_drop; lia|].
    exists p', cs', h'. split; [done|]. split; [done|]. by rewrite Hd, fmap_drop.
Qed.

(** ** Release *)

(** [list_free] removes exactly the header and the cells. *)
Lemma free_cells_ok cs : ∀ h p fuel,
  seg h p cs None → (length cs < fuel)%nat →
  ∃ h', free_cells fuel false p h = Ok ((), h') ∧ h_brk h' = h_brk h ∧
    ∀ x, h_objs h' !! x = if bool_decide (x ∈ cs.*1) then None else h_objs h !! x.
Proof.
  induction cs as [|[l d] cs IH]; intros h p [|fuel] Hs Hf; simpl in Hf; try lia.
  - simpl in Hs. subst. exists h. done.
  - pose proof (seg_NoDup _ _ _ Hs) as [Hnl _]%NoDup_cons.
    destruct Hs as [-> (n & Hl & Hs)]. simpl. mrun.
    destruct (IH (mkHeap (delete l (h_objs h)) (h_brk h)) n fuel) as (h' & E & Hb & Hx); [|lia|].
    + eapply seg_frame; [|done]. intros x Hx. simpl. rewrite lookup_delete_ne; [done|]. by intros ->.
    + exists h'. split; [done|]. split; [done|]. intros x. rewrite Hx. simpl.
      destruct (decide (x = l)) as [->|Hne].
      * rewrite (bool_decide_eq_true_2 (l ∈ _ :: _)) by constructor.
        rewrite lookup_delete_eq. by case_bool_decide.
      * rewrite lookup_delete_ne by done.
        rewrite (bool_decide_ext (x ∈ _ :: _) (x ∈ cs.*1)); [done|]. rewrite elem_of_cons. naive_solver.
Qed.

Lemma list_free_ok h t p cs :
  heap_ok h → is_list h t p cs →
  ∃ h', list_free p h = Ok ((), h') ∧ h_brk h' = h_brk h ∧
    ∀ x, h_objs h' !! x = if bool_decide (x ∈ footprint p cs) then None else h_objs h !! x.
Proof.
  intros Hok Hl. unfold list_free, list_free_private.
  erewrite bind_Ok by by eapply check_list_invariants_ok.
  pose proof (is_list_fuel _ _ _ _ Hok Hl) as Hfuel.
  destruct p as [a|].
  - pose proof (is_list_header_not_cell _ _ _ _ Hl) as Hna.
    pose proof Hl as (_ & Ha & Hs). mrun.
    destruct (free_cells_ok cs h (head_ptr cs) (Pos.to_nat (h_brk h)) Hs Hfuel) as (h1 & E & Hb & Hx).
    erewrite bind_Ok by exact E.
    erewrite pfree_Ok by (rewrite Hx, bool_decide_eq_false_2; done).
    eexists. split; [done|]. split; [done|]. intros x. simpl.
    destruct (decide (x = a)) as [->|Hne].
    + rewrite lookup_delete_eq, bool_decide_eq_true_2; [done|]. apply elem_footprint. auto.
    + rewrite lookup_delete_ne by done. rewrite Hx.
      erewrite (bool_decide_ext (x ∈ footprint _ _)); [done|]. rewrite elem_footprint. naive_solver.
  - simpl in Hl. subst cs. simpl. mrun.
    destruct (Pos.to_nat (h_brk h)) eqn:E; [lia|]. exists h. done.
Qed.

(** ** Deletion *)

Lemma heap_ok_shrink h h' :
  heap_ok h → h_brk h' = h_brk h →
  (∀ x o, h_objs h' !! x = Some o → is_Some (h_objs h !! x)) → heap_ok h'.
Proof. intros Hok Hb Hs x o Hx. destruct (Hs x o Hx) as [o' Ho']. rewrite Hb. eauto. Qed.

(** The state that [list_delete_cell] leaves when other cells remain. *)
Lemma unlink_is_list h h' t a c1 l d c2 :
  is_list h t (Some a) (c1 ++ (l, d) :: c2) → c1 ++ c2 ≠ [] →
  h_objs h' !! a = Some (OList (mkHdr t (Z.of_nat (length (c1 ++ (l, d) :: c2)) - 1)
      (head_ptr (c1 ++ c2)) (last_ptr (c1 ++ c2)))) →
  (∀ x, x ∈ c2.*1 → h_objs h' !! x = h_objs h !! x) →
  seg h' (head_ptr (c1 ++ c2)) c1 (head_ptr c2) →
  is_list h' t (Some a) (c1 ++ c2).
Proof.
  intros (_ & _ & Hs) Hne Ha Hf H1. split; [done|]. split.
  - rewrite Ha. do 4 f_equal. rewrite !length_app. simpl. lia.
  - apply seg_app. exists (head_ptr c2). split; [done|].
    apply seg_split in Hs as (_ & n & _ & Hs2).
    rewrite <- (head_ptr_seg_None _ _ _ Hs2). by eapply seg_frame.
Qed.

Lemma list_delete_assert_ok h t a c1 l d c2 :
  is_list h t (Some a) (c1 ++ (l, d) :: c2) →
  (if use_assert then
     match last_ptr c1 with
     | Some _ => n <- lnext (last_ptr c1);; Assert (bool_decide (n = Some l))
     | None => hd <- list_head (Some a);; Assert (bool_decide (hd = Some l))
     end
   else ret ()) h = Ok ((), h).
Proof.
  intros (_ & Ha & Hs). destruct use_assert; [|done].
  destruct (seg_split _ _ _ _ _ _ _ Hs) as (H1 & _).
  destruct (last_ptr c1) as [lp|] eqn:E.
  - destruct c1 as [|c0 c1]; [done|]. destruct (exists_last (l := c0 :: c1)) as (c & [l' d'] & Ec); [done|].
    rewrite Ec in H1, E. rewrite last_ptr_snoc in E. simplify_eq.
    apply seg_split in H1 as (_ & n & Hl' & ->). mrun. by apply Assert_true, bool_decide_eq_true.
  - apply last_ptr_None in E as ->. simpl in *. mrun. by apply Assert_true, bool_decide_eq_true.
Qed.

(** Deleting the only cell frees the list. *)
Lemma delete_only_ok h t a l d :
  heap_ok h → is_list h t (Some a) [(l, d)] →
  ∃ h', list_free (Some a) h = Ok ((), h') ∧ list_step h (Some a) [(l, d)] h' t None [] ∧
    h_objs h' !! l = None ∧ h_brk h' = h_brk h.
Proof.
  intros Hok Hl. destruct (list_free_ok _ _ _ _ Hok Hl) as (h' & E & Hb & Hx). exists h'. split; [done|]. split_and!.
  - split_and!; try done.
    + eapply heap_ok_shrink; [done..|]. intros x o. rewrite Hx. case_bool_decide; [done|eauto].
    + split; [lia|]. intros x _ Hnx. by rewrite Hx, bool_decide_eq_false_2.
    + by intros x Hx'%elem_of_nil.
  - rewrite Hx, bool_decide_eq_true_2; [done|]. apply elem_footprint. right. constructor.
  - done.
Qed.

(** The cell before the deleted one, or the header, is linked to the one behind it. *)
Lemma bypass_ok h t a c1 l d c2 :
  let cs := c1 ++ (l, d) :: c2 in
  let h1 := mkHeap (<[a := OList (mkHdr t (Z.of_nat (length cs) - 1) (head_ptr cs) (last_ptr cs))]> (h_objs h)) (h_brk h) in
  is_list h t (Some a) cs →
  ∃ h2, match last_ptr c1 with
        | Some _ => set_cell (last_ptr c1) (with_next (head_ptr c2))
        | None => set_list (Some a) (with_head (head_ptr c2))
        end h1 = Ok ((), h2) ∧ h_brk h2 = h_brk h ∧
    h_objs h2 !! a = Some (OList (mkHdr t (Z.of_nat (length cs) - 1) (head_ptr (c1 ++ c2)) (last_ptr cs))) ∧
    h_objs h2 !! l = Some (OCell (mkCell d (head_ptr c2))) ∧
    seg h2 (head_ptr (c1 ++ c2)) c1 (head_ptr c2) ∧
    ∀ x, x ≠ a → x ∉ c1.*1 → h_objs h2 !! x = h_objs h !! x.
Proof.
  intros cs h1 Hl. subst cs. pose proof (is_list_header_not_cell _ _ _ _ Hl) as Hna. pose proof Hl as (Hne & Ha & Hs).
  destruct (not_in_parts _ _ _ _ _ _ Hs) as (Hn1 & Hn2 & Hn12).
  destruct (seg_split _ _ _ _ _ _ _ Hs) as (Hs1 & n & Hcl & Hs2).
  pose proof (head_ptr_seg_None _ _ _ Hs2) as ->. assert (a ≠ l) as Hal by congruence.
  destruct (last_ptr c1) as [lp|] eqn:E.
  - destruct (exists_last (l := c1)) as (c & [l' d'] & ->); [by intros ->|].
    rewrite last_ptr_snoc in E. simplify_eq. pose proof Hs1 as (_ & n' & Hl' & ->)%seg_split.
    assert (a ≠ lp) by congruence.
    assert (l ≠ lp) by (intros ->; apply Hn1; rewrite elem_cells_app, elem_cells_one; auto).
    eexists. split; [subst h1; erewrite set_cell_Ok by mlookup; reflexivity|].
    unfold with_next. simpl. split; [done|]. split.
    { simplify_map_eq. do 3 f_equal. by destruct c. }
    split; [by simplify_map_eq|]. split.
    + replace (head_ptr ((c ++ [(lp, d')]) ++ c2)) with (head_ptr ((c ++ [(lp, d')]) ++ (l, d) :: c2))
        by (by destruct c).
      eapply (seg_relink h); [exact Hs1|..]; simpl; [|by simplify_map_eq].
      intros x Hx. pose proof (seg_NoDup _ _ _ Hs) as Hnd.
      rewrite !fmap_app in Hnd. rewrite <- app_assoc in Hnd. apply NoDup_app in Hnd as (_ & Hnd & _).
      rewrite !lookup_insert_ne; [done|..].
      * intros <-. apply Hna. rewrite !elem_cells_app. auto.
      * intros <-. apply (Hnd _ Hx). simpl. constructor.
    + intros x Hxa Hx. rewrite elem_cells_app, elem_cells_one in Hx.
      rewrite !lookup_insert_ne; naive_solver.
  - apply last_ptr_None in E as ->. simpl in *.
    eexists. split; [subst h1; erewrite set_list_Ok by mlookup; reflexivity|].
    unfold with_head. simpl. split; [done|]. split; [by simplify_map_eq|].
    split; [by simplify_map_eq|]. split; [done|]. intros x Hx _. by rewrite !lookup_insert_ne.
Qed.

(** The tail pointer moves back if it pointed to the deleted cell. *)
Lemma fix_tail_ok h a hdr c1 l (d : datum) c2 :
  l ∉ c2.*1 → h_objs h !! a = Some (OList hdr) → l_tail hdr = last_ptr (c1 ++ (l, d) :: c2) →
  ∃ h', (if bool_decide (l_tail hdr = Some l) then set_list (Some a) (with_tail (last_ptr c1)) else ret ()) h = Ok ((), h') ∧
    h_brk h' = h_brk h ∧
    h_objs h' !! a = Some (OList (with_tail (last_ptr (c1 ++ c2)) hdr)) ∧
    ∀ x, x ≠ a → h_objs h' !! x = h_objs h !! x.
Proof.
  intros Hn2 Ha Ht. rewrite Ht, last_ptr_cons_app. destruct (last_ptr c2) as [y|] eqn:E.
  - rewrite bool_decide_eq_false_2; [|intros [= ->]; by apply Hn2, last_ptr_in].
    exists h. split; [done|]. split; [done|]. split; [|done].
    rewrite Ha. do 2 f_equal. rewrite last_ptr_app, E by (by destruct c2).
    rewrite last_ptr_cons_app, E in Ht. destruct hdr. by cbn in *; subst.
  - rewrite bool_decide_eq_true_2 by done. apply last_ptr_None in E as ->.
    erewrite set_list_Ok by exact Ha. eexists. split; [done|]. split; [done|]. simpl. split.
    + by rewrite lookup_insert_eq, app_nil_r.
    + intros x Hx. by rewrite lookup_insert_ne.
Qed.

(** What is left after the cell was unlinked and freed. *)
Lemma unlinked_step h h' t a c1 l d c2 :
  heap_ok h → is_list h t (Some a) (c1 ++ (l, d) :: c2) → c1 ++ c2 ≠ [] → h_brk h' = h_brk h →
  h_objs h' !! a = Some (OList (mkHdr t (Z.of_nat (length (c1 ++ (l, d) :: c2)) - 1) (head_ptr (c1 ++ c2)) (last_ptr (c1 ++ c2)))) →
  h_objs h' !! l = None → seg h' (head_ptr (c1 ++ c2)) c1 (head_ptr c2) →
  (∀ x, x ≠ a → x ≠ l → x ∉ c1.*1 → h_objs h' !! x = h_objs h !! x) →
  list_step h (Some a) (c1 ++ (l, d) :: c2) h' t (Some a) (c1 ++ c2).
Proof.
  intros Hok Hl Hne Hb Ha' Hl' Hsg Hsame. pose proof (is_list_header_not_cell _ _ _ _ Hl) as Hna.
  pose proof Hl as (_ & Ha & Hs). destruct (not_in_parts _ _ _ _ _ _ Hs) as (Hn1 & Hn2 & Hn12).
  split_and!.
  - eapply (unlink_is_list h _ t a c1 l d c2); [done|done|done| |done].
    intros x Hx. apply Hsame; [| |intros Hx1; by apply (Hn12 x)]; intros ->; [|done].
    apply Hna. rewrite elem_cells_app, fmap_cons, elem_of_cons. auto.
  - intros x o Hx. rewrite Hb. destruct (decide (x = a)) as [->|]; [eauto|].
    destruct (decide (x ∈ c1.*1)) as [Hx1|].
    { eapply is_list_bound; [done..|]. apply elem_footprint. right. rewrite elem_cells_app. auto. }
    destruct (decide (x = l)) as [->|]; [by simplify_map_eq|]. rewrite Hsame in Hx; eauto.
  - split; [lia|]. intros x _ Hnx. rewrite elem_footprint, elem_cells_app, fmap_cons, elem_of_cons in Hnx.
    cbn [fst] in Hnx. apply Hsame; naive_solver.
  - intros x. rewrite !elem_footprint, !elem_cells_app, fmap_cons, elem_of_cons. cbn [fst]. tauto.
Qed.

Lemma list_delete_cell_ok h t a c1 l d c2 :
  heap_ok h → is_list h t (Some a) (c1 ++ (l, d) :: c2) →
  ∃ p' h', list_delete_cell (Some a) (Some l) (last_ptr c1) h = Ok (p', h') ∧
    list_step h (Some a) (c1 ++ (l, d) :: c2) h' t p' (c1 ++ c2) ∧
    h_objs h' !! l = None ∧ h_brk h' = h_brk h.
Proof.
  intros Hok Hl. unfold list_delete_cell.
  erewrite bind_Ok by by eapply check_list_invariants_ok.
  erewrite bind_Ok by by eapply list_delete_assert_ok.
  pose proof (is_list_header_not_cell _ _ _ _ Hl) as Hna. pose proof Hl as (Hne & Ha & Hs). mrun.
  destruct (not_in_parts _ _ _ _ _ _ Hs) as (Hn1 & Hn2 & Hn12).
  destruct (seg_split _ _ _ _ _ _ _ Hs) as (Hs1 & n & Hcl & Hs2).
  pose proof (head_ptr_seg_None _ _ _ Hs2) as ->. assert (a ≠ l) as Hal by congruence.
  destruct (Z.eqb_spec (Z.of_nat (length (c1 ++ (l, d) :: c2))) 1) as [E1|E1].
  - rewrite length_app in E1. simpl in E1. destruct c1, c2; simpl in E1; try lia. cbn [app] in *.
    destruct (delete_only_ok _ _ _ _ _ Hok Hl) as (h' & E & Hstep & Hrest).
    erewrite bind_Ok by exact E. by exists None, h'.
  - assert (c1 ++ c2 ≠ []) as Hne' by (destruct c1; [|done]; destruct c2; [|done]; by simpl in E1).
    mrun. destruct (bypass_ok h t a c1 l d c2 Hl) as (h2 & E2 & Hb2 & Ha2 & Hl2 & Hsg2 & Hf2).
    erewrite bind_Ok by exact E2. mrun. cbn [l_tail].
    destruct (fix_tail_ok h2 a _ c1 l d c2 Hn2 Ha2 eq_refl) as (h3 & E3 & Hb3 & Ha3 & Hf3).
    erewrite bind_Ok by exact E3.
    erewrite bind_Ok by (eapply pfree_Ok; rewrite Hf3 by done; exact Hl2).
    eexists _, _. split; [reflexivity|]. split; [|split; [simpl; apply lookup_delete_eq|simpl; by rewrite Hb3]].
    apply unlinked_step; try done; simpl.
    + by rewrite Hb3.
    + by rewrite lookup_delete_ne.
    + apply lookup_delete_eq.
    + eapply seg_frame; [|exact Hsg2]. intros x Hx. simpl. rewrite lookup_delete_ne by (by intros ->).
      apply Hf3. intros ->. apply Hna. rewrite elem_cells_app. auto.
    + intros x ???. rewrite lookup_delete_ne by done. by rewrite Hf3, Hf2.
Qed.
End Ops.
