(* ===== verification/ListSets.v ===== *)
(** Membership, deletion by value, truncation and the set operations of list.c.

    The four flavours of these routines (pointers compared with equal(), pointers
    compared by address, integers, OIDs) are values of the record [elem_ops]; the
    laws the routines rely on are the class [ElemOps], of which each flavour is an
    instance, and the theorems are proved once against the class. *)

From S2P Require Import Prelude Nodes PgList ListSpec ListOps.

(** ** What the set operations compute *)

Definition memb {X : Type} (eqb : X → X → bool) (xs : list X) (x : X) : bool :=
  existsb (λ y, eqb y x) xs.

(** [xs1] followed by the members of [xs2] that were not there yet. *)
Definition union_spec {X : Type} (eqb : X → X → bool) (xs1 xs2 : list X) : list X :=
  fold_left (λ acc x, if memb eqb acc x then acc else acc ++ [x]) xs2 xs1.

Definition inter_spec {X : Type} (eqb : X → X → bool) (xs1 xs2 : list X) : list X :=
  List.filter (memb eqb xs2) xs1.

Definition diff_spec {X : Type} (eqb : X → X → bool) (xs1 xs2 : list X) : list X :=
  List.filter (λ x, negb (memb eqb xs2 x)) xs1.

Lemma diff_spec_nil {X : Type} (eqb : X → X → bool) xs : diff_spec eqb xs [] = xs.
Proof. unfold diff_spec. by induction xs as [|x xs IH]; simpl; f_equal. Qed.

(** The list without its first element that satisfies [f]. *)
Fixpoint remove_first {X : Type} (f : X → bool) (xs : list X) : list X :=
  match xs with
  | [] => []
  | x :: xs => if f x then xs else x :: remove_first f xs
  end.

(** ** Flavours of lists *)

Record elem_ops (X : Type) := mkElemOps {
  e_tag : NodeTag;
  e_inj : X → datum;
  e_read : option positive → M heap X;
  e_eqb : X → X → bool;
  e_mem : option positive → X → M heap bool;
  e_app : option positive → X → M heap (option positive) }.
Arguments e_tag {X} _.
Arguments e_inj {X} _ _.
Arguments e_read {X} _ _.
Arguments e_eqb {X} _ _ _.
Arguments e_mem {X} _ _ _.
Arguments e_app {X} _ _ _.

(** The list [p] holds the elements [xs]. *)
Definition holds {X : Type} (E : elem_ops X) (h : heap) (p : option positive) (cs : cells)
    (xs : list X) : Prop :=
  is_list h (e_tag E) p cs ∧ cs.*2 = e_inj E <$> xs.

Class ElemOps {X : Type} (E : elem_ops X) : Prop := {
  e_read_ok h l x n :
    h_objs h !! l = Some (OCell (mkCell (e_inj E x) n)) → e_read E (Some l) h = Ok (x, h);
  e_mem_ok h p cs xs x :
    heap_ok h → holds E h p cs xs → e_mem E p x h = Ok (memb (e_eqb E) xs x, h);
  e_app_ok h p cs xs x :
    heap_ok h → holds E h p cs xs →
    ∃ p' l h', e_app E p x h = Ok (p', h') ∧
      list_step h p cs h' (e_tag E) p' (cs ++ [(l, e_inj E x)]) }.

Section Members.
Context {B : Build}.

Lemma is_list_cell h t p cs l d :
  is_list h t p cs → (l, d) ∈ cs → ∃ n, h_objs h !! l = Some (OCell (mkCell d n)).
Proof.
  destruct p as [a|]; [|by intros -> ?%elem_of_nil]. intros (_ & _ & Hs) Hin. by eapply seg_cell.
Qed.

(** The cell after a prefix of a list links to the rest. *)
Lemma is_list_link h t p cs done l d rest :
  is_list h t p cs → cs = done ++ (l, d) :: rest →
  h_objs h !! l = Some (OCell (mkCell d (head_ptr rest))).
Proof.
  intros Hl ->. destruct p as [a|]; [|by destruct done].
  destruct Hl as (_ & _ & (_ & n & Hc & Hs)%seg_split).
  by rewrite (head_ptr_seg_None _ _ _ Hs) in Hc.
Qed.

Lemma list_member_gen_ok h t p cs (test : option positive → M heap bool) (f : datum → bool) :
  heap_ok h → is_list h t p cs →
  (∀ l d, (l, d) ∈ cs → test (Some l) h = Ok (f d, h)) →
  list_member_gen t test p h = Ok (existsb f cs.*2, h).
Proof.
  intros Hok Hl Htest. unfold list_member_gen.
  erewrite bind_Ok by by eapply assert_typed_ok.
  erewrite bind_Ok by by eapply check_list_invariants_ok.
  erewrite bind_Ok.
  2: { apply (foreach_readonly _ (λ d _, if f d then Done true else Cont ()) h t p cs); [done..|].
       intros l d [] Hin. by erewrite bind_Ok by by apply Htest. }
  unfold ret. do 2 f_equal. clear. induction (cs.*2) as [|d ds IH]; simpl; [done|]. by destruct (f d).
Qed.

Lemma list_member_elem {X : Type} (inj : X → datum) h t p cs xs
    (test : option positive → M heap bool) (eqb : X → X → bool) x :
  heap_ok h → is_list h t p cs → cs.*2 = inj <$> xs →
  (∀ l y n, h_objs h !! l = Some (OCell (mkCell (inj y) n)) → test (Some l) h = Ok (eqb y x, h)) →
  (∀ y y', inj y = inj y' → y = y') →
  list_member_gen t test p h = Ok (memb eqb xs x, h).
Proof.
  intros Hok Hl Hd Htest Hinj.
  assert (∃ f : datum → bool, ∀ y, y ∈ xs → f (inj y) = eqb y x) as [f Hf].
  { clear -Hinj. induction xs as [|y xs [f IH]].
    - exists (λ _, false). intros y Hy. by apply elem_of_nil in Hy.
    - exists (λ d, if decide (d = inj y) then eqb y x else f d). intros z Hz.
      destruct (decide (inj z = inj y)) as [->%Hinj|Hne]; [done|].
      apply elem_of_cons in Hz as [->|Hz]; [done|auto]. }
  erewrite (list_member_gen_ok _ _ _ cs _ f); [|done|done|].
  - unfold memb. rewrite Hd. do 2 f_equal. clear -Hf. induction xs as [|y xs IH]; [done|].
    rewrite fmap_cons. cbn [existsb]. rewrite Hf by constructor. rewrite IH; [done|]. intros z Hz. apply Hf. by constructor.
  - intros l d Hin. destruct (is_list_cell _ _ _ _ _ _ Hl Hin) as [n Hc].
    assert (d ∈ inj <$> xs) as (y & -> & Hy)%list_elem_of_fmap.
    { rewrite <- Hd. apply list_elem_of_fmap. by exists (l, d). }
    rewrite Hf by done. eauto.
Qed.

(** ** The four flavours *)

Definition ops_equal (equal : option positive → option positive → bool) : elem_ops (option positive) :=
  mkElemOps _ T_List DPtr lfirst equal (list_member equal) lappend.
Definition ops_ptr : elem_ops (option positive) :=
  mkElemOps _ T_List DPtr lfirst ptr_eqb list_member_ptr lappend.
Definition ops_int : elem_ops Z :=
  mkElemOps _ T_IntList DInt lfirst_int Z.eqb list_member_int lappend_int.
Definition ops_oid : elem_ops Z :=
  mkElemOps _ T_OidList DOid lfirst_oid Z.eqb list_member_oid lappend_oid.

Lemma lappend_gen_holds {X : Type} (E : elem_ops X) h p cs xs x :
  heap_ok h → holds E h p cs xs →
  ∃ p' l h', lappend_gen (e_tag E) p (e_inj E x) h = Ok (p', h') ∧
    list_step h p cs h' (e_tag E) p' (cs ++ [(l, e_inj E x)]).
Proof.
  intros Hok [Hl _]. destruct (lappend_gen_ok h (e_tag E) p cs (e_inj E x) Hok Hl)
    as (p' & l & h' & ? & ? & _). eauto.
Qed.

Lemma lfirst_Ok h l p n :
  h_objs h !! l = Some (OCell (mkCell (DPtr p) n)) → lfirst (Some l) h = Ok (p, h).
Proof. intros Hl. unfold lfirst. by erewrite bind_Ok by (apply ldata_Ok; exact Hl). Qed.
Lemma lfirst_int_Ok h l z n :
  h_objs h !! l = Some (OCell (mkCell (DInt z) n)) → lfirst_int (Some l) h = Ok (z, h).
Proof. intros Hl. unfold lfirst_int. by erewrite bind_Ok by (apply ldata_Ok; exact Hl). Qed.
Lemma lfirst_oid_Ok h l z n :
  h_objs h !! l = Some (OCell (mkCell (DOid z) n)) → lfirst_oid (Some l) h = Ok (z, h).
Proof. intros Hl. unfold lfirst_oid. by erewrite bind_Ok by (apply ldata_Ok; exact Hl). Qed.

#[export] Instance ops_equal_laws equal : ElemOps (ops_equal equal).
Proof.
  split.
  - intros. by eapply lfirst_Ok.
  - intros h p cs xs x Hok [Hl Hd]. eapply (list_member_elem DPtr); [done..| |naive_solver].
    intros l y n Hc. unfold test_equal. by erewrite bind_Ok by by eapply lfirst_Ok.
  - apply (lappend_gen_holds (ops_equal equal)).
Qed.
#[export] Instance ops_ptr_laws : ElemOps ops_ptr.
Proof. exact (ops_equal_laws ptr_eqb). Qed.
#[export] Instance ops_int_laws : ElemOps ops_int.
Proof.
  split.
  - intros. by eapply lfirst_int_Ok.
  - intros h p cs xs x Hok [Hl Hd]. eapply (list_member_elem DInt); [done..| |naive_solver].
    intros l y n Hc. unfold test_int. by erewrite bind_Ok by by eapply lfirst_int_Ok.
  - apply (lappend_gen_holds ops_int).
Qed.
#[export] Instance ops_oid_laws : ElemOps ops_oid.
Proof.
  split.
  - intros. by eapply lfirst_oid_Ok.
  - intros h p cs xs x Hok [Hl Hd]. eapply (list_member_elem DOid); [done..| |naive_solver].
    intros l y n Hc. unfold test_oid. by erewrite bind_Ok by by eapply lfirst_oid_Ok.
  - apply (lappend_gen_holds ops_oid).
Qed.

(** ** The appending loops *)

Section Loops.
Context {X : Type} (E : elem_ops X) `{!ElemOps E}.

Lemma fold_sel_elem (sel : list X → X → bool) xs2 xs y :
  y ∈ fold_left (λ a x, if sel a x then a ++ [x] else a) xs2 xs → y ∈ xs ∨ y ∈ xs2.
Proof.
  revert xs. induction xs2 as [|x xs2 IH]; intros xs; simpl; [auto|].
  intros [Hy|Hy]%IH; [|right; by constructor]. destruct (sel xs x); [|auto].
  apply elem_of_app in Hy as [?|Hy%list_elem_of_singleton]; [auto|]. subst. right. constructor.
Qed.

Lemma list_head_is h t p cs : is_list h t p cs → list_head p h = Ok (head_ptr cs, h).
Proof. destruct p as [b|]; simpl; [intros (_ & Hb & _); mrun; done|by intros ->]. Qed.

(** The element in a cell of a list. *)
Lemma held_elem h p cs xs done l d rest : holds E h p cs xs → cs = done ++ (l, d) :: rest →
  ∃ x, xs !! length done = Some x ∧ d = e_inj E x.
Proof.
  intros [_ Hd] Hcs. assert (cs.*2 !! length done = Some d) as Hlk by by rewrite list_lookup_fmap, Hcs, list_lookup_middle.
  rewrite Hd, list_lookup_fmap in Hlk. apply fmap_Some in Hlk as (x & ? & ?). eauto.
Qed.

(** A loop over [p2] that appends to an accumulator, disjoint from [p2], the
    elements that [sel] chooses given what was accumulated so far. *)
Lemma append_loop (body : option positive → option positive → M heap (loop (option positive) (option positive)))
    (sel : list X → X → bool) h p2 cs2 xs2 p cs xs :
  heap_ok h → holds E h p2 cs2 xs2 → holds E h p cs xs →
  footprint p2 cs2 ## footprint p cs →
  (∀ h' acc cs' xs' l x, (l, e_inj E x) ∈ cs2 → heap_ok h' → framed (footprint p cs) h h' →
     holds E h' acc cs' xs' → x ∈ xs2 → (∀ y, y ∈ xs' → y ∈ xs ∨ y ∈ xs2) →
     body (Some l) acc h' =
       (if sel xs' x then r <- e_app E acc x;; ret (Cont r) else ret (Cont acc)) h') →
  ∃ acc cs' h', foreach p2 body p h = Ok (Cont acc, h') ∧
    list_step h p cs h' (e_tag E) acc cs' ∧
    cs'.*2 = e_inj E <$> fold_left (λ a x, if sel a x then a ++ [x] else a) xs2 xs.
Proof.
  intros Hok [H2 Hd2] H1 Hdisj Hbody. unfold foreach.
  erewrite bind_Ok by by eapply list_head_is. mrun.
  set (f := λ a x, if sel a x then a ++ [x] else a).
  set (I := λ (done : cells) acc h', ∃ cs',
    list_step h p cs h' (e_tag E) acc cs' ∧
    cs'.*2 = e_inj E <$> fold_left f (take (length done) xs2) xs).
  assert (length cs2 = length xs2) as Hlen.
  { apply (f_equal length) in Hd2. by rewrite !length_fmap in Hd2. }
  destruct (foreach_from_rule body I (λ _ _, False) cs2) with (rest := cs2) (done := @nil (positive * datum))
      (fuel := Pos.to_nat (h_brk h)) (a := p) (h := h) as (out & h' & Hrun & Hout).
  - intros done l d rest acc h1 Hcs (cs' & (Hl' & Hok' & Hfr' & Hfp') & Hdata). left.
    destruct (held_elem h p2 cs2 xs2 done l d rest (conj H2 Hd2) Hcs) as (x & Hx & ->).
    assert ((l, e_inj E x) ∈ cs2) as Hin by (rewrite Hcs, elem_of_app; right; constructor).
    opose proof (Hbody h1 acc cs' _ l x Hin Hok' Hfr' (conj Hl' Hdata) (list_elem_of_lookup_2 _ _ _ Hx) _) as Hbody1.
    { intros y [Hy|Hy]%fold_sel_elem; [auto|]. right.
      by apply (subseteq_take (length done)). }
    assert (∀ h2, framed (footprint p cs) h h2 →
      h_objs h2 !! l = Some (OCell (mkCell (e_inj E x) (head_ptr rest)))) as Hlink.
    { intros h2 Hfr2. eapply is_list_link; [|exact Hcs]. eapply is_list_frame; [exact Hok|exact Hfr2|exact Hdisj|exact H2]. }
    set (xs1 := fold_left f (take (length done) xs2) xs) in *.
    assert (fold_left f (take (length (done ++ [(l, e_inj E x)])) xs2) xs = f xs1 x) as Hfold.
    { rewrite length_app, Nat.add_1_r, (take_S_r _ _ _ Hx), fold_left_app. done. }
    unfold f in Hfold. destruct (sel xs1 x) eqn:Hsel.
    + destruct (e_app_ok (E := E) h1 acc cs' xs1 x Hok' (conj Hl' Hdata))
        as (p' & l' & h2 & Ea & (Hl2 & Hok2 & Hfr2 & Hfp2)).
      assert (framed (footprint p cs) h h2) as Hfr by by eapply framed_trans.
      exists p', h2, (e_inj E x). split; [by rewrite Hbody1; erewrite bind_Ok by exact Ea|].
      split; [|by apply Hlink].
      exists (cs' ++ [(l', e_inj E x)]). unfold f. rewrite Hfold, !fmap_app, Hdata.
      split; [|done]. split_and!; [done..|]. intros y Hy. destruct (Hfp2 y Hy) as [Hy'|Hy']; [eauto|].
      right. destruct Hfr' as [? _]. lia.
    + exists acc, h1, (e_inj E x). split; [by rewrite Hbody1|]. split; [|by apply Hlink].
      exists cs'. unfold f. rewrite Hfold. split; [|done]. by split_and!.
  - done.
  - by eapply is_list_fuel.
  - exists cs. split; [|apply H1]. split_and!; [apply H1|done|apply framed_refl|auto].
  - rewrite Hrun. destruct out as [acc|]; [|done].
    destruct Hout as (cs' & Hstep & Hdata). exists acc, cs', h'. split; [done|]. split; [done|].
    by rewrite Hdata, Hlen, firstn_all.
Qed.

Lemma holds_frame X0 h h' p cs xs :
  heap_ok h → framed X0 h h' → footprint p cs ## X0 → holds E h p cs xs → holds E h' p cs xs.
Proof. intros ??? []. split; [by eapply is_list_frame|done]. Qed.

(** A list of the old heap is disjoint from what was allocated since. *)
Lemma fresh_disjoint h t p cs p' cs' :
  heap_ok h → is_list h t p cs →
  (∀ x, x ∈ footprint p' cs' → x ∈ footprint None [] ∨ (h_brk h ≤ x)%positive) →
  footprint p cs ## footprint p' cs'.
Proof.
  intros Hok Hl Hnew x Hx Hx'. destruct (Hnew x Hx') as [Hn%elem_of_nil|Hge]; [done|].
  pose proof (is_list_bound _ _ _ _ _ Hok Hl Hx). lia.
Qed.

Lemma append_missing_ok h p2 cs2 xs2 p cs xs :
  heap_ok h → holds E h p2 cs2 xs2 → holds E h p cs xs → footprint p2 cs2 ## footprint p cs →
  ∃ acc cs' h', append_missing (e_read E) (e_mem E) (e_app E) p2 p h = Ok (acc, h') ∧
    list_step h p cs h' (e_tag E) acc cs' ∧ cs'.*2 = e_inj E <$> union_spec (e_eqb E) xs xs2.
Proof.
  intros Hok H2 H1 Hdisj. unfold append_missing.
  edestruct (append_loop (λ cell result, x <- e_read E cell;; b <- e_mem E result x;;
      if b : bool then ret (Cont result) else result <- e_app E result x;; ret (Cont result))
      (λ a x, negb (memb (e_eqb E) a x)) h p2 cs2 xs2 p cs xs)
    as (acc & cs' & h' & Hrun & Hstep & Hdata); [done..| |].
  - intros h1 acc cs' xs' l x Hin Hok' Hfr Hh _ _.
    destruct (holds_frame _ _ _ _ _ _ Hok Hfr Hdisj H2) as [H2' _].
    destruct (is_list_cell _ _ _ _ _ _ H2' Hin) as [n Hc].
    erewrite bind_Ok by by eapply e_read_ok. erewrite bind_Ok by by eapply e_mem_ok.
    by destruct (memb _ _ _).
  - erewrite bind_Ok by exact Hrun. exists acc, cs', h'. split; [done|]. split; [done|].
    rewrite Hdata. unfold union_spec. f_equal. clear. revert xs.
    induction xs2 as [|x xs2 IH]; intros xs; simpl; [done|]. rewrite IH. by destruct (memb _ _ _).
Qed.

Lemma fold_left_filter (f : X → bool) xs acc :
  fold_left (λ a x, if f x then a ++ [x] else a) xs acc = acc ++ List.filter f xs.
Proof.
  revert acc. induction xs as [|x xs IH]; intros acc; simpl; [by rewrite app_nil_r|].
  rewrite IH. destruct (f x); [by rewrite <- app_assoc|done].
Qed.

Lemma filter_by_ok h want p1 cs1 xs1 p2 cs2 xs2 :
  heap_ok h → holds E h p1 cs1 xs1 → holds E h p2 cs2 xs2 →
  ∃ acc cs' h', filter_by (e_read E) (e_mem E) (e_app E) want p1 p2 h = Ok (acc, h') ∧
    list_step h None [] h' (e_tag E) acc cs' ∧
    cs'.*2 = e_inj E <$> List.filter (λ x, Bool.eqb (memb (e_eqb E) xs2 x) want) xs1.
Proof.
  intros Hok H1 H2. unfold filter_by.
  edestruct (append_loop (λ cell result, x <- e_read E cell;; b <- e_mem E p2 x;;
      if Bool.eqb b want then result <- e_app E result x;; ret (Cont result) else ret (Cont result))
      (λ _ x, Bool.eqb (memb (e_eqb E) xs2 x) want) h p1 cs1 xs1 None [] [])
    as (acc & cs' & h' & Hrun & Hstep & Hdata);
    [done|done|by split|by intros ? _ ?%elem_of_nil| |].
  - intros h1 acc cs' xs' l x Hin Hok' Hfr Hh _ _.
    assert (∀ p cs, footprint p cs ## footprint None []) as Hd by (intros ??? _ ?%elem_of_nil; done).
    destruct (holds_frame _ _ _ _ _ _ Hok Hfr (Hd _ _) H1) as [H1' _].
    pose proof (holds_frame _ _ _ _ _ _ Hok Hfr (Hd _ _) H2) as H2'.
    destruct (is_list_cell _ _ _ _ _ _ H1' Hin) as [n Hc].
    erewrite bind_Ok by by eapply e_read_ok. erewrite bind_Ok by by eapply e_mem_ok.
    by destruct (Bool.eqb _ _).
  - erewrite bind_Ok by exact Hrun. exists acc, cs', h'. split; [done|]. split; [done|].
    by rewrite Hdata, fold_left_filter.
Qed.

(** ** The set operations *)

Lemma list_union_gen_ok h p1 cs1 xs1 p2 cs2 xs2 :
  heap_ok h → holds E h p1 cs1 xs1 → holds E h p2 cs2 xs2 →
  ∃ p cs h', list_union_gen (e_tag E) (e_read E) (e_mem E) (e_app E) p1 p2 h = Ok (p, h') ∧
    list_step h None [] h' (e_tag E) p cs ∧ cs.*2 = e_inj E <$> union_spec (e_eqb E) xs1 xs2.
Proof.
  intros Hok [H1 Hd1] [H2 Hd2]. unfold list_union_gen.
  erewrite bind_Ok by by eapply assert_typed_ok. erewrite bind_Ok by by eapply assert_typed_ok.
  destruct (list_copy_ok h _ p1 cs1 Hok H1) as (p' & cs' & h1 & Ec & (Hl1 & Hok1 & Hfr1 & Hnew1) & Hdata1).
  erewrite bind_Ok by exact Ec.
  edestruct (append_missing_ok h1 p2 cs2 xs2 p' cs' xs1)
    as (acc & cs'' & h2 & Ea & (Hl2 & Hok2 & Hfr2 & Hnew2) & Hdata2).
  - done.
  - eapply holds_frame; [exact Hok|exact Hfr1| |done]. intros x _ Hx%elem_of_nil. done.
  - split; [done|]. by rewrite Hdata1.
  - eapply fresh_disjoint; [exact Hok|exact H2|exact Hnew1].
  - erewrite bind_Ok by exact Ea.
    erewrite bind_Ok by by eapply check_list_invariants_ok.
    exists acc, cs'', h2. split; [done|]. split; [|done]. split_and!; [done..| |].
    + eapply framed_trans; [exact Hfr1|exact Hfr2|]. intros x Hx. by apply Hnew1.
    + intros x Hx. destruct (Hnew2 x Hx) as [Hx'|Hx']; [by apply Hnew1|]. right. destruct Hfr1. lia.
Qed.

Lemma list_intersection_gen_ok h p1 cs1 xs1 p2 cs2 xs2 :
  heap_ok h → holds E h p1 cs1 xs1 → holds E h p2 cs2 xs2 →
  ∃ p cs h', list_intersection_gen (e_tag E) (e_read E) (e_mem E) (e_app E) p1 p2 h = Ok (p, h') ∧
    list_step h None [] h' (e_tag E) p cs ∧ cs.*2 = e_inj E <$> inter_spec (e_eqb E) xs1 xs2.
Proof.
  intros Hok [H1 Hd1] [H2 Hd2].
  destruct p1 as [a|], p2 as [b|]; simpl.
  2-4: exists None, [], h; split; [done|]; split;
    [split_and!; [done..|apply framed_refl|by intros x Hx%elem_of_nil]|].
  - erewrite bind_Ok by by eapply assert_typed_ok. erewrite bind_Ok by by eapply assert_typed_ok.
    destruct (filter_by_ok h true (Some a) cs1 xs1 (Some b) cs2 xs2) as (acc & cs & h' & Ef & Hst & Hdata);
      [done|by split|by split|].
    erewrite bind_Ok by exact Ef. erewrite bind_Ok by (eapply check_list_invariants_ok; apply Hst).
    exists acc, cs, h'. split; [done|]. split; [done|]. rewrite Hdata. unfold inter_spec. f_equal.
    apply filter_ext. intros x. by destruct (memb _ _ _).
  - simpl in H2. subst. destruct xs2; [|done]. clear. unfold inter_spec. by induction xs1.
  - simpl in H1. subst. by destruct xs1.
  - simpl in H1. subst. by destruct xs1.
Qed.

Lemma list_difference_gen_ok h p1 cs1 xs1 p2 cs2 xs2 :
  heap_ok h → holds E h p1 cs1 xs1 → holds E h p2 cs2 xs2 →
  ∃ p cs h', list_difference_gen (e_tag E) (e_read E) (e_mem E) (e_app E) p1 p2 h = Ok (p, h') ∧
    list_step h None [] h' (e_tag E) p cs ∧ cs.*2 = e_inj E <$> diff_spec (e_eqb E) xs1 xs2.
Proof.
  intros Hok [H1 Hd1] [H2 Hd2]. unfold list_difference_gen.
  erewrite bind_Ok by by eapply assert_typed_ok. erewrite bind_Ok by by eapply assert_typed_ok.
  destruct p2 as [b|].
  - destruct (filter_by_ok h false p1 cs1 xs1 (Some b) cs2 xs2) as (acc & cs & h' & Ef & Hst & Hdata);
      [done|by split|by split|].
    erewrite bind_Ok by exact Ef. erewrite bind_Ok by (eapply check_list_invariants_ok; apply Hst).
    exists acc, cs, h'. split; [done|]. split; [done|]. rewrite Hdata. unfold diff_spec. f_equal.
  - destruct (list_copy_ok h _ p1 cs1 Hok H1) as (p & cs & h' & Ec & Hst & Hdata).
    exists p, cs, h'. split; [done|]. split; [done|]. rewrite Hdata, Hd1. f_equal.
    simpl in H2. subst. destruct xs2; [|done]. by rewrite diff_spec_nil.
Qed.

Lemma concat_unique_gen_ok h p1 cs1 xs1 p2 cs2 xs2 :
  heap_ok h → holds E h p1 cs1 xs1 → holds E h p2 cs2 xs2 → footprint p2 cs2 ## footprint p1 cs1 →
  ∃ p cs h', concat_unique_gen (e_tag E) (e_read E) (e_mem E) (e_app E) p1 p2 h = Ok (p, h') ∧
    list_step h p1 cs1 h' (e_tag E) p cs ∧ cs.*2 = e_inj E <$> union_spec (e_eqb E) xs1 xs2.
Proof.
  intros Hok H1 H2 Hdisj. unfold concat_unique_gen. pose proof H1 as [H1' _]. pose proof H2 as [H2' _].
  erewrite bind_Ok by by eapply assert_typed_ok. erewrite bind_Ok by by eapply assert_typed_ok.
  destruct (append_missing_ok h p2 cs2 xs2 p1 cs1 xs1) as (acc & cs & h' & Ea & Hst & Hdata); [done..|].
  erewrite bind_Ok by exact Ea. erewrite bind_Ok by (eapply check_list_invariants_ok; apply Hst).
  exists acc, cs, h'. done.
Qed.

Lemma append_unique_gen_ok h p cs xs x :
  heap_ok h → holds E h p cs xs →
  ∃ p' cs' h', append_unique_gen (e_mem E) (e_app E) p x h = Ok (p', h') ∧
    list_step h p cs h' (e_tag E) p' cs' ∧ cs'.*2 = e_inj E <$> union_spec (e_eqb E) xs [x].
Proof.
  intros Hok Hh. unfold append_unique_gen. erewrite bind_Ok by by eapply e_mem_ok. simpl.
  destruct Hh as [Hl Hd]. unfold union_spec. simpl. destruct (memb _ _ _) eqn:Em.
  - exists p, cs, h. split; [done|]. split; [|done].
    split_and!; [done..|apply framed_refl|auto].
  - destruct (e_app_ok (E := E) h p cs xs x Hok (conj Hl Hd)) as (p' & l & h' & Ea & Hst).
    exists p', (cs ++ [(l, e_inj E x)]), h'. split; [done|]. split; [done|]. by rewrite !fmap_app, Hd.
Qed.
End Loops.
End Members.

(** ** Deletion by value and truncation *)

Section Deletion.
Context {B : Build}.

Lemma list_step_refl h t p cs : heap_ok h → is_list h t p cs → list_step h p cs h t p cs.
Proof. intros Hok Hl. split_and!; [done..|apply framed_refl|auto]. Qed.

(** A [foreach] over a well-formed list starts at its first cell with enough fuel. *)
Lemma foreach_unfold {A R : Type} h t p cs (body : option positive → A → M heap (loop A R)) a :
  heap_ok h → is_list h t p cs →
  foreach p body a h = foreach_from (Pos.to_nat (h_brk h)) (head_ptr cs) body a h.
Proof.
  intros Hok Hl. unfold foreach. destruct p as [b|]; simpl in Hl.
  - destruct Hl as (_ & Hb & _). by mrun.
  - subst cs. by mrun.
Qed.

Lemma remove_first_none (f : datum → bool) ds :
  Forall (λ d, f d = false) ds → remove_first f ds = ds.
Proof. induction 1 as [|d ds Hd _ IH]; simpl; [done|]. by rewrite Hd, IH. Qed.

Lemma remove_first_at (f : datum → bool) ds1 d ds2 :
  Forall (λ d, f d = false) ds1 → f d = true → remove_first f (ds1 ++ d :: ds2) = ds1 ++ ds2.
Proof.
  intros H1 Hd. induction H1 as [|d' ds1 Hd' _ IH]; simpl; [by rewrite Hd|]. by rewrite Hd', IH.
Qed.

(** [list_delete] and its variants remove the first cell that the test accepts. *)
Lemma list_delete_gen_ok h t p cs (test : option positive → M heap bool) (f : datum → bool) :
  heap_ok h → is_list h t p cs →
  (∀ l d, (l, d) ∈ cs → test (Some l) h = Ok (f d, h)) →
  ∃ p' cs' h', list_delete_gen t test p h = Ok (p', h') ∧
    list_step h p cs h' t p' cs' ∧ cs'.*2 = remove_first f cs.*2.
Proof.
  intros Hok Hl Htest. unfold list_delete_gen.
  erewrite bind_Ok by by eapply assert_typed_ok.
  erewrite bind_Ok by by eapply check_list_invariants_ok.
  set (body := λ cell prev : option positive, _).
  destruct (foreach_from_rule body
    (λ done a h', h' = h ∧ a = last_ptr done ∧ Forall (λ d, f d = false) done.*2)
    (λ r h', ∃ cs', list_step h p cs h' t r cs' ∧ cs'.*2 = remove_first f cs.*2) cs) with
    (rest := cs) (done := [] : cells) (fuel := Pos.to_nat (h_brk h)) (a := None : option positive) (h := h)
    as (out & h' & E & Hout).
  - intros done l d rest a h0 Hcs (-> & -> & Hno). subst body. cbn beta.
    erewrite bind_Ok by (apply Htest; subst cs; rewrite elem_of_app; right; constructor).
    destruct (f d) eqn:Hf.
    + right. destruct p as [b|]; [|simpl in Hl; subst cs; by destruct done].
      pose proof Hl as Hl0. rewrite Hcs in Hl0.
      destruct (list_delete_cell_ok _ _ _ _ _ _ _ Hok Hl0) as (p' & h' & Ed & Hst & _).
      rewrite (bind_Ok _ _ _ _ _ Ed). eexists _, _. split; [done|]. exists (done ++ rest).
      split; [by subst cs|]. subst cs. rewrite !fmap_app, fmap_cons. by rewrite remove_first_at.
    + left. eexists _, _, d. split; [done|]. split; [|by eapply is_list_link].
      split_and!; [done|by rewrite last_ptr_snoc|]. rewrite fmap_app. apply Forall_app. split; [done|].
      by repeat constructor.
  - done.
  - by eapply is_list_fuel.
  - done.
  - erewrite bind_Ok by (erewrite foreach_unfold by done; exact E). destruct out as [a|r].
    + destruct Hout as (-> & _ & Hno). exists p, cs, h. split; [done|].
      split; [by apply list_step_refl|]. by rewrite remove_first_none.
    + destruct Hout as (cs' & Hst & Hd). by exists r, cs', h'.
Qed.

(** Cutting the chain after a cell: the state [list_truncate] leaves. *)
Lemma truncate_step h t a c1 l d c2 :
  heap_ok h → is_list h t (Some a) (c1 ++ (l, d) :: c2) →
  list_step h (Some a) (c1 ++ (l, d) :: c2)
    (mkHeap (<[a := OList (mkHdr t (Z.of_nat (length (c1 ++ [(l, d)])))
                 (head_ptr (c1 ++ (l, d) :: c2)) (Some l))]>
              (<[l := OCell (mkCell d None)]> (h_objs h))) (h_brk h))
    t (Some a) (c1 ++ [(l, d)]).
Proof.
  intros Hok Hl. pose proof (is_list_header_not_cell _ _ _ _ Hl) as Hna.
  pose proof Hl as (_ & Ha & Hs). destruct (not_in_parts _ _ _ _ _ _ Hs) as (Hn1 & _ & _).
  destruct (seg_split _ _ _ _ _ _ _ Hs) as (Hs1 & n & Hcl & _).
  assert (a ≠ l) as Hal by congruence.
  rewrite elem_cells_app in Hna. split_and!.
  - split; [by destruct c1|]. simpl. split.
    + rewrite lookup_insert_eq, last_ptr_snoc. do 3 f_equal. by destruct c1.
    + apply (seg_relink h _ _ _ _ _ n); simpl; [|..|by simplify_map_eq].
      * apply seg_app. exists (Some l). split; [|simpl; eauto].
        replace (head_ptr (c1 ++ [(l, d)])) with (head_ptr (c1 ++ (l, d) :: c2)) by (by destruct c1). done.
      * intros x Hx. rewrite !lookup_insert_ne; [done|..]; intros <-; tauto.
  - intros x o Hx. simpl in *.
    repeat (apply lookup_insert_Some in Hx as [[<- _]|[_ Hx]]; [eauto|]). eauto.
  - split; simpl; [lia|]. intros x _ Hnx.
    rewrite elem_footprint, elem_cells_app, fmap_cons, elem_of_cons in Hnx. simpl in Hnx.
    rewrite !lookup_insert_ne; [done|..]; intros <-; tauto.
  - intros x. rewrite !elem_footprint, !elem_cells_app, elem_cells_one, fmap_cons, elem_of_cons. simpl. tauto.
Qed.

Lemma list_length_ok h t p cs :
  is_list h t p cs → list_length p h = Ok (Z.of_nat (length cs), h).
Proof.
  destruct p as [a|]; [|by intros ->]. intros (_ & Ha & _). unfold list_length. by mrun.
Qed.

Lemma list_truncate_ok h t p cs n :
  heap_ok h → is_list h t p cs →
  ∃ p' h', list_truncate p n h = Ok (p', h') ∧ list_step h p cs h' t p' (take (Z.to_nat n) cs).
Proof.
  intros Hok Hl. unfold list_truncate. destruct (Z.leb_spec n 0) as [Hn|Hn].
  { exists None, h. split; [done|]. replace (Z.to_nat n) with O by lia. simpl.
    split_and!; [done..|apply framed_refl|]. by intros x Hx%elem_of_nil. }
  erewrite bind_Ok by by eapply list_length_ok.
  destruct (Z.leb_spec (Z.of_nat (length cs)) n) as [Hlen|Hlen].
  { exists p, h. split; [done|]. rewrite take_ge by lia. by apply list_step_refl. }
  destruct p as [b|]; [|simpl in Hl; subst cs; simpl in *; lia].
  set (body := λ (cell : option positive) (k : Z), _).
  destruct (foreach_from_rule body
    (λ done k h', h' = h ∧ k = Z.of_nat (length done) + 1 ∧ k ≤ n)
    (λ r h', list_step h (Some b) cs h' t r (take (Z.to_nat n) cs)) cs) with
    (rest := cs) (done := [] : cells) (fuel := Pos.to_nat (h_brk h)) (a := 1) (h := h)
    as (out & h' & E & Hout); [|done|by eapply is_list_fuel|split; [done|simpl; lia]|].
  - intros done l d rest k h0 Hcs (-> & -> & Hk). subst body. cbn beta.
    pose proof (is_list_link _ _ _ _ _ _ _ _ Hl Hcs) as Hcl.
    destruct (Z.eqb_spec (Z.of_nat (length done) + 1) n) as [Heq|Hneq].
    + right. pose proof Hl as (_ & Hb & _). assert (b ≠ l) by congruence.
      rewrite Hcs in Hl. pose proof (truncate_step _ _ _ _ _ _ _ Hok Hl) as Hst.
      rewrite length_app in Hst. cbn [length] in Hst.
      replace (Z.of_nat (length done + 1)) with n in Hst by lia.
      mrun. rewrite insert_insert_eq, Hcs.
      erewrite bind_Ok by (eapply check_list_invariants_ok; apply Hst).
      eexists _, _. split; [done|]. replace (Z.to_nat n) with (length (done ++ [(l, d)])).
      2: { rewrite length_app. simpl. lia. }
      change ((l, d) :: rest) with ([(l, d)] ++ rest). rewrite (app_assoc done).
      rewrite take_app_length. rewrite <- app_assoc. exact Hst.
    + left. eexists _, _, d. split; [done|]. split; [|done]. rewrite length_app. split; [done|simpl; lia].
  - erewrite bind_Ok by (erewrite foreach_unfold by done; exact E). destruct out as [k|r]; [destruct Hout as (_ & -> & Hk); lia|].
    by exists r, h'.
Qed.
End Deletion.

(** ** The set operations as sets *)

Section SetFacts.
Context {X : Type} (eqb : X → X → bool).
Hypothesis eqb_spec : ∀ x y, eqb x y = true ↔ x = y.

Lemma memb_true xs x : memb eqb xs x = true ↔ x ∈ xs.
Proof.
  unfold memb. rewrite existsb_exists. setoid_rewrite eqb_spec.
  setoid_rewrite <- list_elem_of_In. naive_solver.
Qed.

Lemma union_spec_elem xs1 xs2 x : x ∈ union_spec eqb xs1 xs2 ↔ x ∈ xs1 ∨ x ∈ xs2.
Proof.
  unfold union_spec. revert xs1. induction xs2 as [|y xs2 IH]; intros xs1; simpl; [set_solver|].
  rewrite IH. destruct (memb eqb xs1 y) eqn:E; [apply memb_true in E|]; set_solver.
Qed.

Lemma union_spec_NoDup xs1 xs2 : NoDup xs1 → NoDup (union_spec eqb xs1 xs2).
Proof.
  unfold union_spec. revert xs1. induction xs2 as [|y xs2 IH]; intros xs1 Hnd; simpl; [done|].
  apply IH. destruct (memb eqb xs1 y) eqn:E; [done|]. apply NoDup_app. split; [done|]. split.
  - intros x Hx ->%list_elem_of_singleton. apply memb_true in Hx. congruence.
  - apply NoDup_singleton.
Qed.

Lemma union_spec_prefix xs1 xs2 : xs1 `prefix_of` union_spec eqb xs1 xs2.
Proof.
  unfold union_spec. revert xs1. induction xs2 as [|y xs2 IH]; intros xs1; simpl; [done|].
  destruct (memb eqb xs1 y); [done|]. etrans; [|apply IH]. by apply prefix_app_r.
Qed.
End SetFacts.
