(* ===== verification/TrueVar.v ===== *)
(** true_var.c and true_var.h: the contexts of the certain-answer walker and
    mutator, the catalog look-ups, and the operations on lists of "true variables".

    A true variable is a [Var] node made up by the walker for a column of a base
    relation: [varattno] is the column and [vartype] holds the OID of the relation.
    [current_trueVar] is the scope of a query: its first element is the scope of
    the enclosing query, its element number i the columns of range table entry i. *)

From S2P Require Import Prelude Nodes PgList.

(** ** Contexts *)

Record context_walker_set_constraint := mkWalkerCtx {
  w_trueVars : option positive;
  w_current_trueVar : option positive;
  w_list_of_not_null_att_schem : option positive;
  w_list_of_not_null_in_op : option positive;
  w_list_of_not_null_to_be_true : option positive;
  w_list_of_not_null_to_be_false : option positive;
  w_ready : bool;
  w_list_list_true : option positive;
  w_list_list_false : option positive }.

Record context_modifier := mkModifierCtx {
  m_positive : bool;
  m_ready : bool;
  m_constraint_to_add : list node;
  m_trueVars : option positive;
  m_current_trueVar : option positive;
  m_list_of_not_null_in_current : option positive;
  m_list_list_true : option positive;
  m_list_list_false : option positive;
  m_where_i_am : Z;
  m_where_i_am_querry : Z }.

(** Assignments to one field of a context. *)
Definition w_set_trueVars p c := mkWalkerCtx p (w_current_trueVar c) (w_list_of_not_null_att_schem c)
  (w_list_of_not_null_in_op c) (w_list_of_not_null_to_be_true c) (w_list_of_not_null_to_be_false c)
  (w_ready c) (w_list_list_true c) (w_list_list_false c).
Definition w_set_current p c := mkWalkerCtx (w_trueVars c) p (w_list_of_not_null_att_schem c)
  (w_list_of_not_null_in_op c) (w_list_of_not_null_to_be_true c) (w_list_of_not_null_to_be_false c)
  (w_ready c) (w_list_list_true c) (w_list_list_false c).
Definition w_set_schem p c := mkWalkerCtx (w_trueVars c) (w_current_trueVar c) p
  (w_list_of_not_null_in_op c) (w_list_of_not_null_to_be_true c) (w_list_of_not_null_to_be_false c)
  (w_ready c) (w_list_list_true c) (w_list_list_false c).
Definition w_set_in_op p c := mkWalkerCtx (w_trueVars c) (w_current_trueVar c)
  (w_list_of_not_null_att_schem c) p (w_list_of_not_null_to_be_true c)
  (w_list_of_not_null_to_be_false c) (w_ready c) (w_list_list_true c) (w_list_list_false c).
Definition w_set_true p c := mkWalkerCtx (w_trueVars c) (w_current_trueVar c)
  (w_list_of_not_null_att_schem c) (w_list_of_not_null_in_op c) p
  (w_list_of_not_null_to_be_false c) (w_ready c) (w_list_list_true c) (w_list_list_false c).
Definition w_set_false p c := mkWalkerCtx (w_trueVars c) (w_current_trueVar c)
  (w_list_of_not_null_att_schem c) (w_list_of_not_null_in_op c) (w_list_of_not_null_to_be_true c) p
  (w_ready c) (w_list_list_true c) (w_list_list_false c).
Definition w_set_ready b c := mkWalkerCtx (w_trueVars c) (w_current_trueVar c)
  (w_list_of_not_null_att_schem c) (w_list_of_not_null_in_op c) (w_list_of_not_null_to_be_true c)
  (w_list_of_not_null_to_be_false c) b (w_list_list_true c) (w_list_list_false c).
Definition w_set_ll_true p c := mkWalkerCtx (w_trueVars c) (w_current_trueVar c)
  (w_list_of_not_null_att_schem c) (w_list_of_not_null_in_op c) (w_list_of_not_null_to_be_true c)
  (w_list_of_not_null_to_be_false c) (w_ready c) p (w_list_list_false c).
Definition w_set_ll_false p c := mkWalkerCtx (w_trueVars c) (w_current_trueVar c)
  (w_list_of_not_null_att_schem c) (w_list_of_not_null_in_op c) (w_list_of_not_null_to_be_true c)
  (w_list_of_not_null_to_be_false c) (w_ready c) (w_list_list_true c) p.

Definition m_set_positive b c := mkModifierCtx b (m_ready c) (m_constraint_to_add c) (m_trueVars c)
  (m_current_trueVar c) (m_list_of_not_null_in_current c) (m_list_list_true c) (m_list_list_false c)
  (m_where_i_am c) (m_where_i_am_querry c).
Definition m_set_ready b c := mkModifierCtx (m_positive c) b (m_constraint_to_add c) (m_trueVars c)
  (m_current_trueVar c) (m_list_of_not_null_in_current c) (m_list_list_true c) (m_list_list_false c)
  (m_where_i_am c) (m_where_i_am_querry c).
Definition m_set_constraint l c := mkModifierCtx (m_positive c) (m_ready c) l (m_trueVars c)
  (m_current_trueVar c) (m_list_of_not_null_in_current c) (m_list_list_true c) (m_list_list_false c)
  (m_where_i_am c) (m_where_i_am_querry c).
Definition m_set_current p c := mkModifierCtx (m_positive c) (m_ready c) (m_constraint_to_add c)
  (m_trueVars c) p (m_list_of_not_null_in_current c) (m_list_list_true c) (m_list_list_false c)
  (m_where_i_am c) (m_where_i_am_querry c).
Definition m_set_not_null p c := mkModifierCtx (m_positive c) (m_ready c) (m_constraint_to_add c)
  (m_trueVars c) (m_current_trueVar c) p (m_list_list_true c) (m_list_list_false c)
  (m_where_i_am c) (m_where_i_am_querry c).
Definition m_set_where z c := mkModifierCtx (m_positive c) (m_ready c) (m_constraint_to_add c)
  (m_trueVars c) (m_current_trueVar c) (m_list_of_not_null_in_current c) (m_list_list_true c)
  (m_list_list_false c) z (m_where_i_am_querry c).
Definition m_set_where_q z c := mkModifierCtx (m_positive c) (m_ready c) (m_constraint_to_add c)
  (m_trueVars c) (m_current_trueVar c) (m_list_of_not_null_in_current c) (m_list_list_true c)
  (m_list_list_false c) (m_where_i_am c) z.

Definition make_context_walker_set_constraint : context_walker_set_constraint :=
  mkWalkerCtx None None None None None None false None None.

(** ** Catalog *)

(** The rows of pg_attribute and pg_class that SearchSysCache finds, with the
    columns the hook reads. *)
Record pg_attribute := mkAtt { attnotnull : bool }.
Record pg_class := mkClass { relnatts : Z }.

Class SysCache := {
  SearchSysCache_ATTNUM : Z → Z → option pg_attribute;
  SearchSysCache_RELOID : Z → option pg_class }.

Section TrueVar.
Context {B : Build} {C : SysCache}.

Definition get_pg_att_not_null (relid attnum : Z) : bool :=
  match SearchSysCache_ATTNUM relid attnum with
  | Some att_tup => attnotnull att_tup
  | None => false
  end.

Definition get_relnatts (relid : Z) : Z :=
  match SearchSysCache_RELOID relid with
  | Some reltup => relnatts reltup
  | None => 0
  end.

(** ** Contexts, continued *)

Definition make_context_modifier (positive : bool) (context : context_walker_set_constraint)
    : M heap context_modifier :=
  current <- list_nth (w_trueVars context) 0;;
  ret (mkModifierCtx positive false [] (w_trueVars context) current
         (w_list_of_not_null_att_schem context)
         (w_list_list_true context) (w_list_list_false context) 0 0).

Definition free_if (p : option positive) : M heap () :=
  match p with None => ret () | Some _ => list_free_deep p end.

(** The context record is not a heap object of the model: its own release, the last
    statement of both functions, has no counterpart. *)
Definition free_context_walker_set_constraint (ctx : context_walker_set_constraint) : M heap () :=
  free_if (w_trueVars ctx);;;
  free_if (w_current_trueVar ctx);;;
  free_if (w_list_list_true ctx);;;
  free_if (w_list_list_false ctx).

(** [constraint_to_add] holds nodes that the model does not keep on the heap. *)
Definition free_context_modifier (ctx : context_modifier) : M heap () :=
  free_if (m_list_of_not_null_in_current ctx).

(** ** Variables *)

(** A [Var *] read through a pointer. *)
Definition get_var (p : option positive) : M heap var :=
  n <- get_node p;; match n with Var v => ret v | _ => fail EBadCast end.

Fixpoint up_levels (n : nat) (temp : option positive) : M heap (option positive) :=
  match n with
  | O => ret temp
  | S n => temp <- list_nth temp 0;; up_levels n temp
  end.

Definition getTrueVar (current_trueVars : option positive) (v : var) : M heap (option positive) :=
  temp <- up_levels (Z.to_nat (varlevelsup v)) current_trueVars;;
  columns <- list_nth temp (varno v);;
  list_nth columns (varattno v - 1).

Definition same_true_var (t v : var) : bool :=
  (varattno t =? varattno v) && (vartype t =? vartype v).

(** The comparison of the loops below: both pointers are read through. *)
Definition same_true_var_at (t v : option positive) : M heap bool :=
  t' <- get_var t;; v' <- get_var v;; ret (same_true_var t' v').

Definition isInListTrueVar (trueVars v : option positive) : M heap bool :=
  match trueVars with
  | None => ret false
  | Some _ =>
      r <- foreach trueVars (λ cell (_ : ()),
             t <- lfirst cell;;
             b <- same_true_var_at t v;;
             ret (if b : bool then Done true else Cont ())) ();;
      ret match r with Done b => b | Cont _ => false end
  end.

Definition union_list (l : option positive) : M heap (option positive) :=
  match l with
  | None => ret None
  | Some _ =>
      r <- foreach (R := option positive) l (λ cell new_list,
             t <- lfirst cell;;
             b <- isInListTrueVar new_list t;;
             if b : bool then ret (Cont new_list)
             else new_list <- lappend new_list t;; ret (Cont new_list)) None;;
      match r with Cont l => ret l | Done l => ret l end
  end.

(** The inner loop of [inter_list]: how many elements of [l] are the variable [v]. *)
Definition count_in (l v : option positive) : M heap Z :=
  r <- foreach (R := Z) l (λ cell_in nb_in,
         t <- lfirst cell_in;;
         b <- same_true_var_at v t;;
         ret (Cont (if b : bool then nb_in + 1 else nb_in))) 0;;
  match r with Cont n => ret n | Done n => ret n end.

Definition inter_list (l : option positive) (nb_arg : Z) : M heap (option positive) :=
  match l with
  | None => ret None
  | Some _ =>
      r <- foreach (R := option positive) l (λ cell new_list,
             v <- lfirst cell;;
             nb_in <- count_in l v;;
             b <- (if nb_in =? nb_arg then
                     x <- isInListTrueVar new_list v;; ret (negb x)
                   else ret false);;
             if b : bool then new_list <- lappend new_list v;; ret (Cont new_list)
             else ret (Cont new_list)) None;;
      match r with Cont l => ret l | Done l => ret l end
  end.
End TrueVar.
