(* ===== verification/TrueVarSpec.v ===== *)
(** Correctness of true_var.c on the heap: membership, union, intersection and scope
    look-up of true variables, in terms of the keys (relation, column) that identify
    a true variable. *)

From S2P Require Import Prelude Nodes PgList ListSpec ListOps ListSets TrueVar.

(** ** Keys *)

(** A true variable is compared by column and relation. *)
Definition key : Type := Z * Z.

Definition key_of (v : var) : key := (vartype v, varattno v).

Definition key_eqb (k1 k2 : key) : bool := bool_decide (k1 = k2).

(** What [union_list] computes on keys: the first occurrence of each. *)
Definition union_keys (ks : list key) : list key := union_spec key_eqb [] ks.

Definition count_key (ks : list key) (k : key) : Z :=
  Z.of_nat (length (List.filter (key_eqb k) ks)).

(** What [inter_list] computes: the keys that occur exactly [n] times. *)
Definition inter_keys (n : Z) (ks : list key) : list key :=
  fold_left (λ acc k, if (count_key ks k =? n) && negb (memb key_eqb acc k) then acc ++ [k] else acc) ks [].

(** ** Variables on the heap *)

Definition var_at (h : heap) (p : option positive) (v : var) : Prop :=
  ∃ l, p = Some l ∧ h_objs h !! l = Some (ONode (Var v)).

(** The variable behind a pointer. *)
Definition var_of (h : heap) (p : option positive) : var :=
  match p with
  | Some l => match h_objs h !! l with Some (ONode (Var v)) => v | _ => makeVar0 end
  | None => makeVar0
  end.

Definition is_var (h : heap) (p : option positive) : Prop := var_at h p (var_of h p).

Definition keys (h : heap) (xs : list (option positive)) : list key := key_of ∘ var_of h <$> xs.

(** A variable whose location satisfies [P]. *)
Definition var_in (P : positive → Prop) (h : heap) (x : option positive) : Prop :=
  is_var h x ∧ ∀ l, x = Some l → P l.

(** The cells [cs] hold true variables of [P] with keys [ks]. *)
Definition elems (P : positive → Prop) (h : heap) (cs : cells) (ks : list key) : Prop :=
  ∃ xs, cs.*2 = DPtr <$> xs ∧ Forall (var_in P h) xs ∧ ks = keys h xs.

(** [p] is a list of such variables. *)
Definition vars_in (P : positive → Prop) (h : heap) (p : option positive) (cs : cells) (ks : list key) : Prop :=
  is_list h T_List p cs ∧ elems P h cs ks.

Definition var_list : heap → option positive → cells → list key → Prop := vars_in (λ _, True).

Definition ptr_eqv (h : heap) (p q : option positive) : bool :=
  key_eqb (key_of (var_of h p)) (key_of (var_of h q)).

Lemma same_true_var_key t v : same_true_var t v = key_eqb (key_of t) (key_of v).
Proof.
  unfold same_true_var, key_eqb, key_of. apply Bool.eq_true_iff_eq.
  rewrite andb_true_iff, bool_decide_eq_true, !Z.eqb_eq.
  split; [by intros [-> ->]|by intros [= -> ->]].
Qed.

Lemma key_eqb_true k1 k2 : key_eqb k1 k2 = true ↔ k1 = k2.
Proof. apply bool_decide_eq_true. Qed.

Lemma get_var_ok h p : is_var h p → get_var p h = Ok (var_of h p, h).
Proof.
  intros (l & -> & Hl). unfold get_var. erewrite bind_Ok by (apply get_node_Ok; exact Hl). done.
Qed.

Lemma same_true_var_at_ok h p q :
  is_var h p → is_var h q → same_true_var_at p q h = Ok (ptr_eqv h p q, h).
Proof.
  intros Hp Hq. unfold same_true_var_at.
  erewrite bind_Ok by by apply get_var_ok. erewrite bind_Ok by by apply get_var_ok.
  by rewrite same_true_var_key.
Qed.

(** Variables survive what happens outside of them. *)
Lemma var_of_frame X h h' p :
  heap_ok h → framed X h h' → is_var h p → (∀ l, p = Some l → l ∉ X) →
  is_var h' p ∧ var_of h' p = var_of h p.
Proof.
  intros Hok [_ Hf] (l & -> & Hl) HX.
  assert (h_objs h' !! l = h_objs h !! l) as E by (apply Hf; eauto).
  assert (var_of h' (Some l) = var_of h (Some l)) as E' by (unfold var_of; by rewrite E).
  split; [|done]. exists l. split; [done|]. by rewrite E, E'.
Qed.

(** A cell of a list is not a variable. *)
Lemma is_var_not_in_list h t p cs l : is_list h t p cs → is_var h (Some l) → l ∉ footprint p cs.
Proof.
  intros Hl (l' & [= <-] & Hv) [->|Hin]%elem_footprint.
  - destruct Hl as (_ & Ha & _). congruence.
  - destruct p as [a|]; [|simpl in Hl; subst; by apply elem_of_nil in Hin].
    destruct Hl as (_ & _ & Hs). destruct (seg_lookup _ _ _ _ _ Hs Hin). congruence.
Qed.

Section Specs.
Context {B : Build}.

(** ** Membership *)

Lemma run_loop_member h xs v :
  run_loop (λ d (_ : ()), match d with DPtr t => if ptr_eqv h t v then Done true else Cont () | _ => Cont () end)
    (DPtr <$> xs) () = if memb (ptr_eqv h) xs v then Done true else Cont ().
Proof. induction xs as [|x xs IH]; [done|]. rewrite fmap_cons. cbn. destruct (ptr_eqv h x v); [done|]. apply IH. Qed.

Lemma isInListTrueVar_ok h p cs xs v :
  heap_ok h → holds ops_ptr h p cs xs → Forall (is_var h) xs → (xs ≠ [] → is_var h v) →
  isInListTrueVar p v h = Ok (memb (ptr_eqv h) xs v, h).
Proof.
  intros Hok [Hl Hd] Hxs Hv. change (cs.*2 = DPtr <$> xs) in Hd. unfold isInListTrueVar. destruct p as [a|].
  2: { simpl in Hl. subst cs. by destruct xs. }
  erewrite bind_Ok.
  2: { apply (foreach_readonly _ (λ d (_ : ()), match d with DPtr t =>
         if ptr_eqv h t v then Done true else Cont () | _ => Cont () end) h T_List (Some a) cs); [done..|].
       intros l d [] Hin. destruct (is_list_cell _ _ _ _ _ _ Hl Hin) as [n Hc].
       assert (d ∈ DPtr <$> xs) as (t & -> & Ht)%list_elem_of_fmap.
       { rewrite <- Hd. apply list_elem_of_fmap. by exists (l, d). }
       erewrite bind_Ok by by eapply lfirst_Ok.
       rewrite Forall_forall in Hxs.
       erewrite bind_Ok by (apply same_true_var_at_ok; [auto|apply Hv; by intros ->; apply elem_of_nil in Ht]).
       by destruct (ptr_eqv h t v). }
  rewrite Hd. rewrite run_loop_member.
  unfold ret. by destruct (memb _ _ _).
Qed.

Lemma memb_ptr_keys h xs p : memb (ptr_eqv h) xs p = memb key_eqb (keys h xs) (key_of (var_of h p)).
Proof. unfold memb, keys. induction xs as [|x xs IH]; [done|]. cbn. by rewrite IH. Qed.

(** [isInListTrueVar] decides membership of the key of a variable. *)
Lemma isInListTrueVar_keys P h p cs ks t :
  heap_ok h → vars_in P h p cs ks → is_var h t →
  isInListTrueVar p t h = Ok (memb key_eqb ks (key_of (var_of h t)), h).
Proof.
  intros Hok (Hl & xs & Hd & Hxs & ->) Ht. rewrite <- memb_ptr_keys. eapply isInListTrueVar_ok; [done|done| |done].
  eapply Forall_impl; [exact Hxs|]. by intros x [? _].
Qed.

(** ** Loops that build a list of variables *)

Lemma keys_fold h (sel : list key → key → bool) xs ys :
  keys h (fold_left (λ a x, if sel (keys h a) (key_of (var_of h x)) then a ++ [x] else a) xs ys) =
  fold_left (λ a k, if sel a k then a ++ [k] else a) (keys h xs) (keys h ys).
Proof.
  revert ys. induction xs as [|x xs IH]; intros ys; [done|].
  change (keys h (x :: xs)) with (key_of (var_of h x) :: keys h xs). cbn [fold_left]. rewrite IH. f_equal.
  destruct (sel _ _); [|done]. unfold keys. by rewrite fmap_app.
Qed.

(** A loop over a list of variables that appends to a new list the elements that a
    predicate on keys selects. *)
Lemma select_loop P (body : option positive → option positive → M heap (loop (option positive) (option positive)))
    (sel : list key → key → bool) h p cs xs :
  heap_ok h → holds ops_ptr h p cs xs → Forall (var_in P h) xs →
  (∀ h' acc cs' ys l x, heap_ok h' → framed [] h h' → holds ops_ptr h' p cs xs →
     h_objs h' !! l = (h_objs h !! l) → (l, DPtr x) ∈ cs → x ∈ xs →
     holds ops_ptr h' acc cs' ys → Forall (is_var h') ys → keys h' ys = keys h ys →
     body (Some l) acc h' =
       (if sel (keys h ys) (key_of (var_of h x)) then r <- lappend acc x;; ret (Cont r) else ret (Cont acc)) h') →
  ∃ acc cs' h', foreach p body None h = Ok (Cont acc, h') ∧
    list_step h None [] h' T_List acc cs' ∧
    vars_in P h' acc cs' (fold_left (λ a k, if sel a k then a ++ [k] else a) (keys h xs) []).
Proof.
  intros Hok Hh Hxs Hbody.
  assert (∀ h' y, framed [] h h' → y ∈ xs → is_var h' y ∧ var_of h' y = var_of h y) as Hsame.
  { intros h' y Hfr Hy. rewrite Forall_forall in Hxs. destruct (Hxs y Hy) as [Hvy _].
    eapply var_of_frame; eauto. by intros ? _ ?%elem_of_nil. }
  assert (∀ h' ys, framed [] h h' → (∀ y, y ∈ ys → y ∈ xs) → Forall (is_var h') ys ∧ keys h' ys = keys h ys) as Hsames.
  { intros h' ys Hfr Hys. split; [apply Forall_forall; intros; by apply Hsame; auto|].
    apply list_fmap_ext. intros i y Hy. simpl. f_equal. apply Hsame; [done|]. eauto using list_elem_of_lookup_2. }
  edestruct (append_loop ops_ptr body (λ a x, sel (keys h a) (key_of (var_of h x))) h p cs xs None [] [])
    as (acc & cs' & h' & Hrun & Hstep & Hdata); [done|done|by split|by intros ? _ ?%elem_of_nil| |].
  - intros h' acc cs' ys l x Hin Hok' Hfr Hacc Hx Hys.
    assert (∀ y, y ∈ ys → y ∈ xs) as Hys' by (intros y [?%elem_of_nil|?]%Hys; done).
    assert (footprint None [] = []) as E by done. rewrite E in Hfr.
    destruct (Hsames h' ys Hfr Hys'). apply (Hbody h' acc cs'); try done.
    + eapply holds_frame; [exact Hok|exact Hfr| |done]. by intros ? _ ?%elem_of_nil.
    + destruct Hh as [Hl _]. destruct (is_list_cell _ _ _ _ _ _ Hl Hin) as [n Hc].
      apply Hfr; [by eapply Hok|]. by intros ?%elem_of_nil.
  - exists acc, cs', h'. split; [done|]. split; [done|].
    destruct Hstep as (Hl' & Hok' & Hfr & _). split; [exact Hl'|]. eexists. split; [exact Hdata|].
    match goal with |- Forall _ ?ys ∧ _ => assert (∀ y, y ∈ ys → y ∈ xs) as Hsub by
      (intros y [?%elem_of_nil|?]%fold_sel_elem; done); destruct (Hsames h' ys Hfr Hsub) as [Hys ->] end.
    split; [|symmetry; apply (keys_fold h sel xs [])].
    rewrite Forall_forall in Hys, Hxs |- *. intros y Hy. split; [auto|]. apply Hxs, Hsub, Hy.
Qed.

Lemma union_keys_fold ks :
  union_keys ks = fold_left (λ a k, if negb (memb key_eqb a k) then a ++ [k] else a) ks [].
Proof.
  unfold union_keys, union_spec. assert (∀ a, fold_left (λ acc x, if memb key_eqb acc x then acc else acc ++ [x]) ks a
    = fold_left (λ a k, if negb (memb key_eqb a k) then a ++ [k] else a) ks a) as H; [|apply H].
  induction ks as [|k ks IH]; intros a; [done|]. simpl. rewrite IH. by destruct (memb key_eqb a k).
Qed.

(** [union_list] returns a new list with one variable per key, in the order of first
    occurrence. *)
Lemma union_list_ok P h p cs ks :
  heap_ok h → vars_in P h p cs ks →
  ∃ p' cs' h', union_list p h = Ok (p', h') ∧
    list_step h None [] h' T_List p' cs' ∧ vars_in P h' p' cs' (union_keys ks).
Proof.
  intros Hok (Hl1 & xs & Hd & Hxs & ->). unfold union_list. destruct p as [a|].
  2: { simpl in Hl1. subst cs. destruct xs; [|done]. exists None, [], h.
       split; [done|]. split; [by apply list_step_refl|]. split; [done|]. by exists []. }
  assert (holds ops_ptr h (Some a) cs xs) as Hh by done.
  edestruct (select_loop P (λ cell new_list, t <- lfirst cell;; b <- isInListTrueVar new_list t;;
      if b : bool then ret (Cont new_list) else new_list <- lappend new_list t;; ret (Cont new_list))
      (λ a k, negb (memb key_eqb a k)) h (Some a) cs xs)
    as (acc & cs' & h' & Hrun & Hstep & Hvl); [done..| |].
  - intros h' acc cs' ys l x Hok' Hfr Hh' Hl Hin Hx Hacc Hys Hk.
    destruct Hh as [Hl0 _]. destruct (is_list_cell _ _ _ _ _ _ Hl0 Hin) as [n Hc]. rewrite <- Hl in Hc.
    erewrite bind_Ok by by eapply lfirst_Ok.
    rewrite Forall_forall in Hxs. destruct (Hxs x Hx) as [Hvx0 _].
    destruct (var_of_frame [] h h' x) as [Hvx Ex]; [done|done|done|by intros ? _ ?%elem_of_nil|].
    erewrite bind_Ok by by eapply isInListTrueVar_ok.
    rewrite memb_ptr_keys, Hk, Ex. by destruct (memb _ _ _).
  - erewrite bind_Ok by exact Hrun. exists acc, cs', h'. rewrite union_keys_fold. done.
Qed.

(** ** Counting *)

Lemma count_key_cons k' ks k : count_key (k' :: ks) k = (if key_eqb k k' then 1 else 0) + count_key ks k.
Proof. unfold count_key. simpl. destruct (key_eqb k k'); simpl; lia. Qed.

Lemma run_loop_count h ds v n :
  run_loop (λ d n, match d with DPtr t => Cont (if ptr_eqv h v t then n + 1 else n) | _ => Cont n end)
    (DPtr <$> ds) n =
  Cont (R := Z) (n + count_key (keys h ds) (key_of (var_of h v))).
Proof.
  revert n. induction ds as [|t ds IH]; intros n; [by rewrite <- (Z.add_0_r n) at 1|].
  change (keys h (t :: ds)) with (key_of (var_of h t) :: keys h ds).
  rewrite fmap_cons, count_key_cons. cbn [run_loop]. rewrite IH. unfold ptr_eqv. f_equal.
  destruct (key_eqb _ _); lia.
Qed.

Lemma count_in_ok h p cs xs v :
  heap_ok h → holds ops_ptr h p cs xs → Forall (is_var h) xs → is_var h v →
  count_in p v h = Ok (count_key (keys h xs) (key_of (var_of h v)), h).
Proof.
  intros Hok [Hl Hd] Hxs Hv. change (cs.*2 = DPtr <$> xs) in Hd. unfold count_in.
  erewrite bind_Ok.
  2: { apply (foreach_readonly _ (λ d n, match d with DPtr t => Cont (if ptr_eqv h v t then n + 1 else n)
         | _ => Cont n end) h T_List p cs); [done..|].
       intros l d n Hin. destruct (is_list_cell _ _ _ _ _ _ Hl Hin) as [nx Hc].
       assert (d ∈ DPtr <$> xs) as (t & -> & Ht)%list_elem_of_fmap.
       { rewrite <- Hd. apply list_elem_of_fmap. by exists (l, d). }
       erewrite bind_Ok by by eapply lfirst_Ok. rewrite Forall_forall in Hxs.
       by erewrite bind_Ok by (apply same_true_var_at_ok; auto). }
  rewrite Hd. by rewrite run_loop_count.
Qed.

(** [inter_list] returns a new list with the keys that occur exactly [nb_arg] times. *)
Lemma inter_list_ok P h p cs ks nb_arg :
  heap_ok h → vars_in P h p cs ks →
  ∃ p' cs' h', inter_list p nb_arg h = Ok (p', h') ∧
    list_step h None [] h' T_List p' cs' ∧ vars_in P h' p' cs' (inter_keys nb_arg ks).
Proof.
  intros Hok (Hl1 & xs & Hd & Hxs & ->). unfold inter_list. destruct p as [a|].
  2: { simpl in Hl1. subst cs. destruct xs; [|done]. exists None, [], h.
       split; [done|]. split; [by apply list_step_refl|]. split; [done|]. by exists []. }
  assert (holds ops_ptr h (Some a) cs xs) as Hh by done.
  match goal with |- context [foreach _ ?b _] => edestruct (select_loop P b
      (λ a k, (count_key (keys h xs) k =? nb_arg) && negb (memb key_eqb a k)) h (Some a) cs xs)
    as (acc & cs' & h' & Hrun & Hstep & Hvl); [done..| |] end.
  - intros h' acc cs' ys l x Hok' Hfr Hh' Hl Hin Hx Hacc Hys Hk.
    destruct Hh as [Hl0 _]. destruct (is_list_cell _ _ _ _ _ _ Hl0 Hin) as [n Hc]. rewrite <- Hl in Hc.
    erewrite bind_Ok by by eapply lfirst_Ok.
    assert (∀ y, y ∈ xs → is_var h' y ∧ var_of h' y = var_of h y) as Hsame.
    { intros y Hy. rewrite Forall_forall in Hxs. destruct (Hxs y Hy) as [Hvy _].
      eapply var_of_frame; eauto. by intros ? _ ?%elem_of_nil. }
    destruct (Hsame x Hx) as [Hvx Ex].
    assert (keys h' xs = keys h xs) as Ek.
    { apply list_fmap_ext. intros i y Hy. simpl. f_equal. apply Hsame. eauto using list_elem_of_lookup_2. }
    erewrite bind_Ok by (eapply count_in_ok; [done|done|apply Forall_forall; intros; by apply Hsame|done]).
    rewrite Ek, Ex. destruct (_ =? nb_arg); cbn [andb].
    + rewrite bind_assoc. erewrite bind_Ok by by eapply isInListTrueVar_ok.
      rewrite memb_ptr_keys, Hk, Ex. unfold ret at 1. erewrite bind_Ok by reflexivity.
      by destruct (memb _ _ _).
    + by erewrite bind_Ok by reflexivity.
  - erewrite bind_Ok by exact Hrun. exists acc, cs', h'. done.
Qed.

(** ** Scopes *)

Lemma list_nth_ok h p cs xs n x :
  is_list h T_List p cs → cs.*2 = DPtr <$> xs → 0 ≤ n → xs !! Z.to_nat n = Some x →
  list_nth p n h = Ok (x, h).
Proof.
  intros Hl Hd Hn Hx. unfold list_nth. erewrite bind_Ok by by eapply assert_typed_ok.
  assert (cs.*2 !! Z.to_nat n = Some (DPtr x)) as Hx' by (rewrite Hd, list_lookup_fmap, Hx; done).
  rewrite list_lookup_fmap in Hx'. apply fmap_Some in Hx' as ([l d] & Hx' & Ed). simpl in Ed. subst d.
  erewrite bind_Ok by by eapply list_nth_cell_ok.
  destruct (is_list_cell h T_List p cs l (DPtr x)) as [nx Hc]; [done|by eapply list_elem_of_lookup_2|].
  by eapply lfirst_Ok.
Qed.

(** The scope of a query on the heap: the scope of the enclosing query, then the
    columns of each range table entry.  [st] lists the scopes from the innermost
    outwards, and every object of the structure satisfies [P]. *)
Fixpoint scopes (P : positive → Prop) (h : heap) (p : option positive) (st : list (list (list key))) : Prop :=
  match st with
  | [] => True
  | rels :: st =>
      ∃ cs q ps, is_list h T_List p cs ∧ cs.*2 = DPtr <$> (q :: ps) ∧
        (∀ x, x ∈ footprint p cs → P x) ∧ scopes P h q st ∧
        Forall2 (λ p ks, ∃ cs, vars_in P h p cs ks ∧ ∀ x, x ∈ footprint p cs → P x) ps rels
  end.

(** The column that a variable refers to. *)
Definition resolve (st : list (list (list key))) (v : var) : option key :=
  if (0 <=? varlevelsup v) && (1 <=? varno v) && (1 <=? varattno v) then
    rels ← st !! Z.to_nat (varlevelsup v);
    ks ← rels !! Z.to_nat (varno v - 1);
    ks !! Z.to_nat (varattno v - 1)
  else None.

Lemma up_levels_ok P h n : ∀ p st rels,
  scopes P h p st → st !! n = Some rels →
  ∃ q, up_levels n p h = Ok (q, h) ∧ ∃ st', scopes P h q (rels :: st').
Proof.
  induction n as [|n IH]; intros p [|rels' st] rels Hsc Hn; try done.
  - injection Hn as ->. by exists p; split; [done|exists st].
  - cbn in Hn. destruct Hsc as (cs & q & ps & Hl & Hd & _ & Hsc & _). cbn.
    erewrite bind_Ok by (by eapply (list_nth_ok h p cs (q :: ps) 0)). eauto.
Qed.

Lemma vars_in_nth P h p cs ks n k :
  vars_in P h p cs ks → 0 ≤ n → ks !! Z.to_nat n = Some k →
  ∃ t, list_nth p n h = Ok (t, h) ∧ var_in P h t ∧ key_of (var_of h t) = k.
Proof.
  intros (Hl & xs & Hd & Hxs & ->) Hn Hk. unfold keys in Hk. rewrite list_lookup_fmap in Hk.
  apply fmap_Some in Hk as (x & Hx & ->). exists x. split; [by eapply list_nth_ok|].
  split; [|done]. rewrite Forall_lookup in Hxs. by apply (Hxs _ _ Hx).
Qed.

(** [getTrueVar] finds the true variable of the column that a variable refers to. *)
Lemma getTrueVar_ok P h p st v k :
  scopes P h p st → resolve st v = Some k →
  ∃ t, getTrueVar p v h = Ok (t, h) ∧ var_in P h t ∧ key_of (var_of h t) = k.
Proof.
  intros Hsc Hr. unfold resolve in Hr.
  destruct (_ && _) eqn:Hb; [|done]. rewrite !andb_true_iff, !Z.leb_le in Hb. destruct Hb as [[H0 H1] H2].
  apply bind_Some in Hr as (rels & Hrels & Hr). apply bind_Some in Hr as (ks & Hks & Hk).
  destruct (up_levels_ok P h _ p st rels Hsc Hrels) as (q & Eup & st' & Hq).
  unfold getTrueVar. erewrite bind_Ok by exact Eup.
  destruct Hq as (cs & q' & ps & Hl & Hd & _ & _ & Hps).
  destruct (Forall2_lookup_r _ _ _ _ _ Hps Hks) as (pr & Hpr & csr & Hv & _).
  erewrite bind_Ok.
  2: { eapply list_nth_ok; [done|done|lia|]. by replace (Z.to_nat (varno v)) with (S (Z.to_nat (varno v - 1))) by lia. }
  eapply vars_in_nth; [exact Hv|lia|done].
Qed.
End Specs.
