(* ===== verification/Walker.v ===== *)
(** What the walkers of the two certain-answer hooks share: the cases of [my_walker]
    of certain_answer_codd.c and of certain_answer_marked.c.

    The walker visits a query once.  For every query it builds the scope
    [current_trueVar]; for every AND and OR it appends to [list_list_true] and
    [list_list_false] the variables that cannot be null when the expression is true
    (false).  Its state is the heap, where all these lists live, and the context.
    The two hooks differ in the treatment of operators and of range table entries;
    what they share is defined once, over the recursive call [walk]. *)

From S2P Require Import Prelude Nodes PgList TrueVar.

Abbreviation WM := (M (heap * context_walker_set_constraint)) (only parsing).

Section Walker.
Context {B : Build} {C : SysCache}.

(** ** Boolean connectives *)

(** Saves the two lists and empties them: the "pre" part of the three cases. *)
Definition enter_bool : WM (option positive * option positive) :=
  c <- getc;;
  modc (w_set_true None);;;
  modc (w_set_false None);;;
  ret (w_list_of_not_null_to_be_true c, w_list_of_not_null_to_be_false c).

Definition leave_not (l_true_save l_false_save : option positive) : WM () :=
  c <- getc;;
  let l_true := w_list_of_not_null_to_be_true c in
  let l_false := w_list_of_not_null_to_be_false c in
  t <- zoom (list_concat l_true_save l_false);;
  modc (w_set_true t);;;
  f <- zoom (list_concat l_false_save l_true);;
  modc (w_set_false f).

(** The "post" part of AND and OR, once [l_true] and [l_false] are computed. *)
Definition leave_and_or (l_true_save l_false_save l_true l_false : option positive) : WM () :=
  c <- getc;;
  llt <- zoom (lappend (w_list_list_true c) l_true);;
  modc (w_set_ll_true llt);;;
  llf <- zoom (lappend (w_list_list_false c) l_false);;
  modc (w_set_ll_false llf);;;
  t <- zoom (list_concat l_true_save l_true);;
  modc (w_set_true t);;;
  f <- zoom (list_concat l_false_save l_false);;
  modc (w_set_false f).

(** [children] is [expression_tree_walker (node, my_walker, context)]. *)
Definition walk_bool (children : WM bool) (boolop : BoolExprType) (args : node) : WM bool :=
  nb_arg <- of_res (length_field args);;
  saved <- enter_bool;;
  retour <- children;;
  match boolop with
  | NOT_EXPR => leave_not saved.1 saved.2
  | AND_EXPR =>
      c <- getc;;
      l_true <- zoom (union_list (w_list_of_not_null_to_be_true c));;
      l_false <- zoom (inter_list (w_list_of_not_null_to_be_false c) nb_arg);;
      leave_and_or saved.1 saved.2 l_true l_false
  | OR_EXPR =>
      c <- getc;;
      l_true <- zoom (inter_list (w_list_of_not_null_to_be_true c) nb_arg);;
      l_false <- zoom (union_list (w_list_of_not_null_to_be_false c));;
      leave_and_or saved.1 saved.2 l_true l_false
  end;;;
  ret retour.

(** ** Variables and operators *)

(** A [Var] met while [ready]: its true variable joins the list of the operator. *)
Definition walk_var (v : var) : WM () :=
  c <- getc;;
  t <- zoom (getTrueVar (w_current_trueVar c) v);;
  b <- zoom (isInListTrueVar (w_list_of_not_null_in_op c) t);;
  if b : bool then ret ()
  else l <- zoom (lappend (w_list_of_not_null_in_op c) t);; modc (w_set_in_op l).

(** An operator whose variables cannot be null when it is true. *)
Definition walk_strict_op (children : WM bool) : WM bool :=
  modc (w_set_ready true);;;
  modc (w_set_in_op None);;;
  retour <- children;;
  c <- getc;;
  t <- zoom (list_concat (w_list_of_not_null_to_be_true c) (w_list_of_not_null_in_op c));;
  modc (w_set_true t);;;
  ret retour.

(** ** Queries and range tables *)

(** The loop that makes the true variables of the columns i, i+1, ... of a relation;
    [n] columns are left. *)
Fixpoint make_columns (n : nat) (relid i : Z) (relation : option positive) : WM (option positive) :=
  match n with
  | O => ret relation
  | S n =>
      v <- zoom (palloc (ONode (Var (mkVar 0 i relid 0 0 0 0 0 0))));;
      relation <- zoom (lappend relation (Some v));;
      (if get_pg_att_not_null relid i then
         c <- getc;;
         l <- zoom (lappend (w_list_of_not_null_att_schem c) (Some v));;
         modc (w_set_schem l)
       else ret ());;;
      make_columns n relid (i + 1) relation
  end.

Definition walk_relation (relid : Z) : WM bool :=
  let number_col := get_relnatts relid in
  relation <- make_columns (Z.to_nat number_col) relid 1 None;;
  c <- getc;;
  l <- zoom (lappend (w_current_trueVar c) relation);;
  modc (w_set_current l);;;
  ret false.

(** [rtable] and [jointree] are the walks over the two fields of the query. *)
Definition walk_query (rtable jointree : WM bool) : WM bool :=
  c <- getc;;
  let save_current_trueVar := w_current_trueVar c in
  l <- zoom (lappend None save_current_trueVar);;
  modc (w_set_current l);;;
  result <- rtable;;
  c <- getc;;
  tvs <- zoom (lappend (w_trueVars c) (w_current_trueVar c));;
  modc (w_set_trueVars tvs);;;
  result' <- jointree;;
  modc (w_set_current save_current_trueVar);;;
  ret (result' || result).
End Walker.
