(* ===== verification/Codd.v ===== *)
(** certain_answer_codd.c: the walker and the mutator of the hook for Codd nulls.

    [my_walker] collects scopes and the variables that cannot be null; [my_mutator]
    rewrites the comparisons that occur under an odd number of negations, adding
    "x IS NULL" alternatives for the variables that may be null. *)

From S2P Require Import Prelude Nodes PgList TrueVar Walker.

Abbreviation MM := (M (heap * context_modifier)) (only parsing).

(** Whether an expression contains a SubLink: see [mutate_op]. *)
Fixpoint has_sublink (n : node) : bool :=
  match n with
  | SubLink _ _ _ => true
  | FuncExpr _ a | OpExpr _ a | BoolExpr _ a _ | NullTest _ a _ | RelabelType _ a
  | TargetEntry _ a => has_sublink a
  | NList l => existsb has_sublink l
  | _ => false
  end.

Section Codd.
Context {B : Build} {C : SysCache}.

(** ** The walker *)

Fixpoint my_walker (n : node) : WM bool :=
  match n with
  | NULL => ret false
  | BoolExpr boolop args _ =>
      walk_bool (expression_tree_walker my_walker n) boolop args
  | Var v =>
      c <- getc;;
      (if w_ready c then walk_var v else ret ());;;
      expression_tree_walker my_walker n
  | OpExpr _ _ => walk_strict_op (expression_tree_walker my_walker n)
  | Query _ rtable jointree _ =>
      walk_query (expression_tree_walker my_walker rtable)
                 (expression_tree_walker my_walker jointree)
  | RangeTblEntry rte subquery =>
      match rtekind rte with
      | RTE_RELATION => walk_relation (relid rte)
      | RTE_SUBQUERY =>
          match subquery with
          | NULL => fail ENullDeref
          | Query _ rtable _ _ => expression_tree_walker my_walker rtable
          | _ => fail EBadCast
          end
      | _ => expression_tree_walker my_walker n
      end
  | _ => expression_tree_walker my_walker n
  end.

(** ** The mutator *)

Definition mutate_not (children : MM node) : MM node :=
  modc (λ c, m_set_positive (negb (m_positive c)) c);;;
  retour <- children;;
  modc (λ c, m_set_positive (negb (m_positive c)) c);;;
  ret retour.

(** AND and OR: the variables that the walker found for this expression are assumed
    not null below it. *)
Definition mutate_and_or (children : MM node) : MM node :=
  c <- getc;;
  let l_save := m_list_of_not_null_in_current c in
  copy <- zoom (list_copy l_save);;
  modc (m_set_not_null copy);;;
  hdr <- zoom (get_list (m_list_list_true c));;
  extra <- zoom (list_nth (if m_positive c then m_list_list_true c else m_list_list_false c)
                          (l_length hdr - m_where_i_am c - 1));;
  l <- zoom (list_concat copy extra);;
  modc (m_set_not_null l);;;
  modc (λ c, m_set_where (m_where_i_am c + 1) c);;;
  retour <- children;;
  modc (m_set_not_null l_save);;;
  ret retour.

(** [jointree] is the mutation of the jointree; it replaces the field in place. *)
Definition mutate_query (jointree : MM node) : MM node :=
  c <- getc;;
  let save_current_trueVar := m_current_trueVar c in
  current <- zoom (list_nth (m_trueVars c) (m_where_i_am_querry c));;
  modc (m_set_current current);;;
  modc (λ c, m_set_where_q (m_where_i_am_querry c + 1) c);;;
  j <- jointree;;
  modc (m_set_current save_current_trueVar);;;
  ret j.

(** The operators that get IS NULL alternatives under a negation. *)
Definition rewritten_op (opno : Z) : bool :=
  (opno =? 518) || (opno =? 416) || (opno =? 98) || (opno =? 521) || (opno =? 525) ||
  (opno =? 523) || (opno =? 97) || (opno =? 1209).

(** An operator: [children] is [expression_tree_mutator (node, my_mutator, context)].
    When constraints are left in a positive context the code falls through to its
    last statement and mutates the node a second time; the first pass has then
    already changed the queries of SubLinks inside it in place, which the model
    does not follow. *)
Definition mutate_op (children : MM node) (o : opinfo) (args : node) : MM node :=
  modc (λ c, if negb (m_positive c) && rewritten_op (opno o) then m_set_ready true c else c);;;
  result <- children;;
  c <- getc;;
  match m_constraint_to_add c with
  | [] => ret result
  | constraints =>
      if negb (m_positive c) then
        modc (m_set_constraint []);;;
        modc (m_set_ready false);;;
        ret (makeBoolExpr OR_EXPR (NList (constraints ++ [result])) (-1))
      else if has_sublink args then fail EUnmodelled
      else children
  end.

Definition with_location (l : Z) (v : var) : var :=
  mkVar (varno v) (varattno v) (vartype v) (vartypmod v) (varcollid v) (varlevelsup v)
    (varnoold v) (varoattno v) l.

(** A [Var] met while [ready]; the variable is changed in place. *)
Definition mutate_var (v : var) : MM var :=
  c <- getc;;
  rv <- zoom (getTrueVar (m_current_trueVar c) v);;
  b <- zoom (isInListTrueVar (m_list_of_not_null_in_current c) rv);;
  if b : bool then ret v
  else
    let v := with_location (-1) v in
    modc (λ c, m_set_constraint (m_constraint_to_add c ++ [NullTest IS_NULL (Var v) (-1)]) c);;;
    ret v.

Fixpoint my_mutator (n : node) : MM node :=
  match n with
  | NULL => ret NULL
  | BoolExpr NOT_EXPR _ _ => mutate_not (expression_tree_mutator my_mutator n)
  | BoolExpr _ _ _ => mutate_and_or (expression_tree_mutator my_mutator n)
  | Query q rtable jointree targetList =>
      j <- mutate_query (expression_tree_mutator my_mutator jointree);;
      ret (Query q rtable j targetList)
  | OpExpr o args => mutate_op (expression_tree_mutator my_mutator n) o args
  | Var v =>
      c <- getc;;
      v <- (if m_ready c then mutate_var v else ret v);;
      ret (Var v)
  | _ => expression_tree_mutator my_mutator n
  end.

(** ** The rewriting part of the hook *)

(** The first half of [my_post_parse_analyse_hook]: walk, then mutate. *)
Definition rewrite_query (query : node) : res node :=
  match my_walker query (empty_heap, make_context_walker_set_constraint) with
  | Err e => Err e
  | Ok (_, (h, ctx)) =>
      match make_context_modifier true ctx h with
      | Err e => Err e
      | Ok (ctx_m, h) =>
          match my_mutator query (h, ctx_m) with
          | Err e => Err e
          | Ok (q, _) => Ok q
          end
      end
  end.
End Codd.
