(* ===== verification/Marked.v ===== *)
(** certain_answer_marked.c: the walker, the mutator and the hook for marked nulls.

    Marked nulls are stored as negative integers: a variable may be null when it may
    be negative, so that the mutator adds comparisons with 0, as alternatives under
    a negation and as further conditions elsewhere. *)

From S2P Require Import Prelude Nodes PgList TrueVar Walker Codd.

Section Marked.
Context {B : Build} {C : SysCache}.

(** ** The walker *)

Fixpoint my_walker (n : node) : WM bool :=
  match n with
  | NULL => ret false
  | BoolExpr boolop args _ =>
      walk_bool (expression_tree_walker my_walker n) boolop args
  | Var v =>
      c <- getc;;
      (if w_ready c then walk_var v else ret ());;;
      expression_tree_walker my_walker n
  | OpExpr o _ =>
      if opno o =? 518 then walk_strict_op (expression_tree_walker my_walker n)
      else expression_tree_walker my_walker n
  | Query _ rtable jointree _ =>
      walk_query (expression_tree_walker my_walker rtable)
                 (expression_tree_walker my_walker jointree)
  | RangeTblEntry rte _ => walk_relation (relid rte)
  | _ => expression_tree_walker my_walker n
  end.

(** ** The mutator *)

(** [makeNode(OpExpr)] with its operator set. *)
Definition op_of (no : Z) : opinfo := mkOp no 0 0 0 0.

Definition zero_const : const := makeConst 23 (-1) 0 4 0 false true.

(** A comparison of a variable with 0. *)
Definition compare0 (no : Z) (v : var) : node := OpExpr (op_of no) (NList [Var v; Const zero_const]).

Definition mutate_var (v : var) : MM () :=
  c <- getc;;
  rv <- zoom (getTrueVar (m_current_trueVar c) v);;
  b <- (if negb (m_positive c) then
          x <- zoom (isInListTrueVar (m_list_of_not_null_in_current c) rv);; ret (negb x)
        else ret false);;
  (if b : bool then
     modc (λ c, m_set_constraint (m_constraint_to_add c ++ [compare0 97 v]) c)
   else ret ());;;
  if m_positive c then
    modc (λ c, m_set_constraint (m_constraint_to_add c ++ [compare0 521 v]) c)
  else ret ().

(** The part of the operator case after the two comparisons with equality; [args] is
    [my_mutator] applied to the arguments of the operator. *)
Definition mutate_op (margs : MM node) (o : opinfo) : MM node :=
  modc (λ c, if (m_positive c && (opno o =? 518)) || (negb (m_positive c) && (opno o =? 96))
             then m_set_ready true c else c);;;
  modc (λ c, if negb (m_positive c) && (opno o =? 1209) then m_set_ready true c else c);;;
  args' <- margs;;
  let result := OpExpr o args' in
  c <- getc;;
  match m_constraint_to_add c with
  | [] => ret result
  | constraints =>
      modc (m_set_constraint []);;;
      modc (m_set_ready false);;;
      ret (makeBoolExpr (if m_positive c then AND_EXPR else OR_EXPR)
             (NList (constraints ++ [result])) (-1))
  end.

(** ">=" and "<=" become a disjunction of "=" and a strict comparison, which is then
    mutated; the two share the arguments, so a query inside them would be changed
    twice in place, which the model does not follow. *)
Definition mutate_or_equal (margs : MM node) (strict : Z) (args : node) : MM node :=
  if has_sublink args then fail EUnmodelled else
  equa <- mutate_op margs (op_of 96);;
  stric <- mutate_op margs (op_of strict);;
  ret (makeBoolExpr OR_EXPR (NList [equa; stric]) (-1)).

Fixpoint my_mutator (n : node) : MM node :=
  match n with
  | NULL => ret NULL
  | BoolExpr NOT_EXPR _ _ => mutate_not (expression_tree_mutator my_mutator n)
  | BoolExpr _ _ _ => mutate_and_or (expression_tree_mutator my_mutator n)
  | Query q rtable jointree targetList =>
      j <- mutate_query (expression_tree_mutator my_mutator jointree);;
      ret (Query q rtable j targetList)
  | OpExpr o args =>
      if opno o =? 525 then mutate_or_equal (my_mutator args) 521 args
      else if opno o =? 523 then mutate_or_equal (my_mutator args) 97 args
      else mutate_op (my_mutator args) o
  | Var v =>
      c <- getc;;
      (if m_ready c then mutate_var v else ret ());;;
      ret (Var v)
  | _ => expression_tree_mutator my_mutator n
  end.

(** ** The hook *)

(** What the hook does before it frees its contexts: walk, then mutate.  The query is
    changed in place; the contexts and the heap are returned with it. *)
Definition rewrite_query (query : node)
    : res (node * (context_walker_set_constraint * context_modifier * heap)) :=
  match my_walker query (empty_heap, make_context_walker_set_constraint) with
  | Err e => Err e
  | Ok (_, (h, ctx)) =>
      match make_context_modifier true ctx h with
      | Err e => Err e
      | Ok (ctx_m, h) =>
          match my_mutator query (h, ctx_m) with
          | Err e => Err e
          | Ok (q, (h, ctx_m)) => Ok (q, (ctx, ctx_m, h))
          end
      end
  end.

Definition my_post_parse_analyse_hook (query : node) : res node :=
  match rewrite_query query with
  | Err e => Err e
  | Ok (q, (ctx, ctx_m, h)) =>
      match (free_context_modifier ctx_m;;; free_context_walker_set_constraint ctx) h with
      | Err e => Err e
      | Ok _ => Ok q
      end
  end.
End Marked.
