(* ===== verification/HookClass.v ===== *)
(** What the hooks for Codd nulls and for marked nulls have in common, as interfaces.

    certain_answer_codd.c and certain_answer_marked.c contain a walker and a mutator each.
    They treat connectives, sub-queries and plain relations alike and differ in the
    operators and variables.  [WalkerCases] and [MutatorCases] state the common cases; the
    theorems on whole queries are proved against them, and against what each hook promises
    about a single comparison. *)

From S2P Require Import Prelude Nodes PgList TrueVar Walker Codd Marked.

(** The nodes that both walkers hand to the generic traversal, and those that both mutators
    do. *)
Definition transparent (n : node) : bool :=
  match n with NULL | RangeTblRef _ | SubLink _ _ _ | NList _ | FromExpr _ _ => true | _ => false end.

Definition passed (n : node) : bool :=
  match n with BoolExpr _ _ _ | Query _ _ _ _ | OpExpr _ _ | Var _ => false | _ => true end.

Section Classes.
Context {B : Build} {C : SysCache}.

Class WalkerCases (W : node → WM bool) : Prop := {
  walker_bool b args loc :
    W (BoolExpr b args loc) = walk_bool (expression_tree_walker W (BoolExpr b args loc)) b args;
  walker_query q rtable jointree tl :
    W (Query q rtable jointree tl) = walk_query (expression_tree_walker W rtable) (expression_tree_walker W jointree);
  walker_relation r sub : rtekind r = RTE_RELATION → W (RangeTblEntry r sub) = walk_relation (relid r);
  walker_other n : transparent n = true → W n = expression_tree_walker W n }.

Class MutatorCases (Mu : node → MM node) : Prop := {
  mutator_not args loc :
    Mu (BoolExpr NOT_EXPR args loc) = mutate_not (expression_tree_mutator Mu (BoolExpr NOT_EXPR args loc));
  mutator_and_or b args loc : b ≠ NOT_EXPR →
    Mu (BoolExpr b args loc) = mutate_and_or (expression_tree_mutator Mu (BoolExpr b args loc));
  mutator_query q rtable jointree tl :
    Mu (Query q rtable jointree tl) =
      (j <- mutate_query (expression_tree_mutator Mu jointree);; ret (Query q rtable j tl));
  mutator_other n : passed n = true → Mu n = expression_tree_mutator Mu n }.

#[global] Instance codd_walker : WalkerCases Codd.my_walker.
Proof. split; [done|done| |by intros []]. intros r sub Hr. cbn. by rewrite Hr. Qed.

#[global] Instance marked_walker : WalkerCases Marked.my_walker.
Proof. split; [done|done|done|by intros []]. Qed.

#[global] Instance codd_mutator : MutatorCases Codd.my_mutator.
Proof. split; [done|by intros []|done|by intros []]. Qed.

#[global] Instance marked_mutator : MutatorCases Marked.my_mutator.
Proof. split; [done|by intros []|done|by intros []]. Qed.
End Classes.
