(* ===== verification/Semantics.v ===== *)
(** SQL's three-valued semantics of the conditions that the hooks rewrite.

    A condition is evaluated in an environment that gives the value of every column
    reference, None for NULL.  Operators and functions are strict and otherwise
    arbitrary ([Interp]); the connectives are Kleene's, a NULL or a list of
    conditions in the place of a condition is the empty or the implicit conjunction,
    as in the planner; EXISTS ranges over the rows of the range table entries that the
    FROM list names ([from_rows]). *)

From S2P Require Import Prelude Nodes Terms.

(** ** Truth values *)

Inductive tri := FF | UU | TT.

#[global] Instance tri_eq_dec : EqDecision tri.
Proof. solve_decision. Defined.

Definition rank (t : tri) : nat := match t with FF => 0 | UU => 1 | TT => 2 end.

(** The truth order: false below unknown below true. *)
Definition le3 (a b : tri) : Prop := (rank a ≤ rank b)%nat.

Definition and3 (a b : tri) : tri :=
  match a, b with
  | FF, _ | _, FF => FF
  | TT, TT => TT
  | _, _ => UU
  end.

Definition or3 (a b : tri) : tri :=
  match a, b with
  | TT, _ | _, TT => TT
  | FF, FF => FF
  | _, _ => UU
  end.

Definition not3 (a : tri) : tri := match a with FF => TT | UU => UU | TT => FF end.

Definition of_bool (b : bool) : tri := if b then TT else FF.

Definition and3_list (l : list tri) : tri := foldr and3 TT l.
Definition or3_list (l : list tri) : tri := foldr or3 FF l.

#[global] Instance le3_po : PreOrder le3.
Proof. split; [intros ?|intros ???]; unfold le3; lia. Qed.

Lemma le3_and a b a' b' : le3 a a' → le3 b b' → le3 (and3 a b) (and3 a' b').
Proof. destruct a, b, a', b'; unfold le3; simpl; lia. Qed.

Lemma le3_or a b a' b' : le3 a a' → le3 b b' → le3 (or3 a b) (or3 a' b').
Proof. destruct a, b, a', b'; unfold le3; simpl; lia. Qed.

Lemma le3_not a b : le3 a b → le3 (not3 b) (not3 a).
Proof. destruct a, b; unfold le3; simpl; lia. Qed.

Lemma le3_or_r a b : le3 b (or3 a b).
Proof. destruct a, b; unfold le3; simpl; lia. Qed.

Lemma le3_antisym a b : le3 a b → le3 b a → a = b.
Proof. destruct a, b; unfold le3; simpl; intros; (done || lia). Qed.

Lemma TT_le3 a : le3 TT a → a = TT.
Proof. destruct a; unfold le3; simpl; (done || lia). Qed.

Lemma or3_TT a b : or3 a b = TT ↔ a = TT ∨ b = TT.
Proof. destruct a, b; simpl; naive_solver. Qed.

Lemma and3_TT a b : and3 a b = TT ↔ a = TT ∧ b = TT.
Proof. destruct a, b; simpl; naive_solver. Qed.

Lemma and3_assoc a b c : and3 a (and3 b c) = and3 (and3 a b) c.
Proof. by destruct a, b, c. Qed.

Lemma or3_assoc a b c : or3 a (or3 b c) = or3 (or3 a b) c.
Proof. by destruct a, b, c. Qed.

Lemma and3_or3_l a b c : and3 a (or3 b c) = or3 (and3 a b) (and3 a c).
Proof. by destruct a, b, c. Qed.

Lemma and3_or3_r a b c : and3 (or3 a b) c = or3 (and3 a c) (and3 b c).
Proof. by destruct a, b, c. Qed.

Lemma or3_list_app l l' : or3_list (l ++ l') = or3 (or3_list l) (or3_list l').
Proof. induction l as [|x l IH]; simpl; [by destruct (or3_list l')|]. by rewrite IH, or3_assoc. Qed.

Lemma and3_list_app l l' : and3_list (l ++ l') = and3 (and3_list l) (and3_list l').
Proof. induction l as [|x l IH]; simpl; [by destruct (and3_list l')|]. by rewrite IH, and3_assoc. Qed.

Lemma and3_list_TT l : and3_list l = TT ↔ Forall (eq TT) l.
Proof.
  induction l as [|x l IH]; simpl; [done|]. rewrite and3_TT, IH, Forall_cons. naive_solver.
Qed.

Lemma or3_list_TT l : or3_list l = TT ↔ TT ∈ l.
Proof.
  induction l as [|x l IH]; simpl; [split; [done|by intros ?%elem_of_nil]|].
  rewrite or3_TT, IH, elem_of_cons. naive_solver.
Qed.

Lemma and3_list_FF l : and3_list l = FF ↔ FF ∈ l.
Proof.
  induction l as [|x l IH]; simpl; [split; [done|by intros ?%elem_of_nil]|].
  rewrite elem_of_cons, <- IH. fold (and3_list l). destruct x, (and3_list l); naive_solver.
Qed.

Lemma or3_list_FF l : or3_list l = FF ↔ Forall (eq FF) l.
Proof.
  induction l as [|x l IH]; simpl; [done|]. rewrite Forall_cons, <- IH. fold (or3_list l).
  destruct x, (or3_list l); naive_solver.
Qed.

(** ** Environments *)

(** The value of a column reference by level, range table index and column. *)
Definition env := Z → Z → Z → option Z.

Definition row := Z → option Z.

(** The environment of a sub-query whose range table is bound to [rows]. *)
Definition push (rows : list row) (e : env) : env := λ lv no att,
  if lv =? 0 then match rows !! Z.to_nat (no - 1) with Some r => r att | None => None end
  else e (lv - 1) no att.

(** The strict interpretation of operators and functions, and the database. *)
Class Interp := {
  op_den : Z → list Z → bool;
  func_den : Z → list Z → option Z;
  db : Z → list row }.

Section Eval.
Context {I : Interp}.

Definition look (e : env) (v : var) : option Z := e (varlevelsup v) (varno v) (varattno v).

(** ** Terms *)

(** The values of all elements, if none is NULL. *)
Definition all_values (f : node → option Z) : list node → option (list Z) :=
  fix go (l : list node) : option (list Z) :=
    match l with
    | [] => Some []
    | x :: l => v ← f x; vs ← go l; Some (v :: vs)
    end.

Fixpoint eval_term (e : env) (n : node) : option Z :=
  match n with
  | Var v => look e v
  | Const c => if constisnull c then None else Some (constvalue c)
  | FuncExpr f (NList args) => vs ← all_values (eval_term e) args; func_den f vs
  | RelabelType _ arg => eval_term e arg
  | _ => None
  end.

Definition eval_terms (e : env) (l : list node) : option (list Z) := all_values (eval_term e) l.

Lemma eval_term_func e f args : eval_term e (FuncExpr f (NList args)) = eval_terms e args ≫= func_den f.
Proof. reflexivity. Qed.

(** The value of a term depends on the values of its variables. *)
Lemma look_parts e e' n :
  (is_term n = true → Forall (λ v, look e' v = look e v) (term_vars n) → eval_term e' n = eval_term e n) ∧
  ∀ l, n = NList l → forallb is_term l = true → Forall (λ v, look e' v = look e v) (term_vars n) →
    eval_terms e' l = eval_terms e l.
Proof.
  induction n using node_ind'; destruct_and?; (split; [|intros l' [=]; subst; try done]); try done.
  - intros _ Hv. by apply Forall_cons in Hv as [Hv _].
  - intros Ht Hv. destruct n; try done. apply bool_nonempty in Ht as [_ Ht].
    rewrite !eval_term_func. by rewrite (H0 _ eq_refl Ht Hv).
  - clear -H. induction H as [|x l Hx _ IH]; intros Ht Hv; [done|].
    cbn in Ht. apply andb_true_iff in Ht as [Htx Ht]. cbn in Hv. apply Forall_app in Hv as [Hvx Hv].
    destruct Hx as [Hx _]. cbn. rewrite (Hx Htx Hvx). fold (eval_terms e' l) (eval_terms e l). by rewrite (IH Ht Hv).
Qed.

Lemma look_terms e e' args : forallb is_term args = true →
  Forall (λ v, look e' v = look e v) (term_vars (NList args)) → eval_terms e' args = eval_terms e args.
Proof. by apply (look_parts e e' (NList args)). Qed.

(** ** Conditions *)

(** The rows of a range table entry; only base relations have rows here. *)
Definition rte_rows (n : node) : list row :=
  match n with
  | RangeTblEntry r _ => match rtekind r with RTE_RELATION => db (relid r) | _ => [] end
  | _ => []
  end.

Fixpoint product (l : list (list row)) : list (list row) :=
  match l with
  | [] => [[]]
  | rs :: l => r ← rs; rest ← product l; [r :: rest]
  end.

(** A combination of rows, one of each entry. *)
Lemma product_elem (l : list (list row)) rows : rows ∈ product l ↔ Forall2 (λ r rs, r ∈ rs) rows l.
Proof.
  revert rows. induction l as [|rs l IH]; intros rows; cbn.
  - rewrite list_elem_of_singleton. split; [by intros ->|by intros ->%Forall2_nil_inv_r].
  - rewrite list_elem_of_bind. split.
    + intros (r & (rest & Hrest & Hl)%list_elem_of_bind & Hr). apply list_elem_of_singleton in Hrest. subst rows.
      constructor; [done|]. by apply IH.
    + intros (r & rest & Hr & Hrest & ->)%Forall2_cons_inv_r. exists r. split; [|done].
      apply list_elem_of_bind. exists rest. split; [by left|]. by apply IH.
Qed.

Definition is_TT (t : tri) : bool := match t with TT => true | _ => false end.

Definition list_of (n : node) : list node := match n with NList l => l | _ => [] end.

(** ** The FROM list *)

Definition ref_of (n : node) : option Z := match n with RangeTblRef i => Some i | _ => None end.

(** The FROM list names each of the [n] entries of the range table exactly once. *)
Definition names_all (fl : list node) (n : nat) : bool :=
  match mapM ref_of fl with
  | Some refs => (length refs =? n)%nat && forallb (λ i, bool_decide (i ∈ refs)) (seqZ 1 (Z.of_nat n))
  | None => false
  end.

(** The combinations of rows of the FROM list.  The parser makes a FROM list that names
    every base relation once.  An entry that the list leaves out is not scanned, and the
    planner stops at its columns; it also stops at a reference to no entry.  Such a query
    returns no row. *)
Definition from_rows (fl rtable : node) : list (list row) :=
  if names_all (list_of fl) (length (list_of rtable)) then product (map rte_rows (list_of rtable)) else [].

Lemma from_rows_ext fl fl' rtable : list_of fl' = list_of fl → from_rows fl' rtable = from_rows fl rtable.
Proof. unfold from_rows. by intros ->. Qed.

Lemma from_rows_elem fl rtable rows :
  rows ∈ from_rows fl rtable ↔
  names_all (list_of fl) (length (list_of rtable)) = true ∧ rows ∈ product (map rte_rows (list_of rtable)).
Proof.
  unfold from_rows. destruct (names_all _ _); [naive_solver|]. split; [by intros ?%elem_of_nil|by intros [? _]].
Qed.

Lemma mapM_refs refs : mapM ref_of (map RangeTblRef refs) = Some refs.
Proof. induction refs as [|r refs IH]; [done|]. cbn. by rewrite IH. Qed.

(** The list in order names all entries, *)
Lemma names_all_seqZ n : names_all (map RangeTblRef (seqZ 1 (Z.of_nat n))) n = true.
Proof.
  unfold names_all. rewrite mapM_refs, andb_true_iff, Nat.eqb_eq, length_seqZ, Nat2Z.id. split; [done|].
  apply forallb_forall. intros i Hi%list_elem_of_In. by apply bool_decide_eq_true_2.
Qed.

(** and only a list of their number does. *)
Lemma names_all_length fl n : names_all fl n = true → length fl = n.
Proof.
  unfold names_all. destruct (mapM ref_of fl) as [refs|] eqn:E; [|done].
  rewrite andb_true_iff, Nat.eqb_eq. intros [<- _]. by apply length_mapM in E.
Qed.

(** The FROM list of a query names its range table. *)
Definition from_ok (q : node) : bool :=
  match q with
  | Query _ rtable (FromExpr fromlist _) _ => names_all (list_of fromlist) (length (list_of rtable))
  | _ => false
  end.

Fixpoint eval (n : node) (e : env) {struct n} : tri :=
  match n with
  | NULL => TT
  | OpExpr o (NList args) =>
      match eval_terms e args with Some vs => of_bool (op_den (opno o) vs) | None => UU end
  | BoolExpr AND_EXPR (NList args) _ => and3_list (map (λ x, eval x e) args)
  | BoolExpr OR_EXPR (NList args) _ => or3_list (map (λ x, eval x e) args)
  | BoolExpr NOT_EXPR (NList [x]) _ => not3 (eval x e)
  | NullTest IS_NULL arg _ => of_bool (bool_decide (eval_term e arg = None))
  | NullTest IS_NOT_NULL arg _ => of_bool (negb (bool_decide (eval_term e arg = None)))
  | SubLink EXISTS_SUBLINK _ (Query _ rtable (FromExpr fromlist quals) _) =>
      of_bool (existsb (λ rows, is_TT (eval quals (push rows e))) (from_rows fromlist rtable))
  | NList l => and3_list (map (λ x, eval x e) l)
  | _ => UU
  end.

Definition evals (l : list node) (e : env) : list tri := map (λ x, eval x e) l.

Lemma is_TT_true t : is_TT t = true ↔ t = TT.
Proof. by destruct t. Qed.

Lemma of_bool_TT b : of_bool b = TT ↔ b = true.
Proof. by destruct b. Qed.

Lemma eval_exists t q rtable fl quals tl e :
  eval (SubLink EXISTS_SUBLINK t (Query q rtable (FromExpr fl quals) tl)) e = TT ↔
  ∃ rows, rows ∈ from_rows fl rtable ∧ eval quals (push rows e) = TT.
Proof.
  cbn [eval]. rewrite of_bool_TT, existsb_exists. setoid_rewrite is_TT_true.
  setoid_rewrite <- list_elem_of_In. done.
Qed.

Lemma le3_of_bool b b' : (b = true → b' = true) → le3 (of_bool b) (of_bool b').
Proof. destruct b, b'; unfold le3; simpl; try lia; naive_solver. Qed.

(** EXISTS is monotone in its condition. *)
Lemma exists_mono t q rtable fl quals tl q' fl' quals' tl' e : list_of fl' = list_of fl →
  (∀ e, le3 (eval quals e) (eval quals' e)) →
  le3 (eval (SubLink EXISTS_SUBLINK t (Query q rtable (FromExpr fl quals) tl)) e)
      (eval (SubLink EXISTS_SUBLINK t (Query q' rtable (FromExpr fl' quals') tl')) e).
Proof.
  intros Hfl Hle. cbn [eval]. rewrite (from_rows_ext fl fl' rtable Hfl). apply le3_of_bool. rewrite !existsb_exists.
  intros (rows & Hin & HT%is_TT_true). exists rows. split; [done|].
  apply is_TT_true, TT_le3. rewrite <- HT. apply Hle.
Qed.

Lemma and3_list_mono l l' : Forall2 le3 l l' → le3 (and3_list l) (and3_list l').
Proof. induction 1; simpl; [done|by apply le3_and]. Qed.

Lemma or3_list_mono l l' : Forall2 le3 l l' → le3 (or3_list l) (or3_list l').
Proof. induction 1; simpl; [done|by apply le3_or]. Qed.
End Eval.
