(* ===== verification/SelfOpt.v ===== *)
(** self_optimize.c: constraints on a single relation are taken out of the jointree
    and pushed into the range table.

    [my_modifier_self] removes from the jointree every comparison or null test whose
    variables all belong to one relation and collects them in
    [already_constrain_rel]; [rewrite_self] turns the range table entry of each
    collected constraint into a sub-select with that constraint.  The queries are
    changed in place; the model returns the changed node.  The state of
    [rewrite_self] and of its callers is its static counter. *)

From stdpp Require Import pretty.
From S2P Require Import Prelude Nodes.

(** ** Contexts *)

Record context_optimizer_self := mkSelfCtx {
  disjunction : bool;
  equality : bool;
  add : bool;
  already_constrain_rel : node;
  varno_to_add : Z;
  varlevelsup_to_add : Z;
  varno_to_add_or : Z;
  varlevelsup_to_add_or : Z;
  varno_to_add_eq : Z;
  varlevelsup_to_add_eq : Z }.

Record temp_context_rewrite := mkRewriteCtx {
  r_varno_to_add : Z; r_varlevelsup_to_add : Z; r_to_add : bool }.

Record temp_context := mkTempCtx {
  t_varno_to_add : Z; t_varlevelsup_to_add : Z; t_constraint_to_add : node;
  t_to_add : bool; t_already_add : bool }.

Definition make_context_optimizer_self : context_optimizer_self :=
  mkSelfCtx false false false NULL (-1) (-1) (-1) (-1) (-1) (-1).

Definition make_temp_context_rewrite : temp_context_rewrite := mkRewriteCtx (-1) (-1) false.

Definition make_temp_context (constraint_to_add : node) (varno varlevelsup : Z) : temp_context :=
  mkTempCtx varno varlevelsup constraint_to_add false false.

(** Assignments to fields of the contexts. *)
Definition s_set_disjunction b c := mkSelfCtx b (equality c) (add c) (already_constrain_rel c)
  (varno_to_add c) (varlevelsup_to_add c) (varno_to_add_or c) (varlevelsup_to_add_or c)
  (varno_to_add_eq c) (varlevelsup_to_add_eq c).
Definition s_set_equality b c := mkSelfCtx (disjunction c) b (add c) (already_constrain_rel c)
  (varno_to_add c) (varlevelsup_to_add c) (varno_to_add_or c) (varlevelsup_to_add_or c)
  (varno_to_add_eq c) (varlevelsup_to_add_eq c).
Definition s_set_add b c := mkSelfCtx (disjunction c) (equality c) b (already_constrain_rel c)
  (varno_to_add c) (varlevelsup_to_add c) (varno_to_add_or c) (varlevelsup_to_add_or c)
  (varno_to_add_eq c) (varlevelsup_to_add_eq c).
Definition s_set_rel n c := mkSelfCtx (disjunction c) (equality c) (add c) n
  (varno_to_add c) (varlevelsup_to_add c) (varno_to_add_or c) (varlevelsup_to_add_or c)
  (varno_to_add_eq c) (varlevelsup_to_add_eq c).
Definition s_set_var v l c := mkSelfCtx (disjunction c) (equality c) (add c) (already_constrain_rel c)
  v l (varno_to_add_or c) (varlevelsup_to_add_or c) (varno_to_add_eq c) (varlevelsup_to_add_eq c).
Definition s_set_or v l c := mkSelfCtx (disjunction c) (equality c) (add c) (already_constrain_rel c)
  (varno_to_add c) (varlevelsup_to_add c) v l (varno_to_add_eq c) (varlevelsup_to_add_eq c).
Definition s_set_eq v l c := mkSelfCtx (disjunction c) (equality c) (add c) (already_constrain_rel c)
  (varno_to_add c) (varlevelsup_to_add c) (varno_to_add_or c) (varlevelsup_to_add_or c) v l.

Definition r_set_to_add b c := mkRewriteCtx (r_varno_to_add c) (r_varlevelsup_to_add c) b.
Definition t_set_to_add b c := mkTempCtx (t_varno_to_add c) (t_varlevelsup_to_add c)
  (t_constraint_to_add c) b (t_already_add c).
Definition t_set_already b c := mkTempCtx (t_varno_to_add c) (t_varlevelsup_to_add c)
  (t_constraint_to_add c) (t_to_add c) b.

(** ** Collecting constraints *)

Fixpoint temp_modifier_add (n : node) : M temp_context node :=
  match n with
  | NULL => ret NULL
  | Var v =>
      modify (λ c, if (varlevelsup v =? t_varlevelsup_to_add c) && (varno v =? t_varno_to_add c)
                   then t_set_to_add true c else c);;;
      ret (Var v)
  | BoolExpr boolop _ _ =>
      tmp <- expression_tree_mutator temp_modifier_add n;;
      c <- get;;
      match boolop, t_to_add c, tmp with
      | AND_EXPR, true, BoolExpr _ args _ =>
          modify (t_set_to_add false);;;
          modify (t_set_already true);;;
          l <- of_res (as_list args);;
          ret (NList (l ++ [t_constraint_to_add c]))
      | _, _, _ => ret tmp
      end
  | _ => expression_tree_mutator temp_modifier_add n
  end.

(** The loop of [add_constrain] over the constraints collected so far. *)
Fixpoint add_loop (l : list node) : M temp_context (list node) :=
  match l with
  | [] => ret []
  | t :: l =>
      c <- get;;
      if t_already_add c then r <- add_loop l;; ret (t :: r)
      else
        new <- temp_modifier_add t;;
        c <- get;;
        if t_to_add c && negb (t_already_add c) then
          modify (t_set_to_add false);;;
          modify (t_set_already true);;;
          r <- add_loop l;;
          ret (makeBoolExpr AND_EXPR (NList [new; t_constraint_to_add c]) (-1) :: r)
        else r <- add_loop l;; ret (new :: r)
  end.

Definition add_constrain (already : node) (ctx : temp_context) : res node :=
  match already with
  | NULL => Ok (NList [t_constraint_to_add ctx])
  | NList l =>
      match add_loop l ctx with
      | Err e => Err e
      | Ok (result, ctx') =>
          Ok (of_list (if t_already_add ctx' then result else result ++ [t_constraint_to_add ctx']))
      end
  | _ => Err EBadCast
  end.

(** Registers the constraint [n] for the relation of the last variable seen. *)
Definition register (n : node) : M context_optimizer_self () :=
  modify (s_set_add false);;;
  c <- get;;
  rel <- of_res (add_constrain (already_constrain_rel c)
                   (make_temp_context n (varno_to_add c) (varlevelsup_to_add c)));;
  modify (s_set_rel rel).

(** A variable: the constraint being read qualifies as long as its variables belong
    to one relation. *)
Definition modifier_var (v : var) (c : context_optimizer_self) : context_optimizer_self :=
  if disjunction c && negb (varno_to_add_or c =? -1) &&
     (negb (varno_to_add_or c =? varno v) || negb (varlevelsup_to_add_or c =? varlevelsup v))
  then s_set_add false c
  else if equality c && negb (varno_to_add_eq c =? -1) &&
     (negb (varno_to_add_eq c =? varno v) || negb (varlevelsup_to_add_eq c =? varlevelsup v))
  then s_set_add false c
  else
    let c := s_set_var (varno v) (varlevelsup v) c in
    let c := if disjunction c then s_set_or (varno v) (varlevelsup v) c else c in
    let c := if equality c then s_set_eq (varno v) (varlevelsup v) c else c in
    s_set_add true c.

Fixpoint my_modifier_self (n : node) : M context_optimizer_self node :=
  match n with
  | NULL => ret n
  | Query _ _ _ _ => ret n
  | Var v => modify (modifier_var v);;; ret n
  | BoolExpr OR_EXPR _ _ =>
      modify (s_set_disjunction true);;;
      modify (s_set_or (-1) (-1));;;
      retour <- expression_tree_mutator my_modifier_self n;;
      modify (s_set_disjunction false);;;
      modify (s_set_var (-1) (-1));;;
      c <- get;;
      if add c then register n;;; ret NULL else ret retour
  | NullTest _ _ _ =>
      retour <- expression_tree_mutator my_modifier_self n;;
      c <- get;;
      if add c && negb (disjunction c) then register n;;; ret NULL else ret retour
  | OpExpr _ _ =>
      modify (s_set_equality true);;;
      retour <- expression_tree_mutator my_modifier_self n;;
      modify (s_set_equality false);;;
      modify (s_set_eq (-1) (-1));;;
      c <- get;;
      if add c && negb (disjunction c) then register n;;; ret NULL else ret retour
  | _ => expression_tree_mutator my_modifier_self n
  end.

(** ** Rewriting the range table *)

(** Stops at the first variable. *)
Fixpoint init_rel (n : node) : M temp_context_rewrite bool :=
  match n with
  | NULL => ret false
  | Var v => modify (λ c, mkRewriteCtx (varno v) (varlevelsup v) (r_to_add c));;; ret true
  | _ => expression_tree_walker init_rel n
  end.

Definition with_varno (z : Z) (v : var) : var :=
  mkVar z (varattno v) (vartype v) (vartypmod v) (varcollid v) (varlevelsup v) (varnoold v)
    (varoattno v) (var_location v).

Fixpoint modif_rel (n : node) : M () node :=
  match n with
  | NULL => ret NULL
  | Var v => ret (Var (with_varno 1 v))
  | _ => expression_tree_mutator modif_rel n
  end.

(** [n->resno = i]: the element is read as a TargetEntry. *)
Definition set_resno (n : node) (i : Z) : res node :=
  match n with
  | TargetEntry te expr => Ok (TargetEntry (mkTe i (resname te) (resjunk te)) expr)
  | NULL => Err ENullDeref
  | _ => Err EBadCast
  end.

(** The loop that the mutators of target lists share: keeps and numbers the entries
    for which [mutate] raised the flag [flag]. *)
Definition keep_entries {S : Type} (mutate : node → M S node) (flag : S → bool) (clear : S → S)
    : Z → list node → M S (list node) :=
  fix go (i : Z) (l : list node) : M S (list node) :=
    match l with
    | [] => ret []
    | t :: l =>
        n <- mutate t;;
        c <- get;;
        if flag c then
          n <- of_res (set_resno n i);;
          modify clear;;;
          r <- go (i + 1) l;;
          ret (n :: r)
        else go i l
    end.

Fixpoint modif_targetEntry (n : node) : M temp_context_rewrite node :=
  match n with
  | NULL => ret NULL
  | Var v =>
      c <- get;;
      if negb (varno v =? r_varno_to_add c) then ret NULL
      else modify (r_set_to_add true);;; ret (Var (with_varno 1 v))
  | NList l =>
      result <- keep_entries modif_targetEntry r_to_add (r_set_to_add false) 1 l;;
      ret (of_list result)
  | _ => expression_tree_mutator modif_targetEntry n
  end.

(** The Query that [makeNode] returns, after the assignments both create functions
    make. *)
Definition new_queryinfo : queryinfo :=
  mkQueryInfo 1 true false false false false false false false false.

Definition create_from_query (rte constraint listTargetEntry : node) : node :=
  Query new_queryinfo (NList [rte]) (makeFromExpr (NList [RangeTblRef 1]) constraint) listTargetEntry.

Section Rewrite.
Context {B : Build}.

(** [sprintf(test, "a%d", i)]. *)
Definition alias_name (i : Z) : string := String.append "a" (pretty i).

(** The index that [list_nth] really uses: a negative one gives the first element in
    builds without assertions. *)
Definition set_nth (n : node) (i : Z) (x : node) : node :=
  match n with NList l => NList (<[Z.to_nat i := x]> l) | _ => n end.

(** The range table entry after the rewriting. *)
Definition to_subquery (rte : node) (i : Z) (nq : node) : res node :=
  match rte with
  | RangeTblEntry r _ =>
      match rte_eref r with
      | None => Err ENullDeref
      | Some eref =>
          Ok (RangeTblEntry (mkRte RTE_SUBQUERY (relid r) (Some (makeAlias (alias_name i) []))
                               (Some (makeAlias (alias_name i) (colnames eref)))) nq)
      end
  | NULL => Err ENullDeref
  | _ => Err EBadCast
  end.

Definition run {S A : Type} (m : M S A) (s : S) : res A :=
  match m s with Ok (a, _) => Ok a | Err e => Err e end.

(** One turn of the loop, [i] already incremented. *)
Definition rewrite_constraint (i : Z) (t rtable targetList : node) : res node :=
  match init_rel t make_temp_context_rewrite with
  | Err e => Err e
  | Ok (_, ctx) =>
      match run (modif_rel t) (), run (modif_targetEntry targetList) ctx,
            nth_node rtable (r_varno_to_add ctx - 1) with
      | Ok n_constraint, Ok l, Ok rte =>
          match to_subquery rte i (create_from_query rte n_constraint l) with
          | Ok ef => Ok (set_nth rtable (r_varno_to_add ctx - 1) ef)
          | Err e => Err e
          end
      | Err e, _, _ => Err e
      | _, Err e, _ => Err e
      | _, _, Err e => Err e
      end
  end.

Fixpoint rewrite_loop (constraint_to_add : list node) (rtable targetList : node) : M Z node :=
  match constraint_to_add with
  | [] => ret rtable
  | t :: l =>
      modify (Z.add 1);;;
      i <- get;;
      rtable <- of_res (rewrite_constraint i t rtable targetList);;
      rewrite_loop l rtable targetList
  end.

(** The result is the query, which the code changes in place. *)
Definition rewrite_self (q : node) (constraint_to_add : node) : M Z node :=
  match q with
  | Query qi rtable jointree targetList =>
      l <- of_res (as_list constraint_to_add);;
      rtable <- rewrite_loop l rtable targetList;;
      ret (Query qi rtable jointree targetList)
  | _ => fail EBadCast
  end.

Definition optimize_self_constraint (q : node) : M Z node :=
  match q with
  | Query qi rtable jointree targetList =>
      match my_modifier_self jointree make_context_optimizer_self with
      | Err e => fail e
      | Ok (j, ctx_self) =>
          rewrite_self (Query qi rtable j targetList) (already_constrain_rel ctx_self)
      end
  | _ => fail EBadCast
  end.

Fixpoint mutator_deep (n : node) : M Z node :=
  match n with
  | NULL => ret NULL
  | Query qi rtable jointree targetList =>
      j <- expression_tree_mutator mutator_deep jointree;;
      optimize_self_constraint (Query qi rtable j targetList)
  | _ => expression_tree_mutator mutator_deep n
  end.

Definition optimize_self_constraint_deep (q : node) : M Z node := mutator_deep q.
End Rewrite.
