(* ===== verification/SplitOpt.v ===== *)
(** split_optimize.c: a NOT EXISTS whose condition has disjunctions becomes a
    conjunction of NOT EXISTS without them.

    [trueSplit] works on a queue of conditions: the first condition is replaced by
    one copy per alternative of its first OR until no OR is left.  Both loops run on
    fuel here; [SplitProps] gives a bound. *)

From S2P Require Import Prelude Nodes.

Record context_split := mkSplitCtx {
  which_i_choose : Z; have_to_duplicate : bool; stop : bool }.

Definition make_context_split : context_split := mkSplitCtx 0 true false.

Definition set_stop (b : bool) (c : context_split) : context_split :=
  mkSplitCtx (which_i_choose c) (have_to_duplicate c) b.

Definition list_length_node (n : node) : res Z :=
  match n with
  | NULL => Ok 0
  | NList l => Ok (Z.of_nat (length l))
  | _ => Err EBadCast
  end.

Fixpoint have_to_split (n : node) : M () bool :=
  match n with
  | NULL => ret false
  | BoolExpr OR_EXPR _ _ => ret true
  | _ => expression_tree_walker have_to_split n
  end.

Section Split.
Context {B : Build}.

(** Chooses an alternative of the first OR that is met. *)
Definition choose_arg (or_args : node) : M context_split node :=
  modify (set_stop true);;;
  c <- get;;
  my_arg <- of_res (nth_node or_args (which_i_choose c));;
  len <- of_res (list_length_node or_args);;
  modify (λ c, if len =? which_i_choose c + 1
               then mkSplitCtx (which_i_choose c) false (stop c)
               else mkSplitCtx (which_i_choose c + 1) true (stop c));;;
  ret my_arg.

Fixpoint split_rel (n : node) : M context_split node :=
  match n with
  | NULL => ret NULL
  | BoolExpr OR_EXPR or_args _ =>
      c <- get;;
      if stop c then expression_tree_mutator split_rel n else choose_arg or_args
  | _ => expression_tree_mutator split_rel n
  end.

(** The inner do-while loop: appends to the queue. *)
Fixpoint duplicate (fuel : nat) (backup : node) (pile : list node) : M context_split (list node) :=
  match fuel with
  | O => fail EFuel
  | S fuel =>
      modify (set_stop false);;;
      new_node <- expression_tree_mutator split_rel backup;;
      c <- get;;
      let pile := pile ++ [new_node] in
      if have_to_duplicate c then duplicate fuel backup pile else ret pile
  end.

(** The outer loop. *)
Fixpoint split_loop (fuel : nat) (pile result : list node) : res (list node) :=
  match fuel with
  | O => Err EFuel
  | S fuel' =>
      match pile with
      | [] => Ok result
      | backup :: pile =>
          match have_to_split backup () with
          | Err e => Err e
          | Ok (false, _) => split_loop fuel' pile (result ++ [backup])
          | Ok (true, _) =>
              match duplicate fuel' backup pile make_context_split with
              | Err e => Err e
              | Ok (pile, _) => split_loop fuel' pile result
              end
          end
      end
  end.

Definition trueSplit (fuel : nat) (negNode : node) : res (list node) :=
  split_loop fuel [negNode] [].

(** [makeNode(SubLink)]: its type is 0, EXISTS, and it has no test expression. *)
Definition exists_of (q : node) : node := SubLink EXISTS_SUBLINK NULL q.

Definition not_exists (q : node) : node := makeBoolExpr NOT_EXPR (NList [exists_of q]) (-1).

Definition optimize_split (fuel : nat) (q : node) : res node :=
  match q with
  | Query qi rtable (FromExpr fromlist quals) targetList =>
      match trueSplit fuel quals with
      | Err e => Err e
      | Ok result =>
          let nexits := (λ t, not_exists (Query qi rtable (FromExpr fromlist t) targetList)) <$> result in
          match nexits with
          | [] => Err ENullDeref
          | [x] => Ok x
          | _ => Ok (makeBoolExpr AND_EXPR (NList nexits) (-1))
          end
      end
  | Query _ _ NULL _ => Err ENullDeref
  | _ => Err EBadCast
  end.

Fixpoint mutator_split_deep (fuel : nat) (n : node) : M () node :=
  match n with
  | NULL => ret NULL
  | BoolExpr NOT_EXPR NULL _ => fail (if use_assert then EAssert else ENullDeref)
  | BoolExpr NOT_EXPR (NList (NULL :: _)) _ => fail ENullDeref
  | BoolExpr NOT_EXPR (NList (SubLink _ _ subselect :: _)) _ =>
      match subselect with
      | Query qi rtable jointree targetList =>
          j <- mutator_split_deep fuel jointree;;
          of_res (optimize_split fuel (Query qi rtable j targetList))
      | NULL => fail ENullDeref
      | _ => fail EBadCast
      end
  | _ => expression_tree_mutator (mutator_split_deep fuel) n
  end.

Definition optimize_split_deep (fuel : nat) (q : node) : res node :=
  match q with
  | Query qi rtable jointree targetList =>
      match mutator_split_deep fuel jointree () with
      | Ok (j, _) => Ok (Query qi rtable j targetList)
      | Err e => Err e
      end
  | _ => Err EBadCast
  end.
End Split.
