(* ===== verification/ExistOpt.v ===== *)
(** exist_optimize.c: the relations of a query that are not connected to the outer
    query are moved into nested EXISTS.

    [create_connexe] merges the lists of relation numbers that share a comparison;
    it concatenates lists in place and compares them by address, so it runs on the
    heap of [PgList].  [rewrite_connexe] then moves one component at a time; the
    lists of relation numbers it reads are no longer changed, and are values here. *)

From S2P Require Import Prelude Nodes PgList SelfOpt.

(** ** Contexts *)

Record context_exists := mkExistsCtx {
  composante_connexe_sub_level : option positive;
  list_composantes_connexes : option positive;
  varno_en_cours : Z;
  var_sub : bool }.

Record temp_context_connex_rew := mkRewCtx {
  list_constraint : list node; c_list_varno : list Z; to_remove : bool }.

Record temp_context_connex_rew2 := mkRew2Ctx { c2_list_varno : list Z; to_add : bool }.

Definition make_temp_context_connex_rew (l : list Z) : temp_context_connex_rew := mkRewCtx [] l false.

Definition make_temp_context_connex_rew2 (l : list Z) : temp_context_connex_rew2 := mkRew2Ctx l false.

Definition e_set_sub_level p c := mkExistsCtx p (list_composantes_connexes c) (varno_en_cours c) (var_sub c).
Definition e_set_components p c := mkExistsCtx (composante_connexe_sub_level c) p (varno_en_cours c) (var_sub c).
Definition e_set_varno z c := mkExistsCtx (composante_connexe_sub_level c) (list_composantes_connexes c) z (var_sub c).
Definition e_set_var_sub b c := mkExistsCtx (composante_connexe_sub_level c) (list_composantes_connexes c) (varno_en_cours c) b.

Definition set_to_remove b c := mkRewCtx (list_constraint c) (c_list_varno c) b.
Definition add_constraint n c := mkRewCtx (list_constraint c ++ [n]) (c_list_varno c) (to_remove c).
Definition set_to_add b c := mkRew2Ctx (c2_list_varno c) b.

Section Exist.
Context {B : Build}.

(** ** Connected components *)

Fixpoint singletons (n : nat) (i : Z) (components : option positive) : M heap (option positive) :=
  match n with
  | O => ret components
  | S n =>
      tmp <- lappend_int None (i + 1);;
      components <- lappend components tmp;;
      singletons n (i + 1) components
  end.

Definition make_context_exists (nb_varno : Z) : M heap context_exists :=
  components <- singletons (Z.to_nat nb_varno) 0 None;;
  ret (mkExistsCtx None components (-1) false).

(** The loop that looks for a number in a list. *)
Definition contains_int (l : option positive) (varno : Z) : M heap bool :=
  r <- foreach l (λ cell (_ : ()),
         v <- lfirst_int cell;;
         ret (if v =? varno then Done true else Cont ())) ();;
  ret match r with Done b => b | Cont _ => false end.

Definition is_sub (varno : Z) (ctx : context_exists) : M heap bool :=
  contains_int (composante_connexe_sub_level ctx) varno.

Definition return_list (varno : Z) (ctx : context_exists) : M heap (option positive) :=
  r <- foreach (list_composantes_connexes ctx) (λ cell (_ : ()),
         compo <- lfirst cell;;
         b <- contains_int compo varno;;
         ret (if b : bool then Done compo else Cont ())) ();;
  match r with
  | Done compo => ret compo
  | Cont _ =>
      b <- contains_int (composante_connexe_sub_level ctx) varno;;
      ret (if b : bool then composante_connexe_sub_level ctx else None)
  end.

Definition remove_from_list (varno : Z) (ctx : context_exists) : M heap context_exists :=
  r <- foreach (R := option positive) (list_composantes_connexes ctx) (λ cell result,
         compo <- lfirst cell;;
         b <- contains_int compo varno;;
         if b : bool then ret (Cont result)
         else result <- lappend result compo;; ret (Cont result)) None;;
  ret (e_set_components (match r with Cont l => l | Done l => l end) ctx).

(** The case of a [Var] in [create_connexe]. *)
Definition connexe_var (v : var) (ctx : context_exists) : M heap context_exists :=
  if varno_en_cours ctx =? -1 then
    let ctx := e_set_varno (varno v) ctx in
    b <- (if 0 <? varlevelsup v then ret true else is_sub (varno v) ctx);;
    ret (if b : bool then e_set_var_sub true ctx else ctx)
  else
    sub <- is_sub (varno v) ctx;;
    if var_sub ctx && (sub || (0 <? varlevelsup v)) then ret ctx
    else if var_sub ctx && negb sub && (varlevelsup v =? 0) then
      b <- return_list (varno v) ctx;;
      l <- list_concat (composante_connexe_sub_level ctx) b;;
      remove_from_list (varno v) (e_set_sub_level l ctx)
    else if sub || (0 <? varlevelsup v) then
      a <- return_list (varno_en_cours ctx) ctx;;
      l <- list_concat (composante_connexe_sub_level ctx) a;;
      remove_from_list (varno_en_cours ctx) (e_set_sub_level l ctx)
    else
      a <- return_list (varno_en_cours ctx) ctx;;
      b <- return_list (varno v) ctx;;
      if bool_decide (a = b) then ret ctx
      else
        ctx <- remove_from_list (varno_en_cours ctx) ctx;;
        ctx <- remove_from_list (varno v) ctx;;
        ab <- list_concat a b;;
        l <- lappend (list_composantes_connexes ctx) ab;;
        ret (e_set_components l ctx).

Fixpoint create_connexe (n : node) : M (heap * context_exists) bool :=
  match n with
  | NULL => ret false
  | OpExpr _ _ =>
      retour <- expression_tree_walker create_connexe n;;
      modc (e_set_varno (-1));;;
      modc (e_set_var_sub false);;;
      ret retour
  | Var v =>
      c <- getc;;
      c' <- zoom (connexe_var v c);;
      modc (λ _, c');;;
      ret false
  | _ => expression_tree_walker create_connexe n
  end.

(** ** Lists of relation numbers as values *)

(** The integers of a list; the model stops if the length field and the chain
    disagree. *)
Definition read_ints (l : option positive) : M heap (list Z) :=
  r <- foreach (R := list Z) l (λ cell acc, z <- lfirst_int cell;; ret (Cont (acc ++ [z]))) [];;
  let zs := match r with Cont zs => zs | Done zs => zs end in
  len <- list_length l;;
  if len =? Z.of_nat (length zs) then ret zs else fail EUnmodelled.

Definition read_components (l : option positive) : M heap (list (list Z)) :=
  r <- foreach (R := list (list Z)) l (λ cell acc,
         p <- lfirst cell;; zs <- read_ints p;; ret (Cont (acc ++ [zs]))) [];;
  let zss := match r with Cont zss => zss | Done zss => zss end in
  len <- list_length l;;
  if len =? Z.of_nat (length zss) then ret zss else fail EUnmodelled.

Fixpoint is_in_list_from (i varno : Z) (list_varno : list Z) : Z :=
  match list_varno with
  | [] => 0
  | v :: l => if varno =? v then i else is_in_list_from (i + 1) varno l
  end.

Definition is_in_list (varno : Z) (list_varno : list Z) : Z := is_in_list_from 1 varno list_varno.

Definition deacrease (varno : Z) (list_varno : list Z) : Z :=
  varno - fold_left (λ i v, if v <? varno then i + 1 else i) list_varno 0.

(** ** Moving a component *)

Fixpoint mutator_conn (n : node) : M temp_context_connex_rew node :=
  match n with
  | NULL => ret n
  | OpExpr _ _ =>
      n <- expression_tree_mutator mutator_conn n;;
      ctx <- get;;
      if to_remove ctx then
        modify (add_constraint n);;;
        modify (set_to_remove false);;;
        ret NULL
      else ret n
  | Var v =>
      modify (λ ctx, if (varlevelsup v =? 0) && negb (is_in_list (varno v) (c_list_varno ctx) =? 0)
                     then set_to_remove true ctx else ctx);;;
      ret (Var v)
  | _ => expression_tree_mutator mutator_conn n
  end.

Fixpoint mutator_target (n : node) : M temp_context_connex_rew2 node :=
  match n with
  | NULL => ret NULL
  | Var v =>
      ctx <- get;;
      let i := is_in_list (varno v) (c2_list_varno ctx) in
      if i =? 0 then ret NULL
      else modify (set_to_add true);;; ret (Var (with_varno i v))
  | NList l =>
      result <- keep_entries mutator_target to_add (set_to_add false) 1 l;;
      ret (of_list result)
  | _ => expression_tree_mutator mutator_target n
  end.

Definition create_from_query_list (list_rte constraint listTargetEntry : node) : node :=
  Query new_queryinfo list_rte (makeFromExpr (NList [RangeTblRef 1]) constraint) listTargetEntry.

Fixpoint mutator_varquals (n : node) : M temp_context_connex_rew2 node :=
  match n with
  | NULL => ret NULL
  | Var v =>
      ctx <- get;;
      ret (Var (if varlevelsup v =? 0 then with_varno (deacrease (varno v) (c2_list_varno ctx)) v else v))
  | _ => expression_tree_mutator mutator_varquals n
  end.

Fixpoint mutator_varTarget (n : node) : M temp_context_connex_rew2 node :=
  match n with
  | NULL => ret NULL
  | Var v =>
      ctx <- get;;
      if negb (is_in_list (varno v) (c2_list_varno ctx) =? 0) then ret NULL
      else
        modify (set_to_add true);;;
        ret (Var (with_varno (deacrease (varno v) (c2_list_varno ctx)) v))
  | NList l =>
      result <- keep_entries mutator_varTarget to_add (set_to_add false) 1 l;;
      ret (of_list result)
  | _ => expression_tree_mutator mutator_varTarget n
  end.

Fixpoint substract_loop (i : Z) (input : list node) : list node :=
  match input with
  | [] => []
  | x :: input => if i <=? 1 then [x] else x :: substract_loop (i - 1) input
  end.

Definition substract (input : node) (nb : Z) : res node :=
  match input with
  | NULL => Err ENullDeref
  | NList l => Ok (of_list (substract_loop (Z.of_nat (length l) - nb) l))
  | _ => Err EBadCast
  end.

(** The range table entries of the component. *)
Fixpoint take_entries (rtable : node) (list_varno : list Z) : res (list node) :=
  match list_varno with
  | [] => Ok []
  | v :: l =>
      match nth_node rtable (v - 1), take_entries rtable l with
      | Ok x, Ok r => Ok (x :: r)
      | Err e, _ => Err e
      | _, Err e => Err e
      end
  end.

(** [list_delete_ptr] of the element at an index: the entries of a range table are
    distinct objects, so that element is the one removed. *)
Definition delete_nth (rtable : node) (i : Z) : res node :=
  match nth_node rtable i, rtable with
  | Ok _, NList l => Ok (of_list (delete (Z.to_nat i) l))
  | Ok _, _ => Err EBadCast
  | Err e, _ => Err e
  end.

Fixpoint delete_entries (i : Z) (rtable : node) (list_varno : list Z) : res node :=
  match list_varno with
  | [] => Ok rtable
  | v :: l =>
      match delete_nth rtable (v - 1 - i) with
      | Ok rtable => delete_entries (i + 1) rtable l
      | Err e => Err e
      end
  end.

(** The jointree of a query, read as a FromExpr. *)
Definition from_expr (n : node) : res (node * node) :=
  match n with
  | FromExpr fromlist quals => Ok (fromlist, quals)
  | NULL => Err ENullDeref
  | _ => Err EBadCast
  end.

Definition rewrite_connexe (q : node) (list_varno : list Z) : res node :=
  match q with
  | Query qi rtable jointree targetList =>
      run (jt <- of_res (from_expr jointree);;
           captured <- of_res (expression_tree_mutator mutator_conn jt.2
                                 (make_temp_context_connex_rew list_varno));;
           fromlist <- of_res (substract jt.1 (Z.of_nat (length list_varno)));;
           n <- mutator_target targetList;;
           lrte <- of_res (take_entries rtable list_varno);;
           let ex := SubLink EXISTS_SUBLINK NULL
                       (create_from_query_list (of_list lrte)
                          (of_list (list_constraint captured.2)) n) in
           rtable <- of_res (delete_entries 0 rtable list_varno);;
           targetList <- mutator_varTarget targetList;;
           jointree <- mutator_varquals (FromExpr fromlist captured.1);;
           jt <- of_res (from_expr jointree);;
           ret (Query qi rtable
                  (FromExpr jt.1 (makeBoolExpr AND_EXPR (NList [jt.2; ex]) (-1))) targetList))
        (make_temp_context_connex_rew2 list_varno)
  | _ => Err EBadCast
  end.

(** The while loop: each turn moves the first component and renumbers the others. *)
Fixpoint move_components (n : nat) (q : node) (components : list (list Z)) : res node :=
  match n, components with
  | S n, first :: rest =>
      match rewrite_connexe q first with
      | Ok q => move_components n q (map (map (λ v, deacrease v first)) rest)
      | Err e => Err e
      end
  | _, [] => Ok q
  | O, _ => Err EFuel
  end.

(** The components of a query's jointree, on a heap of their own. *)
Definition components_of (nb_varno : Z) (jointree : node) : res (list (list Z)) :=
  match make_context_exists nb_varno empty_heap with
  | Err e => Err e
  | Ok (ctx_e, h) =>
      match create_connexe jointree (h, ctx_e) with
      | Err e => Err e
      | Ok (_, (h, ctx_e)) => run (read_components (list_composantes_connexes ctx_e)) h
      end
  end.

(** What [optimize_exist] does after its first statement. *)
Definition move_connexe (nq : node) : res node :=
  match nq with
  | Query _ rtable jointree _ =>
      match length_field rtable with
      | Err e => Err e
      | Ok nb_varno =>
          match components_of nb_varno jointree with
          | Err e => Err e
          | Ok components => move_components (length components) nq components
          end
      end
  | _ => Err EBadCast
  end.

Definition optimize_exist (nq : node) : M Z node :=
  nq <- optimize_self_constraint nq;;
  of_res (move_connexe nq).

Fixpoint mutator_exist_deep (n : node) : M Z node :=
  match n with
  | NULL => ret NULL
  | Query qi rtable jointree targetList =>
      j <- expression_tree_mutator mutator_exist_deep jointree;;
      optimize_exist (Query qi rtable j targetList)
  | _ => expression_tree_mutator mutator_exist_deep n
  end.

(** The copy that the mutator returns is dropped; the queries inside the jointree are
    changed in place, and nothing else differs between the two. *)
Definition optimize_exist_deep (nq : node) : M Z node :=
  match nq with
  | Query qi rtable jointree targetList =>
      j <- mutator_exist_deep jointree;;
      ret (Query qi rtable j targetList)
  | _ => fail EBadCast
  end.
End Exist.
