(* ===== verification/Hook.v ===== *)
(** The post-parse-analysis hook of certain_answer_codd.c as a whole: rewriting, then
    the three optimisations, and the installation of the hook in the backend. *)

From S2P Require Import Prelude Nodes PgList TrueVar Walker Codd SelfOpt SplitOpt ExistOpt.

Section Hook.
Context {B : Build} {C : SysCache}.

(** [query->jointree->quals] is read for a log message between the passes. *)
Definition log_quals (query : node) : res () :=
  match query with
  | Query _ _ (FromExpr _ _) _ => Ok ()
  | Query _ _ NULL _ => Err ENullDeref
  | _ => Err EBadCast
  end.

(** The query is changed in place; the state is the static counter of
    [rewrite_self].  [fuel] bounds the loops of [trueSplit]. *)
Definition my_post_parse_analyse_hook (fuel : nat) (query : node) : M Z node :=
  query <- of_res (rewrite_query query);;
  query <- optimize_self_constraint_deep query;;
  of_res (log_quals query);;;
  query <- of_res (optimize_split_deep fuel query);;
  of_res (log_quals query);;;
  optimize_exist_deep query.
End Hook.

(** ** Installation *)

(** The hook variable of the backend and the static copy of the module; hooks are
    named by their address. *)
Record hook_state := mkHookState {
  post_parse_analyze_hook : option positive;
  prev_post_parse_analyze_hook : option positive }.

Definition PG_init (my_hook : positive) (s : hook_state) : hook_state :=
  mkHookState (Some my_hook) (post_parse_analyze_hook s).

Definition PG_fini (s : hook_state) : hook_state :=
  mkHookState (prev_post_parse_analyze_hook s) (prev_post_parse_analyze_hook s).
