(* ===== verification/Samples.v ===== *)
(** Concrete queries, catalog and database on which the theorems are exercised.

    Relation 10 has two columns, the first declared NOT NULL; relations 20 and 30
    have two nullable columns. *)

From S2P Require Import Prelude Nodes TrueVar Semantics SelfOpt.

Definition with_asserts : Build := true.
Definition without_asserts : Build := false.

Definition sample_catalog : SysCache := {|
  SearchSysCache_ATTNUM r a := Some (mkAtt ((r =? 10) && (a =? 1)));
  SearchSysCache_RELOID r := if (r =? 10) || (r =? 20) || (r =? 30) then Some (mkClass 2) else None |}.

(** A reference to column [att] of range table entry [no], [lv] levels up. *)
Definition col (lv no att : Z) : node := Var (mkVar no att 23 (-1) 0 lv no att 7).

Definition lit (z : Z) : node := Const (makeConst 23 (-1) 0 4 z false true).

Definition cmp (no : Z) (a b : node) : node := OpExpr (mkOp no 0 16 0 0) (NList [a; b]).

Definition all_of (l : list node) : node := BoolExpr AND_EXPR (NList l) (-1).
Definition any_of (l : list node) : node := BoolExpr OR_EXPR (NList l) (-1).
Definition no (n : node) : node := BoolExpr NOT_EXPR (NList [n]) (-1).

Definition rel (relid : Z) : node :=
  RangeTblEntry (mkRte RTE_RELATION relid None (Some (mkAlias "r" ["x"; "y"]))) NULL.

(** SELECT the first column of the first relation FROM [rels] WHERE [quals]. *)
Definition select (rels : list Z) (quals : node) : node :=
  Query new_queryinfo (NList (map rel rels))
    (FromExpr (NList (imap (λ i _, RangeTblRef (Z.of_nat i + 1)) rels)) quals)
    (NList [TargetEntry (mkTe 1 "x" false) (col 0 1 1)]).

Definition in_exists (q : node) : node := SubLink EXISTS_SUBLINK NULL q.

(** Operators 96, 98 and 416 are equalities, 518 is inequality, 521 is ">", 97 is "<",
    525 is ">=", 523 is "<=", 551 is "+". *)
Definition sample_op (no : Z) (vs : list Z) : bool :=
  match vs with
  | [a; b] =>
      if (no =? 96) || (no =? 98) || (no =? 416) then a =? b
      else if no =? 518 then negb (a =? b)
      else if no =? 521 then b <? a
      else if no =? 97 then a <? b
      else if no =? 525 then b <=? a
      else if no =? 523 then a <=? b
      else false
  | _ => false
  end.

Definition sample_db (relid : Z) : list row :=
  if relid =? 10 then [λ a, Some a; λ a, if a =? 1 then Some 5 else None]
  else if relid =? 20 then [λ a, if a =? 1 then None else Some 3]
  else [].

Definition sample_interp : Interp :=
  {| op_den := sample_op; func_den := λ _ _, None; db := sample_db |}.

Definition no_columns : env := λ _ _ _, None.
