(* ===== verification/SplitProps.v ===== *)
(** Correctness of the splitting of NOT EXISTS.

    On conditions built with AND and OR over OR-free parts, and that are not
    themselves an OR, [trueSplit] ends, returns OR-free conditions, and their
    disjunction is the given condition in three-valued logic; a condition that is an
    OR makes it loop for ever. *)

From S2P Require Import Prelude Nodes Semantics SplitOpt Samples.

(** ** Parts without OR *)

(** No list of the node is empty, and neither [have_to_split] nor [split_rel] finds
    an OR: the traversals do not enter the queries of SubLinks. *)
Definition is_list_field (n : node) : bool :=
  match n with NULL | NList _ => true | _ => false end.

Fixpoint or_free (n : node) : bool :=
  match n with
  | NULL | Var _ | Const _ | RangeTblRef _ | Query _ _ _ _ => true
  | FuncExpr _ a | OpExpr _ a => is_list_field a && or_free a
  | RelabelType _ a | NullTest _ a _ | TargetEntry _ a => or_free a
  | BoolExpr b a _ => negb (bool_decide (b = OR_EXPR)) && is_list_field a && or_free a
  | SubLink _ t s => or_free t && or_free s
  | NList l => match l with [] => false | _ => forallb or_free l end
  | _ => false
  end.

Lemma or_free_list l : or_free (NList l) = true → l ≠ [] ∧ Forall (λ x, or_free x = true) l.
Proof. destruct l as [|x l]; [done|]. intros H. split; [done|]. by apply forallb_Forall. Qed.

Section Walks.
Context {S : Type}.

(** On a node all of whose children are left alone, the generic mutator is the
    identity and the generic walker finds nothing. *)
Lemma mutate_list_id (m : node → M S node) l s :
  Forall (λ x, m x s = Ok (x, s)) l → mutate_list m l s = Ok (l, s).
Proof.
  induction 1 as [|x l Hx _ IH]; [done|]. cbn. erewrite bind_Ok by exact Hx.
  by erewrite bind_Ok by exact IH.
Qed.

Lemma walk_list_false (w : node → M S bool) l s :
  Forall (λ x, w x s = Ok (false, s)) l → walk_list w l s = Ok (false, s).
Proof. induction 1 as [|x l Hx _ IH]; [done|]. cbn. by erewrite bind_Ok by exact Hx. Qed.

Lemma walk_list_hit (w : node → M S bool) l s :
  Forall (λ x, w x s = Ok (false, s) ∨ w x s = Ok (true, s)) l →
  Exists (λ x, w x s = Ok (true, s)) l → walk_list w l s = Ok (true, s).
Proof.
  induction 1 as [|x l Hx _ IH]; intros Hex; [by apply Exists_nil in Hex|]. cbn.
  destruct Hx as [Hx|Hx]; erewrite bind_Ok by exact Hx; [|done].
  apply Exists_cons in Hex as [Hx'|Hex]; [congruence|auto].
Qed.
End Walks.

Section Split.
Context {B : Build}.

Lemma walk_args_field {S : Type} (w : node → M S bool) a s r :
  is_list_field a = true → (∀ l, a = NList l → walk_list w l s = Ok (r, s)) →
  (a = NULL → r = false) → walk_args w a s = Ok (r, s).
Proof. destruct a; try done; intros _ Hl Hn; cbn; [by rewrite Hn|by apply Hl]. Qed.

(** What the two traversals do on an OR-free node. *)
Lemma or_free_ok n :
  or_free n = true →
  have_to_split n () = Ok (false, ()) ∧ (∀ l, n = NList l → walk_list have_to_split l () = Ok (false, ())) ∧
  ∀ c, split_rel n c = Ok (n, c).
Proof.
  induction n using node_ind'; intros Hf; try done; cbn in Hf;
    rewrite ?andb_true_iff in Hf; destruct_and?; try (split_and!; intros; done).
  - destruct IHn as (_ & Hl & Hs); [done|]. split; [by apply walk_args_field|]. split; [done|].
    intros c. cbn. by erewrite bind_Ok by apply Hs.
  - destruct IHn as (_ & Hl & Hs); [done|]. split; [by apply walk_args_field|]. split; [done|].
    intros c. cbn. by erewrite bind_Ok by apply Hs.
  - destruct IHn as (_ & Hl & Hs); [done|]. destruct b; [| |].
    1, 3: split; [by apply walk_args_field|]; split; [done|]; intros c; cbn; by erewrite bind_Ok by apply Hs.
    by rewrite bool_decide_eq_true_2 in *.
  - destruct IHn as (Hw & _ & Hs); [done|]. split; [done|]. split; [done|].
    intros c. cbn. by erewrite bind_Ok by apply Hs.
  - destruct IHn as (Hw & _ & Hs); [done|]. split; [done|]. split; [done|].
    intros c. cbn. by erewrite bind_Ok by apply Hs.
  - destruct IHn1 as (Hw1 & _ & Hs1); [done|]. destruct IHn2 as (Hw2 & _ & Hs2); [done|].
    split; [cbn; by erewrite bind_Ok by apply Hw1|]. split; [done|].
    intros c. cbn. erewrite bind_Ok by apply Hs1. by erewrite bind_Ok by apply Hs2.
  - destruct IHn as (Hw & _ & Hs); [done|]. split; [done|]. split; [done|].
    intros c. cbn. by erewrite bind_Ok by apply Hs.
  - apply (or_free_list l) in Hf as [Hne Hf].
    assert (Forall (λ x, have_to_split x () = Ok (false, ()) ∧ ∀ c, split_rel x c = Ok (x, c)) l) as Hall.
    { revert H Hf. clear. induction 1 as [|x l Hx _ IH]; intros Hf; [constructor|].
      apply Forall_cons in Hf as [Hfx Hf]. constructor; [|auto]. destruct (Hx Hfx) as (? & _ & ?). done. }
    assert (walk_list have_to_split l () = Ok (false, ())) as Hw.
    { apply walk_list_false. eapply Forall_impl; [exact Hall|]. naive_solver. }
    split; [done|]. split; [by intros l' [= <-]|]. intros c. cbn.
    erewrite bind_Ok by (apply mutate_list_id; eapply Forall_impl; [exact Hall|]; naive_solver).
    by rewrite of_list_ne.
Qed.

(** ** Conditions that can be split *)

(** AND and OR over OR-free parts. *)
Fixpoint splittable (n : node) : bool :=
  match n with
  | BoolExpr AND_EXPR (NList args) _ | BoolExpr OR_EXPR (NList args) _ =>
      match args with [] => false | _ => forallb splittable args end
  | _ => or_free n
  end.

Fixpoint has_or (n : node) : bool :=
  match n with
  | BoolExpr OR_EXPR _ _ => true
  | BoolExpr AND_EXPR (NList args) _ => existsb has_or args
  | _ => false
  end.

(** The conditions that replace a condition in the queue: one per alternative of its
    first OR. *)
Definition picks_list (picks : node → list node) : list node → list (list node) :=
  fix go (l : list node) : list (list node) :=
    match l with
    | [] => []
    | x :: l => if has_or x then map (λ x', x' :: l) (picks x) else map (cons x) (go l)
    end.

Fixpoint picks (n : node) : list node :=
  match n with
  | BoolExpr OR_EXPR (NList args) _ => args
  | BoolExpr AND_EXPR (NList args) loc =>
      map (λ args', BoolExpr AND_EXPR (NList args') loc) (picks_list picks args)
  | _ => []
  end.

Fixpoint tsize (n : node) : nat :=
  match n with
  | BoolExpr AND_EXPR (NList args) _ | BoolExpr OR_EXPR (NList args) _ =>
      S (list_sum (map tsize args))
  | _ => 1
  end.

(** Induction over splittable conditions. *)
Lemma splittable_ind (P : node → Prop) :
  (∀ n, or_free n = true → has_or n = false → tsize n = 1%nat → picks n = [] → P n) →
  (∀ args loc, args ≠ [] → Forall (λ x, splittable x = true) args → Forall P args → P (BoolExpr AND_EXPR (NList args) loc)) →
  (∀ args loc, args ≠ [] → Forall (λ x, splittable x = true) args → Forall P args → P (BoolExpr OR_EXPR (NList args) loc)) →
  ∀ n, splittable n = true → P n.
Proof.
  intros Hleaf Hand Hor n.
  enough (∀ n, (splittable n = true → P n) ∧ (∀ l, n = NList l → Forall (λ x, splittable x = true → P x) l)) as Hn.
  { apply Hn. }
  clear n. induction n using node_ind'; (split; [intros Hs|intros l0 [=]; subst]).
  all: try (apply Hleaf; [exact Hs|done..]).
  - destruct IHn as [_ IHl].
    destruct b, n; try (apply Hleaf; [exact Hs|done..]).
    all: cbn in Hs; destruct elements as [|x args]; [done|].
    all: assert (Forall (λ x, splittable x = true) (x :: args)) as Hsp by (by apply forallb_Forall).
    all: assert (Forall P (x :: args)) as HP.
    1, 3: specialize (IHl _ eq_refl); revert IHl Hsp; clear; intros IHl Hsp;
      eapply Forall_impl; [apply Forall_and; split; [exact IHl|exact Hsp]|]; naive_solver.
    + by apply Hand.
    + by apply Hor.
  - eapply Forall_impl; [exact H|]. naive_solver.
Qed.

(** ** The traversals on a splittable condition *)

Lemma have_to_split_ok n : splittable n = true → have_to_split n () = Ok (has_or n, ()).
Proof.
  revert n. apply splittable_ind.
  - intros n Hf Hn _ _. rewrite Hn. by apply or_free_ok.
  - intros args loc Hne _ IH. cbn. revert IH. clear. induction 1 as [|x args Hx _ IH]; [done|].
    cbn. erewrite bind_Ok by exact Hx. by destruct (has_or x).
  - done.
Qed.

Lemma splittable_or_free n : splittable n = true → has_or n = false → or_free n = true.
Proof.
  revert n. apply (splittable_ind (λ n, has_or n = false → or_free n = true)).
  - done.
  - intros args loc Hne _ IH Hn. cbn in *. destruct args as [|x args]; [done|].
    apply forallb_Forall. apply Forall_forall. rewrite Forall_forall in IH. intros y Hy. apply IH; [done|].
    destruct (has_or y) eqn:E; [|done]. rewrite <- Hn. symmetry. apply existsb_exists.
    exists y. by rewrite <- list_elem_of_In.
  - done.
Qed.

Lemma mutate_args_id (c : context_split) args b loc :
  args ≠ [] → Forall (λ x, split_rel x c = Ok (x, c)) args →
  expression_tree_mutator split_rel (BoolExpr b (NList args) loc) c = Ok (BoolExpr b (NList args) loc, c).
Proof.
  intros Hne IH. cbn. rewrite bind_assoc. erewrite bind_Ok by by apply mutate_list_id.
  unfold ret. cbn. by rewrite of_list_ne.
Qed.

Lemma split_rel_stop c n : stop c = true → splittable n = true → split_rel n c = Ok (n, c).
Proof.
  intros Hc. revert n. apply (splittable_ind (λ n, split_rel n c = Ok (n, c))).
  - intros n Hf _ _ _. by apply or_free_ok.
  - intros args loc Hne _ IH. by apply mutate_args_id.
  - intros args loc Hne _ IH. cbn [split_rel]. unfold bind, get. rewrite Hc. by apply mutate_args_id.
Qed.

Definition next_choice (len : nat) (k : nat) : context_split :=
  if (S k =? len)%nat then mkSplitCtx (Z.of_nat k) false true else mkSplitCtx (Z.of_nat k + 1) true true.

Lemma choose_arg_ok args k b x :
  args !! k = Some x →
  choose_arg (NList args) (mkSplitCtx (Z.of_nat k) b false) = Ok (x, next_choice (length args) k).
Proof.
  intros Hx. unfold choose_arg. erewrite bind_Ok by reflexivity. erewrite bind_Ok by reflexivity. cbn.
  assert ((Z.of_nat k <? 0) = false) as E by (apply Z.ltb_ge; lia). rewrite E, Nat2Z.id, Hx.
  unfold next_choice, bind, modify, ret, of_res. cbn -[Nat.eqb Z.eqb Z.add].
  destruct (Nat.eqb_spec (S k) (length args)), (Z.eqb_spec (Z.of_nat (length args)) (Z.of_nat k + 1));
    (done || (exfalso; lia)).
Qed.

(** The traversal replaces the first OR by the alternative it is asked for. *)
Lemma split_rel_pick n : splittable n = true → ∀ k b x, picks n !! k = Some x →
  split_rel n (mkSplitCtx (Z.of_nat k) b false) = Ok (x, next_choice (length (picks n)) k).
Proof.
  revert n. apply (splittable_ind (λ n, ∀ k b x, picks n !! k = Some x →
    split_rel n (mkSplitCtx (Z.of_nat k) b false) = Ok (x, next_choice (length (picks n)) k))).
  - intros n _ _ _ Hp k b x. by rewrite Hp.
  - intros args loc Hne Hsp IH k b x Hx. cbn [picks] in *. rewrite length_map.
    apply list_lookup_fmap_Some in Hx as (args' & -> & Hx).
    enough (mutate_list split_rel args (mkSplitCtx (Z.of_nat k) b false) =
              Ok (args', next_choice (length (picks_list picks args)) k) ∧ args' ≠ []) as [E Hne'].
    { cbn. rewrite bind_assoc. erewrite bind_Ok by exact E. unfold ret. cbn. by rewrite of_list_ne. }
    clear Hne. revert args' Hx. induction args as [|y args IHl]; intros args' Hx; [done|].
    apply Forall_cons in IH as [Hy IH]. apply Forall_cons in Hsp as [Hspy Hsp]. cbn in Hx |- *.
    destruct (has_or y) eqn:Ho.
    + apply list_lookup_fmap_Some in Hx as (y' & -> & Hx). rewrite length_map.
      erewrite bind_Ok by by apply Hy. erewrite bind_Ok; [done|]. apply mutate_list_id.
      eapply Forall_impl; [exact Hsp|]. intros z Hz. apply split_rel_stop; [|done].
      unfold next_choice. by destruct (_ =? _)%nat.
    + apply list_lookup_fmap_Some in Hx as (l & -> & Hx). rewrite length_map.
      erewrite bind_Ok by (apply or_free_ok; by apply splittable_or_free).
      destruct (IHl Hsp IH _ Hx) as [E _]. by erewrite bind_Ok by exact E.
  - intros args loc Hne _ _ k b x Hx. cbn in Hx |- *. by apply choose_arg_ok.
Qed.

Definition is_or (n : node) : bool := match n with BoolExpr OR_EXPR _ _ => true | _ => false end.

Lemma picks_ne n : splittable n = true → has_or n = true → picks n ≠ [].
Proof.
  revert n. apply (splittable_ind (λ n, has_or n = true → picks n ≠ [])).
  - intros n _ -> _ _. done.
  - intros args loc _ _ IH Hn. cbn [picks has_or] in *. induction args as [|y args IHl]; [done|].
    apply Forall_cons in IH as [Hy IH]. cbn in *. destruct (has_or y).
    + specialize (Hy eq_refl). by destruct (picks y).
    + specialize (IHl IH Hn). by destruct (picks_list picks args).
  - intros args loc Hne _ _ _. done.
Qed.

Lemma picks_list_ne l :
  Forall (λ x, splittable x = true) l → existsb has_or l = true → picks_list picks l ≠ [].
Proof.
  induction 1 as [|y l Hy _ IH]; cbn; [done|]. intros Hn. destruct (has_or y) eqn:Ho.
  - pose proof (picks_ne y Hy Ho). by destruct (picks y).
  - specialize (IH Hn). by destruct (picks_list picks l).
Qed.

(** The do-while loop appends all the alternatives. *)
Lemma duplicate_ok n pile : splittable n = true → has_or n = true → is_or n = false →
  ∀ fuel k b, (k < length (picks n))%nat → (length (picks n) - k ≤ fuel)%nat →
  ∃ c', duplicate fuel n pile (mkSplitCtx (Z.of_nat k) b b) = Ok (pile ++ drop k (picks n), c').
Proof.
  intros Hs Ho Ht fuel. revert pile. induction fuel as [|fuel IH]; intros pile k b Hk Hf; [lia|].
  destruct (lookup_lt_is_Some_2 (picks n) k Hk) as [x Hx].
  assert (expression_tree_mutator split_rel n (mkSplitCtx (Z.of_nat k) b false) =
            Ok (x, next_choice (length (picks n)) k)) as E.
  { rewrite <- (split_rel_pick n Hs k b x Hx). destruct n as [| | | | |[]| | | | | | | | | | |]; done. }
  cbn [duplicate]. erewrite bind_Ok by reflexivity. cbn [set_stop which_i_choose have_to_duplicate].
  erewrite bind_Ok by exact E. erewrite bind_Ok by reflexivity. rewrite (drop_S _ _ _ Hx).
  unfold next_choice. destruct (Nat.eqb_spec (S k) (length (picks n))) as [He|He]; cbn [have_to_duplicate].
  - rewrite drop_ge by lia. by eexists.
  - destruct (IH (pile ++ [x]) (S k) true) as [c' Hc']; [lia|lia|].
    exists c'. rewrite <- (app_assoc _ [x]) in Hc'. cbn in Hc'. rewrite <- Hc'. do 2 f_equal. lia.
Qed.

(** ** Sizes *)

Lemma tsize_pos n : (1 ≤ tsize n)%nat.
Proof. destruct n as [| | | | |[] []| | | | | | | | | | |]; simpl; lia. Qed.

Lemma sum_cons x l : list_sum (map tsize (x :: l)) = (tsize x + list_sum (map tsize l))%nat.
Proof. done. Qed.

Lemma list_sum_ge_length l : (length l ≤ list_sum (map tsize l))%nat.
Proof. induction l as [|x l IH]; simpl; [lia|]. pose proof (tsize_pos x). lia. Qed.

Lemma list_sum_elem x l : x ∈ l → (tsize x + length l ≤ S (list_sum (map tsize l)))%nat.
Proof.
  induction 1 as [x l|x y l _ IH]; simpl.
  - pose proof (list_sum_ge_length l). lia.
  - pose proof (tsize_pos y). lia.
Qed.

(** A replacement is smaller by at least the number of replacements. *)
Lemma picks_size n : splittable n = true → ∀ x, x ∈ picks n → (tsize x + length (picks n) ≤ tsize n)%nat.
Proof.
  revert n. apply (splittable_ind (λ n, ∀ x, x ∈ picks n → (tsize x + length (picks n) ≤ tsize n)%nat)).
  - intros n _ _ _ -> x ?%elem_of_nil. done.
  - intros args loc _ _ IH x Hx. cbn [picks tsize] in *. rewrite length_map.
    apply list_elem_of_fmap in Hx as (l & -> & Hl). cbn [tsize].
    enough (list_sum (map tsize l) + length (picks_list picks args) ≤ list_sum (map tsize args))%nat by lia.
    revert l Hl. induction args as [|y args IHl]; intros l Hl; [by apply elem_of_nil in Hl|].
    apply Forall_cons in IH as [Hy IH]. cbn [picks_list] in Hl |- *. destruct (has_or y).
    + apply list_elem_of_fmap in Hl as (y' & -> & Hl). rewrite length_map, !sum_cons. specialize (Hy _ Hl). lia.
    + apply list_elem_of_fmap in Hl as (l' & -> & Hl). rewrite length_map, !sum_cons. specialize (IHl IH _ Hl). lia.
  - intros args loc _ _ _ x Hx. cbn in *. pose proof (list_sum_elem _ _ Hx). lia.
Qed.

Lemma picks_splittable n : splittable n = true →
  Forall (λ x, splittable x = true ∧ (is_or n = false → is_or x = false)) (picks n).
Proof.
  revert n. apply (splittable_ind (λ n, Forall (λ x, splittable x = true ∧ (is_or n = false → is_or x = false)) (picks n))).
  - intros n _ _ _ ->. constructor.
  - intros args loc _ Hsp IH. cbn [picks is_or]. apply Forall_fmap.
    enough (Forall (λ l, l ≠ [] ∧ Forall (λ x, splittable x = true) l) (picks_list picks args)) as H.
    { eapply Forall_impl; [exact H|]. intros l [Hne Hl]. split; [|done]. cbn.
      destruct l; [done|]. by apply forallb_Forall. }
    induction args as [|y args IHl]; [constructor|].
    apply Forall_cons in IH as [Hy IH]. apply Forall_cons in Hsp as [Hspy Hsp]. cbn. destruct (has_or y).
    + apply Forall_fmap. eapply Forall_impl; [exact Hy|]. intros z [Hz _]. split; [done|]. by constructor.
    + apply Forall_fmap. eapply Forall_impl; [exact (IHl Hsp IH)|]. intros l [_ Hl]. split; [done|]. by constructor.
  - intros args loc _ Hsp _. cbn. eapply Forall_impl; [exact Hsp|]. done.
Qed.

(** ** Meaning *)

Context {I : Interp}.

Lemma or3_list_and_r l t : l ≠ [] → or3_list (map (λ x, and3 x t) l) = and3 (or3_list l) t.
Proof.
  intros Hne. induction l as [|x l IH]; [done|]. destruct l as [|y l].
  - simpl. by destruct x, t.
  - cbn [map or3_list foldr] in *. rewrite and3_or3_r, <- IH by done. done.
Qed.

Lemma or3_list_and_l l t : l ≠ [] → or3_list (map (and3 t) l) = and3 t (or3_list l).
Proof.
  intros Hne. induction l as [|x l IH]; [done|]. destruct l as [|y l].
  - simpl. by destruct x, t.
  - cbn [map or3_list foldr] in *. rewrite and3_or3_l, <- IH by done. done.
Qed.

Lemma evals_cons x l e : and3_list (evals (x :: l) e) = and3 (eval x e) (and3_list (evals l e)).
Proof. done. Qed.

(** A condition is the disjunction of its replacements, in three-valued logic. *)
Lemma picks_eval n e : splittable n = true → has_or n = true →
  eval n e = or3_list (evals (picks n) e).
Proof.
  revert n. apply (splittable_ind (λ n, has_or n = true → eval n e = or3_list (evals (picks n) e))).
  - intros n _ -> _ _. done.
  - intros args loc _ Hsp IH Hn. cbn [picks eval]. unfold evals. rewrite map_map. cbn [eval].
    change (and3_list (evals args e) = or3_list (map (λ l, and3_list (evals l e)) (picks_list picks args))).
    cbn [has_or] in Hn. induction args as [|y args IHl]; [done|].
    apply Forall_cons in IH as [Hy IH]. apply Forall_cons in Hsp as [Hspy Hsp].
    cbn [picks_list]. rewrite evals_cons. cbn [existsb] in Hn. destruct (has_or y) eqn:Ho.
    + rewrite map_map, (Hy eq_refl), <- or3_list_and_r.
      * unfold evals. by rewrite map_map.
      * pose proof (picks_ne y Hspy Ho). unfold evals. by destruct (picks y).
    + rewrite map_map, (IHl Hsp IH Hn), <- or3_list_and_l; [by rewrite map_map|].
      pose proof (picks_list_ne args Hsp Hn). by destruct (picks_list picks args).
  - done.
Qed.

(** ** The loop *)

Definition weight (l : list node) : nat := list_sum (map (λ n, 2 ^ tsize n)%nat l).

Lemma weight_app l l' : weight (l ++ l') = (weight l + weight l')%nat.
Proof. unfold weight. by rewrite map_app, list_sum_app. Qed.

Lemma weight_cons x l : weight (x :: l) = (2 ^ tsize x + weight l)%nat.
Proof. done. Qed.

Lemma weight_bound l k : (∀ x, x ∈ l → (tsize x ≤ k)%nat) → (weight l ≤ length l * 2 ^ k)%nat.
Proof.
  induction l as [|x l IH]; intros Hl; [done|]. rewrite weight_cons. cbn [length].
  assert (2 ^ tsize x ≤ 2 ^ k)%nat by (apply Nat.pow_le_mono_r; [lia|]; apply Hl; constructor).
  assert (weight l ≤ length l * 2 ^ k)%nat by (apply IH; intros y Hy; apply Hl; by constructor). lia.
Qed.

Lemma picks_weight n : splittable n = true → has_or n = true → (weight (picks n) < 2 ^ tsize n)%nat.
Proof.
  intros Hs Ho. pose proof (picks_ne n Hs Ho) as Hne. set (m := length (picks n)).
  assert (1 ≤ m)%nat as Hm by (subst m; destruct (picks n); [done|simpl; lia]).
  assert (∀ x, x ∈ picks n → (tsize x + m ≤ tsize n)%nat) as Hsz by (intros; by apply picks_size).
  assert (m ≤ tsize n)%nat as Hmn.
  { destruct (picks n) as [|x l]; [done|]. specialize (Hsz x). lapply Hsz; [lia|constructor]. }
  assert (weight (picks n) ≤ m * 2 ^ (tsize n - m))%nat as Hw.
  { apply weight_bound. intros x Hx. specialize (Hsz x Hx). lia. }
  assert (2 ^ tsize n = 2 ^ m * 2 ^ (tsize n - m))%nat as Hp by (rewrite <- Nat.pow_add_r; f_equal; lia).
  pose proof (Nat.pow_gt_lin_r 2 m). pose proof (Nat.pow_nonzero 2 (tsize n - m)). nia.
Qed.

Lemma or3_comm a b : or3 a b = or3 b a.
Proof. by destruct a, b. Qed.

(** A condition that may wait in the queue. *)
Definition queued (n : node) : Prop := splittable n = true ∧ is_or n = false.

Lemma split_loop_ok fuel : ∀ pile result,
  Forall queued pile → (weight pile < fuel)%nat →
  ∃ rs, split_loop fuel pile result = Ok (result ++ rs) ∧
    Forall (λ r, or_free r = true) rs ∧ (pile ≠ [] → rs ≠ []) ∧
    ∀ e, or3_list (evals rs e) = or3_list (evals pile e).
Proof.
  induction fuel as [|fuel IH]; intros pile result Hq Hw; [lia|].
  destruct pile as [|n pile]; cbn [split_loop]; [exists []; by rewrite app_nil_r|].
  apply Forall_cons in Hq as [[Hs Ht] Hq]. rewrite have_to_split_ok by done.
  rewrite weight_cons in Hw. destruct (has_or n) eqn:Ho.
  - assert (length (picks n) ≤ fuel)%nat as Hlen.
    { pose proof (picks_ne n Hs Ho). destruct (picks n) as [|x l] eqn:E; [done|].
      pose proof (picks_size n Hs x) as H1. rewrite E in H1. lapply H1; [|constructor].
      pose proof (Nat.pow_gt_lin_r 2 (tsize n)). lia. }
    destruct (duplicate_ok n pile Hs Ho Ht fuel 0 true) as [c' Hc'].
    { pose proof (picks_ne n Hs Ho). destruct (picks n); [done|simpl; lia]. }
    { lia. }
    assert (duplicate fuel n pile make_context_split = duplicate fuel n pile (mkSplitCtx 0 true true)) as ->.
    { destruct fuel; [|done]. done. }
    change (mkSplitCtx 0 true true) with (mkSplitCtx (Z.of_nat 0) true true).
    rewrite Hc'. cbn [drop].
    destruct (IH (pile ++ picks n) result) as (rs & E & Hf & Hne & Hev).
    + apply Forall_app. split; [done|]. eapply Forall_impl; [by apply picks_splittable|].
      intros x [? H]. split; [done|]. by apply H.
    + pose proof (picks_weight n Hs Ho). rewrite weight_app. lia.
    + exists rs. split; [done|]. split; [done|]. split.
      { intros _. apply Hne. pose proof (picks_ne n Hs Ho). by destruct (picks n), pile. }
      intros e. rewrite Hev. unfold evals in *.
      rewrite map_app, or3_list_app, or3_comm. cbn [map or3_list foldr]. f_equal.
      symmetry. by apply picks_eval.
  - destruct (IH pile (result ++ [n])) as (rs & E & Hf & _ & Hev); [done| |].
    { pose proof (Nat.pow_nonzero 2 (tsize n)). lia. }
    exists (n :: rs). rewrite <- app_assoc in E. split; [done|]. split.
    + constructor; [by apply splittable_or_free|done].
    + split; [done|]. intros e. cbn. f_equal. apply Hev.
Qed.

Lemma or3_list_one t : or3_list [t] = t.
Proof. by destruct t. Qed.
End Split.

(** ** NOT EXISTS *)

Section NotExists.
Context {B : Build} {I : Interp}.

Lemma eval_not_exists q rtable fl quals tl e :
  eval (not_exists (Query q rtable (FromExpr fl quals) tl)) e =
  of_bool (negb (existsb (λ rows, is_TT (eval quals (push rows e))) (from_rows fl rtable))).
Proof. cbn. by destruct (existsb _ _). Qed.

Lemma is_TT_or3_list l : is_TT (or3_list l) = existsb is_TT l.
Proof. induction l as [|t l IH]; cbn; [done|]. rewrite <- IH. fold (or3_list l). by destruct t, (or3_list l). Qed.

Lemma existsb_ext {A} (f g : A → bool) l : (∀ x, f x = g x) → existsb f l = existsb g l.
Proof. intros H. induction l as [|x l IH]; cbn; [done|]. by rewrite H, IH. Qed.

Lemma existsb_swap {A C} (f : A → C → bool) l l' :
  existsb (λ x, existsb (f x) l') l = existsb (λ y, existsb (λ x, f x y) l) l'.
Proof.
  apply Bool.eq_true_iff_eq. rewrite !existsb_exists. split.
  - intros (x & Hx & (y & Hy & H)%existsb_exists). exists y. split; [done|]. apply existsb_exists. eauto.
  - intros (y & Hy & (x & Hx & H)%existsb_exists). exists x. split; [done|]. apply existsb_exists. eauto.
Qed.

(** One NOT EXISTS per disjunct. *)
Lemma not_exists_split q rtable fl quals tl rs e :
  (∀ e, or3_list (evals rs e) = eval quals e) →
  and3_list (evals ((λ t, not_exists (Query q rtable (FromExpr fl t) tl)) <$> rs) e) =
  eval (not_exists (Query q rtable (FromExpr fl quals) tl)) e.
Proof.
  intros Hev. rewrite eval_not_exists.
  assert (∀ rows, is_TT (eval quals (push rows e)) = existsb (λ t, is_TT (eval t (push rows e))) rs) as Hq.
  { intros rows. rewrite <- Hev, is_TT_or3_list. unfold evals. clear. by induction rs as [|r rs IH]; cbn; [|rewrite IH]. }
  set (D := from_rows _ _). erewrite (existsb_ext _ _ D) by exact Hq. rewrite existsb_swap.
  unfold evals. rewrite <- list_fmap_compose. clear Hev Hq.
  induction rs as [|r rs IH]; [done|]. rewrite fmap_cons. cbn [and3_list foldr].
  fold (and3_list (((λ x, eval x e) ∘ (λ t, not_exists (Query q rtable (FromExpr fl t) tl))) <$> rs)).
  rewrite IH. cbn [existsb compose]. rewrite eval_not_exists. subst D.
  by destruct (existsb _ (from_rows _ _)), (existsb _ rs).
Qed.

(** ** A top-level OR *)

Lemma split_rel_id_list c l : Forall (λ x, or_free x = true) l → Forall (λ x, split_rel x c = Ok (x, c)) l.
Proof. intros Hl. eapply Forall_impl; [exact Hl|]. intros x Hx. by apply or_free_ok. Qed.

Lemma duplicate_diverges args loc fuel : ∀ pile c,
  args ≠ [] → Forall (λ x, or_free x = true) args → have_to_duplicate c = true →
  duplicate fuel (BoolExpr OR_EXPR (NList args) loc) pile c = Err EFuel.
Proof.
  induction fuel as [|fuel IH]; intros pile c Hne Hf Hd; [done|]. cbn [duplicate].
  erewrite bind_Ok by reflexivity. erewrite bind_Ok.
  2: { apply mutate_args_id; [done|]. by apply split_rel_id_list. }
  erewrite bind_Ok by reflexivity. cbn [set_stop have_to_duplicate]. rewrite Hd. by apply IH.
Qed.
End NotExists.

(** ** Properties *)

Section Props.
Context {B : Build} {I : Interp}.

(** C11: [trueSplit] ends on every condition built with AND and OR over OR-free parts
    that is not itself an OR, within 2^size turns of its loops; the conditions it
    returns contain no OR and their disjunction has the same truth value (true,
    false or unknown) as the given condition in every environment. *)
Theorem trueSplit_dnf (n : node) (fuel : nat) :
  splittable n = true → is_or n = false → (2 ^ tsize n < fuel)%nat →
  ∃ rs, trueSplit fuel n = Ok rs ∧ Forall (λ r, or_free r = true) rs ∧
    ∀ e, or3_list (evals rs e) = eval n e.
Proof.
  intros Hs Ht Hf. destruct (split_loop_ok fuel [n] []) as (rs & E & Hfree & _ & Hev).
  - by repeat constructor.
  - rewrite weight_cons. cbn. lia.
  - exists rs. split; [done|]. split; [done|]. intros e. rewrite Hev. apply or3_list_one.
Qed.

(** C10: optimising the sub-query of a NOT EXISTS whose condition is built with AND and
    OR over OR-free parts (and is not itself an OR) returns a condition with the truth
    value of that NOT EXISTS in every environment and database. *)
Theorem optimize_split_equiv q rtable fl quals tl fuel :
  splittable quals = true → is_or quals = false → (2 ^ tsize quals < fuel)%nat →
  ∃ n', optimize_split fuel (Query q rtable (FromExpr fl quals) tl) = Ok n' ∧
    ∀ e, eval n' e = eval (not_exists (Query q rtable (FromExpr fl quals) tl)) e.
Proof.
  intros Hs Ht Hf. destruct (split_loop_ok fuel [quals] []) as (rs & E & _ & Hne & Hev).
  { by repeat constructor. }
  { rewrite weight_cons. cbn. lia. }
  assert (∀ e, or3_list (evals rs e) = eval quals e) as Hev' by (intros e; rewrite Hev; apply or3_list_one).
  unfold optimize_split, trueSplit. rewrite E. cbn [app].
  pose proof (not_exists_split q rtable fl quals tl rs) as Hsplit.
  destruct rs as [|r [|r' rs]].
  - by destruct Hne.
  - eexists. split; [done|]. intros e. rewrite <- Hsplit by done. cbn. by destruct (existsb _ _).
  - eexists. split; [done|]. intros e. rewrite <- Hsplit by done. done.
Qed.

Lemma trueSplit_or_loops args loc fuel :
  args ≠ [] → Forall (λ x, or_free x = true) args →
  trueSplit fuel (BoolExpr OR_EXPR (NList args) loc) = Err EFuel.
Proof.
  intros Hne Hf. unfold trueSplit. destruct fuel as [|fuel]; [done|]. cbn [split_loop].
  change (have_to_split (BoolExpr OR_EXPR (NList args) loc) ()) with (Ok (true, ())).
  cbv beta iota. by rewrite duplicate_diverges.
Qed.

(** C37: on a condition that is itself an OR of OR-free parts, [trueSplit] runs out of
    any fuel: the code loops for ever, growing its queue. *)
Theorem trueSplit_or_diverges args loc fuel :
  args ≠ [] → Forall (λ x, or_free x = true) args →
  trueSplit fuel (BoolExpr OR_EXPR (NList args) loc) = Err EFuel.
Proof. apply trueSplit_or_loops. Qed.
End Props.

(** x = 1 AND (y IS NULL OR y = z) AND (z > 2 OR (x = y AND NOT EXISTS ...)) *)
Definition sample_cond : node :=
  all_of [cmp 98 (col 0 1 1) (lit 1);
          any_of [NullTest IS_NULL (col 0 1 2) (-1); cmp 98 (col 0 1 2) (col 1 1 1)];
          any_of [cmp 521 (col 1 1 1) (lit 2);
                  all_of [cmp 98 (col 0 1 1) (col 0 1 2); no (in_exists (select [30] NULL))]]].

Lemma trueSplit_dnf_witness :
  splittable sample_cond = true ∧ is_or sample_cond = false ∧ (2 ^ tsize sample_cond < 1100)%nat ∧
  ∃ rs, trueSplit (B := with_asserts) 1100 sample_cond = Ok rs ∧ Forall (λ r, or_free r = true) rs ∧
    ∀ e, or3_list (evals (I := sample_interp) rs e) = eval (I := sample_interp) sample_cond e.
Proof.
  split; [reflexivity|]. split; [reflexivity|]. split; [apply Nat.ltb_lt; vm_compute; reflexivity|].
  apply (trueSplit_dnf (B := with_asserts) (I := sample_interp) sample_cond 1100);
    [reflexivity|reflexivity|apply Nat.ltb_lt; vm_compute; reflexivity].
Defined.

Lemma optimize_split_equiv_witness :
  ∃ n', optimize_split (B := without_asserts) 1100 (select [20] sample_cond) = Ok n' ∧
    ∀ e, eval (I := sample_interp) n' e = eval (I := sample_interp) (not_exists (select [20] sample_cond)) e.
Proof.
  apply (optimize_split_equiv (B := without_asserts) (I := sample_interp));
    [reflexivity|reflexivity|apply Nat.ltb_lt; vm_compute; reflexivity].
Defined.

Lemma trueSplit_or_diverges_witness :
  trueSplit (B := without_asserts) 1000
    (BoolExpr OR_EXPR (NList [NullTest IS_NULL (col 0 1 1) (-1); cmp 98 (col 0 1 1) (col 1 1 1)]) (-1)) = Err EFuel.
Proof.
  apply (trueSplit_or_diverges (B := without_asserts)); [done|]. by repeat constructor.
Defined.

(** an OR below a NOT is split as if it were above it: from a condition
    "x AND NOT (y OR z)" [trueSplit] makes "x AND NOT y" and "x AND NOT z", and their
    disjunction is true where the condition is false. *)
Theorem trueSplit_or_under_not :
  let c := all_of [cmp 98 (lit 1) (lit 1); no (any_of [cmp 98 (lit 1) (lit 1); cmp 98 (lit 1) (lit 2)])] in
  ∃ rs, trueSplit (B := without_asserts) 100 c = Ok rs ∧
    eval (I := sample_interp) c no_columns = FF ∧
    or3_list (evals (I := sample_interp) rs no_columns) = TT.
Proof. eexists. split; [vm_compute; reflexivity|]. split; vm_compute; reflexivity. Qed.

(** The optimisation of NOT sub-queries does not look at the kind of the SubLink:
    "NOT (x IN (SELECT ...))", an ANY SubLink with a test expression, becomes
    "NOT EXISTS (SELECT ...)" without the test. *)
Theorem mutator_split_deep_drops_test (x : node) :
  mutator_split_deep (B := with_asserts) 3 (no (SubLink ANY_SUBLINK x (select [20] NULL))) () =
  Ok (not_exists (select [20] NULL), ()).
Proof. reflexivity. Qed.
