(* ===== verification/Mutators.v ===== *)
(** What holds of the mutators of both hooks, on all conditions.

    A mutator that restores the polarity on variables and operators ([KeepsOps]) does so
    everywhere; one that leaves comparisons outside negations no truer, and comparisons
    under a negation no less true ([CarefulOps]), does so for whole conditions.  Then the
    rewriting only removes answers. *)

From S2P Require Import Prelude Nodes Terms PgList TrueVar Walker Codd HookClass Semantics SelfOpt SplitProps.

(** ** The polarity is restored *)

Section Keeps.
Context {B : Build} {C : SysCache}.

Definition keeps {A : Type} (m : M (heap * context_modifier) A) : Prop :=
  ∀ s a s', m s = Ok (a, s') → m_positive s'.2 = m_positive s.2.

Lemma keeps_ret {A} (a : A) : keeps (ret a).
Proof. by intros s a' s' [= <- <-]. Qed.

Lemma keeps_bind {A D} (m : M (heap * context_modifier) A) (k : A → M _ D) :
  keeps m → (∀ a, keeps (k a)) → keeps (bind m k).
Proof. intros Hm Hk s d s' (a & s1 & H1 & H2)%bind_inv. by rewrite (Hk _ _ _ _ H2), (Hm _ _ _ H1). Qed.

Lemma keeps_zoom {A} (m : M heap A) : keeps (zoom m).
Proof. intros [h c] a s'. unfold zoom. by destruct (m h) as [[]|]; intros [= <- <-]. Qed.

Lemma keeps_getc : keeps getc.
Proof. by intros [h c] a s' [= <- <-]. Qed.

Lemma keeps_modc f : (∀ c, m_positive (f c) = m_positive c) → keeps (modc f).
Proof. intros Hf [h c] a s' [= <- <-]. apply Hf. Qed.

Lemma keeps_fail {A} e : keeps (A := A) (fail e).
Proof. done. Qed.

Hint Resolve keeps_ret keeps_zoom keeps_getc keeps_fail : pg.

Ltac keeps :=
  repeat first
    [ apply keeps_bind; [|intros ?]
    | apply keeps_modc; intros []; done
    | solve [auto with pg]
    | case_match ].

Lemma keeps_and_or m : keeps m → keeps (mutate_and_or m).
Proof. intros Hm. unfold mutate_and_or. keeps. Qed.

Lemma keeps_not m : keeps m → keeps (mutate_not m).
Proof.
  intros Hm [h c] a s' H. unfold mutate_not in H. mstep H. destruct s as [h1 c1].
  injection E as <- <- <-. mstep H. apply Hm in E. mstep H. destruct s as [h2 c2], s0 as [h3 c3].
  injection E0 as <- <- <-. injection H as <- <-. simpl in *. rewrite E. apply negb_involutive.
Qed.

Lemma keeps_mutate_list (m : node → M (heap * context_modifier) node) l :
  Forall (λ x, keeps (m x)) l → keeps (mutate_list m l).
Proof. induction 1 as [|x l Hx _ IH]; cbn; keeps. Qed.

Lemma keeps_query m : keeps m → keeps (mutate_query m).
Proof. intros Hm. unfold mutate_query. keeps. Qed.
End Keeps.

#[export] Hint Resolve keeps_ret keeps_zoom keeps_getc keeps_fail : pg.

Ltac keeps :=
  repeat first
    [ apply keeps_bind; [|intros ?]
    | apply keeps_modc; intros []; done
    | solve [auto with pg]
    | case_match ].

(** The promise on variables and operators. *)
Class KeepsOps (Mu : node → MM node) : Prop := {
  keeps_var v : keeps (Mu (Var v));
  keeps_operator o args : keeps (Mu args) → keeps (Mu (OpExpr o args)) }.

Definition is_rtref (n : node) : bool := match n with RangeTblRef _ => true | _ => false end.

Section Mutator.
Context {B : Build} {C : SysCache} {Mu : node → MM node} {HMu : MutatorCases Mu} {Hkeeps : KeepsOps Mu}.

(** The mutator and the generic mutator over it restore the polarity. *)
Lemma mutator_keeps n : keeps (Mu n) ∧ keeps (expression_tree_mutator Mu n).
Proof.
  induction n using node_ind'; destruct_and?.
  all: try (match goal with |- keeps (Mu ?n) ∧ _ =>
    assert (keeps (expression_tree_mutator Mu n)) by (cbn; keeps); split; [|done]; by rewrite mutator_other end; fail).
  - split; [apply keeps_var|]. cbn. keeps.
  - split; [by apply keeps_operator|]. cbn. keeps.
  - assert (keeps (expression_tree_mutator Mu (BoolExpr b n l))) by (cbn; keeps).
    split; [|done]. destruct (decide (b = NOT_EXPR)) as [->|Hb].
    + rewrite mutator_not. by apply keeps_not.
    + rewrite mutator_and_or by done. by apply keeps_and_or.
  - split; [|cbn; keeps]. rewrite mutator_query. apply keeps_bind; [by apply keeps_query|]. intros ?. apply keeps_ret.
  - assert (keeps (mutate_list Mu l)).
    { apply keeps_mutate_list. eapply Forall_impl; [exact H|]. naive_solver. }
    rewrite mutator_other by done. split; cbn; keeps.
Qed.
(** A plain FROM list is copied. *)
Lemma refs_mutate fl s : forallb is_rtref fl = true → Mu (NList fl) s = Ok (of_list fl, s).
Proof.
  intros Hf. rewrite mutator_other by done. cbn. assert (mutate_list Mu fl s = Ok (fl, s)) as E; [|by erewrite bind_Ok by exact E].
  revert s. induction fl as [|x fl IH]; intros s; [done|].
  cbn in Hf. apply andb_true_iff in Hf as [Hx Hf]. destruct x; try done. cbn. rewrite mutator_other by done. cbn. by erewrite bind_Ok by by apply IH.
Qed.
End Mutator.

(** ** What the cases return *)

Section Cases.
Context {B : Build} {C : SysCache}.

Lemma mutate_not_inv m s n' s' :
  mutate_not m s = Ok (n', s') →
  ∃ s1 s2, m_positive s1.2 = negb (m_positive s.2) ∧ m s1 = Ok (n', s2).
Proof.
  destruct s as [h c]. intros H. unfold mutate_not in H. mstep H. injection E as <- <-. mstep H.
  mstep H. injection H as <- <-. by exists (h, m_set_positive (negb (m_positive c)) c), s.
Qed.

(** Relates the polarities before and after each step of a run. *)
Ltac polarity :=
  repeat match goal with
  | E : zoom _ _ = Ok _ |- _ => apply keeps_zoom in E
  | E : getc _ = Ok _ |- _ => apply keeps_getc in E
  | E : modc _ _ = Ok _ |- _ => apply keeps_modc in E; [|by intros []]
  end; congruence.

(** Everything before the call of the children keeps the polarity. *)
Lemma mutate_and_or_inv m s n' s' :
  mutate_and_or m s = Ok (n', s') →
  ∃ s1 s2, m_positive s1.2 = m_positive s.2 ∧ m s1 = Ok (n', s2).
Proof.
  intros H. unfold mutate_and_or in H. repeat (mstep H).
  injection H as -> ->. eexists _, _. split; [|eassumption]. polarity.
Qed.

Lemma mutate_query_inv m s n' s' :
  mutate_query m s = Ok (n', s') →
  ∃ s1 s2, m_positive s1.2 = m_positive s.2 ∧ m s1 = Ok (n', s2).
Proof.
  intros H. unfold mutate_query in H. repeat (mstep H).
  injection H as -> ->. eexists _, _. split; [|eassumption]. polarity.
Qed.

End Cases.

(** ** Conditions *)

(** The conditions covered: comparisons of terms, null tests, connectives, and EXISTS
    over a plain FROM list. *)
Fixpoint is_cond (n : node) : bool :=
  match n with
  | NULL => true
  | OpExpr _ (NList args) => match args with [] => false | _ => forallb is_term args end
  | BoolExpr NOT_EXPR (NList [x]) _ => is_cond x
  | BoolExpr AND_EXPR (NList args) _ | BoolExpr OR_EXPR (NList args) _ =>
      match args with [] => false | _ => forallb is_cond args end
  | NullTest _ arg _ => is_term arg
  | SubLink EXISTS_SUBLINK NULL (Query _ _ (FromExpr (NList fl) quals) _) =>
      forallb is_rtref fl && is_cond quals
  | _ => false
  end.

(** ** Rewriting *)

Section Rewrites.
Context {I : Interp}.

(** [n'] is no truer than [n] in a positive position, no less true under a negation. *)
Definition rewrites (positive : bool) (n n' : node) : Prop :=
  ∀ e, if positive then le3 (eval n' e) (eval n e) else le3 (eval n e) (eval n' e).

Definition same_term (n n' : node) : Prop := ∀ e, eval_term e n' = eval_term e n.

Lemma rewrites_refl p n : rewrites p n n.
Proof. intros e. by destruct p. Qed.

Lemma same_terms e l l' : Forall2 same_term l l' → eval_terms e l' = eval_terms e l.
Proof. induction 1 as [|x x' l l' Hx _ IH]; [done|]. cbn. rewrite Hx. fold (eval_terms e l') (eval_terms e l). by rewrite IH. Qed.

Lemma rewrites_all p l l' e : Forall2 (rewrites p) l l' →
  if p then Forall2 le3 (evals l' e) (evals l e) else Forall2 le3 (evals l e) (evals l' e).
Proof. destruct p; induction 1 as [|x x' l l' Hx _ IH]; constructor; auto; apply (Hx e). Qed.

(** AND and OR of rewritten conditions. *)
Lemma rewrites_and_or p b args args' loc : b ≠ NOT_EXPR →
  Forall2 (rewrites p) args args' →
  rewrites p (BoolExpr b (NList args) loc) (BoolExpr b (NList args') loc).
Proof.
  intros Hb Hall e. pose proof (rewrites_all p _ _ e Hall) as H. unfold evals in H.
  destruct p, b; try done; cbn [eval]; by (apply and3_list_mono || apply or3_list_mono).
Qed.

Lemma rewrites_op p o args args' :
  Forall2 same_term args args' → rewrites p (OpExpr o (NList args)) (OpExpr o (NList args')).
Proof.
  intros Hall e. cbn [eval]. rewrite (same_terms e _ _ Hall). by destruct p.
Qed.

(** Under a negation an operator may become the last alternative of an OR. *)
Lemma rewrites_alternative n r cs loc :
  rewrites false n r → rewrites false n (BoolExpr OR_EXPR (NList (cs ++ [r])) loc).
Proof.
  intros H e. cbn [eval]. rewrite map_app, or3_list_app. cbn [map]. specialize (H e). cbn in H.
  etrans; [exact H|]. etrans; [|apply le3_or_r]. cbn. by destruct (eval r e).
Qed.

Lemma rewrites_not p n n' loc :
  rewrites (negb p) n n' → rewrites p (BoolExpr NOT_EXPR (NList [n]) loc) (BoolExpr NOT_EXPR (NList [n']) loc).
Proof. intros H e. specialize (H e). destruct p; cbn in *; by apply le3_not. Qed.

Lemma rewrites_exists p q rtable fl quals tl fl' quals' t :
  list_of fl' = list_of fl → rewrites p quals quals' →
  rewrites p (SubLink EXISTS_SUBLINK t (Query q rtable (FromExpr fl quals) tl))
             (SubLink EXISTS_SUBLINK t (Query q rtable (FromExpr fl' quals') tl)).
Proof. intros Hfl H e. destruct p; (apply exists_mono; [congruence|]); intros e'; apply (H e'). Qed.

End Rewrites.

(** ** The mutator *)

Section Conditions.
Context {B : Build} {C : SysCache} {I : Interp} {Mu : node → MM node} {HMu : MutatorCases Mu} {Hkeeps : KeepsOps Mu}.

(** What a mutation of [n] does when it returns. *)
Definition mutation_ok (n : node) : Prop := ∀ s n' s',
  Mu n s = Ok (n', s') →
  (is_term n = true → same_term n n') ∧ (is_cond n = true → rewrites (m_positive s.2) n n').

Lemma mutate_list_ok l : Forall mutation_ok l → ∀ s l' s',
  mutate_list Mu l s = Ok (l', s') →
  (forallb is_term l = true → Forall2 same_term l l') ∧
  (forallb is_cond l = true → Forall2 (rewrites (m_positive s.2)) l l').
Proof.
  induction 1 as [|x l Hx _ IH]; intros s l' s' H; cbn in H.
  - injection H as <- <-. split; constructor.
  - mstep H. mstep H. injection H as <- <-.
    pose proof (proj1 (mutator_keeps x) _ _ _ E) as Ek.
    destruct (Hx _ _ _ E) as [Hx1 Hx2]. destruct (IH _ _ _ E0) as [Hl1 Hl2]. rewrite Ek in Hl2.
    split; intros [? ?]%andb_true_iff; constructor; auto.
Qed.

(** The arguments of a node, when they are a list, are mutated one by one. *)
Lemma mutate_args_inv {A} args (k : node → A) s r s' :
  args ≠ [] → (x <- Mu (NList args);; ret (k x)) s = Ok (r, s') →
  ∃ args', mutate_list Mu args s = Ok (args', s') ∧ (length args' = length args → r = k (NList args')).
Proof.
  intros Hne H. mstep H. injection H as <- <-. rewrite mutator_other in E by done. cbn in E. mstep E. injection E as <- <-.
  exists a0. split; [done|]. intros Hl. by destruct a0, args.
Qed.

End Conditions.

(** The promise on comparisons. *)
Class CarefulOps {B : Build} {C : SysCache} {I : Interp} (Mu : node → MM node) : Prop := {
  var_kept v s n' s' : Mu (Var v) s = Ok (n', s') → same_term (Var v) n';
  op_rewritten o args s n' s' : args ≠ [] → forallb is_term args = true → Forall (mutation_ok (Mu := Mu)) args →
    Mu (OpExpr o (NList args)) s = Ok (n', s') → rewrites (m_positive s.2) (OpExpr o (NList args)) n' }.

Section Careful.
Context {B : Build} {C : SysCache} {I : Interp} {Mu : node → MM node}.
Context {HMu : MutatorCases Mu} {Hkeeps : KeepsOps Mu} {Hops : CarefulOps Mu}.

Local Abbreviation mutation_ok := (mutation_ok (Mu := Mu)).

Lemma op_mutation o args : Forall mutation_ok args → mutation_ok (OpExpr o (NList args)).
Proof. intros Hl s n' s' H. split; [done|]. intros [Hne Ht]%bool_nonempty. by eapply op_rewritten. Qed.

Lemma and_or_mutation b args loc : b ≠ NOT_EXPR →
  Forall mutation_ok args → mutation_ok (BoolExpr b (NList args) loc).
Proof.
  intros Hb Hl s n' s' H. split; [done|]. intros Hc.
  assert (args ≠ [] ∧ forallb is_cond args = true) as [Hne Hc'] by (destruct b; try done; by apply bool_nonempty).
  assert (∃ s1 s2, m_positive s1.2 = m_positive s.2 ∧
    expression_tree_mutator Mu (BoolExpr b (NList args) loc) s1 = Ok (n', s2)) as (s1 & s2 & Hp & Hr).
  { rewrite mutator_and_or in H by done. by eapply mutate_and_or_inv. }
  apply (mutate_args_inv args (λ a, BoolExpr b a loc)) in Hr as (args' & Hm & Hr); [|done].
  destruct (mutate_list_ok _ Hl _ _ _ Hm) as [_ Hrw]. specialize (Hrw Hc'). rewrite Hp in Hrw.
  rewrite Hr by (symmetry; by eapply Forall2_length). by apply rewrites_and_or.
Qed.

Lemma not_mutation args loc : Forall mutation_ok args → mutation_ok (BoolExpr NOT_EXPR (NList args) loc).
Proof.
  intros Hl s n' s' H. split; [done|]. destruct args as [|x [|y args]]; try done. intros Hc.
  rewrite mutator_not in H. apply mutate_not_inv in H as (s1 & s2 & Hp & Hr).
  apply (mutate_args_inv [x] (λ a, BoolExpr NOT_EXPR a loc)) in Hr as (args' & Hm & Hr); [|done].
  destruct (mutate_list_ok _ Hl _ _ _ Hm) as [_ Hrw]. cbn [forallb] in Hrw.
  assert (is_cond x && true = true) as Hx by (cbn in Hc; by rewrite Hc). specialize (Hrw Hx).
  rewrite Hr by (symmetry; by eapply Forall2_length). rewrite Hp in Hrw.
  apply Forall2_cons_inv_l in Hrw as (x' & l' & Hx' & Hl'%Forall2_nil_inv_l & ->). subst l'. by apply rewrites_not.
Qed.

Lemma exists_mutation t q rtable fl quals tl :
  mutation_ok quals → mutation_ok (SubLink t NULL (Query q rtable (FromExpr fl quals) tl)).
Proof.
  intros Hq s n' s' H. split; [done|]. intros Hc.
  destruct t; try done. destruct fl as [| | | | | | | | | | | | | | |fl|]; try done.
  cbn [is_cond] in Hc. apply andb_true_iff in Hc as [Hfl Hc].
  rewrite mutator_other in H by done. cbn [expression_tree_mutator] in H. rewrite (mutator_other NULL) in H by done.
  mstep H. injection E as <- <-. mstep H. injection H as <- <-. rewrite mutator_query in E. mstep E. injection E as <- <-. apply mutate_query_inv in E0 as (t1 & t2 & Hp & Hr).
  mstep Hr. mstep Hr. injection Hr as <- <-.
  pose proof (proj1 (mutator_keeps (NList fl)) _ _ _ E) as Ek.
  destruct (Hq _ _ _ E0) as [_ Hrw]. specialize (Hrw Hc). rewrite Ek, Hp in Hrw.
  rewrite refs_mutate in E by done. injection E as <- <-. apply rewrites_exists; [by destruct fl|done].
Qed.

(** The parts of a node that its own mutation does not describe. *)
Definition parts_ok (n : node) : Prop :=
  match n with
  | NList l => Forall mutation_ok l
  | FromExpr _ quals => mutation_ok quals
  | Query _ _ (FromExpr _ quals) _ => mutation_ok quals
  | _ => True
  end.

Lemma mutation_parts n : mutation_ok n ∧ parts_ok n.
Proof.
  induction n using node_ind'; destruct_and?; (split; [|try done]).
  all: try (intros s n' s' H'; split; (done || by intros)).
  - intros s n' s' H'. rewrite mutator_other in H' by done. injection H' as <- <-. split; [done|]. intros _. apply rewrites_refl.
  - intros s n' s' H. split; [|done]. intros _. by eapply var_kept.
  - intros s n' s' H'. rewrite mutator_other in H' by done. injection H' as <- <-. split; [by intros _ e|done].
  - intros s n' s' H'. split; [|done]. destruct n; try done. intros [Hne Ht]%bool_nonempty e. rewrite mutator_other in H' by done.
    cbn [expression_tree_mutator] in H'. apply mutate_args_inv in H' as (args' & Hm & Hr); [|done].
    destruct (mutate_list_ok _ H0 _ _ _ Hm) as [Hsame _]. specialize (Hsame Ht).
    rewrite Hr by (symmetry; by eapply Forall2_length). rewrite !eval_term_func. by rewrite (same_terms e _ _ Hsame).
  - destruct n; try (intros s n' s' H'; by split). by apply op_mutation.
  - destruct n; try (intros s n' s' H'; by destruct b; split).
    destruct b; [by apply and_or_mutation|by apply and_or_mutation|by apply not_mutation].
  - intros s n' s' H'. rewrite mutator_other in H' by done. cbn in H'. mstep H'. injection H' as <- <-. destruct (H _ _ _ E) as [Hsame _].
    split; [done|]. intros Ht e. specialize (Hsame Ht e). destruct t; cbn; rewrite Hsame; by destruct (m_positive s.2).
  - intros s n' s' H'. rewrite mutator_other in H' by done. cbn in H'. mstep H'. injection H' as <- <-. destruct (H _ _ _ E) as [Hsame _].
    split; [|done]. intros Ht e. apply Hsame, Ht.
  - destruct n1; try (intros s n' s' H'; by destruct t; split).
    destruct n2; try (intros s n' s' H'; by destruct t; split).
    destruct n2_2; try (intros s n' s' H'; by destruct t; split). by apply exists_mutation.
  - by destruct n2.
  - eapply Forall_impl; [exact H|]. naive_solver.
Qed.

(** The mutation of a query outside negations only removes answers. *)
Lemma query_conservative q rtable fl quals tl s q' s' :
  m_positive s.2 = true → is_cond quals = true →
  Mu (Query q rtable (FromExpr (NList fl) quals) tl) s = Ok (q', s') →
  ∃ fl' quals', q' = Query q rtable (FromExpr fl' quals') tl ∧
    (forallb is_rtref fl = true → list_of fl' = fl) ∧ ∀ e, eval quals' e = TT → eval quals e = TT.
Proof.
  intros Hp Hc Emut. rewrite mutator_query in Emut. mstep Emut. injection Emut as <- <-.
  apply mutate_query_inv in E as (t1 & t2 & Hpos & Hr). mstep Hr. mstep Hr. injection Hr as <- <-.
  eexists _, _. split; [done|]. split.
  { intros Hf. rewrite refs_mutate in E by done. injection E as <- <-. by destruct fl. }
  intros e HT.
  pose proof (proj1 (mutator_keeps (NList fl)) _ _ _ E) as Ek.
  destruct (mutation_parts quals) as [Hm _]. destruct (Hm _ _ _ E0) as [_ Hrw].
  specialize (Hrw Hc e). rewrite Ek, Hpos, Hp in Hrw. apply TT_le3. by rewrite <- HT.
Qed.
End Careful.
