(* ===== verification/CoddProps.v ===== *)
(** The rewriting of certain_answer_codd.c only removes answers: what [Mutators] says of
    its mutator. *)

From S2P Require Import Prelude Nodes Terms PgList TrueVar Walker Codd HookClass Semantics SelfOpt SplitProps Mutators Samples.

Section Codd.
Context {B : Build} {C : SysCache}.

Lemma keeps_op m o args : keeps m → keeps (mutate_op m o args).
Proof.
  intros Hm. unfold mutate_op. apply keeps_bind; [|intros _; keeps].
  apply keeps_modc. intros c. by destruct (_ && _).
Qed.

#[global] Instance codd_keeps : KeepsOps my_mutator.
Proof.
  split.
  - intros v. cbn. apply keeps_bind; [apply keeps_getc|]. intros c. apply keeps_bind; [|intros ?; apply keeps_ret].
    unfold mutate_var. keeps.
  - intros o args Hm. apply keeps_op. cbn. keeps.
Qed.

(** An operator is returned mutated, or, under a negation, as the last alternative of
    an OR. *)
Lemma mutate_op_inv m o args s n' s' :
  keeps m → mutate_op m o args s = Ok (n', s') →
  ∃ s1 s2 r, m_positive s1.2 = m_positive s.2 ∧ m s1 = Ok (r, s2) ∧
    (n' = r ∨ m_positive s.2 = false ∧ ∃ cs, n' = BoolExpr OR_EXPR (NList (cs ++ [r])) (-1)).
Proof.
  intros Hm H. unfold mutate_op in H. mstep H. mstep H. mstep H.
  apply keeps_modc in E; [|intros c; by destruct (_ && _)].
  pose proof (Hm _ _ _ E0) as E0'. destruct s1 as [h2 c2]. injection E1 as <- <-.
  destruct (m_constraint_to_add c2) as [|t ts] eqn:Ec.
  - injection H as <- <-. exists s0, (h2, c2), a0. auto.
  - destruct (m_positive c2) eqn:Ep; cbn [negb] in H.
    + destruct (has_sublink args); [done|]. exists (h2, c2), s', n'. simpl in *. split; [congruence|]. auto.
    + mstep H. mstep H. injection H as <- <-. exists s0, (h2, c2), a0. split; [done|]. split; [done|].
      right. split; [simpl in *; congruence|]. by exists (t :: ts).
Qed.

Context {I : Interp}.

Lemma mutate_var_inv v s v' s' :
  mutate_var v s = Ok (v', s') → v' = v ∨ v' = with_location (-1) v.
Proof.
  intros H. unfold mutate_var in H. do 3 (mstep H). destruct a1.
  - injection H as <- <-. by left.
  - mstep H. injection H as <- <-. by right.
Qed.

#[global] Instance codd_careful : CarefulOps my_mutator.
Proof.
  split.
  - intros v s n' s' H e. cbn in H. mstep H. mstep H. injection H as <- <-. destruct (m_ready a).
    + apply mutate_var_inv in E0 as [->| ->]; done.
    + injection E0 as <- <-. done.
  - intros o args s n' s' Hne Ht Hl H.
    apply mutate_op_inv in H as (s1 & s2 & r & Hp & Hr & Hn'); [|apply mutator_keeps].
    apply (mutate_args_inv (Mu := my_mutator) args (OpExpr o)) in Hr as (args' & Hm & Hr); [|done].
    destruct (mutate_list_ok _ Hl _ _ _ Hm) as [Hsame _]. specialize (Hsame Ht).
    rewrite Hr in Hn' by (symmetry; by eapply Forall2_length). clear Hr.
    destruct Hn' as [->|[-> [cs ->]]]; [by apply rewrites_op|].
    by apply rewrites_alternative, rewrites_op.
Qed.
End Codd.

(** ** Properties *)

(** C4: the rewriting of a query adds no answers.  The WHERE condition is made of comparisons
    of terms, null tests of terms, AND, OR, NOT and EXISTS over plain FROM lists ([is_cond]:
    no IN or ANY sub-links and no tests over conditions).  When [rewrite_query] returns, only
    the jointree has changed, a FROM list of plain references is kept, and in every
    environment and database each row that satisfies the rewritten condition satisfies the
    original one. *)
Theorem rewrite_query_conservative {B : Build} {C : SysCache} {I : Interp} q rtable fl quals tl q' :
  is_cond quals = true →
  rewrite_query (Query q rtable (FromExpr (NList fl) quals) tl) = Ok q' →
  ∃ fl' quals', q' = Query q rtable (FromExpr fl' quals') tl ∧
    (forallb is_rtref fl = true → list_of fl' = fl) ∧
    ∀ e, eval quals' e = TT → eval quals e = TT.
Proof.
  intros Hc H. unfold rewrite_query in H.
  destruct (my_walker _ _) as [[b [h ctx]]|]; [|done].
  destruct (make_context_modifier true ctx h) as [[ctx_m h']|] eqn:Em; [|done].
  assert (m_positive ctx_m = true) as Hp by (unfold make_context_modifier in Em; mstep Em; by injection Em as <- <-).
  destruct (my_mutator _ _) as [[q1 s1]|] eqn:Emut; [|done]. injection H as <-.
  by apply query_conservative in Emut.
Qed.

(** SELECT x FROM r WHERE x = 1 AND NOT EXISTS (SELECT ... FROM s, t WHERE s.x = r.y
    AND t.x = 1) *)
Definition sample_where : node :=
  all_of [cmp 98 (col 0 1 1) (lit 1);
          no (in_exists (select [20; 30] (all_of [cmp 98 (col 0 1 1) (col 1 1 2); cmp 98 (col 0 2 1) (lit 1)])))].

(** The rewritten sample, and that the condition really changed. *)
Lemma rewrite_query_conservative_witness :
  ∃ q' fl' quals', rewrite_query (B := with_asserts) (C := sample_catalog) (select [10] sample_where) = Ok q' ∧
    q' = Query new_queryinfo (NList [rel 10]) (FromExpr fl' quals') (NList [TargetEntry (mkTe 1 "x" false) (col 0 1 1)]) ∧
    ∀ e, eval (I := sample_interp) quals' e = TT → eval (I := sample_interp) sample_where e = TT.
Proof.
  destruct (rewrite_query (B := with_asserts) (C := sample_catalog) (select [10] sample_where)) as [q'|] eqn:E.
  2: { vm_compute in E. discriminate. }
  destruct (rewrite_query_conservative (B := with_asserts) (C := sample_catalog) (I := sample_interp)
    new_queryinfo (NList [rel 10]) [RangeTblRef 1] sample_where
    (NList [TargetEntry (mkTe 1 "x" false) (col 0 1 1)]) q' eq_refl E) as (fl' & quals' & Hq & _ & Hev).
  exists q', fl', quals'. split; [reflexivity|]. split; [exact Hq|exact Hev].
Defined.
