(* ===== verification/MarkedProps.v ===== *)
(** The rewriting of certain_answer_marked.c only removes answers: what [Mutators] says of
    its mutator. *)

From S2P Require Import Prelude Nodes Terms PgList TrueVar Walker Codd Marked HookClass Semantics SelfOpt SplitProps Mutators Samples.

(** ">=" is "=" or ">", "<=" is "=" or "<". *)
Class OrEqualOps (I : Interp) : Prop := {
  ge_splits vs : op_den 525 vs = op_den 96 vs || op_den 521 vs;
  le_splits vs : op_den 523 vs = op_den 96 vs || op_den 97 vs }.

Section Marked.
Context {B : Build} {C : SysCache}.

Lemma keeps_marked_op m o : keeps m → keeps (Marked.mutate_op m o).
Proof.
  intros Hm. unfold Marked.mutate_op. do 2 (apply keeps_bind; [apply keeps_modc; intros c; by case_match|intros _]). keeps.
Qed.

#[global] Instance marked_keeps : KeepsOps Marked.my_mutator.
Proof.
  split.
  - intros v. cbn [Marked.my_mutator]. unfold Marked.mutate_var. keeps.
  - intros o args Hm. cbn [Marked.my_mutator]. unfold mutate_or_equal.
    repeat case_match; try apply keeps_fail; try by apply keeps_marked_op.
    all: repeat (apply keeps_bind; [by apply keeps_marked_op|intros ?]); apply keeps_ret.
Qed.

(** A comparison is returned with its arguments mutated, alone or as the last part of an
    AND or, under a negation, of an OR. *)
Lemma marked_op_inv m o s n' s' : keeps m → Marked.mutate_op m o s = Ok (n', s') →
  ∃ s1 s2 args', m_positive s1.2 = m_positive s.2 ∧ m s1 = Ok (args', s2) ∧
    (n' = OpExpr o args' ∨
     ∃ cs, n' = BoolExpr (if m_positive s.2 then AND_EXPR else OR_EXPR) (NList (cs ++ [OpExpr o args'])) (-1)).
Proof.
  intros Hm H. unfold Marked.mutate_op in H. mstep H. mstep H. mstep H. mstep H.
  apply keeps_modc in E; [|intros c; by repeat case_match]. apply keeps_modc in E0; [|intros c; by repeat case_match].
  pose proof (Hm _ _ _ E1) as Ek. destruct s2 as [h2 c2]. injection E2 as <- <-.
  exists s1, (h2, c2), a1. split; [congruence|]. split; [done|].
  destruct (m_constraint_to_add c2) as [|t ts]; [injection H as <- <-; by left|]. right. exists (t :: ts).
  mstep H. mstep H. injection H as <- <-. cbn in *. by rewrite Ek, E0, E.
Qed.

Context {I : Interp}.

(** A further condition makes a condition no truer. *)
Lemma rewrites_conjunct n r cs loc : rewrites true n r → rewrites true n (BoolExpr AND_EXPR (NList (cs ++ [r])) loc).
Proof.
  intros H e. cbn [eval]. rewrite map_app, and3_list_app. cbn [map]. specialize (H e). cbn in H.
  etrans; [|exact H]. cbn. destruct (and3_list _), (eval r e); unfold le3; cbn; lia.
Qed.

(** The arguments of a comparison are terms, which keep their values. *)
Lemma marked_op_rewrites o args s n' s' : args ≠ [] → forallb is_term args = true →
  Forall (mutation_ok (Mu := Marked.my_mutator)) args →
  Marked.mutate_op (Marked.my_mutator (NList args)) o s = Ok (n', s') →
  rewrites (m_positive s.2) (OpExpr o (NList args)) n'.
Proof.
  intros Hne Ht Hl H. apply marked_op_inv in H as (s1 & s2 & a & Hp & Ha & Hn'); [|apply mutator_keeps].
  assert ((x <- Marked.my_mutator (NList args);; ret x) s1 = Ok (a, s2)) as Ha' by (unfold bind, ret; by rewrite Ha).
  apply (mutate_args_inv (Mu := Marked.my_mutator) args (λ x, x)) in Ha' as (args' & Hm & Hr); [|done].
  destruct (mutate_list_ok _ Hl _ _ _ Hm) as [Hsame _]. specialize (Hsame Ht).
  rewrite Hr in Hn' by (symmetry; by eapply Forall2_length).
  destruct Hn' as [->|[cs ->]]; [by apply rewrites_op|].
  destruct (m_positive s.2); [by apply rewrites_conjunct, rewrites_op|by apply rewrites_alternative, rewrites_op].
Qed.

Lemma rewrites_or p a b a' b' loc : rewrites p a a' → rewrites p b b' →
  rewrites p (BoolExpr OR_EXPR (NList [a; b]) loc) (BoolExpr OR_EXPR (NList [a'; b']) loc).
Proof. intros Ha Hb. apply rewrites_and_or; [done|]. by repeat constructor. Qed.

(** ">=" and "<=" as disjunctions. *)
Lemma or_equal_splits {Hor : OrEqualOps I} o strict args e :
  (opno o = 525 ∧ strict = 521) ∨ (opno o = 523 ∧ strict = 97) →
  eval (BoolExpr OR_EXPR (NList [OpExpr (op_of 96) (NList args); OpExpr (op_of strict) (NList args)]) (-1)) e =
  eval (OpExpr o (NList args)) e.
Proof.
  intros Ho. cbn [eval map or3_list foldr opno op_of]. destruct (eval_terms e args) as [vs|]; [|done].
  destruct Ho as [[-> ->]|[-> ->]]; [rewrite ge_splits|rewrite le_splits]; by destruct (op_den 96 vs), (op_den _ vs).
Qed.

Lemma or_equal_rewrites {Hor : OrEqualOps I} o strict args s n' s' :
  (opno o = 525 ∧ strict = 521) ∨ (opno o = 523 ∧ strict = 97) →
  args ≠ [] → forallb is_term args = true → Forall (mutation_ok (Mu := Marked.my_mutator)) args →
  mutate_or_equal (Marked.my_mutator (NList args)) strict (NList args) s = Ok (n', s') →
  rewrites (m_positive s.2) (OpExpr o (NList args)) n'.
Proof.
  intros Ho Hne Ht Hl H. unfold mutate_or_equal in H. destruct (has_sublink _); [done|].
  mstep H. mstep H. injection H as <- <-.
  pose proof (keeps_marked_op _ (op_of 96) (proj1 (mutator_keeps (NList args))) _ _ _ E) as Ek.
  apply marked_op_rewrites in E; [|done..]. apply marked_op_rewrites in E0; [|done..]. rewrite Ek in E0.
  intros e. rewrite <- (or_equal_splits o strict) by done. by apply rewrites_or.
Qed.

#[global] Instance marked_careful {Hor : OrEqualOps I} : CarefulOps Marked.my_mutator.
Proof.
  split.
  - intros v s n' s' H e. cbn [Marked.my_mutator] in H. mstep H. mstep H. by injection H as <- <-.
  - intros o args s n' s' Hne Ht Hl H. cbn [Marked.my_mutator] in H.
    destruct (Z.eqb_spec (opno o) 525); [by eapply or_equal_rewrites; eauto|].
    destruct (Z.eqb_spec (opno o) 523); [by eapply or_equal_rewrites; eauto|]. by eapply marked_op_rewrites.
Qed.
End Marked.

(** ** Property *)

(** C5: the rewriting for marked nulls adds no answers either, whatever the walker collected.
    The WHERE condition is made of comparisons of terms, null tests of terms, AND, OR, NOT
    and EXISTS over plain FROM lists ([is_cond]: no IN or ANY sub-links and no tests over
    conditions), and the operators ">=" and "<=" of the database mean "=" or ">", "=" or "<"
    ([OrEqualOps]), as the rewriting splits them so.  When [rewrite_query] returns, only the
    jointree has changed, a FROM list of plain references is kept, and each row that
    satisfies the rewritten condition satisfies the original one. *)
Theorem marked_conservative {B : Build} {C : SysCache} {I : Interp} {Hor : OrEqualOps I} q rtable fl quals tl q' s :
  is_cond quals = true →
  Marked.rewrite_query (Query q rtable (FromExpr (NList fl) quals) tl) = Ok (q', s) →
  ∃ fl' quals', q' = Query q rtable (FromExpr fl' quals') tl ∧
    (forallb is_rtref fl = true → list_of fl' = fl) ∧ ∀ e, eval quals' e = TT → eval quals e = TT.
Proof.
  intros Hc H. unfold Marked.rewrite_query in H.
  destruct (Marked.my_walker _ _) as [[b [h ctx]]|]; [|done].
  destruct (make_context_modifier true ctx h) as [[ctx_m h']|] eqn:Em; [|done].
  assert (m_positive ctx_m = true) as Hp by (unfold make_context_modifier in Em; mstep Em; by injection Em as <- <-).
  destruct (Marked.my_mutator _ _) as [[q1 [h1 c1]]|] eqn:Emut; [|done]. injection H as <- <-.
  by apply query_conservative in Emut.
Qed.

#[global] Instance sample_or_equal : OrEqualOps sample_interp.
Proof. split; intros [|a [|b [|]]]; try done; cbn; lia. Qed.

(** SELECT FROM r WHERE x <> y AND NOT EXISTS (SELECT FROM s WHERE s.x >= r.x OR s.y IS NULL). *)
Definition sample_marked_where : node :=
  all_of [cmp 518 (col 0 1 1) (col 0 1 2);
          no (in_exists (select [20] (any_of [cmp 525 (col 0 1 1) (col 1 1 1); NullTest IS_NULL (col 0 1 2) (-1)])))].

Lemma marked_conservative_witness :
  ∃ q' s fl' quals', Marked.rewrite_query (B := with_asserts) (C := sample_catalog) (select [10] sample_marked_where) = Ok (q', s) ∧
    q' = Query new_queryinfo (NList [rel 10]) (FromExpr fl' quals') (NList [TargetEntry (mkTe 1 "x" false) (col 0 1 1)]) ∧
    ∀ e, eval (I := sample_interp) quals' e = TT → eval (I := sample_interp) sample_marked_where e = TT.
Proof.
  destruct (Marked.rewrite_query (B := with_asserts) (C := sample_catalog) (select [10] sample_marked_where)) as [[q' s]|] eqn:E.
  2: { vm_compute in E. discriminate. }
  destruct (marked_conservative (B := with_asserts) (C := sample_catalog) (I := sample_interp)
    new_queryinfo (NList [rel 10]) [RangeTblRef 1] sample_marked_where
    (NList [TargetEntry (mkTe 1 "x" false) (col 0 1 1)]) q' s eq_refl E) as (fl' & quals' & Hq & _ & Hev).
  exists q', s, fl', quals'. split; [reflexivity|]. split; [exact Hq|exact Hev].
Defined.
