(* ===== verification/CoddNeg.v ===== *)
(** Comparisons under a negation.

    The mutator replaces such a comparison by an OR of it with "x IS NULL" for each
    of its variables that may be null, so that the result is true whenever the
    comparison can be made true by giving values to the nulls. *)

From S2P Require Import Prelude Nodes Terms PgList ListSpec ListOps ListSets TrueVar.
From S2P Require Import TrueVarSpec Walker Codd Semantics SplitProps Mutators CoddProps Samples.

(** [key_in st nks v]: the column of [v] is in the list [nks]. *)
Definition key_in (st : list (list (list key))) (nks : list key) (v : var) : bool :=
  match resolve st v with Some k => memb key_eqb nks k | None => false end.

Definition null_test (v : var) : node := NullTest IS_NULL (Var (with_location (-1) v)) (-1).

(** The tests that are added for a list of variables. *)
Definition null_tests (st : list (list (list key))) (nks : list key) (vs : list var) : list node :=
  map null_test (List.filter (λ v, negb (key_in st nks v)) vs).

Lemma null_tests_app st nks l l' : null_tests st nks (l ++ l') = null_tests st nks l ++ null_tests st nks l'.
Proof. unfold null_tests. by rewrite List.filter_app, map_app. Qed.

Section Neg.
Context {B : Build} {I : Interp}.
Context (P : positive → Prop) (h : heap) (st : list (list (list key))) (nks : list key) (ncs : cells).
Hypothesis Hok : heap_ok h.

(** The mutator's context: reading an operator, in the scope [st], with the columns
    [nks] known not to be null. *)
Definition reading (c : context_modifier) : Prop :=
  m_ready c = true ∧ scopes P h (m_current_trueVar c) st ∧
  var_list h (m_list_of_not_null_in_current c) ncs nks.

Definition add_tests (vs : list var) (c : context_modifier) : context_modifier :=
  m_set_constraint (m_constraint_to_add c ++ null_tests st nks vs) c.

Lemma reading_add vs c : reading c → reading (add_tests vs c).
Proof. done. Qed.

Lemma add_tests_app vs vs' c : add_tests vs' (add_tests vs c) = add_tests (vs ++ vs') c.
Proof. unfold add_tests. rewrite null_tests_app. by destruct c; cbn; rewrite app_assoc. Qed.

Lemma add_tests_nil c : add_tests [] c = c.
Proof. destruct c. unfold add_tests, null_tests. cbn. by rewrite app_nil_r. Qed.

Lemma mutate_var_ok v c k :
  reading c → resolve st v = Some k →
  ∃ v', mutate_var v (h, c) = Ok (v', (h, add_tests [v] c)) ∧ same_term (Var v) (Var v').
Proof.
  intros (Hr & Hsc & Hnn) Hk. unfold mutate_var.
  destruct (getTrueVar_ok P h _ st v k Hsc Hk) as (t & Et & [Ht _] & Hkt).
  erewrite bind_Ok by reflexivity. erewrite bind_Ok by by apply zoom_Ok.
  erewrite bind_Ok by (apply zoom_Ok; by eapply isInListTrueVar_keys).
  unfold add_tests, null_tests, key_in. cbn [List.filter]. rewrite Hk, Hkt.
  destruct (memb key_eqb _ k); cbn.
  - exists v. split; [|by intros e]. destruct c. cbn. by rewrite app_nil_r.
  - eexists. split; [reflexivity|]. by intros e.
Qed.

Definition resolved (n : node) : Prop := Forall (λ v, is_Some (resolve st v)) (term_vars n).

(** A term is returned with the same value, and the tests of its variables are added
    to the context. *)
Definition term_mutates (n : node) : Prop := ∀ c, reading c → is_term n = true → resolved n →
  ∃ n', my_mutator n (h, c) = Ok (n', (h, add_tests (term_vars n) c)) ∧ same_term n n'.

Lemma mutate_terms l : Forall term_mutates l → ∀ c,
  reading c → forallb is_term l = true → resolved (NList l) →
  ∃ l', mutate_list my_mutator l (h, c) = Ok (l', (h, add_tests (term_vars (NList l)) c)) ∧
    Forall2 same_term l l'.
Proof.
  induction 1 as [|x l Hx _ IH]; intros c Hr Ht Hres.
  - exists []. cbn. by rewrite add_tests_nil.
  - cbn in Ht. apply andb_true_iff in Ht as [Htx Ht]. unfold resolved in Hres. cbn in Hres.
    apply Forall_app in Hres as [Hrx Hrl].
    destruct (Hx c Hr Htx Hrx) as (x' & Ex & Hsx).
    destruct (IH (add_tests (term_vars x) c)) as (l' & El & Hsl); [done..|].
    exists (x' :: l'). cbn. erewrite bind_Ok by exact Ex. erewrite bind_Ok by exact El.
    rewrite add_tests_app. split; [done|]. by constructor.
Qed.

Lemma mutate_term n : term_mutates n ∧ ∀ l, n = NList l → Forall term_mutates l.
Proof.
  induction n using node_ind'; destruct_and?; (split; [|intros l' [=]; subst; try done]).
  all: try (intros c Hr Ht; done).
  - intros c Hr _ Hres. apply Forall_cons in Hres as [[k Hk] _].
    destruct (mutate_var_ok v c k Hr Hk) as (v' & Ev & Hs). exists (Var v'). split; [|done].
    cbn. destruct Hr as (-> & _). by erewrite bind_Ok by exact Ev.
  - intros k Hr _ _. exists (Const c). cbn. rewrite add_tests_nil. split; [done|]. by intros e.
  - intros c Hr Ht Hres. destruct n; try done. cbn in Ht. apply bool_nonempty in Ht as [Hne Ht].
    destruct (mutate_terms elements (H0 _ eq_refl) c Hr Ht Hres) as (l' & El & Hs).
    exists (FuncExpr f (NList l')). cbn. rewrite bind_assoc. erewrite bind_Ok by exact El. split.
    + unfold ret, bind. rewrite of_list_ne; [done|]. intros ->. apply Forall2_nil_inv_r in Hs. done.
    + intros e. rewrite !eval_term_func. by rewrite (same_terms e _ _ Hs).
  - intros c Hr Ht Hres. destruct (H c Hr Ht Hres) as (n' & E & Hs). exists (RelabelType t n').
    cbn. erewrite bind_Ok by exact E. split; [done|]. exact Hs.
  - eapply Forall_impl; [exact H|]. naive_solver.
Qed.

(** ** Completions *)

(** [e'] gives a value to (some of) the nulls of [e]. *)
Definition completes (e e' : env) : Prop := ∀ lv no att z, e lv no att = Some z → e' lv no att = Some z.

Lemma completes_look e e' vs : completes e e' → Forall (λ v, look e v ≠ None) vs → Forall (λ v, look e' v = look e v) vs.
Proof.
  intros Hc Hv. eapply Forall_impl; [exact Hv|]. intros v Hn. cbn in Hn. destruct (look e v) as [z|] eqn:E; [|done].
  by apply Hc.
Qed.

Lemma complete_terms e e' args : completes e e' → forallb is_term args = true →
  Forall (λ v, look e v ≠ None) (term_vars (NList args)) → eval_terms e' args = eval_terms e args.
Proof. intros Hc Ht Hv. apply look_terms; [done|]. by apply completes_look. Qed.

Lemma null_test_true e v : look e v = None → eval (null_test v) e = TT.
Proof. intros Hn. cbn. unfold look in *. cbn. by rewrite Hn. Qed.

(** A comparison with the tests before it. *)
Definition with_alternatives (tests : list node) (n : node) : node :=
  match tests with [] => n | _ => BoolExpr OR_EXPR (NList (tests ++ [n])) (-1) end.

Lemma alternative_true tests n e : eval n e = TT ∨ TT ∈ evals tests e → eval (with_alternatives tests n) e = TT.
Proof.
  intros [HT|Htest]; destruct tests as [|t ts]; [done| |by apply elem_of_nil in Htest|];
    apply or3_list_TT, list_elem_of_fmap.
  - exists n. split; [done|]. rewrite elem_of_app. right. constructor.
  - apply list_elem_of_fmap in Htest as (m & Hm & Hin). exists m. split; [done|]. rewrite elem_of_app. by left.
Qed.

Lemma alternative_false tests n e : eval (with_alternatives tests n) e = FF → eval n e = FF.
Proof.
  destruct tests as [|t ts]; [done|]. cbn [with_alternatives eval]. rewrite or3_list_FF, Forall_fmap, Forall_app.
  by intros [_ [? _]%Forall_cons].
Qed.

(** The rewritten comparison is true wherever the comparison can become true. *)
Lemma tests_complete e e' o args args' :
  completes e e' → forallb is_term args = true → Forall2 same_term args args' →
  Forall (λ v, key_in st nks v = true → look e v ≠ None) (term_vars (NList args)) →
  eval (OpExpr o (NList args)) e' = TT →
  eval (OpExpr o (NList args')) e = TT ∨ TT ∈ evals (null_tests st nks (term_vars (NList args))) e.
Proof.
  intros Hc Ht Hs Hnn HT.
  destruct (decide (Forall (λ v, look e v ≠ None) (term_vars (NList args)))) as [Hall|Hex].
  - left. rewrite <- HT. cbn [eval]. rewrite (same_terms e _ _ Hs).
    by rewrite (complete_terms e e' args).
  - right. apply not_Forall_Exists in Hex; [|apply _]. apply Exists_exists in Hex as (v & Hv & Hn).
    assert (look e v = None) as Hn' by (destruct (look e v) eqn:E; [|done]; exfalso; apply Hn; by rewrite E).
    rewrite Forall_forall in Hnn. unfold evals, null_tests. rewrite map_map.
    apply list_elem_of_fmap. exists v. split; [symmetry; by apply null_test_true|].
    apply list_elem_of_In. apply filter_In. split; [by apply list_elem_of_In|].
    destruct (key_in st nks v) eqn:Ek; [|done]. by destruct (Hnn v Hv Ek).
Qed.

(** The result of mutating a comparison under a negation. *)
Lemma mutate_negative_op o args c :
  scopes P h (m_current_trueVar c) st → var_list h (m_list_of_not_null_in_current c) ncs nks →
  m_positive c = false → m_constraint_to_add c = [] → rewritten_op (opno o) = true →
  args ≠ [] → forallb is_term args = true → resolved (NList args) →
  ∃ args' b, Forall2 same_term args args' ∧
    my_mutator (OpExpr o (NList args)) (h, c) =
      Ok (with_alternatives (null_tests st nks (term_vars (NList args))) (OpExpr o (NList args')),
          (h, m_set_ready b c)).
Proof.
  intros Hsc Hnn Hp Hcs Ho Hne Ht Hres.
  assert (reading (m_set_ready true c)) as Hr by done.
  destruct (mutate_terms args (proj2 (mutate_term (NList args)) _ eq_refl) _ Hr Ht Hres) as (args' & El & Hs).
  cbn [my_mutator]. unfold mutate_op. erewrite bind_Ok by reflexivity. cbn beta. rewrite Hp, Ho. cbn [negb andb].
  erewrite bind_Ok.
  2: { cbn. rewrite bind_assoc. erewrite bind_Ok by exact El. unfold ret, bind.
       rewrite of_list_ne; [reflexivity|]. intros ->. by apply Forall2_nil_inv_r in Hs. }
  erewrite bind_Ok by reflexivity. cbn [add_tests m_set_constraint m_constraint_to_add m_set_ready m_positive].
  rewrite Hcs, Hp. cbn [app negb]. destruct (null_tests _ _ _) as [|t ts] eqn:En.
  - exists args', true. split; [exact Hs|]. unfold add_tests, ret. rewrite En. do 3 f_equal.
    destruct c; cbn in *. by rewrite Hcs.
  - exists args', false. split; [exact Hs|]. unfold bind, ret, modc. cbn. do 3 f_equal. destruct c; cbn in *. by rewrite Hcs.
Qed.
End Neg.

(** ** Properties *)

(** C6: under a negation, with no constraint pending, the mutator returns on every comparison
    of terms in scope with one of the operators it rewrites ([rewritten_op]).  The result is
    true in every environment [e] in which some completion of the nulls makes the comparison
    true, provided that the variables of the comparison whose columns are in the mutator's
    list of columns that are not null have a value in [e]. *)
Theorem negative_comparison_possible {B : Build} {I : Interp}
    P h st nks ncs c o args :
  heap_ok h → scopes P h (m_current_trueVar c) st →
  var_list h (m_list_of_not_null_in_current c) ncs nks →
  m_positive c = false → m_constraint_to_add c = [] → rewritten_op (opno o) = true →
  args ≠ [] → forallb is_term args = true → resolved st (NList args) →
  ∃ n' s', my_mutator (OpExpr o (NList args)) (h, c) = Ok (n', s') ∧
    ∀ e e', completes e e' →
      Forall (λ v, key_in st nks v = true → look e v ≠ None) (term_vars (NList args)) →
      eval (OpExpr o (NList args)) e' = TT → eval n' e = TT.
Proof.
  intros Hok Hsc Hnn Hp Hcs Ho Hne Ht Hres.
  destruct (mutate_negative_op P h st nks ncs Hok o args c) as (args' & b & Hs & E); [done..|].
  eexists _, _. split; [exact E|]. intros e e' Hc Hval HT. apply alternative_true.
  by apply (tests_complete st nks e e' o args args').
Qed.

(** A heap with the scope of a query over relation 20, of which the walker knows one
    column. *)
Definition sample_heap : heap := mkHeap (list_to_map [
  (1%positive, ONode (Var (mkVar 0 1 20 0 0 0 0 0 0)));
  (2%positive, OCell (mkCell (DPtr (Some 1%positive)) None));
  (3%positive, OList (mkHdr T_List 1 (Some 2%positive) (Some 2%positive)));
  (4%positive, OCell (mkCell (DPtr None) (Some 5%positive)));
  (5%positive, OCell (mkCell (DPtr (Some 3%positive)) None));
  (6%positive, OList (mkHdr T_List 2 (Some 4%positive) (Some 5%positive)))]) 7.

Definition sample_modifier : context_modifier :=
  mkModifierCtx false false [] None (Some 6%positive) None None None 0 0.

Lemma sample_heap_ok : heap_ok sample_heap.
Proof.
  assert (map_Forall (λ l _, (l < 7)%positive) (h_objs sample_heap)) as H.
  { apply (bool_decide_unpack _). vm_compute. exact Logic.I. }
  intros l o Hl. exact (H l o Hl).
Qed.

Lemma sample_scopes : scopes (λ _, True) sample_heap (Some 6%positive) [[[(20, 1)]]].
Proof.
  exists [(4%positive, DPtr None); (5%positive, DPtr (Some 3%positive))], None, [Some 3%positive].
  split. { split; [done|]. split; [reflexivity|]. cbn. eauto 10. }
  split; [done|]. split; [done|]. split; [done|]. constructor; [|constructor].
  exists [(2%positive, DPtr (Some 1%positive))]. split; [|done]. split.
  { split; [done|]. split; [reflexivity|]. cbn. eauto 10. }
  exists [Some 1%positive]. split; [done|].
  split; [|reflexivity]. constructor; [|constructor]. split; [|done]. exists 1%positive. done.
Qed.

(** The sample: "x = 1" over a nullable column, with equality 98. *)
Lemma negative_comparison_possible_witness :
  ∃ n' s', my_mutator (B := with_asserts) (cmp 98 (col 0 1 1) (lit 1)) (sample_heap, sample_modifier) = Ok (n', s') ∧
    ∀ e e', completes e e' →
      Forall (λ v, key_in [[[(20, 1)]]] [] v = true → look e v ≠ None) (term_vars (NList [col 0 1 1; lit 1])) →
      eval (I := sample_interp) (cmp 98 (col 0 1 1) (lit 1)) e' = TT → eval (I := sample_interp) n' e = TT.
Proof.
  apply (negative_comparison_possible (B := with_asserts) (I := sample_interp) (λ _, True) sample_heap
    [[[(20, 1)]]] [] []); try reflexivity.
  - exact sample_heap_ok.
  - exact sample_scopes.
  - split; [done|]. by exists [].
  - done.
  - repeat constructor. by exists (20, 1).
Defined.
