(* ===== verification/NotNull.v ===== *)
(** What the walker is meant to collect, and why it is right.

    [collect] gives, for a condition, the columns that cannot be null when it is
    true and those that cannot be null when it is false, computed as the walker
    does: the distinct columns of a comparison, the union or the intersection (by
    counting) for AND and OR, the two lists exchanged for NOT.  The theorem says
    that this is sound in three-valued logic. *)

From S2P Require Import Prelude Nodes Terms PgList ListSets TrueVar TrueVarSpec Semantics SplitProps Mutators CoddProps CoddNeg Samples.

(** ** Unions and intersections of keys *)

Lemma union_keys_elem ks k : k ∈ union_keys ks ↔ k ∈ ks.
Proof. unfold union_keys. rewrite (union_spec_elem _ key_eqb_true). set_solver. Qed.

Lemma union_keys_NoDup ks : NoDup (union_keys ks).
Proof. apply (union_spec_NoDup _ key_eqb_true). constructor. Qed.

(** The loop of [inter_list] for any test. *)
Lemma select_keys (f : key → bool) ks : ∀ acc, NoDup acc →
  let r := fold_left (λ acc k, if f k && negb (memb key_eqb acc k) then acc ++ [k] else acc) ks acc in
  NoDup r ∧ ∀ k, k ∈ r ↔ k ∈ acc ∨ k ∈ ks ∧ f k = true.
Proof.
  induction ks as [|k0 ks IH]; intros acc Hnd; cbn; [split; [done|]; set_solver|].
  destruct (f k0 && negb (memb key_eqb acc k0)) eqn:E.
  - apply andb_true_iff in E as [Hf Hm%negb_true_iff].
    assert (k0 ∉ acc) as Hnin by (intros H%(memb_true _ key_eqb_true); congruence).
    destruct (IH (acc ++ [k0])) as [Hnd' Hin].
    { apply NoDup_app. split; [done|]. split; [|apply NoDup_singleton].
      intros x Hx Hx'%list_elem_of_singleton. by subst. }
    split; [done|]. intros k. rewrite Hin, elem_of_app, list_elem_of_singleton, elem_of_cons. naive_solver.
  - destruct (IH acc Hnd) as [Hnd' Hin]. split; [done|]. intros k. rewrite Hin, elem_of_cons.
    split; [naive_solver|]. intros [?|[[->|?] Hf]]; [auto| |auto].
    rewrite Hf in E. cbn in E. apply negb_false_iff, (memb_true _ key_eqb_true) in E. auto.
Qed.

Lemma inter_keys_elem n ks k : k ∈ inter_keys n ks ↔ k ∈ ks ∧ count_key ks k = n.
Proof.
  destruct (select_keys (λ k, count_key ks k =? n) ks []) as [_ H]; [constructor|].
  rewrite (H k), Z.eqb_eq. set_solver.
Qed.

Lemma inter_keys_NoDup n ks : NoDup (inter_keys n ks).
Proof. apply (select_keys (λ k, count_key ks k =? n) ks []). constructor. Qed.

Lemma count_key_app ks ks' k : count_key (ks ++ ks') k = count_key ks k + count_key ks' k.
Proof. unfold count_key. rewrite List.filter_app, length_app. lia. Qed.

Lemma count_key_0 ks k : k ∉ ks → count_key ks k = 0.
Proof.
  unfold count_key. induction ks as [|k' ks IH]; [done|]. rewrite not_elem_of_cons. intros [Hne Hn]. cbn.
  unfold key_eqb at 1. rewrite bool_decide_eq_false_2 by done. auto.
Qed.

Lemma count_key_NoDup ks k : NoDup ks → count_key ks k = if bool_decide (k ∈ ks) then 1 else 0.
Proof.
  intros Hnd. case_bool_decide as Hin; [|by apply count_key_0].
  apply list_elem_of_split in Hin as (l1 & l2 & ->). apply NoDup_app in Hnd as (_ & H1 & [H2 _]%NoDup_cons).
  rewrite count_key_app, count_key_cons. unfold key_eqb. rewrite bool_decide_eq_true_2 by done.
  rewrite count_key_0, count_key_0; [done|done|]. intros Hk. apply (H1 k Hk). constructor.
Qed.

(** Counting in a concatenation of duplicate-free lists: a key that occurs as many
    times as there are lists is in each. *)
Lemma count_all (kss : list (list key)) k :
  Forall NoDup kss →
  0 ≤ count_key (concat kss) k ≤ Z.of_nat (length kss) ∧
  (count_key (concat kss) k = Z.of_nat (length kss) → Forall (λ ks, k ∈ ks) kss).
Proof.
  induction 1 as [|ks kss Hnd _ IH]; cbn [concat length]; [done|].
  rewrite count_key_app, count_key_NoDup by done. destruct IH as [Hb Hall].
  case_bool_decide; (split; [lia|]); intros Heq; [|lia]. constructor; [done|]. apply Hall. lia.
Qed.

(** ** Collecting *)

Definition op_keys (st : list (list (list key))) (args : list node) : list key :=
  omap (resolve st) (term_vars (NList args)).

(** The two lists of a connective from those of its arguments. *)
Definition combine_keys (b : BoolExprType) (n : Z) (T F : list key) : list key * list key :=
  match b with
  | NOT_EXPR => (F, T)
  | AND_EXPR => (union_keys T, inter_keys n F)
  | OR_EXPR => (inter_keys n T, union_keys F)
  end.

(** The scope of a range table of plain relations: the columns of each entry. *)
Fixpoint columns (n : nat) (relid i : Z) : list key :=
  match n with O => [] | S n => (relid, i) :: columns n relid (i + 1) end.

Definition rel_columns {C : SysCache} (relid : Z) : list key :=
  columns (Z.to_nat (get_relnatts relid)) relid 1.

Definition entry_relid (n : node) : Z :=
  match n with RangeTblEntry r _ => relid r | _ => 0 end.

Definition scope_of {C : SysCache} (rtable : list node) : list (list key) :=
  map (λ n, rel_columns (entry_relid n)) rtable.

(** The columns of an EXISTS are those of its condition, in the scope of its query. *)
Fixpoint collect {C : SysCache} (st : list (list (list key))) (n : node) : list key * list key :=
  match n with
  | OpExpr _ (NList args) => (union_keys (op_keys st args), [])
  | BoolExpr b (NList args) _ =>
      combine_keys b (Z.of_nat (length args))
        (concat (map (λ x, (collect st x).1) args)) (concat (map (λ x, (collect st x).2) args))
  | SubLink _ _ (Query _ (NList rtable) (FromExpr _ quals) _) => collect (scope_of rtable :: st) quals
  | _ => ([], [])
  end.

(** The conditions that the walker is described on: comparisons of terms, and
    connectives (NOT with one argument). *)
Fixpoint walkable (n : node) : bool :=
  match n with
  | OpExpr _ (NList args) => match args with [] => false | _ => forallb is_term args end
  | BoolExpr b (NList args) _ =>
      match args with
      | [] => false
      | _ => (if bool_decide (b = NOT_EXPR) then (length args =? 1)%nat else true) && forallb walkable args
      end
  | _ => false
  end.

Lemma walkable_ind (P : node → Prop) :
  (∀ o args, args ≠ [] → forallb is_term args = true → P (OpExpr o (NList args))) →
  (∀ b args loc, args ≠ [] → (b = NOT_EXPR → ∃ x, args = [x]) →
     Forall (λ x, walkable x = true) args → Forall P args → P (BoolExpr b (NList args) loc)) →
  ∀ n, walkable n = true → P n.
Proof.
  intros Hop Hbool n.
  enough (∀ n, (walkable n = true → P n) ∧ ∀ l, n = NList l → Forall (λ x, walkable x = true → P x) l) as H
    by apply H.
  clear n. induction n using node_ind'; (split; [|intros l' [=]; subst]); try done.
  - destruct n; try done. intros [Hne Ht]%bool_nonempty. by apply Hop.
  - destruct n; try done. intros [Hne Hw]%bool_nonempty. apply andb_true_iff in Hw as [Hn Hw].
    assert (Forall (λ x, walkable x = true) elements) as Hsp by (by apply forallb_Forall).
    apply Hbool; [done| |done|].
    + intros ->. rewrite bool_decide_eq_true_2 in Hn by done. apply Nat.eqb_eq in Hn.
      destruct elements as [|x [|]]; try done. by exists x.
    + destruct IHn as [_ IHl]. specialize (IHl _ eq_refl).
      eapply Forall_impl; [apply Forall_and; split; [exact IHl|exact Hsp]|]. naive_solver.
  - eapply Forall_impl; [exact H|]. naive_solver.
Qed.

Lemma collect_NoDup {C : SysCache} st n : walkable n = true → NoDup (collect st n).1 ∧ NoDup (collect st n).2.
Proof.
  revert n. apply walkable_ind.
  - intros o args _ _. cbn. split; [apply union_keys_NoDup|constructor].
  - intros b args loc Hne Hn _ IH. destruct b; cbn.
    + split; [apply union_keys_NoDup|apply inter_keys_NoDup].
    + split; [apply inter_keys_NoDup|apply union_keys_NoDup].
    + destruct (Hn eq_refl) as [x ->]. apply Forall_cons in IH as [[H1 H2] _]. cbn. by rewrite !app_nil_r.
Qed.

(** ** Soundness *)

(** An operator that is true or false has all its variables. *)
Lemma strict_vars {I : Interp} (e : env) o args v :
  forallb is_term args = true → eval (OpExpr o (NList args)) e ≠ UU → v ∈ term_vars (NList args) → look e v ≠ None.
Proof.
  intros Ht Hev Hv. cbn [eval] in Hev. destruct (eval_terms e args) as [vs|] eqn:E; [|done]. clear Hev.
  assert (∀ n, (is_term n = true → v ∈ term_vars n → eval_term e n ≠ None → look e v ≠ None) ∧
    ∀ l, n = NList l → forallb is_term l = true → v ∈ term_vars n → eval_terms e l ≠ None → look e v ≠ None) as Hn.
  { induction n using node_ind'; (split; [|intros l' [=]; subst; try done]); try done.
    - intros _ ->%list_elem_of_singleton. done.
    - by intros _ ?%elem_of_nil.
    - destruct n; try done. intros [_ Hta]%bool_nonempty Hin. rewrite eval_term_func.
      destruct (eval_terms e elements) eqn:Ea; [|done]. intros _.
      destruct IHn as [_ IHl]. eapply IHl; [done|done|done|by rewrite Ea].
    - apply IHn.
    - intros Hta Hin. induction H as [|x l Hx _ IH]; [by apply elem_of_nil in Hin|].
      cbn in Hta. apply andb_true_iff in Hta as [Hx1 Hta]. cbn in Hin |- *.
      destruct (eval_term e x) eqn:Ex; [|done]. fold (eval_terms e l).
      apply elem_of_app in Hin as [Hin|Hin]; [intros _; by apply (proj1 Hx Hx1 Hin)|].
      cbn. destruct (eval_terms e l) eqn:El; [|done]. intros _. by apply (IH Hta Hin). }
  destruct (Hn (NList args)) as [_ H]. eapply H; [done|done|done|by rewrite E].
Qed.

Section Sound.
Context {C : SysCache} {I : Interp} (st : list (list (list key))) (rho : key → option Z) (e : env).

(** The value of a variable is the value of its column: no relation occurs twice. *)
Hypothesis Henv : ∀ v k, resolve st v = Some k → look e v = rho k.

Lemma strict_op o args k :
  forallb is_term args = true → eval (OpExpr o (NList args)) e ≠ UU → k ∈ op_keys st args → rho k ≠ None.
Proof.
  intros Ht Hev (v & Hv & Hk)%list_elem_of_omap. rewrite <- (Henv v k Hk). by eapply strict_vars.
Qed.

(** Membership in a union or an intersection of the children's lists. *)
Lemma concat_map_elem (f : node → list key) args k : k ∈ concat (map f args) ↔ ∃ x, x ∈ args ∧ k ∈ f x.
Proof.
  induction args as [|x args IH]; cbn; [split; [by intros ?%elem_of_nil|by intros (? & ?%elem_of_nil & _)]|].
  rewrite elem_of_app, IH. setoid_rewrite elem_of_cons. naive_solver.
Qed.

Lemma inter_map_elem (f : node → list key) args k :
  Forall (λ x, NoDup (f x)) args → k ∈ inter_keys (Z.of_nat (length args)) (concat (map f args)) →
  ∀ x, x ∈ args → k ∈ f x.
Proof.
  intros Hnd [_ Hc]%inter_keys_elem x Hx. destruct (count_all (map f args) k) as [_ H].
  { by apply Forall_fmap. }
  rewrite length_map in H. specialize (H Hc). rewrite Forall_forall in H.
  apply (H (f x)). apply list_elem_of_fmap. by exists x.
Qed.

Definition sound (n : node) : Prop :=
  (eval n e = TT → ∀ k, k ∈ (collect st n).1 → rho k ≠ None) ∧
  (eval n e = FF → ∀ k, k ∈ (collect st n).2 → rho k ≠ None).

Lemma Forall_map_elem (f : node → tri) t args x : Forall (eq t) (map f args) → x ∈ args → f x = t.
Proof. rewrite Forall_forall. intros H Hx. symmetry. apply H, list_elem_of_fmap. by exists x. Qed.

Lemma collect_sound n : walkable n = true → sound n.
Proof.
  intros Hw. revert n Hw. apply walkable_ind.
  - intros o args Hne Ht. split; [|by intros _ k ?%elem_of_nil].
    intros HT k Hk. cbn [collect fst] in Hk. rewrite union_keys_elem in Hk. eapply strict_op; [done|by rewrite HT|done].
  - intros b args loc Hne Hn Hw IH.
    assert (Forall (λ x, NoDup (collect st x).1) args ∧ Forall (λ x, NoDup (collect st x).2) args) as [Hd1 Hd2].
    { split; (eapply Forall_impl; [exact Hw|]); intros x Hx; by apply collect_NoDup. }
    rewrite Forall_forall in IH. unfold sound. destruct b; cbn [collect combine_keys]; (split; cbn [fst snd]; intros HT k Hk).
    + rewrite union_keys_elem in Hk; apply concat_map_elem in Hk as (x & Hx & Hk). apply (proj1 (IH x Hx)); [|done].
      apply and3_list_TT in HT. exact (Forall_map_elem _ _ _ _ HT Hx).
    + cbn in HT. apply and3_list_FF, list_elem_of_fmap in HT as (x & HF & Hx).
      apply (proj2 (IH x Hx)); [done|]. eapply (inter_map_elem (λ x, (collect st x).2)); done.
    + cbn in HT. apply or3_list_TT, list_elem_of_fmap in HT as (x & HF & Hx).
      apply (proj1 (IH x Hx)); [done|]. eapply (inter_map_elem (λ x, (collect st x).1)); done.
    + rewrite union_keys_elem in Hk; apply concat_map_elem in Hk as (x & Hx & Hk). apply (proj2 (IH x Hx)); [|done].
      apply or3_list_FF in HT. exact (Forall_map_elem _ _ _ _ HT Hx).
    + destruct (Hn eq_refl) as [x ->]. cbn in HT, Hk. rewrite app_nil_r in Hk.
      destruct (IH x) as [_ H]; [constructor|]. apply H; [|done]. by destruct (eval x e).
    + destruct (Hn eq_refl) as [x ->]. cbn in HT, Hk. rewrite app_nil_r in Hk.
      destruct (IH x) as [H _]; [constructor|]. apply H; [|done]. by destruct (eval x e).
Qed.
End Sound.
