(* ===== verification/Regions.v ===== *)
(** Heap lists that do not overlap.

    A context of the hooks holds several lists at once; their routines change one and
    must leave the others alone.  [tsep] keeps a list of heap lists, each with its tag,
    apart from each other and from a region [P]. *)

From S2P Require Import Prelude Nodes PgList ListSpec ListOps.

Definition hlist : Type := option positive * cells.

Definition fp (l : hlist) : list positive := footprint l.1 l.2.

Fixpoint pairwise (ls : list hlist) : Prop :=
  match ls with
  | [] => True
  | l :: ls => Forall (λ l', fp l ## fp l') ls ∧ pairwise ls
  end.

(** The region [P] did not change. *)
Definition same (P : positive → Prop) (h h' : heap) : Prop :=
  ∀ x, P x → h_objs h' !! x = h_objs h !! x.

Lemma same_refl P h : same P h h.
Proof. done. Qed.

Lemma same_trans P h1 h2 h3 : same P h1 h2 → same P h2 h3 → same P h1 h3.
Proof. intros H1 H2 x Hx. by rewrite H2, H1. Qed.

Lemma pairwise_perm ls ls' : ls ≡ₚ ls' → pairwise ls → pairwise ls'.
Proof.
  induction 1 as [|l ls ls' Hp IH|l l' ls|ls1 ls2 ls3 _ IH1 _ IH2]; cbn; auto.
  - intros [Hl Hls]. split; [by rewrite <- Hp|auto].
  - intros [[Hll Hl]%Forall_cons [Hl' Hls]]. split; [constructor; [intros x Hx Hx'; by apply (Hll x)|done]|by split].
Qed.

(** Lists with their tags. *)
Definition tlist : Type := NodeTag * hlist.

Definition tsep (P : positive → Prop) (h : heap) (ls : list tlist) : Prop :=
  heap_ok h ∧ (∀ x, P x → (x < h_brk h)%positive) ∧
  Forall (λ l, is_list h l.1 l.2.1 l.2.2 ∧ ∀ x, x ∈ fp l.2 → ¬ P x) ls ∧ pairwise ls.*2.

Lemma tsep_perm P h ls ls' : ls ≡ₚ ls' → tsep P h ls → tsep P h ls'.
Proof.
  intros Hp (? & ? & Hl & Hpw). split_and!; [done|done|by rewrite <- Hp|].
  eapply pairwise_perm; [|done]. by rewrite Hp.
Qed.

Lemma tsep_drop P h l ls : tsep P h (l :: ls) → tsep P h ls.
Proof. intros (? & ? & [_ ?]%Forall_cons & [_ ?]). done. Qed.

Lemma tsep_nil P h t ls : tsep P h ls → tsep P h ((t, (None, [])) :: ls).
Proof.
  intros (? & ? & ? & ?). split_and!; [done|done| |].
  - constructor; [|done]. split; [done|]. by intros x ?%elem_of_nil.
  - split; [|done]. apply Forall_forall. by intros l' _ x ?%elem_of_nil.
Qed.

Lemma tsep_elem P h l ls : tsep P h ls → l ∈ ls → is_list h l.1 l.2.1 l.2.2.
Proof. intros (_ & _ & Hl & _) Hin. rewrite Forall_forall in Hl. by apply Hl. Qed.

Lemma tsep_fp_bound P h l ls x : tsep P h ls → l ∈ ls.*2 → x ∈ fp l → (x < h_brk h)%positive.
Proof.
  intros Hs ((t & ?) & -> & Hin)%list_elem_of_fmap Hx. pose proof (tsep_elem _ _ _ _ Hs Hin) as Hl.
  destruct Hs as (Hok & _). by eapply is_list_bound.
Qed.

(** Changing the first list. *)
Lemma tsep_step P h t p cs R h' p' cs' :
  tsep P h ((t, (p, cs)) :: R) → list_step h p cs h' t p' cs' →
  tsep P h' ((t, (p', cs')) :: R) ∧ same P h h'.
Proof.
  intros Hs (Hl' & Hok' & [Hb Hf] & Hfp). pose proof Hs as (Hok & HP & [[Hl HnP] HR]%Forall_cons & Hpw0).
  rewrite fmap_cons in Hpw0. destruct Hpw0 as [Hd Hpw]. cbn [snd] in Hd. assert (same P h h') as Hsame.
  { intros x Hx. apply Hf; [auto|]. intros Hin. by apply (HnP x). }
  split; [|done]. split_and!; [done| | |].
  - intros x Hx. specialize (HP x Hx). lia.
  - constructor.
    + split; [done|]. intros x Hx HPx. destruct (Hfp x Hx) as [Hx'|Hx']; [by apply (HnP x)|].
      specialize (HP x HPx). lia.
    + rewrite Forall_forall in HR |- *. rewrite Forall_forall in Hd. intros l Hin. destruct (HR l Hin) as [Hll Hn]. split; [|done].
      eapply is_list_frame; [exact Hok|split; [exact Hb|exact Hf]| |done].
      intros x Hx Hx'. apply (Hd l.2) with x; [|done..]. apply list_elem_of_fmap. by exists l.
  - split; [|done]. rewrite Forall_forall in Hd |- *. intros l Hin x Hx Hx'.
    destruct (Hfp x Hx) as [Hx0|Hx0]; [by apply (Hd l Hin x)|].
    assert (x < h_brk h)%positive; [|lia]. eapply tsep_fp_bound; [exact Hs|by right|done].
Qed.

Section Ops.
Context {B : Build}.

(** Concatenating the first two lists; the second can still be read. *)
Lemma tsep_concat P h t p1 cs1 p2 cs2 R :
  tsep P h ((t, (p1, cs1)) :: (t, (p2, cs2)) :: R) →
  ∃ p h', list_concat p1 p2 h = Ok (p, h') ∧ tsep P h' ((t, (p, cs1 ++ cs2)) :: R) ∧ same P h h' ∧ is_list h' t p2 cs2.
Proof.
  intros Hs. pose proof Hs as (Hok & HP & [[Hl1 Hn1] [[Hl2 Hn2] HR]%Forall_cons]%Forall_cons & Hpw0).
  rewrite !fmap_cons in Hpw0. destruct Hpw0 as [[H12 Hd1]%Forall_cons [Hd2 Hpw]]. cbn [snd] in *.
  destruct (list_concat_ok h t p1 cs1 p2 cs2) as (p & h' & E & Hl & Hl2' & Hok' & Hfr & Hb & Hp); [done..|].
  assert (∀ x, x ∈ fp (p, cs1 ++ cs2) → x ∈ fp (p1, cs1) ∨ x ∈ fp (p2, cs2)) as Hfp.
  { intros x. unfold fp. cbn. rewrite !elem_footprint, elem_cells_app. subst p. destruct p1; naive_solver. }
  assert (same P h h') as Hsame.
  { intros x Hx. apply Hfr; [auto|]. intros Hin. by apply (Hn1 x). }
  exists p, h'. split; [done|]. split; [|done]. split_and!; [done| | |].
  - intros x Hx. rewrite Hb. auto.
  - constructor; [split; [done|]; intros x [?|?]%Hfp; [by apply Hn1|by apply Hn2]|].
    rewrite Forall_forall in HR |- *. rewrite Forall_forall in Hd1. intros l Hin. destruct (HR l Hin) as [Hll Hn]. split; [|done].
    eapply is_list_frame; [exact Hok|exact Hfr| |done]. intros x Hx Hx'.
    apply (Hd1 l.2) with x; [|done..]. apply list_elem_of_fmap. by exists l.
  - split; [|done]. rewrite Forall_forall in Hd1, Hd2 |- *.
    intros l Hin x [Hx|Hx]%Hfp Hx'; [by apply (Hd1 l Hin x)|by apply (Hd2 l Hin x)].
Qed.
End Ops.
