(* ===== verification/WalkerSpec.v ===== *)
(** The steps of the walker of certain_answer_codd.c: terms and comparisons, and what
    entering and leaving a connective does to the lists of the context.

    The lists of the context are kept apart by [sep], the separation of [Regions] for
    lists of pointers; the scopes and the true variables live in a region [P] that
    none of the lists overlaps, so that it never changes. *)

From S2P Require Import Prelude Nodes Terms PgList ListSpec ListOps ListSets TrueVar TrueVarSpec.
From S2P Require Import Regions Walker Codd Semantics SplitProps Mutators CoddProps CoddNeg NotNull Samples.

(** ** Separated lists *)

Definition sep (P : positive → Prop) (h : heap) (ls : list hlist) : Prop :=
  heap_ok h ∧ (∀ x, P x → (x < h_brk h)%positive) ∧
  Forall (λ l, is_list h T_List l.1 l.2 ∧ ∀ x, x ∈ fp l → ¬ P x) ls ∧ pairwise ls.

Lemma sep_tagged P h ls : sep P h ls ↔ tsep P h (pair T_List <$> ls).
Proof.
  unfold sep, tsep. rewrite Forall_fmap. replace ((pair T_List <$> ls).*2) with ls; [done|].
  induction ls as [|l ls IH]; [done|]. rewrite !fmap_cons. by f_equal.
Qed.

Lemma sep_perm P h ls ls' : ls ≡ₚ ls' → sep P h ls → sep P h ls'.
Proof. intros Hp (? & ? & Hl & Hpw). split_and!; [done|done|by rewrite <- Hp|by eapply pairwise_perm]. Qed.

Lemma sep_drop P h l ls : sep P h (l :: ls) → sep P h ls.
Proof. intros (? & ? & [_ ?]%Forall_cons & [_ ?]). done. Qed.

Lemma sep_nil P h ls : sep P h ls → sep P h ((None, []) :: ls).
Proof.
  intros (? & ? & ? & ?). split_and!; [done|done| |].
  - constructor; [|done]. split; [done|]. by intros x ?%elem_of_nil.
  - split; [|done]. apply Forall_forall. by intros l' _ x ?%elem_of_nil.
Qed.

Lemma sep_heap_ok P h ls : sep P h ls → heap_ok h.
Proof. by intros (? & _). Qed.

Lemma sep_head P h l ls : sep P h (l :: ls) → is_list h T_List l.1 l.2.
Proof. by intros (_ & _ & [[? _] _]%Forall_cons & _). Qed.

Lemma sep_fp_bound P h l ls x : sep P h ls → l ∈ ls → x ∈ fp l → (x < h_brk h)%positive.
Proof.
  intros (Hok & _ & Hl & _) Hin Hx. rewrite Forall_forall in Hl. destruct (Hl l Hin) as [? _].
  by eapply is_list_bound.
Qed.

(** Changing the first list. *)
Lemma sep_step P h p cs R h' p' cs' :
  sep P h ((p, cs) :: R) → list_step h p cs h' T_List p' cs' →
  sep P h' ((p', cs') :: R) ∧ same P h h'.
Proof.
  rewrite !sep_tagged, !fmap_cons. apply (tsep_step P h T_List p cs (pair T_List <$> R)).
Qed.

Lemma sep_new P h R h' p' cs' :
  sep P h R → list_step h None [] h' T_List p' cs' → sep P h' ((p', cs') :: R) ∧ same P h h'.
Proof. intros Hs. apply sep_step. by apply sep_nil. Qed.

Section Ops.
Context {B : Build}.

Lemma sep_lappend P h p cs R x :
  sep P h ((p, cs) :: R) →
  ∃ p' l h', lappend p x h = Ok (p', h') ∧ sep P h' ((p', cs ++ [(l, DPtr x)]) :: R) ∧ same P h h'.
Proof.
  intros Hs. destruct (lappend_gen_ok h T_List p cs (DPtr x)) as (p' & l & h' & E & Hst & _).
  { by eapply sep_heap_ok. }
  { by eapply (sep_head P h (p, cs)). }
  destruct (sep_step _ _ _ _ _ _ _ _ Hs Hst). eauto 10.
Qed.

(** Concatenating the first two lists. *)
Lemma sep_concat P h p1 cs1 p2 cs2 R :
  sep P h ((p1, cs1) :: (p2, cs2) :: R) →
  ∃ p h', list_concat p1 p2 h = Ok (p, h') ∧ sep P h' ((p, cs1 ++ cs2) :: R) ∧ same P h h'.
Proof.
  intros Hs%sep_tagged. rewrite !fmap_cons in Hs. destruct (tsep_concat P h T_List p1 cs1 p2 cs2 (pair T_List <$> R) Hs) as (p & h' & E & Hs' & Hsame & _).
  exists p, h'. split; [done|]. split; [by apply sep_tagged; rewrite fmap_cons|done].
Qed.

(** ** Variables in the region *)

Lemma var_in_same P h h' x : same P h h' → var_in P h x → var_in P h' x ∧ var_of h' x = var_of h x.
Proof.
  intros Hs [(l & -> & Hl) HP]. specialize (Hs l (HP l eq_refl)).
  assert (var_of h' (Some l) = var_of h (Some l)) as E by (unfold var_of; by rewrite Hs).
  split; [|done]. split; [|done]. exists l. split; [done|]. by rewrite Hs, E.
Qed.

Lemma elems_same P h h' cs ks : same P h h' → elems P h cs ks → elems P h' cs ks.
Proof.
  intros Hs (xs & Hd & Hxs & ->). exists xs. split; [done|]. rewrite Forall_forall in Hxs. split.
  - apply Forall_forall. intros x Hx. by eapply var_in_same; [|apply Hxs].
  - apply list_fmap_ext. intros i x Hx. cbn. f_equal. symmetry.
    eapply var_in_same; [done|]. apply Hxs. eauto using list_elem_of_lookup_2.
Qed.

Lemma elems_app P h cs ks cs' ks' : elems P h cs ks → elems P h cs' ks' → elems P h (cs ++ cs') (ks ++ ks').
Proof.
  intros (xs & Hd & Hxs & ->) (xs' & Hd' & Hxs' & ->). exists (xs ++ xs').
  rewrite !fmap_app, Hd, Hd'. split; [done|]. split; [by apply Forall_app|]. unfold keys. by rewrite fmap_app.
Qed.

Lemma elems_snoc P h cs ks l x : elems P h cs ks → var_in P h x →
  elems P h (cs ++ [(l, DPtr x)]) (ks ++ [key_of (var_of h x)]).
Proof. intros He Hx. apply elems_app; [done|]. exists [x]. split; [done|]. split; [by constructor|done]. Qed.

Lemma elems_nil P h : elems P h [] [].
Proof. exists []. done. Qed.

Lemma scopes_same P h h' p st : heap_ok h → same P h h' → scopes P h p st → scopes P h' p st.
Proof.
  intros Hok Hs. revert p. induction st as [|rels st IH]; intros p; [done|].
  assert (∀ t p cs, is_list h t p cs → (∀ x, x ∈ footprint p cs → P x) → is_list h' t p cs) as Hlist.
  { intros t [a|] cs Hl HP; [|done]. destruct Hl as (Hne & Ha & Hsg). split; [done|]. split.
    - rewrite Hs; [done|]. apply HP, elem_footprint. by left.
    - eapply seg_frame; [|done]. intros x Hx. apply Hs, HP, elem_footprint. by right. }
  intros (cs & q & ps & Hl & Hd & HP & Hsc & Hps). exists cs, q, ps.
  split_and!; [by apply Hlist|done|done|by apply IH|].
  eapply Forall2_impl; [exact Hps|]. intros p' ks (cs' & [Hl' He] & HP'). exists cs'.
  split; [|done]. split; [by apply Hlist|by eapply elems_same].
Qed.
End Ops.

(** ** Comparisons *)

Section Walk.
Context {B : Build} {C : SysCache} (P : positive → Prop) (st : list (list (list key))).

(** A term adds its columns to the list of the operator. *)
Definition term_walks (n : node) : Prop := ∀ h c R csI K,
  w_ready c = true → is_term n = true → resolved st n →
  sep P h ((w_list_of_not_null_in_op c, csI) :: R) → elems P h csI K → scopes P h (w_current_trueVar c) st →
  ∃ h' p csI', my_walker n (h, c) = Ok (false, (h', w_set_in_op p c)) ∧
    sep P h' ((p, csI') :: R) ∧ same P h h' ∧
    elems P h' csI' (union_spec key_eqb K (omap (resolve st) (term_vars n))).

Lemma set_in_op_same c : w_set_in_op (w_list_of_not_null_in_op c) c = c.
Proof. by destruct c. Qed.

Lemma var_walks v : term_walks (Var v).
Proof.
  intros h c R csI K Hr _ Hres Hs He Hsc. apply Forall_cons in Hres as [[k Hk] _].
  destruct (getTrueVar_ok P h _ st v k Hsc Hk) as (t & Et & Ht & Hkt).
  cbn [my_walker expression_tree_walker]. erewrite bind_Ok by reflexivity. rewrite Hr. unfold walk_var.
  rewrite !bind_assoc. erewrite bind_Ok by reflexivity. rewrite !bind_assoc.
  erewrite bind_Ok by by apply zoom_Ok. rewrite !bind_assoc.
  erewrite bind_Ok.
  2: { apply zoom_Ok. eapply isInListTrueVar_keys; [by eapply sep_heap_ok| |apply Ht].
       split; [|exact He]. by eapply (sep_head P h (_, csI)). }
  rewrite Hkt. cbn [term_vars omap list_omap]. rewrite Hk. unfold union_spec. cbn [fold_left].
  destruct (memb key_eqb K k).
  - exists h, (w_list_of_not_null_in_op c), csI. rewrite set_in_op_same. done.
  - destruct (sep_lappend P h _ _ _ t Hs) as (p & l & h' & El & Hs' & Hsame).
    rewrite bind_assoc. erewrite bind_Ok by by apply zoom_Ok. erewrite bind_Ok by reflexivity.
    eexists h', p, _. split; [done|]. split; [exact Hs'|]. split; [done|].
    destruct (var_in_same P h h' t Hsame Ht) as [Ht' Ev].
    rewrite <- Hkt, <- Ev. apply elems_snoc; [|done]. by eapply elems_same.
Qed.

Lemma union_spec_app K ks ks' : union_spec key_eqb K (ks ++ ks') = union_spec key_eqb (union_spec key_eqb K ks) ks'.
Proof. unfold union_spec. by rewrite fold_left_app. Qed.

Lemma op_keys_cons x l : op_keys st (x :: l) = omap (resolve st) (term_vars x) ++ op_keys st l.
Proof. unfold op_keys. cbn [term_vars map concat]. by rewrite omap_app. Qed.

Lemma walk_terms l : Forall term_walks l → ∀ h c R csI K,
  w_ready c = true → forallb is_term l = true → resolved st (NList l) →
  sep P h ((w_list_of_not_null_in_op c, csI) :: R) → elems P h csI K → scopes P h (w_current_trueVar c) st →
  ∃ h' p csI', walk_list my_walker l (h, c) = Ok (false, (h', w_set_in_op p c)) ∧
    sep P h' ((p, csI') :: R) ∧ same P h h' ∧
    elems P h' csI' (union_spec key_eqb K (op_keys st l)).
Proof.
  induction 1 as [|x l Hx _ IH]; intros h c R csI K Hr Ht Hres Hs He Hsc.
  - exists h, (w_list_of_not_null_in_op c), csI. rewrite set_in_op_same. done.
  - cbn in Ht. apply andb_true_iff in Ht as [Htx Ht]. unfold resolved in Hres. cbn in Hres.
    apply Forall_app in Hres as [Hrx Hrl].
    destruct (Hx h c R csI K Hr Htx Hrx Hs He Hsc) as (h1 & p1 & cs1 & E1 & Hs1 & Hsame1 & He1).
    destruct (IH h1 (w_set_in_op p1 c) R cs1 _ Hr Ht Hrl Hs1 He1) as (h2 & p2 & cs2 & E2 & Hs2 & Hsame2 & He2).
    { apply (scopes_same P h); [exact (sep_heap_ok _ _ _ Hs)|exact Hsame1|exact Hsc]. }
    exists h2, p2, cs2. split; [cbn; erewrite bind_Ok by exact E1; exact E2|]. split; [done|].
    split; [by eapply same_trans|]. rewrite op_keys_cons, union_spec_app. exact He2.
Qed.

Lemma terms_walk n : term_walks n ∧ ∀ l, n = NList l → Forall term_walks l.
Proof.
  induction n using node_ind'; destruct_and?; (split; [|intros l' [=]; subst; try done]).
  all: try (intros h c R csI K Hr Ht; done).
  - apply var_walks.
  - intros h k R csI K Hr _ _ Hs He Hsc. exists h, (w_list_of_not_null_in_op k), csI. by rewrite set_in_op_same.
  - intros h c R csI K Hr Ht Hres Hs He Hsc. destruct n; try done. apply bool_nonempty in Ht as [_ Ht].
    exact (walk_terms elements (H0 _ eq_refl) h c R csI K Hr Ht Hres Hs He Hsc).
  - intros h c R csI K Hr Ht Hres. exact (H h c R csI K Hr Ht Hres).
  - eapply Forall_impl; [exact H|]. naive_solver.
Qed.

(** ** Conditions *)

(** The pointers of a list of pointers. *)
Definition ptrs (cs : cells) (ps : list (option positive)) : Prop := cs.*2 = DPtr <$> ps.

Lemma ptrs_snoc cs ps l p : ptrs cs ps → ptrs (cs ++ [(l, DPtr p)]) (ps ++ [p]).
Proof. unfold ptrs. rewrite !fmap_app. by intros ->. Qed.

(** The lists of the context are separated from each other and from [R], hold the
    columns [T] and [F] and the recorded lists [lt] and [lf]; the scope is [st]. *)
Definition winv (R : list hlist) (h : heap) (c : context_walker_set_constraint)
    (T F : list key) (lt lf : list (option positive)) : Prop :=
  ∃ csT csF csLT csLF,
    sep P h ((w_list_of_not_null_to_be_true c, csT) :: (w_list_of_not_null_to_be_false c, csF) ::
             (w_list_list_true c, csLT) :: (w_list_list_false c, csLF) :: R) ∧
    elems P h csT T ∧ elems P h csF F ∧ ptrs csLT lt ∧ ptrs csLF lf ∧
    scopes P h (w_current_trueVar c) st.

(** The fields that a condition leaves alone. *)
Definition outer (c c' : context_walker_set_constraint) : Prop :=
  w_trueVars c' = w_trueVars c ∧ w_current_trueVar c' = w_current_trueVar c ∧
  w_list_of_not_null_att_schem c' = w_list_of_not_null_att_schem c.

(** A connective leaves [ready] alone, too. *)
Definition kept (c c' : context_walker_set_constraint) : Prop := outer c c' ∧ w_ready c' = w_ready c.

Lemma winv_perm R R' h c T F lt lf : R ≡ₚ R' → winv R h c T F lt lf → winv R' h c T F lt lf.
Proof.
  intros HR (csT & csF & csLT & csLF & Hs & Hrest). exists csT, csF, csLT, csLF. split; [|done].
  eapply sep_perm; [|exact Hs]. by rewrite HR.
Qed.

Lemma op_walk o args R h c T F lt lf :
  args ≠ [] → forallb is_term args = true → resolved st (NList args) → winv R h c T F lt lf →
  ∃ h' c', my_walker (OpExpr o (NList args)) (h, c) = Ok (false, (h', c')) ∧
    winv R h' c' (T ++ union_keys (op_keys st args)) F lt lf ∧ same P h h' ∧ outer c c'.
Proof.
  intros Hne Ht Hres (csT & csF & csLT & csLF & Hs & HT & HF & HLT & HLF & Hsc).
  set (c1 := w_set_in_op None (w_set_ready true c)).
  destruct (walk_terms args (proj2 (terms_walk (NList args)) _ eq_refl) h c1 _ [] [] eq_refl Ht Hres
    (sep_nil _ _ _ Hs) (elems_nil _ _) Hsc) as (h1 & p & csI & E1 & Hs1 & Hsame1 & HeI).
  apply (sep_perm _ _ _ _ (perm_swap _ _ _)) in Hs1.
  destruct (sep_concat _ _ _ _ _ _ _ Hs1) as (t & h2 & E2 & Hs2 & Hsame2).
  exists h2, (w_set_true t (w_set_in_op p c1)). split.
  { cbn [my_walker]. unfold walk_strict_op. do 2 erewrite bind_Ok by reflexivity.
    erewrite bind_Ok by exact E1. erewrite bind_Ok by reflexivity.
    erewrite bind_Ok by by apply zoom_Ok. by erewrite bind_Ok by reflexivity. }
  assert (same P h h2) as Hsame by by eapply same_trans.
  split; [|done]. exists (csT ++ csI), csF, csLT, csLF.
  split_and!; try done.
  - apply elems_app; [by apply (elems_same P h)|by apply (elems_same P h1)].
  - by apply (elems_same P h).
  - apply (scopes_same P h); [exact (sep_heap_ok _ _ _ Hs)|done|done].
Qed.

(** Entering a connective: the two lists are put aside. *)
Lemma winv_enter R h c T F lt lf : winv R h c T F lt lf →
  ∃ csT csF, elems P h csT T ∧ elems P h csF F ∧
    winv ((w_list_of_not_null_to_be_true c, csT) :: (w_list_of_not_null_to_be_false c, csF) :: R)
      h (w_set_false None (w_set_true None c)) [] [] lt lf.
Proof.
  intros (csT & csF & csLT & csLF & Hs & HT & HF & HLT & HLF & Hsc). exists csT, csF.
  split; [done|]. split; [done|]. exists [], [], csLT, csLF.
  split_and!; try done; try apply elems_nil. apply sep_nil, sep_nil. cbn.
  eapply sep_perm; [|exact Hs]. cbn.
  match goal with |- ?a :: ?b :: ?x :: ?y :: ?r ≡ₚ _ =>
    change (([a; b] ++ [x; y]) ++ r ≡ₚ ([x; y] ++ [a; b]) ++ r) end.
  by rewrite (Permutation_app_comm [_; _]).
Qed.

(** Leaving NOT: the lists found below it are exchanged. *)
Lemma leave_not_ok R h c tsave csT fsave csF T F T1 F1 lt lf :
  winv ((tsave, csT) :: (fsave, csF) :: R) h c T1 F1 lt lf → elems P h csT T → elems P h csF F →
  ∃ h' c', leave_not tsave fsave (h, c) = Ok ((), (h', c')) ∧
    winv R h' c' (T ++ F1) (F ++ T1) lt lf ∧ same P h h' ∧ kept c c'.
Proof.
  intros (csT1 & csF1 & csLT & csLF & Hs & HT1 & HF1 & HLT & HLF & Hsc) HT HF.
  pose proof (sep_heap_ok _ _ _ Hs) as Hok.
  eapply (sep_perm _ _ _ ((tsave, csT) :: (w_list_of_not_null_to_be_false c, csF1) ::
    (fsave, csF) :: (w_list_of_not_null_to_be_true c, csT1) :: (w_list_list_true c, csLT) ::
    (w_list_list_false c, csLF) :: R)) in Hs; [|solve_Permutation].
  destruct (sep_concat _ _ _ _ _ _ _ Hs) as (t & h2 & E2 & Hs2 & Hsame2).
  eapply (sep_perm _ _ _ ((fsave, csF) :: (w_list_of_not_null_to_be_true c, csT1) :: (t, csT ++ csF1) ::
    (w_list_list_true c, csLT) :: (w_list_list_false c, csLF) :: R)) in Hs2; [|solve_Permutation].
  destruct (sep_concat _ _ _ _ _ _ _ Hs2) as (f' & h3 & E3 & Hs3 & Hsame3).
  assert (same P h h3) as Hsame by by eapply same_trans.
  exists h3, (w_set_false f' (w_set_true t c)). split.
  { unfold leave_not. erewrite bind_Ok by reflexivity. erewrite bind_Ok by (apply zoom_Ok; exact E2).
    erewrite bind_Ok by reflexivity. erewrite bind_Ok by (apply zoom_Ok; exact E3). reflexivity. }
  split; [|done]. exists (csT ++ csF1), (csF ++ csT1), csLT, csLF. split_and!; try done.
  - eapply sep_perm; [|exact Hs3]. solve_Permutation.
  - apply elems_app; by apply (elems_same P h).
  - apply elems_app; by apply (elems_same P h).
  - by apply (scopes_same P h).
Qed.

(** An operation that makes a new list of variables from a list of variables. *)
Definition key_op (m : option positive → M heap (option positive)) (phi : list key → list key) : Prop :=
  ∀ h p cs ks R, sep P h R → (p, cs) ∈ R → elems P h cs ks →
  ∃ p' cs' h', m p h = Ok (p', h') ∧ sep P h' ((p', cs') :: R) ∧ elems P h' cs' (phi ks) ∧ same P h h'.

Lemma sep_elem h l R : sep P h R → l ∈ R → is_list h T_List l.1 l.2.
Proof. intros (_ & _ & Hl & _) Hin. rewrite Forall_forall in Hl. by apply Hl. Qed.

Lemma union_key_op : key_op union_list union_keys.
Proof.
  intros h p cs ks R Hs Hin He.
  destruct (union_list_ok P h p cs ks) as (p' & cs' & h' & E & Hst & Hl' & He').
  { by eapply sep_heap_ok. }
  { split; [|done]. by apply (sep_elem h (p, cs) R). }
  destruct (sep_new _ _ _ _ _ _ Hs Hst). eauto 10.
Qed.

Lemma inter_key_op n : key_op (λ p, inter_list p n) (inter_keys n).
Proof.
  intros h p cs ks R Hs Hin He.
  destruct (inter_list_ok P h p cs ks n) as (p' & cs' & h' & E & Hst & Hl' & He').
  { by eapply sep_heap_ok. }
  { split; [|done]. by apply (sep_elem h (p, cs) R). }
  destruct (sep_new _ _ _ _ _ _ Hs Hst). eauto 10.
Qed.

(** A list without columns is NIL. *)
Lemma nil_list h p cs : is_list h T_List p cs → elems P h cs [] → p = None.
Proof.
  intros Hl (xs & Hd & _ & Hk). symmetry in Hk. apply fmap_nil_inv in Hk. subst xs.
  apply fmap_nil_inv in Hd. subst cs. destruct p; [|done]. by destruct Hl.
Qed.

(** Leaving AND or OR: the new lists are recorded, then appended to the saved ones. *)
Lemma leave_ok R h c tsave csT fsave csF u csU n csN csLT csLF T F U N lt lf :
  sep P h ((u, csU) :: (n, csN) :: (w_list_list_true c, csLT) :: (w_list_list_false c, csLF) ::
           (tsave, csT) :: (fsave, csF) :: R) →
  elems P h csT T → elems P h csF F → elems P h csU U → elems P h csN N →
  ptrs csLT lt → ptrs csLF lf → scopes P h (w_current_trueVar c) st →
  ∃ h' c', leave_and_or tsave fsave u n (h, c) = Ok ((), (h', c')) ∧
    winv R h' c' (T ++ U) (F ++ N) (lt ++ [u]) (lf ++ [n]) ∧ same P h h' ∧ kept c c' ∧
    (tsave = None → w_list_of_not_null_to_be_true c' = u).
Proof.
  intros Hs HT HF HU HN HLT HLF Hsc. pose proof (sep_heap_ok _ _ _ Hs) as Hok.
  eapply (sep_perm _ _ _ ((w_list_list_true c, csLT) :: (w_list_list_false c, csLF) ::
    (tsave, csT) :: (u, csU) :: (fsave, csF) :: (n, csN) :: R)) in Hs; [|solve_Permutation].
  destruct (sep_lappend _ _ _ _ _ u Hs) as (llt & l1 & h1 & E1 & Hs1 & Hm1).
  eapply (sep_perm _ _ _ ((w_list_list_false c, csLF) :: (llt, csLT ++ [(l1, DPtr u)]) ::
    (tsave, csT) :: (u, csU) :: (fsave, csF) :: (n, csN) :: R)) in Hs1; [|solve_Permutation].
  destruct (sep_lappend _ _ _ _ _ n Hs1) as (llf & l2 & h2 & E2 & Hs2 & Hm2).
  set (LT := (llt, csLT ++ [(l1, DPtr u)])) in *. set (LF := (llf, csLF ++ [(l2, DPtr n)])) in *.
  eapply (sep_perm _ _ _ ((tsave, csT) :: (u, csU) :: (fsave, csF) :: (n, csN) :: LT :: LF :: R)) in Hs2;
    [|solve_Permutation].
  destruct (sep_concat _ _ _ _ _ _ _ Hs2) as (t & h3 & E3 & Hs3 & Hm3).
  eapply (sep_perm _ _ _ ((fsave, csF) :: (n, csN) :: (t, csT ++ csU) :: LT :: LF :: R)) in Hs3; [|solve_Permutation].
  destruct (sep_concat _ _ _ _ _ _ _ Hs3) as (f & h4 & E4 & Hs4 & Hm4).
  assert (same P h h4) as Hm by eauto using same_trans.
  exists h4, (w_set_false f (w_set_true t (w_set_ll_false llf (w_set_ll_true llt c)))). split.
  { unfold leave_and_or. erewrite bind_Ok by reflexivity.
    erewrite bind_Ok by (apply zoom_Ok; exact E1). erewrite bind_Ok by reflexivity.
    erewrite bind_Ok by (apply zoom_Ok; exact E2). erewrite bind_Ok by reflexivity.
    erewrite bind_Ok by (apply zoom_Ok; exact E3). erewrite bind_Ok by reflexivity.
    erewrite bind_Ok by (apply zoom_Ok; exact E4). reflexivity. }
  split; [|split; [done|split; [done|]]]; [|intros ->; by injection E3]. exists (csT ++ csU), (csF ++ csN), (csLT ++ [(l1, DPtr u)]), (csLF ++ [(l2, DPtr n)]).
  split_and!; try by apply ptrs_snoc.
  - eapply sep_perm; [|exact Hs4]. cbn. solve_Permutation.
  - apply elems_app; by apply (elems_same P h).
  - apply elems_app; by apply (elems_same P h).
  - by apply (scopes_same P h).
Qed.

(** The part of AND and OR between the children and the end: [m1] makes the list for
    true, [m2] the one for false. *)
Definition finish_and_or (m1 m2 : option positive → M heap (option positive)) (ts fs : option positive)
    : M (heap * context_walker_set_constraint) () :=
  c <- getc;;
  l_true <- zoom (m1 (w_list_of_not_null_to_be_true c));;
  l_false <- zoom (m2 (w_list_of_not_null_to_be_false c));;
  leave_and_or ts fs l_true l_false.

Lemma finish_ok m1 phi1 m2 phi2 R h c tsave csT fsave csF T F T1 F1 lt lf :
  key_op m1 phi1 → key_op m2 phi2 →
  winv ((tsave, csT) :: (fsave, csF) :: R) h c T1 F1 lt lf → elems P h csT T → elems P h csF F →
  ∃ h' c' u n, finish_and_or m1 m2 tsave fsave (h, c) = Ok ((), (h', c')) ∧
    winv R h' c' (T ++ phi1 T1) (F ++ phi2 F1) (lt ++ [u]) (lf ++ [n]) ∧ same P h h' ∧ kept c c' ∧
    (phi2 F1 = [] → n = None) ∧ (tsave = None → w_list_of_not_null_to_be_true c' = u).
Proof.
  intros Hm1 Hm2 (csT1 & csF1 & csLT & csLF & Hs & HT1 & HF1 & HLT & HLF & Hsc) HT HF.
  pose proof (sep_heap_ok _ _ _ Hs) as Hok.
  destruct (Hm1 h (w_list_of_not_null_to_be_true c) csT1 T1 _ Hs) as (u & csU & h1 & E1 & Hs1 & HU & Hsame1);
    [constructor|done|].
  destruct (Hm2 h1 (w_list_of_not_null_to_be_false c) csF1 F1 _ Hs1) as (n & csN & h2 & E2 & Hs2 & HN & Hsame2).
  { do 2 (apply elem_of_cons; right). constructor. }
  { by apply (elems_same P h). }
  assert (same P h h2) as Hsame by by eapply same_trans.
  eapply (sep_perm _ _ _ ((w_list_of_not_null_to_be_true c, csT1) :: (w_list_of_not_null_to_be_false c, csF1) ::
    (u, csU) :: (n, csN) :: (w_list_list_true c, csLT) :: (w_list_list_false c, csLF) ::
    (tsave, csT) :: (fsave, csF) :: R)) in Hs2; [|solve_Permutation].
  apply sep_drop, sep_drop in Hs2.
  destruct (leave_ok R h2 c tsave csT fsave csF u csU n csN csLT csLF T F (phi1 T1) (phi2 F1) lt lf)
    as (h3 & c3 & E3 & Hw & Hsame3 & Ho & Ht); [done|by apply (elems_same P h)..|by apply (elems_same P h1)|done|done|done| |].
  { by apply (scopes_same P h). }
  exists h3, c3, u, n. split; [|split_and!; [done|by eapply same_trans|done| |done]].
  2: { intros E. rewrite E in HN. apply (nil_list h2 n csN); [by eapply (sep_head P h2 (n, csN)), sep_drop|done]. }
  unfold finish_and_or. erewrite bind_Ok by reflexivity.
  erewrite bind_Ok by (apply zoom_Ok; exact E1). erewrite bind_Ok by (apply zoom_Ok; exact E2). exact E3.
Qed.

Lemma resolved_args args : resolved st (NList args) → Forall (resolved st) args.
Proof.
  unfold resolved. induction args as [|x args IH]; cbn; [constructor|].
  intros [? ?]%Forall_app. constructor; auto.
Qed.
End Walk.
