(* ===== verification/QueryWalk.v ===== *)
(** The walkers of the two hooks on conditions and queries.

    [WalkerSpec] describes single steps in a fixed region of scopes.  Here the steps are
    put together: a sub-query allocates its scope and its true variables, so the region
    grows while the walker runs.  [qinv] is the invariant on the six lists of the
    context, [walks] says what a run appends to them.  All this holds for every walker
    with the cases of [WalkerCases]; the walker of certain_answer_codd.c and its theorems
    are at the end. *)

From S2P Require Import Prelude Nodes Terms PgList ListSpec ListOps ListSets TrueVar TrueVarSpec.
From S2P Require Import Walker Codd HookClass Semantics SplitProps Mutators CoddProps CoddNeg NotNull Regions WalkerSpec Samples.

Abbreviation stack := (list (list (list key))) (only parsing).

(** ** What a walk finds *)

Section Found.
Context {C : SysCache}.

(** The scopes of the sub-queries, in the order in which they are met. *)
Fixpoint stacks (st : stack) (n : node) : list stack :=
  match n with
  | BoolExpr _ (NList args) _ => concat (map (stacks st) args)
  | SubLink _ _ (Query _ (NList rtable) (FromExpr _ quals) _) =>
      (scope_of rtable :: st) :: stacks (scope_of rtable :: st) quals
  | _ => []
  end.

(** The columns of a range table that are declared NOT NULL. *)
Definition not_null_columns (rtable : list node) : list key :=
  List.filter (λ k, get_pg_att_not_null k.1 k.2) (concat (scope_of rtable)).

Fixpoint schema (n : node) : list key :=
  match n with
  | BoolExpr _ (NList args) _ => concat (map schema args)
  | SubLink _ _ (Query _ (NList rtable) (FromExpr _ quals) _) => not_null_columns rtable ++ schema quals
  | _ => []
  end.

(** The lists recorded in [list_list_false], one per AND and OR, inner ones first. *)
Fixpoint recorded (st : stack) (n : node) : list (list key) :=
  match n with
  | BoolExpr b (NList args) _ =>
      concat (map (recorded st) args) ++ (if bool_decide (b = NOT_EXPR) then [] else [(collect st n).2])
  | SubLink _ _ (Query _ (NList rtable) (FromExpr _ quals) _) => recorded (scope_of rtable :: st) quals
  | _ => []
  end.

Definition is_relation (n : node) : bool :=
  match n with RangeTblEntry r _ => bool_decide (rtekind r = RTE_RELATION) | _ => false end.

(** Conditions with EXISTS over plain relations, whose variables are in scope. *)
Fixpoint query_cond (st : stack) (n : node) : Prop :=
  match n with
  | OpExpr _ (NList args) => args ≠ [] ∧ forallb is_term args = true ∧ resolved st (NList args)
  | BoolExpr b (NList args) _ =>
      args ≠ [] ∧ (b = NOT_EXPR → length args = 1%nat) ∧
      (fix go (l : list node) : Prop := match l with [] => True | x :: l => query_cond st x ∧ go l end) args
  | SubLink EXISTS_SUBLINK NULL (Query _ (NList rtable) (FromExpr (NList fl) quals) _) =>
      forallb is_relation rtable = true ∧ forallb is_rtref fl = true ∧ query_cond (scope_of rtable :: st) quals
  | _ => False
  end.

(** Induction on such conditions. *)
Lemma query_cond_ind (Q : stack → node → Prop) :
  (∀ st o args, args ≠ [] → forallb is_term args = true → resolved st (NList args) → Q st (OpExpr o (NList args))) →
  (∀ st b args loc, args ≠ [] → (b = NOT_EXPR → ∃ x, args = [x]) →
     Forall (query_cond st) args → Forall (Q st) args → Q st (BoolExpr b (NList args) loc)) →
  (∀ st qi rtable fl quals tl, forallb is_relation rtable = true → forallb is_rtref fl = true →
     query_cond (scope_of rtable :: st) quals → Q (scope_of rtable :: st) quals →
     Q st (SubLink EXISTS_SUBLINK NULL (Query qi (NList rtable) (FromExpr (NList fl) quals) tl))) →
  ∀ n st, query_cond st n → Q st n.
Proof.
  intros Hop Hbool Hex n.
  enough (∀ n, (∀ st, query_cond st n → Q st n) ∧
    match n with
    | NList l => Forall (λ x, ∀ st, query_cond st x → Q st x) l
    | FromExpr _ quals | Query _ _ (FromExpr _ quals) _ => ∀ st, query_cond st quals → Q st quals
    | _ => True
    end) as H by apply H.
  clear n. induction n using node_ind'; (split; [|try done]); try done.
  - intros st. destruct n; try done. intros (? & ? & ?). by apply Hop.
  - intros st. destruct n; try done. intros (Hne & Hn & Hall). destruct IHn as [_ IHl].
    assert (Forall (query_cond st) elements) as Hq.
    { clear -Hall. induction elements as [|x l IH]; [constructor|]. destruct Hall. constructor; auto. }
    apply Hbool; [done| |done|].
    + intros ->. specialize (Hn eq_refl). destruct elements as [|x [|]]; try done. by exists x.
    + rewrite Forall_forall in IHl, Hq |- *. auto.
  - intros st. destruct t; try done. destruct n1; try done.
    destruct n2 as [| | | | | | | | | | | | | |qi rt jt tl| |]; try done.
    destruct rt as [| | | | | | | | | | | | | | |rt|]; try done. destruct jt as [| | | | | | | | | | | |fl quals| | | |]; try done.
    destruct fl as [| | | | | | | | | | | | | | |fl|]; try done.
    intros (? & ? & ?). destruct IHn2 as [_ IHq]. by apply Hex; auto.
  - apply IHn2.
  - destruct IHn2 as [_ IHj]. by destruct n2.
  - eapply Forall_impl; [exact H|]. naive_solver.
Qed.
End Found.

(** ** Growing regions *)

(** From heap [h] with region [P] to [h'] with [P']: nothing in [P] changed. *)
Definition grows (P : positive → Prop) (h : heap) (P' : positive → Prop) (h' : heap) : Prop :=
  (∀ x, P x → P' x) ∧ same P h h'.

Lemma grows_refl P h : grows P h P h.
Proof. done. Qed.

Lemma grows_same P h h' : same P h h' → grows P h P h'.
Proof. done. Qed.

Lemma grows_trans P1 h1 P2 h2 P3 h3 : grows P1 h1 P2 h2 → grows P2 h2 P3 h3 → grows P1 h1 P3 h3.
Proof. intros [HP1 Hs1] [HP2 Hs2]. split; [auto|]. intros x Hx. rewrite Hs2, Hs1; auto. Qed.

Lemma var_in_mono (P P' : positive → Prop) h x : (∀ y, P y → P' y) → var_in P h x → var_in P' h x.
Proof. intros HP [Hv Hx]. split; [done|]. auto. Qed.

Lemma elems_grows P h P' h' cs ks : grows P h P' h' → elems P h cs ks → elems P' h' cs ks.
Proof.
  intros [HP Hs] He. destruct (elems_same _ _ _ _ _ Hs He) as (xs & Hd & Hxs & Hk).
  exists xs. split; [done|]. split; [|done]. eapply Forall_impl; [exact Hxs|]. intros x. by apply var_in_mono.
Qed.

Lemma scopes_mono (P P' : positive → Prop) h p st : (∀ y, P y → P' y) → scopes P h p st → scopes P' h p st.
Proof.
  intros HP. revert p. induction st as [|rels st IH]; intros p; [done|].
  intros (cs & q & ps & Hl & Hd & HPc & Hsc & Hps). exists cs, q, ps. split_and!; auto.
  eapply Forall2_impl; [exact Hps|]. intros p' ks (cs' & [Hl' He] & HP'). exists cs'.
  split; [|auto]. split; [done|]. by apply (elems_grows P h).
Qed.

Lemma scopes_grows P h P' h' p st : heap_ok h → grows P h P' h' → scopes P h p st → scopes P' h' p st.
Proof. intros Hok [HP Hs] Hsc. apply (scopes_mono P); [done|]. by apply (scopes_same P h). Qed.

(** A finished list joins the region. *)
Lemma sep_absorb P h l ls : sep P h (l :: ls) → sep (λ x, P x ∨ x ∈ fp l) h ls.
Proof.
  intros Hs. pose proof Hs as (Hok & HP & [[Hl HnP] Hls]%Forall_cons & [Hd Hpw]). split_and!; [done| | |done].
  - intros x [Hx|Hx]; [auto|]. eapply sep_fp_bound; [exact Hs|by left|done].
  - rewrite Forall_forall in Hls, Hd |- *. intros l' Hin. destruct (Hls l' Hin) as [Hl' Hn]. split; [done|].
    intros x Hx [HPx|Hx']; [by apply (Hn x)|]. by apply (Hd l' Hin x).
Qed.

(** A new object joins the region. *)
Lemma sep_palloc P h ls o :
  sep P h ls → ∃ v h', palloc o h = Ok (v, h') ∧ sep (λ x, P x ∨ x = v) h' ls ∧ same P h h' ∧
    h_objs h' !! v = Some o.
Proof.
  intros Hs. pose proof Hs as (Hok & HP & Hls & Hpw). eexists _, _. split; [reflexivity|].
  assert (∀ l, l ∈ ls → ∀ x, x ∈ fp l → x ≠ h_brk h) as Hne.
  { intros l Hin x Hx ->. pose proof (sep_fp_bound _ _ _ _ _ Hs Hin Hx). lia. }
  split; [|split].
  - split_and!; [apply heap_ok_insert; [done|cbn; lia..]| | |done].
    + intros x [Hx%HP| ->]; cbn; lia.
    + rewrite Forall_forall in Hls |- *. intros l Hin. destruct (Hls l Hin) as [Hl Hn]. split.
      * eapply (is_list_frame []); [done| | |exact Hl]; [|by intros ? _ ?%elem_of_nil].
        split; [cbn; lia|]. intros x Hx _. cbn. rewrite lookup_insert_ne; [done|lia].
      * intros x Hx [HPx| ->]; [by apply (Hn x)|]. by apply (Hne l Hin _ Hx).
  - intros x Hx%HP. cbn. rewrite lookup_insert_ne; [done|lia].
  - cbn. apply lookup_insert_eq.
Qed.

Section Walk.
Context {B : Build} {C : SysCache} {W : node → WM bool} {HW : WalkerCases W}.

(** What [ready] may be while the walker runs. *)
Context {ready_ok : bool → Prop}.

(** ** Range tables *)

(** A column that is declared NOT NULL is noted in the list of the schema. *)
Lemma note_not_null_ok P relid i v h c csS S R :
  sep P h ((w_list_of_not_null_att_schem c, csS) :: R) → elems P h csS S →
  var_in P h (Some v) → key_of (var_of h (Some v)) = (relid, i) →
  ∃ s csS' h', (if get_pg_att_not_null relid i then
       c <- getc;; l <- zoom (lappend (w_list_of_not_null_att_schem c) (Some v));; modc (w_set_schem l)
     else ret ()) (h, c) = Ok ((), (h', w_set_schem s c)) ∧ same P h h' ∧
    sep P h' ((s, csS') :: R) ∧ elems P h' csS' (S ++ if get_pg_att_not_null relid i then [(relid, i)] else []).
Proof.
  intros Hs HS Hin Hkey. destruct (get_pg_att_not_null relid i).
  - destruct (sep_lappend _ _ _ _ _ (Some v) Hs) as (s & l & h' & E & Hs' & Hm).
    exists s, (csS ++ [(l, DPtr (Some v))]), h'. split.
    { erewrite bind_Ok by reflexivity. by erewrite bind_Ok by (apply zoom_Ok; exact E). }
    split; [done|]. split; [done|]. destruct (var_in_same _ _ _ _ Hm Hin) as [Hin' Ev].
    rewrite <- Hkey, <- Ev. apply elems_snoc; [|done]. by apply (elems_same P h).
  - exists (w_list_of_not_null_att_schem c), csS, h. rewrite app_nil_r. split; [by destruct c|]. done.
Qed.

Lemma make_columns_ok relid n : ∀ i P h c p csK csS K S R,
  sep P h ((p, csK) :: (w_list_of_not_null_att_schem c, csS) :: R) → elems P h csK K → elems P h csS S →
  ∃ P' h' p' csK' s' csS', make_columns n relid i p (h, c) = Ok (p', (h', w_set_schem s' c)) ∧
    grows P h P' h' ∧ sep P' h' ((p', csK') :: (s', csS') :: R) ∧
    elems P' h' csK' (K ++ columns n relid i) ∧
    elems P' h' csS' (S ++ List.filter (λ k, get_pg_att_not_null k.1 k.2) (columns n relid i)).
Proof.
  induction n as [|n IH]; intros i P h c p csK csS K S R Hs HK HS.
  - exists P, h, p, csK, (w_list_of_not_null_att_schem c), csS. cbn. rewrite !app_nil_r. by destruct c.
  - destruct (sep_palloc _ _ _ (ONode (Var (mkVar 0 i relid 0 0 0 0 0 0))) Hs) as (v & h1 & E1 & Hs1 & Hm1 & Hv).
    set (P1 := λ x, P x ∨ x = v) in *.
    assert (grows P h P1 h1) as Hg1 by (split; [by left|done]).
    assert (var_in P1 h1 (Some v) ∧ key_of (var_of h1 (Some v)) = (relid, i)) as [Hin Hkey].
    { unfold var_of. rewrite Hv. split; [|done]. split; [|intros l [= <-]; by right]. exists v. unfold var_of. by rewrite Hv. }
    destruct (sep_lappend P1 h1 p csK _ (Some v) Hs1) as (p2 & l2 & h2 & E2 & Hs2 & Hm2).
    assert (grows P1 h1 P1 h2) as Hg2 by by apply grows_same.
    destruct (var_in_same _ _ _ _ Hm2 Hin) as [Hin2 Ev2].
    apply (sep_perm _ _ _ _ (perm_swap _ _ _)) in Hs2.
    destruct (note_not_null_ok P1 relid i v h2 c csS S _ Hs2 ltac:(by apply (elems_same P1 h1), (elems_grows P h)) Hin2
      ltac:(congruence)) as (s3 & csS3 & h3 & E3 & Hm3 & Hs3 & HS3).
    apply (sep_perm _ _ _ _ (perm_swap _ _ _)) in Hs3.
    destruct (IH (i + 1) P1 h3 (w_set_schem s3 c) p2 (csK ++ [(l2, DPtr (Some v))]) csS3 (K ++ [(relid, i)])
      (S ++ if get_pg_att_not_null relid i then [(relid, i)] else []) R Hs3)
      as (P4 & h4 & p4 & csK4 & s4 & csS4 & E4 & Hg4 & Hs4 & HK4 & HS4); [|done|].
    { apply (elems_same P1 h2); [done|]. rewrite <- Hkey, <- Ev2. apply elems_snoc; [|done].
      by apply (elems_same P1 h1), (elems_grows P h). }
    exists P4, h4, p4, csK4, s4, csS4. split; [|split; [|split; [done|]]].
    + cbn [make_columns]. erewrite bind_Ok by (apply zoom_Ok; exact E1). erewrite bind_Ok by (apply zoom_Ok; exact E2).
      erewrite bind_Ok by exact E3. exact E4.
    + eapply grows_trans; [exact Hg1|]. eapply grows_trans; [exact Hg2|]. by eapply grows_trans; [apply grows_same|].
    + cbn [columns List.filter]. rewrite <- app_assoc in HK4, HS4. split; [exact HK4|]. cbn [fst snd].
      by destruct (get_pg_att_not_null relid i).
Qed.

(** A list of columns in the region. *)
Definition col_list (P : positive → Prop) (h : heap) (p : option positive) (ks : list key) : Prop :=
  ∃ cs, vars_in P h p cs ks ∧ ∀ x, x ∈ footprint p cs → P x.

Lemma is_list_same P h h' t p cs :
  same P h h' → (∀ x, x ∈ footprint p cs → P x) → is_list h t p cs → is_list h' t p cs.
Proof.
  intros Hs HP. destruct p as [a|]; [|done]. intros (Hne & Ha & Hsg). split; [done|]. split.
  - rewrite Hs; [done|]. apply HP, elem_footprint. by left.
  - eapply seg_frame; [|done]. intros x Hx. apply Hs, HP, elem_footprint. by right.
Qed.

Lemma col_list_grows P h P' h' p ks : grows P h P' h' → col_list P h p ks → col_list P' h' p ks.
Proof.
  intros Hg (cs & [Hl He] & HP). destruct (Hg) as [HP' Hs]. exists cs.
  split; [|auto]. split; [by eapply is_list_same|by apply (elems_grows P h)].
Qed.

(** The scope under construction, with the schema list. *)
Definition building (P : positive → Prop) (h : heap) (c : context_walker_set_constraint)
    (R : list hlist) (q : option positive) (rels : list (list key)) (S : list key) : Prop :=
  ∃ csC csS ps, sep P h ((w_current_trueVar c, csC) :: (w_list_of_not_null_att_schem c, csS) :: R) ∧
    ptrs csC (q :: ps) ∧ Forall2 (col_list P h) ps rels ∧ elems P h csS S.

Lemma walk_relation_ok P h c R q rels S relid :
  building P h c R q rels S →
  ∃ P' h' cur s, let c' := w_set_current cur (w_set_schem s c) in
    walk_relation relid (h, c) = Ok (false, (h', c')) ∧ grows P h P' h' ∧
    building P' h' c' R q (rels ++ [rel_columns relid])
      (S ++ List.filter (λ k, get_pg_att_not_null k.1 k.2) (rel_columns relid)).
Proof.
  intros (csC & csS & ps & Hs & Hd & Hps & HS).
  destruct (make_columns_ok relid (Z.to_nat (get_relnatts relid)) 1 P h c None [] csS [] S
    ((w_current_trueVar c, csC) :: R)) as (P1 & h1 & p1 & csK & s1 & csS1 & E1 & Hg1 & Hs1 & HK & HS1);
    [|apply elems_nil|done|].
  { apply sep_nil. by apply (sep_perm _ _ _ _ (perm_swap _ _ _)). }
  assert (is_list h1 T_List p1 csK) as Hl1 by by eapply (sep_head P1 h1 (p1, csK)).
  assert (heap_ok h1) as Hok1 by by eapply sep_heap_ok.
  apply sep_absorb in Hs1. set (P2 := λ x, P1 x ∨ x ∈ fp (p1, csK)) in *.
  assert (grows P1 h1 P2 h1) as Hg2 by (split; [by left|done]).
  apply (sep_perm _ _ _ _ (perm_swap _ _ _)) in Hs1.
  destruct (sep_lappend P2 h1 _ _ _ p1 Hs1) as (cur & l & h3 & E3 & Hs3 & Hm3).
  assert (grows P h P2 h3) as Hg.
  { eapply grows_trans; [exact Hg1|]. eapply grows_trans; [exact Hg2|]. by apply grows_same. }
  exists P2, h3, cur, s1. split; [|split; [done|]].
  - unfold walk_relation. erewrite bind_Ok by exact E1. erewrite bind_Ok by reflexivity.
    erewrite bind_Ok by (apply zoom_Ok; exact E3). by erewrite bind_Ok by reflexivity.
  - exists (csC ++ [(l, DPtr p1)]), csS1, (ps ++ [p1]). split; [exact Hs3|]. split; [by apply (ptrs_snoc csC (q :: ps))|].
    split; [|by apply (elems_same P2 h1), (elems_grows P1 h1)].
    apply Forall2_app; [|constructor; [|constructor]].
    + eapply Forall2_impl; [exact Hps|]. intros p ks. by apply col_list_grows.
    + exists csK. split; [|by right]. split; [|by apply (elems_same P2 h1), (elems_grows P1 h1)].
      eapply (is_list_same P2 h1); [done|by right|done].
Qed.

Lemma scope_of_cons x rt : scope_of (x :: rt) = rel_columns (entry_relid x) :: scope_of rt.
Proof. done. Qed.

Lemma not_null_cons x rt : not_null_columns (x :: rt) =
  List.filter (λ k, get_pg_att_not_null k.1 k.2) (rel_columns (entry_relid x)) ++ not_null_columns rt.
Proof. unfold not_null_columns. rewrite scope_of_cons. cbn [concat]. by rewrite List.filter_app. Qed.

Lemma rtable_ok rt : forallb is_relation rt = true → ∀ P h c R q rels S,
  building P h c R q rels S →
  ∃ P' h' cur s, let c' := w_set_current cur (w_set_schem s c) in
    walk_list W rt (h, c) = Ok (false, (h', c')) ∧ grows P h P' h' ∧
    building P' h' c' R q (rels ++ scope_of rt) (S ++ not_null_columns rt).
Proof.
  induction rt as [|x rt IH]; intros Hr P h c R q rels S Hb.
  - exists P, h, (w_current_trueVar c), (w_list_of_not_null_att_schem c). cbn. rewrite !app_nil_r.
    destruct c. split; [done|]. split; [apply grows_refl|done].
  - cbn in Hr. apply andb_true_iff in Hr as [Hx Hr].
    destruct x as [| | | | | | | | | | | | |r sub| | |]; try done. apply bool_decide_eq_true in Hx.
    destruct (walk_relation_ok P h c R q rels S (relid r) Hb) as (P1 & h1 & cur1 & s1 & E1 & Hg1 & Hb1).
    destruct (IH Hr _ _ _ _ _ _ _ Hb1) as (P2 & h2 & cur2 & s2 & E2 & Hg2 & Hb2).
    exists P2, h2, cur2, s2. split; [|split; [by eapply grows_trans|]].
    + cbn [walk_list]. erewrite bind_Ok by (rewrite walker_relation by done; exact E1). exact E2.
    + rewrite scope_of_cons, not_null_cons. rewrite <- !app_assoc in Hb2. exact Hb2.
Qed.

(** ** Conditions *)

(** The six lists of the context: the columns [T] and [F], the recorded lists [lt] and
    [lf], the scopes [tv] and the columns [S] of the schema. *)
Definition qinv (P : positive → Prop) (st : stack) (R : list hlist) (h : heap) (c : context_walker_set_constraint)
    (T F : list key) (lt lf : list (option positive)) (tv : list stack) (S : list key) : Prop :=
  ∃ csV csS pv, winv P st ((w_trueVars c, csV) :: (w_list_of_not_null_att_schem c, csS) :: R) h c T F lt lf ∧
    ptrs csV pv ∧ Forall2 (scopes P h) pv tv ∧ elems P h csS S.

(** A recorded list without columns is NIL. *)
Definition null_if (p : option positive) (ks : list key) : Prop := ks = [] → p = None.

(** [run] appends to the lists: [T'] and [F'], lists that are as [G] says, the columns [S']
    and the scopes [V]. *)
Definition walks (run : M (heap * context_walker_set_constraint) bool) (st : stack)
    (T' F' : list key) (G : list (list key)) (S' : list key) (V : list stack) : Prop :=
  ∀ P R h c T F lt lf tv S, qinv P st R h c T F lt lf tv S → ready_ok (w_ready c) →
  ∃ P' h' c' lt' lf', run (h, c) = Ok (false, (h', c')) ∧ grows P h P' h' ∧
    (ready_ok (w_ready c') ∧ w_current_trueVar c' = w_current_trueVar c) ∧
    qinv P' st R h' c' (T ++ T') (F ++ F') (lt ++ lt') (lf ++ lf') (tv ++ V) (S ++ S') ∧
    length lt' = length G ∧ Forall2 null_if lf' G.

Lemma winv_heap_ok P st R h c T F lt lf : winv P st R h c T F lt lf → heap_ok h.
Proof. intros (csT & csF & csLT & csLF & Hs & _). by eapply sep_heap_ok. Qed.

(** What a step in a fixed region leaves of the scopes and the schema. *)
Lemma qinv_step P st R h c h' c' csV csS pv T F lt lf tv S :
  heap_ok h → outer c c' → same P h h' → ptrs csV pv → Forall2 (scopes P h) pv tv → elems P h csS S →
  winv P st ((w_trueVars c, csV) :: (w_list_of_not_null_att_schem c, csS) :: R) h' c' T F lt lf →
  qinv P st R h' c' T F lt lf tv S.
Proof.
  intros Hok (E1 & _ & E3) Hm Hpv Hsc HS Hw. exists csV, csS, pv. rewrite E1, E3. split_and!; [done|done| |].
  - eapply Forall2_impl; [exact Hsc|]. intros p t. by apply scopes_same.
  - by apply (elems_same P h).
Qed.

Lemma walks_nil st : walks (ret false) st [] [] [] [] [].
Proof.
  intros P R h c T F lt lf tv S Hq Hr. exists P, h, c, [], []. rewrite !app_nil_r. split_and!; try done.
Qed.

(** Walking one node after another. *)
Lemma walks_list st l (f g : node → list key) G S V :
  Forall (λ x, walks (W x) st (f x) (g x) (G x) (S x) (V x)) l →
  walks (walk_list W l) st (concat (map f l)) (concat (map g l)) (concat (map G l)) (concat (map S l))
    (concat (map V l)).
Proof.
  induction 1 as [|x l Hx _ IH]; [apply walks_nil|]. intros P R h c T F lt lf tv Sc Hq Hr.
  destruct (Hx _ _ _ _ _ _ _ _ _ _ Hq Hr) as (P1 & h1 & c1 & lt1 & lf1 & E1 & Hg1 & [Hr1 Hc1] & Hq1 & Hn1 & HG1).
  destruct (IH _ _ _ _ _ _ _ _ _ _ Hq1 Hr1) as (P2 & h2 & c2 & lt2 & lf2 & E2 & Hg2 & [Hr2 Hc2] & Hq2 & Hn2 & HG2).
  exists P2, h2, c2, (lt1 ++ lt2), (lf1 ++ lf2). cbn [map concat]. rewrite !app_assoc. split_and!; try done.
  - cbn [walk_list]. erewrite bind_Ok by exact E1. exact E2.
  - by eapply grows_trans.
  - congruence.
  - rewrite !length_app. congruence.
  - by apply Forall2_app.
Qed.

(** Entering a connective, with the scopes and the schema. *)
Lemma qinv_enter P st R h c T F lt lf tv S : qinv P st R h c T F lt lf tv S →
  ∃ csT csF, elems P h csT T ∧ elems P h csF F ∧
    qinv P st ((w_list_of_not_null_to_be_true c, csT) :: (w_list_of_not_null_to_be_false c, csF) :: R)
      h (w_set_false None (w_set_true None c)) [] [] lt lf tv S.
Proof.
  intros (csV & csS & pv & Hw & Hpv & Hsc & HS).
  destruct (winv_enter P st _ _ _ _ _ _ _ Hw) as (csT & csF & HT & HF & Hw'). exists csT, csF. split_and!; try done.
  exists csV, csS, pv. split_and!; try done. eapply winv_perm; [|exact Hw']. cbn. solve_Permutation.
Qed.

Lemma not_walks st x loc f g G S V : walks (W x) st f g G S V →
  walks (W (BoolExpr NOT_EXPR (NList [x]) loc)) st g f G S V.
Proof.
  intros Hx P R h c T F lt lf tv Sc Hq Hr. destruct (qinv_enter _ _ _ _ _ _ _ _ _ _ _ Hq) as (csT & csF & HT & HF & Hq0).
  destruct (Hx _ _ _ _ _ _ _ _ _ _ Hq0 Hr) as (P1 & h1 & c1 & lt1 & lf1 & E1 & Hg1 & [Hr1 Hc1] & Hq1 & Hn1 & HG1).
  destruct Hq1 as (csV & csS & pv & Hw1 & Hpv & Hsc & HS). cbn [app] in Hw1.
  eapply (winv_perm _ _ _ ((w_list_of_not_null_to_be_true c, csT) :: (w_list_of_not_null_to_be_false c, csF) ::
    (w_trueVars c1, csV) :: (w_list_of_not_null_att_schem c1, csS) :: R)) in Hw1; [|solve_Permutation].
  destruct (leave_not_ok P1 st _ _ _ _ _ _ _ T F _ _ _ _ Hw1) as (h2 & c2 & E2 & Hw2 & Hm2 & Ho2 & Hrd);
    [by apply (elems_grows P h)..|].
  exists P1, h2, c2, lt1, lf1. split_and!; try done.
  - rewrite walker_bool. cbn [expression_tree_walker walk_args]. unfold walk_bool. do 2 erewrite bind_Ok by reflexivity.
    erewrite bind_Ok by (cbn; erewrite bind_Ok by exact E1; reflexivity). by erewrite bind_Ok by exact E2.
  - eapply grows_trans; [exact Hg1|]. by apply grows_same.
  - by rewrite Hrd.
  - destruct Ho2 as (_ & -> & _). exact Hc1.
  - apply (qinv_step P1 st R h1 c1 h2 c2 csV csS pv); try done. exact (winv_heap_ok _ _ _ _ _ _ _ _ _ Hw1).
Qed.

(** The functions that compute the two lists of AND and OR. *)
Definition true_op (b : BoolExprType) (n : Z) (p : option positive) : M heap (option positive) :=
  match b with AND_EXPR => union_list p | _ => inter_list p n end.
Definition false_op (b : BoolExprType) (n : Z) (p : option positive) : M heap (option positive) :=
  match b with AND_EXPR => inter_list p n | _ => union_list p end.

Lemma true_key_op P b n : b ≠ NOT_EXPR → key_op P (true_op b n) (λ T, (combine_keys b n T []).1).
Proof. destruct b; intros ?; [apply union_key_op|apply inter_key_op|done]. Qed.

Lemma false_key_op P b n : b ≠ NOT_EXPR → key_op P (false_op b n) (λ F, (combine_keys b n [] F).2).
Proof. destruct b; intros ?; [apply inter_key_op|apply union_key_op|done]. Qed.

(** AND and OR; if no list was saved, the new list for true is the one recorded last. *)
Lemma and_or_run st b args loc (f g : node → list key) G S V :
  b ≠ NOT_EXPR → Forall (λ x, walks (W x) st (f x) (g x) (G x) (S x) (V x)) args →
  let r := combine_keys b (Z.of_nat (length args)) (concat (map f args)) (concat (map g args)) in
  ∀ P R h c T F lt lf tv Sc, qinv P st R h c T F lt lf tv Sc → ready_ok (w_ready c) →
  ∃ P' h' c' lt' lf' u n, W (BoolExpr b (NList args) loc) (h, c) = Ok (false, (h', c')) ∧ grows P h P' h' ∧
    (ready_ok (w_ready c') ∧ w_current_trueVar c' = w_current_trueVar c) ∧
    qinv P' st R h' c' (T ++ r.1) (F ++ r.2) (lt ++ lt' ++ [u]) (lf ++ lf' ++ [n])
      (tv ++ concat (map V args)) (Sc ++ concat (map S args)) ∧
    length lt' = length (concat (map G args)) ∧ Forall2 null_if lf' (concat (map G args)) ∧ null_if n r.2 ∧
    (w_list_of_not_null_to_be_true c = None → w_list_of_not_null_to_be_true c' = u).
Proof.
  intros Hb Hall r P R h c T F lt lf tv Sc Hq Hr.
  destruct (qinv_enter _ _ _ _ _ _ _ _ _ _ _ Hq) as (csT & csF & HT & HF & Hq0).
  destruct (walks_list _ _ _ _ _ _ _ Hall _ _ _ _ _ _ _ _ _ _ Hq0 Hr)
    as (P1 & h1 & c1 & lt1 & lf1 & E1 & Hg1 & [Hr1 Hc1] & Hq1 & Hn1 & HG1).
  destruct Hq1 as (csV & csS & pv & Hw1 & Hpv & Hsc & HS). cbn [app] in Hw1.
  eapply (winv_perm _ _ _ ((w_list_of_not_null_to_be_true c, csT) :: (w_list_of_not_null_to_be_false c, csF) ::
    (w_trueVars c1, csV) :: (w_list_of_not_null_att_schem c1, csS) :: R)) in Hw1; [|solve_Permutation].
  destruct (finish_ok P1 st _ _ _ _ _ _ _ _ _ _ _ T F _ _ _ _ (true_key_op P1 b (Z.of_nat (length args)) Hb)
    (false_key_op P1 b (Z.of_nat (length args)) Hb) Hw1)
    as (h2 & c2 & u & n & E2 & Hw2 & Hm2 & [Ho2 Hrd] & Hnull & Hu); [by apply (elems_grows P h)..|].
  exists P1, h2, c2, lt1, lf1, u, n. rewrite !app_assoc. split_and!; try done.
  - rewrite walker_bool. cbn [expression_tree_walker walk_args]. unfold walk_bool. do 2 erewrite bind_Ok by reflexivity.
    erewrite bind_Ok by exact E1. destruct b; try done; by erewrite bind_Ok by exact E2.
  - eapply grows_trans; [exact Hg1|]. by apply grows_same.
  - by rewrite Hrd.
  - destruct Ho2 as (_ & -> & _). exact Hc1.
  - apply (qinv_step P1 st R h1 c1 h2 c2 csV csS pv); try done; [exact (winv_heap_ok _ _ _ _ _ _ _ _ _ Hw1)|].
    subst r. by destruct b.
  - subst r. by destruct b.
Qed.

Lemma and_or_walks st b args loc (f g : node → list key) G S V :
  b ≠ NOT_EXPR → Forall (λ x, walks (W x) st (f x) (g x) (G x) (S x) (V x)) args →
  let r := combine_keys b (Z.of_nat (length args)) (concat (map f args)) (concat (map g args)) in
  walks (W (BoolExpr b (NList args) loc)) st r.1 r.2 (concat (map G args) ++ [r.2])
    (concat (map S args)) (concat (map V args)).
Proof.
  intros Hb Hall r P R h c T F lt lf tv Sc Hq Hr.
  destruct (and_or_run st b args loc f g G S V Hb Hall _ _ _ _ _ _ _ _ _ _ Hq Hr)
    as (P' & h' & c' & lt' & lf' & u & n & E & Hg & Hc & Hq' & Hl & HG & Hn & _).
  exists P', h', c', (lt' ++ [u]), (lf' ++ [n]). destruct Hc. split_and!; try done.
  - rewrite !length_app. cbn. congruence.
  - by apply Forall2_app; [|constructor].
Qed.

(** ** Queries *)

Lemma refs_walk fl s : forallb is_rtref fl = true → W (NList fl) s = Ok (false, s).
Proof.
  intros Hf. rewrite walker_other by done. cbn. revert s. induction fl as [|x fl IH]; intros s; [done|].
  cbn in Hf. apply andb_true_iff in Hf as [Hx Hf]. destruct x; try done. cbn. rewrite walker_other by done. cbn.
  by apply IH.
Qed.

(** A finished scope. *)
Lemma building_scopes P h c R q rels S st :
  building P h c R q rels S → scopes P h q st →
  ∃ P' csS, grows P h P' h ∧ scopes P' h (w_current_trueVar c) (rels :: st) ∧
    sep P' h ((w_list_of_not_null_att_schem c, csS) :: R) ∧ elems P' h csS S.
Proof.
  intros (csC & csS & ps & Hs & Hd & Hps & HS) Hsc.
  assert (is_list h T_List (w_current_trueVar c) csC) as Hl by by eapply (sep_head P h (_, csC)).
  assert (heap_ok h) as Hok by by eapply sep_heap_ok.
  apply sep_absorb in Hs. set (P' := λ x, P x ∨ _) in *. assert (grows P h P' h) as Hg by (split; [by left|done]).
  exists P', csS. split_and!; try done; [|by apply (elems_grows P h)].
  exists csC, q, ps. split_and!; [done|done|by right|by apply (scopes_grows P h)|].
  eapply Forall2_impl; [exact Hps|]. intros p ks. by apply col_list_grows.
Qed.

(** Building the scope of a query and noting it. *)
Lemma enter_query P st R h c T F lt lf tv S rt :
  forallb is_relation rt = true → qinv P st R h c T F lt lf tv S →
  ∃ P' h' c', (
      l <- zoom (lappend None (w_current_trueVar c));;
      modc (w_set_current l);;;
      result <- walk_list W rt;;
      c <- getc;;
      tvs <- zoom (lappend (w_trueVars c) (w_current_trueVar c));;
      modc (w_set_trueVars tvs);;; ret result) (h, c) = Ok (false, (h', c')) ∧ grows P h P' h' ∧
    (w_ready c' = w_ready c ∧ w_list_of_not_null_to_be_true c' = w_list_of_not_null_to_be_true c) ∧
    qinv P' (scope_of rt :: st) R h' c' T F lt lf (tv ++ [scope_of rt :: st]) (S ++ not_null_columns rt).
Proof.
  intros Hr (csV & csS & pv & (csT & csF & csLT & csLF & Hs & HT & HF & HLT & HLF & Hsc) & Hpv & Hpsc & HS).
  pose proof (sep_heap_ok _ _ _ Hs) as Hok.
  destruct (sep_lappend P h None [] _ (w_current_trueVar c) (sep_nil _ _ _ Hs)) as (cur & l & h1 & E1 & Hs1 & Hm1).
  cbn [app] in Hs1. set (c1 := w_set_current cur c).
  set (R' := (w_list_of_not_null_to_be_true c, csT) :: (w_list_of_not_null_to_be_false c, csF) ::
    (w_list_list_true c, csLT) :: (w_list_list_false c, csLF) :: (w_trueVars c, csV) :: R).
  eapply (sep_perm _ _ _ ((cur, [(l, DPtr (w_current_trueVar c))]) :: (w_list_of_not_null_att_schem c, csS) :: R')) in Hs1;
    [|subst R'; solve_Permutation].
  destruct (rtable_ok rt Hr P h1 c1 R' (w_current_trueVar c) [] S) as (P2 & h2 & cur2 & s2 & E2 & Hg2 & Hb2).
  { eexists _, _, []. split; [exact Hs1|]. split; [done|]. split; [constructor|by apply (elems_same P h)]. }
  assert (grows P h P2 h2) as Hg by (eapply grows_trans; [by apply grows_same|exact Hg2]).
  destruct (building_scopes _ _ _ _ _ _ _ st Hb2) as (P3 & csS3 & Hg3 & Hsc3 & Hs3 & HS3);
    [by apply (scopes_grows P h)|]. cbn in Hsc3, Hs3.
  assert (heap_ok h2) as Hok2 by by eapply sep_heap_ok.
  eapply (sep_perm _ _ _ ((w_trueVars c, csV) :: (w_list_of_not_null_att_schem (w_set_schem s2 c), csS3) ::
    (w_list_of_not_null_to_be_true c, csT) :: (w_list_of_not_null_to_be_false c, csF) :: (w_list_list_true c, csLT) ::
    (w_list_list_false c, csLF) :: R)) in Hs3; [|subst R'; cbn; solve_Permutation].
  destruct (sep_lappend _ _ _ _ _ cur2 Hs3) as (tvs & l4 & h4 & E4 & Hs4 & Hm4).
  assert (grows P2 h2 P3 h4) as Hg4 by (eapply grows_trans; [exact Hg3|by apply grows_same]).
  assert (grows P h P3 h4) as Hg' by by eapply grows_trans.
  exists P3, h4, (w_set_trueVars tvs (w_set_current cur2 (w_set_schem s2 c1))). split; [|split; [done|split; [done|]]].
  { erewrite bind_Ok by (apply zoom_Ok; exact E1). erewrite bind_Ok by reflexivity. erewrite bind_Ok by exact E2.
    erewrite bind_Ok by reflexivity. erewrite bind_Ok by (apply zoom_Ok; exact E4). by erewrite bind_Ok by reflexivity. }
  exists (csV ++ [(l4, DPtr cur2)]), csS3, (pv ++ [cur2]). split_and!.
  - exists csT, csF, csLT, csLF. split_and!; try done; try by apply (elems_grows P h).
    + eapply sep_perm; [|exact Hs4]. cbn. solve_Permutation.
    + by apply (scopes_same P3 h2).
  - by apply ptrs_snoc.
  - apply Forall2_app; [|constructor; [|constructor]; by apply (scopes_same P3 h2)].
    eapply Forall2_impl; [exact Hpsc|]. intros p t. by apply scopes_grows.
  - by apply (elems_same P3 h2).
Qed.

(** Leaving a query: the scope of the enclosing one comes back. *)
Lemma qinv_leave P rels st R h c T F lt lf tv S p :
  scopes P h p st → qinv P (rels :: st) R h c T F lt lf tv S → qinv P st R h (w_set_current p c) T F lt lf tv S.
Proof.
  intros Hsc (csV & csS & pv & (csT & csF & csLT & csLF & Hs & HT & HF & HLT & HLF & _) & Hpv & Hpsc & HS).
  exists csV, csS, pv. split_and!; try done. exists csT, csF, csLT, csLF. split_and!; try done.
Qed.

Lemma qinv_facts P st R h c T F lt lf tv S :
  qinv P st R h c T F lt lf tv S → heap_ok h ∧ scopes P h (w_current_trueVar c) st.
Proof.
  intros (csV & csS & pv & (csT & csF & csLT & csLF & Hs & HT & HF & HLT & HLF & Hsc) & _).
  split; [by eapply sep_heap_ok|done].
Qed.

(** A query walks its condition in its own scope. *)
Lemma query_run P st R h c T F lt lf tv S qi rt fl quals tl :
  forallb is_relation rt = true → forallb is_rtref fl = true → qinv P st R h c T F lt lf tv S →
  ∃ P' h' c', grows P h P' h' ∧
    (w_ready c' = w_ready c ∧ w_list_of_not_null_to_be_true c' = w_list_of_not_null_to_be_true c) ∧
    qinv P' (scope_of rt :: st) R h' c' T F lt lf (tv ++ [scope_of rt :: st]) (S ++ not_null_columns rt) ∧
    ∀ h2 c2, W quals (h', c') = Ok (false, (h2, c2)) →
      W (Query qi (NList rt) (FromExpr (NList fl) quals) tl) (h, c) =
        Ok (false, (h2, w_set_current (w_current_trueVar c) c2)).
Proof.
  intros Hr Hf Hinv.
  destruct (enter_query _ _ _ _ _ _ _ _ _ _ _ rt Hr Hinv) as (P1 & h1 & c1 & E1 & Hg1 & Ht1 & Hq1).
  exists P1, h1, c1. split; [done|]. split; [done|]. split; [done|]. intros h2 c2 E2.
  rewrite walker_query. unfold walk_query. erewrite bind_Ok by reflexivity.
  repeat (let x := fresh in let s := fresh in let E := fresh in apply bind_inv in E1 as (x & s & E & E1);
    cbn [expression_tree_walker walk_args] in *; erewrite bind_Ok by exact E).
  injection E1 as -> ->. erewrite bind_Ok.
  2: { cbn [expression_tree_walker]. erewrite bind_Ok by by apply refs_walk. exact E2. }
  by erewrite bind_Ok by reflexivity.
Qed.

Lemma query_walks st qi rt fl quals tl T F G S V :
  forallb is_relation rt = true → forallb is_rtref fl = true →
  walks (W quals) (scope_of rt :: st) T F G S V →
  walks (W (Query qi (NList rt) (FromExpr (NList fl) quals) tl)) st T F G
    (not_null_columns rt ++ S) ((scope_of rt :: st) :: V).
Proof.
  intros Hr Hf Hq P R h c T0 F0 lt lf tv S0 Hinv Hrd. destruct (qinv_facts _ _ _ _ _ _ _ _ _ _ _ Hinv) as [Hok Hsc].
  destruct (query_run _ _ _ _ _ _ _ _ _ _ _ qi rt fl quals tl Hr Hf Hinv) as (P1 & h1 & c1 & Hg1 & [Hr1 _] & Hq1 & Hrun).
  rewrite <- Hr1 in Hrd.
  destruct (Hq _ _ _ _ _ _ _ _ _ _ Hq1 Hrd) as (P2 & h2 & c2 & lt2 & lf2 & E2 & Hg2 & [Hr2 Hc2] & Hq2 & Hn2 & HG2).
  assert (grows P h P2 h2) as Hg by by eapply grows_trans.
  exists P2, h2, (w_set_current (w_current_trueVar c) c2), lt2, lf2. split_and!; try done; [by apply Hrun|].
  rewrite (cons_middle _ tv V), !app_assoc. eapply qinv_leave; [by apply (scopes_grows P h)|exact Hq2].
Qed.

Lemma exists_walks st qi rt fl quals tl T F G S V :
  forallb is_relation rt = true → forallb is_rtref fl = true →
  walks (W quals) (scope_of rt :: st) T F G S V →
  walks (W (SubLink EXISTS_SUBLINK NULL (Query qi (NList rt) (FromExpr (NList fl) quals) tl))) st T F G
    (not_null_columns rt ++ S) ((scope_of rt :: st) :: V).
Proof.
  intros Hr Hf Hq P R h c T0 F0 lt lf tv S0 Hinv Hrd.
  destruct (query_walks st qi rt fl quals tl _ _ _ _ _ Hr Hf Hq _ _ _ _ _ _ _ _ _ _ Hinv Hrd)
    as (P' & h' & c' & lt' & lf' & E & Hrest). exists P', h', c', lt', lf'. split; [|exact Hrest].
  rewrite walker_other by done. cbn [expression_tree_walker]. rewrite (walker_other NULL) by done. exact E.
Qed.

End Walk.

(** ** The walker for Codd nulls *)

Section Codd.
Context {B : Build} {C : SysCache}.

(** Nothing is required of [ready]. *)
Definition any_ready (b : bool) : Prop := True.

Local Abbreviation walks := (walks (ready_ok := any_ready)).

Lemma op_walks st o args :
  args ≠ [] → forallb is_term args = true → resolved st (NList args) →
  walks (my_walker (OpExpr o (NList args))) st (union_keys (op_keys st args)) [] [] [] [].
Proof.
  intros Hne Ht Hres P R h c T F lt lf tv S (csV & csS & pv & Hw & Hpv & Hsc & HS) _.
  destruct (op_walk P st o args _ _ _ _ _ _ _ Hne Ht Hres Hw) as (h' & c' & E & Hw' & Hm & Ho).
  exists P, h', c', [], []. rewrite !app_nil_r. split_and!; try done; [by apply Ho|].
  apply (qinv_step P st R h c h' c' csV csS pv); try done. exact (winv_heap_ok _ _ _ _ _ _ _ _ _ Hw).
Qed.

(** The walker on every condition of the fragment. *)
Lemma my_walker_walks n st : query_cond st n →
  walks (my_walker n) st (collect st n).1 (collect st n).2 (recorded st n) (schema n) (stacks st n).
Proof.
  revert n st. apply query_cond_ind.
  - intros st o args Hne Ht Hres. by apply op_walks.
  - intros st b args loc Hne Hn _ Hall. destruct (decide (b = NOT_EXPR)) as [->|Hb].
    + destruct (Hn eq_refl) as [x ->]. apply Forall_cons in Hall as [Hx _].
      cbn [collect recorded schema stacks map concat combine_keys fst snd].
      rewrite bool_decide_eq_true_2, !app_nil_r by done. by apply not_walks.
    + cbn [recorded schema stacks]. rewrite bool_decide_eq_false_2 by done.
      exact (and_or_walks st b args loc _ _ _ _ _ Hb Hall).
  - intros st qi rt fl quals tl Hr Hf _ Hq. by apply exists_walks.
Qed.
End Codd.

Lemma walkable_cond {C : SysCache} st n : walkable n = true → resolved st n → query_cond st n.
Proof.
  revert n. apply (walkable_ind (λ n, resolved st n → query_cond st n)); [by intros|].
  intros b args loc Hne Hn _ IH Hres. pose proof (resolved_args st args Hres) as Hra.
  split; [done|]. split; [intros ->; by destruct (Hn eq_refl) as [x ->]|]. clear -IH Hra.
  induction IH as [|x l Hx _ IHl]; [done|]. apply Forall_cons in Hra as [Hrx Hrl]. split; [by apply Hx|by apply IHl].
Qed.

(** ** Properties *)

(** C8: on a condition made of comparisons, AND, OR, NOT and EXISTS over plain relations
    whose variables are in scope, run in any context whose lists do not overlap,
    [my_walker] returns, appends to the two lists of columns exactly what [collect]
    computes from the condition, records one list per AND and OR in [list_list_true]
    and in [list_list_false], builds the scope of every sub-query and notes the columns
    of their relations that are declared NOT NULL; nothing that it built before
    changes. *)
Theorem my_walker_refines_collect {B : Build} {C : SysCache} P st n R h c T F lt lf tv S :
  query_cond st n → qinv P st R h c T F lt lf tv S →
  ∃ P' h' c' lt' lf', my_walker n (h, c) = Ok (false, (h', c')) ∧ same P h h' ∧
    qinv P' st R h' c' (T ++ (collect st n).1) (F ++ (collect st n).2) (lt ++ lt') (lf ++ lf')
      (tv ++ stacks st n) (S ++ schema n) ∧
    length lt' = length (recorded st n) ∧ Forall2 null_if lf' (recorded st n).
Proof.
  intros Hn Hq. destruct (my_walker_walks n st Hn _ _ _ _ _ _ _ _ _ _ Hq Logic.I)
    as (P' & h' & c' & lt' & lf' & E & [_ Hs] & _ & Hrest). by exists P', h', c', lt', lf'.
Qed.

(** C9: what the walker collects for a condition built from comparisons of terms, AND, OR and
    NOT alone (no null tests and no EXISTS), with variables in scope, when it starts with
    empty lists: it returns, and the columns of the first list have a value whenever the
    condition is true, those of the second whenever it is false, in three-valued logic, for
    operators and functions that are strict, provided that the value of a variable depends
    only on its relation and column, so that no relation may be joined with itself. *)
Theorem my_walker_not_null {B : Build} {C : SysCache} P st n R h c lt lf tv S :
  walkable n = true → resolved st n → qinv P st R h c [] [] lt lf tv S →
  ∃ P' h' c' csT csF T F, my_walker n (h, c) = Ok (false, (h', c')) ∧
    vars_in P' h' (w_list_of_not_null_to_be_true c') csT T ∧
    vars_in P' h' (w_list_of_not_null_to_be_false c') csF F ∧
    ∀ (I : Interp) (e : env) (rho : key → option Z),
      (∀ v k, resolve st v = Some k → look e v = rho k) →
      (eval n e = TT → ∀ k, k ∈ T → rho k ≠ None) ∧
      (eval n e = FF → ∀ k, k ∈ F → rho k ≠ None).
Proof.
  intros Hw Hres Hinv. destruct (my_walker_walks n st (walkable_cond st n Hw Hres) _ _ _ _ _ _ _ _ _ _ Hinv Logic.I)
    as (P' & h' & c' & lt' & lf' & E & _ & _ & Hinv' & _).
  destruct Hinv' as (csV & csS & pv & (csT & csF & csLT & csLF & Hs & HT & HF & _) & _).
  exists P', h', c', csT, csF, (collect st n).1, (collect st n).2. split; [done|].
  split; [split; [by eapply (sep_head P' h' (_, csT))|done]|].
  split; [split; [by eapply (sep_head P' h' (_, csF)), sep_drop|done]|].
  intros I e rho Henv. by apply collect_sound.
Qed.

(** The context of the sample heap, with empty lists; its region is the whole heap. *)
Definition sample_walker : context_walker_set_constraint :=
  mkWalkerCtx None (Some 6%positive) None None None None false None None.

Definition in_sample (x : positive) : Prop := (x < 7)%positive.

Lemma sample_qinv : qinv in_sample [[[(20, 1)]]] [] sample_heap sample_walker [] [] [] [] [] [].
Proof.
  exists [], [], []. split; [|split; [done|split; [constructor|apply elems_nil]]].
  exists [], [], [], []. split_and!; try done; try apply elems_nil.
  - do 6 apply sep_nil. split_and!; [exact sample_heap_ok|done|constructor|done].
  - destruct sample_scopes as (cs & q & ps & Hl & Hd & _ & _ & Hps).
    exists [(4%positive, DPtr None); (5%positive, DPtr (Some 3%positive))], None, [Some 3%positive].
    split. { split; [done|]. split; [reflexivity|]. cbn. eauto 10. }
    assert (∀ l, Forall in_sample l → ∀ x, x ∈ l → in_sample x) as HF by (intros l H; by apply Forall_forall).
    split; [done|]. split; [apply HF; unfold footprint; cbn; repeat constructor|]. split; [done|].
    constructor; [|constructor]. exists [(2%positive, DPtr (Some 1%positive))].
    split; [|apply HF; unfold footprint; cbn; repeat constructor]. split.
    { split; [done|]. split; [reflexivity|]. cbn. eauto 10. }
    exists [Some 1%positive]. split; [done|]. split; [|reflexivity]. constructor; [|constructor].
    split; [by exists 1%positive|]. intros l [= <-]. done.
Qed.

(** x = 1 AND NOT (x > 2 OR NOT (x = x)) *)
Definition sample_bool : node :=
  all_of [cmp 98 (col 0 1 1) (lit 1);
          no (any_of [cmp 521 (col 0 1 1) (lit 2); no (cmp 98 (col 0 1 1) (col 0 1 1))])].

Lemma sample_resolved : resolved [[[(20, 1)]]] sample_bool.
Proof. repeat constructor; by exists (20, 1). Qed.

(** x = 1 AND NOT (x > 2 OR NOT (x = x)), and the first with NOT EXISTS (SELECT ... FROM
    t, s WHERE t.x = x). *)
Definition sample_nested : node :=
  all_of [sample_bool; no (in_exists (select [10; 30] (cmp 98 (col 0 2 1) (col 1 1 1))))].

Lemma my_walker_refines_collect_witness :
  ∃ P' h' c' lt' lf', my_walker (B := with_asserts) (C := sample_catalog) sample_nested (sample_heap, sample_walker) =
      Ok (false, (h', c')) ∧ same in_sample sample_heap h' ∧
    qinv P' [[[(20, 1)]]] [] h' c' [(20, 1)] [] lt' lf'
      [[[[(10, 1); (10, 2)]; [(30, 1); (30, 2)]]; [[(20, 1)]]]] [(10, 1)] ∧
    length lt' = 3%nat ∧ Forall2 null_if lf' [[(20, 1)]; []; []].
Proof.
  apply (my_walker_refines_collect (B := with_asserts) (C := sample_catalog) in_sample [[[(20, 1)]]] sample_nested
    [] sample_heap sample_walker [] [] [] [] [] []); [|exact sample_qinv].
  cbn. split_and!; try done; try (by repeat constructor; eexists).
Defined.

Lemma my_walker_not_null_witness :
  ∃ P' h' c' csT csF T F,
    my_walker (B := without_asserts) (C := sample_catalog) sample_bool (sample_heap, sample_walker) =
      Ok (false, (h', c')) ∧
    vars_in P' h' (w_list_of_not_null_to_be_true c') csT T ∧
    vars_in P' h' (w_list_of_not_null_to_be_false c') csF F ∧
    ∀ (I : Interp) (e : env) (rho : key → option Z),
      (∀ v k, resolve [[[(20, 1)]]] v = Some k → look e v = rho k) →
      (eval sample_bool e = TT → ∀ k, k ∈ T → rho k ≠ None) ∧
      (eval sample_bool e = FF → ∀ k, k ∈ F → rho k ≠ None).
Proof.
  exact (my_walker_not_null (B := without_asserts) (C := sample_catalog) in_sample [[[(20, 1)]]] sample_bool
    [] sample_heap sample_walker [] [] [] [] eq_refl sample_resolved sample_qinv).
Defined.
