(* ===== verification/QueryMutate.v ===== *)
(** The mutators of the two hooks under a negation, on whole conditions.

    A mutator reads the lists that the walker left on the heap and makes copies of one
    of them; it never changes an object that was there before.  On conditions of
    comparisons, AND, OR and EXISTS it returns; the scope of the n-th sub-query it
    enters is the n-th that the walker built.  The theorems hold for every mutator with
    the cases of [MutatorCases] that keeps the promise [NegativeOps] on comparisons, and
    for every notion of completing a database with nulls ([Completion]). *)

From S2P Require Import Prelude Nodes Terms PgList ListSpec ListOps ListSets TrueVar TrueVarSpec.
From S2P Require Import Walker Codd HookClass Semantics SplitProps Mutators CoddProps CoddNeg NotNull Regions WalkerSpec QueryWalk Samples.

Section NegCond.
Context {C : SysCache} (neg_op : opinfo → list node → Prop).

(** Conditions that stand under a negation: comparisons that the mutator can treat, AND,
    OR and EXISTS, with all variables in scope. *)
Fixpoint neg_cond (st : stack) (n : node) : Prop :=
  match n with
  | OpExpr o (NList args) =>
      neg_op o args ∧ args ≠ [] ∧ forallb is_term args = true ∧ resolved st (NList args)
  | BoolExpr b (NList args) _ =>
      b ≠ NOT_EXPR ∧ args ≠ [] ∧
      (fix go (l : list node) : Prop := match l with [] => True | x :: l => neg_cond st x ∧ go l end) args
  | SubLink EXISTS_SUBLINK NULL (Query _ (NList rtable) (FromExpr (NList fl) quals) _) =>
      forallb is_relation rtable = true ∧ forallb is_rtref fl = true ∧ neg_cond (scope_of rtable :: st) quals
  | _ => False
  end.

Lemma neg_args st l :
  (fix go (l : list node) : Prop := match l with [] => True | x :: l => neg_cond st x ∧ go l end) l ↔
  Forall (neg_cond st) l.
Proof. induction l as [|x l IH]; [done|]. by rewrite Forall_cons, IH. Qed.

Lemma neg_query_cond n st : neg_cond st n → query_cond st n.
Proof.
  revert st. enough (∀ n, (∀ st, neg_cond st n → query_cond st n) ∧
    match n with
    | NList l => Forall (λ x, ∀ st, neg_cond st x → query_cond st x) l
    | FromExpr _ quals | Query _ _ (FromExpr _ quals) _ => ∀ st, neg_cond st quals → query_cond st quals
    | _ => True
    end) as H by apply H.
  clear n. induction n using node_ind'; (split; [|try done]); try done.
  - intros st. destruct n; try done. by intros (_ & ? & ? & ?).
  - intros st. destruct n; try done. intros (Hb & Hne & Hall). destruct IHn as [_ IHl].
    split; [done|]. split; [done|]. clear -Hall IHl.
    induction elements as [|x l IH]; [done|]. destruct Hall. apply Forall_cons in IHl as [Hx Hl]. split; [by apply Hx|by apply IH].
  - intros st. destruct t; try done. destruct n1; try done.
    destruct n2 as [| | | | | | | | | | | | | |qi rt jt tl| |]; try done.
    destruct rt as [| | | | | | | | | | | | | | |rt|]; try done. destruct jt as [| | | | | | | | | | | |fl quals| | | |]; try done.
    destruct fl as [| | | | | | | | | | | | | | |fl|]; try done.
    intros (? & ? & ?). destruct IHn2 as [_ IHq]. split_and!; auto.
  - apply IHn2.
  - destruct IHn2 as [_ IHj]. by destruct n2.
  - eapply Forall_impl; [exact H|]. naive_solver.
Qed.

(** Induction on such conditions, by that on [query_cond]. *)
Lemma neg_cond_ind (Q : stack → node → Prop) :
  (∀ st o args, neg_op o args → args ≠ [] → forallb is_term args = true → resolved st (NList args) →
     Q st (OpExpr o (NList args))) →
  (∀ st b args loc, b ≠ NOT_EXPR → args ≠ [] → Forall (neg_cond st) args → Forall (Q st) args →
     Q st (BoolExpr b (NList args) loc)) →
  (∀ st qi rtable fl quals tl, forallb is_relation rtable = true → forallb is_rtref fl = true →
     neg_cond (scope_of rtable :: st) quals → Q (scope_of rtable :: st) quals →
     Q st (SubLink EXISTS_SUBLINK NULL (Query qi (NList rtable) (FromExpr (NList fl) quals) tl))) →
  ∀ n st, neg_cond st n → Q st n.
Proof.
  intros Hop Hbool Hex n st Hn. pose proof (neg_query_cond n st Hn) as Hq. revert Hn. revert n st Hq.
  apply (query_cond_ind (λ st n, neg_cond st n → Q st n)).
  - intros st o args _ _ _ (? & ? & ? & ?). by apply Hop.
  - intros st b args loc Hne _ _ IH (Hb & _ & Hall%neg_args). apply Hbool; [done..|].
    rewrite Forall_forall in IH, Hall |- *. auto.
  - intros st qi rt fl quals tl Hr Hf _ IH (_ & _ & Hn). by apply Hex; auto.
Qed.

End NegCond.

(** ** Possible truth *)

(** How values may change when the nulls of a database are given values, and which
    values are no nulls. *)
Class Completion := {
  becomes : option Z → option Z → Prop;
  is_value : option Z → Prop;
  becomes_none : becomes None None }.

Definition row_becomes {Co : Completion} (r r' : row) : Prop := ∀ a, becomes (r a) (r' a).

Definition env_becomes {Co : Completion} (e e' : env) : Prop :=
  ∀ lv no att, becomes (e lv no att) (e' lv no att).

(** The same operators and functions over another database. *)
Definition with_db (I : Interp) (db' : Z → list row) : Interp :=
  {| op_den := op_den; func_den := func_den; db := db' |}.

(** The relations of the sub-queries of a condition. *)
Fixpoint relids (n : node) : list Z :=
  match n with
  | BoolExpr _ (NList args) _ => concat (map relids args)
  | SubLink _ _ (Query _ (NList rtable) (FromExpr _ quals) _) => map entry_relid rtable ++ relids quals
  | _ => []
  end.

Section Possible.
Context {C : SysCache} {I : Interp} {Co : Completion} (db' : Z → list row).

(** The columns [K] have values. *)
Definition knows (st : stack) (K : list key) (e : env) : Prop :=
  ∀ v k, resolve st v = Some k → k ∈ K → is_value (look e v).

(** Of the relations of the sub-queries, only columns declared NOT NULL are in [K]. *)
Definition respects (K : list key) (n : node) : Prop :=
  ∀ k, k ∈ K → k.1 ∈ relids n → get_pg_att_not_null k.1 k.2 = true.

(** [n'] is true wherever [n] is true after completion, and false only where [n] is
    false after completion. *)
Definition possible (st : stack) (K : list key) (n n' : node) : Prop := ∀ e e',
  env_becomes e e' → knows st K e →
  (eval (I := with_db I db') n e' = TT → eval n' e = TT) ∧ (eval n' e = FF → eval (I := with_db I db') n e' = FF).

(** The columns declared NOT NULL have values in the database, and [db'] completes it. *)
Definition catalog_known : Prop :=
  ∀ r x att, x ∈ db r → get_pg_att_not_null r att = true → is_value (x att).

Definition db_becomes : Prop := ∀ r, Forall2 row_becomes (db r) (db' r).

(** A row of the completed database comes from a row of the database. *)
Lemma db_origin r x' : db_becomes → x' ∈ db' r → ∃ x, x ∈ db r ∧ row_becomes x x'.
Proof.
  intros Hdb [i Hi]%list_elem_of_lookup. destruct (Forall2_lookup_r _ _ _ _ _ (Hdb r) Hi) as (x & Hx & Hc).
  exists x. split; [by eapply list_elem_of_lookup_2|done].
Qed.

Lemma rows_origin rt rows' : db_becomes → forallb is_relation rt = true →
  rows' ∈ product (map (rte_rows (I := with_db I db')) rt) →
  ∃ rows, rows ∈ product (map rte_rows rt) ∧ Forall2 row_becomes rows rows'.
Proof.
  intros Hdb Hr. rewrite product_elem. setoid_rewrite product_elem. revert rows'.
  induction rt as [|x rt IH]; intros rows'; cbn.
  - intros ->%Forall2_nil_inv_r. by exists [].
  - cbn in Hr. apply andb_true_iff in Hr as [Hx Hr]. intros (r' & rest' & Hr' & Hrest & ->)%Forall2_cons_inv_r.
    destruct (IH Hr rest' Hrest) as (rest & H1 & H2).
    destruct x as [| | | | | | | | | | | | |ri sub| | |]; try done. apply bool_decide_eq_true in Hx.
    cbn in Hr'. rewrite Hx in Hr'. destruct (db_origin _ _ Hdb Hr') as (r & Hr1 & Hr2).
    exists (r :: rest). split; [|by constructor]. constructor; [|done]. cbn. by rewrite Hx.
Qed.

Lemma becomes_push rows rows' e e' :
  Forall2 row_becomes rows rows' → env_becomes e e' → env_becomes (push rows e) (push rows' e').
Proof.
  intros Hrows He lv no att. unfold push. destruct (lv =? 0); [|apply He].
  destruct (rows !! Z.to_nat (no - 1)) as [r|] eqn:E; unfold row in *.
  - destruct (Forall2_lookup_l _ _ _ _ _ Hrows E) as (r' & E' & Hr). rewrite E'. apply Hr.
  - destruct (rows' !! Z.to_nat (no - 1)) as [r'|] eqn:E'; [|apply becomes_none].
    destruct (Forall2_lookup_r _ _ _ _ _ Hrows E') as (r & E2 & _). congruence.
Qed.

(** ** Scopes *)

Lemma columns_lookup n r i j k : columns n r i !! j = Some k → k = (r, i + Z.of_nat j).
Proof.
  revert i j. induction n as [|n IH]; intros i [|j]; cbn; try done.
  - intros [= <-]. f_equal. lia.
  - intros H%IH. rewrite H. f_equal. lia.
Qed.

(** A local variable refers to a column of one of the relations. *)
Lemma resolve_local rt st v k : resolve (scope_of rt :: st) v = Some k → varlevelsup v = 0 →
  1 ≤ varno v ∧ k.2 = varattno v ∧ ∃ x, rt !! Z.to_nat (varno v - 1) = Some x ∧ k.1 = entry_relid x.
Proof.
  unfold resolve. intros H Hlv. destruct (_ && _) eqn:Hb; [|done]. rewrite !andb_true_iff, !Z.leb_le in Hb.
  rewrite Hlv in H. apply bind_Some in H as (rels & [= <-] & H). apply bind_Some in H as (ks & Hks & Hk).
  apply (list_lookup_fmap_Some (λ n, rel_columns (entry_relid n))) in Hks as (x & -> & Hx). apply columns_lookup in Hk. subst k. cbn.
  split; [lia|]. split; [lia|]. eauto.
Qed.

Definition with_level (lv : Z) (v : var) : var :=
  mkVar (varno v) (varattno v) (vartype v) (vartypmod v) (varcollid v) lv (varnoold v) (varoattno v) (var_location v).

(** Any other is a variable of the enclosing query. *)
Lemma resolve_outer rels st v k : resolve (rels :: st) v = Some k → varlevelsup v ≠ 0 →
  resolve st (with_level (varlevelsup v - 1) v) = Some k ∧
  ∀ rows e, look (push rows e) v = look e (with_level (varlevelsup v - 1) v).
Proof.
  unfold resolve. intros H Hlv. destruct (_ && _) eqn:Hb; [|done]. rewrite !andb_true_iff, !Z.leb_le in Hb. cbn.
  split.
  - replace (0 <=? varlevelsup v - 1) with true by lia. replace (1 <=? varno v) with true by lia.
    replace (1 <=? varattno v) with true by lia. cbn.
    by replace (Z.to_nat (varlevelsup v)) with (S (Z.to_nat (varlevelsup v - 1))) in H by lia.
  - intros rows e. unfold look, push. by destruct (Z.eqb_spec (varlevelsup v) 0).
Qed.

(** What is known in a query is known in its sub-queries. *)
Lemma knows_push rt st K e rows :
  catalog_known → forallb is_relation rt = true → rows ∈ product (map rte_rows rt) →
  (∀ k, k ∈ K → k.1 ∈ map entry_relid rt → get_pg_att_not_null k.1 k.2 = true) →
  knows st K e → knows (scope_of rt :: st) K (push rows e).
Proof.
  intros Hcat Hr Hrows HK He v k Hk Hin. destruct (decide (varlevelsup v = 0)) as [Hlv|Hlv].
  - destruct (resolve_local _ _ _ _ Hk Hlv) as (Hno & Hatt & x & Hx & Hrel).
    apply product_elem in Hrows. unfold look, push. rewrite Hlv. cbn.
    assert (map rte_rows rt !! Z.to_nat (varno v - 1) = Some (rte_rows x)) as Hm
      by (etrans; [apply (list_lookup_fmap rte_rows)|by rewrite Hx]).
    destruct (Forall2_lookup_r _ _ _ _ _ Hrows Hm) as (r & Er & Hin').
    assert (is_relation x = true) as Hrx by (apply forallb_Forall in Hr; rewrite Forall_lookup in Hr; eauto).
    destruct x as [| | | | | | | | | | | | |ri sub| | |]; try done. apply bool_decide_eq_true in Hrx.
    cbn in Hin', Hrel. rewrite Hrx in Hin'.
    replace (rows !! Z.to_nat (varno v - 1)) with (Some r) by (symmetry; exact Er).
    apply (Hcat (relid ri)); [done|]. rewrite <- Hrel, <- Hatt. apply HK; [done|]. rewrite Hrel.
    change (relid ri) with (entry_relid (RangeTblEntry ri sub)). apply list_elem_of_fmap.
    eexists. split; [done|]. by eapply list_elem_of_lookup_2.
  - destruct (resolve_outer _ _ _ _ Hk Hlv) as [Hk' Hl]. rewrite Hl. by apply (He _ k).
Qed.

(** ** Connectives and sub-queries *)

Lemma possible_and_or st K b args args' loc : b ≠ NOT_EXPR → Forall2 (possible st K) args args' →
  possible st K (BoolExpr b (NList args) loc) (BoolExpr b (NList args') loc).
Proof.
  intros Hb Hall e e' Hc Hk.
  assert (Forall2 (λ x x', (eval (I := with_db I db') x e' = TT → eval x' e = TT) ∧
    (eval x' e = FF → eval (I := with_db I db') x e' = FF)) args args') as H.
  { eapply Forall2_impl; [exact Hall|]. intros x x' Hx. by apply Hx. }
  clear Hall. destruct b; [| |done]; cbn [eval]; split.
  - rewrite !and3_list_TT. induction H as [|x x' l l' Hx _ IH]; [done|]. cbn. rewrite !Forall_cons. naive_solver.
  - rewrite !and3_list_FF. induction H as [|x x' l l' Hx _ IH]; [done|]. cbn. rewrite !elem_of_cons. naive_solver.
  - rewrite !or3_list_TT. induction H as [|x x' l l' Hx _ IH]; [done|]. cbn. rewrite !elem_of_cons. naive_solver.
  - rewrite !or3_list_FF. induction H as [|x x' l l' Hx _ IH]; [done|]. cbn. rewrite !Forall_cons. naive_solver.
Qed.

(** EXISTS is never unknown. *)
Lemma two_valued t q q' rt fl fl' quals quals' tl tl' e e' :
  let n := SubLink EXISTS_SUBLINK t (Query q rt (FromExpr fl quals) tl) in
  let n' := SubLink EXISTS_SUBLINK t (Query q' rt (FromExpr fl' quals') tl') in
  (eval (I := with_db I db') n e' = TT → eval n' e = TT) →
  (eval (I := with_db I db') n e' = TT → eval n' e = TT) ∧ (eval n' e = FF → eval (I := with_db I db') n e' = FF).
Proof.
  intros n n' H. split; [done|]. intros HF. destruct (eval (I := with_db I db') n e') eqn:E; [done| |by rewrite H in HF].
  subst n. cbn [eval] in E. by destruct (existsb _ _).
Qed.

Lemma possible_exists st K qi rt fl fl' quals quals' tl :
  list_of fl' = list_of fl → db_becomes → catalog_known → forallb is_relation rt = true →
  (∀ k, k ∈ K → k.1 ∈ map entry_relid rt → get_pg_att_not_null k.1 k.2 = true) →
  possible (scope_of rt :: st) K quals quals' →
  possible st K (SubLink EXISTS_SUBLINK NULL (Query qi (NList rt) (FromExpr fl quals) tl))
    (SubLink EXISTS_SUBLINK NULL (Query qi (NList rt) (FromExpr fl' quals') tl)).
Proof.
  intros Hfl Hdb Hcat Hr HK Hq e e' Hc Hk. apply two_valued. rewrite !eval_exists. intros (rows' & Hrows' & HT).
  rewrite (from_rows_ext fl fl') by done. setoid_rewrite from_rows_elem. apply from_rows_elem in Hrows' as [Hall Hrows']. cbn [list_of] in *. destruct (rows_origin rt rows' Hdb Hr Hrows') as (rows & Hrows & Hcomp). exists rows. split; [done|].
  apply (Hq (push rows e) (push rows' e')); [by apply becomes_push|by apply knows_push|done].
Qed.
End Possible.

(** ** The context of the mutator *)

(** What the walker leaves: a heap with a region of scopes, the list of the scopes it
    built and the two lists of lists, as long as each other. *)
Record remains := mkRemains {
  region : positive → Prop;
  left_heap : heap;
  scope_ptrs : list (option positive);
  scope_stacks : list stack;
  cellsV : cells;
  cellsLT : cells;
  cellsLF : cells;
  false_ptrs : list (option positive);
  ptrV : option positive;
  ptrLT : option positive;
  ptrLF : option positive;
  left_ok : heap_ok left_heap;
  region_bound : ∀ x, region x → (x < h_brk left_heap)%positive;
  listV : is_list left_heap T_List ptrV cellsV;
  listV_ptrs : ptrs cellsV scope_ptrs;
  listV_scopes : Forall2 (scopes region left_heap) scope_ptrs scope_stacks;
  listLT : is_list left_heap T_List ptrLT cellsLT;
  listLF : is_list left_heap T_List ptrLF cellsLF;
  listLF_ptrs : ptrs cellsLF false_ptrs;
  lists_length : length cellsLT = length cellsLF }.

(** The promise of a mutator on the comparisons [neg_op] under a negation: it returns, and
    the result is true wherever the comparison can become true. *)
Class NegativeOps {B : Build} {C : SysCache} {I : Interp} {Co : Completion} (Mu : node → MM node)
    (neg_op : opinfo → list node → Prop) : Prop :=
  negative_op P h st K cs o args c :
    heap_ok h → scopes P h (m_current_trueVar c) st → var_list h (m_list_of_not_null_in_current c) cs K →
    m_positive c = false → m_constraint_to_add c = [] → neg_op o args →
    args ≠ [] → forallb is_term args = true → resolved st (NList args) →
    ∃ n' b, Mu (OpExpr o (NList args)) (h, c) = Ok (n', (h, m_set_ready b c)) ∧
      ∀ db', possible db' st K (OpExpr o (NList args)) n'.

Section Mutate.
Context {B : Build} {C : SysCache} {I : Interp} {Co : Completion} (w : remains).
Context {Mu : node → MM node} {neg_op : opinfo → list node → Prop} {HMu : MutatorCases Mu} {Hops : NegativeOps Mu neg_op}.

(** The heap only grew. *)
Definition ext (h h' : heap) : Prop := heap_ok h' ∧ framed [] h h'.

Lemma ext_trans h1 h2 h3 : ext h1 h2 → ext h2 h3 → ext h1 h3.
Proof.
  intros [_ H1] [Hok H2]. split; [done|]. eapply framed_trans; [exact H1|exact H2|]. by intros ? ?%elem_of_nil.
Qed.

Lemma ext_is_list h h' t p cs : heap_ok h → ext h h' → is_list h t p cs → is_list h' t p cs.
Proof. intros Hok [_ Hf]. apply (is_list_frame [] h); [done|done|]. by intros ? _ ?%elem_of_nil. Qed.

Lemma ext_same h : ext (left_heap w) h → same (region w) (left_heap w) h.
Proof. intros [_ [_ Hf]] x Hx. apply Hf; [by apply (region_bound w)|]. by intros ?%elem_of_nil. Qed.

Lemma ext_scopes h p st : ext (left_heap w) h → scopes (region w) (left_heap w) p st → scopes (region w) h p st.
Proof. intros Hx Hsc. apply (scopes_same (region w) (left_heap w)); [apply left_ok|by apply ext_same|done]. Qed.

Lemma ext_var_list h h' p cs ks : heap_ok h → ext h h' → var_list h p cs ks → var_list h' p cs ks.
Proof.
  intros Hok [Hok' Hf] [Hl (xs & Hd & Hxs & ->)]. split; [exact (ext_is_list h h' _ _ _ Hok (conj Hok' Hf) Hl)|]. exists xs. split; [done|].
  rewrite Forall_forall in Hxs.
  assert (∀ x, x ∈ xs → is_var h' x ∧ var_of h' x = var_of h x) as Hv.
  { intros x Hx. eapply (var_of_frame []); [done|done|by apply Hxs|]. by intros ? _ ?%elem_of_nil. }
  split; [apply Forall_forall; intros x Hx; split; [by apply Hv|done]|].
  apply list_fmap_ext. intros i x Hx. cbn. f_equal. symmetry. apply Hv. eauto using list_elem_of_lookup_2.
Qed.

(** The context, in the scope [st], with the columns [K] known not to be null. *)
Definition minv (h : heap) (c : context_modifier) (st : stack) (K : list key) : Prop :=
  ext (left_heap w) h ∧ scopes (region w) (left_heap w) (m_current_trueVar c) st ∧ (∃ cs, var_list h (m_list_of_not_null_in_current c) cs K) ∧
  m_constraint_to_add c = [] ∧ m_trueVars c = (ptrV w) ∧ m_list_list_true c = (ptrLT w) ∧ m_list_list_false c = (ptrLF w).

(** What a mutation may change of the context: the two counters, and [ready]. *)
Definition moved (c c' : context_modifier) (i j : nat) : Prop :=
  ∃ b, c' = m_set_ready b (m_set_where (m_where_i_am c + Z.of_nat i) (m_set_where_q (m_where_i_am_querry c + Z.of_nat j) c)).

Lemma moved_refl c : moved c c 0 0.
Proof. exists (m_ready c). rewrite !Z.add_0_r. by destruct c. Qed.

Lemma moved_ready c b : moved c (m_set_ready b c) 0 0.
Proof. exists b. rewrite !Z.add_0_r. by destruct c. Qed.

Lemma moved_trans c c1 c2 i j i' j' : moved c c1 i j → moved c1 c2 i' j' → moved c c2 (i + i') (j + j').
Proof. intros [b ->] [b' ->]. exists b'. rewrite !Nat2Z.inj_add, !Z.add_assoc. by destruct c. Qed.

Lemma minv_moved h c st K h' c' i j : minv h c st K → ext h h' → moved c c' i j → minv h' c' st K.
Proof.
  intros (He & Hsc & (cs & Hnn) & Hrest) Hx [b ->]. split; [by eapply ext_trans|]. split; [done|].
  split; [|done]. exists cs. eapply ext_var_list; [by apply He|done|done].
Qed.

(** The counters, while a part with [k] connectives and the scopes [V] is mutated: the
    scopes to be entered come next, and the lists to be read are NIL. *)
Definition position (c : context_modifier) (k : nat) (V : list stack) : Prop :=
  ∃ i pre post, m_where_i_am c = Z.of_nat i ∧ (i + k ≤ length (false_ptrs w))%nat ∧
    (∀ x, (x + i < length (false_ptrs w))%nat → (false_ptrs w) !! x = Some None) ∧
    m_where_i_am_querry c = Z.of_nat (length pre) ∧ (scope_stacks w) = pre ++ V ++ post.

Lemma position_app c k1 k2 V1 V2 : position c (k1 + k2) (V1 ++ V2) →
  position c k1 V1 ∧ ∀ c', moved c c' k1 (length V1) → position c' k2 V2.
Proof.
  intros (i & pre & post & Hi & Hk & Hnull & Hq & Htv'). split.
  - exists i, pre, (V2 ++ post). rewrite <- app_assoc in Htv'. split_and!; try done. lia.
  - intros c' [b ->]. exists (i + k1)%nat, (pre ++ V1), post. rewrite !app_assoc in *. split_and!; try done.
    + cbn. lia.
    + lia.
    + intros x Hx. apply Hnull. lia.
    + cbn. rewrite length_app. lia.
Qed.

(** The result of a mutation under a negation, for every completion of the database. *)
Definition alternative (st : stack) (K : list key) (n n' : node) : Prop :=
  respects K n → catalog_known → ∀ db', db_becomes db' → possible db' st K n n'.

Definition mutates (st : stack) (n : node) : Prop := ∀ h c K,
  minv h c st K → m_positive c = false → position c (length (recorded st n)) (stacks st n) →
  ∃ n' h' c', Mu n (h, c) = Ok (n', (h', c')) ∧ ext h h' ∧
    moved c c' (length (recorded st n)) (length (stacks st n)) ∧ alternative st K n n'.

Lemma op_mutates st o args :
  neg_op o args → args ≠ [] → forallb is_term args = true → resolved st (NList args) →
  mutates st (OpExpr o (NList args)).
Proof.
  intros Ho Hne Ht Hres h c K (He & Hsc & (cs & Hnn) & Hcs & _) Hp _.
  destruct (negative_op (region w) h st K cs o args c) as (n' & b & E & Hpos); [apply He|by apply ext_scopes|done..|].
  exists n', h, (m_set_ready b c). split; [exact E|]. split; [split; [apply He|apply framed_refl]|].
  split; [apply moved_ready|]. intros _ _ db' _. apply Hpos.
Qed.

(** The arguments of a connective. *)
Lemma args_mutate st l : Forall (mutates st) l → ∀ h c K,
  minv h c st K → m_positive c = false →
  position c (length (concat (map (recorded st) l))) (concat (map (stacks st) l)) →
  ∃ l' h' c', mutate_list Mu l (h, c) = Ok (l', (h', c')) ∧ ext h h' ∧
    moved c c' (length (concat (map (recorded st) l))) (length (concat (map (stacks st) l))) ∧
    Forall2 (alternative st K) l l'.
Proof.
  induction 1 as [|x l Hx _ IH]; intros h c K Hm Hp Hpos.
  - exists [], h, c. split; [done|]. split; [split; [apply Hm|apply framed_refl]|]. split; [apply moved_refl|constructor].
  - cbn [map concat] in *. rewrite !length_app in *. apply position_app in Hpos as [Hpos1 Hpos2].
    destruct (Hx h c K Hm Hp Hpos1) as (x' & h1 & c1 & E1 & He1 & Hmv1 & Hal1).
    destruct (IH h1 c1 K) as (l' & h2 & c2 & E2 & He2 & Hmv2 & Hal2).
    { by eapply minv_moved. }
    { by destruct Hmv1 as [b ->]. }
    { by apply Hpos2. }
    exists (x' :: l'), h2, c2. split; [cbn; erewrite bind_Ok by exact E1; by erewrite bind_Ok by exact E2|].
    split; [by eapply ext_trans|]. split; [by eapply moved_trans|]. by constructor.
Qed.

(** A copy of the known columns, extended by a list of the walker. *)
Lemma known_copy h p cs K q csE KE :
  heap_ok h → var_list h p cs K → var_list h q csE KE →
  ∃ p1 h1 p2 h2 cs2, list_copy p h = Ok (p1, h1) ∧ ext h h1 ∧ list_concat p1 q h1 = Ok (p2, h2) ∧ ext h h2 ∧
    var_list h2 p2 cs2 (K ++ KE).
Proof.
  intros Hok HK HE. destruct (list_copy_ok h T_List p cs Hok (proj1 HK)) as (p1 & cs1 & h1 & E1 & Hst & Hd).
  destruct Hst as (Hl1 & Hok1 & Hf1 & Hfp1).
  assert (ext h h1) as Hx1 by done.
  assert (∀ x, x ∈ footprint p1 cs1 → (h_brk h ≤ x)%positive) as Hnew by (intros x [?%elem_of_nil|?]%Hfp1; done).
  pose proof (ext_is_list h h1 _ _ _ Hok Hx1 (proj1 HE)) as Hq1.
  destruct (list_concat_ok h1 T_List p1 cs1 q csE Hok1 Hl1 Hq1) as (p2 & h2 & E2 & Hl2 & _ & Hok2 & Hf2 & _).
  { intros x Hx Hx'. pose proof (Hnew x Hx). pose proof (is_list_bound _ _ _ _ _ Hok (proj1 HE) Hx'). lia. }
  assert (ext h h2) as Hx2.
  { split; [done|]. eapply framed_trans; [exact Hf1|exact Hf2|]. intros x Hx. right. by apply Hnew. }
  exists p1, h1, p2, h2, (cs1 ++ csE). split_and!; try done.
  destruct (ext_var_list h h2 _ _ _ Hok Hx2 HK) as [_ He]. destruct (ext_var_list h h2 _ _ _ Hok Hx2 HE) as [_ He'].
  destruct He as (xs & Hxd & Hxs & ->), He' as (xs' & Hxd' & Hxs' & ->).
  split; [done|]. exists (xs ++ xs'). rewrite !fmap_app. split; [by rewrite Hd, Hxd, Hxd'|].
  split; [by apply Forall_app|]. unfold keys. by rewrite fmap_app.
Qed.

(** AND and OR: what is known below them. *)
Lemma and_or_enter m h c st K i csL ls q csE KE :
  minv h c st K → m_where_i_am c = Z.of_nat i → (i < length (cellsLT w))%nat →
  is_list (left_heap w) T_List (if m_positive c then (ptrLT w) else (ptrLF w)) csL → ptrs csL ls →
  ls !! (length (cellsLT w) - i - 1)%nat = Some q → var_list h q csE KE →
  ∃ h1 l, let c1 := m_set_where (m_where_i_am c + 1) (m_set_not_null l c) in ext h h1 ∧ minv h1 c1 st (K ++ KE) ∧
    ∀ r h2 c2, m (h1, c1) = Ok (r, (h2, c2)) →
      mutate_and_or m (h, c) = Ok (r, (h2, m_set_not_null (m_list_of_not_null_in_current c) c2)).
Proof.
  intros (He & Hsc & (cs & Hnn) & Hcs & HpV & HpT & HpF) Hi Hlt HL HLp Hq HE.
  destruct (known_copy h _ cs K q csE KE (proj1 He) Hnn HE) as (p1 & h1 & p2 & h2 & cs2 & E1 & Hx1 & E2 & Hx2 & Hnn2).
  exists h2, p2. split; [done|]. split.
  { split; [by eapply ext_trans|]. split; [done|]. split; [by exists cs2|]. done. }
  intros r h3 c3 Em. unfold mutate_and_or. erewrite bind_Ok by reflexivity.
  erewrite bind_Ok by (apply zoom_Ok; exact E1). erewrite bind_Ok by reflexivity.
  assert (∀ t p cs, is_list (left_heap w) t p cs → is_list h1 t p cs) as Hold.
  { intros t p' cs'. apply ext_is_list; [apply left_ok|by eapply ext_trans]. }
  pose proof (Hold _ _ _ (listLT w)) as HlT.
  erewrite bind_Ok.
  2: { apply zoom_Ok. rewrite HpT. destruct (ptrLT w) as [a|]; [|cbn in HlT; rewrite HlT in Hlt; cbn in Hlt; lia].
       destruct HlT as (_ & Ha & _). apply get_list_Ok. exact Ha. }
  cbn [l_length]. rewrite Hi, HpT, HpF.
  erewrite bind_Ok.
  2: { apply zoom_Ok. eapply list_nth_ok; [by apply Hold|exact HLp|lia|].
       by replace (Z.to_nat (Z.of_nat (length (cellsLT w)) - Z.of_nat i - 1)) with (length (cellsLT w) - i - 1)%nat by lia. }
  erewrite bind_Ok by (apply zoom_Ok; exact E2). do 2 erewrite bind_Ok by reflexivity.
  erewrite bind_Ok by exact Em. by erewrite bind_Ok by reflexivity.
Qed.

Lemma respects_args K b args loc : respects K (BoolExpr b (NList args) loc) → Forall (respects K) args.
Proof.
  intros H. apply Forall_forall. intros x Hx k Hk Hrel. apply H; [done|]. cbn.
  apply list_elem_of_In, in_concat. exists (relids x). split; apply list_elem_of_In; [|done].
  apply list_elem_of_fmap. by exists x.
Qed.

Lemma and_or_mutates st b args loc : b ≠ NOT_EXPR → args ≠ [] →
  Forall (mutates st) args → mutates st (BoolExpr b (NList args) loc).
Proof.
  intros Hb Hne Hall h c K Hm Hp Hpos. cbn [recorded stacks] in *. rewrite bool_decide_eq_false_2 in * by done.
  rewrite length_app, Nat.add_comm in *. cbn [length] in *.
  destruct Hpos as (i & pre & post & Hi & Hk & Hnull & Hq & Htv').
  assert (length (cellsLT w) = length (false_ptrs w)) as Hlt by (rewrite (lists_length w), <- (length_fmap snd (cellsLF w)), (listLF_ptrs w); apply length_fmap).
  set (m := expression_tree_mutator Mu (BoolExpr b (NList args) loc)).
  destruct (and_or_enter m h c st K i (cellsLF w) (false_ptrs w) None [] []) as (h1 & l & Hx1 & Hm1 & Hrun); try done.
  { lia. }
  { rewrite Hp. apply listLF. }
  { apply listLF_ptrs. }
  { apply Hnull. lia. }
  { split; [done|]. by exists []. }
  rewrite app_nil_r in Hm1. set (c1 := m_set_where _ _) in *.
  destruct (args_mutate st args Hall h1 c1 K Hm1 Hp) as (l' & h2 & c2 & E2 & Hx2 & Hmv & Hal).
  { exists (i + 1)%nat, pre, post. split_and!; try done; [cbn; lia|lia|]. intros x Hx. apply Hnull. lia. }
  exists (BoolExpr b (NList l') loc), h2, (m_set_not_null (m_list_of_not_null_in_current c) c2). split_and!.
  - rewrite mutator_and_or by done. apply Hrun. subst m. cbn [expression_tree_mutator]. rewrite mutator_other by done.
    cbn. rewrite bind_assoc. erewrite bind_Ok by exact E2. unfold bind, ret. rewrite of_list_ne; [done|].
    intros ->. by apply Forall2_nil_inv_r in Hal.
  - by eapply ext_trans.
  - destruct Hmv as [b' ->]. exists b'. rewrite Nat2Z.inj_succ, <- Z.add_1_l, Z.add_assoc. by destruct c.
  - intros Hr Hcat db' Hdb. apply possible_and_or; [done|]. apply respects_args in Hr. clear -Hal Hr Hcat Hdb.
    induction Hal as [|x x' l1 l2 Hx _ IH]; [constructor|]. apply Forall_cons in Hr as [? ?]. constructor; [by apply Hx|by apply IH].
Qed.

(** A query mutates its condition in the scope that the walker built for it. *)
Lemma query_enter qi rt fl quals tl h c pre stk post :
  forallb is_rtref fl = true → ext (left_heap w) h → m_trueVars c = (ptrV w) →
  m_where_i_am_querry c = Z.of_nat (length pre) → (scope_stacks w) = pre ++ stk :: post →
  ∃ p, let c1 := m_set_where_q (m_where_i_am_querry c + 1) (m_set_current p c) in scopes (region w) (left_heap w) p stk ∧
    ∀ quals' h2 c2, Mu quals (h, c1) = Ok (quals', (h2, c2)) →
      Mu (Query qi rt (FromExpr (NList fl) quals) tl) (h, c) =
        Ok (Query qi rt (FromExpr (of_list fl) quals') tl, (h2, m_set_current (m_current_trueVar c) c2)).
Proof.
  intros Hf He HpV Hq Htv'. pose proof (listV_scopes w) as HV. rewrite Htv' in HV.
  assert ((pre ++ stk :: post) !! length pre = Some stk) as Hstk by (by rewrite list_lookup_middle).
  destruct (Forall2_lookup_r _ _ _ _ _ HV Hstk) as (p & Hpv & Hsc). exists p. split; [done|].
  intros quals' h2 c2 E. rewrite mutator_query. unfold mutate_query. rewrite bind_assoc. erewrite bind_Ok by reflexivity.
  rewrite bind_assoc. erewrite bind_Ok.
  2: { apply zoom_Ok. rewrite HpV, Hq. eapply list_nth_ok; [eapply ext_is_list; [apply left_ok|exact He|apply listV]|exact (listV_ptrs w)|lia|]. by rewrite Nat2Z.id. }
  rewrite bind_assoc. erewrite bind_Ok by reflexivity. rewrite bind_assoc. erewrite bind_Ok by reflexivity.
  rewrite bind_assoc. erewrite bind_Ok.
  2: { cbn [expression_tree_mutator]. erewrite bind_Ok by by apply refs_mutate. erewrite bind_Ok by exact E. reflexivity. }
  rewrite bind_assoc. by do 2 erewrite bind_Ok by reflexivity.
Qed.

Lemma exists_mutates st qi rt fl quals tl :
  forallb is_relation rt = true → forallb is_rtref fl = true → mutates (scope_of rt :: st) quals →
  mutates st (SubLink EXISTS_SUBLINK NULL (Query qi (NList rt) (FromExpr (NList fl) quals) tl)).
Proof.
  intros Hr Hf Hq h c K Hm Hp (i & pre & post & Hi & Hk & Hnull & Hwq & Htv'). cbn [recorded stacks] in *.
  destruct Hm as (He & Hsc & Hnn & Hcs & HpV & HpT & HpF).
  destruct (query_enter qi (NList rt) fl quals tl h c pre _ _ Hf He HpV Hwq Htv') as (p & Hscp & Hrun).
  set (c1 := m_set_where_q _ _) in *.
  destruct (Hq h c1 K) as (quals' & h2 & c2 & E & Hx & Hmv & Hal); [done|done| |].
  { exists i, (pre ++ [scope_of rt :: st]), post. rewrite <- app_assoc. split_and!; try done.
    rewrite length_app. cbn. lia. }
  exists (SubLink EXISTS_SUBLINK NULL (Query qi (NList rt) (FromExpr (of_list fl) quals') tl)), h2,
    (m_set_current (m_current_trueVar c) c2). split_and!; [|done| |].
  - apply Hrun in E. rewrite mutator_other by done. cbn [expression_tree_mutator]. rewrite (mutator_other NULL) by done.
    erewrite bind_Ok by reflexivity. by erewrite bind_Ok by exact E.
  - destruct Hmv as [b ->]. exists b. cbn [length]. rewrite (Nat2Z.inj_succ (length (stacks _ _))), <- Z.add_1_l, Z.add_assoc.
    by destruct c.
  - intros Hres Hcat db' Hdb. apply possible_exists; try done.
    + by destruct fl.
    + intros k Hk' Hrel. apply Hres; [done|]. cbn. apply elem_of_app. by left.
    + apply Hal; [|done..]. intros k Hk' Hrel. apply Hres; [done|]. cbn. apply elem_of_app. by right.
Qed.

(** Conditions under a negation. *)
Lemma neg_mutates n st : neg_cond neg_op st n → mutates st n.
Proof.
  revert n st. apply neg_cond_ind; [|intros..].
  - intros. by apply op_mutates.
  - intros. by apply and_or_mutates.
  - intros. by apply exists_mutates.
Qed.
End Mutate.
