(* ===== verification/CertainAnswer.v ===== *)
(** Certain answers: the walker and the mutator of a hook together.

    For a query whose condition is a conjunction of comparisons and of negations, the
    rewriting returns a query all of whose answers are certain: they remain answers of
    the original query however the nulls of the database are replaced by values.  This
    is proved here for every hook that keeps its promises on single comparisons
    ([PositiveOps], [NegativeOps]) and on what its walker collects ([WalkedAtoms]);
    CoddCertain and MarkedCertain show that the two hooks do. *)

From S2P Require Import Prelude Nodes Terms PgList ListSpec ListOps ListSets TrueVar TrueVarSpec.
From S2P Require Import Walker Codd HookClass Semantics SelfOpt SplitProps Mutators CoddProps CoddNeg NotNull Regions WalkerSpec QueryWalk QueryMutate.

(** ** Promises on the comparisons outside negations *)

(** The promise of a mutator on the comparisons [pos_op]: the result is true only where the
    comparison stays true, and only where the columns [pos_keys] have values. *)
Class PositiveOps {B : Build} {C : SysCache} {I : Interp} {Co : Completion} (Mu : node → MM node)
    (pos_op : opinfo → list node → Prop) (pos_keys : stack → list node → list key) : Prop := {
  positive_op P h st K cs o args c :
    heap_ok h → scopes P h (m_current_trueVar c) st → var_list h (m_list_of_not_null_in_current c) cs K →
    m_positive c = true → m_constraint_to_add c = [] → pos_op o args →
    args ≠ [] → forallb is_term args = true → resolved st (NList args) →
    (m_ready c = true → ∀ k, k ∈ pos_keys st args → k ∈ K) →
    ∃ n' b, Mu (OpExpr o (NList args)) (h, c) = Ok (n', (h, m_set_ready b c)) ∧
      (∀ db' e e', env_becomes e e' → eval n' e = TT → eval (I := with_db I db') (OpExpr o (NList args)) e' = TT) ∧
      (∀ e v k, eval n' e = TT → v ∈ term_vars (NList args) → resolve st v = Some k → k ∈ pos_keys st args →
         is_value (look e v));
  pos_keys_used st args k : k ∈ pos_keys st args → k ∈ op_keys st args }.

Section Atoms.
Context {C : SysCache} (pos_op neg_op : opinfo → list node → Prop) (pos_keys : stack → list node → list key).

(** An atom of the condition of a query over [rt]: a comparison, or the negation of a
    condition. *)
Definition atom (rt : list node) (n : node) : Prop :=
  match n with
  | OpExpr o (NList args) =>
      pos_op o args ∧ args ≠ [] ∧ forallb is_term args = true ∧ resolved [scope_of rt] (NList args)
  | BoolExpr NOT_EXPR (NList [s]) _ => neg_cond neg_op [scope_of rt] s
  | _ => False
  end.

Lemma atom_cases rt (Q : node → Prop) :
  (∀ o args, pos_op o args → args ≠ [] → forallb is_term args = true → resolved [scope_of rt] (NList args) →
     Q (OpExpr o (NList args))) →
  (∀ s loc, neg_cond neg_op [scope_of rt] s → Q (BoolExpr NOT_EXPR (NList [s]) loc)) →
  ∀ n, atom rt n → Q n.
Proof.
  intros Hop Hnot n Hn. destruct n as [| | | |o a|b a loc| | | | | | | | | | |]; try done.
  - destruct a; try done. destruct Hn as (? & ? & ? & ?). by apply Hop.
  - destruct b; try done. destruct a as [| | | | | | | | | | | | | | |l|]; try done.
    destruct l as [|x [|y l]]; try done. by apply Hnot.
Qed.

Lemma atom_query_cond rt n : atom rt n → query_cond [scope_of rt] n.
Proof.
  revert n. apply atom_cases; [done|]. intros s loc Hn.
  split; [done|]. split; [done|]. split; [|done]. by eapply neg_query_cond.
Qed.

(** The columns that an atom leaves with values. *)
Definition atom_keys (rt : list node) (n : node) : list key :=
  match n with OpExpr _ (NList args) => pos_keys [scope_of rt] args | _ => [] end.
End Atoms.

(** The promise of a walker on atoms: it collects the columns [atom_keys], and records
    only empty lists for "false". *)
Class WalkedAtoms {B : Build} {C : SysCache} (W : node → WM bool) (pos_op neg_op : opinfo → list node → Prop)
    (pos_keys : stack → list node → list key) (ready_ok : bool → Prop) := {
  true_columns : list node → node → list key;
  false_columns : list node → node → list key;
  ready_at_first : ready_ok false;
  true_columns_keys rt n k : atom pos_op neg_op rt n → k ∈ true_columns rt n ↔ k ∈ atom_keys pos_keys rt n;
  atom_walks rt n : atom pos_op neg_op rt n →
    walks (ready_ok := ready_ok) (W n) [scope_of rt] (true_columns rt n) (false_columns rt n)
      (replicate (length (recorded [scope_of rt] n)) []) (schema n) (stacks [scope_of rt] n) }.

Section Certain.
Context {B : Build} {C : SysCache} {I : Interp} {Co : Completion} {W : node → WM bool} {Mu : node → MM node}.
Context {pos_op neg_op : opinfo → list node → Prop} {pos_keys : stack → list node → list key} {ready_ok : bool → Prop}.
Context {HW : WalkerCases W} {HMu : MutatorCases Mu}.
Context {Hneg : NegativeOps Mu neg_op} {Hposop : PositiveOps Mu pos_op pos_keys}.
Context {Hwalk : WalkedAtoms W pos_op neg_op pos_keys ready_ok}.

Local Abbreviation atom := (atom pos_op neg_op).
Local Abbreviation atom_keys := (atom_keys pos_keys).

Lemma op_keys_local rt args k : k ∈ op_keys [scope_of rt] args →
  k.1 ∈ map entry_relid rt ∧ ∃ v, v ∈ term_vars (NList args) ∧ resolve [scope_of rt] v = Some k.
Proof.
  intros (v & Hv & Hk)%list_elem_of_omap. split; [|by exists v]. destruct (decide (varlevelsup v = 0)) as [Hlv|Hlv].
  - destruct (resolve_local _ _ _ _ Hk Hlv) as (_ & _ & x & Hx & ->). apply list_elem_of_fmap.
    exists x. split; [done|]. by eapply list_elem_of_lookup_2.
  - destruct (resolve_outer _ _ _ _ Hk Hlv) as [Hk' _]. unfold resolve in Hk'. by destruct (_ && _).
Qed.

Lemma schema_not_null n k : k ∈ schema n → get_pg_att_not_null k.1 k.2 = true.
Proof.
  revert n. enough (∀ n, (k ∈ schema n → get_pg_att_not_null k.1 k.2 = true) ∧
    match n with
    | NList l => Forall (λ x, k ∈ schema x → get_pg_att_not_null k.1 k.2 = true) l
    | FromExpr _ quals | Query _ _ (FromExpr _ quals) _ => k ∈ schema quals → get_pg_att_not_null k.1 k.2 = true
    | _ => True
    end) as H by apply H.
  induction n using node_ind'; (split; [|try done]); try (by intros ?%elem_of_nil).
  - destruct n; try (by intros ?%elem_of_nil). cbn. intros (x & Hx & Hk)%concat_map_elem.
    destruct IHn as [_ IHl]. rewrite Forall_forall in IHl. by apply (IHl x).
  - destruct n2 as [| | | | | | | | | | | | | |qi rt jt tl| |]; try (by intros ?%elem_of_nil).
    destruct rt as [| | | | | | | | | | | | | | |rt|]; try (by intros ?%elem_of_nil).
    destruct jt as [| | | | | | | | | | | |fl quals| | | |]; try (by intros ?%elem_of_nil).
    cbn. intros [Hk|Hk]%elem_of_app; [|by apply IHn2].
    apply list_elem_of_In, filter_In in Hk. by destruct Hk.
  - apply IHn2.
  - destruct IHn2 as [_ IHj]. by destruct n2.
  - eapply Forall_impl; [exact H|]. naive_solver.
Qed.

(** ** What an atom becomes *)

(** [n'] is true only where [n] is true after every completion. *)
Definition certain (st : stack) (K : list key) (n n' : node) : Prop :=
  respects K n → catalog_known → ∀ db', db_becomes db' → ∀ e e', env_becomes e e' → knows st K e →
  eval n' e = TT → eval (I := with_db I db') n e' = TT.

Lemma certain_not st K s s' loc : alternative st K s s' →
  certain st K (BoolExpr NOT_EXPR (NList [s]) loc) (BoolExpr NOT_EXPR (NList [s']) loc).
Proof.
  intros Hal Hr Hcat db' Hdb e e' Hc Hk HT.
  assert (respects K s) as Hr' by (intros k Hk' Hrel; apply Hr; [done|]; cbn; by rewrite app_nil_r).
  cbn [eval] in *. rewrite (proj2 (Hal Hr' Hcat db' Hdb e e' Hc Hk)); [done|]. by destruct (eval s' e).
Qed.

(** A comparison that became true has values for its columns. *)
Definition strict (rt : list node) (n n' : node) : Prop := ∀ e, eval n' e = TT →
  match n with
  | OpExpr _ (NList args) =>
      ∀ v k, v ∈ term_vars (NList args) → resolve [scope_of rt] v = Some k → k ∈ atom_keys rt n → is_value (look e v)
  | _ => True
  end.

(** ** The atoms of a query *)

Section Atoms.
Context (w : remains) (rt : list node).
Local Abbreviation st := [scope_of rt].

Definition certifies (n : node) : Prop := ∀ h c K,
  minv w h c st K → m_positive c = true → (m_ready c = true → ∀ k, k ∈ atom_keys rt n → k ∈ K) →
  position w c (length (recorded st n)) (stacks st n) →
  ∃ n' h' c', Mu n (h, c) = Ok (n', (h', c')) ∧ ext h h' ∧
    moved c c' (length (recorded st n)) (length (stacks st n)) ∧ certain st K n n' ∧ strict rt n n'.

Lemma atom_certifies n : atom rt n → certifies n.
Proof.
  revert n. apply atom_cases.
  - intros o args Hop Hne Ht Hres h c K (He & Hsc & (cs & Hnn) & Hcs & _) Hp Hkn _.
    destruct (positive_op (region w) h st K cs o args c) as (n' & b & E & Hc & Hs);
      [apply He|by apply ext_scopes|done..|].
    exists n', h, (m_set_ready b c). split; [done|]. split; [split; [apply He|apply framed_refl]|].
    split; [apply moved_ready|]. split; [|intros e HT v k; by apply Hs].
    intros _ _ db' _ e e' Hee _. by apply Hc.
  - intros s loc Hn h c K Hm Hp _ Hpos'. cbn [recorded stacks map concat] in *.
    rewrite bool_decide_eq_true_2, !app_nil_r in * by done.
    destruct (neg_mutates w s st Hn h (m_set_positive false c) K) as (s' & h' & c' & E & Hx & [b ->] & Hal); [done..|].
    exists (BoolExpr NOT_EXPR (NList [s']) loc), h'. eexists. split; [|split; [done|split; [|split; [by apply certain_not|done]]]].
    + rewrite mutator_not. unfold mutate_not. erewrite bind_Ok by reflexivity. cbn beta. rewrite Hp. cbn [negb].
      erewrite bind_Ok.
      2: { cbn [expression_tree_mutator]. rewrite mutator_other by done. cbn. rewrite !bind_assoc.
           erewrite bind_Ok by exact E. reflexivity. }
      reflexivity.
    + exists b. by destruct c; cbn in *; rewrite Hp.
Qed.

Lemma atoms_certify l : Forall (atom rt) l → ∀ h c K,
  minv w h c st K → m_positive c = true → (∀ x k, x ∈ l → k ∈ atom_keys rt x → k ∈ K) →
  position w c (length (concat (map (recorded st) l))) (concat (map (stacks st) l)) →
  ∃ l' h' c', mutate_list Mu l (h, c) = Ok (l', (h', c')) ∧ Forall2 (λ n n', certain st K n n' ∧ strict rt n n') l l'.
Proof.
  induction 1 as [|x l Hx _ IH]; intros h c K Hm Hp Hkn Hpos.
  - exists [], h, c. split; [done|constructor].
  - cbn [map concat] in *. rewrite !length_app in *. apply position_app in Hpos as [Hpos1 Hpos2].
    destruct (atom_certifies x Hx h c K Hm Hp) as (x' & h1 & c1 & E1 & He1 & Hmv1 & Hal1); [|done|].
    { intros _ k. apply Hkn. left. }
    destruct (IH h1 c1 K) as (l' & h2 & c2 & E2 & Hal2).
    { by eapply minv_moved. }
    { by destruct Hmv1 as [b ->]. }
    { intros y k Hy. apply (Hkn y). by right. }
    { by apply Hpos2. }
    exists (x' :: l'), h2, c2. split; [cbn; erewrite bind_Ok by exact E1; by erewrite bind_Ok by exact E2|].
    by constructor.
Qed.
End Atoms.

(** ** Conjunctions *)

Lemma conjuncts_true (J : Interp) quals e :
  Forall (λ n, eval (I := J) n e = TT) (conjuncts quals) → eval (I := J) quals e = TT.
Proof.
  destruct (conjuncts_cases quals) as [->|(args & loc & ->)]; [by intros [? _]%Forall_cons|].
  intros H. cbn [eval]. apply and3_list_TT, Forall_fmap. by eapply Forall_impl; [exact H|].
Qed.

(** The columns noted by the walker for a query over [rt] with the conjuncts [l]. *)
Definition noted (rt : list node) (l : list node) (k : key) : Prop :=
  get_pg_att_not_null k.1 k.2 = true ∨ ∃ x, x ∈ l ∧ k ∈ atom_keys rt x.

Lemma resolve_inj rt v v' k e : NoDup (map entry_relid rt) →
  resolve [scope_of rt] v = Some k → resolve [scope_of rt] v' = Some k → look e v = look e v'.
Proof.
  intros Hnd Hv Hv'.
  assert (∀ v, resolve [scope_of rt] v = Some k → varlevelsup v = 0) as Hlv.
  { clear. intros v Hk. destruct (decide (varlevelsup v = 0)) as [|Hlv]; [done|].
    destruct (resolve_outer _ _ _ _ Hk Hlv) as [Hk' _]. unfold resolve in Hk'. by destruct (_ && _). }
  destruct (resolve_local _ _ _ _ Hv (Hlv v Hv)) as (Hno & Hatt & x & Hx & Hrel).
  destruct (resolve_local _ _ _ _ Hv' (Hlv v' Hv')) as (Hno' & Hatt' & x' & Hx' & Hrel').
  assert (Z.to_nat (varno v - 1) = Z.to_nat (varno v' - 1)) as Heq.
  { eapply (NoDup_lookup (entry_relid <$> rt)); [exact Hnd|by apply list_lookup_fmap_Some_2|].
    rewrite <- Hrel, Hrel'. by apply list_lookup_fmap_Some_2. }
  unfold look. rewrite (Hlv v Hv), (Hlv v' Hv'), <- Hatt, <- Hatt'. f_equal. lia.
Qed.

(** The columns noted for the comparisons are those of relations that occur once, and in no
    sub-query. *)
Definition keyed (rt l : list node) : Prop := ∀ x k, x ∈ l → k ∈ atom_keys rt x →
  NoDup (map entry_relid rt) ∧ ∀ y, y ∈ l → k.1 ∉ relids y.

Lemma noted_respects rt l K x : keyed rt l → (∀ k, k ∈ K → noted rt l k) → x ∈ l → respects K x.
Proof.
  intros Hl HK Hx k Hk Hrel. destruct (HK k Hk) as [|(y & Hy & Hky)]; [done|].
  by destruct (Hl y k Hy Hky) as [_ []%(λ H, H x Hx)].
Qed.

Lemma conjuncts_certain rt l l' K : keyed rt l → forallb is_relation rt = true →
  Forall2 (λ n n', certain [scope_of rt] K n n' ∧ strict rt n n') l l' → (∀ k, k ∈ K → noted rt l k) →
  catalog_known → ∀ db', db_becomes db' → ∀ rows rows' e e', rows ∈ product (map rte_rows rt) →
  Forall2 row_becomes rows rows' → env_becomes e e' → Forall (λ n, eval n (push rows e) = TT) l' →
  Forall (λ n, eval (I := with_db I db') n (push rows' e') = TT) l.
Proof.
  intros Hl Hr Hall HK Hcat db' Hdb rows rows' e e' Hrows Hcomp He HT.
  assert (knows [scope_of rt] K (push rows e)) as Hkn.
  { intros v k Hv Hin. destruct (HK k Hin) as [Hnn|(x & Hx & Hk)].
    - apply (knows_push rt [] [k] e rows Hcat Hr Hrows) with (k := k); [| |exact Hv|by left].
      + intros k' ->%list_elem_of_singleton _. done.
      + intros v' k' Hres. unfold resolve in Hres. by destruct (_ && _).
    - destruct (Hl x k Hx Hk) as [Hnd _]. destruct x as [| | | |o a| | | | | | | | | | | |]; try (by apply elem_of_nil in Hk).
      destruct a as [| | | | | | | | | | | | | | |args|]; try (by apply elem_of_nil in Hk).
      pose proof (pos_keys_used _ _ _ Hk) as Hk'. apply op_keys_local in Hk' as [_ (v' & Hv' & Hres)].
      rewrite (resolve_inj rt v v' k) by done.
      apply list_elem_of_lookup in Hx as [i Hi]. destruct (Forall2_lookup_l _ _ _ _ _ Hall Hi) as (x' & Hi' & _ & Hst).
      eapply (Hst (push rows e)); [|done..]. rewrite Forall_lookup in HT. eauto. }
  apply Forall_lookup. intros i x Hi. destruct (Forall2_lookup_l _ _ _ _ _ Hall Hi) as (x' & Hi' & Hce & _).
  rewrite Forall_lookup in HT.
  apply (Hce (noted_respects rt l K x Hl HK ltac:(by eapply list_elem_of_lookup_2)) Hcat db' Hdb (push rows e) (push rows' e')); [|done|eauto].
  by apply becomes_push.
Qed.

(** ** From the walker to the mutator *)

Lemma null_lists lf G : Forall2 null_if lf G → Forall (λ ks, ks = []) G → Forall (λ p, p = None) lf.
Proof. induction 1 as [|p ks lf G Hp _ IH]; intros Hall; [done|]. apply Forall_cons in Hall as [-> ?]. constructor; auto. Qed.

(** The context of the walker at its end, where the list of NOT NULL columns is [S]. *)
Definition left_by (w : remains) (c : context_walker_set_constraint) (S : list key) : Prop :=
  w_trueVars c = ptrV w ∧ w_list_list_true c = ptrLT w ∧ w_list_list_false c = ptrLF w ∧
  ∃ cs, var_list (left_heap w) (w_list_of_not_null_att_schem c) cs S.

Lemma vars_in_list P h p cs ks : vars_in P h p cs ks → var_list h p cs ks.
Proof.
  intros [Hl (xs & Hd & Hxs & ->)]. split; [done|]. exists xs. split; [done|]. split; [|done].
  eapply Forall_impl; [exact Hxs|]. by intros x [? _].
Qed.

Lemma qinv_remains P st h c T F lt lf tv S : length lt = length lf → qinv P st [] h c T F lt lf tv S →
  ∃ w, left_heap w = h ∧ scope_stacks w = tv ∧ false_ptrs w = lf ∧ left_by w c S ∧ ptrs (cellsLT w) lt ∧
    ∃ cs, var_list h (w_list_of_not_null_to_be_true c) cs T.
Proof.
  intros Hlen (csV & csS & pv & (csT & csF & csLT & csLF & Hs & HT & _ & Hlt & Hlf & _) & HV & HVs & HS).
  destruct Hs as (Hok & HP & Hls & _). rewrite !Forall_cons in Hls. destruct Hls as ([LT _] & _ & [LLT _] & [LLF _] & [LV _] & [LS _] & _).
  cbn [fst snd] in *. assert (length csLT = length csLF) as Hcs.
  { apply (f_equal length) in Hlt, Hlf. rewrite !length_fmap in *. by rewrite Hlt, Hlf. }
  exists (mkRemains P h pv tv csV csLT csLF lf _ _ _ Hok HP LV HV HVs LLT LLF Hlf Hcs). cbn. split_and!; try done.
  - split_and!; try done. exists csS. by apply (vars_in_list P).
  - exists csT. by apply (vars_in_list P).
Qed.

Lemma walker_starts : qinv (λ _, False) [] [] empty_heap make_context_walker_set_constraint [] [] [] [] [] [].
Proof.
  assert (elems (λ _, False) empty_heap [] []) as Hnil by by exists [].
  exists [], [], []. split; [|done]. exists [], [], [], []. split_and!; try done.
  split; [intros x o Hx; cbn in Hx; by rewrite lookup_empty in Hx|]. split; [done|].
  split; [repeat constructor; by intros ? ?%elem_of_nil|]. cbn. split_and!; try done; repeat (apply Forall_cons; split; [by intros ? ?%elem_of_nil|]); constructor.
Qed.

(** The mutator starts in the scope of the query, knowing the NOT NULL columns. *)
Lemma mutator_starts w c S stk rest : left_by w c S → scope_stacks w = stk :: rest →
  ∃ c0, make_context_modifier true c (left_heap w) = Ok (c0, left_heap w) ∧ minv w (left_heap w) c0 stk S ∧
    m_positive c0 = true ∧ m_ready c0 = false ∧ m_where_i_am c0 = 0 ∧ m_where_i_am_querry c0 = 0.
Proof.
  intros (HpV & HpT & HpF & HS) Htv. pose proof (listV_scopes w) as HV. rewrite Htv in HV.
  apply Forall2_cons_inv_r in HV as (p & ps & Hsc & _ & Hps). eexists. unfold make_context_modifier. split.
  - erewrite bind_Ok; [reflexivity|]. rewrite HpV. eapply list_nth_ok; [apply listV|apply listV_ptrs|done|]. by rewrite Hps.
  - split; [|done]. split; [split; [apply left_ok|apply framed_refl]|]. done.
Qed.

(** The mutation of a query, from that of its condition. *)
Lemma mutator_enters w c S qi rt fl quals tl rest : left_by w c S → scope_stacks w = [scope_of rt] :: rest →
  forallb is_rtref fl = true →
  ∃ c0 c1, make_context_modifier true c (left_heap w) = Ok (c0, left_heap w) ∧ minv w (left_heap w) c1 [scope_of rt] S ∧
    m_positive c1 = true ∧ m_ready c1 = false ∧ m_where_i_am c1 = 0 ∧ m_where_i_am_querry c1 = 1 ∧
    ∀ quals' s, Mu quals (left_heap w, c1) = Ok (quals', s) →
      ∃ s', Mu (Query qi (NList rt) (FromExpr (NList fl) quals) tl) (left_heap w, c0) =
        Ok (Query qi (NList rt) (FromExpr (of_list fl) quals') tl, s').
Proof.
  intros Hleft Htv Hf. destruct (mutator_starts w c S _ _ Hleft Htv) as (c0 & E & Hm & Hp & Hr & Hi & Hq).
  destruct Hm as (He & Hsc & Hnn & Hcs & HpV & HpT & HpF).
  destruct (query_enter w qi (NList rt) fl quals tl (left_heap w) c0 [] _ _ Hf He HpV Hq Htv) as (p & Hscp & Hrun).
  exists c0, (m_set_where_q (m_where_i_am_querry c0 + 1) (m_set_current p c0)). split_and!; try done.
  - cbn. by rewrite Hq.
  - intros quals' [h2 c2] E2. eexists. by apply Hrun.
Qed.

(** The walk and the mutation of a query. *)
Definition rewrites_to (q q' : node) : Prop := ∃ h c c0 h' c',
  W q (empty_heap, make_context_walker_set_constraint) = Ok (false, (h, c)) ∧
  make_context_modifier true c h = Ok (c0, h) ∧ Mu q (h, c0) = Ok (q', (h', c')).

Lemma rewrites_eq q c h c0 q' s :
  W q (empty_heap, make_context_walker_set_constraint) = Ok (false, (h, c)) →
  make_context_modifier true c h = Ok (c0, h) → Mu q (h, c0) = Ok (q', s) → rewrites_to q q'.
Proof. destruct s as [h' c']. intros E1 E2 E3. by exists h, c, c0, h', c'. Qed.

(** The rewriting keeps the query and its conjuncts, each of which becomes certain
    given the columns [K] that the walker noted. *)
Definition certified (qi : queryinfo) (rt fl : list node) (quals tl : node) : Prop :=
  ∃ quals' l' K, rewrites_to (Query qi (NList rt) (FromExpr (NList fl) quals) tl)
      (Query qi (NList rt) (FromExpr (of_list fl) quals') tl) ∧
    Forall2 (λ n n', certain [scope_of rt] K n n' ∧ strict rt n n') (conjuncts quals) l' ∧
    (∀ k, k ∈ K → noted rt (conjuncts quals) k) ∧
    ∀ e, eval quals' e = TT → Forall (λ n, eval n e = TT) l'.

Lemma atom_conjunct rt n : atom rt n → conjuncts n = [n].
Proof. revert n. by apply atom_cases. Qed.

Lemma not_null_noted rt l n k : k ∈ not_null_columns rt ++ schema n → noted rt l k.
Proof. intros [Hk|Hk]%elem_of_app; left; [|by eapply schema_not_null]. apply list_elem_of_In, filter_In in Hk. by destruct Hk. Qed.

Lemma single_certified qi rt fl quals tl : forallb is_relation rt = true → forallb is_rtref fl = true →
  atom rt quals → certified qi rt fl quals tl.
Proof.
  intros Hr Hf Ha.
  destruct (query_walks [] qi rt fl quals tl _ _ _ _ _ Hr Hf (atom_walks rt quals Ha)
    _ _ _ _ _ _ _ _ _ _ walker_starts ready_at_first) as (P & h & c & lt & lf & E & _ & _ & Hq & Hlen & HG).
  cbn [app] in Hq. pose proof (Forall2_length _ _ _ HG) as Hlen'.
  destruct (qinv_remains _ _ _ _ _ _ _ _ _ _ (eq_trans Hlen (eq_sym Hlen')) Hq) as (w & <- & Htv & Hlf & Hleft & _ & _).
  destruct (mutator_enters w c _ qi rt fl quals tl _ Hleft Htv Hf) as (c0 & c1 & E0 & Hm & Hp & Hrd & Hi & Hwq & Hrun).
  rewrite length_replicate in Hlen'. pose proof (null_lists _ _ HG (Forall_replicate _ _ _ eq_refl)) as Hnull. rewrite Forall_lookup in Hnull.
  destruct (atom_certifies w rt quals Ha (left_heap w) c1 _ Hm Hp) as (quals' & h2 & c2 & E2 & _ & _ & Hce & Hst).
  { by rewrite Hrd. }
  { exists 0%nat, [[scope_of rt]], []. rewrite Hlf, app_nil_r. split_and!; try done; [lia|].
    intros x Hx. destruct (lookup_lt_is_Some_2 lf x) as [p Hpx]; [lia|]. by rewrite Hpx, (Hnull x p Hpx). }
  destruct (Hrun _ _ E2) as [s' E3]. exists quals', [quals'], (not_null_columns rt ++ schema quals).
  split; [by eapply rewrites_eq|]. split; [rewrite (atom_conjunct rt quals Ha); by repeat constructor|].
  split; [intros k; apply not_null_noted|]. intros e HT. by repeat constructor.
Qed.

Lemma empty_is_replicate (G : list (list key)) : Forall (λ ks, ks = []) G → G = replicate (length G) [].
Proof. induction 1 as [|ks G -> _ IH]; [done|]. cbn. by f_equal. Qed.

(** As many empty lists as the walker records. *)
Lemma empty_lists st args : let G := concat (map (λ x, replicate (length (recorded st x)) []) args) in
  length G = length (concat (map (recorded st) args)) ∧ Forall (λ ks : list key, ks = []) G.
Proof.
  induction args as [|x args [IH1 IH2]]; [done|]. cbn in *. rewrite !length_app, length_replicate, IH1.
  split; [done|]. apply Forall_app. split; [by apply Forall_replicate|done].
Qed.

(** What the walker leaves of a query whose condition is an AND: the list of the columns
    of its comparisons is recorded last, and the other recorded lists are NIL. *)
Lemma and_walked qi rt fl args loc tl : forallb is_relation rt = true → forallb is_rtref fl = true →
  Forall (atom rt) args → let st := [scope_of rt] in let quals := BoolExpr AND_EXPR (NList args) loc in
  ∃ w c lt u lf n csT,
    W (Query qi (NList rt) (FromExpr (NList fl) quals) tl) (empty_heap, make_context_walker_set_constraint) =
      Ok (false, (left_heap w, c)) ∧ left_by w c (not_null_columns rt ++ schema quals) ∧
    scope_stacks w = st :: concat (map (stacks st) args) ∧ ptrs (cellsLT w) (lt ++ [u]) ∧ false_ptrs w = lf ++ [n] ∧
    length lf = length (concat (map (recorded st) args)) ∧ Forall (λ p, p = None) lf ∧
    var_list (left_heap w) u csT (union_keys (concat (map (true_columns rt) args))).
Proof.
  intros Hr Hf Ha st quals.
  destruct (query_run _ [] _ _ _ _ _ _ _ _ _ qi rt fl quals tl Hr Hf walker_starts) as (P & h & c & _ & Hnone & Hq & Hrun).
  destruct Hnone as [Hrd Hnone]. assert (ready_ok (w_ready c)) as Hrd' by (rewrite Hrd; exact ready_at_first).
  assert (Forall (λ x, walks (ready_ok := ready_ok) (W x) st (true_columns rt x) (false_columns rt x)
    (replicate (length (recorded st x)) []) (schema x) (stacks st x)) args) as Hw.
  { eapply Forall_impl; [exact Ha|]. intros x Hx. by apply atom_walks. }
  destruct (empty_lists st args) as [HGl HGn].
  destruct (and_or_run st AND_EXPR args loc _ _ _ _ _ ltac:(done) Hw _ _ _ _ _ _ _ _ _ _ Hq Hrd')
    as (P2 & h2 & c2 & lt & lf & u & n & E & _ & _ & Hq2 & Hlen & HG & Hn & Hu).
  cbn [app] in Hq2. specialize (Hrun h2 c2 E). specialize (Hu Hnone). pose proof (Forall2_length _ _ _ HG) as Hlen'.
  assert (length (lt ++ [u]) = length (lf ++ [n])) as Hl by (rewrite !length_app, Hlen, Hlen'; done).
  destruct (qinv_remains _ _ _ _ _ _ _ _ _ _ Hl Hq2) as (w & <- & Htv & Hlf & Hleft & Hlt & csT & HT).
  rewrite Hu in HT. exists w, (w_set_current None c2), lt, u, lf, n, csT. split_and!; try done.
  - by rewrite Hlen'.
  - exact (null_lists _ _ HG HGn).
Qed.

Lemma and_certified qi rt fl args loc tl : forallb is_relation rt = true → forallb is_rtref fl = true →
  args ≠ [] → Forall (atom rt) args → certified qi rt fl (BoolExpr AND_EXPR (NList args) loc) tl.
Proof.
  intros Hr Hf Hne Ha. set (quals := BoolExpr AND_EXPR (NList args) loc).
  destruct (and_walked qi rt fl args loc tl Hr Hf Ha) as (w & c & lt & u & lf & n & csT & E & Hleft & Htv & Hlt & Hlf & Hlen & Hnull & HT).
  destruct (mutator_enters w c _ qi rt fl quals tl _ Hleft Htv Hf) as (c0 & c1 & E0 & Hm & Hp & Hrd & Hi & Hwq & Hmut).
  assert (length (cellsLT w) = S (length lt)) as HcT.
  { apply (f_equal length) in Hlt. rewrite !length_fmap, length_app in Hlt. cbn in Hlt. lia. }
  destruct (and_or_enter w (expression_tree_mutator Mu quals) (left_heap w) c1 _ _ 0 (cellsLT w) (lt ++ [u]) u csT
    (union_keys (concat (map (true_columns rt) args))) Hm Hi)
    as (h3 & l & Hx3 & Hm3 & Hand); [lia|rewrite Hp; apply listLT|done| |exact HT|].
  { rewrite HcT, lookup_app_r by lia. by replace (S (length lt) - 0 - 1 - length lt)%nat with 0%nat by lia. }
  destruct (atoms_certify w rt args Ha h3 _ _ Hm3) as (l' & h4 & c4 & E4 & Hall); [done| | |].
  { intros x k Hx Hk. apply elem_of_app. right. apply union_keys_elem, concat_map_elem. exists x. split; [done|].
    rewrite Forall_forall in Ha. apply true_columns_keys; auto. }
  { exists 1%nat, [[scope_of rt]], []. rewrite Hlf, app_nil_r, length_app, <- Hlen. cbn. rewrite Hi, Hwq.
    split_and!; [done|lia| |done|by rewrite Htv]. intros x Hx. destruct (lookup_lt_is_Some_2 lf x) as [p Hpx]; [lia|].
    rewrite Forall_lookup in Hnull. by rewrite lookup_app_l, Hpx, (Hnull x p Hpx) by lia. }
  assert (l' ≠ []) as Hne' by (intros ->; by apply Forall2_nil_inv_r in Hall).
  destruct (Hmut (BoolExpr AND_EXPR (NList l') loc) (h4, m_set_not_null (m_list_of_not_null_in_current c1) c4)) as [s' E5].
  { subst quals. rewrite mutator_and_or by done. apply Hand. cbn [expression_tree_mutator]. rewrite mutator_other by done.
    cbn. rewrite bind_assoc. erewrite bind_Ok by exact E4. unfold bind, ret. by rewrite of_list_ne. }
  eexists _, l', _. split; [by eapply rewrites_eq|]. split; [exact Hall|]. split.
  - intros k [Hk|Hk]%elem_of_app; [by eapply not_null_noted|]. rewrite union_keys_elem, concat_map_elem in Hk.
    destruct Hk as (x & Hx & Hk).
    right. exists x. split; [done|]. rewrite Forall_forall in Ha. apply true_columns_keys in Hk; auto.
  - intros e Hev. cbn [eval] in Hev. rewrite and3_list_TT, Forall_forall in Hev. apply Forall_forall. intros x Hx.
    symmetry. apply Hev, list_elem_of_fmap. by exists x.
Qed.

(** ** Conjunctive queries *)

(** The conditions: conjunctions of atoms. *)
Definition conjunctive (rt : list node) (quals : node) : Prop :=
  conjuncts quals ≠ [] ∧ Forall (atom rt) (conjuncts quals) ∧ keyed rt (conjuncts quals).

Lemma rewriting_certain qi rt fl quals tl :
  forallb is_relation rt = true → forallb is_rtref fl = true → conjunctive rt quals →
  ∃ quals', rewrites_to (Query qi (NList rt) (FromExpr (NList fl) quals) tl)
      (Query qi (NList rt) (FromExpr (of_list fl) quals') tl) ∧
    (catalog_known → ∀ db', db_becomes db' → ∀ rows rows' e e',
      rows ∈ product (map rte_rows rt) → Forall2 row_becomes rows rows' → env_becomes e e' →
      eval quals' (push rows e) = TT → eval (I := with_db I db') quals (push rows' e') = TT).
Proof.
  intros Hr Hf (Hne & Ha & Hk).
  assert (certified qi rt fl quals tl) as (quals' & l' & K & E & Hall & HK & HT).
  { destruct (conjuncts_cases quals) as [Hs|(args & loc & ->)]; [|by apply and_certified].
    rewrite Hs in Ha. apply Forall_cons in Ha as [Ha _]. by apply single_certified. }
  exists quals'. split; [done|]. intros Hcat db' Hdb rows rows' e e' Hrows Hcomp He Hev. apply conjuncts_true.
  eapply conjuncts_certain; eauto.
Qed.
End Certain.
