(* ===== verification/CoddCertain.v ===== *)
(** Certain answers of the hook for Codd nulls.

    A Codd null is an SQL NULL; completing a database replaces (some of) its NULLs by
    values.  The walker and the mutator of certain_answer_codd.c keep the promises of
    [CertainAnswer], so that the answers of a rewritten query are certain. *)

From S2P Require Import Prelude Nodes Terms PgList ListSpec ListOps ListSets TrueVar TrueVarSpec.
From S2P Require Import Walker Codd HookClass Semantics SelfOpt SplitProps Mutators CoddProps CoddNeg NotNull Regions WalkerSpec QueryWalk.
From S2P Require Import QueryMutate CertainAnswer Samples.

(** ** Completions *)

#[global] Instance codd_completion : Completion :=
  {| becomes a b := ∀ z, a = Some z → b = Some z; is_value a := a ≠ None; becomes_none z H := H |}.

(** [r'] gives a value to (some of) the nulls of [r]. *)
Definition row_completes (r r' : row) : Prop := ∀ a z, r a = Some z → r' a = Some z.

(** The columns declared NOT NULL have values in the database. *)
Definition catalog_holds {C : SysCache} {I : Interp} : Prop :=
  ∀ r x att, x ∈ db r → get_pg_att_not_null r att = true → x att ≠ None.

(** [db'] completes the database. *)
Definition db_completes {I : Interp} (db' : Z → list row) : Prop := ∀ r, Forall2 row_completes (db r) (db' r).

Section Codd.
Context {B : Build} {C : SysCache} {I : Interp}.

(** The comparisons: all of them outside negations, those with the operators that the
    mutator knows under a negation. *)
Definition any_op (o : opinfo) (args : list node) : Prop := True.
Definition known_op (o : opinfo) (args : list node) : Prop := rewritten_op (opno o) = true.

(** ** Under a negation *)

(** A comparison that is not unknown keeps its value. *)
Lemma op_known db' e e' o args args' t :
  env_becomes e e' → forallb is_term args = true → Forall2 same_term args args' →
  eval (OpExpr o (NList args')) e = t → t ≠ UU → eval (I := with_db I db') (OpExpr o (NList args)) e' = t.
Proof.
  intros Hc Ht Hs HT Hu. change (eval (OpExpr o (NList args)) e' = t).
  assert (eval (OpExpr o (NList args)) e = t) as HT' by (cbn [eval] in *; by rewrite (same_terms e _ _ Hs) in HT).
  rewrite <- HT'. cbn [eval]. rewrite (complete_terms e e' args); [done..|].
  apply Forall_forall. intros v Hv. eapply strict_vars; [done| |done]. by rewrite HT'.
Qed.

Lemma possible_op db' st K o args args' :
  forallb is_term args = true → Forall2 same_term args args' →
  possible db' st K (OpExpr o (NList args))
    (with_alternatives (null_tests st K (term_vars (NList args))) (OpExpr o (NList args'))).
Proof.
  intros Ht Hs e e' Hc Hk. split; intros HT.
  - apply alternative_true. apply (tests_complete st K e e' o args args'); [done..| |exact HT].
    apply Forall_forall. intros v _ Hin. unfold key_in in Hin. destruct (resolve st v) as [k|] eqn:E; [|done].
    apply (memb_true _ key_eqb_true) in Hin. by apply (Hk v k).
  - apply alternative_false in HT. by apply (op_known db' e e' o args args').
Qed.

#[global] Instance codd_negative : NegativeOps my_mutator known_op.
Proof.
  intros P h st K cs o args c Hok Hsc Hnn Hp Hcs Ho Hne Ht Hres.
  destruct (mutate_negative_op P h st K cs Hok o args c) as (args' & b & Hs & E); [done..|].
  eexists _, b. split; [exact E|]. intros db'. by apply possible_op.
Qed.

(** ** Outside negations *)

(** A term is not changed before [ready] is set. *)
Lemma idle_term n s : m_ready s.2 = false → is_term n = true → my_mutator n s = Ok (n, s).
Proof.
  intros Hr. revert n. enough (∀ n, (is_term n = true → my_mutator n s = Ok (n, s)) ∧
    ∀ l, n = NList l → forallb is_term l = true → mutate_list my_mutator l s = Ok (l, s)) as H by (intros n; apply H).
  induction n using node_ind'; destruct_and?; (split; [|intros l' [=]; subst; try done]); try done.
  - intros _. destruct s as [h c]. cbn in *. unfold bind, getc, ret. by rewrite Hr.
  - intros Ht. destruct n; try done. apply bool_nonempty in Ht as [Hne Ht]. cbn. rewrite bind_assoc.
    erewrite bind_Ok by by apply H0. unfold bind, ret. by rewrite of_list_ne.
  - intros Ht. cbn. by erewrite bind_Ok by by apply H.
  - induction H as [|x l [Hx _] _ IH]; intros Ht; [done|]. cbn in Ht. apply andb_true_iff in Ht as [Htx Ht].
    cbn. erewrite bind_Ok by by apply Hx. by erewrite bind_Ok by by apply IH.
Qed.

Lemma no_tests st K vs : Forall (λ v, key_in st K v = true) vs → null_tests st K vs = [].
Proof. unfold null_tests. induction 1 as [|v vs Hv _ IH]; [done|]. cbn. by rewrite Hv. Qed.

(** A comparison outside negations is kept, if its columns are known whenever [ready]
    was left set. *)
Lemma positive_kept P h st K cs o args c :
  heap_ok h → scopes P h (m_current_trueVar c) st → var_list h (m_list_of_not_null_in_current c) cs K →
  m_positive c = true → m_constraint_to_add c = [] → args ≠ [] → forallb is_term args = true →
  resolved st (NList args) → (m_ready c = true → Forall (λ v, key_in st K v = true) (term_vars (NList args))) →
  ∃ args', Forall2 same_term args args' ∧
    my_mutator (OpExpr o (NList args)) (h, c) = Ok (OpExpr o (NList args'), (h, c)).
Proof.
  intros Hok Hsc Hnn Hp Hcs Hne Ht Hres Hkn.
  assert (∃ args', Forall2 same_term args args' ∧ mutate_list my_mutator args (h, c) = Ok (args', (h, c))) as (args' & Hs & El).
  { destruct (m_ready c) eqn:Hr.
    - destruct (mutate_terms P h st K cs args (proj2 (mutate_term P h st K cs Hok (NList args)) _ eq_refl) c) as (args' & El & Hs); [done..|].
      exists args'. split; [done|]. rewrite El. unfold add_tests. rewrite no_tests by auto. rewrite app_nil_r. by destruct c.
    - exists args. split; [apply Forall_Forall2_diag, Forall_forall; by intros ? _ ?|]. clear -Hr Ht.
      induction args as [|x l IH]; [done|]. cbn in Ht. apply andb_true_iff in Ht as [Htx Ht].
      cbn. erewrite bind_Ok by by apply idle_term. by erewrite bind_Ok by by apply IH. }
  exists args'. split; [done|]. cbn [my_mutator]. unfold mutate_op.
  erewrite (bind_Ok _ _ _ _ (h, c)) by (unfold modc; cbn; by rewrite Hp).
  erewrite bind_Ok.
  2: { cbn. rewrite bind_assoc. erewrite bind_Ok by exact El. unfold ret, bind.
       rewrite of_list_ne; [reflexivity|]. intros ->. by apply Forall2_nil_inv_r in Hs. }
  erewrite bind_Ok by reflexivity. cbn beta. by rewrite Hcs.
Qed.

#[global] Instance codd_positive : PositiveOps my_mutator any_op op_keys.
Proof.
  split; [|done]. intros P h st K cs o args c Hok Hsc Hnn Hp Hcs _ Hne Ht Hres Hkn.
  destruct (positive_kept P h st K cs o args c) as (args' & Hs & E); [done..| |].
  { intros Hr. apply Forall_forall. intros v Hv. unfold key_in. unfold resolved in Hres. rewrite Forall_forall in Hres.
    destruct (Hres v Hv) as [k Hk]. rewrite Hk. apply (memb_true _ key_eqb_true), Hkn; [done|].
    apply list_elem_of_omap. by exists v. }
  exists (OpExpr o (NList args')), (m_ready c). split; [by destruct c|]. split.
  - intros db' e e' Hc HT. by apply (op_known db' e e' o args args').
  - intros e v k HT Hv _ _. eapply (strict_vars e o args); [done| |done].
    cbn [eval] in *. rewrite (same_terms e _ _ Hs) in HT. by rewrite HT.
Qed.

(** ** The walker *)

(** Nothing is collected for "false" from such conditions, and all lists recorded for it
    are empty. *)
Lemma neg_collects_nothing n st : neg_cond known_op st n →
  (collect st n).2 = [] ∧ Forall (λ ks, ks = []) (recorded st n).
Proof.
  revert n st. apply neg_cond_ind.
  - intros st o args _ _ _ _. split; [done|constructor].
  - intros st b args loc Hb Hne _ IH.
    assert (concat (map (λ x, (collect st x).2) args) = []) as E1.
    { clear -IH. induction IH as [|x l [E _] _ IHl]; [done|]. cbn. by rewrite E, IHl. }
    assert ((collect st (BoolExpr b (NList args) loc)).2 = []) as E2 by (cbn; rewrite E1; by destruct b).
    split; [done|]. cbn [recorded]. rewrite bool_decide_eq_false_2 by done. apply Forall_app.
    split; [|constructor; [done|constructor]].
    clear -IH. induction IH as [|x l [_ Hx] _ IHl]; [constructor|]. cbn. by apply Forall_app.
  - intros st qi rt fl quals tl _ _ _ [? ?]. done.
Qed.

(** An atom records only empty lists for "false". *)
Lemma atom_recorded rt n : atom any_op known_op rt n → Forall (λ ks, ks = []) (recorded [scope_of rt] n).
Proof.
  revert n. apply atom_cases; [constructor|]. intros s loc Hn.
  destruct (neg_collects_nothing _ _ Hn) as [_ Hr]. cbn [recorded map concat].
  by rewrite bool_decide_eq_true_2, !app_nil_r.
Qed.

#[global] Program Instance codd_walked : WalkedAtoms my_walker any_op known_op op_keys any_ready := {|
  true_columns rt n := (collect [scope_of rt] n).1;
  false_columns rt n := (collect [scope_of rt] n).2 |}.
Next Obligation. done. Qed.
Next Obligation.
  intros rt n k. revert n. apply atom_cases.
  - intros o args _ _ _ _. cbn [collect fst atom_keys]. by rewrite union_keys_elem.
  - intros s loc Hn. destruct (neg_collects_nothing _ _ Hn) as [Hc _].
    change (k ∈ (collect [scope_of rt] s).2 ++ [] ↔ k ∈ []). by rewrite Hc.
Qed.
Next Obligation.
  intros rt n Ha. rewrite <- empty_is_replicate by by apply atom_recorded.
  by eapply my_walker_walks, atom_query_cond.
Qed.
End Codd.

(** ** Property *)

(** The conditions: conjunctions of comparisons and of negations of conditions over
    further relations, for a query over distinct relations. *)
Definition codd_conjunctive {C : SysCache} (rt : list node) (quals : node) : Prop :=
  NoDup (map entry_relid rt) ∧ conjuncts quals ≠ [] ∧ Forall (atom any_op known_op rt) (conjuncts quals) ∧
  Forall (λ x, ∀ r, r ∈ relids x → r ∉ map entry_relid rt) (conjuncts quals).

Lemma codd_conditions {C : SysCache} rt quals :
  codd_conjunctive rt quals → conjunctive (pos_op := any_op) (neg_op := known_op) (pos_keys := op_keys) rt quals.
Proof.
  intros (Hnd & Hne & Ha & Hd). split; [done|]. split; [done|]. intros x k Hx Hk. split; [done|].
  intros y Hy Hrel. rewrite Forall_forall in Hd. apply (Hd y Hy _ Hrel).
  destruct x as [| | | |o a| | | | | | | | | | | |]; try (by apply elem_of_nil in Hk).
  destruct a; try (by apply elem_of_nil in Hk). by apply op_keys_local in Hk as [? _].
Qed.

(** C1: the answers of a rewritten query are certain.  Take a query over plain relations,
    no two the same, whose condition is a conjunction (or a single one) of comparisons of
    terms and of negated conditions, all variables in scope.  A negated condition is built
    from comparisons of terms, AND, OR (no further NOT) and nested EXISTS over relations
    other than those of the query, and its comparisons use only the operators that the
    mutator rewrites ([rewritten_op]: 518, 416, 98, 521, 525, 523, 97, 1209; the "=" of
    integers, 96, is not among them).  Then the walk and the mutation return; the query
    keeps its range table, FROM and target lists; and, if the columns that the catalog
    declares NOT NULL have values in the database, for every combination of rows that satisfies the new condition, and every way of giving
    values to nulls of the database and of these rows, the completed rows satisfy the
    original condition over the completed database. *)
Theorem rewrite_query_certain {B : Build} {C : SysCache} {I : Interp} qi rt fl quals tl :
  forallb is_relation rt = true → forallb is_rtref fl = true → codd_conjunctive rt quals →
  ∃ quals', rewrite_query (Query qi (NList rt) (FromExpr (NList fl) quals) tl) =
      Ok (Query qi (NList rt) (FromExpr (of_list fl) quals') tl) ∧
    (catalog_holds → ∀ db', db_completes db' → ∀ rows rows' e,
      rows ∈ product (map rte_rows rt) → Forall2 row_completes rows rows' →
      eval quals' (push rows e) = TT → eval (I := with_db I db') quals (push rows' e) = TT).
Proof.
  intros Hr Hf Hq%codd_conditions.
  destruct (rewriting_certain (W := my_walker) (Mu := my_mutator) (ready_ok := any_ready) qi rt fl quals tl Hr Hf Hq)
    as (quals' & (h & c & c0 & h' & c' & E1 & E2 & E3) & H).
  exists quals'. split; [unfold rewrite_query; by rewrite E1, E2, E3|].
  intros Hcat db' Hdb rows rows' e Hrows Hcomp. apply (H Hcat db' Hdb); [done..|]. by intros lv no att z.
Qed.

(** SELECT FROM r WHERE x > 0 AND NOT EXISTS (SELECT FROM s WHERE s.y = r.y), where r has
    a row with a null in y, and s one with a null in x. *)
Definition sample_certain : node :=
  all_of [cmp 521 (col 0 1 1) (lit 0); no (in_exists (select [20] (cmp 98 (col 0 1 2) (col 1 1 2))))].

Lemma sample_catalog_holds : catalog_holds (C := sample_catalog) (I := sample_interp).
Proof.
  intros r x att Hx Hnn. change (((r =? 10) && (att =? 1)) = true) in Hnn. rewrite andb_true_iff, !Z.eqb_eq in Hnn. destruct Hnn as [-> ->].
  change (x ∈ [λ a, Some a; λ a, if a =? 1 then Some 5 else None]) in Hx.
  rewrite elem_of_cons, list_elem_of_singleton in Hx. by destruct Hx; subst x.
Qed.

Lemma sample_conjunctive : codd_conjunctive (C := sample_catalog) [rel 10] sample_certain.
Proof.
  split; [apply NoDup_singleton|]. split; [done|].
  split; [constructor; [|constructor; [|constructor]]|constructor; [|constructor; [|constructor]]].
  - split; [done|]. split; [done|]. split; [done|]. constructor; [by eexists|constructor].
  - split; [done|]. split; [done|]. split; [done|]. split; [done|]. split; [done|].
    constructor; [by eexists|constructor; [by eexists|constructor]].
  - by intros r ?%elem_of_nil.
  - intros r. cbn. rewrite !list_elem_of_singleton. by intros ->.
Qed.

(** The first row of r is an answer whatever the nulls stand for. *)
Lemma rewrite_query_certain_witness :
  ∃ quals', rewrite_query (B := with_asserts) (C := sample_catalog) (select [10] sample_certain) =
      Ok (select [10] quals') ∧ ∀ db', db_completes (I := sample_interp) db' →
      ∀ rows', Forall2 row_completes [λ a, Some a] rows' →
        eval (I := with_db sample_interp db') sample_certain (push rows' no_columns) = TT.
Proof.
  destruct (rewrite_query_certain (B := with_asserts) (C := sample_catalog) (I := sample_interp) new_queryinfo [rel 10]
    [RangeTblRef 1] sample_certain (NList [TargetEntry (mkTe 1 "x" false) (col 0 1 1)]) eq_refl eq_refl sample_conjunctive)
    as (quals' & E & H).
  exists quals'. split; [exact E|]. intros db' Hdb rows' Hc.
  apply (H sample_catalog_holds db' Hdb [λ a, Some a] rows' no_columns); [left|exact Hc|].
  vm_compute in E. injection E as <-. reflexivity.
Defined.

(** ** A limit *)

(** A comparison under NOT inside NOT EXISTS is outside the negations for the mutator,
    which leaves it alone. *)
Definition sample_twice : node := no (in_exists (select [20] (no (cmp 98 (col 0 1 1) (col 1 1 1))))).

(** NOT EXISTS (SELECT FROM s WHERE NOT (s.x = r.x)): a row of r is returned although
    s has a null in x, and is no answer any more when the null becomes 9. *)
Example twice_negated_not_certain :
  rewrite_query (B := with_asserts) (C := sample_catalog) (select [10] sample_twice) = Ok (select [10] sample_twice) ∧
  eval (I := sample_interp) sample_twice (push [λ a, Some a] no_columns) = TT ∧
  db_completes (I := sample_interp) (λ r, if r =? 20 then [λ a, if a =? 1 then Some 9 else Some 3] else sample_db r) ∧
  eval (I := with_db sample_interp (λ r, if r =? 20 then [λ a, if a =? 1 then Some 9 else Some 3] else sample_db r))
    sample_twice (push [λ a, Some a] no_columns) = FF.
Proof.
  split; [reflexivity|]. split; [reflexivity|]. split; [|reflexivity]. intros r. cbn.
  destruct (Z.eqb_spec r 20) as [->|Hr].
  - constructor; [|constructor]. intros a z. by destruct (a =? 1).
  - apply Forall_Forall2_diag, Forall_forall. by intros x _ a z.
Qed.
