(* ===== verification/MarkedOps.v ===== *)
(** Comparisons in the hook for marked nulls.

    A marked null is a negative integer, the same null wherever the same number occurs;
    completing a database replaces every negative number by a value, the same one
    everywhere ([valuation]).  The mutator of certain_answer_marked.c guards comparisons
    by comparisons with 0; the theorem says for which comparisons that is enough. *)

From S2P Require Import Prelude Nodes Terms PgList ListSpec ListOps ListSets TrueVar TrueVarSpec.
From S2P Require Import Walker Codd Marked HookClass Semantics SelfOpt SplitProps Mutators CoddProps CoddNeg NotNull Regions WalkerSpec.
From S2P Require Import QueryWalk QueryMutate CertainAnswer Samples.

(** ** Comparisons of int4 *)

(** The operators of pg_operator that the hook names by their OID. *)
Class Int4Ops (I : Interp) : Prop := {
  int4eq a b : op_den 96 [a; b] = (a =? b);
  int4lt a b : op_den 97 [a; b] = (a <? b);
  int4ne a b : op_den 518 [a; b] = negb (a =? b);
  int4gt a b : op_den 521 [a; b] = (b <? a);
  int4le a b : op_den 523 [a; b] = (a <=? b);
  int4ge a b : op_den 525 [a; b] = (b <=? a) }.

(** Columns and constants that are no marked nulls. *)
Fixpoint simple_term (n : node) : bool :=
  match n with
  | Var _ => true
  | Const c => negb (constisnull c) && (0 <=? constvalue c)
  | RelabelType _ arg => simple_term arg
  | _ => false
  end.

Definition simple_args (args : list node) : bool :=
  match args with [x; y] => simple_term x && simple_term y | _ => false end.

Lemma simple_is_term n : simple_term n = true → is_term n = true.
Proof. induction n using node_ind'; try done. Qed.

(** ** Valuations *)

(** A value for every null; other numbers stand for themselves. *)
Definition valuation (nu : Z → Z) : Prop := ∀ z, 0 ≤ z → nu z = z.

Definition marked_completion (nu : Z → Z) : Completion :=
  {| becomes a b := b = fmap (M := option) nu a; is_value a := ∃ z, a = Some z ∧ 0 ≤ z; becomes_none := eq_refl |}.

Section Values.
Context {I : Interp} (nu : Z → Z) (Hnu : valuation nu).


Lemma value_becomes e e' n : env_becomes (Co := marked_completion nu) e e' → simple_term n = true →
  eval_term e' n = nu <$> eval_term e n.
Proof.
  intros He. induction n using node_ind'; try done.
  - intros _. apply He.
  - cbn. destruct (constisnull c); [done|]. intros Hc. cbn. rewrite Hnu by lia. done.
Qed.

(** The values of both arguments. *)
Lemma pair_value e args : simple_args args = true →
  ∃ x y, args = [x; y] ∧ simple_term x = true ∧ simple_term y = true ∧
    eval_terms e args = (a ← eval_term e x; b ← eval_term e y; Some [a; b]).
Proof.
  destruct args as [|x [|y [|]]]; try done. intros [Hx Hy]%andb_true_iff. exists x, y. split_and!; try done.
  cbn. destruct (eval_term e x), (eval_term e y); done.
Qed.

Lemma pair_becomes e e' args : env_becomes (Co := marked_completion nu) e e' → simple_args args = true →
  eval_terms e' args = map nu <$> eval_terms e args.
Proof.
  intros He Hs. destruct (pair_value e args Hs) as (x & y & -> & Hx & Hy & ->).
  destruct (pair_value e' [x; y] Hs) as (? & ? & [= <- <-] & _ & _ & ->).
  rewrite !(value_becomes e e') by done. destruct (eval_term e x), (eval_term e y); done.
Qed.

(** Where the variables have values, nothing changes. *)
Lemma term_kept n e e' : env_becomes (Co := marked_completion nu) e e' → simple_term n = true →
  Forall (λ v, ∃ z, look e v = Some z ∧ 0 ≤ z) (term_vars n) → eval_term e' n = eval_term e n.
Proof.
  intros He. induction n using node_ind'; try done. intros _ [(z & Hz & Hle) _]%Forall_cons.
  cbn [eval_term]. unfold look in *. rewrite (He _ _ _), Hz. cbn. by rewrite Hnu.
Qed.

Lemma values_kept args e e' : env_becomes (Co := marked_completion nu) e e' → simple_args args = true →
  Forall (λ v, ∃ z, look e v = Some z ∧ 0 ≤ z) (term_vars (NList args)) → eval_terms e' args = eval_terms e args.
Proof.
  intros He Hs. destruct args as [|x [|y [|]]]; try done. apply andb_true_iff in Hs as [Hx Hy].
  rewrite !term_vars_cons. intros [Hvx [Hvy _]%Forall_app]%Forall_app. cbn. by rewrite !(term_kept _ e e').
Qed.
End Values.

(** ** The mutator on comparisons *)

Section Mutator.
Context {B : Build} {C : SysCache}.
Context (P : positive → Prop) (h : heap) (st : stack) (nks : list key) (ncs : cells) (Hok : heap_ok h).

(** The guards that are added for variables. *)
Definition guards (positive : bool) (vs : list var) : list node :=
  if positive then map (compare0 521) vs else map (compare0 97) (List.filter (λ v, negb (key_in st nks v)) vs).

Lemma guards_app p vs vs' : guards p (vs ++ vs') = guards p vs ++ guards p vs'.
Proof. unfold guards. destruct p; [apply map_app|]. by rewrite List.filter_app, map_app. Qed.

Definition in_scope (c : context_modifier) : Prop :=
  scopes P h (m_current_trueVar c) st ∧ var_list h (m_list_of_not_null_in_current c) ncs nks.

(** The context after the variables [vs] were met. *)
Definition noting (vs : list var) (c : context_modifier) : context_modifier :=
  m_set_constraint (m_constraint_to_add c ++ if m_ready c then guards (m_positive c) vs else []) c.

Lemma noting_nil c : noting [] c = c.
Proof. unfold noting, guards. destruct c as [p r l]; cbn. by destruct p, r; rewrite app_nil_r. Qed.

Lemma noting_app vs vs' c : noting vs' (noting vs c) = noting (vs ++ vs') c.
Proof. unfold noting. rewrite guards_app. destruct c as [p [] l]; cbn; by rewrite <- ?app_assoc, ?app_nil_r. Qed.

Lemma var_noted v c k : in_scope c → resolve st v = Some k →
  Marked.my_mutator (Var v) (h, c) = Ok (Var v, (h, noting [v] c)).
Proof.
  intros [Hsc Hnn] Hk. cbn [Marked.my_mutator]. erewrite bind_Ok by reflexivity. cbn beta. unfold noting. destruct (m_ready c) eqn:Hr.
  - destruct (getTrueVar_ok P h _ st v k Hsc Hk) as (t & Et & [Ht _] & Hkt).
    unfold Marked.mutate_var. rewrite !bind_assoc. erewrite bind_Ok by reflexivity.
    rewrite !bind_assoc. erewrite bind_Ok by by apply zoom_Ok.
    unfold guards.
    destruct (m_positive c) eqn:Hp; cbn [negb].
    + rewrite !bind_assoc. by do 2 erewrite bind_Ok by reflexivity.
    + rewrite !bind_assoc. erewrite bind_Ok by (apply zoom_Ok; by eapply isInListTrueVar_keys).
      rewrite Hkt. cbn [List.filter]. unfold key_in. rewrite Hk. destruct (memb key_eqb nks k); cbn; unfold bind, modc, ret; cbn; [|done].
      rewrite app_nil_r. by destruct c.
  - rewrite app_nil_r. by destruct c.
Qed.

Lemma term_noted n c : in_scope c → simple_term n = true → resolved st n →
  Marked.my_mutator n (h, c) = Ok (n, (h, noting (term_vars n) c)).
Proof.
  intros Hc. induction n using node_ind'; try done.
  - intros _ [[k Hk] _]%Forall_cons. by eapply var_noted.
  - intros _ _. cbn [term_vars]. by rewrite noting_nil.
  - intros Ht Hres. cbn in Ht. change (term_vars (RelabelType t n)) with (term_vars n). cbn. by erewrite bind_Ok by by apply IHn.
Qed.

Lemma args_noted args c : in_scope c → simple_args args = true → resolved st (NList args) →
  Marked.my_mutator (NList args) (h, c) = Ok (NList args, (h, noting (term_vars (NList args)) c)).
Proof.
  intros Hc Hs Hres. destruct args as [|x [|y [|]]]; try done. apply andb_true_iff in Hs as [Hx Hy].
  unfold resolved in Hres. rewrite !term_vars_cons in Hres. apply Forall_app in Hres as [Hrx [Hry _]%Forall_app].
  cbn. rewrite !bind_assoc. erewrite bind_Ok by by apply term_noted.
  rewrite !bind_assoc. erewrite bind_Ok by by apply term_noted.
  rewrite noting_app. cbn. by rewrite app_nil_r.
Qed.

(** A comparison with its guards. *)
Definition guarded (positive : bool) (gs : list node) (n : node) : node :=
  match gs with [] => n | _ => makeBoolExpr (if positive then AND_EXPR else OR_EXPR) (NList (gs ++ [n])) (-1) end.

(** When a comparison sets [ready]. *)
Definition sets_ready (positive : bool) (no : Z) : bool :=
  positive && (no =? 518) || negb positive && ((no =? 96) || (no =? 1209)).

Lemma op_guarded o args c : in_scope c → m_constraint_to_add c = [] → simple_args args = true → resolved st (NList args) →
  let r := m_ready c || sets_ready (m_positive c) (opno o) in
  let gs := if r then guards (m_positive c) (term_vars (NList args)) else [] in
  Marked.mutate_op (Marked.my_mutator (NList args)) o (h, c) =
    Ok (guarded (m_positive c) gs (OpExpr o (NList args)),
        (h, m_set_ready (match gs with [] => r | _ => false end) c)).
Proof.
  intros Hc Hcs Hs Hres r gs. unfold Marked.mutate_op. do 2 erewrite bind_Ok by reflexivity. cbn beta.
  match goal with |- bind _ _ (h, ?c1) = _ => assert (c1 = m_set_ready r c) as -> end.
  { subst r. unfold sets_ready. destruct c as [p rd]; cbn. destruct p, rd, (opno o =? 518), (opno o =? 96), (opno o =? 1209); done. }
  erewrite bind_Ok by by apply args_noted. erewrite bind_Ok by reflexivity. cbn beta.
  unfold noting. cbn [m_ready m_set_ready m_positive m_constraint_to_add m_set_constraint]. rewrite Hcs. cbn [app].
  fold gs. destruct gs as [|g gs']; unfold guarded, bind, ret, modc; cbn; do 3 f_equal; destruct c; cbn in *; by rewrite Hcs.
Qed.
End Mutator.

(** ** Guards under a negation *)

Section Promises.
Context {B : Build} {C : SysCache} {I : Interp} {Hint4 : Int4Ops I} (nu : Z → Z) (Hnu : valuation nu).
#[local] Instance nu_completion : Completion := marked_completion nu.

Definition no_null (e : env) (v : var) : Prop := ∃ z, look e v = Some z ∧ 0 ≤ z.

Lemma compare0_value no v e :
  eval (compare0 no v) e = match look e v with Some z => of_bool (op_den no [z; 0]) | None => UU end.
Proof. cbn. by destruct (look e v). Qed.

Lemma guards_false st K e vs : knows st K e → Forall (λ v, is_Some (resolve st v)) vs →
  Forall (λ n, eval n e = FF) (guards st K false vs) → Forall (no_null e) vs.
Proof.
  intros Hk Hres Hg. rewrite Forall_forall in Hres |- *. rewrite Forall_forall in Hg. intros v Hv. destruct (Hres v Hv) as [k Hkv].
  destruct (key_in st K v) eqn:Ein.
  - unfold key_in in Ein. rewrite Hkv in Ein. apply (Hk v k Hkv). by apply (memb_true _ key_eqb_true).
  - specialize (Hg (compare0 97 v)). rewrite compare0_value in Hg. destruct (look e v) as [z|] eqn:Ez.
    + exists z. split; [done|]. rewrite int4lt in Hg. destruct (Z.ltb_spec z 0); [|done].
      discriminate Hg. apply list_elem_of_fmap. exists v. split; [done|]. apply list_elem_of_In, filter_In. by rewrite Ein, <- list_elem_of_In.
    + discriminate Hg. apply list_elem_of_fmap. exists v. split; [done|]. apply list_elem_of_In, filter_In. by rewrite Ein, <- list_elem_of_In.
Qed.

Lemma guards_true st K e vs : knows st K e → Forall (λ v, is_Some (resolve st v)) vs →
  Forall (λ v, look e v ≠ None) vs → Forall (no_null e) vs ∨ TT ∈ evals (guards st K false vs) e.
Proof.
  intros Hk Hres Hv. destruct (decide (Exists (λ n, eval n e = TT) (guards st K false vs))) as [Hex|Hno].
  - right. apply Exists_exists in Hex as (n & Hn & HT). apply list_elem_of_fmap. by exists n.
  - left. apply (guards_false st K); [done..|]. apply not_Exists_Forall in Hno; [|apply _].
    rewrite Forall_forall in Hno |- *. rewrite Forall_forall in Hv. intros n Hn. specialize (Hno n Hn). apply list_elem_of_fmap in Hn as (v & -> & Hin).
    apply list_elem_of_In, filter_In in Hin as [Hin _]. apply list_elem_of_In in Hin. specialize (Hv v Hin).
    change (eval (compare0 97 v) e ≠ TT) in Hno. rewrite compare0_value in Hno |- *. destruct (look e v) as [z|]; [|done].
    destruct (op_den 97 [z; 0]); [|done]. by destruct Hno.
Qed.

(** A condition [N] that has the alternatives of [n'] and the guards, where [n'] has the
    value of [n] if there are no nulls. *)
Lemma guards_possible db' st K n n' N vs : Forall (λ v, is_Some (resolve st v)) vs →
  (∀ e e', env_becomes e e' → eval (I := with_db I db') n e' = TT → Forall (λ v, look e v ≠ None) vs) →
  (∀ e e', env_becomes e e' → Forall (no_null e) vs → eval (I := with_db I db') n e' = eval n' e) →
  (∀ e, eval n' e = TT ∨ TT ∈ evals (guards st K false vs) e → eval N e = TT) →
  (∀ e, eval N e = FF → eval n' e = FF ∧ Forall (λ g, eval g e = FF) (guards st K false vs)) →
  possible db' st K n N.
Proof.
  intros Hres Hdef Hsame HT HF e e' He Hk. split.
  - intros Hn. apply HT. destruct (guards_true st K e vs Hk Hres (Hdef e e' He Hn)) as [Hnn|]; [|by right].
    left. by rewrite <- (Hsame e e').
  - intros [Hn' Hg]%HF. rewrite (Hsame e e' He); [done|]. by apply (guards_false st K).
Qed.

Lemma guarded_alternatives gs n : guarded false gs n = with_alternatives gs n.
Proof. by destruct gs. Qed.

Lemma alternatives_false gs n e : eval (with_alternatives gs n) e = FF → eval n e = FF ∧ Forall (λ g, eval g e = FF) gs.
Proof.
  destruct gs as [|g gs]; [done|]. cbn [with_alternatives eval]. rewrite or3_list_FF, Forall_fmap, Forall_app.
  intros [Hg [Hn _]%Forall_cons]. split; [done|]. eapply Forall_impl; [exact Hg|]. intros x Hx. symmetry. exact Hx.
Qed.

(** A true comparison has values for its variables, also before the completion. *)
Lemma op_defined db' o args e e' : simple_args args = true → env_becomes e e' →
  eval (I := with_db I db') (OpExpr o (NList args)) e' = TT → Forall (λ v, look e v ≠ None) (term_vars (NList args)).
Proof.
  intros Hs He HT. assert (forallb is_term args = true) as Ht.
  { destruct args as [|x [|y [|]]]; try done. apply andb_true_iff in Hs as [Hx Hy]. cbn. by rewrite !simple_is_term. }
  apply Forall_forall. intros v Hv.
  assert (look e' v ≠ None) as Hv'.
  { eapply (strict_vars e' o args); [done| |done]. change (eval (I := with_db I db') (OpExpr o (NList args)) e' ≠ UU). by rewrite HT. }
  intros Hn. apply Hv'. unfold look in *. by rewrite (He _ _ _), Hn.
Qed.

Lemma op_same db' o args e e' : simple_args args = true → env_becomes e e' → Forall (no_null e) (term_vars (NList args)) →
  eval (I := with_db I db') (OpExpr o (NList args)) e' = eval (OpExpr o (NList args)) e.
Proof. intros Hs He Hv. cbn [eval]. by rewrite (values_kept nu Hnu args e e'). Qed.

(** "=" and LIKE. *)
Lemma guarded_op_possible db' st K o args : simple_args args = true → resolved st (NList args) →
  possible db' st K (OpExpr o (NList args))
    (guarded false (guards st K false (term_vars (NList args))) (OpExpr o (NList args))).
Proof.
  intros Hs Hres. rewrite guarded_alternatives.
  apply (guards_possible db' st K _ (OpExpr o (NList args)) _ (term_vars (NList args))); [done| | | |].
  - intros e e'. by apply op_defined.
  - intros e e'. by apply op_same.
  - intros e H. by apply alternative_true.
  - intros e. apply alternatives_false.
Qed.

(** ">=" and "<=", which become "=" or a strict comparison. *)
Definition or_equal (no : Z) : option Z := if no =? 525 then Some 521 else if no =? 523 then Some 97 else None.

Lemma or_equal_value no strict a b : or_equal no = Some strict →
  op_den no [a; b] = op_den 96 [a; b] || op_den strict [a; b].
Proof.
  unfold or_equal. destruct (Z.eqb_spec no 525) as [->|]; [|destruct (Z.eqb_spec no 523) as [->|]; [|done]]; intros [= <-].
  - rewrite int4ge, int4eq, int4gt. lia.
  - rewrite int4le, int4eq, int4lt. lia.
Qed.

Lemma or_equal_possible db' st K o strict args : simple_args args = true → resolved st (NList args) →
  or_equal (opno o) = Some strict →
  possible db' st K (OpExpr o (NList args))
    (BoolExpr OR_EXPR (NList [guarded false (guards st K false (term_vars (NList args))) (OpExpr (op_of 96) (NList args));
                              OpExpr (op_of strict) (NList args)]) (-1)).
Proof.
  intros Hs Hres Hor. rewrite guarded_alternatives. set (eq := OpExpr (op_of 96) _). set (gt := OpExpr (op_of strict) _).
  assert (∀ x e, eval (BoolExpr OR_EXPR (NList [x; gt]) (-1)) e = or3 (eval x e) (eval gt e)) as Ev.
  { intros x e. cbn [eval map or3_list foldr]. by destruct (eval x e), (eval gt e). }
  apply (guards_possible db' st K _ (BoolExpr OR_EXPR (NList [eq; gt]) (-1)) _ (term_vars (NList args))); [done| | | |].
  - intros e e'. by apply op_defined.
  - intros e e' He Hv. rewrite (op_same db' o args e e'), Ev by done. subst eq gt. cbn [eval].
    destruct (pair_value e args Hs) as (x & y & -> & _ & _ & Hp). rewrite Hp.
    destruct (eval_term e x) as [a|], (eval_term e y) as [b|]; try done. cbn.
    rewrite (or_equal_value _ strict) by done. by destruct (op_den 96 _), (op_den strict _).
  - intros e H. rewrite Ev in *. apply or3_TT. destruct H as [[HT|HT]%or3_TT|HT]; [left| by right|left]; apply alternative_true; auto.
  - intros e. rewrite !Ev. destruct (eval (with_alternatives _ eq) e) eqn:E, (eval gt e) eqn:E'; try done.
    apply alternatives_false in E as [-> ?]. done.
Qed.

(** ** The promises *)

(** The comparisons of columns and constants: "=" outside negations, "=", ">=", "<=" and
    LIKE under a negation. *)
Definition marked_pos (o : opinfo) (args : list node) : Prop := simple_args args = true ∧ opno o = 96.

Definition marked_neg (o : opinfo) (args : list node) : Prop :=
  simple_args args = true ∧ (opno o = 96 ∨ opno o = 1209 ∨ is_Some (or_equal (opno o))).

Definition no_keys (st : stack) (args : list node) : list key := [].

Lemma simple_no_sublink args : simple_args args = true → has_sublink (NList args) = false.
Proof.
  assert (∀ n, simple_term n = true → has_sublink n = false) as Hn by (induction n using node_ind'; done).
  destruct args as [|x [|y [|]]]; try done. intros [Hx Hy]%andb_true_iff. cbn. by rewrite !Hn.
Qed.

(** ">=" and "<=" under a negation. *)
Lemma or_equal_run P h st K cs o strict args c :
  heap_ok h → in_scope P h st K cs c → m_positive c = false → m_constraint_to_add c = [] →
  simple_args args = true → resolved st (NList args) → or_equal (opno o) = Some strict →
  ∃ b, Marked.my_mutator (OpExpr o (NList args)) (h, c) =
    Ok (BoolExpr OR_EXPR (NList [guarded false (guards st K false (term_vars (NList args))) (OpExpr (op_of 96) (NList args));
                                 OpExpr (op_of strict) (NList args)]) (-1), (h, m_set_ready b c)).
Proof.
  intros Hok Hsc Hp Hcs Hs Hres Hor. set (gs := guards st K false (term_vars (NList args))).
  set (b := match gs with [] => true | _ => false end). exists b.
  assert (Marked.my_mutator (OpExpr o (NList args)) = mutate_or_equal (Marked.my_mutator (NList args)) strict (NList args)) as ->.
  { revert Hor. unfold or_equal. cbn [Marked.my_mutator].
    destruct (opno o =? 525); [by intros [= <-]|]. by destruct (opno o =? 523); [intros [= <-]|]. }
  unfold mutate_or_equal. rewrite (simple_no_sublink args Hs).
  pose proof (op_guarded P h st K cs Hok (op_of 96) args c Hsc Hcs Hs Hres) as E. cbv zeta in E. rewrite Hp in E.
  cbn [opno op_of sets_ready andb orb negb Z.eqb Pos.eqb] in E. rewrite orb_true_r in E. fold gs b in E.
  erewrite bind_Ok by exact E.
  pose proof (op_guarded P h st K cs Hok (op_of strict) args (m_set_ready b c) Hsc Hcs Hs Hres) as E'. cbv zeta in E'.
  cbn [m_positive m_set_ready m_ready opno op_of] in E'. rewrite Hp in E'.
  assert (sets_ready false strict = false) as Hst.
  { revert Hor. unfold or_equal. destruct (opno o =? 525); [by intros [= <-]|]. by destruct (opno o =? 523); [intros [= <-]|]. }
  rewrite Hst, orb_false_r in E'. fold gs in E'. assert ((if b then gs else []) = []) as Hb by (subst b; by destruct gs).
  rewrite Hb in E'. erewrite bind_Ok by exact E'. cbn. by destruct c.
Qed.

#[local] Instance marked_negative : NegativeOps Marked.my_mutator marked_neg.
Proof.
  intros P h st K cs o args c Hok Hsc Hnn Hp Hcs [Hs Ho] Hne Ht Hres.
  destruct (or_equal (opno o)) as [strict|] eqn:Hor.
  - destruct (or_equal_run P h st K cs o strict args c) as [b E]; [done..|].
    eexists _, b. split; [exact E|]. intros db'. by apply or_equal_possible.
  - assert (opno o = 96 ∨ opno o = 1209) as Ho' by (destruct Ho as [|[|[? ?]]]; auto; done).
    pose proof (op_guarded P h st K cs Hok o args c (conj Hsc Hnn) Hcs Hs Hres) as E. cbv zeta in E. rewrite Hp in E.
    assert (sets_ready false (opno o) = true) as Hr by (by destruct Ho' as [->| ->]). rewrite Hr, orb_true_r in E.
    eexists _, _. split; [|intros db'; by apply guarded_op_possible].
    revert E. cbn [Marked.my_mutator]. revert Hor. unfold or_equal. by destruct (opno o =? 525), (opno o =? 523).
Qed.

Lemma guarded_true gs n e : eval (guarded true gs n) e = TT → eval n e = TT ∧ Forall (λ g, eval g e = TT) gs.
Proof.
  destruct gs as [|g gs]; [done|]. cbn [guarded makeBoolExpr eval]. rewrite and3_list_TT, Forall_fmap, Forall_app.
  intros [Hg [Hn _]%Forall_cons]. split; [done|]. eapply Forall_impl; [exact Hg|]. intros x Hx. symmetry. exact Hx.
Qed.

(** Equal values, marked nulls included, stay equal. *)
Lemma equality_kept db' o args e e' : opno o = 96 → simple_args args = true → env_becomes e e' →
  eval (OpExpr o (NList args)) e = TT → eval (I := with_db I db') (OpExpr o (NList args)) e' = TT.
Proof.
  intros Ho Hs He HT. change (eval (OpExpr o (NList args)) e' = TT). cbn [eval] in *. rewrite Ho in *.
  rewrite (pair_becomes nu Hnu e e' args He Hs). destruct (pair_value e args Hs) as (x & y & -> & _ & _ & Hp). rewrite Hp in *.
  destruct (eval_term e x) as [a|], (eval_term e y) as [b|]; try done. cbn in *. rewrite int4eq in *.
  destruct (Z.eqb_spec a b) as [->|]; [|done]. by rewrite Z.eqb_refl.
Qed.

#[local] Instance marked_positive : PositiveOps Marked.my_mutator marked_pos no_keys.
Proof.
  split; [|by intros st args k ?%elem_of_nil]. intros P h st K cs o args c Hok Hsc Hnn Hp Hcs [Hs Ho] Hne Ht Hres _.
  pose proof (op_guarded P h st K cs Hok o args c (conj Hsc Hnn) Hcs Hs Hres) as E. cbv zeta in E. rewrite Hp in E.
  eexists _, _. split; [|split; [|by intros e v k _ _ _ ?%elem_of_nil]].
  - revert E. cbn [Marked.my_mutator]. rewrite Ho. cbn [Z.eqb Pos.eqb]. intros E. exact E.
  - intros db' e e' He [HT _]%guarded_true. by apply (equality_kept db' o args e e').
Qed.
End Promises.

(** ** Property *)

(** The comparisons that the mutator treats rightly, outside and under negations. *)
Definition handled (positive : bool) (no : Z) : bool :=
  if positive then (no =? 96) || (no =? 518)
  else (no =? 96) || (no =? 518) || (no =? 1209) || (no =? 525) || (no =? 523).

Section Comparisons.
Context {B : Build} {C : SysCache} {I : Interp} {Hint4 : Int4Ops I}.

(** "<>" under a negation: different values were different nulls before. *)
Lemma inequality_possible nu db' st K gs o args : valuation nu → opno o = 518 → simple_args args = true →
  possible (Co := marked_completion nu) db' st K (OpExpr o (NList args)) (guarded false gs (OpExpr o (NList args))).
Proof.
  intros Hnu Ho Hs e e' He _. rewrite guarded_alternatives.
  assert (eval (I := with_db I db') (OpExpr o (NList args)) e' = TT → eval (OpExpr o (NList args)) e = TT) as H1.
  { intros HT. change (eval (OpExpr o (NList args)) e' = TT) in HT. cbn [eval] in *. rewrite Ho in *.
    rewrite (pair_becomes nu Hnu e e' args He Hs) in HT. destruct (pair_value e args Hs) as (x & y & -> & _ & _ & Hp). rewrite Hp in *.
    destruct (eval_term e x) as [a|], (eval_term e y) as [b|]; try done. cbn in *. rewrite int4ne in *.
    destruct (Z.eqb_spec a b) as [->|]; [|done]. by rewrite Z.eqb_refl in HT. }
  split; [intros HT; apply alternative_true; auto|]. intros HF%alternative_false.
  change (eval (OpExpr o (NList args)) e' = FF). cbn [eval] in *. rewrite Ho in *.
  rewrite (pair_becomes nu Hnu e e' args He Hs). destruct (pair_value e args Hs) as (x & y & -> & _ & _ & Hp). rewrite Hp in *.
  destruct (eval_term e x) as [a|], (eval_term e y) as [b|]; try done. cbn in *. rewrite int4ne in *.
  destruct (Z.eqb_spec a b) as [->|]; [|done]. by rewrite Z.eqb_refl.
Qed.

(** "<>" outside negations: the guards leave only values. *)
Lemma inequality_kept nu db' st K o args e e' : valuation nu → simple_args args = true →
  env_becomes (Co := marked_completion nu) e e' →
  eval (guarded true (guards st K true (term_vars (NList args))) (OpExpr o (NList args))) e = TT →
  eval (I := with_db I db') (OpExpr o (NList args)) e' = TT.
Proof.
  intros Hnu Hs He [HT Hg]%guarded_true. rewrite <- HT. apply (op_same nu Hnu); [done..|].
  unfold guards in Hg. rewrite Forall_fmap in Hg. eapply Forall_impl; [exact Hg|]. intros v Hv. cbv beta in Hv.
  change (eval (compare0 521 v) e = TT) in Hv. rewrite compare0_value in Hv. destruct (look e v) as [z|] eqn:Ez; [|done].
  exists z. split; [done|]. rewrite int4gt in Hv. destruct (Z.ltb_spec 0 z); [lia|done].
Qed.
End Comparisons.

(** C7: the mutator of the hook for marked nulls, with no constraint pending, on a comparison
    of two arguments, each a column in scope or a constant that is neither NULL nor negative,
    with an operator that it handles ([handled]: "=" and "<>" outside negations; "=", "<>",
    ">=", "<=" and LIKE under a negation), for a database whose integer operators have their
    meaning ([Int4Ops]).  It returns.  Provided that the columns of its list of columns that
    are not null hold no marked null in the environment ([knows]), outside negations the
    result is true only where the comparison is true for every choice of values for the
    nulls, and under a negation it is true wherever the comparison is true for some choice,
    and false only where it is false for every choice. *)
Theorem marked_comparison_guarded {B : Build} {C : SysCache} {I : Interp} {Hint4 : Int4Ops I} P h st K cs o args c :
  heap_ok h → scopes P h (m_current_trueVar c) st → var_list h (m_list_of_not_null_in_current c) cs K →
  m_constraint_to_add c = [] → simple_args args = true → resolved st (NList args) →
  handled (m_positive c) (opno o) = true →
  ∃ n' b, Marked.my_mutator (OpExpr o (NList args)) (h, c) = Ok (n', (h, m_set_ready b c)) ∧
    ∀ nu, valuation nu → ∀ e e', env_becomes (Co := marked_completion nu) e e' → knows (Co := marked_completion nu) st K e →
      if m_positive c then eval n' e = TT → eval (OpExpr o (NList args)) e' = TT
      else (eval (OpExpr o (NList args)) e' = TT → eval n' e = TT) ∧ (eval n' e = FF → eval (OpExpr o (NList args)) e' = FF).
Proof.
  intros Hok Hsc Hnn Hcs Hs Hres Ho.
  assert (or_equal (opno o) = None → Marked.my_mutator (OpExpr o (NList args)) (h, c)
    = mutate_op (Marked.my_mutator (NList args)) o (h, c)) as Hop.
  { unfold or_equal. cbn [Marked.my_mutator]. by destruct (opno o =? 525), (opno o =? 523). }
  pose proof (op_guarded P h st K cs Hok o args c (conj Hsc Hnn) Hcs Hs Hres) as E. cbv zeta in E.
  destruct (m_positive c) eqn:Hp.
  - eexists _, _. split.
    { rewrite Hop; [exact E|]. by apply orb_true_iff in Ho as [->%Z.eqb_eq| ->%Z.eqb_eq]. }
    intros nu Hnu e e' He _. apply orb_true_iff in Ho as [Ho%Z.eqb_eq|Ho%Z.eqb_eq].
    + intros [HT _]%guarded_true. by apply (equality_kept nu Hnu db o args e e').
    + rewrite Ho, orb_true_r. by apply (inequality_kept nu db).
  - destruct (or_equal (opno o)) as [strict|] eqn:Hor.
    + destruct (or_equal_run P h st K cs o strict args c) as [b E']; [done..|].
      eexists _, b. split; [exact E'|]. intros nu Hnu e e' He Hk.
      by apply (or_equal_possible nu Hnu db st K o strict args).
    + eexists _, _. split; [by rewrite Hop|]. intros nu Hnu e e' He Hk. destruct (Z.eqb_spec (opno o) 518) as [H518|H518].
      * by apply (inequality_possible nu db st K _ o args).
      * assert (sets_ready false (opno o) = true) as ->.
        { unfold handled in Ho. unfold or_equal in Hor. unfold sets_ready. cbn. apply Z.eqb_neq in H518. rewrite H518 in Ho.
          by destruct (opno o =? 525), (opno o =? 523), (opno o =? 96), (opno o =? 1209). }
        rewrite orb_true_r. by apply (guarded_op_possible nu Hnu db st K o args).
Qed.

#[global] Instance sample_int4 : Int4Ops sample_interp.
Proof. by split. Qed.

(** NOT (x >= 3) over a nullable column. *)
Lemma marked_comparison_guarded_witness :
  ∃ n' b, Marked.my_mutator (B := with_asserts) (cmp 525 (col 0 1 1) (lit 3)) (sample_heap, sample_modifier) =
      Ok (n', (sample_heap, m_set_ready b sample_modifier)) ∧
    ∀ nu, valuation nu → ∀ e e', env_becomes (Co := marked_completion nu) e e' →
      knows (Co := marked_completion nu) [[[(20, 1)]]] [] e →
      (eval (I := sample_interp) (cmp 525 (col 0 1 1) (lit 3)) e' = TT → eval (I := sample_interp) n' e = TT) ∧
      (eval (I := sample_interp) n' e = FF → eval (I := sample_interp) (cmp 525 (col 0 1 1) (lit 3)) e' = FF).
Proof.
  apply (marked_comparison_guarded (B := with_asserts) (C := sample_catalog) (I := sample_interp) (λ _, True) sample_heap
    [[[(20, 1)]]] [] [] _ _ sample_modifier); try reflexivity.
  - exact sample_heap_ok.
  - exact sample_scopes.
  - split; [done|]. by exists [].
  - repeat constructor. by exists (20, 1).
Defined.
