(* ===== verification/MarkedCertain.v ===== *)
(** Certain answers of the hook for marked nulls.

    On queries without "<>" the walker of certain_answer_marked.c collects nothing but the
    columns declared NOT NULL, and the rewriting keeps the promises of [CertainAnswer]. *)

From S2P Require Import Prelude Nodes Terms PgList ListSpec ListOps ListSets TrueVar TrueVarSpec.
From S2P Require Import Walker Codd Marked HookClass Semantics SelfOpt SplitProps Mutators CoddProps CoddNeg NotNull Regions WalkerSpec.
From S2P Require Import QueryWalk QueryMutate CertainAnswer MarkedOps Samples.

Section Walker.
Context {B : Build} {C : SysCache}.

(** [ready] is not set before a "<>" is met. *)
Definition not_ready (b : bool) : Prop := b = false.

Local Abbreviation walks := (walks (ready_ok := not_ready)).

Lemma idle_walk n h c : w_ready c = false → simple_term n = true → Marked.my_walker n (h, c) = Ok (false, (h, c)).
Proof.
  intros Hr. induction n using node_ind'; try done. intros _. cbn. unfold bind, getc. by rewrite Hr.
Qed.

Lemma idle_op o args h c : w_ready c = false → simple_args args = true → opno o ≠ 518 →
  Marked.my_walker (OpExpr o (NList args)) (h, c) = Ok (false, (h, c)).
Proof.
  intros Hr Hs Ho. cbn [Marked.my_walker]. rewrite (proj2 (Z.eqb_neq _ _) Ho).
  destruct args as [|x [|y [|]]]; try done. apply andb_true_iff in Hs as [Hx Hy].
  cbn. erewrite bind_Ok by by apply idle_walk. cbn. by erewrite bind_Ok by by apply idle_walk.
Qed.

Lemma idle_op_walks st o args : simple_args args = true → opno o ≠ 518 →
  walks (Marked.my_walker (OpExpr o (NList args))) st [] [] [] [] [].
Proof.
  intros Hs Ho P R h c T F lt lf tv S Hq Hr. exists P, h, c, [], []. rewrite !app_nil_r.
  split; [by apply idle_op|]. split_and!; done.
Qed.

Lemma neg_not_518 o args : marked_neg o args → simple_args args = true ∧ opno o ≠ 518.
Proof. intros [Hs Ho]. split; [done|]. intros E. rewrite E in Ho. by destruct Ho as [|[|[]]]. Qed.

Lemma concat_nils {A B' : Type} (l : list A) : concat (map (λ _, []) l) = ([] : list B').
Proof. by induction l. Qed.

(** Conditions under a negation. *)
Lemma neg_walks n st : neg_cond marked_neg st n →
  walks (Marked.my_walker n) st [] [] (replicate (length (recorded st n)) []) (schema n) (stacks st n).
Proof.
  revert n st. apply neg_cond_ind.
  - intros st o args Ho _ _ _. apply neg_not_518 in Ho as [Hs Ho]. by apply idle_op_walks.
  - intros st b args loc Hb Hne _ Hall.
    destruct (empty_lists st args) as [Hl Hnil]. cbn [recorded schema stacks]. rewrite bool_decide_eq_false_2 by done.
    pose proof (and_or_walks st b args loc (λ _, []) (λ _, []) _ _ _ Hb Hall) as H. cbv zeta in H.
    rewrite !concat_nils in H. assert (combine_keys b (Z.of_nat (length args)) [] [] = ([], [])) as Hc by by destruct b.
    rewrite Hc in H. rewrite length_app, <- Hl, replicate_add, <- (empty_is_replicate _ Hnil). exact H.
  - intros st qi rt fl quals tl Hr Hf _ Hq. by apply exists_walks.
Qed.

#[global] Program Instance marked_walked : WalkedAtoms Marked.my_walker marked_pos marked_neg no_keys not_ready := {|
  true_columns rt n := [];
  false_columns rt n := [] |}.
Next Obligation. done. Qed.
Next Obligation. intros rt n k _. cbn. by destruct n as [| | | |? []| | | | | | | | | | | |]. Qed.
Next Obligation.
  intros rt n. revert n. apply atom_cases.
  - intros o args [Hs Ho] _ _ _. apply idle_op_walks; [done|]. by rewrite Ho.
  - intros s loc Hn. cbn [recorded schema stacks map concat]. rewrite bool_decide_eq_true_2, !app_nil_r by done.
    by apply not_walks, neg_walks.
Qed.
End Walker.

(** ** Databases *)

(** The row and the database in which every null has its value. *)
Definition complete_row (nu : Z → Z) (r : row) : row := λ a, nu <$> r a.

Definition complete_db {I : Interp} (nu : Z → Z) (r : Z) : list row := map (complete_row nu) (db r).

Definition complete_env (nu : Z → Z) (e : env) : env := λ lv no att, nu <$> e lv no att.

(** The columns declared NOT NULL hold no marked nulls. *)
Definition marked_catalog {C : SysCache} {I : Interp} : Prop :=
  ∀ r x att, x ∈ db r → get_pg_att_not_null r att = true → ∃ z, x att = Some z ∧ 0 ≤ z.

(** ** Property *)

(** The conditions: conjunctions of "=" and of negated conditions made of "=", ">=", "<="
    and LIKE, all between columns and non-negative constants. *)
Definition marked_conjunctive {C : SysCache} (rt : list node) (quals : node) : Prop :=
  conjuncts quals ≠ [] ∧ Forall (atom marked_pos marked_neg rt) (conjuncts quals).

(** Nothing is noted for a comparison. *)
Lemma no_atom_keys {C : SysCache} rt n : atom_keys no_keys rt n = [].
Proof. by destruct n as [| | | |? []| | | | | | | | | | | |]. Qed.

(** The rewriting for one valuation; the result does not depend on it. *)
Lemma marked_rewriting {B : Build} {C : SysCache} {I : Interp} {Hint4 : Int4Ops I} nu qi rt fl quals tl :
  valuation nu → forallb is_relation rt = true → forallb is_rtref fl = true → marked_conjunctive rt quals →
  ∃ quals' s, Marked.rewrite_query (Query qi (NList rt) (FromExpr (NList fl) quals) tl) =
      Ok (Query qi (NList rt) (FromExpr (of_list fl) quals') tl, s) ∧
    (marked_catalog → ∀ rows e, rows ∈ product (map rte_rows rt) → eval quals' (push rows e) = TT →
      eval (I := with_db I (complete_db nu)) quals (push (map (complete_row nu) rows) (complete_env nu e)) = TT).
Proof.
  intros Hnu Hr Hf [Hne Ha].
  destruct (rewriting_certain (Co := marked_completion nu) (W := Marked.my_walker) (Mu := Marked.my_mutator)
    (ready_ok := not_ready) (Hneg := marked_negative nu Hnu) (Hposop := marked_positive nu Hnu) qi rt fl quals tl Hr Hf)
    as (quals' & (h & c & c0 & h' & c' & E1 & E2 & E3) & H).
  { split; [done|]. split; [done|]. intros x k _ Hk. rewrite no_atom_keys in Hk. by apply elem_of_nil in Hk. }
  exists quals'. eexists. split; [unfold Marked.rewrite_query; by rewrite E1, E2, E3|].
  intros Hcat rows e Hrows. apply (H Hcat (complete_db nu)); [|done| |done].
  - intros r. unfold complete_db. induction (db r); constructor; [done|]. done.
  - clear. induction rows; constructor; [done|]. done.
Qed.

(** C2: the answers of a query rewritten for marked nulls are certain.  Take a query over
    plain relations whose condition is a conjunction (or a single one) of comparisons with
    "=" (96) and of negated conditions, the latter built from comparisons with "=", ">=",
    "<=" and LIKE (96, 525, 523, 1209), AND, OR (no further NOT) and nested EXISTS over plain
    relations.  Every comparison has two arguments, each a column in scope or a constant that
    is neither NULL nor negative, without functions ([simple_args]): negative numbers are the
    marked nulls.  The operators on integers have their meaning ([Int4Ops]).  Then the walk
    and the mutation return, the query keeps its range table, FROM and target lists, and, if
    the columns that the catalog declares NOT NULL hold no marked null, every combination of rows that satisfies the new condition
    satisfies, whatever values the nulls are given, the original condition over the
    completed database. *)
Theorem marked_query_certain {B : Build} {C : SysCache} {I : Interp} {Hint4 : Int4Ops I} qi rt fl quals tl :
  forallb is_relation rt = true → forallb is_rtref fl = true → marked_conjunctive rt quals →
  ∃ quals' s, Marked.rewrite_query (Query qi (NList rt) (FromExpr (NList fl) quals) tl) =
      Ok (Query qi (NList rt) (FromExpr (of_list fl) quals') tl, s) ∧
    (marked_catalog → ∀ nu, valuation nu → ∀ rows e, rows ∈ product (map rte_rows rt) →
      eval quals' (push rows e) = TT →
      eval (I := with_db I (complete_db nu)) quals (push (map (complete_row nu) rows) (complete_env nu e)) = TT).
Proof.
  intros Hr Hf Hq. destruct (marked_rewriting (λ z, z) qi rt fl quals tl ltac:(done) Hr Hf Hq) as (quals' & s & E & _).
  exists quals', s. split; [done|]. intros Hcat nu Hnu.
  destruct (marked_rewriting nu qi rt fl quals tl Hnu Hr Hf Hq) as (quals'' & s'' & E' & H).
  assert (quals'' = quals') as -> by congruence. by apply H.
Qed.

(** r has the row (4, null 1), s the row (2, null 1). *)
Definition marked_interp : Interp :=
  {| op_den := sample_op; func_den := λ _ _, None;
     db r := if r =? 10 then [λ a, if a =? 1 then Some 4 else Some (-1)]
             else if r =? 20 then [λ a, if a =? 1 then Some 2 else Some (-1)] else [] |}.

#[global] Instance marked_int4 : Int4Ops marked_interp.
Proof. by split. Qed.

(** SELECT FROM r WHERE y = y AND NOT EXISTS (SELECT FROM s WHERE s.x >= r.x). *)
Definition sample_marked : node :=
  all_of [cmp 96 (col 0 1 2) (col 0 1 2); no (in_exists (select [20] (cmp 525 (col 0 1 1) (col 1 1 1))))].

Lemma marked_sample_catalog : marked_catalog (C := sample_catalog) (I := marked_interp).
Proof.
  intros r x att Hx Hnn. change (((r =? 10) && (att =? 1)) = true) in Hnn. rewrite andb_true_iff, !Z.eqb_eq in Hnn.
  destruct Hnn as [-> ->]. apply list_elem_of_singleton in Hx. subst x. exists 4. done.
Qed.

Lemma sample_marked_conjunctive : marked_conjunctive (C := sample_catalog) [rel 10] sample_marked.
Proof.
  split; [done|]. constructor; [|constructor; [|constructor]].
  - split; [done|]. split; [done|]. split; [done|]. repeat (constructor; [by eexists|]). constructor.
  - split; [done|]. split; [done|]. split; [split; [done|by right; right; eexists]|]. split; [done|]. split; [done|].
    repeat (constructor; [by eexists|]). constructor.
Qed.

Lemma marked_query_certain_witness :
  ∃ quals' s, Marked.rewrite_query (B := with_asserts) (C := sample_catalog) (select [10] sample_marked) =
      Ok (select [10] quals', s) ∧
    ∀ nu, valuation nu → eval (I := with_db marked_interp (complete_db (I := marked_interp) nu)) sample_marked
      (push (map (complete_row nu) [λ a, if a =? 1 then Some 4 else Some (-1)]) (complete_env nu no_columns)) = TT.
Proof.
  destruct (marked_query_certain (B := with_asserts) (C := sample_catalog) (I := marked_interp) new_queryinfo [rel 10]
    [RangeTblRef 1] sample_marked (NList [TargetEntry (mkTe 1 "x" false) (col 0 1 1)]) eq_refl eq_refl sample_marked_conjunctive)
    as (quals' & s & E & H).
  exists quals', s. split; [exact E|]. intros nu Hnu. apply H; [|done|by left|].
  - exact marked_sample_catalog.
  - vm_compute in E. injection E as <- _. reflexivity.
Defined.

(** ** Limits *)

(** The first valuation of the examples: null 1 is 7. *)
Definition seven (z : Z) : Z := if z =? -1 then 7 else z.

(** SELECT FROM r WHERE x <> 1 AND NOT EXISTS (SELECT FROM t WHERE t.y = r.y), over a t
    with the row (1, 7). *)
Definition marked_interp' : Interp :=
  {| op_den := sample_op; func_den := λ _ _, None;
     db r := if r =? 10 then [λ a, if a =? 1 then Some 4 else Some (-1)]
             else if r =? 30 then [λ a, if a =? 1 then Some 1 else Some 7] else [] |}.

Definition sample_unequal : node :=
  all_of [cmp 518 (col 0 1 1) (lit 1); no (in_exists (select [30] (cmp 96 (col 0 1 2) (col 1 1 2))))].

(** A "<>" leaves [ready] set and its list shared with the list of its AND, so that the
    walker adds the columns of every later comparison to the columns known not to be null:
    the sub-query is not guarded, and the row of r is returned although null 1 may be 7. *)
Example marked_unequal_not_certain :
  ∃ quals' s, Marked.rewrite_query (B := with_asserts) (C := sample_catalog) (select [10] sample_unequal) =
      Ok (select [10] quals', s) ∧
    eval (I := marked_interp') quals' (push [λ a, if a =? 1 then Some 4 else Some (-1)] no_columns) = TT ∧ valuation seven ∧
    eval (I := with_db marked_interp' (complete_db (I := marked_interp') seven)) sample_unequal
      (push [λ a, if a =? 1 then Some 4 else Some 7] no_columns) = FF.
Proof.
  eexists _, _. split; [vm_compute; reflexivity|]. split; [vm_compute; reflexivity|].
  split; [intros z Hz; unfold seven; by destruct (Z.eqb_spec z (-1)); [lia|]|vm_compute; reflexivity].
Qed.

(** Strict comparisons are not guarded at all: SELECT FROM r WHERE x > y returns the row
    (4, null 1), as nulls are negative numbers. *)
Example marked_greater_not_certain :
  let w := cmp 521 (col 0 1 1) (col 0 1 2) in
  ∃ s, Marked.rewrite_query (B := with_asserts) (C := sample_catalog) (select [10] w) = Ok (select [10] w, s) ∧
    eval (I := marked_interp') w (push [λ a, if a =? 1 then Some 4 else Some (-1)] no_columns) = TT ∧
    eval (I := marked_interp') w (push [λ a, if a =? 1 then Some 4 else Some 7] no_columns) = FF.
Proof. cbv zeta. eexists. split; [vm_compute; reflexivity|]. split; vm_compute; reflexivity. Qed.
