(* ===== verification/SelfProps.v ===== *)
(** Correctness of the extraction of single-relation constraints.

    On a conjunction of comparisons and null tests, [my_modifier_self] only moves
    conditions: what it leaves in the jointree together with what it collects is
    equivalent to the given condition; and a collected constraint means in the
    sub-select it is moved to what it meant in the query. *)

From S2P Require Import Prelude Nodes Terms Semantics SelfOpt SplitOpt SplitProps TrueVar Walker Codd Mutators CoddProps CoddNeg Samples.

(** ** Constraints that are collected *)

(** Comparisons and null tests of terms. *)
Definition is_atom (n : node) : bool :=
  match n with
  | OpExpr _ (NList args) => match args with [] => false | _ => forallb is_term args end
  | NullTest _ arg _ => is_term arg
  | _ => false
  end.

(** What [add_constrain] makes of them: conjunctions, as AND or as a list. *)
Fixpoint is_conj (n : node) : bool :=
  match n with
  | BoolExpr AND_EXPR (NList args) _ | NList args =>
      match args with [] => false | _ => forallb is_conj args end
  | _ => is_atom n
  end.

Section Self.
Context {I : Interp}.

Lemma and3_comm a b : and3 a b = and3 b a.
Proof. by destruct a, b. Qed.

Lemma and3_TT_r a : and3 a TT = a.
Proof. by destruct a. Qed.

Lemma and3_idem a b : and3 (and3 a b) b = and3 a b.
Proof. by destruct a, b. Qed.

(** ** [temp_modifier_add] *)

Definition same_target (c c' : temp_context) : Prop :=
  t_varno_to_add c' = t_varno_to_add c ∧ t_varlevelsup_to_add c' = t_varlevelsup_to_add c ∧
  t_constraint_to_add c' = t_constraint_to_add c.

(** The variable belongs to the relation of the constraint. *)
Definition of_target (c : temp_context) (v : var) : bool :=
  (varlevelsup v =? t_varlevelsup_to_add c) && (varno v =? t_varno_to_add c).

Definition hits (c : temp_context) (n : node) : bool := existsb (of_target c) (term_vars n).

Definition add_var (v : var) (c : temp_context) : temp_context := if of_target c v then t_set_to_add true c else c.

#[export] Instance add_reads : ReadsTerms temp_modifier_add add_var.
Proof. by split. Qed.

(** After a term or an atom, [to_add] tells whether it mentions that relation. *)
Lemma add_scan n c : scan add_var n c = t_set_to_add (t_to_add c || hits c n) c.
Proof.
  unfold scan, hits. revert c. induction (term_vars n) as [|v vs IH]; intros [k lv d b b']; cbn; [by rewrite orb_false_r|].
  rewrite IH. unfold add_var. destruct (of_target _ v) eqn:E; cbn; by rewrite ?orb_true_r.
Qed.

Lemma atom_left n c : is_atom n = true → temp_modifier_add n c = Ok (n, t_set_to_add (t_to_add c || hits c n) c).
Proof.
  destruct n as [| | | |o a| |t a l| | | | | | | | | |]; try done.
  - destruct a as [| | | | | | | | | | | | | | |args|]; try done. intros [Hne Ht]%bool_nonempty.
    cbn [temp_modifier_add]. rewrite (scan_op _ add_var) by done. by rewrite add_scan.
  - intros Ht. cbn [temp_modifier_add]. rewrite (scan_null_test _ add_var) by done. by rewrite add_scan.
Qed.

(** A conjunction is returned with the constraint added to it or not; [already_add]
    tells which. *)
Definition adds (n n' : node) (c c' : temp_context) : Prop :=
  same_target c c' ∧ is_conj n' = true ∧
  ∃ b, t_already_add c' = t_already_add c || b ∧
    ∀ e, eval n' e = if b : bool then and3 (eval n e) (eval (t_constraint_to_add c) e) else eval n e.

Definition add_ok (n : node) : Prop := ∀ c, is_atom (t_constraint_to_add c) = true →
  ∃ n' c', temp_modifier_add n c = Ok (n', c') ∧ adds n n' c c'.

Lemma and3_shuffle a b x (p q : bool) :
  and3 (if p then and3 a x else a) (if q then and3 b x else b) =
  if p || q then and3 (and3 a b) x else and3 a b.
Proof. by destruct p, q, a, b, x. Qed.

Lemma add_list l : Forall add_ok l → ∀ c, is_atom (t_constraint_to_add c) = true →
  ∃ l' c', mutate_list temp_modifier_add l c = Ok (l', c') ∧ same_target c c' ∧
    length l' = length l ∧ forallb is_conj l' = true ∧
    ∃ b, t_already_add c' = t_already_add c || b ∧ ∀ e, and3_list (evals l' e) =
      if b : bool then and3 (and3_list (evals l e)) (eval (t_constraint_to_add c) e) else and3_list (evals l e).
Proof.
  induction 1 as [|x l Hx _ IH]; intros c Hc.
  - exists [], c. split; [done|]. split; [done|]. split; [done|]. split; [done|]. exists false.
    split; [by rewrite orb_false_r|done].
  - destruct (Hx c Hc) as (x' & c1 & E1 & (H1 & H2 & H3) & Hcx & b1 & Hb1 & He1).
    destruct (IH c1) as (l' & c2 & E2 & (H4 & H5 & H6) & Hlen & Hcl & b2 & Hb2 & He2); [by rewrite H3|].
    exists (x' :: l'), c2. split; [cbn; erewrite bind_Ok by exact E1; by erewrite bind_Ok by exact E2|].
    split; [split_and!; congruence|]. split; [cbn; by rewrite Hlen|]. split; [cbn; by rewrite Hcx, Hcl|].
    exists (b1 || b2). split; [by rewrite Hb2, Hb1, orb_assoc|]. intros e.
    change (and3 (eval x' e) (and3_list (evals l' e)) =
      if b1 || b2 then and3 (and3 (eval x e) (and3_list (evals l e))) (eval (t_constraint_to_add c) e)
      else and3 (eval x e) (and3_list (evals l e))).
    rewrite He1, He2, H3. by rewrite and3_shuffle.
Qed.

Lemma atom_conj n : is_atom n = true → is_conj n = true.
Proof. by destruct n. Qed.

Lemma conj_add n : (is_conj n = true → add_ok n) ∧ ∀ l, n = NList l → forallb is_conj l = true → Forall add_ok l.
Proof.
  assert (∀ n, is_atom n = true → add_ok n) as Hatom.
  { intros m Hm c Hc. exists m, (t_set_to_add (t_to_add c || hits c m) c).
    split; [by apply atom_left|]. split; [done|]. split; [by apply atom_conj|]. exists false. split; [by rewrite orb_false_r|done]. }
  induction n using node_ind'; (split; [|intros l' [=]; subst; try done]); try (by intros ?; apply Hatom).
  - destruct b, n; try done. intros [Hne Hcj]%bool_nonempty c Hc. destruct IHn as [_ IHl].
    destruct (add_list _ (IHl _ eq_refl Hcj) c Hc) as (l' & c1 & E & (H1 & H2 & H3) & Hlen & Hcl & b & Hb & He).
    assert (l' ≠ []) as Hne' by (intros ->; by destruct elements).
    assert (expression_tree_mutator temp_modifier_add (BoolExpr AND_EXPR (NList elements) l) c =
              Ok (BoolExpr AND_EXPR (NList l') l, c1)) as E'.
    { cbn. rewrite bind_assoc. erewrite bind_Ok by exact E. unfold bind, ret. by rewrite of_list_ne. }
    cbn [temp_modifier_add]. erewrite bind_Ok by exact E'. erewrite bind_Ok by reflexivity.
    destruct (t_to_add c1) eqn:Ea.
    + exists (NList (l' ++ [t_constraint_to_add c1])), (t_set_already true (t_set_to_add false c1)).
      split; [reflexivity|]. split; [done|]. split.
      { cbn. destruct (l' ++ _) eqn:El; [by destruct l'|]. rewrite <- El, forallb_app, Hcl, H3. cbn.
        by rewrite (atom_conj _ Hc). }
      exists true. split; [by rewrite orb_true_r|]. intros e. cbn [eval]. rewrite map_app, and3_list_app.
      fold (evals l' e). rewrite He, H3. cbn [map]. fold (evals elements e).
      assert (and3_list [eval (t_constraint_to_add c) e] = eval (t_constraint_to_add c) e) as -> by (cbn; by destruct (eval _ e)).
      by destruct b; rewrite ?and3_idem.
    + exists (BoolExpr AND_EXPR (NList l') l), c1. split; [done|]. split; [done|].
      split; [cbn; by destruct l'|]. exists b. split; [done|]. intros e. exact (He e).
  - intros [Hne Hcj]%bool_nonempty c Hc.
    assert (Forall add_ok l) as Hl.
    { apply forallb_Forall in Hcj. rewrite Forall_forall in H, Hcj |- *. intros x Hx. apply H; auto. }
    destruct (add_list _ Hl c Hc) as (l' & c1 & E & Hst & Hlen & Hcl & b & Hb & He).
    assert (l' ≠ []) as Hne' by (intros ->; by destruct l).
    exists (NList l'), c1. split; [cbn; erewrite bind_Ok by exact E; unfold ret; by rewrite of_list_ne|].
    split; [done|]. split; [cbn; by destruct l'|]. exists b. split; [done|]. intros e. exact (He e).
  - intros Hcj. apply forallb_Forall in Hcj. rewrite Forall_forall in H, Hcj |- *. intros x Hx. apply H; auto.
Qed.

(** ** [add_constrain] *)

Lemma add_loop_ok l : Forall (λ x, is_conj x = true) l → ∀ c, is_atom (t_constraint_to_add c) = true →
  ∃ l' c', add_loop l c = Ok (l', c') ∧ t_constraint_to_add c' = t_constraint_to_add c ∧
    Forall (λ x, is_conj x = true) l' ∧
    ∃ b, t_already_add c' = t_already_add c || b ∧ ∀ e, and3_list (evals l' e) =
      if b : bool then and3 (and3_list (evals l e)) (eval (t_constraint_to_add c) e) else and3_list (evals l e).
Proof.
  induction 1 as [|x l Hx Hl IH]; intros c Hc.
  - exists [], c. do 3 (split; [done|]). exists false. split; [by rewrite orb_false_r|done].
  - cbn [add_loop]. erewrite bind_Ok by reflexivity. destruct (t_already_add c) eqn:Ea.
    + destruct (IH c Hc) as (l' & c' & E & H & Hcl & b & Hb & He). exists (x :: l'), c'.
      split; [by erewrite bind_Ok by exact E|]. split; [done|]. split; [by constructor|].
      exists b. split; [by rewrite Hb, Ea|]. intros e.
      change (and3 (eval x e) (and3_list (evals l' e)) = if b then and3 (and3 (eval x e) (and3_list (evals l e)))
        (eval (t_constraint_to_add c) e) else and3 (eval x e) (and3_list (evals l e))).
      rewrite He. destruct b; [by rewrite and3_assoc|done].
    + destruct (proj1 (conj_add x) Hx c Hc) as (x' & c1 & E1 & (H1 & H2 & H3) & Hcx & b1 & Hb1 & He1).
      erewrite bind_Ok by exact E1. erewrite bind_Ok by reflexivity.
      assert (∀ c2, t_constraint_to_add c2 = t_constraint_to_add c → is_atom (t_constraint_to_add c2) = true) as Hat
        by (intros c2 ->; done).
      destruct (t_to_add c1 && negb (t_already_add c1)) eqn:Et.
      * apply andb_true_iff in Et as [_ Et%negb_true_iff]. rewrite Ea in Hb1. cbn in Hb1. rewrite Et in Hb1. subst b1.
        destruct (IH (t_set_already true (t_set_to_add false c1))) as (l' & c' & E & H & Hcl & b & Hb & He);
          [by apply Hat|].
        exists (BoolExpr AND_EXPR (NList [x'; t_constraint_to_add c1]) (-1) :: l'), c'. split.
        { do 2 erewrite bind_Ok by reflexivity. by erewrite bind_Ok by exact E. }
        split; [cbn in H; congruence|]. split.
        { constructor; [|done]. cbn. by rewrite Hcx, (atom_conj _ (Hat c1 H3)). }
        exists true. split; [by rewrite Hb, orb_true_r|]. intros e.
        change (and3 (and3 (eval x' e) (and3 (eval (t_constraint_to_add c1) e) TT)) (and3_list (evals l' e)) =
          and3 (and3 (eval x e) (and3_list (evals l e))) (eval (t_constraint_to_add c) e)).
        rewrite He, He1, H3. cbn. rewrite H3. destruct b; by destruct (eval x e), (eval (t_constraint_to_add c) e), (and3_list (evals l e)).
      * destruct (IH c1) as (l' & c' & E & H & Hcl & b & Hb & He); [by apply Hat|].
        exists (x' :: l'), c'. split; [by erewrite bind_Ok by exact E|]. split; [congruence|]. split; [by constructor|].
        exists (b1 || b). split; [by rewrite Hb, Hb1, Ea|]. intros e.
        change (and3 (eval x' e) (and3_list (evals l' e)) = if b1 || b then and3 (and3 (eval x e) (and3_list (evals l e)))
          (eval (t_constraint_to_add c) e) else and3 (eval x e) (and3_list (evals l e))).
        rewrite He1, He, H3. by rewrite and3_shuffle.
Qed.

(** What has been collected: nothing, or a list of conjunctions. *)
Definition collected_ok (n : node) : Prop := ∃ l, n = of_list l ∧ Forall (λ x, is_conj x = true) l.

Lemma eval_of_list l e : eval (of_list l) e = and3_list (evals l e).
Proof. by destruct l. Qed.

Lemma add_constrain_ok rel ctx : collected_ok rel → is_atom (t_constraint_to_add ctx) = true → t_already_add ctx = false →
  ∃ rel', add_constrain rel ctx = Ok rel' ∧ collected_ok rel' ∧
    ∀ e, eval rel' e = and3 (eval rel e) (eval (t_constraint_to_add ctx) e).
Proof.
  intros (l & -> & Hl) Hc Ha. destruct l as [|x l].
  - exists (NList [t_constraint_to_add ctx]). split; [done|]. split.
    + exists [t_constraint_to_add ctx]. split; [done|]. repeat constructor. by apply atom_conj.
    + intros e. cbn. by destruct (eval (t_constraint_to_add ctx) e).
  - destruct (add_loop_ok _ Hl ctx Hc) as (l' & c' & E & H & Hcl & b & Hb & He).
    unfold add_constrain. cbn [of_list]. rewrite E. eexists. split; [reflexivity|].
    rewrite Ha in Hb. cbn in Hb. rewrite Hb. destruct b.
    + split; [by exists l'|]. intros e. rewrite eval_of_list, He. done.
    + split.
      * exists (l' ++ [t_constraint_to_add c']). split; [done|]. apply Forall_app. split; [done|].
        repeat constructor. apply atom_conj. by rewrite H.
      * intros e. rewrite eval_of_list. unfold evals. rewrite map_app, and3_list_app. fold (evals l' e).
        rewrite He, H. cbn [map]. change (eval (NList (x :: l)) e) with (and3_list (evals (x :: l) e)). f_equal.
        cbn. by destruct (eval (t_constraint_to_add ctx) e).
Qed.

(** ** [my_modifier_self] *)

#[export] Instance self_reads : ReadsTerms my_modifier_self modifier_var.
Proof. by split. Qed.

(** A term changes only flags. *)
Definition flags_only (c c' : context_optimizer_self) : Prop :=
  already_constrain_rel c' = already_constrain_rel c ∧ disjunction c' = disjunction c.

Lemma modifier_var_flags v c : flags_only c (modifier_var v c).
Proof.
  unfold modifier_var. destruct (_ && _ && _); [done|]. destruct (_ && _ && _); [done|].
  destruct c as [[] [] ? ? ? ? ? ? ? ?]; done.
Qed.

Lemma scan_flags n c : flags_only c (scan modifier_var n c).
Proof.
  unfold scan. revert c. induction (term_vars n) as [|v vs IH]; intros c; [done|]. cbn.
  destruct (modifier_var_flags v c) as [H1 H2]. destruct (IH (modifier_var v c)) as [H3 H4]. split; congruence.
Qed.

(** An atom is left where it is or moved to the collected constraints. *)
Definition stays (n n' : node) : Prop := n' = n ∨ n' = NULL.

Definition moves (n : node) : Prop := ∀ c, disjunction c = false → collected_ok (already_constrain_rel c) →
  ∃ n' c', my_modifier_self n c = Ok (n', c') ∧ stays n n' ∧ disjunction c' = false ∧
    collected_ok (already_constrain_rel c') ∧
    ∀ e, and3 (eval n' e) (eval (already_constrain_rel c') e) = and3 (eval n e) (eval (already_constrain_rel c) e).

Lemma register_ok n c : is_atom n = true → collected_ok (already_constrain_rel c) → disjunction c = false →
  ∃ c', (register n;;; ret NULL) c = Ok (NULL, c') ∧ disjunction c' = false ∧
    collected_ok (already_constrain_rel c') ∧
    ∀ e, and3 TT (eval (already_constrain_rel c') e) = and3 (eval n e) (eval (already_constrain_rel c) e).
Proof.
  intros Hn Hc Hd. set (ctx := make_temp_context n (varno_to_add c) (varlevelsup_to_add c)).
  destruct (add_constrain_ok (already_constrain_rel c) ctx Hc Hn eq_refl) as (rel' & E & Hok & He).
  exists (s_set_rel rel' (s_set_add false c)). split; [|split; [done|split; [done|]]].
  - unfold register. rewrite bind_assoc. erewrite bind_Ok by reflexivity. rewrite bind_assoc.
    erewrite bind_Ok by reflexivity. rewrite bind_assoc. erewrite bind_Ok by (cbn; subst ctx; rewrite E; reflexivity).
    by erewrite bind_Ok by reflexivity.
  - intros e. cbn [already_constrain_rel s_set_rel]. rewrite He. cbn. by destruct (eval n e), (eval (already_constrain_rel c) e).
Qed.

Lemma op_moves o args : args ≠ [] → forallb is_term args = true → moves (OpExpr o (NList args)).
Proof.
  intros Hne Ht c Hd Hc.
  pose proof (scan_op _ modifier_var o args (s_set_equality true c) Hne Ht) as E.
  destruct (scan_flags (OpExpr o (NList args)) (s_set_equality true c)) as [Hr Hf]. set (c1 := scan _ _ _) in *.
  cbn [my_modifier_self]. erewrite bind_Ok by reflexivity. erewrite bind_Ok by exact E.
  do 3 erewrite bind_Ok by reflexivity. set (c2 := s_set_eq (-1) (-1) (s_set_equality false c1)).
  assert (disjunction c2 = false) as Hd2 by (cbn in *; congruence).
  assert (already_constrain_rel c2 = already_constrain_rel c) as Hr2 by (cbn in *; congruence).
  destruct (add c2 && negb (disjunction c2)).
  - destruct (register_ok (OpExpr o (NList args)) c2) as (c' & E' & ? & ? & He); [by destruct args|by rewrite Hr2|done|].
    exists NULL, c'. split; [exact E'|]. split; [by right|]. split; [done|]. split; [done|]. intros e. rewrite <- Hr2. apply He.
  - exists (OpExpr o (NList args)), c2. rewrite Hr2. split; [done|]. split; [by left|done].
Qed.

Lemma null_test_moves t a loc : is_term a = true → moves (NullTest t a loc).
Proof.
  intros Ht c Hd Hc. pose proof (scan_null_test _ modifier_var t a loc c Ht) as E.
  destruct (scan_flags (NullTest t a loc) c) as [Hr2 Hf]. set (c2 := scan _ _ _) in *.
  cbn [my_modifier_self]. erewrite bind_Ok by exact E. erewrite bind_Ok by reflexivity.
  assert (disjunction c2 = false) as Hd2 by congruence.
  destruct (add c2 && negb (disjunction c2)).
  - destruct (register_ok (NullTest t a loc) c2) as (c' & E' & ? & ? & He); [done|by rewrite Hr2|done|].
    exists NULL, c'. split; [exact E'|]. split; [by right|]. split; [done|]. split; [done|]. intros e. rewrite <- Hr2. apply He.
  - exists (NullTest t a loc), c2. rewrite Hr2. split; [done|]. split; [by left|done].
Qed.

Lemma atom_moves n : is_atom n = true → moves n.
Proof.
  destruct n as [| | | |o a| |t a l| | | | | | | | | |]; try done.
  - destruct a; try done. intros [Hne Ht]%bool_nonempty. by apply op_moves.
  - apply null_test_moves.
Qed.

Lemma atoms_move l : Forall moves l → ∀ c, disjunction c = false → collected_ok (already_constrain_rel c) →
  ∃ l' c', mutate_list my_modifier_self l c = Ok (l', c') ∧ Forall2 stays l l' ∧ disjunction c' = false ∧
    collected_ok (already_constrain_rel c') ∧
    ∀ e, and3 (and3_list (evals l' e)) (eval (already_constrain_rel c') e) =
         and3 (and3_list (evals l e)) (eval (already_constrain_rel c) e).
Proof.
  induction 1 as [|x l Hx _ IH]; intros c Hd Hc; [by exists [], c|].
  destruct (Hx c Hd Hc) as (x' & c1 & E1 & Hs1 & Hd1 & Hc1 & He1).
  destruct (IH c1 Hd1 Hc1) as (l' & c2 & E2 & Hs2 & Hd2 & Hc2 & He2).
  exists (x' :: l'), c2. split; [cbn; erewrite bind_Ok by exact E1; by erewrite bind_Ok by exact E2|].
  split; [by constructor|]. split; [done|]. split; [done|]. intros e. specialize (He1 e). specialize (He2 e).
  change (and3 (and3 (eval x' e) (and3_list (evals l' e))) (eval (already_constrain_rel c2) e) =
          and3 (and3 (eval x e) (and3_list (evals l e))) (eval (already_constrain_rel c) e)).
  rewrite <- and3_assoc, He2, and3_assoc.
  rewrite (and3_comm (eval x' e)), <- and3_assoc, He1, and3_assoc. f_equal. apply and3_comm.
Qed.

(** The references in a list of them are left alone. *)
Lemma refs_read l c : mutate_list my_modifier_self (map RangeTblRef l) c = Ok (map RangeTblRef l, c).
Proof. revert c. induction l as [|i l IH]; intros c; cbn; [done|]. by erewrite bind_Ok by apply IH. Qed.

(** What the pass leaves of a condition. *)
Definition remnant (quals quals' : node) : Prop :=
  stays quals quals' ∨ ∃ l l' loc, quals = BoolExpr AND_EXPR (NList l) loc ∧
    quals' = BoolExpr AND_EXPR (NList l') loc ∧ l ≠ [] ∧ Forall2 stays l l'.

Lemma conjuncts_eval quals e : eval quals e = and3_list (evals (conjuncts quals) e).
Proof. destruct (conjuncts_cases quals) as [->|(l & loc & ->)]; [|done]. cbn. by rewrite and3_TT_r. Qed.

(** The condition itself. *)
Lemma quals_split quals : Forall (λ n, is_atom n = true) (conjuncts quals) → conjuncts quals ≠ [] →
  ∃ quals' c', my_modifier_self quals make_context_optimizer_self = Ok (quals', c') ∧ remnant quals quals' ∧
    ∀ e, and3 (eval quals' e) (eval (already_constrain_rel c') e) = eval quals e.
Proof.
  intros Hat Hne. assert (collected_ok (already_constrain_rel make_context_optimizer_self)) as Hc0 by by exists [].
  assert (Forall moves (conjuncts quals)) as Hm by (eapply Forall_impl; [exact Hat|apply atom_moves]).
  destruct (conjuncts_cases quals) as [Hq|(l & loc & ->)].
  - rewrite Hq, Forall_singleton in Hm.
    destruct (Hm make_context_optimizer_self eq_refl Hc0) as (n' & c' & E & Hs & _ & _ & He). exists n', c'. split; [done|]. split; [by left|].
    intros e. rewrite He. apply and3_TT_r.
  - destruct (atoms_move _ Hm make_context_optimizer_self eq_refl Hc0) as (l' & c' & E & Hs & _ & _ & He). cbn [conjuncts] in *.
    assert (l' ≠ []) as Hne' by (intros ->; by apply Forall2_nil_inv_r in Hs).
    exists (BoolExpr AND_EXPR (NList l') loc), c'. split; [|split; [by right; exists l, l', loc|]].
    + cbn. rewrite bind_assoc. erewrite bind_Ok by exact E. unfold bind, ret. by rewrite of_list_ne.
    + intros e. etrans; [apply He|]. apply and3_TT_r.
Qed.

Lemma modifier_self_splits refs quals :
  Forall (λ n, is_atom n = true) (conjuncts quals) → conjuncts quals ≠ [] →
  ∃ quals' c', my_modifier_self (FromExpr (of_list (map RangeTblRef refs)) quals)
      make_context_optimizer_self = Ok (FromExpr (of_list (map RangeTblRef refs)) quals', c') ∧ remnant quals quals' ∧
    ∀ e, and3 (eval quals' e) (eval (already_constrain_rel c') e) = eval quals e.
Proof.
  intros Hat Hne. destruct (quals_split quals Hat Hne) as (quals' & c' & E & Hrem & He).
  exists quals', c'. split; [|done]. cbn [my_modifier_self]. unfold expression_tree_mutator.
  erewrite bind_Ok; [by erewrite bind_Ok by exact E|].
  destruct refs as [|i refs]; [done|]. cbn [map of_list my_modifier_self expression_tree_mutator].
  by erewrite bind_Ok by apply (refs_read (i :: refs)).
Qed.

(** C38: on a comparison, a null test or a conjunction of them the self-constraint pass
    always succeeds and only moves conditions: what it leaves in the WHERE clause,
    together with the constraints it collected for the range table, has the truth value
    of the given condition in every environment. *)
Theorem my_modifier_self_conserves refs quals :
  Forall (λ n, is_atom n = true) (conjuncts quals) → conjuncts quals ≠ [] →
  let from := of_list (map RangeTblRef refs) in
  ∃ quals' c',
    my_modifier_self (FromExpr from quals) make_context_optimizer_self = Ok (FromExpr from quals', c') ∧
    ∀ e, and3 (eval quals' e) (eval (already_constrain_rel c') e) = eval quals e.
Proof. intros Hat Hne. destruct (modifier_self_splits refs quals Hat Hne) as (quals' & c' & E & _ & He). eauto. Qed.

End Self.

Lemma my_modifier_self_conserves_witness :
  let atoms := [cmp 96 (col 0 1 1) (lit 1); cmp 96 (col 0 1 2) (col 0 2 1); NullTest IS_NULL (col 0 2 2) (-1);
                cmp 97 (col 0 1 2) (lit 5)] in
  ∃ quals' c',
    my_modifier_self (FromExpr (of_list (map RangeTblRef [1; 2])) (all_of atoms)) make_context_optimizer_self
      = Ok (FromExpr (of_list (map RangeTblRef [1; 2])) quals', c') ∧
    ∀ e, and3 (eval (I := sample_interp) quals' e) (eval (I := sample_interp) (already_constrain_rel c') e)
         = eval (I := sample_interp) (all_of atoms) e.
Proof.
  apply (my_modifier_self_conserves (I := sample_interp) [1; 2] (all_of _)); [by repeat constructor|done].
Defined.
