(* ===== verification/Rename.v ===== *)
(** Mutators that only rename variables.

    [modif_rel] of self_optimize.c and [mutator_varquals] of exist_optimize.c copy a
    condition and change the numbers of its variables.  The result has the value of the
    condition in every environment that gives the new variables the values of the old
    ones. *)

From S2P Require Import Prelude Nodes Terms Semantics SelfOpt Mutators CoddProps SelfProps.

(** [m] renames variables by [f], which may depend on the state, and uses the generic
    mutator on the other nodes of conditions. *)
Class RenamesTerms {S : Type} (m : node → M S node) (f : S → var → var) : Prop := {
  renames_null s : m NULL s = Ok (NULL, s);
  renames_var v s : m (Var v) s = Ok (Var (f s v), s);
  renames_const c s : m (Const c) s = Ok (Const c, s);
  renames_func g a s : m (FuncExpr g a) s = expression_tree_mutator m (FuncExpr g a) s;
  renames_relabel t a s : m (RelabelType t a) s = expression_tree_mutator m (RelabelType t a) s;
  renames_op o a s : m (OpExpr o a) s = expression_tree_mutator m (OpExpr o a) s;
  renames_test t a l s : m (NullTest t a l) s = expression_tree_mutator m (NullTest t a l) s;
  renames_bool b a l s : m (BoolExpr b a l) s = expression_tree_mutator m (BoolExpr b a l) s;
  renames_nlist l s : m (NList l) s = expression_tree_mutator m (NList l) s }.

Section Rename.
Context {I : Interp} {S : Type} (m : node → M S node) (f : S → var → var) `{!RenamesTerms m f} (s : S).

(** The second environment gives the renamed variable the value that the first gives
    the variable. *)
Definition carries (e1 e2 : env) (v : var) : Prop := look e2 (f s v) = look e1 v.

Definition carried_term (n n' : node) : Prop := is_term n' = true ∧ term_vars n' = map (f s) (term_vars n) ∧
  ∀ e1 e2, Forall (carries e1 e2) (term_vars n) → eval_term e2 n' = eval_term e1 n.

Definition carried (n n' : node) : Prop := ∀ e1 e2,
  Forall (carries e1 e2) (term_vars n) → eval n' e2 = eval n e1.

Definition renamed (R : node → node → Prop) (n : node) : Prop := ∃ n', m n s = Ok (n', s) ∧ R n n'.

Lemma renamed_list R l : Forall (renamed R) l → ∃ l', mutate_list m l s = Ok (l', s) ∧ Forall2 R l l'.
Proof.
  induction 1 as [|x l (x' & Ex & Hx) _ (l' & El & Hl)]; [by exists []|].
  exists (x' :: l'). split; [cbn; erewrite bind_Ok by exact Ex; by erewrite bind_Ok by exact El|by constructor].
Qed.

Lemma renamed_args R l : l ≠ [] → Forall (renamed R) l → ∃ l', m (NList l) s = Ok (NList l', s) ∧ Forall2 R l l'.
Proof.
  intros Hne (l' & El & Hl)%renamed_list. exists l'. split; [|done]. rewrite (renames_nlist (f := f)). cbn.
  erewrite bind_Ok by exact El. unfold ret. rewrite of_list_ne; [done|]. intros ->. by apply Forall2_nil_inv_r in Hl.
Qed.

(** Renamed terms. *)
Lemma carried_terms l l' e1 e2 : Forall2 carried_term l l' → Forall (carries e1 e2) (term_vars (NList l)) →
  eval_terms e2 l' = eval_terms e1 l.
Proof.
  induction 1 as [|x x' l l' (_ & _ & Hx) _ IH]; intros Hc; [done|]. rewrite term_vars_cons in Hc. apply Forall_app in Hc as [Hcx Hcl].
  unfold eval_terms in *. cbn. by rewrite (Hx e1 e2 Hcx), (IH Hcl).
Qed.

Lemma carried_args l l' : Forall2 carried_term l l' →
  forallb is_term l' = true ∧ term_vars (NList l') = map (f s) (term_vars (NList l)).
Proof.
  induction 1 as [|x x' l l' (Ht & Hv & _) _ [IHt IHv]]; [done|]. rewrite !term_vars_cons, map_app, Hv, IHv. cbn.
  by rewrite Ht, IHt.
Qed.

Lemma renamed_term n : (is_term n = true → renamed carried_term n) ∧
  ∀ l, n = NList l → forallb is_term l = true → Forall (renamed carried_term) l.
Proof.
  induction n using node_ind'; destruct_and?; (split; [|intros l' [=]; subst; try done]); try done.
  - intros _. eexists. split; [apply (renames_var (f := f))|]. split; [done|]. split; [done|].
    intros e1 e2 Hc. by apply Forall_cons in Hc as [Hv _].
  - intros _. eexists. by split; [apply (renames_const (f := f))|].
  - destruct n; try done. intros [Hne Ht]%bool_nonempty. destruct (renamed_args carried_term elements Hne) as (l' & E & Hl); [eauto|].
    exists (FuncExpr f0 (NList l')). split; [rewrite (renames_func (f := f)); cbn; by erewrite bind_Ok by exact E|].
    destruct (carried_args _ _ Hl) as [Ht' Hv']. split; [|split; [exact Hv'|]].
    + destruct l'; [by apply Forall2_nil_inv_r in Hl|exact Ht'].
    + intros e1 e2 Hc. rewrite !eval_term_func. by rewrite (carried_terms _ _ e1 e2 Hl Hc).
  - intros Ht. destruct (H Ht) as (n' & E & Hn). eexists. split; [rewrite (renames_relabel (f := f)); cbn; by erewrite bind_Ok by exact E|].
    destruct Hn as (Ht' & Hv' & Hn). split; [exact Ht'|]. split; [exact Hv'|]. intros e1 e2 Hc. cbn. by apply Hn.
  - intros Ht. apply forallb_Forall in Ht. rewrite Forall_forall in H, Ht |- *. intros x Hx. apply H; auto.
Qed.

Lemma renamed_atom n : is_atom n = true → renamed carried n.
Proof.
  destruct n as [| | | |o a| |t a loc| | | | | | | | | |]; try done.
  - destruct a as [| | | | | | | | | | | | | | |args|]; try done. intros [Hne Ht]%bool_nonempty.
    destruct (renamed_args carried_term args Hne) as (l' & E & Hl); [by apply (renamed_term (NList args))|].
    exists (OpExpr o (NList l')). split; [rewrite (renames_op (f := f)); cbn; by erewrite bind_Ok by exact E|].
    intros e1 e2 Hc. cbn [eval]. by rewrite (carried_terms _ _ e1 e2 Hl Hc).
  - intros Ht. destruct (proj1 (renamed_term a) Ht) as (n' & E & Hn). eexists.
    split; [rewrite (renames_test (f := f)); cbn; by erewrite bind_Ok by exact E|]. intros e1 e2 Hc. cbn [eval]. by rewrite (proj2 (proj2 Hn) e1 e2 Hc).
Qed.

Lemma renamed_NULL : renamed carried NULL.
Proof. exists NULL. split; [apply (renames_null (f := f))|done]. Qed.

Lemma carried_conj l l' e1 e2 : Forall2 carried l l' → Forall (carries e1 e2) (term_vars (NList l)) →
  evals l' e2 = evals l e1.
Proof.
  induction 1 as [|x x' l l' Hx _ IH]; intros Hc; [done|]. rewrite term_vars_cons in Hc. apply Forall_app in Hc as [Hcx Hcl].
  unfold evals in *. cbn. by rewrite (Hx e1 e2 Hcx), (IH Hcl).
Qed.

Lemma renamed_and l loc : l ≠ [] → Forall (renamed carried) l → renamed carried (BoolExpr AND_EXPR (NList l) loc).
Proof.
  intros Hne Hl. destruct (renamed_args carried l Hne Hl) as (l' & E & Hc). exists (BoolExpr AND_EXPR (NList l') loc). split.
  - rewrite (renames_bool (f := f)). cbn. by erewrite bind_Ok by exact E.
  - intros e1 e2 Hv. cbn [eval]. f_equal. exact (carried_conj _ _ _ _ Hc Hv).
Qed.

Lemma renamed_conj n : (is_conj n = true → renamed carried n) ∧
  ∀ l, n = NList l → forallb is_conj l = true → Forall (renamed carried) l.
Proof.
  induction n using node_ind'; destruct_and?; (split; [|intros l' [=]; subst; try done]);
    try (by intros ?; apply renamed_atom).
  - destruct b, n; try done. intros [Hne Hc]%bool_nonempty. apply renamed_and; eauto.
  - intros [Hne Hc]%bool_nonempty. destruct (renamed_args carried l Hne) as (l' & E & Hl).
    { apply forallb_Forall in Hc. rewrite Forall_forall in H, Hc |- *. intros x Hx. apply H; auto. }
    exists (NList l'). split; [exact E|]. intros e1 e2 Hv. cbn [eval]. f_equal. exact (carried_conj _ _ _ _ Hl Hv).
  - intros Hc. apply forallb_Forall in Hc. rewrite Forall_forall in H, Hc |- *. intros x Hx. apply H; auto.
Qed.
End Rename.
