(* ===== verification/ListProps.v ===== *)
(** What list.c promises to its callers.

    [list_commands_refine] runs arbitrary sequences of the routines on the heap and on
    Rocq lists and shows that they agree; the other theorems give the routines one by
    one, with what they leave unchanged, and the sharing that [list_concat] creates. *)

From S2P Require Import Prelude Nodes PgList ListSpec ListOps ListSets TrueVarSpec.

(** ** Commands *)

(** The routines that turn one list of integers into another. *)
Inductive list_cmd :=
  | Append (z : Z)
  | Cons (z : Z)
  | AppendUnique (z : Z)
  | Delete (z : Z)
  | DeleteFirst
  | Truncate (n : Z)
  | CopyTail (n : Z)
  | Double
  | UnionWith (zs : list Z)
  | IntersectWith (zs : list Z)
  | DifferenceWith (zs : list Z).

Definition spec_cmd (c : list_cmd) (xs : list Z) : list Z :=
  match c with
  | Append z => xs ++ [z]
  | Cons z => z :: xs
  | AppendUnique z => if memb Z.eqb xs z then xs else xs ++ [z]
  | Delete z => remove_first (λ y, y =? z) xs
  | DeleteFirst => tail xs
  | Truncate n => take (Z.to_nat n) xs
  | CopyTail n => drop (Z.to_nat n) xs
  | Double => xs ++ xs
  | UnionWith zs => union_spec Z.eqb xs zs
  | IntersectWith zs => inter_spec Z.eqb xs zs
  | DifferenceWith zs => diff_spec Z.eqb xs zs
  end.

Section Commands.
Context {B : Build}.

Fixpoint build_ints (p : option positive) (zs : list Z) : M heap (option positive) :=
  match zs with
  | [] => ret p
  | z :: zs => p <- lappend_int p z;; build_ints p zs
  end.

Definition run_cmd (c : list_cmd) (p : option positive) : M heap (option positive) :=
  match c with
  | Append z => lappend_int p z
  | Cons z => lcons_int z p
  | AppendUnique z => list_append_unique_int p z
  | Delete z => list_delete_int p z
  | DeleteFirst => list_delete_first p
  | Truncate n => list_truncate p n
  | CopyTail n => list_copy_tail p n
  | Double => q <- list_copy p;; list_concat p q
  | UnionWith zs => q <- build_ints None zs;; list_union_int p q
  | IntersectWith zs => q <- build_ints None zs;; list_intersection_int p q
  | DifferenceWith zs => q <- build_ints None zs;; list_difference_int p q
  end.

Fixpoint run_cmds (cs : list list_cmd) (p : option positive) : M heap (option positive) :=
  match cs with
  | [] => ret p
  | c :: cs => p <- run_cmd c p;; run_cmds cs p
  end.

(** The list [p] holds the integers [xs]. *)
Definition ints (h : heap) (p : option positive) (xs : list Z) : Prop :=
  heap_ok h ∧ ∃ cs, holds ops_int h p cs xs.

Lemma heap_ok_empty : heap_ok empty_heap.
Proof. intros l o Hl. cbn in Hl. by rewrite lookup_empty in Hl. Qed.

Lemma step_ints h p cs h' p' cs' xs :
  list_step h p cs h' T_IntList p' cs' → cs'.*2 = DInt <$> xs → ints h' p' xs.
Proof. intros (Hl & Hok & _ & _) Hd. split; [done|]. by exists cs'. Qed.

Lemma lappend_ints h p cs xs z : heap_ok h → holds ops_int h p cs xs →
  ∃ p' cs' h', lappend_int p z h = Ok (p', h') ∧ list_step h p cs h' T_IntList p' cs' ∧ cs'.*2 = DInt <$> xs ++ [z].
Proof.
  intros Hok [Hl Hd]. destruct (lappend_gen_ok h T_IntList p cs (DInt z) Hok Hl) as (p' & l & h' & E & Hst & _).
  exists p', (cs ++ [(l, DInt z)]), h'. split; [done|]. split; [done|]. rewrite !fmap_app. by rewrite Hd.
Qed.

(** Lists built from NIL are new: the other lists of the heap stay. *)
Lemma build_ints_ok zs : ∀ h p cs xs, heap_ok h → holds ops_int h p cs xs →
  ∃ p' cs' h', build_ints p zs h = Ok (p', h') ∧ list_step h p cs h' T_IntList p' cs' ∧ cs'.*2 = DInt <$> xs ++ zs.
Proof.
  induction zs as [|z zs IH]; intros h p cs xs Hok Hh.
  - exists p, cs, h. split; [done|]. rewrite app_nil_r. destruct Hh. split; [by apply list_step_refl|done].
  - destruct (lappend_ints h p cs xs z Hok Hh) as (p1 & cs1 & h1 & E1 & Hst1 & Hd1).
    pose proof Hst1 as (Hl1 & Hok1 & Hf1 & Hx1).
    destruct (IH h1 p1 cs1 (xs ++ [z]) Hok1 (conj Hl1 Hd1)) as (p2 & cs2 & h2 & E2 & (Hl2 & Hok2 & Hf2 & Hx2) & Hd2).
    exists p2, cs2, h2. split; [cbn; by erewrite bind_Ok by exact E1|]. split; [|by rewrite <- app_assoc in Hd2].
    split_and!; [done..|by eapply framed_trans|]. intros x [Hx|Hx]%Hx2; [auto|]. right.
    destruct Hf1 as [? _]. lia.
Qed.

(** Runs [build_ints] beside a list that is kept. *)
Lemma beside h p cs xs zs : heap_ok h → holds ops_int h p cs xs →
  ∃ q cs' h', build_ints None zs h = Ok (q, h') ∧ heap_ok h' ∧ holds ops_int h' p cs xs ∧ holds ops_int h' q cs' zs.
Proof.
  intros Hok Hh. destruct (build_ints_ok zs h None [] [] Hok) as (q & cs' & h' & E & (Hl & Hok' & Hf & _) & Hd).
  { done. }
  exists q, cs', h'. split; [done|]. split; [done|]. split; [|done].
  eapply (holds_frame ops_int [] h); [done|exact Hf|by intros ? _ ?%elem_of_nil|done].
Qed.

Lemma remove_first_ints z xs :
  remove_first (λ d, match d with DInt y => y =? z | _ => false end) (DInt <$> xs) =
  DInt <$> remove_first (λ y, y =? z) xs.
Proof. induction xs as [|x xs IH]; [done|]. cbn. destruct (x =? z); [done|]. cbn. by rewrite IH. Qed.

Lemma delete_ints h p cs xs z : heap_ok h → holds ops_int h p cs xs →
  ∃ p' cs' h', list_delete_int p z h = Ok (p', h') ∧ list_step h p cs h' T_IntList p' cs' ∧
    cs'.*2 = DInt <$> remove_first (λ y, y =? z) xs.
Proof.
  intros Hok [Hl Hd]. change (cs.*2 = DInt <$> xs) in Hd. rewrite <- remove_first_ints, <- Hd.
  apply list_delete_gen_ok; [done..|]. intros l d Hin. destruct (is_list_cell _ _ _ _ _ _ Hl Hin) as [n Hc].
  assert (d ∈ DInt <$> xs) as (y & -> & _)%list_elem_of_fmap.
  { rewrite <- Hd. apply list_elem_of_fmap. by exists (l, d). }
  unfold test_int. erewrite bind_Ok by (by eapply lfirst_int_Ok). done.
Qed.

Lemma delete_first_ints h p cs xs : heap_ok h → holds ops_int h p cs xs →
  ∃ p' cs' h', list_delete_first p h = Ok (p', h') ∧ list_step h p cs h' T_IntList p' cs' ∧
    cs'.*2 = DInt <$> tail xs.
Proof.
  intros Hok [Hl Hd]. change (cs.*2 = DInt <$> xs) in Hd. change (is_list h T_IntList p cs) in Hl.
  unfold list_delete_first. erewrite bind_Ok by by eapply check_list_invariants_ok. destruct p as [a|].
  - pose proof Hl as (Hne & Ha & _). destruct cs as [|[l d] cs]; [done|].
    erewrite bind_Ok by (by apply list_head_Ok).
    destruct (list_delete_cell_ok h T_IntList a [] l d cs Hok Hl) as (p' & h' & E & Hst & _).
    exists p', cs, h'. split; [exact E|]. split; [done|]. destruct xs as [|x xs]; [done|]. by injection Hd.
  - simpl in Hl. subst cs. destruct xs; [|done]. exists None, [], h. split; [done|]. split; [|done].
    by apply list_step_refl.
Qed.

(** Concatenating a list and its copy. *)
Lemma double_ints h p cs xs : heap_ok h → holds ops_int h p cs xs →
  ∃ p' h', (q <- list_copy p;; list_concat p q) h = Ok (p', h') ∧ ints h' p' (xs ++ xs).
Proof.
  intros Hok [Hl Hd]. change (cs.*2 = DInt <$> xs) in Hd.
  destruct (list_copy_ok h T_IntList p cs Hok Hl) as (q & cs' & h1 & E1 & (Hl1 & Hok1 & Hf1 & Hx1) & Hd1).
  assert (is_list h1 T_IntList p cs) as Hl' by (eapply (is_list_frame [] h); [done|exact Hf1|by intros ? _ ?%elem_of_nil|done]).
  destruct (list_concat_ok h1 T_IntList p cs q cs' Hok1 Hl' Hl1) as (p' & h2 & E2 & Hl2 & _ & Hok2 & _).
  { exact (fresh_disjoint h _ _ _ _ _ Hok Hl Hx1). }
  exists p', h2. split; [by erewrite bind_Ok by exact E1|]. split; [done|]. exists (cs ++ cs'). split; [done|].
  rewrite !fmap_app, Hd1, Hd. done.
Qed.

Lemma run_cmd_ok c h p xs : ints h p xs → ∃ p' h', run_cmd c p h = Ok (p', h') ∧ ints h' p' (spec_cmd c xs).
Proof.
  intros [Hok (cs & Hh)]. pose proof Hh as [Hl Hd].
  change (is_list h T_IntList p cs) in Hl. change (cs.*2 = DInt <$> xs) in Hd. destruct c; cbn [run_cmd spec_cmd].
  - destruct (lappend_ints h p cs xs z Hok Hh) as (p' & cs' & h' & E & Hst & Hd'). eauto using step_ints.
  - destruct (lcons_gen_ok h T_IntList p cs (DInt z) Hok Hl) as (p' & l & h' & E & Hst & _).
    exists p', h'. split; [done|]. eapply step_ints; [done|]. cbn. by rewrite Hd.
  - destruct (append_unique_gen_ok ops_int h p cs xs z Hok Hh) as (p' & cs' & h' & E & Hst & Hd').
    eauto using step_ints.
  - destruct (delete_ints h p cs xs z Hok Hh) as (p' & cs' & h' & E & Hst & Hd'). eauto using step_ints.
  - destruct (delete_first_ints h p cs xs Hok Hh) as (p' & cs' & h' & E & Hst & Hd'). eauto using step_ints.
  - destruct (list_truncate_ok h T_IntList p cs n Hok Hl) as (p' & h' & E & Hst).
    exists p', h'. split; [done|]. eapply step_ints; [done|]. by rewrite fmap_take, Hd, <- fmap_take.
  - destruct (list_copy_tail_ok h T_IntList p cs n Hok Hl) as (p' & cs' & h' & E & Hst & Hd').
    exists p', h'. split; [done|]. eapply step_ints; [done|]. by rewrite Hd', Hd, <- fmap_drop.
  - eauto using double_ints.
  - destruct (beside h p cs xs zs Hok Hh) as (q & cs' & h1 & E1 & Hok1 & Hp & Hq).
    destruct (list_union_gen_ok ops_int h1 p cs xs q cs' zs Hok1 Hp Hq) as (p' & cs2 & h2 & E & Hst & Hd').
    exists p', h2. split; [by erewrite bind_Ok by exact E1|]. by eapply step_ints.
  - destruct (beside h p cs xs zs Hok Hh) as (q & cs' & h1 & E1 & Hok1 & Hp & Hq).
    destruct (list_intersection_gen_ok ops_int h1 p cs xs q cs' zs Hok1 Hp Hq) as (p' & cs2 & h2 & E & Hst & Hd').
    exists p', h2. split; [by erewrite bind_Ok by exact E1|]. by eapply step_ints.
  - destruct (beside h p cs xs zs Hok Hh) as (q & cs' & h1 & E1 & Hok1 & Hp & Hq).
    destruct (list_difference_gen_ok ops_int h1 p cs xs q cs' zs Hok1 Hp Hq) as (p' & cs2 & h2 & E & Hst & Hd').
    exists p', h2. split; [by erewrite bind_Ok by exact E1|]. by eapply step_ints.
Qed.

Lemma run_cmds_ok cs : ∀ h p xs, ints h p xs →
  ∃ p' h', run_cmds cs p h = Ok (p', h') ∧ ints h' p' (fold_left (λ xs c, spec_cmd c xs) cs xs).
Proof.
  induction cs as [|c cs IH]; intros h p xs Hi; [by exists p, h|].
  destruct (run_cmd_ok c h p xs Hi) as (p1 & h1 & E1 & H1). destruct (IH h1 p1 _ H1) as (p2 & h2 & E2 & H2).
  exists p2, h2. split; [cbn; by erewrite bind_Ok by exact E1|done].
Qed.

Lemma seg_fuel h p cs : heap_ok h → seg h p cs None → (length cs < Pos.to_nat (h_brk h))%nat.
Proof.
  intros Hok Hs. rewrite <- (length_fmap fst). apply NoDup_bounded; [by eapply seg_NoDup|].
  intros x Hx. destruct (seg_lookup _ _ _ _ _ Hs Hx) as [c Hc]. by eapply Hok.
Qed.

Lemma run_loop_read ds acc :
  run_loop (R := list datum) (λ d a, Cont (a ++ [d])) ds acc = Cont (acc ++ ds).
Proof.
  revert acc. induction ds as [|d ds IH]; intros acc; cbn; [by rewrite app_nil_r|]. by rewrite IH, <- app_assoc.
Qed.

Lemma read_list_ok h t p cs : heap_ok h → is_list h t p cs → read_list p h = Ok (cs.*2, h).
Proof.
  intros Hok Hl. unfold read_list. erewrite bind_Ok.
  2: { apply (foreach_readonly _ (λ d a, Cont (a ++ [d])) h t p cs); [done..|]. intros l d a Hin.
       destruct (is_list_cell _ _ _ _ _ _ Hl Hin) as [n Hc]. by erewrite bind_Ok by (by apply ldata_Ok). }
  by rewrite run_loop_read.
Qed.

(** Appending to a list that exists returns it. *)
Lemma lappend_same h t a d p h' : lappend_gen t (Some a) d h = Ok (p, h') → p = Some a.
Proof. intros H. unfold lappend_gen in H. repeat mstep H. injection H as <- <-. mstep E0. by injection E0. Qed.

(** A loop follows the chain, whatever the length and tail fields say. *)
Lemma read_shared h b t n cs tl : heap_ok h →
  h_objs h !! b = Some (OList (mkHdr t (Z.of_nat n) (head_ptr cs) tl)) → seg h (head_ptr cs) cs None →
  read_list (Some b) h = Ok (cs.*2, h).
Proof.
  intros Hok Hb Hs. unfold read_list, foreach. rewrite bind_assoc. erewrite bind_Ok by (by apply list_head_Ok).
  rewrite bind_assoc. erewrite bind_Ok by done. cbn [l_head].
  erewrite bind_Ok.
  2: { apply (foreach_from_readonly _ (λ d a, Cont (a ++ [d])) h cs); [done|by eapply seg_fuel|]. intros l d a Hin.
       destruct (seg_cell _ _ _ _ _ _ Hs Hin) as [n' Hc]. by erewrite bind_Ok by (by apply ldata_Ok). }
  by rewrite run_loop_read.
Qed.

(** C23: in builds with and without assertions, every sequence of list routines run on
    the heap from NIL succeeds, and the list it ends with, read with [foreach] and
    [list_length], holds exactly the elements that the corresponding functions on
    sequences give: header, length, chain and tail pointer stay consistent through
    appending, prepending, deleting, truncating, copying, concatenating and the set
    operations. *)
Theorem list_commands_refine cmds :
  let xs := fold_left (λ xs c, spec_cmd c xs) cmds [] in
  ∃ p h, run_cmds cmds None empty_heap = Ok (p, h) ∧
    read_list p h = Ok (DInt <$> xs, h) ∧ list_length p h = Ok (Z.of_nat (length xs), h).
Proof.
  destruct (run_cmds_ok cmds empty_heap None []) as (p & h & E & Hok & cs & Hl & Hd).
  { split; [apply heap_ok_empty|]. by exists []. }
  exists p, h. split; [done|]. erewrite read_list_ok, Hd by done. split; [done|].
  erewrite list_length_ok by done. do 2 f_equal. rewrite <- (length_fmap snd), Hd. by rewrite length_fmap.
Qed.

(** ** Single routines *)

(** C24: [list_concat] makes the two lists share cells: when the result is appended to
    later, a loop over the second list also visits the new element, while its length
    field still gives the old length.  This holds for all non-empty lists that were
    separate before. *)
Theorem list_concat_shares h t a cs1 b cs2 d :
  heap_ok h → is_list h t (Some a) cs1 → is_list h t (Some b) cs2 →
  footprint (Some a) cs1 ## footprint (Some b) cs2 →
  ∃ h1 h2, list_concat (Some a) (Some b) h = Ok (Some a, h1) ∧ lappend_gen t (Some a) d h1 = Ok (Some a, h2) ∧
    read_list (Some a) h2 = Ok (cs1.*2 ++ cs2.*2 ++ [d], h2) ∧
    read_list (Some b) h2 = Ok (cs2.*2 ++ [d], h2) ∧
    list_length (Some b) h2 = Ok (Z.of_nat (length cs2), h2).
Proof.
  intros Hok H1 H2 Hdisj.
  destruct (list_concat_ok h t _ cs1 _ cs2 Hok H1 H2 Hdisj) as (p & h1 & E1 & Hl1 & Hl2 & Hok1 & _ & _ & ->).
  destruct (lappend_gen_ok h1 t (Some a) (cs1 ++ cs2) d Hok1 Hl1) as (p & l & h2 & E2 & (Hl & Hok2 & [_ Hf] & _) & _).
  assert (p = Some a) as -> by (by eapply lappend_same).
  assert (b ∉ footprint (Some a) (cs1 ++ cs2)) as Hb.
  { rewrite elem_footprint, elem_cells_app. intros [[= ->]|[Hin|Hin]].
    - eapply (Hdisj b); rewrite elem_footprint; by left.
    - eapply (Hdisj b); rewrite elem_footprint; [by right|by left].
    - by eapply is_list_header_not_cell in H2. }
  destruct Hl2 as (Hne2 & Hb1 & _).
  assert (h_objs h2 !! b = h_objs h1 !! b) as Hb2 by (apply Hf; [by eapply Hok1|done]).
  exists h1, h2. split; [done|]. split; [done|]. split; [|split].
  - erewrite read_list_ok by done. by rewrite !fmap_app, <- app_assoc.
  - rewrite (read_shared h2 b t (length cs2) (cs2 ++ [(l, d)]) (last_ptr cs2)); [by rewrite fmap_app|done|..].
    + rewrite Hb2, Hb1. by destruct cs2.
    + destruct Hl as (_ & _ & Hs). rewrite <- app_assoc in Hs. apply seg_app in Hs as (r & _ & Hs).
      by erewrite <- (head_ptr_seg_None h2 r) by done.
  - unfold list_length. erewrite bind_Ok by (by eapply get_list_Ok; rewrite Hb2). done.
Qed.

Lemma inter_spec_elem xs1 xs2 z : z ∈ inter_spec Z.eqb xs1 xs2 ↔ z ∈ xs1 ∧ z ∈ xs2.
Proof.
  unfold inter_spec. rewrite list_elem_of_In, filter_In, <- list_elem_of_In.
  by rewrite (memb_true Z.eqb Z.eqb_eq).
Qed.

Lemma diff_spec_elem xs1 xs2 z : z ∈ diff_spec Z.eqb xs1 xs2 ↔ z ∈ xs1 ∧ z ∉ xs2.
Proof.
  unfold diff_spec. rewrite list_elem_of_In, filter_In, <- list_elem_of_In, negb_true_iff, <- not_true_iff_false.
  by rewrite (memb_true Z.eqb Z.eqb_eq).
Qed.

(** The result of a set routine: a new list of integers, beside the unchanged heap. *)
Definition new_ints (h : heap) (m : M heap (option positive)) (P : list Z → Prop) : Prop :=
  ∃ p cs h' xs, m h = Ok (p, h') ∧ list_step h None [] h' T_IntList p cs ∧ cs.*2 = DInt <$> xs ∧ P xs.

(** C25: the set routines on lists of integers compute union, intersection and
    difference in newly allocated lists and change nothing that existed, also when
    the two arguments share cells; a union starts with the first list and has no
    duplicates when the first list has none. *)
Theorem list_set_algebra h p1 cs1 xs1 p2 cs2 xs2 :
  heap_ok h → holds ops_int h p1 cs1 xs1 → holds ops_int h p2 cs2 xs2 →
  new_ints h (list_union_int p1 p2) (λ xs,
    (∀ z, z ∈ xs ↔ z ∈ xs1 ∨ z ∈ xs2) ∧ xs1 `prefix_of` xs ∧ (NoDup xs1 → NoDup xs)) ∧
  new_ints h (list_intersection_int p1 p2) (λ xs, ∀ z, z ∈ xs ↔ z ∈ xs1 ∧ z ∈ xs2) ∧
  new_ints h (list_difference_int p1 p2) (λ xs, ∀ z, z ∈ xs ↔ z ∈ xs1 ∧ z ∉ xs2).
Proof.
  intros Hok H1 H2. split_and!.
  - destruct (list_union_gen_ok ops_int h _ _ _ _ _ _ Hok H1 H2) as (p & cs & h' & E & Hst & Hd).
    exists p, cs, h', (union_spec Z.eqb xs1 xs2). do 3 (split; [done|]). split_and!.
    + intros z. apply (union_spec_elem Z.eqb Z.eqb_eq).
    + apply union_spec_prefix.
    + apply (union_spec_NoDup Z.eqb Z.eqb_eq).
  - destruct (list_intersection_gen_ok ops_int h _ _ _ _ _ _ Hok H1 H2) as (p & cs & h' & E & Hst & Hd).
    exists p, cs, h', (inter_spec Z.eqb xs1 xs2). do 3 (split; [done|]). intros z. apply inter_spec_elem.
  - destruct (list_difference_gen_ok ops_int h _ _ _ _ _ _ Hok H1 H2) as (p & cs & h' & E & Hst & Hd).
    exists p, cs, h', (diff_spec Z.eqb xs1 xs2). do 3 (split; [done|]). intros z. apply diff_spec_elem.
Qed.

(** Walking off the end of a chain. *)
Lemma advance_off h p cs n : seg h p cs None → (length cs ≤ n)%nat →
  (c <- advance n p;; lfirst_int c) h = Err ENullDeref.
Proof.
  revert p n. induction cs as [|[l d] cs IH]; intros p n; simpl.
  - intros -> _. by destruct n.
  - intros [-> (nx & Hl & Hs)] Hn. destruct n as [|n]; [lia|]. cbn [advance]. rewrite bind_assoc.
    erewrite bind_Ok by (by apply lnext_Ok). apply IH; [done|lia].
Qed.

Lemma list_nth_int_in h a cs xs n z :
  holds ops_int h (Some a) cs xs → 0 ≤ n → xs !! Z.to_nat n = Some z → list_nth_int (Some a) n h = Ok (z, h).
Proof.
  intros [Hl Hd] Hn Hz. unfold list_nth_int. erewrite bind_Ok by by eapply assert_typed_ok.
  assert (cs.*2 !! Z.to_nat n = Some (DInt z)) as Hz' by (rewrite Hd, list_lookup_fmap, Hz; done).
  rewrite list_lookup_fmap in Hz'. apply fmap_Some in Hz' as ([l d] & Hx & Ed). simpl in Ed. subst d.
  erewrite bind_Ok by by eapply list_nth_cell_ok.
  destruct (is_list_cell h T_IntList (Some a) cs l (DInt z)) as [nx Hc]; [done|by eapply list_elem_of_lookup_2|].
  by eapply lfirst_int_Ok.
Qed.

Lemma list_nth_int_out h a cs xs n :
  holds ops_int h (Some a) cs xs → n < 0 ∨ Z.of_nat (length xs) ≤ n →
  list_nth_int (Some a) n h =
    if use_assert then Err EAssert else if n <? 0 then Ok (hd 0 xs, h) else Err ENullDeref.
Proof.
  intros [Hl Hd] Hn. pose proof Hl as (Hne & Ha & Hs).
  assert (length cs = length xs) as Hlen by (by rewrite <- (length_fmap snd), Hd, length_fmap).
  unfold list_nth_int, list_nth_cell. erewrite bind_Ok by by eapply assert_typed_ok.
  rewrite bind_assoc. erewrite bind_Ok by by apply Assert_true. rewrite bind_assoc.
  destruct use_assert eqn:Hu.
  - destruct (Z.leb_spec 0 n).
    + erewrite bind_Ok by by apply Assert_true. rewrite bind_assoc. erewrite bind_Ok by by apply get_list_Ok.
      rewrite bind_assoc. apply bind_Err. unfold Assert. rewrite Hu. cbn. by rewrite (proj2 (Z.ltb_ge _ _)) by lia.
    + apply bind_Err. unfold Assert. by rewrite Hu.
  - assert (∀ b, Assert (S := heap) b h = Ok ((), h)) as HA by (intros b; unfold Assert; by rewrite Hu).
    erewrite bind_Ok by apply HA. rewrite bind_assoc. erewrite bind_Ok by by apply get_list_Ok.
    rewrite bind_assoc. erewrite bind_Ok by apply HA.
    rewrite bind_assoc. erewrite bind_Ok by by eapply check_list_invariants_ok. cbn [l_length l_head].
    rewrite (proj2 (Z.eqb_neq _ _)) by (destruct cs; simpl in *; [done|lia]).
    destruct (Z.ltb_spec n 0); [|apply (advance_off h _ cs); [done|lia]].
    rewrite Z2Nat.nonpos by lia. destruct cs as [|[l d] cs], xs as [|x xs]; try done. injection Hd as -> _.
    destruct Hs as [_ (nx & Hc & _)]. by eapply lfirst_int_Ok.
Qed.

(** C26: [list_nth_int] on a well-formed list, for every index: in range it returns that
    element; out of range it fails the assertion in builds that have it; without
    assertions a negative index returns the first element and one past the end
    dereferences NULL. *)
Theorem list_nth_int_total h a cs xs n :
  holds ops_int h (Some a) cs xs →
  list_nth_int (Some a) n h =
    if (0 <=? n) && (n <? Z.of_nat (length xs)) then Ok (nth (Z.to_nat n) xs 0, h)
    else if use_assert then Err EAssert
    else if n <? 0 then Ok (hd 0 xs, h) else Err ENullDeref.
Proof.
  intros Hh. destruct (Z.leb_spec 0 n), (Z.ltb_spec n (Z.of_nat (length xs))); cbn [andb].
  - eapply list_nth_int_in; [done..|]. destruct (lookup_lt_is_Some_2 xs (Z.to_nat n)) as [z Hz]; [lia|].
    by rewrite Hz, (nth_lookup_Some _ _ _ z).
  - eapply list_nth_int_out; [done|by right].
  - eapply list_nth_int_out; [done|by left].
  - lia.
Qed.

(** C27: [list_free] releases the header and every cell of a list exactly once, leaves
    every other object alone, and a second call is caught as an access to freed
    memory. *)
Theorem list_free_exact h t a cs :
  heap_ok h → is_list h t (Some a) cs →
  ∃ h', list_free (Some a) h = Ok ((), h') ∧
    (∀ x, h_objs h' !! x = if bool_decide (x = a ∨ x ∈ cs.*1) then None else h_objs h !! x) ∧
    list_free (Some a) h' = Err EDangling.
Proof.
  intros Hok Hl. destruct (list_free_ok h t (Some a) cs Hok Hl) as (h' & E & _ & Hx).
  exists h'. split; [done|]. split.
  - intros x. rewrite Hx. erewrite bool_decide_ext; [done|]. rewrite elem_footprint. naive_solver.
  - assert (h_objs h' !! a = None) as Ha by (rewrite Hx, bool_decide_eq_true_2; [done|rewrite elem_footprint; by left]).
    assert (get_list (Some a) h' = Err EDangling) as Hg by (unfold get_list, bind, get_obj; by rewrite Ha).
    unfold list_free, list_free_private, check_list_invariants. destruct use_assert.
    + apply bind_Err. by apply bind_Err.
    + erewrite bind_Ok by done. apply bind_Err. by apply bind_Err.
Qed.
End Commands.

(** ** A concrete heap *)

(** Two lists of integers: [10; 20] at 3 and [30] at 5. *)
Definition two_lists : heap :=
  mkHeap (list_to_map [(1%positive, OCell (mkCell (DInt 10) (Some 2%positive)));
                       (2%positive, OCell (mkCell (DInt 20) None));
                       (3%positive, OList (mkHdr T_IntList 2 (Some 1%positive) (Some 2%positive)));
                       (4%positive, OCell (mkCell (DInt 30) None));
                       (5%positive, OList (mkHdr T_IntList 1 (Some 4%positive) (Some 4%positive)))]) 6.

Definition cells_10_20 : cells := [(1%positive, DInt 10); (2%positive, DInt 20)].
Definition cells_30 : cells := [(4%positive, DInt 30)].

Lemma two_lists_ok : heap_ok two_lists.
Proof.
  intros l o Hl. cbn in Hl.
  repeat (apply lookup_insert_Some in Hl as [[<- _]|[_ Hl]]; [done|]). by rewrite lookup_empty in Hl.
Qed.

Lemma holds_10_20 {B : Build} : holds ops_int two_lists (Some 3%positive) cells_10_20 [10; 20].
Proof. repeat first [split; [done|] | eexists | done]. Qed.

Lemma holds_30 {B : Build} : holds ops_int two_lists (Some 5%positive) cells_30 [30].
Proof. repeat first [split; [done|] | eexists | done]. Qed.

Lemma two_lists_disjoint : footprint (Some 3%positive) cells_10_20 ## footprint (Some 5%positive) cells_30.
Proof. unfold footprint. cbn. set_solver. Qed.

Lemma list_concat_shares_witness :
  ∃ h1 h2, list_concat (B := true) (Some 3%positive) (Some 5%positive) two_lists = Ok (Some 3%positive, h1) ∧
    lappend_gen (B := true) T_IntList (Some 3%positive) (DInt 40) h1 = Ok (Some 3%positive, h2) ∧
    read_list (Some 3%positive) h2 = Ok ([DInt 10; DInt 20] ++ [DInt 30] ++ [DInt 40], h2) ∧
    read_list (Some 5%positive) h2 = Ok ([DInt 30] ++ [DInt 40], h2) ∧
    list_length (Some 5%positive) h2 = Ok (1, h2).
Proof.
  exact (list_concat_shares (B := true) two_lists T_IntList 3 cells_10_20 5 cells_30 (DInt 40) two_lists_ok
           (proj1 (holds_10_20 (B := true))) (proj1 (holds_30 (B := true))) two_lists_disjoint).
Defined.

Lemma list_set_algebra_witness :
  new_ints two_lists (list_union_int (B := true) (Some 3%positive) (Some 5%positive)) (λ xs,
    (∀ z, z ∈ xs ↔ z ∈ [10; 20] ∨ z ∈ [30]) ∧ [10; 20] `prefix_of` xs ∧ (NoDup [10; 20] → NoDup xs)).
Proof.
  exact (proj1 (list_set_algebra (B := true) two_lists _ _ [10; 20] _ _ [30] two_lists_ok holds_10_20 holds_30)).
Defined.

Lemma list_nth_int_total_witness :
  list_nth_int (B := false) (Some 3%positive) 1 two_lists = Ok (20, two_lists) ∧
  list_nth_int (B := false) (Some 3%positive) (-1) two_lists = Ok (10, two_lists) ∧
  list_nth_int (B := false) (Some 3%positive) 2 two_lists = Err ENullDeref ∧
  list_nth_int (B := true) (Some 3%positive) 2 two_lists = Err EAssert.
Proof.
  split; [|split; [|split]].
  - exact (list_nth_int_total (B := false) two_lists 3 cells_10_20 [10; 20] 1 holds_10_20).
  - exact (list_nth_int_total (B := false) two_lists 3 cells_10_20 [10; 20] (-1) holds_10_20).
  - exact (list_nth_int_total (B := false) two_lists 3 cells_10_20 [10; 20] 2 holds_10_20).
  - exact (list_nth_int_total (B := true) two_lists 3 cells_10_20 [10; 20] 2 holds_10_20).
Defined.

Lemma list_free_exact_witness :
  ∃ h', list_free (B := true) (Some 3%positive) two_lists = Ok ((), h') ∧
    (∀ x, h_objs h' !! x = if bool_decide (x = 3%positive ∨ x ∈ cells_10_20.*1) then None else h_objs two_lists !! x) ∧
    list_free (B := true) (Some 3%positive) h' = Err EDangling.
Proof. exact (list_free_exact (B := true) two_lists T_IntList 3 cells_10_20 two_lists_ok (proj1 (holds_10_20 (B := true)))). Defined.
