(* ===== verification/TrueVarProps.v ===== *)
(** What true_var.c promises: [union_list] removes duplicates, [inter_list] computes
    an intersection by counting, [getTrueVar] resolves a column reference through the
    scopes of the enclosing queries. *)

From S2P Require Import Prelude Nodes PgList ListSpec ListOps ListSets TrueVar TrueVarSpec NotNull.

Section Props.
Context {B : Build}.

(** C35: [union_list] always returns, in a new list, one true variable for every column
    of its argument and no column twice; the argument and the rest of the heap are
    unchanged. *)
Theorem union_list_set h p cs ks :
  heap_ok h → var_list h p cs ks →
  ∃ p' cs' ks' h', union_list p h = Ok (p', h') ∧ list_step h None [] h' T_List p' cs' ∧
    var_list h' p' cs' ks' ∧ NoDup ks' ∧ ∀ k, k ∈ ks' ↔ k ∈ ks.
Proof.
  intros Hok Hv. destruct (union_list_ok _ h p cs ks Hok Hv) as (p' & cs' & h' & E & Hst & Hv').
  exists p', cs', (union_keys ks), h'. split_and!; try done; [apply union_keys_NoDup|].
  intros k. apply union_keys_elem.
Qed.

Lemma count_every kss k : Forall NoDup kss → Forall (λ ks, k ∈ ks) kss →
  count_key (concat kss) k = Z.of_nat (length kss).
Proof.
  induction 1 as [|ks kss Hnd _ IH]; intros Hin; [done|]. apply Forall_cons in Hin as [Hk Hin].
  cbn [concat length]. rewrite count_key_app, count_key_NoDup, IH by done. rewrite bool_decide_eq_true_2 by done. lia.
Qed.

(** C34: when the argument is the concatenation of [nb_arg] lists without duplicates,
    [inter_list] returns, in a new list and without duplicates, exactly the columns
    that are in all of them: counting the occurrences is a correct intersection. *)
Theorem inter_list_intersection h p cs kss :
  heap_ok h → var_list h p cs (concat kss) → Forall NoDup kss → kss ≠ [] →
  ∃ p' cs' ks' h', inter_list p (Z.of_nat (length kss)) h = Ok (p', h') ∧
    list_step h None [] h' T_List p' cs' ∧ var_list h' p' cs' ks' ∧ NoDup ks' ∧
    ∀ k, k ∈ ks' ↔ Forall (λ ks, k ∈ ks) kss.
Proof.
  intros Hok Hv Hnd Hne.
  destruct (inter_list_ok _ h p cs _ (Z.of_nat (length kss)) Hok Hv) as (p' & cs' & h' & E & Hst & Hv').
  exists p', cs', (inter_keys (Z.of_nat (length kss)) (concat kss)), h'.
  do 3 (split; [done|]). split; [apply inter_keys_NoDup|]. intros k. rewrite inter_keys_elem. split.
  - intros [_ Hc]. by apply count_all.
  - intros Hall. split; [|by apply count_every]. destruct kss as [|ks kss]; [done|].
    apply Forall_cons in Hall as [Hk _]. cbn. rewrite elem_of_app. by left.
Qed.

(** C36: [getTrueVar] returns the true variable of the column that a reference denotes:
    it goes up [varlevelsup] scopes, to range table entry [varno], to column
    [varattno], and changes nothing. *)
Theorem getTrueVar_resolves h p st v k :
  scopes (λ _, True) h p st → resolve st v = Some k →
  ∃ t, getTrueVar p v h = Ok (t, h) ∧ is_var h t ∧ key_of (var_of h t) = k.
Proof.
  intros Hsc Hr. destruct (getTrueVar_ok _ h p st v k Hsc Hr) as (t & E & [Ht _] & Hk). eauto.
Qed.
End Props.

(** ** A concrete heap *)

(** Columns (20, 1) and (20, 2); the list at 5 holds the first, the second and the
    first again; the scope at 7 has no outer scope and one relation, whose columns
    are the list at 5. *)
Definition true_var_at (relation column : Z) : obj := ONode (Var (mkVar 1 column relation 0 0 0 0 0 0)).

Definition var_heap : heap :=
  mkHeap (list_to_map [(1%positive, true_var_at 20 1); (2%positive, true_var_at 20 2);
                       (3%positive, OCell (mkCell (DPtr (Some 1%positive)) (Some 4%positive)));
                       (4%positive, OCell (mkCell (DPtr (Some 2%positive)) (Some 6%positive)));
                       (6%positive, OCell (mkCell (DPtr (Some 1%positive)) None));
                       (5%positive, OList (mkHdr T_List 3 (Some 3%positive) (Some 6%positive)));
                       (8%positive, OCell (mkCell (DPtr None) (Some 9%positive)));
                       (9%positive, OCell (mkCell (DPtr (Some 5%positive)) None));
                       (7%positive, OList (mkHdr T_List 2 (Some 8%positive) (Some 9%positive)))]) 10.

Definition var_cells : cells :=
  [(3%positive, DPtr (Some 1%positive)); (4%positive, DPtr (Some 2%positive)); (6%positive, DPtr (Some 1%positive))].

Lemma var_heap_ok : heap_ok var_heap.
Proof.
  intros l o Hl. cbn in Hl.
  repeat (apply lookup_insert_Some in Hl as [[<- _]|[_ Hl]]; [done|]). by rewrite lookup_empty in Hl.
Qed.

Lemma var_heap_list : var_list var_heap (Some 5%positive) var_cells [(20, 1); (20, 2); (20, 1)].
Proof.
  split; [by repeat first [split; [done|] | eexists | done]|].
  exists [Some 1%positive; Some 2%positive; Some 1%positive]. split; [done|]. split; [|done].
  repeat constructor; by eexists.
Qed.

Lemma var_heap_scope : scopes (λ _, True) var_heap (Some 7%positive) [[[(20, 1); (20, 2); (20, 1)]]].
Proof.
  exists [(8%positive, DPtr None); (9%positive, DPtr (Some 5%positive))], None, [Some 5%positive].
  split; [by repeat first [split; [done|] | eexists | done]|]. do 3 (split; [done|]).
  constructor; [|done]. exists var_cells. split; [apply var_heap_list|done].
Qed.

Lemma union_list_set_witness :
  ∃ p' cs' ks' h', union_list (B := true) (Some 5%positive) var_heap = Ok (p', h') ∧
    list_step var_heap None [] h' T_List p' cs' ∧ var_list h' p' cs' ks' ∧ NoDup ks' ∧
    ∀ k, k ∈ ks' ↔ k ∈ [(20, 1); (20, 2); (20, 1)].
Proof. exact (union_list_set (B := true) var_heap _ _ _ var_heap_ok var_heap_list). Defined.

Lemma inter_list_intersection_witness :
  ∃ p' cs' ks' h', inter_list (B := true) (Some 5%positive) 2 var_heap = Ok (p', h') ∧
    list_step var_heap None [] h' T_List p' cs' ∧ var_list h' p' cs' ks' ∧ NoDup ks' ∧
    ∀ k, k ∈ ks' ↔ Forall (λ ks, k ∈ ks) [[(20, 1); (20, 2)]; [(20, 1)]].
Proof.
  apply (inter_list_intersection (B := true) var_heap (Some 5%positive) var_cells [[(20, 1); (20, 2)]; [(20, 1)]]
           var_heap_ok var_heap_list); [|done].
  repeat constructor; set_solver.
Defined.

Lemma getTrueVar_resolves_witness :
  ∃ t, getTrueVar (B := true) (Some 7%positive) (mkVar 1 2 23 (-1) 0 0 1 2 0) var_heap = Ok (t, var_heap) ∧
    is_var var_heap t ∧ key_of (var_of var_heap t) = (20, 2).
Proof. by apply (getTrueVar_resolves (B := true) var_heap _ _ _ _ var_heap_scope). Defined.
