(* ===== verification/ExistProps.v ===== *)
(** Correctness of the bookkeeping of exist_optimize.c.

    [rewrite_connexe] moves the range table entries of a component into a sub-query
    and renumbers the others: for components in ascending order the new numbers refer
    to the entries that the old ones did.  [mutator_conn] takes out exactly the
    comparisons that mention the component. *)

From Stdlib Require Import Sorted.
From S2P Require Import Prelude Nodes Terms PgList Semantics SelfOpt ExistOpt SplitProps Mutators CoddProps CoddNeg Samples.

(** ** Numbers *)

(** How many numbers of [L] are below [v]. *)
Definition below (L : list Z) (v : Z) : Z := Z.of_nat (length (List.filter (λ w, w <? v) L)).

Lemma below_cons w L v : below (w :: L) v = (if w <? v then 1 else 0) + below L v.
Proof. unfold below. cbn. destruct (w <? v); cbn [length]; lia. Qed.

Lemma below_none L v : Forall (λ w, v ≤ w) L → below L v = 0.
Proof.
  induction 1 as [|w L Hw _ IH]; [done|]. rewrite below_cons, IH. by rewrite (proj2 (Z.ltb_ge w v)) by lia.
Qed.

Lemma deacrease_below v L : deacrease v L = v - below L v.
Proof.
  unfold deacrease. f_equal. enough (∀ i, fold_left (λ i w, if w <? v then i + 1 else i) L i = i + below L v) as H by apply H.
  induction L as [|w L IH]; intros i; cbn; [unfold below; cbn; lia|]. rewrite IH, below_cons. destruct (w <? v); lia.
Qed.

Lemma is_in_list_from_spec i v L : 1 ≤ i →
  if bool_decide (v ∈ L) then ∃ j, is_in_list_from i v L = i + Z.of_nat j ∧ L !! j = Some v
  else is_in_list_from i v L = 0.
Proof.
  revert i. induction L as [|w L IH]; intros i Hi; cbn [is_in_list_from].
  - by rewrite bool_decide_eq_false_2 by apply not_elem_of_nil.
  - destruct (Z.eqb_spec v w) as [<-|Hne].
    + rewrite bool_decide_eq_true_2 by constructor. exists O. split; [lia|done].
    + specialize (IH (i + 1) ltac:(lia)). rewrite (bool_decide_ext _ (v ∈ L)) by (rewrite elem_of_cons; naive_solver).
      case_bool_decide; [|done]. destruct IH as (j & -> & Hj). exists (S j). split; [lia|done].
Qed.

(** [is_in_list] gives the position of a number, or 0. *)
Lemma is_in_list_zero v L : is_in_list v L = 0 ↔ v ∉ L.
Proof.
  unfold is_in_list. pose proof (is_in_list_from_spec 1 v L ltac:(lia)) as H. case_bool_decide.
  - destruct H as (j & -> & _). split; [lia|done].
  - done.
Qed.

Lemma is_in_list_lookup v L : v ∈ L → ∃ j, is_in_list v L = Z.of_nat j + 1 ∧ L !! j = Some v.
Proof.
  intros Hv. unfold is_in_list. pose proof (is_in_list_from_spec 1 v L ltac:(lia)) as H.
  rewrite bool_decide_eq_true_2 in H by done. destruct H as (j & -> & Hj). exists j. split; [lia|done].
Qed.

(** ** Range tables *)

Section Tables.
Context {B : Build}.

Lemma nth_node_ok l v x : 1 ≤ v → l !! Z.to_nat (v - 1) = Some x → nth_node (NList l) (v - 1) = Ok x.
Proof. intros Hv Hx. cbn. rewrite Hx. by rewrite (proj2 (Z.ltb_ge _ _)) by lia. Qed.

(** The elements with the numbers [L]. *)
Definition pick {A : Type} (l : list A) (L : list Z) : list A := omap (λ v, l !! Z.to_nat (v - 1)) L.

Lemma pick_lookup {A} (l : list A) L j v :
  Forall (λ v, 1 ≤ v ≤ Z.of_nat (length l)) L → L !! j = Some v → pick l L !! j = l !! Z.to_nat (v - 1).
Proof.
  intros HL. revert j. induction HL as [|w L Hw _ IH]; intros [|j] Hj; try done; cbn;
    (destruct (lookup_lt_is_Some_2 l (Z.to_nat (w - 1))) as [x Hx]; [lia|]; rewrite Hx).
  - by injection Hj as <-.
  - by apply IH.
Qed.

Lemma take_entries_ok l L : Forall (λ v, 1 ≤ v ≤ Z.of_nat (length l)) L → take_entries (NList l) L = Ok (pick l L).
Proof.
  induction 1 as [|v L Hv _ IH]; [done|]. destruct (lookup_lt_is_Some_2 l (Z.to_nat (v - 1))) as [x Hx]; [lia|].
  cbn [take_entries]. rewrite (nth_node_ok l v x), IH by (done || lia). cbn. by rewrite Hx.
Qed.

Lemma delete_nth_ok l i : 0 ≤ i < Z.of_nat (length l) →
  delete_nth (of_list l) i = Ok (of_list (delete (Z.to_nat i) l)).
Proof.
  intros Hi. destruct l as [|x l]; [cbn in Hi; lia|]. unfold delete_nth. cbn [of_list].
  destruct (lookup_lt_is_Some_2 (x :: l) (Z.to_nat i)) as [y Hy]; [lia|]. unfold nth_node. rewrite Hy.
  by rewrite (proj2 (Z.ltb_ge _ _)) by lia.
Qed.

(** A list after the numbers [L] are taken out of it, [i] having gone before. *)
Fixpoint remove_at {A : Type} (i : Z) (l : list A) (L : list Z) : list A :=
  match L with
  | [] => l
  | v :: L => remove_at (i + 1) (delete (Z.to_nat (v - 1 - i)) l) L
  end.

(** The rest of a component, after its first number was taken out. *)
Lemma remove_next {A} i v (l : list A) L :
  Forall (λ x, i + 1 ≤ x ≤ i + Z.of_nat (length l)) (v :: L) → Forall (Z.lt v) L →
  let l2 := delete (Z.to_nat (v - 1 - i)) l in Z.of_nat (length l2) = Z.of_nat (length l) - 1 ∧
  Forall (λ x, i + 1 + 1 ≤ x ≤ i + 1 + Z.of_nat (length l2)) L.
Proof.
  intros [Hv Hb]%Forall_cons Hx l2.
  assert (Z.of_nat (length l2) = Z.of_nat (length l) - 1) as Hlen.
  { subst l2. rewrite length_delete; [lia|]. apply lookup_lt_is_Some_2. lia. }
  split; [done|]. rewrite Forall_forall in Hb, Hx |- *. intros x Hin. specialize (Hb x Hin). specialize (Hx x Hin). lia.
Qed.

Lemma remove_at_ok {A} L : ∀ (l : list A) i, StronglySorted Z.lt L → Forall (λ v, i + 1 ≤ v ≤ i + Z.of_nat (length l)) L →
  Z.of_nat (length (remove_at i l L)) = Z.of_nat (length l) - Z.of_nat (length L) ∧
  ∀ v, i + 1 ≤ v → v ∉ L → remove_at i l L !! Z.to_nat (v - 1 - i - below L v) = l !! Z.to_nat (v - 1 - i).
Proof.
  induction L as [|x L IH]; intros l i Hs Hb.
  - split; [cbn; lia|]. intros v _ _. cbn. f_equal. unfold below. cbn. lia.
  - apply StronglySorted_inv in Hs as [Hs Hx]. destruct (remove_next i x l L Hb Hx) as [Hlen2 Hb2].
    apply Forall_cons in Hb as [Hbx _]. set (l2 := delete (Z.to_nat (x - 1 - i)) l) in *.
    destruct (IH l2 (i + 1) Hs Hb2) as [Hlen Hl]. cbn [remove_at]. fold l2. split; [cbn [length]; lia|].
    intros v Hv Hn. apply not_elem_of_cons in Hn as [Hne Hn]. rewrite below_cons.
    destruct (Z.ltb_spec x v) as [Hlt|Hge].
    + replace (v - 1 - i - (1 + below L v)) with (v - 1 - (i + 1) - below L v) by lia. rewrite Hl by (done || lia).
      subst l2. rewrite list_lookup_delete_ge by lia. f_equal. lia.
    + assert (Forall (λ w, v + 2 ≤ w) L) as Hall.
      { eapply Forall_impl; [exact Hx|]. cbn. intros w Hw. lia. }
      rewrite below_none by (eapply Forall_impl; [exact Hall|]; cbn; lia).
      rewrite <- (list_lookup_delete_lt l (Z.to_nat (x - 1 - i))) by lia. fold l2.
      assert (below L (v + 1) = 0) as Hbel by (apply below_none; eapply Forall_impl; [exact Hall|]; cbn; lia).
      replace (v - 1 - i - (0 + 0)) with (v + 1 - 1 - (i + 1) - below L (v + 1)) by lia.
      replace (v - 1 - i) with (v + 1 - 1 - (i + 1)) by lia.
      apply Hl; [lia|]. intros Hin. rewrite Forall_forall in Hall. specialize (Hall _ Hin). lia.
Qed.

(** The loop that deletes the entries. *)
Lemma delete_entries_ok L : ∀ l i, StronglySorted Z.lt L → Forall (λ v, i + 1 ≤ v ≤ i + Z.of_nat (length l)) L →
  delete_entries i (of_list l) L = Ok (of_list (remove_at i l L)).
Proof.
  induction L as [|x L IH]; intros l i Hs Hb; [done|].
  apply StronglySorted_inv in Hs as [Hs Hx]. destruct (remove_next i x l L Hb Hx) as [_ Hb2].
  apply Forall_cons in Hb as [Hbx _]. cbn [delete_entries remove_at]. rewrite delete_nth_ok by lia. by apply IH.
Qed.

(** C39: for a component given in ascending order, the two range tables that
    [rewrite_connexe] builds and the two renumberings that it applies fit together:
    entry [v] of the old table is entry [is_in_list v] of the table of the sub-query
    if [v] is in the component, and entry [deacrease v] of the remaining table
    otherwise. *)
Theorem component_renumbering l L :
  StronglySorted Z.lt L → Forall (λ v, 1 ≤ v ≤ Z.of_nat (length l)) L →
  ∃ moved kept,
    take_entries (NList l) L = Ok moved ∧ delete_entries 0 (of_list l) L = Ok (of_list kept) ∧
    Z.of_nat (length kept) = Z.of_nat (length l) - Z.of_nat (length L) ∧
    ∀ v, 1 ≤ v →
      if is_in_list v L =? 0 then kept !! Z.to_nat (deacrease v L - 1) = l !! Z.to_nat (v - 1)
      else moved !! Z.to_nat (is_in_list v L - 1) = l !! Z.to_nat (v - 1).
Proof.
  intros Hs Hb. pose proof (take_entries_ok l L Hb) as E1.
  destruct (remove_at_ok L l 0 Hs Hb) as [Hlen Hk].
  exists (pick l L), (remove_at 0 l L). split; [done|]. split; [by apply delete_entries_ok|]. split; [done|]. intros v Hv.
  destruct (Z.eqb_spec (is_in_list v L) 0) as [Hz|Hz].
  - apply is_in_list_zero in Hz. rewrite deacrease_below. specialize (Hk v Hv Hz).
    rewrite !Z.sub_0_r in Hk. by replace (v - below L v - 1) with (v - 1 - below L v) by lia.
  - rewrite is_in_list_zero in Hz. destruct (decide (v ∈ L)) as [Hin|]; [|done].
    destruct (is_in_list_lookup v L Hin) as (j & -> & Hj). replace (Z.to_nat (Z.of_nat j + 1 - 1)) with j by lia.
    by apply pick_lookup.
Qed.
End Tables.

Lemma component_renumbering_witness :
  ∃ moved kept,
    take_entries (B := with_asserts) (NList (map rel [10; 20; 30; 40])) [2; 3] = Ok moved ∧
    delete_entries (B := with_asserts) 0 (of_list (map rel [10; 20; 30; 40])) [2; 3] = Ok (of_list kept) ∧
    Z.of_nat (length kept) = 2 ∧
    ∀ v, 1 ≤ v →
      if is_in_list v [2; 3] =? 0 then kept !! Z.to_nat (deacrease v [2; 3] - 1) = map rel [10; 20; 30; 40] !! Z.to_nat (v - 1)
      else moved !! Z.to_nat (is_in_list v [2; 3] - 1) = map rel [10; 20; 30; 40] !! Z.to_nat (v - 1).
Proof. apply (component_renumbering (B := with_asserts) (map rel [10; 20; 30; 40]) [2; 3]); repeat constructor; cbn; lia. Defined.

(** ** Taking out the comparisons of a component *)

#[local] Arguments is_in_list : simpl never.

(** A comparison of terms. *)
Definition is_cmp (n : node) : bool :=
  match n with OpExpr _ (NList args) => match args with [] => false | _ => forallb is_term args end | _ => false end.

(** A variable of this query level and of the component. *)
Definition of_component (L : list Z) (v : var) : bool :=
  (varlevelsup v =? 0) && negb (is_in_list (varno v) L =? 0).

Definition mentions (L : list Z) (n : node) : bool := existsb (of_component L) (term_vars n).

Definition see (b : bool) (c : temp_context_connex_rew) : temp_context_connex_rew :=
  set_to_remove (to_remove c || b) c.

Lemma see_false c : see false c = c.
Proof. destruct c. unfold see, set_to_remove. cbn. by rewrite orb_false_r. Qed.

(** What a variable does to the context. *)
Definition conn_var (v : var) (c : temp_context_connex_rew) : temp_context_connex_rew :=
  if of_component (c_list_varno c) v then set_to_remove true c else c.

#[export] Instance conn_reads : ReadsTerms mutator_conn conn_var.
Proof. by split. Qed.

(** After a term, the flag tells whether it mentions the component. *)
Lemma conn_scan n c : scan conn_var n c = see (mentions (c_list_varno c) n) c.
Proof.
  unfold scan, mentions. revert c. induction (term_vars n) as [|v vs IH]; intros c; cbn; [by rewrite see_false|].
  rewrite IH. unfold conn_var. destruct c as [cs L r]. cbn. unfold see, set_to_remove.
  destruct (of_component L v); cbn; by rewrite ?orb_true_r.
Qed.

Lemma cmp_noted n c : is_cmp n = true → to_remove c = false →
  mutator_conn n c = Ok (if mentions (c_list_varno c) n then (NULL, add_constraint n c) else (n, c)).
Proof.
  destruct n as [| | | |o a| | | | | | | | | | | |]; try done. destruct a as [| | | | | | | | | | | | | | |args|]; try done.
  intros [Hne Ht]%bool_nonempty Hr. cbn [mutator_conn].
  erewrite bind_Ok by (by apply (scan_op _ conn_var)). rewrite conn_scan.
  erewrite bind_Ok by reflexivity. change (mentions (c_list_varno c) (OpExpr o (NList args))) with (mentions (c_list_varno c) (NList args)).
  destruct c as [cs L r]. cbn in Hr. subst r. cbn [c_list_varno]. by destruct (mentions L (NList args)).
Qed.

Lemma cmps_noted l : Forall (λ n, is_cmp n = true) l → ∀ c, to_remove c = false →
  mutate_list mutator_conn l c =
    Ok (map (λ n, if mentions (c_list_varno c) n then NULL else n) l,
        mkRewCtx (list_constraint c ++ List.filter (mentions (c_list_varno c)) l) (c_list_varno c) false).
Proof.
  induction 1 as [|x l Hx _ IH]; intros [cs L r] Hr; cbn in Hr; subst r; [cbn; by rewrite app_nil_r|]. cbn.
  pose proof (cmp_noted x (mkRewCtx cs L false) Hx eq_refl) as Ex. cbn in Ex. destruct (mentions L x).
  - erewrite bind_Ok by exact Ex. erewrite bind_Ok by (by apply IH). cbn. by rewrite <- app_assoc.
  - erewrite bind_Ok by exact Ex. by erewrite bind_Ok by (by apply IH).
Qed.

Lemma conn_eval {I : Interp} (f : node → bool) l e :
  and3 (and3_list (evals (map (λ n, if f n then NULL else n) l) e)) (and3_list (evals (List.filter f l) e)) =
  and3_list (evals l e).
Proof.
  induction l as [|x l IH]; [done|]. cbn [map List.filter].
  change (and3_list (evals (x :: l) e)) with (and3 (eval x e) (and3_list (evals l e))). rewrite <- IH. destruct (f x).
  - change (and3 (and3 TT (and3_list (evals (map (λ n, if f n then NULL else n) l) e)))
                 (and3 (eval x e) (and3_list (evals (List.filter f l) e))) =
            and3 (eval x e) (and3 (and3_list (evals (map (λ n, if f n then NULL else n) l) e))
                                  (and3_list (evals (List.filter f l) e)))).
    by destruct (eval x e), (and3_list (evals (map _ l) e)), (and3_list (evals (List.filter f l) e)).
  - symmetry. apply and3_assoc.
Qed.

Lemma conn_captures L cmps loc : Forall (λ n, is_cmp n = true) cmps → cmps ≠ [] →
  expression_tree_mutator mutator_conn (BoolExpr AND_EXPR (NList cmps) loc) (make_temp_context_connex_rew L) =
    Ok (BoolExpr AND_EXPR (NList (map (λ n, if mentions L n then NULL else n) cmps)) loc,
        mkRewCtx (List.filter (mentions L) cmps) L false).
Proof.
  intros Hc Hne. cbn. rewrite bind_assoc. erewrite bind_Ok by (by apply cmps_noted). unfold bind, ret. by destruct cmps.
Qed.

(** From a conjunction of comparisons, [rewrite_connexe]'s mutator takes out exactly
    the comparisons that mention a relation of the component and leaves the others in
    place; the two parts together have the truth value of the conjunction. *)
Theorem mutator_conn_splits {I : Interp} L cmps loc :
  Forall (λ n, is_cmp n = true) cmps → cmps ≠ [] →
  ∃ quals' c',
    expression_tree_mutator mutator_conn (BoolExpr AND_EXPR (NList cmps) loc) (make_temp_context_connex_rew L)
      = Ok (quals', c') ∧
    list_constraint c' = List.filter (mentions L) cmps ∧
    (∀ e, and3 (eval quals' e) (and3_list (evals (list_constraint c') e)) = eval (BoolExpr AND_EXPR (NList cmps) loc) e).
Proof.
  intros Hc Hne.
  exists (BoolExpr AND_EXPR (NList (map (λ n, if mentions L n then NULL else n) cmps)) loc),
    (mkRewCtx (List.filter (mentions L) cmps) L false).
  split; [by apply conn_captures|]. split; [done|]. intros e. apply (conn_eval (mentions L)).
Qed.

Lemma mutator_conn_splits_witness :
  let cmps := [cmp 96 (col 0 1 1) (col 1 1 1); cmp 96 (col 0 3 1) (col 0 2 1)] in
  ∃ quals' c',
    expression_tree_mutator mutator_conn (all_of cmps) (make_temp_context_connex_rew [2; 3]) = Ok (quals', c') ∧
    list_constraint c' = [cmp 96 (col 0 3 1) (col 0 2 1)] ∧
    (∀ e, and3 (eval (I := sample_interp) quals' e) (and3_list (evals (I := sample_interp) (list_constraint c') e))
          = eval (I := sample_interp) (all_of cmps) e).
Proof.
  apply (mutator_conn_splits (I := sample_interp) [2; 3]); [by repeat constructor|done].
Defined.

(** ** The FROM list *)

Lemma substract_loop_take i l : substract_loop i l = take (Z.to_nat (Z.max 1 i)) l.
Proof.
  revert i. induction l as [|x l IH]; intros i; cbn; [by destruct (Z.to_nat _)|].
  destruct (Z.leb_spec i 1).
  - by replace (Z.to_nat (Z.max 1 i)) with 1%nat by lia.
  - replace (Z.to_nat (Z.max 1 i)) with (S (Z.to_nat (Z.max 1 (i - 1)))) by lia. cbn. by rewrite IH.
Qed.

(** [substract] keeps the first entries of the FROM list, as many as remain after
    the component is taken away but always at least one; so a query whose relations
    are all moved keeps a reference to a range table entry that is gone. *)
Theorem substract_keeps_one l nb :
  substract (NList l) nb = Ok (of_list (take (Z.to_nat (Z.max 1 (Z.of_nat (length l) - nb))) l)).
Proof. cbn. by rewrite substract_loop_take. Qed.
