(* ===== verification/SelfPush.v ===== *)
(** Correctness of pushing single-relation constraints into the range table.

    For conjunctions of comparisons and null tests of local columns, every collected
    constraint is about one relation and no relation gets two; each is moved to the
    sub-select of its relation, where it means what it meant in the query. *)

From S2P Require Import Prelude Nodes Terms Semantics SelfOpt Mutators CoddProps SelfProps Samples.

(** The relation that a variable belongs to. *)
Definition rel_of (v : var) : Z * Z := (varno v, varlevelsup v).

(** A constraint of the relation [r]. *)
Definition entry (r : Z * Z) (n : node) : Prop :=
  is_conj n = true ∧ term_vars n ≠ [] ∧ Forall (λ v, rel_of v = r) (term_vars n).

(** ** Adding a constraint to the collected ones *)

Lemma of_target_true c v : of_target c v = true ↔ rel_of v = (t_varno_to_add c, t_varlevelsup_to_add c).
Proof.
  unfold of_target, rel_of. rewrite andb_true_iff, !Z.eqb_eq.
  split; [by intros [-> ->]|by intros [= -> ->]].
Qed.

Lemma hits_list c l : hits c (NList l) = existsb (hits c) l.
Proof. unfold hits. cbn. induction l as [|x l IH]; [done|]. cbn. by rewrite existsb_app, IH. Qed.

Lemma hits_cons c x l : hits c (NList (x :: l)) = hits c x || hits c (NList l).
Proof. by rewrite !hits_list. Qed.

Lemma list_subseteq_app {A} (l1 l2 k1 k2 : list A) : l1 ⊆ k1 → l2 ⊆ k2 → l1 ++ l2 ⊆ k1 ++ k2.
Proof. intros H1 H2 x. rewrite !elem_of_app. intros [?|?]; [left; by apply H1|right; by apply H2]. Qed.

(** Where no variable belongs to the relation, nothing changes. *)
Definition passes (n : node) : Prop := ∀ c, t_to_add c = false → hits c n = false → temp_modifier_add n c = Ok (n, c).

Lemma passes_list l : Forall passes l → ∀ c, t_to_add c = false → hits c (NList l) = false →
  mutate_list temp_modifier_add l c = Ok (l, c).
Proof.
  induction 1 as [|x l Hx _ IH]; intros c Hc Hh; [done|]. rewrite hits_list in Hh. cbn in Hh.
  apply orb_false_iff in Hh as [Hhx Hhl]. rewrite <- hits_list in Hhl.
  cbn. erewrite bind_Ok by (by apply Hx). by erewrite bind_Ok by (by apply IH).
Qed.

Lemma atom_passes n : is_atom n = true → passes n.
Proof. intros Hn c Hc Hh. rewrite atom_left, Hc, Hh by done. cbn. destruct c; cbn in *. by subst. Qed.

Lemma conj_passes n : (is_conj n = true → passes n) ∧ ∀ l, n = NList l → forallb is_conj l = true → Forall passes l.
Proof.
  induction n using node_ind'; destruct_and?; (split; [|intros l' [=]; subst; try done]);
    try (by intros ?; apply atom_passes).
  - destruct b, n; try done. intros [Hne Hc]%bool_nonempty c Hf Hh. cbn [temp_modifier_add].
    erewrite bind_Ok.
    2: { cbn. rewrite bind_assoc. erewrite bind_Ok by (apply passes_list; eauto). unfold bind, ret. by rewrite of_list_ne. }
    erewrite bind_Ok by reflexivity. by rewrite Hf.
  - intros [Hne Hc]%bool_nonempty c Hf Hh. cbn. erewrite bind_Ok.
    2: { apply passes_list; [|done..]. apply forallb_Forall in Hc. rewrite Forall_forall in H, Hc |- *. intros x Hx. apply H; auto. }
    unfold ret. by rewrite of_list_ne.
  - intros Hc. apply forallb_Forall in Hc. rewrite Forall_forall in H, Hc |- *. intros x Hx. apply H; auto.
Qed.

(** The flags say that the relation was met. *)
Definition met (c : temp_context) : bool := t_to_add c || t_already_add c.

(** Adding keeps the variables, brings in only those of the constraint, and notices
    the relation. *)
Definition tracks_to (n n' : node) (c c' : temp_context) : Prop :=
  same_target c c' ∧ term_vars n ⊆ term_vars n' ∧
  term_vars n' ⊆ term_vars n ++ term_vars (t_constraint_to_add c) ∧ (met c || hits c n = true → met c' = true).

Definition tracks (n : node) : Prop := ∀ c n' c', temp_modifier_add n c = Ok (n', c') → tracks_to n n' c c'.

Lemma hits_same c c' n : same_target c c' → hits c' n = hits c n.
Proof. intros (H1 & H2 & _). unfold hits, of_target. by rewrite H1, H2. Qed.

Lemma tracks_list l : Forall tracks l → ∀ c l' c',
  mutate_list temp_modifier_add l c = Ok (l', c') → tracks_to (NList l) (NList l') c c'.
Proof.
  induction 1 as [|x l Hx _ IH]; intros c l' c' E.
  - injection E as <- <-. split_and!; [done|by intros ?|intros v; rewrite elem_of_app; auto|]. by rewrite orb_false_r.
  - cbn in E. mstep E. mstep E. injection E as <- <-. apply Hx in E0 as (Hs1 & Hi1 & Ho1 & Hm1).
    apply IH in E1 as (Hs2 & Hi2 & Ho2 & Hm2). pose proof Hs1 as (H1 & H2 & H3). destruct Hs2 as (H4 & H5 & H6).
    rewrite H3 in Ho2. split; [split_and!; congruence|]. rewrite (hits_same c s (NList l)) in Hm2 by done.
    rewrite (hits_cons c x l), !term_vars_cons. split; [|split].
    + by apply list_subseteq_app.
    + etrans; [by apply list_subseteq_app|]. intros v. rewrite !elem_of_app. tauto.
    + intros Hor. apply Hm2. destruct (hits c (NList l)); [by rewrite orb_true_r|].
      rewrite orb_false_r in Hor |- *. by apply Hm1.
Qed.

Lemma atom_tracks n : is_atom n = true → tracks n.
Proof.
  intros Hn c n' c'. rewrite atom_left by done. intros [= <- <-]. split_and!; [done|by intros ?|intros v; rewrite elem_of_app; auto|].
  unfold met. cbn. destruct (t_to_add c), (t_already_add c), (hits c n); done.
Qed.

Lemma and_tracks l loc : l ≠ [] → Forall tracks l → tracks (BoolExpr AND_EXPR (NList l) loc).
Proof.
  intros Hne Hl c n' c' E. cbn [temp_modifier_add] in E. apply bind_inv in E as (tmp & c1 & E1 & E).
  apply bind_inv in E as (? & ? & [= <- <-] & E). cbn in E1. rewrite bind_assoc in E1.
  apply bind_inv in E1 as (l' & c2 & El & E1). unfold bind, ret in E1. injection E1 as <- <-.
  pose proof (tracks_list l Hl _ _ _ El) as (Hs & Hi & Ho & Hm).
  assert (l' ≠ []) as Hne' by (intros ->; destruct l; [done|]; cbn in El; by repeat mstep El).
  rewrite of_list_ne in E by done. destruct (t_to_add c2) eqn:Ea.
  - injection E as <- <-. destruct Hs as (H1 & H2 & H3). split; [done|]. cbn [term_vars] in *. rewrite map_app, concat_app. cbn [map concat].
    rewrite app_nil_r, H3. split; [|split; [|done]].
    + intros v Hv. apply elem_of_app. left. by apply Hi.
    + intros v. rewrite !elem_of_app. intros [Hv|Hv]; [|by right]. apply Ho, elem_of_app in Hv. done.
  - injection E as <- <-. done.
Qed.

Lemma conj_tracks n : (is_conj n = true → tracks n) ∧ ∀ l, n = NList l → forallb is_conj l = true → Forall tracks l.
Proof.
  induction n using node_ind'; destruct_and?; (split; [|intros l' [=]; subst; try done]);
    try (by intros ?; apply atom_tracks).
  - destruct b, n; try done. intros [Hne Hc]%bool_nonempty. apply and_tracks; eauto.
  - intros [Hne Hc]%bool_nonempty c n' c' E. cbn in E. mstep E. injection E as <- <-.
    assert (a ≠ []) as Ha by (intros ->; destruct l; [done|]; cbn in E0; by repeat mstep E0).
    rewrite of_list_ne by done. apply (tracks_list l); [|done].
    apply forallb_Forall in Hc. rewrite Forall_forall in H, Hc |- *. intros x Hx. apply H; auto.
  - intros Hc. apply forallb_Forall in Hc. rewrite Forall_forall in H, Hc |- *. intros x Hx. apply H; auto.
Qed.

(** ** The collected constraints, one per relation *)

Lemma entry_hits r n c : entry r n → hits c n = bool_decide (r = (t_varno_to_add c, t_varlevelsup_to_add c)).
Proof.
  intros (_ & Hne & Hall). unfold hits. destruct (term_vars n) as [|v vs]; [done|].
  rewrite Forall_forall in Hall. case_bool_decide as Hr.
  - apply existsb_exists. exists v. split; [by left|]. rewrite of_target_true, <- Hr. apply Hall. constructor.
  - apply not_true_iff_false. intros (w & Hw & Ht)%existsb_exists. apply list_elem_of_In in Hw.
    rewrite of_target_true, (Hall w Hw) in Ht. done.
Qed.

Lemma entry_grows r n n' c c' : entry r n → entry r (t_constraint_to_add c) → is_conj n' = true →
  tracks_to n n' c c' → entry r n'.
Proof.
  intros (_ & Hne & Hall) (_ & _ & Hd) Hn' (_ & Hi & Ho & _). split; [done|]. split.
  - destruct (term_vars n) as [|v vs]; [done|]. intros E. rewrite E in Hi. destruct (not_elem_of_nil v). apply Hi. constructor.
  - rewrite Forall_forall in Hall, Hd |- *. intros v Hv. apply Ho, elem_of_app in Hv as [?|?]; auto.
Qed.

Lemma entry_and r n d loc : entry r n → entry r d → entry r (BoolExpr AND_EXPR (NList [n; d]) loc).
Proof.
  intros (Hn & Hne & Hall) (Hd & _ & Halld). split; [cbn; by rewrite Hn, Hd|]. cbn. rewrite app_nil_r.
  split; [by destruct (term_vars n)|]. by apply Forall_app.
Qed.

Lemma add_loop_done l c : t_already_add c = true → add_loop l c = Ok (l, c).
Proof.
  intros Hc. induction l as [|x l IH]; [done|]. cbn [add_loop]. erewrite bind_Ok by reflexivity. rewrite Hc.
  by erewrite bind_Ok by exact IH.
Qed.

Section Collect.
Context {I : Interp}.

(** One step of the loop, on the constraint of the relation looked for. *)
Lemma add_loop_here r x l c : entry r x → entry r (t_constraint_to_add c) → is_atom (t_constraint_to_add c) = true →
  r = (t_varno_to_add c, t_varlevelsup_to_add c) → t_already_add c = false →
  ∃ x' c', add_loop (x :: l) c = Ok (x' :: l, c') ∧ entry r x' ∧ t_already_add c' = true.
Proof.
  intros Hx Hd Hat Hr Hal. destruct (proj1 (conj_add x) (proj1 Hx) c Hat) as (x' & c1 & E & (_ & _ & H3) & Hcx & _).
  pose proof (proj1 (conj_tracks x) (proj1 Hx) _ _ _ E) as Ht.
  pose proof (entry_grows r x x' c c1 Hx Hd Hcx Ht) as Hx'. destruct Ht as (_ & _ & _ & Hm).
  rewrite (entry_hits r x c Hx), bool_decide_eq_true_2, orb_true_r in Hm by done. specialize (Hm eq_refl).
  cbn [add_loop]. erewrite bind_Ok by reflexivity. rewrite Hal. erewrite bind_Ok by exact E. erewrite bind_Ok by reflexivity.
  destruct (t_to_add c1 && negb (t_already_add c1)) eqn:Et.
  - eexists _, (t_set_already true (t_set_to_add false c1)). split; [|split; [|done]].
    + do 2 erewrite bind_Ok by reflexivity. by erewrite bind_Ok by by apply add_loop_done.
    + apply entry_and; [done|]. by rewrite H3.
  - assert (t_already_add c1 = true) as Ha by (unfold met in Hm; by destruct (t_to_add c1), (t_already_add c1)).
    exists x', c1. split; [by erewrite bind_Ok by by apply add_loop_done|]. done.
Qed.

Lemma add_loop_entries rels l c : Forall2 entry rels l →
  let r := (t_varno_to_add c, t_varlevelsup_to_add c) in
  entry r (t_constraint_to_add c) → is_atom (t_constraint_to_add c) = true →
  t_to_add c = false → t_already_add c = false →
  ∃ l' c', add_loop l c = Ok (l', c') ∧ t_already_add c' = bool_decide (r ∈ rels) ∧ Forall2 entry rels l' ∧
    t_constraint_to_add c' = t_constraint_to_add c.
Proof.
  intros Hl r Hd Hat Hto Hal. induction Hl as [|r0 x rels l Hx Hl IH].
  - exists [], c. rewrite bool_decide_eq_false_2 by apply not_elem_of_nil. done.
  - destruct (decide (r0 = r)) as [->|Hne].
    + destruct (add_loop_here r x l c Hx Hd Hat eq_refl Hal) as (x' & c' & E & Hx' & Ha).
      exists (x' :: l), c'. split; [done|]. rewrite Ha, bool_decide_eq_true_2 by constructor.
      split; [done|]. split; [by constructor|].
      destruct (add_loop_ok (x :: l)) with (c := c) as (? & ? & E' & H' & _); [|done|congruence].
      constructor; [apply Hx|]. clear -Hl. induction Hl as [|???? [? _]]; by constructor.
    + destruct IH as (l' & c' & E & Ha & Hl' & Hc). exists (x :: l'), c'.
      assert (temp_modifier_add x c = Ok (x, c)) as Ex.
      { apply (proj1 (conj_passes x) (proj1 Hx)); [done|]. rewrite (entry_hits r0) by done. by apply bool_decide_eq_false_2. }
      split; [|split; [|split; [by constructor|done]]].
      * cbn [add_loop]. erewrite bind_Ok by reflexivity. rewrite Hal. erewrite bind_Ok by exact Ex.
        erewrite bind_Ok by reflexivity. rewrite Hto. cbn [andb]. by erewrite bind_Ok by exact E.
      * rewrite Ha. apply bool_decide_ext. rewrite elem_of_cons. naive_solver.
Qed.

(** [add_constrain] keeps one constraint per relation. *)
Lemma add_constrain_entries rels l n k lv : Forall2 entry rels l → NoDup rels → entry (k, lv) n → is_atom n = true →
  ∃ rels' l', add_constrain (of_list l) (make_temp_context n k lv) = Ok (of_list l') ∧
    Forall2 entry rels' l' ∧ NoDup rels' ∧ ∀ r, r ∈ rels' → r ∈ rels ∨ r = (k, lv).
Proof.
  intros Hl Hnd Hn Hat. destruct l as [|x l].
  - apply Forall2_nil_inv_r in Hl as ->. exists [(k, lv)], [n]. split; [done|]. split; [constructor; [done|constructor]|].
    split; [apply NoDup_singleton|]. set_solver.
  - destruct (add_loop_entries rels (x :: l) (make_temp_context n k lv) Hl Hn Hat eq_refl eq_refl) as (l' & c' & E & Ha & Hl' & Hc).
    unfold add_constrain. cbn [of_list]. rewrite E, Ha, Hc. cbn in *. clear Ha. case_bool_decide as Hin.
    + exists rels, l'. split; [done|]. split; [done|]. split; [done|]. auto.
    + exists (rels ++ [(k, lv)]), (l' ++ [n]). split; [done|]. split; [|split].
      * apply Forall2_app; [done|]. constructor; [done|constructor].
      * apply NoDup_app. split; [done|]. split; [|apply NoDup_singleton].
        intros r Hr ->%list_elem_of_singleton. done.
      * intros r. rewrite elem_of_app, list_elem_of_singleton. done.
Qed.

(** ** Which atoms are collected *)

(** Comparisons with at most two variables and null tests of one, of local columns. *)
Definition local_atom (nrels : Z) (n : node) : bool :=
  is_atom n && forallb (λ v, (1 <=? varno v) && (varno v <=? nrels) && (varlevelsup v =? 0)) (term_vars n) &&
  (length (term_vars n) <=? match n with NullTest _ _ _ => 1 | _ => 2 end)%nat.

(** Between two atoms. *)
Definition idle (c : context_optimizer_self) : Prop :=
  disjunction c = false ∧ equality c = false ∧ add c = false ∧ varno_to_add_eq c = -1.

(** The flag and the relation after the variables of an atom. *)
Lemma scan_atom (eq : bool) c nrels n : idle c → local_atom nrels n = true →
  (if eq then True else (length (term_vars n) ≤ 1)%nat) →
  let c' := scan modifier_var n (s_set_equality eq c) in
  add c' = true → ∃ k, varno_to_add c' = k ∧ varlevelsup_to_add c' = 0 ∧ entry (k, 0) n ∧ 1 ≤ k ≤ nrels.
Proof.
  intros (Hd & He & Ha & Heq) [[Hat Hv]%andb_true_iff Hlen%Nat.leb_le]%andb_true_iff Hone. unfold scan, entry.
  rewrite (atom_conj _ Hat). assert (length (term_vars n) ≤ 2)%nat as Hle by (destruct n; lia). clear Hlen Hat.
  destruct c as [d q a rel v1 l1 vo lo ve le]. cbn in Hd, He, Ha, Heq. subst.
  destruct (term_vars n) as [|v [|w [|]]]; [done|..|cbn in Hle; lia].
  - cbn in Hv. rewrite !andb_true_iff, !Z.leb_le, Z.eqb_eq in Hv. destruct Hv as [[[Hv1 Hv2] Hv3] _].
    intros _. exists (varno v). unfold rel_of. cbn. destruct eq; cbn; rewrite Hv3; (split; [done|split; [done|split; [|done]]]);
      (split; [done|split; [done|repeat constructor; cbn; by rewrite Hv3]]).
  - cbn in Hv. rewrite !andb_true_iff, !Z.leb_le, !Z.eqb_eq in Hv. destruct Hv as [[[Hv1 Hv2] Hv3] [[[Hw1 Hw2] Hw3] _]].
    destruct eq; [|cbn in Hone; lia]. cbn. unfold modifier_var. cbn. rewrite Hv3, Hw3. cbn.
    rewrite (proj2 (Z.eqb_neq (varno v) (-1))) by lia. cbn. rewrite orb_false_r.
    destruct (Z.eqb_spec (varno v) (varno w)) as [Hvw|Hvw]; cbn; [|done]. intros _. exists (varno w).
    split; [done|]. split; [done|]. split; [|done]. split; [done|]. split; [done|]. unfold rel_of.
    repeat constructor; congruence.
Qed.

Lemma modifier_var_eq v c : equality (modifier_var v c) = equality c ∧
  (equality c = false → varno_to_add_eq (modifier_var v c) = varno_to_add_eq c).
Proof.
  unfold modifier_var. destruct (_ && _ && _); [done|]. destruct (_ && _ && _); [done|].
  destruct c as [[] [] ? ? ? ? ? ? ? ?]; done.
Qed.

Lemma scan_eq n c : equality (scan modifier_var n c) = equality c ∧
  (equality c = false → varno_to_add_eq (scan modifier_var n c) = varno_to_add_eq c).
Proof.
  unfold scan. revert c. induction (term_vars n) as [|v vs IH]; intros c; [done|]. cbn.
  destruct (modifier_var_eq v c) as [H1 H2]. destruct (IH (modifier_var v c)) as [H3 H4].
  split; [congruence|]. intros Hc. rewrite H4, H2; congruence.
Qed.

(** One constraint per relation, of relations in range. *)
Definition collected (nrels : Z) (rel : node) : Prop :=
  ∃ rels l, rel = of_list l ∧ Forall2 entry rels l ∧ NoDup rels ∧ Forall (λ r, r.2 = 0 ∧ 1 ≤ r.1 ≤ nrels) rels.

Lemma register_collects nrels n k c n' c' :
  is_atom n = true → entry (k, 0) n → 1 ≤ k ≤ nrels → varno_to_add c = k → varlevelsup_to_add c = 0 →
  collected nrels (already_constrain_rel c) → (register n;;; ret NULL) c = Ok (n', c') →
  collected nrels (already_constrain_rel c') ∧ c' = s_set_rel (already_constrain_rel c') (s_set_add false c).
Proof.
  intros Hat Hn Hk Hv Hl (rels & l & Hrel & Hf & Hnd & Hr) E.
  destruct (add_constrain_entries rels l n k 0 Hf Hnd Hn Hat) as (rels' & l' & Ea & Hf' & Hnd' & Hin).
  assert ((register n;;; ret NULL) c = Ok (NULL, s_set_rel (of_list l') (s_set_add false c))) as E'.
  { unfold register, bind, modify, get, of_res, ret. cbn. by rewrite Hrel, Hv, Hl, Ea. }
  rewrite E' in E. injection E as _ <-. cbn. split; [|done]. exists rels', l'. split_and!; [done..|].
  rewrite Forall_forall in Hr |- *. intros r [?| ->]%Hin; [auto|done].
Qed.

Lemma atom_collects nrels n c n' c' :
  local_atom nrels n = true → idle c → collected nrels (already_constrain_rel c) →
  my_modifier_self n c = Ok (n', c') → idle c' ∧ collected nrels (already_constrain_rel c').
Proof.
  intros Hn Hi Hc E. pose proof Hi as (Hd & He & Ha & Heq).
  pose proof Hn as [[Hat _]%andb_true_iff Hlen%Nat.leb_le]%andb_true_iff.
  destruct n as [| | | |o a| |t a loc| | | | | | | | | |]; try done.
  - destruct a as [| | | | | | | | | | | | | | |args|]; try done. cbn in Hat. apply bool_nonempty in Hat as [Hne Ht].
    pose proof (scan_atom true c nrels _ Hi Hn Logic.I) as Hs. cbv zeta in Hs.
    destruct (scan_flags (OpExpr o (NList args)) (s_set_equality true c)) as [Hr Hf].
    cbn [my_modifier_self] in E. erewrite bind_Ok in E by reflexivity.
    erewrite bind_Ok in E by (by apply (scan_op _ modifier_var)). set (c1 := scan _ _ _) in *. clearbody c1.
    do 3 erewrite bind_Ok in E by reflexivity. cbn [add disjunction s_set_eq s_set_equality] in E.
    rewrite Hf in E. cbn [disjunction s_set_equality] in E. rewrite Hd in E. cbn [negb] in E. rewrite andb_true_r in E.
    destruct (add c1) eqn:Hadd.
    + destruct (Hs eq_refl) as (k & Hk & Hl & Hen & Hb).
      eapply register_collects in E as [Hc' ->]; [|by destruct args|done|done|done|done|].
      * split; [|done]. unfold idle. cbn in *. rewrite Hf. auto.
      * cbn. by rewrite Hr.
    + injection E as <- <-. split; [|cbn; by rewrite Hr]. unfold idle. cbn in *. rewrite Hf. auto.
  - pose proof (scan_atom false c nrels _ Hi Hn Hlen) as Hs. cbv zeta in Hs.
    assert (s_set_equality false c = c) as Hc0 by (destruct c; cbn in *; by subst). rewrite Hc0 in Hs.
    destruct (scan_flags (NullTest t a loc) c) as [Hr Hf]. destruct (scan_eq (NullTest t a loc) c) as [He1 He2].
    cbn [my_modifier_self] in E. erewrite bind_Ok in E by (by apply (scan_null_test _ modifier_var)).
    set (c1 := scan _ _ _) in *. clearbody c1. erewrite bind_Ok in E by reflexivity. rewrite Hf, Hd in E. cbn [negb] in E.
    rewrite andb_true_r in E. destruct (add c1) eqn:Hadd.
    + destruct (Hs eq_refl) as (k & Hk & Hl & Hen & Hb).
      eapply register_collects in E as [Hc' ->]; [|done..|by rewrite Hr].
      split; [|done]. unfold idle. cbn. rewrite Hf, He1, He2; auto.
    + injection E as <- <-. split; [|by rewrite Hr]. unfold idle. rewrite Hf, He1, He2; auto.
Qed.

Lemma atoms_collect nrels l : Forall (λ n, local_atom nrels n = true) l → ∀ c l' c', idle c →
  collected nrels (already_constrain_rel c) → mutate_list my_modifier_self l c = Ok (l', c') →
  collected nrels (already_constrain_rel c').
Proof.
  induction 1 as [|x l Hx _ IH]; intros c l' c' Hi Hc E; [by injection E as <- <-|].
  cbn in E. apply bind_inv in E as (x' & c1 & Ex & E). apply bind_inv in E as (l1 & c2 & El & E).
  injection E as <- <-. destruct (atom_collects _ _ _ _ _ Hx Hi Hc Ex) as [Hi1 Hc1]. eauto.
Qed.
End Collect.
