(* ===== verification/SelfQuery.v ===== *)
(** The self-constraint optimisation of a whole query.

    The constraints that [SelfPush] shows to be about one relation each are moved by
    [rewrite_self] into sub-selects; the theorem says that the remaining condition and
    the conditions of the sub-selects together are the condition of the query. *)

From S2P Require Import Prelude Nodes Terms Semantics SelfOpt Mutators CoddProps SelfProps Rename SelfPush Samples.

Section Query.
Context {I : Interp}.

(** ** Constraints in the sub-select *)

#[local] Instance modif_rel_renames : RenamesTerms modif_rel (λ _ : (), with_varno 1).
Proof. by split. Qed.

(** A constraint of relation [k], evaluated in the sub-select on the row of [k]. *)
Lemma modif_rel_entry k n : 1 ≤ k → entry (k, 0) n →
  ∃ n', modif_rel n () = Ok (n', ()) ∧ ∀ rows r e e', rows !! Z.to_nat (k - 1) = Some r →
    eval n' (push [r] e') = eval n (push rows e).
Proof.
  intros Hk (Hc & _ & Hv). destruct (proj1 (renamed_conj modif_rel (λ _ : (), with_varno 1) () n) Hc) as (n' & E & Hn). exists n'. split; [done|].
  intros rows r e e' Hr. apply Hn. eapply Forall_impl; [exact Hv|]. intros v Hrel. injection Hrel as Hno Hlv.
  unfold carries, look, push, with_varno. cbn [varlevelsup varno varattno]. rewrite Hlv, Hno, Z.eqb_refl.
  symmetry. exact (f_equal (λ o : option row, match o with Some r => r (varattno v) | None => None end) Hr).
Qed.

(** ** The relation of a constraint *)

Definition first_var (n : node) (c : temp_context_rewrite) : bool * temp_context_rewrite :=
  match term_vars n with
  | [] => (false, c)
  | v :: _ => (true, mkRewriteCtx (varno v) (varlevelsup v) (r_to_add c))
  end.

Definition finds (n : node) : Prop := ∀ c, init_rel n c = Ok (first_var n c).

Lemma finds_list l : Forall finds l → ∀ c, walk_list init_rel l c = Ok (first_var (NList l) c).
Proof.
  induction 1 as [|x l Hx _ IH]; intros c; [done|]. cbn [walk_list]. unfold bind. rewrite (Hx c).
  unfold first_var. rewrite term_vars_cons. destruct (term_vars x); [apply IH|done].
Qed.

(** Terms and constraints. *)
Definition plain (n : node) : bool := is_term n || is_conj n.

Lemma plain_terms l : forallb is_term l = true → forallb plain l = true.
Proof. rewrite !forallb_Forall. intros H. eapply Forall_impl; [exact H|]. intros x Hx. unfold plain. by rewrite Hx. Qed.

Lemma plain_conjs l : forallb is_conj l = true → forallb plain l = true.
Proof. rewrite !forallb_Forall. intros H. eapply Forall_impl; [exact H|]. intros x Hx. unfold plain. rewrite Hx. apply orb_true_r. Qed.

Lemma plain_finds n : (plain n = true → finds n) ∧ ∀ l, n = NList l → forallb plain l = true → Forall finds l.
Proof.
  induction n using node_ind'; destruct_and?; (split; [|intros l' [=]; subst; try done]); try done.
  - destruct n; try done. unfold plain. cbn. rewrite orb_false_r. intros [_ Ht]%bool_nonempty c. cbn.
    apply finds_list. eauto using plain_terms.
  - destruct n; try done. intros [_ Ht]%bool_nonempty c. cbn. apply finds_list. eauto using plain_terms.
  - intros Hp. destruct b; [|done..]. destruct n; try done.
    apply bool_nonempty in Hp as [_ Hc]. intros c. cbn. apply finds_list. eauto using plain_conjs.
  - unfold plain. cbn. intros Ht c. apply H. unfold plain. by rewrite Ht.
  - unfold plain. cbn. rewrite orb_false_r. intros Ht c. apply H. unfold plain. by rewrite Ht.
  - unfold plain. cbn. intros [_ Hc]%bool_nonempty c. cbn. apply finds_list.
    apply plain_conjs, forallb_Forall in Hc. rewrite Forall_forall in H, Hc |- *. intros x Hx. apply H; auto.
  - intros Hc. apply forallb_Forall in Hc. rewrite Forall_forall in H, Hc |- *. intros x Hx. apply H; auto.
Qed.

Lemma init_rel_entry k lv n c : entry (k, lv) n → init_rel n c = Ok (true, mkRewriteCtx k lv (r_to_add c)).
Proof.
  intros (Hc & Hne & Hv). rewrite (proj1 (plain_finds n)) by (unfold plain; rewrite Hc; apply orb_true_r).
  unfold first_var. destruct (term_vars n) as [|v vs]; [done|]. apply Forall_cons in Hv as [Hv _].
  by injection Hv as -> ->.
Qed.

(** ** The target list of the sub-select *)

Definition simple_target (n : node) : bool :=
  match n with TargetEntry _ (Var _) | TargetEntry _ (Const _) => true | _ => false end.

(** The columns of relation [k], numbered from [i]. *)
Fixpoint target_of (k i : Z) (l : list node) : list node :=
  match l with
  | [] => []
  | TargetEntry te (Var v) :: l =>
      if varno v =? k then TargetEntry (mkTe i (resname te) (resjunk te)) (Var (with_varno 1 v)) :: target_of k (i + 1) l
      else target_of k i l
  | _ :: l => target_of k i l
  end.

Lemma keep_entries_cons {S : Type} (mutate : node → M S node) flag clear i t l s :
  keep_entries mutate flag clear i (t :: l) s =
  (n <- mutate t;; c <- get;;
   if flag c : bool then
     n <- of_res (set_resno n i);; modify clear;;; r <- keep_entries mutate flag clear (i + 1) l;; ret (n :: r)
   else keep_entries mutate flag clear i l) s.
Proof. done. Qed.

Lemma keep_entries_ok l : forallb simple_target l = true → ∀ i c, r_to_add c = false →
  keep_entries modif_targetEntry r_to_add (r_set_to_add false) i l c = Ok (target_of (r_varno_to_add c) i l, c).
Proof.
  induction l as [|x l IH]; intros Hs i [k lv b] Hc; cbn in Hc; subst b; [done|].
  cbn in Hs. apply andb_true_iff in Hs as [Hx Hl].
  destruct x as [| | | | | | | | |te x| | | | | | |]; try done. destruct x as [|v|cst| | | | | | | | | | | | | |]; try done.
  - rewrite keep_entries_cons. cbn [target_of r_varno_to_add]. destruct (varno v =? k) eqn:Ek.
    + erewrite bind_Ok by (cbn; unfold bind; cbn; by rewrite Ek).
      erewrite bind_Ok by reflexivity. cbn [r_to_add r_set_to_add]. do 2 erewrite bind_Ok by reflexivity.
      by erewrite bind_Ok by by apply IH.
    + erewrite bind_Ok by (cbn; unfold bind; cbn; by rewrite Ek). erewrite bind_Ok by reflexivity. by apply IH.
  - rewrite keep_entries_cons. do 2 erewrite bind_Ok by reflexivity. by apply IH.
Qed.

Lemma modif_targetEntry_ok tl c : forallb simple_target tl = true → r_to_add c = false →
  run (modif_targetEntry (NList tl)) c = Ok (of_list (target_of (r_varno_to_add c) 1 tl)).
Proof. intros Ht Hc. unfold run. cbn. erewrite bind_Ok by (by apply keep_entries_ok). done. Qed.

(** ** The range table *)

(** A plain relation with its column names. *)
Definition base (n : node) : bool :=
  match n with
  | RangeTblEntry r NULL =>
      match rtekind r, rte_eref r with RTE_RELATION, Some _ => true | _, _ => false end
  | _ => false
  end.

(** The new entry for relation [k] is the old one, or a sub-select over it with the columns
    that the target list [tl] has of [k]. *)
Definition derived (tl : list node) (k : Z) (old new : node) : Prop :=
  new = old ∨ ∃ r quals, rtekind r = RTE_SUBQUERY ∧
    new = RangeTblEntry r (Query new_queryinfo (NList [old]) (FromExpr (NList [RangeTblRef 1]) quals)
                             (of_list (target_of k 1 tl))).

Definition derived_table (tl l l' : list node) : Prop :=
  length l' = length l ∧ ∀ j x y, l !! j = Some x → l' !! j = Some y → derived tl (Z.of_nat j + 1) x y.

(** The condition of an entry on a row: that of the sub-select, if it is one. *)
Definition pushed (e : env) (n : node) (r : row) : tri :=
  match n with
  | RangeTblEntry _ (Query _ _ (FromExpr _ quals) _) => eval quals (push [r] e)
  | _ => TT
  end.

Definition pushed_all (e : env) (l : list node) (rows : list row) : tri := and3_list (zip_with (pushed e) l rows).

Lemma and3_list_insert ts i v : ts !! i = Some TT → and3_list (<[i := v]> ts) = and3 (and3_list ts) v.
Proof.
  revert i. induction ts as [|t ts IH]; intros [|i] Hi; try done.
  - injection Hi as ->. cbn. by destruct v, (foldr and3 TT ts).
  - change (and3 t (and3_list (<[i := v]> ts)) = and3 (and3 t (and3_list ts)) v). rewrite (IH i Hi). apply and3_assoc.
Qed.

Lemma pushed_base e n r : base n = true → pushed e n r = TT.
Proof. destruct n as [| | | | | | | | | | | | |? s| | |]; try done. by destruct s. Qed.

Context {B : Build}.

Lemma rewrite_constraint_ok i t k l old tl : 1 ≤ k → entry (k, 0) t → forallb simple_target tl = true →
  l !! Z.to_nat (k - 1) = Some old → base old = true →
  ∃ new, rewrite_constraint i t (NList l) (NList tl) = Ok (NList (<[Z.to_nat (k - 1) := new]> l)) ∧ derived tl k old new ∧
    ∀ rows r e e', rows !! Z.to_nat (k - 1) = Some r → pushed e' new r = eval t (push rows e).
Proof.
  intros Hk Ht Htl Hold Hb. destruct (modif_rel_entry k t Hk Ht) as (t' & Em & He).
  destruct old as [| | | | | | | | | | | | |rt s| | |]; try done. destruct s; try done.
  cbn in Hb. destruct (rtekind rt) eqn:Ekind; try done. destruct (rte_eref rt) as [eref|] eqn:Eref; [|done].
  unfold rewrite_constraint. rewrite (init_rel_entry k 0 t) by done.
  rewrite (modif_targetEntry_ok tl _ Htl) by done. unfold run at 1. rewrite Em. cbn [r_varno_to_add].
  unfold nth_node. rewrite (proj2 (Z.ltb_ge (k - 1) 0)) by lia. cbn [andb]. rewrite Hold.
  unfold to_subquery. rewrite Eref. eexists. split; [reflexivity|]. split.
  - right. eexists _, _. split; [|reflexivity]. done.
  - intros rows r e e' Hr. cbn [pushed create_from_query makeFromExpr]. by apply He.
Qed.

(** The loop of [rewrite_self]. *)
Lemma rewrite_loop_ok tl : forallb simple_target tl = true → ∀ rels cs l i,
  Forall2 entry rels cs → NoDup rels →
  Forall (λ r, r.2 = 0 ∧ 1 ≤ r.1 ∧ ∃ old, l !! Z.to_nat (r.1 - 1) = Some old ∧ base old = true) rels →
  ∃ l' i', rewrite_loop cs (NList l) (NList tl) i = Ok (NList l', i') ∧
    (∀ j x, l !! j = Some x → ∃ y, l' !! j = Some y ∧ derived tl (Z.of_nat j + 1) x y ∧
       ((∀ r, r ∈ rels → j ≠ Z.to_nat (r.1 - 1)) → y = x)) ∧
    length l' = length l ∧
    ∀ rows e e', length rows = length l →
      pushed_all e' l' rows = and3 (pushed_all e' l rows) (and3_list (evals cs (push rows e))).
Proof.
  intros Htl rels cs l i Hf. revert l i. induction Hf as [|[k lv] x rels cs Hx Hf IH]; intros l i Hnd Hr.
  - exists l, i. split; [done|]. split; [intros j x Hx; exists x; split_and!; [done|by left|done]|]. split; [done|].
    intros rows e e' _. cbn. by rewrite and3_TT_r.
  - apply NoDup_cons in Hnd as [Hnin Hnd]. apply Forall_cons in Hr as [(Hlv & Hk & old & Hold & Hb) Hr].
    cbn in Hlv, Hk, Hold. subst lv.
    destruct (rewrite_constraint_ok (1 + i) x k l old tl Hk Hx Htl Hold Hb) as (new & E & Hd & He).
    set (l1 := <[Z.to_nat (k - 1) := new]> l) in *.
    destruct (IH l1 (1 + i) Hnd) as (l' & i' & E' & Hd' & Hlen & Hev).
    { rewrite Forall_forall in Hr |- *. intros [k' lv'] Hin. destruct (Hr _ Hin) as (H1 & H2 & o' & Ho & Hb'). cbn in *. subst.
      split; [done|]. split; [done|]. exists o'. split; [|done]. subst l1. rewrite list_lookup_insert_ne; [done|].
      intros Heq. apply Hnin. by replace k with k' by lia. }
    exists l', i'. split; [|split; [|split]].
    + cbn [rewrite_loop]. do 2 erewrite bind_Ok by reflexivity. erewrite bind_Ok by (by rewrite E). exact E'.
    + intros j y Hy. destruct (decide (j = Z.to_nat (k - 1))) as [->|Hne].
      * destruct (Hd' (Z.to_nat (k - 1)) new) as (y' & Hy' & _ & Hsame).
        { subst l1. apply list_lookup_insert_eq. by eapply lookup_lt_Some. }
        assert (y' = new) as ->.
        { apply Hsame. intros [k' lv'] Hin Heq. rewrite Forall_forall in Hr. destruct (Hr _ Hin) as (H1 & H2 & _). cbn in *. subst.
          apply Hnin. by replace k with k' by lia. }
        exists new. simplify_eq. split; [done|]. split; [by replace (Z.of_nat (Z.to_nat (k - 1)) + 1) with k by lia|]. intros Hno. destruct (Hno (k, 0)); [constructor|done].
      * destruct (Hd' j y) as (y' & Hy' & Hdy & Hsame); [subst l1; by rewrite list_lookup_insert_ne|].
        exists y'. split; [done|]. split; [done|]. intros Hno. apply Hsame. intros r Hin. apply Hno. by constructor.
    + rewrite Hlen. subst l1. apply length_insert.
    + intros rows e e' Hrows. assert (length l1 = length l) as Hl1 by apply length_insert.
      rewrite (Hev rows e e') by congruence.
      assert (pushed_all e' l1 rows = and3 (pushed_all e' l rows) (eval x (push rows e))) as ->.
      { destruct (lookup_lt_is_Some_2 rows (Z.to_nat (k - 1))) as [r Hrow].
        { rewrite Hrows. by eapply lookup_lt_Some. }
        unfold pushed_all. subst l1. rewrite <- (He rows r e e' Hrow).
        rewrite <- (list_insert_id rows _ _ Hrow) at 1. rewrite <- insert_zip_with. apply and3_list_insert.
        rewrite lookup_zip_with, Hold, Hrow. cbn. by rewrite pushed_base. }
      change (and3_list (evals (x :: cs) (push rows e))) with (and3 (eval x (push rows e)) (and3_list (evals cs (push rows e)))).
      symmetry. apply and3_assoc.
Qed.

(** ** The query *)

Lemma as_list_of_list l : as_list (of_list l) = Ok l.
Proof. by destruct l. Qed.

(** What the pass collects from a condition and from a jointree. *)
Lemma quals_collect nrels quals q c' : Forall (λ n, local_atom nrels n = true) (conjuncts quals) →
  my_modifier_self quals make_context_optimizer_self = Ok (q, c') → collected nrels (already_constrain_rel c').
Proof.
  intros Hat E. assert (collected nrels (already_constrain_rel make_context_optimizer_self)) as Hc0.
  { exists [], []. split_and!; [done|constructor|constructor|constructor]. }
  destruct (conjuncts_cases quals) as [Hq|(l & loc & ->)].
  - rewrite Hq, Forall_singleton in Hat. by eapply atom_collects in E as [_ ?].
  - cbn in E, Hat. rewrite bind_assoc in E. apply bind_inv in E as (l' & c3 & El & E). unfold bind, ret in E. injection E as _ <-.
    eapply atoms_collect; [exact Hat| | |exact El]; [done|exact Hc0].
Qed.

Lemma jointree_collects nrels refs quals j c' : Forall (λ n, local_atom nrels n = true) (conjuncts quals) →
  my_modifier_self (FromExpr (of_list (map RangeTblRef refs)) quals)
    make_context_optimizer_self = Ok (j, c') → collected nrels (already_constrain_rel c').
Proof.
  intros Hat E. cbn [my_modifier_self] in E. unfold expression_tree_mutator in E.
  apply bind_inv in E as (fl & c1 & Efl & E). apply bind_inv in E as (q & c2 & Eq & E). injection E as _ <-.
  assert (c1 = make_context_optimizer_self) as ->; [|by eapply quals_collect].
  destruct refs as [|i refs]; [by injection Efl|]. cbn [map of_list my_modifier_self expression_tree_mutator] in Efl.
  erewrite bind_Ok in Efl by apply (refs_read (i :: refs)). by injection Efl.
Qed.

(** The conditions: a comparison or a null test of local columns, or a conjunction of them. *)
Definition local_quals (l : list node) (quals : node) : Prop :=
  conjuncts quals ≠ [] ∧ Forall (λ n, local_atom (Z.of_nat (length l)) n = true) (conjuncts quals).

Lemma local_quals_atoms l quals : local_quals l quals → Forall (λ n, is_atom n = true) (conjuncts quals).
Proof.
  intros [_ Hat]. eapply Forall_impl; [exact Hat|]. intros n Hn. unfold local_atom in Hn. rewrite !andb_true_iff in Hn. naive_solver.
Qed.

Lemma self_constraint_sound qi l refs quals tl i :
  Forall (λ n, base n = true) l → forallb simple_target tl = true → local_quals l quals →
  let from := of_list (map RangeTblRef refs) in
  ∃ l' quals' i',
    optimize_self_constraint (Query qi (NList l) (FromExpr from quals) (NList tl)) i
      = Ok (Query qi (NList l') (FromExpr from quals') (NList tl), i') ∧
    derived_table tl l l' ∧ remnant quals quals' ∧
    ∀ rows e e', length rows = length l →
      and3 (eval quals' (push rows e)) (pushed_all e' l' rows) = eval quals (push rows e).
Proof.
  intros Hl Htl Hq from. pose proof (local_quals_atoms l quals Hq) as Ha. destruct Hq as [Hne Hat].
  destruct (modifier_self_splits refs quals Ha Hne) as (quals' & c' & E & Hrem & He).
  destruct (jointree_collects _ _ _ _ _ Hat E) as (rels & cs & Hcs & Hf & Hnd & Hr).
  destruct (rewrite_loop_ok tl Htl rels cs l i Hf Hnd) as (l' & i' & El & Hd & Hlen & Hp).
  { eapply Forall_impl; [exact Hr|]. intros [k lv] [H1 H2]. cbn in *. split; [done|]. split; [lia|].
    destruct (lookup_lt_is_Some_2 l (Z.to_nat (k - 1))) as [old Hold]; [lia|]. exists old. split; [done|].
    rewrite Forall_lookup in Hl. eauto. }
  exists l', quals', i'. split; [|split; [|split; [done|]]].
  - unfold optimize_self_constraint. subst from. rewrite E. unfold rewrite_self.
    erewrite bind_Ok by (unfold of_res; by rewrite Hcs, as_list_of_list). by erewrite bind_Ok by exact El.
  - split; [done|]. intros j x y Hx Hy. destruct (Hd j x Hx) as (y' & Hy' & Hdy & _). by simplify_eq.
  - intros rows e e' Hrows. rewrite (Hp rows e e' Hrows).
    assert (pushed_all e' l rows = TT) as ->.
    { unfold pushed_all. apply and3_list_TT. apply Forall_zip_with_fst with (P := λ n, base n = true).
      - exact Hl.
      - apply Forall_true. intros r n Hn. by rewrite pushed_base. }
    etrans; [|exact (He (push rows e))]. rewrite Hcs, eval_of_list. f_equal. by destruct (and3_list _).
Qed.

End Query.
