(* ===== verification/Answers.v ===== *)
(** The answers of select queries whose range table has relations and sub-selects.

    [answers] is the reference for the self-constraint pass, which turns range table
    entries into sub-selects.  The columns of a sub-select are the entries of its target
    list, by position, and a column reference of the query names such a position.  As
    for EXISTS, the FROM list has to name the range table entries.  The
    pass does not renumber these references, so it keeps the answers only if the columns
    in use stand in the target list at their own positions, as in SELECT *. *)

From S2P Require Import Prelude Nodes Terms Semantics SelfOpt Mutators CoddProps SelfProps Rename SelfPush SelfQuery Samples.

(** ** Answers *)

(** The columns of a row of a sub-select. *)
Definition as_row (vs : list (option Z)) : row := λ a,
  if 1 <=? a then mjoin (vs !! Z.to_nat (a - 1)) else None.

Section Answers.
Context {I : Interp}.

Definition target_value (e : env) (n : node) : option Z :=
  match n with TargetEntry _ x => eval_term e x | _ => None end.

(** A sub-select of the range table does not see the other entries, but has a level of its
    own for them. *)
Fixpoint answers (q : node) (e : env) {struct q} : list (list (option Z)) :=
  match q with
  | Query _ rtable (FromExpr fromlist quals) tl =>
      let entry n :=
        match n with
        | RangeTblEntry r sub =>
            match rtekind r with
            | RTE_RELATION => db (relid r)
            | RTE_SUBQUERY => map as_row (answers sub (push [] e))
            | _ => []
            end
        | _ => []
        end in
      let rows := if names_all (list_of fromlist) (length (list_of rtable))
        then product match rtable with NList l => map entry l | _ => [] end else [] in
      map (λ rows, map (target_value (push rows e)) (list_of tl))
        (List.filter (λ rows, is_TT (eval quals (push rows e))) rows)
  | _ => []
  end.

Definition entry_rows (e : env) (n : node) : list row :=
  match n with
  | RangeTblEntry r sub =>
      match rtekind r with
      | RTE_RELATION => db (relid r)
      | RTE_SUBQUERY => map as_row (answers sub (push [] e))
      | _ => []
      end
  | _ => []
  end.

Lemma answers_query qi l fl quals tl e :
  answers (Query qi (NList l) (FromExpr fl quals) tl) e =
    map (λ rows, map (target_value (push rows e)) (list_of tl))
      (List.filter (λ rows, is_TT (eval quals (push rows e)))
        (if names_all (list_of fl) (length l) then product (map (entry_rows e) l) else [])).
Proof. done. Qed.

(** ** Products *)

Lemma product_cons rs l : product (rs :: l) = concat (map (λ r, map (cons r) (product l)) rs).
Proof.
  assert (∀ r (p : list (list row)), (p ≫= λ rest, [r :: rest]) = map (cons r) p) as Hp.
  { intros r p. induction p as [|x p IH]; [done|]. cbn. by f_equal. }
  cbn. induction rs as [|r rs IH]; [done|]. cbn. by rewrite IH, Hp.
Qed.

(** Filtering and mapping the rows of every entry. *)
Lemma product_map_filter {A} (R : A → list row) (p : A → row → bool) (g : A → row → row) l :
  product (map (λ n, map (g n) (List.filter (p n) (R n))) l) =
    map (zip_with g l) (List.filter (λ rows, forallb id (zip_with p l rows)) (product (map R l))).
Proof.
  induction l as [|n l IH]; [done|]. cbn [map]. rewrite !product_cons, IH. clear IH.
  induction (R n) as [|r rs IHr]; [done|]. cbn [map concat List.filter]. rewrite List.filter_app, map_app, <- IHr.
  clear IHr. generalize (product (map R l)). intros P. destruct (p n r) eqn:Hp; cbn [map concat].
  - f_equal. induction P as [|x P IHP]; [done|]. cbn. rewrite Hp. cbn.
    destruct (forallb id (zip_with p l x)); [exact (f_equal (cons _) IHP)|exact IHP].
  - rewrite <- (app_nil_l (concat _)) at 1. f_equal. induction P as [|x P IHP]; [done|]. cbn. by rewrite Hp.
Qed.

(** ** Rows of the new entries *)

(** The relation below an entry, and what the entry makes of a row of it. *)
Definition under (n : node) : list row :=
  match n with RangeTblEntry _ (Query _ (NList [old]) _ _) => rte_rows old | _ => rte_rows n end.

Definition shown (e : env) (n : node) (r : row) : row :=
  match n with
  | RangeTblEntry _ (Query _ _ _ tl) => as_row (map (target_value (push [r] e)) (list_of tl))
  | _ => r
  end.

Lemma filter_true {A} (f : A → bool) l : (∀ x, f x = true) → List.filter f l = l.
Proof. intros Hf. induction l as [|x l IH]; [done|]. cbn. by rewrite Hf, IH. Qed.

Lemma product_one rs : product [rs] = map (λ r, [r]) rs.
Proof. rewrite product_cons. induction rs as [|r rs IH]; [done|]. cbn in *. by rewrite IH. Qed.

Lemma filter_map_comm {A B} (f : A → B) p l : List.filter p (map f l) = map f (List.filter (λ x, p (f x)) l).
Proof. induction l as [|x l IH]; [done|]. cbn. rewrite IH. by destruct (p (f x)). Qed.

Lemma base_rows e n : base n = true → entry_rows e n = rte_rows n.
Proof.
  destruct n as [| | | | | | | | | | | | |r s| | |]; try done. by destruct s.
Qed.

Lemma derived_rows tl k old new e : base old = true → derived tl k old new →
  entry_rows e new = map (shown (push [] e) new) (List.filter (λ r, is_TT (pushed (push [] e) new r)) (under new)) ∧
  under new = rte_rows old.
Proof.
  intros Hb [->|(r & quals & Hr & ->)].
  - assert (entry_rows e old = rte_rows old) as -> by by apply base_rows.
    destruct old as [| | | | | | | | | | | | |r s| | |]; try done. destruct s; try done. split; [|done].
    cbn [pushed shown under]. rewrite filter_true by done. by rewrite map_id.
  - split; [|done]. cbn [entry_rows]. rewrite Hr, answers_query. cbn [map under pushed shown].
    change (names_all _ _) with true. cbn iota.
    rewrite base_rows, product_one, filter_map_comm, !map_map by done. done.
Qed.

(** ** Columns in use *)

(** The column [v] of the query is at its own position among the columns of its relation
    in the target list. *)
Definition exposes (tl : list node) (v : var) : bool :=
  match target_of (varno v) 1 tl !! Z.to_nat (varattno v - 1) with
  | Some (TargetEntry _ (Var w)) => (varattno w =? varattno v) && (varlevelsup w =? 0) && (1 <=? varattno v)
  | _ => false
  end.

Lemma target_of_varno k l : ∀ i j te w, target_of k i l !! j = Some (TargetEntry te (Var w)) → varno w = 1.
Proof.
  induction l as [|x l IH]; intros i j te w; [done|]. cbn.
  destruct x as [| | | | | | | | |te' x| | | | | | |]; eauto. destruct x as [|v| | | | | | | | | | | | | | |]; eauto.
  destruct (varno v =? k); [|eauto]. destruct j as [|j]; [|apply IH]. cbn. by intros [= _ <-].
Qed.

Lemma shown_column tl v old new e r : derived tl (varno v) old new → base old = true → exposes tl v = true →
  shown e new r (varattno v) = r (varattno v).
Proof.
  intros [->|(rte & quals & _ & ->)] Hb He.
  - destruct old as [| | | | | | | | | | | | |? s| | |]; try done. by destruct s.
  - unfold exposes in He. cbn [shown]. destruct (_ !! _) as [[| | | | | | | | |te x| | | | | | |]|] eqn:E; try done.
    destruct x as [|w| | | | | | | | | | | | | | |]; try done. rewrite !andb_true_iff, !Z.eqb_eq in He. destruct He as [[Hatt Hlv] H1].
    pose proof (target_of_varno _ _ _ _ _ _ E) as Hno. unfold as_row. rewrite H1.
    assert (list_of (of_list (target_of (varno v) 1 tl)) = target_of (varno v) 1 tl) as -> by by destruct (target_of _ _ _).
    rewrite (list_lookup_fmap (target_value (push [r] e))), E. cbn. unfold look, push. by rewrite Hlv, Hno, Hatt.
Qed.

(** ** Answers of the new query *)

Lemma is_TT_and3 a b : is_TT (and3 a b) = is_TT a && is_TT b.
Proof. by destruct a, b. Qed.

Lemma is_TT_pushed e l rows : forallb id (zip_with (λ n r, is_TT (pushed e n r)) l rows) = is_TT (pushed_all e l rows).
Proof.
  unfold pushed_all. revert rows. induction l as [|n l IH]; intros [|r rows]; [done..|]. cbn [zip_with forallb]. rewrite IH.
  symmetry. apply is_TT_and3.
Qed.

Lemma table_rows tl l l' e : Forall (λ n, base n = true) l → derived_table tl l l' →
  product (map (entry_rows e) l') =
    map (zip_with (shown (push [] e)) l')
      (List.filter (λ rows, is_TT (pushed_all (push [] e) l' rows)) (product (map rte_rows l))).
Proof.
  intros Hb [Hlen Hd].
  assert (Forall2 (λ x y, entry_rows e y = map (shown (push [] e) y) (List.filter (λ r, is_TT (pushed (push [] e) y r)) (under y)) ∧
    under y = rte_rows x) l l') as Hall.
  { apply Forall2_same_length_lookup_2; [done|]. intros j x y Hx Hy. eapply derived_rows; [|by eapply Hd].
    rewrite Forall_lookup in Hb. eauto. }
  assert (map under l' = map rte_rows l) as Hu.
  { clear -Hall. induction Hall as [|x y l l' [_ Hu] _ IH]; [done|]. cbn. by rewrite Hu, IH. }
  assert (map (entry_rows e) l' = map (λ y, map (shown (push [] e) y) (List.filter (λ r, is_TT (pushed (push [] e) y r)) (under y))) l') as ->.
  { clear -Hall. induction Hall as [|x y l l' [Hr _] _ IH]; [done|]. cbn [map]. by rewrite Hr, IH. }
  rewrite (product_map_filter under (λ y r, is_TT (pushed (push [] e) y r))), Hu. f_equal. apply List.filter_ext.
  intros rows. apply is_TT_pushed.
Qed.

Lemma look_row rows e v (r : row) : varlevelsup v = 0 → rows !! Z.to_nat (varno v - 1) = Some r →
  look (push rows e) v = r (varattno v).
Proof.
  intros Hlv Hr. unfold look, push. rewrite Hlv.
  exact (f_equal (λ o : option row, match o with Some r => r (varattno v) | None => None end) Hr).
Qed.

(** A column of the query that the sub-selects keep. *)
Definition kept_column (tl l : list node) (v : var) : bool :=
  (1 <=? varno v) && (varno v <=? Z.of_nat (length l)) && (varlevelsup v =? 0) && exposes tl v.

Definition target_vars (tl : list node) : list var :=
  concat (map (λ n, match n with TargetEntry _ x => term_vars x | _ => [] end) tl).

Section Kept.
Context (tl l l' : list node) (e : env).
Context (Hb : Forall (λ n, base n = true) l) (Hd : derived_table tl l l').

Lemma kept_look v rows : length rows = length l → kept_column tl l v = true →
  look (push (zip_with (shown (push [] e)) l' rows) e) v = look (push rows e) v.
Proof.
  destruct Hd as [Hlen Hder]. unfold kept_column. rewrite !andb_true_iff, !Z.leb_le, Z.eqb_eq.
  intros Hrows [[[H1 H2] Hlv] He].
  destruct (lookup_lt_is_Some_2 l (Z.to_nat (varno v - 1))) as [x Hx]; [lia|].
  destruct (lookup_lt_is_Some_2 l' (Z.to_nat (varno v - 1))) as [y Hy]; [lia|].
  destruct (lookup_lt_is_Some_2 rows (Z.to_nat (varno v - 1))) as [r Hr]; [lia|].
  rewrite (look_row rows e v r Hlv Hr), (look_row _ e v (shown (push [] e) y r) Hlv) by by rewrite lookup_zip_with, Hy, Hr.
  specialize (Hder _ _ _ Hx Hy).
  replace (Z.of_nat (Z.to_nat (varno v - 1)) + 1) with (varno v) in Hder by lia.
  eapply shown_column; [exact Hder| |done]. rewrite Forall_lookup in Hb. eauto.
Qed.

Lemma kept_targets rows : length rows = length l → forallb simple_target tl = true →
  Forall (λ v, kept_column tl l v = true) (target_vars tl) →
  map (target_value (push (zip_with (shown (push [] e)) l' rows) e)) tl = map (target_value (push rows e)) tl.
Proof.
  intros Hrows. unfold target_vars. generalize tl at 1 3 4 5. intros t. induction t as [|x t IH]; [done|].
  cbn [forallb map concat]. rewrite andb_true_iff, Forall_app. intros [Hs Ht] [Hx Hv]. rewrite IH by done. f_equal.
  destruct x as [| | | | | | | | |te x| | | | | | |]; try done. destruct x as [|v| | | | | | | | | | | | | | |]; try done.
  apply Forall_cons in Hx as [Hx _]. exact (kept_look v rows Hrows Hx).
Qed.

(** The new query has the answers of the given one. *)
Lemma answers_kept qi fl quals quals' vs : forallb simple_target tl = true →
  Forall (λ v, kept_column tl l v = true) (target_vars tl) → Forall (λ v, kept_column tl l v = true) vs →
  (∀ e1 e2, Forall (λ v, look e2 v = look e1 v) vs → eval quals' e2 = eval quals' e1) →
  (∀ rows, length rows = length l →
     and3 (eval quals' (push rows e)) (pushed_all (push [] e) l' rows) = eval quals (push rows e)) →
  answers (Query qi (NList l') (FromExpr fl quals') (NList tl)) e = answers (Query qi (NList l) (FromExpr fl quals) (NList tl)) e.
Proof.
  intros Htl Ht Hv Hdep Heq. rewrite !answers_query, <- (proj1 Hd). destruct (names_all _ _); [|done].
  rewrite (table_rows tl l l' e Hb Hd), filter_map_comm, map_map. cbn [list_of].
  assert (map (entry_rows e) l = map rte_rows l) as ->.
  { apply map_ext_in. intros x Hx%list_elem_of_In. apply base_rows. rewrite Forall_forall in Hb. auto. }
  assert (∀ rows, In rows (product (map rte_rows l)) → length rows = length l) as Hlen.
  { intros rows Hr%list_elem_of_In%product_elem%Forall2_length. by rewrite length_fmap in Hr. }
  generalize dependent (product (map rte_rows l)). intros P Hlen.
  induction P as [|rows P IH]; [done|]. assert (length rows = length l) as Hrows by (apply Hlen; by left).
  specialize (IH (λ r Hr, Hlen r (or_intror Hr))). cbn [List.filter].
  rewrite <- (Heq rows Hrows), is_TT_and3. destruct (is_TT (pushed_all _ _ _)); [|by rewrite andb_false_r].
  cbn [List.filter]. rewrite andb_true_r, (Hdep (push rows e)).
  - destruct (is_TT (eval quals' (push rows e))); [|done]. cbn [map]. by rewrite IH, kept_targets.
  - eapply Forall_impl; [exact Hv|]. intros v. by apply kept_look.
Qed.
End Kept.

(** ** The self-constraint pass *)

Lemma atom_look n e1 e2 : is_atom n = true → Forall (λ v, look e2 v = look e1 v) (term_vars n) → eval n e2 = eval n e1.
Proof.
  destruct n as [| | | |o a| |t a loc| | | | | | | | | |]; try done.
  - destruct a as [| | | | | | | | | | | | | | |args|]; try done. intros [_ Ht]%bool_nonempty Hv. cbn [eval]. by rewrite (look_terms e1 e2).
  - intros Ht Hv. assert (eval_term e2 a = eval_term e1 a) as Ha by by apply look_parts. cbn [eval]. by rewrite Ha.
Qed.

Lemma stays_look l l' e1 e2 : Forall2 stays l l' → Forall (λ n, is_atom n = true) l →
  Forall (λ v, look e2 v = look e1 v) (term_vars (NList l)) → evals l' e2 = evals l' e1.
Proof.
  induction 1 as [|x x' l l' Hx _ IH]; [done|]. intros [Ha Hl]%Forall_cons. rewrite term_vars_cons, Forall_app.
  intros [Hvx Hv]. cbn [evals map]. f_equal; [|by apply IH]. destruct Hx as [->| ->]; [by apply atom_look|done].
Qed.

Lemma remnant_look quals quals' e1 e2 : remnant quals quals' → Forall (λ n, is_atom n = true) (conjuncts quals) →
  Forall (λ v, look e2 v = look e1 v) (term_vars quals) → eval quals' e2 = eval quals' e1.
Proof.
  intros [[->| ->]|(l & l' & loc & -> & -> & _ & Hs)] Ha Hv; [|done|cbn; by f_equal; eapply stays_look].
  rewrite !conjuncts_eval. f_equal. eapply stays_look; [|exact Ha|].
  - apply Forall_Forall2_diag, Forall_true. by left.
  - destruct (conjuncts_cases quals) as [->|(l & loc & ->)]; [|done]. cbn. by rewrite app_nil_r.
Qed.

Lemma self_answers qi l l' fl quals quals' tl : Forall (λ n, base n = true) l → forallb simple_target tl = true →
  Forall (λ n, is_atom n = true) (conjuncts quals) → derived_table tl l l' → remnant quals quals' →
  (∀ rows e e', length rows = length l →
     and3 (eval quals' (push rows e)) (pushed_all e' l' rows) = eval quals (push rows e)) →
  Forall (λ v, kept_column tl l v = true) (target_vars tl ++ term_vars quals) →
  ∀ e, answers (Query qi (NList l') (FromExpr fl quals') (NList tl)) e = answers (Query qi (NList l) (FromExpr fl quals) (NList tl)) e.
Proof.
  intros Hb Htl Ha Hd Hrem Heq [Ht Hv]%Forall_app e. eapply answers_kept; [done..| |auto].
  intros e1 e2. by apply remnant_look.
Qed.

Context {B : Build}.

End Answers.

Definition sample_star : list node :=
  [TargetEntry (mkTe 1 "x" false) (col 0 1 1); TargetEntry (mkTe 2 "y" false) (col 0 1 2);
   TargetEntry (mkTe 3 "x" false) (col 0 2 1); TargetEntry (mkTe 4 "y" false) (col 0 2 2)].


(** The condition on the columns matters: SELECT r.y FROM r WHERE r.y = 2 returns the second
    column of the sub-select, which has only one. *)
Example optimize_self_hides_columns :
  let q := Query new_queryinfo (NList [rel 10]) (FromExpr (NList [RangeTblRef 1]) (cmp 96 (col 0 1 2) (lit 2)))
             (NList [TargetEntry (mkTe 1 "y" false) (col 0 1 2)]) in
  ∃ q' i', optimize_self_constraint (B := with_asserts) q 0 = Ok (q', i') ∧
    answers (I := sample_interp) q no_columns = [[Some 2]] ∧ answers (I := sample_interp) q' no_columns = [[None]].
Proof. eexists _, _. split; [vm_compute; reflexivity|]. split; vm_compute; reflexivity. Qed.
