(* ===== verification/ExistQuery.v ===== *)
(** Moving a component of relations into a nested EXISTS.

    [rewrite_connexe] of exist_optimize.c takes a component out of the range table of a
    sub-query, together with the comparisons that mention it.  The theorem says when the
    sub-query has a row exactly when it had one before; it makes explicit what the code
    assumes: the comparisons it takes along keep their variable numbers, so they must be
    those of the first relation, and the FROM list of the new sub-query is always [1], so
    that a component of several relations is not named by it. *)

From Stdlib Require Import Sorted.
From S2P Require Import Prelude Nodes Terms PgList Semantics SelfOpt ExistOpt SplitProps Mutators CoddProps CoddNeg SelfProps.
From S2P Require Import Rename ExistProps SelfPush SelfQuery Samples.

#[local] Arguments is_in_list : simpl never.

(** ** Target lists *)

(** An entry is dropped, or kept with the flag raised. *)
Definition entry_kept {S : Type} (mutate : node → M S node) (flag : S → bool) (clear : S → S) (s0 : S) (x : node) : Prop :=
  ∃ te y s1, mutate x s0 = Ok (TargetEntry te y, s1) ∧
    (s1 = s0 ∨ flag s1 = true ∧ clear s1 = s0 ∧ simple_target (TargetEntry te y) = true).

Lemma keep_entries_total {S : Type} (mutate : node → M S node) flag clear (s0 : S) l :
  flag s0 = false → Forall (entry_kept mutate flag clear s0) l →
  ∀ i, ∃ r, keep_entries mutate flag clear i l s0 = Ok (r, s0) ∧ forallb simple_target r = true.
Proof.
  intros Hf. induction 1 as [|x l (te & y & s1 & E & Hs) _ IH]; intros i; [by exists []|].
  destruct Hs as [->|(Hs1 & Hs2 & Hsim)].
  - destruct (IH i) as (r & Er & Hr). exists r. split; [|done]. cbn. erewrite bind_Ok by exact E. erewrite bind_Ok by reflexivity.
    cbn beta. by rewrite Hf.
  - destruct (IH (i + 1)) as (r & Er & Hr). exists (TargetEntry (mkTe i (resname te) (resjunk te)) y :: r). split.
    + cbn. erewrite bind_Ok by exact E. erewrite bind_Ok by reflexivity.
      cbn beta. rewrite Hs1. do 2 erewrite bind_Ok by reflexivity. rewrite Hs2. by erewrite bind_Ok by exact Er.
    + cbn in Hsim |- *. by rewrite Hsim.
Qed.

Lemma targets_kept (m : node → M temp_context_connex_rew2 node) L l :
  (∀ te y s, m (TargetEntry te y) s = expression_tree_mutator m (TargetEntry te y) s) →
  (∀ c s, m (Const c) s = Ok (Const c, s)) →
  (∀ v, m (Var v) (make_temp_context_connex_rew2 L) = Ok (NULL, make_temp_context_connex_rew2 L) ∨
     ∃ v', m (Var v) (make_temp_context_connex_rew2 L) = Ok (Var v', mkRew2Ctx L true)) →
  forallb simple_target l = true →
  Forall (entry_kept m to_add (set_to_add false) (make_temp_context_connex_rew2 L)) l.
Proof.
  intros Hte Hc Hv Hl. apply forallb_Forall in Hl. eapply Forall_impl; [exact Hl|]. intros x Hx.
  destruct x as [| | | | | | | | |te x| | | | | | |]; try done.
  destruct x as [|v|cst| | | | | | | | | | | | | |]; try done.
  - destruct (Hv v) as [E|[v' E]]; eexists te, _, _; rewrite Hte; cbn; erewrite bind_Ok by exact E; (split; [done|]); auto.
  - exists te, (Const cst), (make_temp_context_connex_rew2 L). rewrite Hte. cbn. erewrite bind_Ok by apply Hc. auto.
Qed.

Lemma mutator_target_ok L l : forallb simple_target l = true →
  ∃ r, mutator_target (of_list l) (make_temp_context_connex_rew2 L) = Ok (r, make_temp_context_connex_rew2 L).
Proof.
  intros Hl. destruct (keep_entries_total mutator_target to_add (set_to_add false) (make_temp_context_connex_rew2 L) l) with (i := 1)
    as (r & E & _); [done| |].
  - apply targets_kept; try done. intros v. cbn. unfold bind, get, modify, ret. cbn. destruct (_ =? 0); eauto.
  - destruct l as [|x l]; [by exists NULL|]. exists (of_list r). cbn [of_list mutator_target]. by erewrite bind_Ok by exact E.
Qed.

Lemma mutator_varTarget_ok L l : forallb simple_target l = true →
  ∃ r, mutator_varTarget (of_list l) (make_temp_context_connex_rew2 L) = Ok (of_list r, make_temp_context_connex_rew2 L) ∧
    forallb simple_target r = true.
Proof.
  intros Hl. destruct (keep_entries_total mutator_varTarget to_add (set_to_add false) (make_temp_context_connex_rew2 L) l) with (i := 1)
    as (r & E & Hr); [done| |].
  - apply targets_kept; try done. intros v. cbn. unfold bind, get, modify, ret. cbn. destruct (_ =? 0); eauto.
  - destruct l as [|x l]; [by exists []|]. exists r. split; [|done]. cbn [of_list mutator_varTarget]. by erewrite bind_Ok by exact E.
Qed.

(** ** Rows *)

(** A list of related elements, given one by one. *)
Lemma list_from {A D : Type} (R : A → D → Prop) l : ∀ f : Z → option A,
  (∀ j x, l !! j = Some x → ∃ r, f (Z.of_nat j + 1) = Some r ∧ R r x) →
  ∃ rows, Forall2 R rows l ∧ ∀ j, (j < length l)%nat → rows !! j = f (Z.of_nat j + 1).
Proof.
  induction l as [|x l IH]; intros f Hf; [exists []; split; [constructor|cbn; lia]|].
  destruct (Hf 0%nat x eq_refl) as (r & Er & Hr). destruct (IH (λ v, f (v + 1))) as (rows & HR & Hrows).
  { intros j y Hj. destruct (Hf (S j) y Hj) as (r' & Er' & Hr'). exists r'. split; [|done]. rewrite <- Er'. f_equal. lia. }
  exists (r :: rows). split; [by constructor|]. intros [|j] Hj; [symmetry; exact Er|].
  cbn. rewrite Hrows by (cbn in Hj; lia). f_equal. lia.
Qed.

Section Rows.
Context (L : list Z) {A D : Type} (R : A → D → Prop) (l : list D).
Hypothesis (sorted : StronglySorted Z.lt L) (bounds : Forall (λ v, 1 ≤ v ≤ Z.of_nat (length l)) L).

(** The rows [m] of the component and the others [k] together are [rows]. *)
Definition splits (rows m k : list A) : Prop := ∀ v, 1 ≤ v ≤ Z.of_nat (length l) →
  (if bool_decide (v ∈ L) then m !! Z.to_nat (is_in_list v L - 1) else k !! Z.to_nat (deacrease v L - 1)) =
  rows !! Z.to_nat (v - 1).

Lemma pick_remove {X : Type} (xs : list X) v : Forall (λ v, 1 ≤ v ≤ Z.of_nat (length xs)) L → 1 ≤ v →
  (if bool_decide (v ∈ L) then pick xs L !! Z.to_nat (is_in_list v L - 1) else remove_at 0 xs L !! Z.to_nat (deacrease v L - 1)) =
  xs !! Z.to_nat (v - 1).
Proof.
  intros HL Hv. case_bool_decide as Hin.
  - destruct (is_in_list_lookup v L Hin) as (j & -> & Hj). replace (Z.to_nat (Z.of_nat j + 1 - 1)) with j by lia. by apply pick_lookup.
  - destruct (remove_at_ok L xs 0 sorted HL) as [_ Hk]. specialize (Hk v ltac:(lia) Hin).
    rewrite deacrease_below. rewrite !Z.sub_0_r in Hk. by replace (v - below L v - 1) with (v - 1 - below L v) by lia.
Qed.

Lemma pick_Forall2 rows xs M : Forall2 R rows xs → Forall2 R (pick rows M) (pick xs M).
Proof.
  intros H. induction M as [|v M IH]; [constructor|]. cbn.
  destruct (rows !! Z.to_nat (v - 1)) as [r|] eqn:E.
  - destruct (Forall2_lookup_l _ _ _ _ _ H E) as (x & -> & Hx). by constructor.
  - apply lookup_ge_None in E. rewrite (Forall2_length _ _ _ H) in E. by rewrite (proj2 (lookup_ge_None _ _) E).
Qed.

Lemma remove_at_Forall2 M : ∀ rows xs i, Forall2 R rows xs → Forall2 R (remove_at i rows M) (remove_at i xs M).
Proof. induction M as [|v M IH]; intros rows xs i H; [done|]. cbn. apply IH. by apply Forall2_delete. Qed.

(** Rows can be split, *)
Lemma rows_split rows : Forall2 R rows l →
  Forall2 R (pick rows L) (pick l L) ∧ Forall2 R (remove_at 0 rows L) (remove_at 0 l L) ∧
  splits rows (pick rows L) (remove_at 0 rows L).
Proof.
  intros H. split; [by apply pick_Forall2|]. split; [by apply remove_at_Forall2|]. intros v Hv. apply pick_remove; [|lia].
  by rewrite (Forall2_length _ _ _ H).
Qed.

(** and put together again. *)
Lemma rows_join m k : Forall2 R m (pick l L) → Forall2 R k (remove_at 0 l L) → ∃ rows, Forall2 R rows l ∧ splits rows m k.
Proof.
  intros Hm Hk.
  set (row_at := λ v, if bool_decide (v ∈ L) then m !! Z.to_nat (is_in_list v L - 1) else k !! Z.to_nat (deacrease v L - 1)).
  assert (∀ j x, l !! j = Some x → ∃ r, row_at (Z.of_nat j + 1) = Some r ∧ R r x) as Hrow.
  { intros j x Hj. pose proof (pick_remove l (Z.of_nat j + 1) bounds ltac:(lia)) as Hl.
    replace (Z.to_nat (Z.of_nat j + 1 - 1)) with j in Hl by lia. rewrite Hj in Hl. subst row_at. cbn beta.
    case_bool_decide; [destruct (Forall2_lookup_r _ _ _ _ _ Hm Hl)|destruct (Forall2_lookup_r _ _ _ _ _ Hk Hl)]; naive_solver. }
  destruct (list_from R l _ Hrow) as (rows & HR & Hrows).
  exists rows. split; [exact HR|]. intros v Hv. rewrite Hrows by lia. subst row_at. cbn beta. by replace (Z.of_nat (Z.to_nat (v - 1)) + 1) with v by lia.
Qed.
End Rows.

(** ** Conditions *)

Definition varquals_name (c : temp_context_connex_rew2) (v : var) : var :=
  if varlevelsup v =? 0 then with_varno (deacrease (varno v) (c2_list_varno c)) v else v.

#[export] Instance varquals_renames : RenamesTerms mutator_varquals varquals_name.
Proof. by split. Qed.

(** The local variables of a comparison are columns of the range table. *)
Definition in_table (n : Z) (v : var) : Prop := varlevelsup v = 0 → 1 ≤ varno v ≤ n.

(** The comparisons that are taken along with the component are about it alone, and it
    consists of the first relations. *)
Definition taken_along (L : list Z) (n : node) : Prop :=
  mentions L n = true → (∀ j v, L !! j = Some v → v = Z.of_nat j + 1) ∧
    Forall (λ v, of_component L v = true) (term_vars n).

Section Query.
Context {I : Interp} (l : list node) (L : list Z).
Hypothesis (sorted : StronglySorted Z.lt L) (bounds : Forall (λ v, 1 ≤ v ≤ Z.of_nat (length l)) L).

Lemma of_component_true v : of_component L v = true ↔ varlevelsup v = 0 ∧ varno v ∈ L.
Proof.
  unfold of_component. rewrite andb_true_iff, negb_true_iff, Z.eqb_eq, Z.eqb_neq, is_in_list_zero.
  split; intros [? H]; (split; [done|]); [destruct (decide (varno v ∈ L)); naive_solver|auto].
Qed.

(** A variable outside the component keeps its value. *)
Lemma kept_var rows m k e v : splits L l rows m k → in_table (Z.of_nat (length l)) v → of_component L v = false →
  look (push k e) (varquals_name (make_temp_context_connex_rew2 L) v) = look (push rows e) v.
Proof.
  intros Hs Hv Hc. unfold look, varquals_name, push. destruct (Z.eqb_spec (varlevelsup v) 0) as [Hlv|Hlv].
  - cbn [with_varno varlevelsup varno varattno]. rewrite Hlv. cbn. specialize (Hs (varno v) (Hv Hlv)).
    rewrite bool_decide_eq_false_2 in Hs.
    + unfold row in *. by rewrite <- Hs.
    + intros Hin. by rewrite (proj2 (of_component_true v)) in Hc.
  - by destruct (Z.eqb_spec (varlevelsup v) 0).
Qed.

(** So does a variable of the component in the sub-query. *)
Lemma moved_var rows m k e v : splits L l rows m k → (∀ j v, L !! j = Some v → v = Z.of_nat j + 1) →
  of_component L v = true → look (push m (push k e)) v = look (push rows e) v.
Proof.
  intros Hs Hfirst [Hlv Hin]%of_component_true. unfold look, push. rewrite Hlv. cbn.
  rewrite Forall_forall in bounds. specialize (Hs (varno v) (bounds _ Hin)). rewrite bool_decide_eq_true_2 in Hs by done.
  destruct (is_in_list_lookup _ _ Hin) as (j & Hj & HL). rewrite Hj in Hs. rewrite (Hfirst j _ HL).
  rewrite (Hfirst j _ HL) in Hs. unfold row in *. by rewrite <- Hs.
Qed.

Lemma moved_cmps cmps rows m k e : splits L l rows m k → Forall (λ n, is_cmp n = true) cmps → Forall (taken_along L) cmps →
  evals (List.filter (mentions L) cmps) (push m (push k e)) = evals (List.filter (mentions L) cmps) (push rows e).
Proof.
  intros Hs Hc Ht. unfold evals. induction cmps as [|n cmps IH]; [done|].
  apply Forall_cons in Hc as [Hn Hc]. apply Forall_cons in Ht as [Htn Ht]. cbn.
  destruct (mentions L n) eqn:Hm; [|by apply IH]. cbn. rewrite IH by done. f_equal. destruct (Htn Hm) as [Hf Hv].
  destruct n as [| | | |o a| | | | | | | | | | | |]; try done. destruct a as [| | | | | | | | | | | | | | |args|]; try done.
  apply bool_nonempty in Hn as [_ Hterm]. cbn [eval]. rewrite (look_terms (push rows e)); [done..|].
  eapply Forall_impl; [exact Hv|]. intros v. by apply moved_var.
Qed.

Lemma kept_cmps cmps loc : Forall (λ n, is_cmp n = true) cmps → cmps ≠ [] →
  Forall (λ n, Forall (in_table (Z.of_nat (length l))) (term_vars n)) cmps →
  let quals := BoolExpr AND_EXPR (NList (map (λ n, if mentions L n then NULL else n) cmps)) loc in
  ∃ quals', mutator_varquals quals (make_temp_context_connex_rew2 L) = Ok (quals', make_temp_context_connex_rew2 L) ∧
    ∀ rows m k e, splits L l rows m k → eval quals' (push k e) = eval quals (push rows e).
Proof.
  intros Hc Hne Hv quals.
  destruct (renamed_and mutator_varquals varquals_name (make_temp_context_connex_rew2 L) (map (λ n, if mentions L n then NULL else n) cmps) loc)
    as (quals' & E & Hq).
  - by destruct cmps.
  - apply Forall_fmap. eapply Forall_impl; [exact Hc|]. intros n Hn. cbn. destruct (mentions L n); [apply (renamed_NULL _ varquals_name)|].
    apply (renamed_atom _ varquals_name). by destruct n.
  - exists quals'. split; [done|]. intros rows m k e Hs. apply Hq. cbn [term_vars].
    clear -Hs Hv bounds. induction Hv as [|n cmps Hn _ IH]; [constructor|]. cbn. apply Forall_app. split; [|exact IH].
    destruct (mentions L n) eqn:Hm; [constructor|]. unfold mentions in Hm. rewrite Forall_forall in Hn |- *. intros v Hin.
    apply (kept_var rows m); auto. destruct (of_component L v) eqn:Ev; [|done]. exfalso.
    assert (existsb (of_component L) (term_vars n) = true); [|congruence]. apply existsb_exists. exists v. by rewrite <- list_elem_of_In.
Qed.
End Query.

(** ** Property *)

Lemma refs_varquals refs c : mutator_varquals (of_list (map RangeTblRef refs)) c = Ok (of_list (map RangeTblRef refs), c).
Proof.
  assert (mutate_list mutator_varquals (map RangeTblRef refs) c = Ok (map RangeTblRef refs, c)) as E.
  { induction refs as [|r refs IH]; [done|]. cbn. by erewrite bind_Ok by exact IH. }
  destruct refs as [|r refs]; [done|]. cbn in *. unfold bind in *. cbn in *. destruct (mutate_list _ _ _) as [[? ?]|]; [|done].
  by injection E as -> ->.
Qed.

Lemma list_of_of_list l : list_of (of_list l) = l.
Proof. by destruct l. Qed.

(** Two EXISTS that are true together are equal. *)
Lemma exists_iff {I : Interp} t q rt fl quals tl q' rt' fl' quals' tl' e :
  eval (SubLink EXISTS_SUBLINK t (Query q rt (FromExpr fl quals) tl)) e = TT ↔
  eval (SubLink EXISTS_SUBLINK t (Query q' rt' (FromExpr fl' quals') tl')) e = TT →
  eval (SubLink EXISTS_SUBLINK t (Query q rt (FromExpr fl quals) tl)) e =
  eval (SubLink EXISTS_SUBLINK t (Query q' rt' (FromExpr fl' quals') tl')) e.
Proof. cbn [eval]. rewrite !of_bool_TT. intros H. f_equal. by apply Bool.eq_true_iff_eq. Qed.

(** A condition that is an AND of what is kept and an EXISTS over the moved relations
    holds for some rows iff the original condition does. *)
Lemma exists_moved {I : Interp} qi qi' l L quals quals' capt loc fl fl' fl2 tl tl' tl2 t e :
  StronglySorted Z.lt L → Forall (λ v, 1 ≤ v ≤ Z.of_nat (length l)) L →
  names_all (list_of fl) (length l) = true → names_all (list_of fl') (length (remove_at 0 l L)) = true →
  names_all (list_of fl2) (length (pick l L)) = true →
  (∀ rows m k, splits L l rows m k → eval quals (push rows e) = TT ↔
     eval quals' (push k e) = TT ∧ eval capt (push m (push k e)) = TT) →
  let ex := SubLink EXISTS_SUBLINK NULL (Query qi' (of_list (pick l L)) (FromExpr fl2 capt) tl2) in
  eval (SubLink EXISTS_SUBLINK t (Query qi (of_list (remove_at 0 l L)) (FromExpr fl' (BoolExpr AND_EXPR (NList [quals'; ex]) loc)) tl')) e = TT ↔
  eval (SubLink EXISTS_SUBLINK t (Query qi (of_list l) (FromExpr fl quals) tl)) e = TT.
Proof.
  intros Hs Hb Hfl Hfl' Hfl2 Hboth ex. rewrite !eval_exists. setoid_rewrite from_rows_elem. setoid_rewrite product_elem.
  rewrite !list_of_of_list.
  assert (∀ k, eval (BoolExpr AND_EXPR (NList [quals'; ex]) loc) (push k e) = TT ↔ eval quals' (push k e) = TT ∧ eval ex (push k e) = TT) as Hand.
  { intros k. cbn [eval map]. rewrite and3_list_TT, !Forall_cons. naive_solver. }
  split.
  - intros (k & [_ Hk] & [Hq' Hex]%Hand). unfold ex in Hex. rewrite eval_exists in Hex. setoid_rewrite from_rows_elem in Hex.
    setoid_rewrite product_elem in Hex. rewrite list_of_of_list in Hex. destruct Hex as (m & [_ Hm] & Hev). rewrite Forall2_fmap_r in Hk, Hm.
    destruct (rows_join L (λ r n, r ∈ rte_rows n) l Hs Hb m k Hm Hk) as (rows & Hrows & Hsp).
    exists rows. split; [split; [done|by apply Forall2_fmap_r]|]. by apply (Hboth rows m k Hsp).
  - intros (rows & [_ Hrows] & Hev). rewrite Forall2_fmap_r in Hrows.
    destruct (rows_split L (λ r n, r ∈ rte_rows n) l Hs Hb rows Hrows) as (Hm & Hk & Hsp).
    apply (Hboth rows _ _ Hsp) in Hev as [Hev1 Hev2]. exists (remove_at 0 rows L). split; [split; [done|by apply Forall2_fmap_r]|].
    apply Hand. split; [done|]. unfold ex. rewrite eval_exists. exists (pick rows L).
    split; [|done]. rewrite from_rows_elem, list_of_of_list, product_elem. split; [done|by apply Forall2_fmap_r].
Qed.

(** The statements of [rewrite_connexe], given what the mutators return. *)
Lemma rewrite_connexe_runs {B : Build} qi l refs quals quals1 quals' c1 tl L :
  refs ≠ [] → L ≠ [] → StronglySorted Z.lt L → Forall (λ v, 1 ≤ v ≤ Z.of_nat (length l)) L → forallb simple_target tl = true →
  expression_tree_mutator mutator_conn quals (make_temp_context_connex_rew L) = Ok (quals1, c1) →
  mutator_varquals quals1 (make_temp_context_connex_rew2 L) = Ok (quals', make_temp_context_connex_rew2 L) →
  let refs' := take (Z.to_nat (Z.max 1 (Z.of_nat (length refs) - Z.of_nat (length L)))) refs in
  ∃ n tl', refs' ≠ [] ∧ forallb simple_target tl' = true ∧
    rewrite_connexe (Query qi (of_list l) (FromExpr (NList (map RangeTblRef refs)) quals) (of_list tl)) L =
      Ok (Query qi (of_list (remove_at 0 l L)) (FromExpr (NList (map RangeTblRef refs')) (BoolExpr AND_EXPR (NList [quals';
        SubLink EXISTS_SUBLINK NULL (create_from_query_list (of_list (pick l L)) (of_list (list_constraint c1)) n)]) (-1))) (of_list tl')).
Proof.
  intros Hrefs HL Hs Hb Htl Econn Eq refs'.
  destruct (mutator_target_ok L tl Htl) as [n En]. destruct (mutator_varTarget_ok L tl Htl) as (tl' & Etl & Htl').
  assert (l ≠ []) as Hl by (intros ->; destruct L; [done|]; apply Forall_cons in Hb as [Hb _]; cbn in Hb; lia).
  assert (refs' ≠ []) as Hne by (subst refs'; destruct refs; [done|]; destruct (Z.to_nat (Z.max _ _)) eqn:E; [lia|done]).
  exists n, tl'. split; [done|]. split; [done|].
  unfold rewrite_connexe, run. erewrite bind_Ok by reflexivity. cbn [snd fst].
  erewrite bind_Ok by (rewrite Econn; reflexivity). cbn [snd fst].
  erewrite bind_Ok by (rewrite substract_keeps_one, firstn_map, length_map; fold refs'; reflexivity).
  erewrite bind_Ok by exact En.
  erewrite bind_Ok by (rewrite (of_list_ne l Hl), (take_entries_ok l L Hb); reflexivity). cbv zeta.
  erewrite bind_Ok by (rewrite (delete_entries_ok L l 0 Hs Hb); reflexivity). erewrite bind_Ok by exact Etl.
  erewrite bind_Ok by (cbn [mutator_varquals expression_tree_mutator]; erewrite bind_Ok by apply refs_varquals;
    erewrite bind_Ok by exact Eq; reflexivity).
  erewrite bind_Ok by reflexivity. cbn [fst snd]. unfold ret. rewrite (of_list_ne (map RangeTblRef refs')); [done|]. by destruct refs'.
Qed.

(** ** FROM lists *)

(** The numbers that [substract] leaves. *)
Lemma take_seqZ n m k : (k ≤ Z.to_nat m)%nat → take k (seqZ n m) = seqZ n (Z.of_nat k).
Proof.
  revert n m. induction k as [|k IH]; intros n m Hk; [by rewrite take_0, seqZ_nil by lia|].
  rewrite (seqZ_cons n m), (seqZ_cons n (Z.of_nat (S k))) by lia. cbn [take]. rewrite IH by lia. do 2 f_equal; lia.
Qed.

Lemma pick_length {X : Type} (l : list X) L : Forall (λ v, 1 ≤ v ≤ Z.of_nat (length l)) L → length (pick l L) = length L.
Proof.
  induction 1 as [|v L Hv _ IH]; [done|]. cbn.
  destruct (lookup_lt_is_Some_2 l (Z.to_nat (v - 1))) as [x ->]; [lia|]. cbn. by f_equal.
Qed.

(** A shortened FROM list fits the shortened range table if a relation is left. *)
Lemma names_all_taken n k : n ≠ 0%nat → names_all (map RangeTblRef (take (Z.to_nat (Z.max 1 (Z.of_nat n - Z.of_nat k))) (seqZ 1 (Z.of_nat n)))) (n - k) =
  bool_decide (k < n)%nat.
Proof.
  intros Hn. case_bool_decide as H.
  - rewrite take_seqZ by lia. replace (Z.of_nat (Z.to_nat (Z.max 1 (Z.of_nat n - Z.of_nat k)))) with (Z.of_nat (n - k)) by lia.
    apply names_all_seqZ.
  - destruct (names_all _ _) eqn:E; [|done]. apply names_all_length in E. rewrite length_map, length_take, length_seqZ in E. lia.
Qed.

(** The new query and its sub-query name their range tables in these cases. *)
Lemma moved_from_ok {X : Type} (l : list X) L : l ≠ [] → StronglySorted Z.lt L → Forall (λ v, 1 ≤ v ≤ Z.of_nat (length l)) L →
  names_all (map RangeTblRef (take (Z.to_nat (Z.max 1 (Z.of_nat (length l) - Z.of_nat (length L)))) (seqZ 1 (Z.of_nat (length l)))))
    (length (remove_at 0 l L)) = bool_decide (length L < length l)%nat ∧
  names_all [RangeTblRef 1] (length (pick l L)) = bool_decide (length L = 1%nat).
Proof.
  intros Hl Hs Hb. destruct (remove_at_ok L l 0 Hs Hb) as [Hlen _].
  replace (length (remove_at 0 l L)) with (length l - length L)%nat by lia. rewrite names_all_taken, (pick_length l L Hb) by by destruct l.
  split; [done|]. case_bool_decide as H; [by rewrite H|]. destruct (names_all _ _) eqn:E; [|done]. by apply names_all_length in E.
Qed.


