(* ===== verification/ExistGraph.v ===== *)
(** Connected components, abstractly.

    exist_optimize.c keeps the relations of a query in disjoint lists, and one more for
    the relations connected to the outer query.  Here are these classes as values: what
    merging two of them does, and that classes merged along the edges of a graph are the
    connected components of the graph. *)

From stdpp Require Import relations.
From S2P Require Import Prelude.

(** A vertex: a relation of the query, or [None] for the outer query. *)
Definition vertex : Type := option Z.

(** The classes: the relations connected to the outer query, and the other classes. *)
Record classes := mkClasses { c_sub : list Z; c_comps : list (list Z) }.

Definition in_sub (s : classes) (x : vertex) : Prop := match x with None => True | Some a => a ∈ c_sub s end.

Definition same_class (s : classes) (x y : vertex) : Prop :=
  (in_sub s x ∧ in_sub s y) ∨ ∃ a b A, x = Some a ∧ y = Some b ∧ A ∈ c_comps s ∧ a ∈ A ∧ b ∈ A.

(** The classes partition the relations 1 to [n]. *)
Definition partition (n : Z) (s : classes) : Prop :=
  concat (c_comps s) ++ c_sub s ≡ₚ seqZ 1 n ∧ Forall (λ A, A ≠ []) (c_comps s).

(** Merging the classes of two vertices. *)
Inductive merge (x y : vertex) (s : classes) : classes → Prop :=
  | merge_none : same_class s x y → merge x y s s
  | merge_sub A comps' :
      c_comps s ≡ₚ A :: comps' →
      (∃ a, a ∈ A ∧ (x = Some a ∧ in_sub s y ∨ y = Some a ∧ in_sub s x)) →
      merge x y s (mkClasses (c_sub s ++ A) comps')
  | merge_two A A' comps' a b :
      c_comps s ≡ₚ A :: A' :: comps' → x = Some a → y = Some b → a ∈ A → b ∈ A' →
      merge x y s (mkClasses (c_sub s) (comps' ++ [A ++ A'])).

(** ** Partitions *)

Lemma merge_partition n x y s s' : partition n s → merge x y s s' → partition n s'.
Proof.
  intros [Hp Hne] [?|A comps' HC _|A A' comps' a b HC _ _ _ _]; [done| |]; split; cbn.
  - rewrite <- Hp, HC. cbn. solve_Permutation.
  - rewrite HC in Hne. by apply Forall_cons in Hne as [_ ?].
  - rewrite <- Hp, HC, concat_app. cbn. rewrite app_nil_r. solve_Permutation.
  - rewrite HC in Hne. apply Forall_cons in Hne as [HA [_ Hne]%Forall_cons]. apply Forall_app. split; [done|].
    constructor; [by destruct A|constructor].
Qed.

Lemma partition_NoDup n s : partition n s → NoDup (concat (c_comps s) ++ c_sub s).
Proof. intros [-> _]. apply NoDup_seqZ. Qed.

Lemma concat_elem {A : Type} (x : A) (ls : list (list A)) : x ∈ concat ls ↔ ∃ l, l ∈ ls ∧ x ∈ l.
Proof. rewrite list_elem_of_In, in_concat. setoid_rewrite list_elem_of_In. done. Qed.

(** Two classes that share a relation are the same. *)
Lemma class_unique n s A A' a : partition n s → A ∈ c_comps s → A' ∈ c_comps s → a ∈ A → a ∈ A' → A = A'.
Proof.
  intros Hp HA HA' Ha Ha'. apply partition_NoDup, NoDup_app in Hp as (Hp & _ & _).
  apply list_elem_of_split in HA as (l1 & l2 & E). rewrite E, concat_app in Hp. cbn in Hp.
  rewrite E, elem_of_app, elem_of_cons in HA'. apply NoDup_app in Hp as (_ & Hp1 & Hp).
  apply NoDup_app in Hp as (_ & Hp2 & _).
  destruct HA' as [HA'|[->|HA']]; [|done|].
  - exfalso. apply (Hp1 a); [apply concat_elem; eauto|]. apply elem_of_app. by left.
  - exfalso. apply (Hp2 a); [done|]. apply concat_elem. eauto.
Qed.

Lemma class_not_sub n s A a : partition n s → A ∈ c_comps s → a ∈ A → a ∉ c_sub s.
Proof.
  intros Hp HA Ha. apply partition_NoDup, NoDup_app in Hp as (_ & Hp & _). apply Hp, concat_elem. eauto.
Qed.

Lemma class_exists n s a : partition n s → 1 ≤ a ≤ n → a ∈ c_sub s ∨ ∃ A, A ∈ c_comps s ∧ a ∈ A.
Proof.
  intros [Hp _] Ha. assert (a ∈ concat (c_comps s) ++ c_sub s) as Hin by (rewrite Hp; apply elem_of_seqZ; lia).
  apply elem_of_app in Hin as [Hin|Hin]; [right; by apply concat_elem|by left].
Qed.

(** ** Classes as an equivalence *)

Lemma same_class_sym s x y : same_class s x y → same_class s y x.
Proof. intros [[? ?]|(a & b & A & ? & ? & ? & ? & ?)]; [by left|right; by exists b, a, A]. Qed.

Lemma same_class_trans n s x y z : partition n s → same_class s x y → same_class s y z → same_class s x z.
Proof.
  intros Hp [[Hx Hy]|(a & b & A & -> & -> & HA & Ha & Hb)] [[Hy' Hz]|(b' & c & A' & Eb & -> & HA' & Hb' & Hc)].
  - by left.
  - subst y. by destruct (class_not_sub n s A' b').
  - by destruct (class_not_sub n s A b).
  - injection Eb as <-. rewrite <- (class_unique n s A A' b) in Hc by done. right. by exists a, c, A.
Qed.

(** ** Merging *)

(** The elements of the new classes. *)
Lemma merge_grows x y s s' u v : merge x y s s' → same_class s u v → same_class s' u v.
Proof.
  intros [?|A comps' HC Hxy|A A' comps' a b HC -> -> Ha Hb]; [done| |];
    (intros [[Hu Hv]|(c & d & D & -> & -> & HD & Hc & Hd)]; [left|]).
  - unfold in_sub in *. destruct u, v; cbn; rewrite ?elem_of_app; auto.
  - rewrite HC, elem_of_cons in HD. destruct HD as [->|HD].
    + left. cbn. rewrite !elem_of_app. auto.
    + right. by exists c, d, D.
  - done.
  - right. rewrite HC, !elem_of_cons in HD. destruct HD as [->|[->|HD]].
    + exists c, d, (A ++ A'). cbn. rewrite !elem_of_app, list_elem_of_singleton. auto 10.
    + exists c, d, (A ++ A'). cbn. rewrite !elem_of_app, list_elem_of_singleton. auto 10.
    + exists c, d, D. cbn. rewrite !elem_of_app. auto 10.
Qed.

Lemma merge_joins x y s s' : merge x y s s' → same_class s' x y.
Proof.
  intros [?|A comps' HC (a & Ha & Hxy)|A A' comps' a b HC -> -> Ha Hb]; [done|left|right].
  - unfold in_sub in *. cbn. destruct Hxy as [[-> Hy]|[-> Hx]]; [destruct y|destruct x]; rewrite ?elem_of_app; auto.
  - exists a, b, (A ++ A'). cbn. rewrite !elem_of_app, list_elem_of_singleton. auto 10.
Qed.

(** Nothing else is joined. *)
Lemma merge_only x y s s' (E : relation vertex) u v : Equivalence E →
  (∀ u v, same_class s u v → E u v) → E x y → merge x y s s' → same_class s' u v → E u v.
Proof.
  intros HE Hs Hxy [?|A comps' HC (a & Ha & Hin)|A A' comps' a b HC -> -> Ha Hb]; [by apply Hs| |].
  - assert (∀ c, c ∈ A → E (Some c) (Some a)) as HA.
    { intros c Hc. apply Hs. right. exists c, a, A. rewrite HC. by repeat constructor. }
    assert (∀ w, in_sub (mkClasses (c_sub s ++ A) comps') w → E w None) as Hsub.
    { assert (∀ w, in_sub s w → E w None) as Hold by (intros w Hw; apply Hs; by left).
      assert (E (Some a) None) as Hnone.
      { destruct Hin as [[-> Hy]|[-> Hx]]; [etrans; [exact Hxy|by apply Hold]|].
        symmetry in Hxy. etrans; [exact Hxy|by apply Hold]. }
      intros [c|] Hw; [|reflexivity]. cbn in Hw. apply elem_of_app in Hw as [Hw|Hw]; [by apply Hold|].
      etrans; [by apply HA|done]. }
    intros [[Hu Hv]|(c & d & D & -> & -> & HD & Hc & Hd)].
    + etrans; [by apply Hsub|]. symmetry. by apply Hsub.
    + apply Hs. right. exists c, d, D. rewrite HC. cbn in HD. by repeat constructor.
  - assert (∀ c, c ∈ A ++ A' → E (Some c) (Some a)) as HA.
    { intros c [Hc|Hc]%elem_of_app.
      - apply Hs. right. exists c, a, A. rewrite HC. by repeat constructor.
      - symmetry. etrans; [exact Hxy|]. apply Hs. right. exists b, c, A'. rewrite HC. by repeat constructor. }
    intros [[Hu Hv]|(c & d & D & -> & -> & HD & Hc & Hd)]; [apply Hs; by left|].
    cbn in HD. rewrite elem_of_app, list_elem_of_singleton in HD. destruct HD as [HD| ->].
    + apply Hs. right. exists c, d, D. rewrite HC. by repeat constructor.
    + etrans; [by apply HA|]. symmetry. by apply HA.
Qed.

(** ** Components of a graph *)

(** [s] holds the components of the graph with the edges [edges]: every edge is inside a
    class, and the vertices of a class are connected. *)
Definition linked (edges : list (vertex * vertex)) (x y : vertex) : Prop := (x, y) ∈ edges.

Definition connected (edges : list (vertex * vertex)) : relation vertex := rtsc (linked edges).

Definition components (n : Z) (edges : list (vertex * vertex)) (s : classes) : Prop :=
  partition n s ∧ (∀ x y, (x, y) ∈ edges → same_class s x y) ∧ (∀ x y, same_class s x y → connected edges x y).

Lemma connected_mono edges edges' x y : edges ⊆ edges' → connected edges x y → connected edges' x y.
Proof. intros Hs. apply (rtsc_congruence id). intros u v. apply Hs. Qed.

Lemma components_merge n edges s x y s' :
  components n edges s → merge x y s s' → components n (edges ++ [(x, y)]) s'.
Proof.
  intros (Hp & Hin & Hout) Hm. split; [by eapply merge_partition|]. split.
  - intros u v. rewrite elem_of_app, list_elem_of_singleton. intros [Huv|[= -> ->]].
    + eapply merge_grows; eauto.
    + by eapply merge_joins.
  - intros u v Huv. eapply (merge_only x y s s'); [apply rtsc_equivalence| | |done|done].
    + intros u' v' H. eapply connected_mono; [|by apply Hout]. set_solver.
    + apply rtsc_lr. unfold linked. set_solver.
Qed.

(** The classes are exactly the connected components. *)
Lemma components_exact n edges s x y : components n edges s → (∀ a, x = Some a → 1 ≤ a ≤ n) →
  same_class s x y ↔ connected edges x y.
Proof.
  intros (Hp & Hin & Hout) Hx. split; [apply Hout|]. intros Hc.
  assert (same_class s x x) as Hrefl.
  { destruct x as [a|]; [|by left]. destruct (class_exists n s a Hp (Hx a eq_refl)) as [?|(A & ? & ?)]; [by left|].
    right. by exists a, a, A. }
  revert Hrefl. clear Hx. unfold connected, rtsc in Hc.
  induction Hc as [x|x y z Hxy _ IH]; [done|]. intros _.
  assert (same_class s x y) as Hs.
  { destruct Hxy as [Hxy|Hxy]; [by apply Hin|]. by apply same_class_sym, Hin. }
  eapply same_class_trans; [done|exact Hs|]. apply IH. eapply same_class_trans; [done| |exact Hs]. by apply same_class_sym.
Qed.
