(* ===== verification/ExistComp.v ===== *)
(** [create_connexe] of exist_optimize.c computes connected components.

    The lists of relation numbers live on the heap: components are concatenated in place
    and removed from the list of components by building a new one.  On conditions made of
    comparisons with at most two variables, the classes that the heap holds at the end are
    the connected components of the graph whose edges are the comparisons. *)

From stdpp Require Import relations.
From S2P Require Import Prelude Nodes Terms PgList ListSpec ListOps ListSets TrueVar TrueVarSpec.
From S2P Require Import Regions Semantics SelfOpt ExistOpt SplitProps Mutators CoddProps WalkerSpec ExistProps ExistGraph Samples.

Section Comp.
Context {B : Build}.

(** ** Reading *)

(** A list of integers. *)
Definition ints (h : heap) (p : option positive) (zs : list Z) : Prop := ∃ cs, holds ops_int h p cs zs.

Lemma contains_int_ok h p zs v : heap_ok h → ints h p zs → contains_int p v h = Ok (bool_decide (v ∈ zs), h).
Proof.
  intros Hok (cs & Hl & Hd). cbn in Hl, Hd. unfold contains_int.
  erewrite bind_Ok.
  2: { apply (foreach_readonly _ (λ d _, match d with DInt z => if z =? v then Done true else Cont () | _ => Cont () end) h T_IntList p cs); [done..|].
       intros l d [] Hin. destruct (is_list_cell _ _ _ _ _ _ Hl Hin) as [n Hc].
       assert (d ∈ DInt <$> zs) as (z & -> & _)%list_elem_of_fmap.
       { rewrite <- Hd. apply list_elem_of_fmap. by exists (l, d). }
       erewrite bind_Ok by by eapply lfirst_int_Ok. done. }
  unfold ret. do 2 f_equal. rewrite Hd. clear. induction zs as [|z zs IH]; [done|]. cbn.
  destruct (Z.eqb_spec z v) as [->|Hne]; [by rewrite bool_decide_eq_true_2 by constructor|].
  etrans; [exact IH|]. apply bool_decide_ext. rewrite elem_of_cons. naive_solver.
Qed.

(** The list of components, each readable. *)
Definition comps_at (h : heap) (p : option positive) (ps : list (option positive)) (comps : list (list Z)) : Prop :=
  (∃ cs, holds ops_ptr h p cs ps) ∧ Forall2 (ints h) ps comps.

(** The first component with [v]. *)
Fixpoint owner (v : Z) (ps : list (option positive)) (comps : list (list Z)) : option (option positive) :=
  match ps, comps with
  | p :: ps, zs :: comps => if bool_decide (v ∈ zs) then Some p else owner v ps comps
  | _, _ => None
  end.

Lemma return_list_ok h c ps comps sub v : heap_ok h → comps_at h (list_composantes_connexes c) ps comps →
  ints h (composante_connexe_sub_level c) sub →
  return_list v c h = Ok (match owner v ps comps with
    | Some p => p
    | None => if bool_decide (v ∈ sub) then composante_connexe_sub_level c else None
    end, h).
Proof.
  intros Hok [(cs & Hl & Hd) Hps] Hsub. cbn in Hl, Hd. unfold return_list.
  set (g := λ (d : datum) (_ : ()), match d with
    | DPtr p => match contains_int p v h with Ok (true, _) => Done p | _ => Cont () end | _ => Cont () end).
  erewrite bind_Ok.
  2: { apply (foreach_readonly _ g h T_List _ cs); [done..|].
       intros l d [] Hin. destruct (is_list_cell _ _ _ _ _ _ Hl Hin) as [n Hc].
       assert (d ∈ DPtr <$> ps) as (p & -> & Hp)%list_elem_of_fmap.
       { rewrite <- Hd. apply list_elem_of_fmap. by exists (l, d). }
       erewrite bind_Ok by by eapply lfirst_Ok. apply list_elem_of_lookup in Hp as [i Hi].
       destruct (Forall2_lookup_l _ _ _ _ _ Hps Hi) as (zs & _ & Hz). subst g. cbn.
       rewrite (bind_Ok _ _ _ _ _ (contains_int_ok h p zs v Hok Hz)), (contains_int_ok h p zs v Hok Hz).
       by case_bool_decide. }
  rewrite Hd. assert (run_loop g (DPtr <$> ps) () = match owner v ps comps with Some p => Done p | None => Cont () end) as ->.
  { clear -Hok Hps. induction Hps as [|p zs ps comps Hz _ IH]; [done|]. cbn.
    rewrite (contains_int_ok h p zs v Hok Hz). by case_bool_decide. }
  destruct (owner v ps comps); [done|]. rewrite (bind_Ok _ _ _ _ _ (contains_int_ok _ _ _ v Hok Hsub)). by case_bool_decide.
Qed.

(** ** Removing *)

(** The components without [v]. *)
Fixpoint keep {A : Type} (v : Z) (xs : list A) (comps : list (list Z)) : list A :=
  match xs, comps with
  | x :: xs, zs :: comps => if bool_decide (v ∈ zs) then keep v xs comps else x :: keep v xs comps
  | _, _ => []
  end.

Lemma remove_from_list_ok h c ps comps v : heap_ok h → comps_at h (list_composantes_connexes c) ps comps →
  ∃ p' cs' h', remove_from_list v c h = Ok (e_set_components p' c, h') ∧
    list_step h None [] h' T_List p' cs' ∧ ptrs cs' (keep v ps comps).
Proof.
  intros Hok [(cs & Hh) Hps]. unfold remove_from_list.
  set (sel := λ (_ : list (option positive)) p, match contains_int p v h with Ok (b, _) => negb b | _ => true end).
  edestruct (append_loop ops_ptr (λ cell result, compo <- lfirst cell;; b <- contains_int compo v;;
      if b : bool then ret (Cont result) else result <- lappend result compo;; ret (Cont result)) sel h
      (list_composantes_connexes c) cs ps None [] [])
    as (acc & cs' & h' & E & Hst & Hd); [done|done|by split|by intros ? _ ?%elem_of_nil| |].
  - intros h' acc cs' ys l p Hin Hok' Hfr Hacc Hp _. assert (footprint None [] = []) as Efp by done. rewrite Efp in Hfr.
    destruct Hh as [Hl _]. cbn in Hl. pose proof (is_list_frame [] h h' _ _ _ Hok Hfr ltac:(by intros ? _ ?%elem_of_nil) Hl) as Hl'.
    destruct (is_list_cell _ _ _ _ _ _ Hl' Hin) as [n Hc]. erewrite bind_Ok by (by eapply lfirst_Ok).
    apply list_elem_of_lookup in Hp as [i Hi]. destruct (Forall2_lookup_l _ _ _ _ _ Hps Hi) as (zs & _ & Hz).
    assert (ints h' p zs) as Hz'.
    { destruct Hz as [csz Hz]. exists csz. eapply (holds_frame ops_int); [exact Hok|exact Hfr|by intros ? _ ?%elem_of_nil|done]. }
    rewrite (bind_Ok _ _ _ _ _ (contains_int_ok h' p zs v Hok' Hz')). subst sel. cbn.
    rewrite (contains_int_ok h p zs v Hok Hz). by case_bool_decide.
  - exists acc, cs', h'. split; [by erewrite bind_Ok by exact E|]. split; [exact Hst|]. unfold ptrs. cbn in Hd. rewrite Hd. f_equal.
    clear -Hok Hps. enough (∀ a, fold_left (λ a x, if sel a x then a ++ [x] else a) ps a = a ++ keep v ps comps) as H by apply (H []).
    induction Hps as [|p zs ps comps Hz _ IH]; intros a; cbn; [by rewrite app_nil_r|]. rewrite IH. subst sel. cbn.
    rewrite (contains_int_ok h p zs v Hok Hz). case_bool_decide; cbn; [done|]. by rewrite <- app_assoc.
Qed.

(** A component, found by one of its numbers. *)
Lemma owner_split v p A ps1 ps2 l1 l2 : length ps1 = length l1 → Forall (λ zs, v ∉ zs) l1 → v ∈ A →
  owner v (ps1 ++ p :: ps2) (l1 ++ A :: l2) = Some p.
Proof.
  revert l1. induction ps1 as [|q ps1 IH]; intros [|z l1] Hlen H1 HA; try done; cbn.
  - by rewrite bool_decide_eq_true_2.
  - apply Forall_cons in H1 as [Hz H1]. rewrite bool_decide_eq_false_2 by done. apply IH; [by injection Hlen|done..].
Qed.

Lemma keep_none {A : Type} v (xs : list A) l : length xs = length l → Forall (λ zs, v ∉ zs) l → keep v xs l = xs.
Proof.
  revert l. induction xs as [|x xs IH]; intros [|z l] Hlen H; try done; cbn. apply Forall_cons in H as [Hz H].
  rewrite bool_decide_eq_false_2 by done. by rewrite IH by (done || by injection Hlen).
Qed.

Lemma keep_split {X : Type} v A (x : X) xs1 xs2 l1 l2 :
  length xs1 = length l1 → length xs2 = length l2 → Forall (λ zs, v ∉ zs) l1 → Forall (λ zs, v ∉ zs) l2 → v ∈ A →
  keep v (xs1 ++ x :: xs2) (l1 ++ A :: l2) = xs1 ++ xs2.
Proof.
  revert l1. induction xs1 as [|y xs1 IH]; intros [|z l1] Hlen Hlen2 H1 H2 HA; try done; cbn.
  - rewrite bool_decide_eq_true_2 by done. by apply keep_none.
  - apply Forall_cons in H1 as [Hz H1]. rewrite bool_decide_eq_false_2 by done. rewrite IH by (done || by injection Hlen). done.
Qed.

(** ** The context *)

(** A list of integers on the heap that holds [zs]. *)
Definition int_cells (l : hlist) (zs : list Z) : Prop := l.2.*2 = DInt <$> zs.

(** The classes [s], kept apart from each other and from the lists [R]. *)
Definition cinv (R : list tlist) (h : heap) (c : context_exists) (s : classes) : Prop := ∃ csS csC pcs,
  tsep (λ _, False) h ((T_IntList, (composante_connexe_sub_level c, csS)) :: (T_List, (list_composantes_connexes c, csC)) ::
    (pair T_IntList <$> pcs) ++ R) ∧
  csS.*2 = DInt <$> c_sub s ∧ ptrs csC pcs.*1 ∧ Forall2 int_cells pcs (c_comps s).

Lemma tsep_ints P h ls l zs : tsep P h ls → (T_IntList, l) ∈ ls → int_cells l zs → ints h l.1 zs.
Proof. intros Hs Hin Hz. exists l.2. split; [exact (tsep_elem _ _ _ _ Hs Hin)|exact Hz]. Qed.

Lemma int_lists h pcs comps : Forall2 int_cells pcs comps → (∀ l, l ∈ pcs → is_list h T_IntList l.1 l.2) →
  Forall2 (ints h) pcs.*1 comps.
Proof.
  intros Hz Hl. rewrite Forall2_fmap_l. induction Hz as [|l zs pcs comps Hlz _ IH]; constructor.
  - exists l.2. split; [apply Hl; left|exact Hlz].
  - apply IH. intros l' Hl'. apply Hl. by right.
Qed.

(** Reading the components of a separated heap. *)
Lemma comps_at_sep h ls p csC (pcs : list hlist) comps : tsep (λ _, False) h ls → (T_List, (p, csC)) ∈ ls → ptrs csC pcs.*1 →
  Forall2 int_cells pcs comps → (∀ l, l ∈ pcs → is_list h T_IntList l.1 l.2) → comps_at h p pcs.*1 comps.
Proof.
  intros Hs Hin HC Hz Hl. split; [|by apply int_lists]. exists csC. split; [|exact HC].
  exact (tsep_elem _ _ (T_List, (p, csC)) _ Hs Hin).
Qed.

Lemma tagged_elem (l : hlist) pcs (R : list tlist) : l ∈ pcs → (T_IntList, l) ∈ (pair T_IntList <$> pcs) ++ R.
Proof. intros Hl. apply elem_of_app. left. apply list_elem_of_fmap. by exists l. Qed.

Lemma cinv_reads R h c s : cinv R h c s → heap_ok h ∧ ints h (composante_connexe_sub_level c) (c_sub s).
Proof.
  intros (csS & csC & pcs & Hs & HS & HC & Hz). split; [apply Hs|].
  eapply (tsep_ints _ _ _ (composante_connexe_sub_level c, csS)); [exact Hs|left|exact HS].
Qed.

(** A class, taken out of the list of components. *)
Lemma comps_split (sub : list Z) comps (pcs : list hlist) A : NoDup (concat comps ++ sub) → Forall2 int_cells pcs comps →
  A ∈ comps → ∃ l1 l2 q1 q2 l, comps = l1 ++ A :: l2 ∧ pcs = q1 ++ l :: q2 ∧ length q1 = length l1 ∧ length q2 = length l2 ∧
    int_cells l A ∧ Forall2 int_cells (q1 ++ q2) (l1 ++ l2) ∧
    ∀ v, v ∈ A → Forall (λ zs, v ∉ zs) l1 ∧ Forall (λ zs, v ∉ zs) l2.
Proof.
  intros Hp Hz HA. apply list_elem_of_split in HA as (l1 & l2 & ->).
  apply Forall2_app_inv_r in Hz as (q1 & q' & H1 & H2 & ->). apply Forall2_cons_inv_r in H2 as (l & q2 & Hl & H2 & ->).
  exists l1, l2, q1, q2, l. split_and!; try done; [by eapply Forall2_length|by eapply Forall2_length|by apply Forall2_app|].
  apply NoDup_app in Hp as (Hp & _ & _). rewrite concat_app in Hp.
  apply NoDup_app in Hp as (_ & Hp1 & Hp2). cbn in Hp1, Hp2. apply NoDup_app in Hp2 as (_ & Hp2 & _).
  intros v Hv. split; apply Forall_forall; intros zs Hzs Hv'.
  - apply (Hp1 v); [apply concat_elem; eauto|]. apply elem_of_app. by left.
  - apply (Hp2 v); [done|]. apply concat_elem. eauto.
Qed.

(** ** The steps of [connexe_var] *)

Definition cursor_kept (c c' : context_exists) : Prop := varno_en_cours c' = varno_en_cours c ∧ var_sub c' = var_sub c.

(** The list of a class: the result of [return_list] for its numbers. *)
Lemma owner_found s c h R A : NoDup (concat (c_comps s) ++ c_sub s) → cinv R h c s → A ∈ c_comps s →
  ∃ l1 l2 q1 q2 l csS csC, c_comps s = l1 ++ A :: l2 ∧ length q1 = length l1 ∧ length q2 = length l2 ∧
    tsep (λ _, False) h ((T_IntList, (composante_connexe_sub_level c, csS)) :: (T_IntList, l) ::
      (T_List, (list_composantes_connexes c, csC)) :: (pair T_IntList <$> q1 ++ q2) ++ R) ∧
    csS.*2 = DInt <$> c_sub s ∧ ptrs csC (q1 ++ l :: q2).*1 ∧ int_cells l A ∧ Forall2 int_cells (q1 ++ q2) (l1 ++ l2) ∧
    comps_at h (list_composantes_connexes c) (q1 ++ l :: q2).*1 (l1 ++ A :: l2) ∧
    ∀ v, v ∈ A → Forall (λ zs, v ∉ zs) l1 ∧ Forall (λ zs, v ∉ zs) l2 ∧ return_list v c h = Ok (l.1, h).
Proof.
  intros Hp Hc HA. pose proof (cinv_reads _ _ _ _ Hc) as (Hok & Hsub). destruct s as [sub comps].
  destruct Hc as (csS & csC & pcs & Hs & HS & HC & Hz). cbn in *.
  destruct (comps_split sub comps pcs A Hp Hz HA) as (l1 & l2 & q1 & q2 & l & -> & -> & Hq1 & Hq2 & Hl & Hz' & Hv).
  assert (comps_at h (list_composantes_connexes c) (q1 ++ l :: q2).*1 (l1 ++ A :: l2)) as Hat.
  { eapply comps_at_sep; [exact Hs|right; left|done|done|]. intros l' Hl'. apply (tsep_elem _ _ (T_IntList, l') _ Hs).
    do 2 right. by apply tagged_elem. }
  exists l1, l2, q1, q2, l, csS, csC. split_and!; try done.
  - eapply tsep_perm; [|exact Hs]. rewrite !fmap_app, fmap_cons. solve_Permutation.
  - intros v HvA. destruct (Hv v HvA) as [H1 H2]. split; [done|]. split; [done|].
    rewrite (return_list_ok h c _ _ sub v Hok Hat Hsub), fmap_app, fmap_cons, owner_split; [done|by rewrite length_fmap|done..].
Qed.

(** Removing a component whose list is still readable. *)
Lemma remove_component h c csC (q1 q2 : list hlist) l A l1 l2 v ls :
  tsep (λ _, False) h ((T_List, (list_composantes_connexes c, csC)) :: ls) → ptrs csC (q1 ++ l :: q2).*1 →
  is_list h T_IntList l.1 l.2 → (∀ l', l' ∈ q1 ++ q2 → (T_IntList, l') ∈ ls) →
  length q1 = length l1 → length q2 = length l2 → int_cells l A → Forall2 int_cells (q1 ++ q2) (l1 ++ l2) →
  Forall (λ zs, v ∉ zs) l1 → Forall (λ zs, v ∉ zs) l2 → v ∈ A →
  ∃ p' cs' h', remove_from_list v c h = Ok (e_set_components p' c, h') ∧
    tsep (λ _, False) h' ((T_List, (p', cs')) :: ls) ∧ ptrs cs' (q1 ++ q2).*1.
Proof.
  intros Hs HC Hl Hls Hq1 Hq2 HA Hz H1 H2 Hv.
  destruct (remove_from_list_ok h c (q1 ++ l :: q2).*1 (l1 ++ A :: l2) v) as (p' & cs' & h' & E & Hst & Hd).
  - apply Hs.
  - eapply comps_at_sep; [exact Hs|left|done| |].
    + apply Forall2_app_inv in Hz as [Hz1 Hz2]; [|done]. apply Forall2_app; [done|]. by constructor.
    + intros l'. rewrite elem_of_app, elem_of_cons. intros Hl'.
      assert (l' = l ∨ l' ∈ q1 ++ q2) as [->|Hin] by (rewrite elem_of_app; naive_solver); [done|].
      apply (tsep_elem _ _ (T_IntList, l') _ Hs). right. auto.
  - exists p', cs', h'. split; [done|].
    rewrite fmap_app, fmap_cons, keep_split in Hd; [|by rewrite length_fmap..|done|done|done].
    split; [|by rewrite fmap_app]. apply (tsep_nil _ _ T_List) in Hs.
    destruct (tsep_step _ _ _ _ _ _ _ _ _ Hs Hst) as [Hs' _].
    apply (tsep_drop _ _ (T_List, (list_composantes_connexes c, csC))). eapply tsep_perm; [|exact Hs']. solve_Permutation.
Qed.

(** A component joins the relations of the outer query. *)
Lemma absorb_ok s c h R v A : NoDup (concat (c_comps s) ++ c_sub s) → cinv R h c s → A ∈ c_comps s → v ∈ A →
  ∃ c' h' comps', (b <- return_list v c;; l <- list_concat (composante_connexe_sub_level c) b;;
      remove_from_list v (e_set_sub_level l c)) h = Ok (c', h') ∧ cursor_kept c c' ∧
    c_comps s ≡ₚ A :: comps' ∧ cinv R h' c' (mkClasses (c_sub s ++ A) comps').
Proof.
  intros Hp Hc HA Hv. destruct (owner_found s c h R A Hp Hc HA)
    as (l1 & l2 & q1 & q2 & [p cs] & csS & csC & Hcomps & Hq1 & Hq2 & Hs & HS & HC & Hl & Hz & _ & Hown).
  destruct (Hown v Hv) as (H1 & H2 & E).
  destruct (tsep_concat _ _ _ _ _ _ _ _ Hs) as (sub' & h1 & E1 & Hs1 & _ & Hl1).
  destruct (remove_component h1 (e_set_sub_level sub' c) csC q1 q2 (p, cs) A l1 l2 v
    ((T_IntList, (sub', csS ++ cs)) :: (pair T_IntList <$> q1 ++ q2) ++ R)) as (p' & cs' & h2 & E2 & Hs2 & Hd); try done.
  { eapply tsep_perm; [|exact Hs1]. cbn. solve_Permutation. }
  { intros l' Hl'. right. by apply tagged_elem. }
  eexists _, h2, (l1 ++ l2). split.
  { erewrite bind_Ok by exact E. erewrite bind_Ok by exact E1. exact E2. }
  split; [done|]. split; [rewrite Hcomps; solve_Permutation|].
  exists (csS ++ cs), cs', (q1 ++ q2). split_and!; try done.
  - eapply tsep_perm; [|exact Hs2]. cbn. solve_Permutation.
  - cbn. unfold int_cells in Hl. cbn in Hl. by rewrite !fmap_app, HS, Hl.
Qed.

Lemma owner_skip v p A ps1 ps2 l1 l2 : length ps1 = length l1 → v ∉ A →
  owner v (ps1 ++ p :: ps2) (l1 ++ A :: l2) = owner v (ps1 ++ ps2) (l1 ++ l2).
Proof.
  revert l1. induction ps1 as [|q ps1 IH]; intros [|z l1] Hlen HA; try done; cbn.
  - by rewrite bool_decide_eq_false_2.
  - case_bool_decide; [done|]. apply IH; [by injection Hlen|done].
Qed.

(** A component is taken out of the list, and kept aside; the others stay where they
    are. *)
Lemma take_out s c h R v A : NoDup (concat (c_comps s) ++ c_sub s) → cinv R h c s → A ∈ c_comps s → v ∈ A →
  ∃ l p' h' comps', let c' := e_set_components p' c in
    (∀ w, w ∈ A → return_list w c h = Ok (l.1, h)) ∧ remove_from_list v c h = Ok (c', h') ∧
    c_comps s ≡ₚ A :: comps' ∧ int_cells l A ∧ cinv ((T_IntList, l) :: R) h' c' (mkClasses (c_sub s) comps') ∧
    ∀ w q, w ∉ A → return_list w c' h' = Ok (q, h') → return_list w c h = Ok (q, h).
Proof.
  intros Hp Hc HA Hv. pose proof (cinv_reads _ _ _ _ Hc) as (Hok & Hsub). destruct (owner_found s c h R A Hp Hc HA)
    as (l1 & l2 & q1 & q2 & l & csS & csC & Hcomps & Hq1 & Hq2 & Hs & HS & HC & Hl & Hz & Hat & Hown).
  destruct (Hown v Hv) as (H1 & H2 & _).
  destruct (remove_component h c csC q1 q2 l A l1 l2 v
    ((T_IntList, (composante_connexe_sub_level c, csS)) :: (T_IntList, l) :: (pair T_IntList <$> q1 ++ q2) ++ R)) as (p' & cs' & h2 & E2 & Hs2 & Hd); try done.
  { eapply tsep_perm; [|exact Hs]. cbn. solve_Permutation. }
  { apply (tsep_elem _ _ (T_IntList, l) _ Hs). right. left. }
  { intros l' Hl'. do 2 right. by apply tagged_elem. }
  assert (cinv ((T_IntList, l) :: R) h2 (e_set_components p' c) (mkClasses (c_sub s) (l1 ++ l2))) as Hc2.
  { exists csS, cs', (q1 ++ q2). split_and!; try done. eapply tsep_perm; [|exact Hs2]. cbn. solve_Permutation. }
  exists l, p', h2, (l1 ++ l2). split_and!; try done; [intros w Hw; by apply Hown|rewrite Hcomps; solve_Permutation|].
  intros w q Hw Ew. pose proof (cinv_reads _ _ _ _ Hc2) as (Hok2 & Hsub2).
  rewrite (return_list_ok h2 _ (q1 ++ q2).*1 (l1 ++ l2) (c_sub s) w Hok2) in Ew; [| |done].
  - rewrite (return_list_ok h c _ _ _ w Hok Hat Hsub), fmap_app, fmap_cons, owner_skip by (by rewrite ?length_fmap).
    rewrite fmap_app in Ew. by injection Ew as <-.
  - eapply comps_at_sep; [exact Hs2|left|done|done|]. intros l' Hl'. apply (tsep_elem _ _ (T_IntList, l') _ Hs2).
    do 3 right. by apply tagged_elem.
Qed.

Lemma lists_differ P h t t' p cs p' cs' R :
  tsep P h ((t, (p, cs)) :: (t', (p', cs')) :: R) → cs ≠ [] → p ≠ p'.
Proof.
  intros (_ & _ & [[Hl _] _]%Forall_cons & Hpw) Hne <-. rewrite !fmap_cons in Hpw. destruct Hpw as [[Hd _]%Forall_cons _].
  destruct p as [x|]; [|cbn in Hl; by subst cs]. apply (Hd x); apply elem_footprint; by left.
Qed.

(** Two components become one. *)
Lemma join_ok s c h R v w A A' comps' : NoDup (concat (c_comps s) ++ c_sub s) → cinv R h c s →
  c_comps s ≡ₚ A :: A' :: comps' → v ∈ A → w ∈ A' →
  ∃ c' h' comps'', (a <- return_list v c;; b <- return_list w c;;
      if bool_decide (a = b) then ret c
      else
        ctx <- remove_from_list v c;;
        ctx <- remove_from_list w ctx;;
        ab <- list_concat a b;;
        l <- lappend (list_composantes_connexes ctx) ab;;
        ret (e_set_components l ctx)) h = Ok (c', h') ∧ cursor_kept c c' ∧
    c_comps s ≡ₚ A :: A' :: comps'' ∧ cinv R h' c' (mkClasses (c_sub s) (comps'' ++ [A ++ A'])).
Proof.
  intros Hp Hc HC Hv Hw.
  assert (NoDup ((A ++ A' ++ concat comps') ++ c_sub s)) as Hnd by (rewrite HC in Hp; exact Hp).
  assert (w ∉ A) as HwA.
  { apply NoDup_app in Hnd as (Hnd & _ & _). apply NoDup_app in Hnd as (_ & Hnd & _). intros HwA. apply (Hnd w HwA).
    apply elem_of_app. by left. }
  destruct (take_out s c h R v A Hp Hc) as (l & p1 & h1 & comps1 & Ha & E1 & Hperm1 & Hl & Hc1 & Hst); [rewrite HC; left|done|].
  assert (A' :: comps' ≡ₚ comps1) as Hperm1' by (apply (Permutation_cons_inv (a := A)); by rewrite <- HC, <- Hperm1).
  assert (NoDup (concat comps1 ++ c_sub s)) as Hp1.
  { rewrite <- Hperm1'. cbn. rewrite <- app_assoc in Hnd. by apply NoDup_app in Hnd as (_ & _ & Hnd). }
  destruct (take_out (mkClasses (c_sub s) comps1) _ h1 _ w A' Hp1 Hc1) as (l' & p2 & h2 & comps2 & Hb & E2 & Hperm2 & Hl' & Hc2 & _); [cbn; rewrite <- Hperm1'; left|done|].
  destruct l as [a csA], l' as [b csB]. cbn in Hl, Hl', Ha, Hb.
  destruct Hc2 as (csS & csC & pcs & Hs & HS & HCC & Hz). cbn in HS, Hz.
  assert (tsep (λ _, False) h2 ((T_IntList, (a, csA)) :: (T_IntList, (b, csB)) :: (T_List, (p2, csC)) ::
    (T_IntList, (composante_connexe_sub_level c, csS)) :: (pair T_IntList <$> pcs) ++ R)) as Hs'.
  { eapply tsep_perm; [|exact Hs]. cbn. solve_Permutation. }
  assert (a ≠ b) as Hab.
  { eapply lists_differ; [exact Hs'|]. intros ->. unfold int_cells in Hl. cbn in Hl. symmetry in Hl. apply fmap_nil_inv in Hl.
    subst A. by apply elem_of_nil in Hv. }
  destruct (tsep_concat _ _ _ _ _ _ _ _ Hs') as (ab & h3 & E3 & Hs3 & _ & _).
  assert (tsep (λ _, False) h3 ((T_List, (p2, csC)) :: (T_IntList, (ab, csA ++ csB)) ::
    (T_IntList, (composante_connexe_sub_level c, csS)) :: (pair T_IntList <$> pcs) ++ R)) as Hs4.
  { eapply tsep_perm; [|exact Hs3]. solve_Permutation. }
  destruct (lappend_gen_ok h3 T_List p2 csC (DPtr ab)) as (p4 & x & h4 & E4 & Hst4 & _);
    [apply Hs4|by apply (tsep_elem _ _ (T_List, (p2, csC)) _ Hs4); left|].
  destruct (tsep_step _ _ _ _ _ _ _ _ _ Hs4 Hst4) as [Hs5 _].
  eexists _, h4, comps2. split_and!.
  - erewrite bind_Ok by (by apply Ha). erewrite bind_Ok by (apply Hst; [done|by apply Hb]). rewrite bool_decide_eq_false_2 by done.
    erewrite bind_Ok by exact E1. erewrite bind_Ok by exact E2. erewrite bind_Ok by exact E3. by erewrite bind_Ok by exact E4.
  - done.
  - cbn in Hperm2. by rewrite Hperm1, Hperm2.
  - exists csS, (csC ++ [(x, DPtr ab)]), (pcs ++ [(ab, csA ++ csB)]). split_and!.
    + eapply tsep_perm; [|exact Hs5]. rewrite fmap_app. cbn. solve_Permutation.
    + done.
    + rewrite fmap_app. by apply ptrs_snoc.
    + apply Forall2_app; [done|]. constructor; [|constructor]. unfold int_cells. cbn. by rewrite !fmap_app, Hl, Hl'.
Qed.

(** ** Comparisons *)

Definition end_of (v : var) : vertex := if varlevelsup v =? 0 then Some (varno v) else None.

Definition scoped (n : Z) (v : var) : Prop := 0 ≤ varlevelsup v ∧ 1 ≤ varno v ∧ (varlevelsup v = 0 → varno v ≤ n).

Lemma is_sub_ok R h c s v : cinv R h c s → is_sub v c h = Ok (bool_decide (v ∈ c_sub s), h).
Proof. intros Hc. destruct (cinv_reads _ _ _ _ Hc). by apply contains_int_ok. Qed.

(** The first variable of a comparison sets the cursor. *)
Definition at_cursor (s : classes) (v : var) (c c1 : context_exists) : Prop :=
  composante_connexe_sub_level c1 = composante_connexe_sub_level c ∧
  list_composantes_connexes c1 = list_composantes_connexes c ∧ varno_en_cours c1 = varno v ∧
  if var_sub c1 then in_sub s (end_of v) else varlevelsup v = 0 ∧ varno v ∉ c_sub s.

Lemma first_var_ok R h c s n v : cinv R h c s → scoped n v → varno_en_cours c = -1 → var_sub c = false →
  ∃ c1, connexe_var v c h = Ok (c1, h) ∧ at_cursor s v c c1.
Proof.
  intros Hc (Hlv & _ & _) Hcur Hvs. unfold connexe_var. rewrite Hcur. cbn [Z.eqb Pos.eqb].
  assert (cinv R h (e_set_varno (varno v) c) s) as Hc' by exact Hc.
  destruct (Z.ltb_spec 0 (varlevelsup v)) as [Hgt|Hle].
  - eexists. split; [reflexivity|]. split_and!; try done. cbn. unfold end_of. by rewrite (proj2 (Z.eqb_neq _ 0)) by lia.
  - eexists. split; [by erewrite bind_Ok by (by eapply is_sub_ok)|]. case_bool_decide as Hin; split_and!; try done; cbn.
    + unfold end_of. by rewrite (proj2 (Z.eqb_eq _ 0)) by lia.
    + rewrite Hvs. split; [lia|done].
Qed.

Lemma at_cursor_cinv R h c c1 s v : cinv R h c s → at_cursor s v c c1 → cinv R h c1 s.
Proof. intros Hc (E1 & E2 & _). unfold cinv. by rewrite E1, E2. Qed.

(** The second merges the classes of the two. *)
Lemma second_var_ok h c c1 s n v w : partition n s → cinv [] h c s → at_cursor s v c c1 → scoped n v → scoped n w →
  ∃ c2 h2 s', connexe_var w c1 h = Ok (c2, h2) ∧ cinv [] h2 c2 s' ∧ merge (end_of v) (end_of w) s s'.
Proof.
  intros Hp Hc Hat (Hlv & Hnov & Hv) (Hlw & Hnow & Hw). pose proof (partition_NoDup _ _ Hp) as Hnd.
  pose proof (at_cursor_cinv _ _ _ _ _ _ Hc Hat) as Hc1. destruct Hat as (_ & _ & Hcur & Hvs).
  unfold connexe_var. rewrite Hcur. rewrite (proj2 (Z.eqb_neq (varno v) (-1))) by lia.
  rewrite (bind_Ok _ _ _ _ _ (is_sub_ok _ _ _ _ (varno w) Hc1)).
  set (sub := bool_decide (varno w ∈ c_sub s)).
  assert (if sub || (0 <? varlevelsup w) then in_sub s (end_of w) else varlevelsup w = 0 ∧ varno w ∉ c_sub s) as Hws.
  { subst sub. unfold end_of. case_bool_decide as Hin; cbn [orb]; destruct (Z.eqb_spec (varlevelsup w) 0) as [Hw0|Hne]; try done.
    - by rewrite Hw0.
    - by rewrite (proj2 (Z.ltb_lt 0 (varlevelsup w))) by lia. }
  assert (∀ u, varlevelsup u = 0 → scoped n u → varno u ∉ c_sub s → ∃ A, A ∈ c_comps s ∧ varno u ∈ A ∧ end_of u = Some (varno u)) as Hcomp.
  { intros u Hu0 (_ & Hu1 & Hu2) Hnot. destruct (class_exists n s (varno u) Hp) as [?|(A & HA & HuA)]; [lia|done|].
    exists A. split; [done|]. split; [done|]. unfold end_of. by rewrite Hu0. }
  assert (var_sub c1 && negb sub && (varlevelsup w =? 0) = var_sub c1 && negb (sub || (0 <? varlevelsup w))) as ->.
  { destruct (var_sub c1), sub; try done. cbn [andb negb orb]. destruct (Z.eqb_spec (varlevelsup w) 0); destruct (Z.ltb_spec 0 (varlevelsup w)); done || lia. }
  destruct (var_sub c1), (sub || (0 <? varlevelsup w)); cbn [andb negb].
  - exists c1, h, s. split_and!; [done|done|]. apply merge_none. by left.
  - destruct Hws as [Hw0 Hwn]. destruct (Hcomp w Hw0 ltac:(by split_and!) Hwn) as (A & HA & HwA & Ew).
    destruct (absorb_ok s c1 h [] (varno w) A Hnd Hc1 HA HwA) as (c2 & h2 & comps' & E & _ & HC & Hc2).
    exists c2, h2, (mkClasses (c_sub s ++ A) comps'). split_and!; [exact E|done|].
    apply (merge_sub _ _ _ A); [done|]. exists (varno w). auto.
  - destruct Hvs as [Hv0 Hvn]. destruct (Hcomp v Hv0 ltac:(by split_and!) Hvn) as (A & HA & HvA & Ev).
    destruct (absorb_ok s c1 h [] (varno v) A Hnd Hc1 HA HvA) as (c2 & h2 & comps' & E & _ & HC & Hc2).
    exists c2, h2, (mkClasses (c_sub s ++ A) comps'). split_and!; [exact E|done|].
    apply (merge_sub _ _ _ A); [done|]. exists (varno v). auto.
  - destruct Hvs as [Hv0 Hvn]. destruct Hws as [Hw0 Hwn].
    destruct (Hcomp v Hv0 ltac:(by split_and!) Hvn) as (A & HA & HvA & Ev).
    destruct (Hcomp w Hw0 ltac:(by split_and!) Hwn) as (A' & HA' & HwA & Ew).
    destruct (decide (A = A')) as [<-|Hne].
    + destruct (owner_found s c1 h [] A Hnd Hc1 HA) as (l1 & l2 & q1 & q2 & l & csS & csC & _ & _ & _ & _ & _ & _ & _ & _ & _ & Hown).
      exists c1, h, s. split_and!; [|done|].
      * erewrite bind_Ok by (by apply Hown). erewrite bind_Ok by (by apply Hown). by rewrite bool_decide_eq_true_2.
      * apply merge_none. right. exists (varno v), (varno w), A. by rewrite Ev, Ew.
    + assert (∃ comps', c_comps s ≡ₚ A :: A' :: comps') as [comps' HC].
      { apply list_elem_of_split in HA as (l1 & l2 & EA). rewrite EA in HA'.
        assert (A' ∈ l1 ++ l2) as HA2 by (rewrite elem_of_app, elem_of_cons in HA'; rewrite elem_of_app; naive_solver).
        apply elem_of_Permutation in HA2 as [comps' HA2]. exists comps'. rewrite EA, <- HA2. solve_Permutation. }
      destruct (join_ok s c1 h [] (varno v) (varno w) A A' comps' Hnd Hc1 HC HvA HwA) as (c2 & h2 & comps2 & E & _ & HC2 & Hc2).
      exists c2, h2, (mkClasses (c_sub s) (comps2 ++ [A ++ A'])). split_and!; [exact E|done|].
      by apply (merge_two _ _ _ A A' comps2 (varno v) (varno w)).
Qed.

(** ** Conditions *)

(** The edge of a comparison of two variables. *)
Definition edge_of (vs : list var) : list (vertex * vertex) :=
  match vs with [v; w] => [(end_of v, end_of w)] | _ => [] end.

Fixpoint edges (q : node) : list (vertex * vertex) :=
  match q with
  | OpExpr _ args => edge_of (term_vars args)
  | BoolExpr _ (NList l) _ => concat (map edges l)
  | _ => []
  end.

Definition scopedb (n : Z) (v : var) : bool :=
  (0 <=? varlevelsup v) && (1 <=? varno v) && (negb (varlevelsup v =? 0) || (varno v <=? n)).

(** Conditions made of comparisons with at most two variables. *)
Fixpoint join_cond (n : Z) (q : node) : bool :=
  match q with
  | OpExpr _ (NList args) =>
      forallb is_term args && (length (term_vars (NList args)) <=? 2)%nat && forallb (scopedb n) (term_vars (NList args))
  | BoolExpr _ (NList l) _ => forallb (join_cond n) l
  | _ => false
  end.

Lemma scopedb_ok n v : scopedb n v = true → scoped n v.
Proof. unfold scopedb. rewrite !andb_true_iff, orb_true_iff, negb_true_iff, !Z.leb_le, Z.eqb_neq. intros. split_and!; naive_solver. Qed.

(** Walking a term is visiting its variables. *)
Fixpoint visit (vs : list var) : M (heap * context_exists) bool :=
  match vs with [] => ret false | v :: vs => b <- create_connexe (Var v);; if b then ret true else visit vs end.

Lemma visit_app vs vs' st : visit (vs ++ vs') st = (b <- visit vs;; if b then ret true else visit vs') st.
Proof.
  revert st. induction vs as [|v vs IH]; intros st; [done|]. cbn [app visit]. rewrite bind_assoc. unfold bind at 1 2.
  destruct (create_connexe (Var v) st) as [[[] st1]|e]; [done| |done]. apply IH.
Qed.

Lemma term_visits q : (is_term q = true → ∀ st, create_connexe q st = visit (term_vars q) st) ∧
  ∀ l, q = NList l → forallb is_term l = true → ∀ st, walk_list create_connexe l st = visit (term_vars q) st.
Proof.
  induction q using node_ind'; destruct_and?; (split; [|intros l' [=]; subst; try done]); try done.
  - intros _ st. cbn [term_vars visit]. unfold bind. by destruct (create_connexe (Var v) st) as [[[] ?]|].
  - destruct q; try done. intros [_ Ht]%bool_nonempty st. by apply H0.
  - clear -H. induction H as [|x l [Hx _] _ IH]; intros Ht st; [done|]. cbn in Ht. apply andb_true_iff in Ht as [Htx Ht].
    rewrite term_vars_cons, visit_app. cbn [walk_list]. unfold bind. rewrite (Hx Htx st).
    destruct (visit (term_vars x) st) as [[[] st1]|]; [done| |done]. by apply IH.
Qed.

Definition idle_cursor (c : context_exists) : Prop := varno_en_cours c = -1 ∧ var_sub c = false.

Definition connects (n : Z) (run : M (heap * context_exists) bool) (es' : list (vertex * vertex)) : Prop :=
  ∀ h c s es, components n es s → cinv [] h c s → idle_cursor c →
  ∃ h' c' s', run (h, c) = Ok (false, (h', c')) ∧ cinv [] h' c' s' ∧ idle_cursor c' ∧ components n (es ++ es') s'.

Lemma visit_var v h c c' h' vs : connexe_var v c h = Ok (c', h') → visit (v :: vs) (h, c) = visit vs (h', c').
Proof. intros E. cbn. unfold bind, zoom, getc, modc, ret. cbn. by rewrite E. Qed.

Lemma op_connects n o args : join_cond n (OpExpr o (NList args)) = true →
  connects n (create_connexe (OpExpr o (NList args))) (edges (OpExpr o (NList args))).
Proof.
  cbn [join_cond edges]. rewrite !andb_true_iff, Nat.leb_le. intros [[Ht Hlen] Hsc] h c s es Hcomp Hc [Hcur Hvs].
  apply forallb_Forall in Hsc.
  enough (∃ h' c' s', visit (term_vars (NList args)) (h, c) = Ok (false, (h', c')) ∧ cinv [] h' c' s' ∧
    components n (es ++ edge_of (term_vars (NList args))) s') as (h' & c' & s' & E & Hc' & Hcomp').
  { exists h', (e_set_var_sub false (e_set_varno (-1) c')), s'. split_and!; try done.
    cbn [create_connexe expression_tree_walker walk_args].
    erewrite bind_Ok by (rewrite (proj2 (term_visits (NList args)) _ eq_refl Ht); exact E). done. }
  destruct (term_vars (NList args)) as [|v [|w [|? ?]]]; [| | |cbn in Hlen; lia].
  - exists h, c, s. cbn. rewrite app_nil_r. done.
  - apply Forall_cons in Hsc as [Hv _]. destruct (first_var_ok _ h c s n v Hc (scopedb_ok _ _ Hv) Hcur Hvs) as (c1 & E & Hat).
    exists h, c1, s. rewrite (visit_var _ _ _ _ _ _ E). cbn. rewrite app_nil_r. split_and!; try done. by eapply at_cursor_cinv.
  - apply Forall_cons in Hsc as [Hv [Hw _]%Forall_cons]. apply scopedb_ok in Hv, Hw.
    destruct (first_var_ok _ h c s n v Hc Hv Hcur Hvs) as (c1 & E & Hat).
    destruct (second_var_ok h c c1 s n v w (proj1 Hcomp) Hc Hat Hv Hw) as (c2 & h2 & s' & E2 & Hc2 & Hm).
    exists h2, c2, s'. rewrite (visit_var _ _ _ _ _ _ E), (visit_var _ _ _ _ _ _ E2). split_and!; try done.
    by apply (components_merge n es s).
Qed.

Lemma list_connects n l : Forall (λ q, connects n (create_connexe q) (edges q)) l →
  connects n (walk_list create_connexe l) (concat (map edges l)).
Proof.
  induction 1 as [|q l Hq _ IH]; intros h c s es Hcomp Hc Hid.
  - exists h, c, s. cbn. by rewrite app_nil_r.
  - destruct (Hq h c s es Hcomp Hc Hid) as (h1 & c1 & s1 & E1 & Hc1 & Hid1 & Hcomp1).
    destruct (IH h1 c1 s1 _ Hcomp1 Hc1 Hid1) as (h2 & c2 & s2 & E2 & Hc2 & Hid2 & Hcomp2).
    exists h2, c2, s2. split; [cbn; by erewrite bind_Ok by exact E1|]. split_and!; try done. cbn. by rewrite app_assoc.
Qed.

Lemma cond_connects n q : (join_cond n q = true → connects n (create_connexe q) (edges q)) ∧
  ∀ l, q = NList l → forallb (join_cond n) l = true → Forall (λ q, connects n (create_connexe q) (edges q)) l.
Proof.
  induction q using node_ind'; destruct_and?; (split; [|intros l' [=]; subst; try done]); try done.
  - destruct q; try done. by apply op_connects.
  - destruct q; try done. intros Hq. apply list_connects; eauto.
  - intros Hq. apply forallb_Forall in Hq. rewrite Forall_forall in H, Hq |- *. intros x Hx. apply H; auto.
Qed.

(** ** The start and the end *)

Lemma singletons_ok k : ∀ i h p csC pcs comps,
  tsep (λ _, False) h ((T_List, (p, csC)) :: (pair T_IntList <$> pcs)) → ptrs csC pcs.*1 → Forall2 int_cells pcs comps →
  ∃ p' csC' pcs' h', singletons k i p h = Ok (p', h') ∧ tsep (λ _, False) h' ((T_List, (p', csC')) :: (pair T_IntList <$> pcs')) ∧
    ptrs csC' pcs'.*1 ∧ Forall2 int_cells pcs' (comps ++ map (λ z, [z]) (seqZ (i + 1) (Z.of_nat k))).
Proof.
  induction k as [|k IH]; intros i h p csC pcs comps Hs HC Hz.
  - exists p, csC, pcs, h. cbn. by rewrite app_nil_r.
  - destruct (lappend_gen_ok h T_IntList None [] (DInt (i + 1))) as (q & x & h1 & E1 & Hst1 & _); [apply Hs|done|].
    destruct (tsep_step _ _ _ _ _ _ _ _ _ (tsep_nil _ _ T_IntList _ Hs) Hst1) as [Hs1 _].
    assert (tsep (λ _, False) h1 ((T_List, (p, csC)) :: (T_IntList, (q, [(x, DInt (i + 1))])) :: (pair T_IntList <$> pcs))) as Hs1'.
    { eapply tsep_perm; [|exact Hs1]. solve_Permutation. }
    destruct (lappend_gen_ok h1 T_List p csC (DPtr q)) as (p2 & y & h2 & E2 & Hst2 & _);
      [apply Hs1'|by apply (tsep_elem _ _ (T_List, (p, csC)) _ Hs1'); left|].
    destruct (tsep_step _ _ _ _ _ _ _ _ _ Hs1' Hst2) as [Hs2 _].
    destruct (IH (i + 1) h2 p2 (csC ++ [(y, DPtr q)]) (pcs ++ [(q, [(x, DInt (i + 1))])]) (comps ++ [[i + 1]]))
      as (p' & csC' & pcs' & h' & E & Hs' & HC' & Hz').
    { eapply tsep_perm; [|exact Hs2]. rewrite fmap_app. cbn. solve_Permutation. }
    { rewrite fmap_app. by apply ptrs_snoc. }
    { apply Forall2_app; [done|]. by repeat constructor. }
    exists p', csC', pcs', h'. split; [cbn; erewrite bind_Ok by exact E1; by erewrite bind_Ok by exact E2|].
    split; [done|]. split; [done|]. rewrite <- app_assoc in Hz'. rewrite seqZ_cons by lia. cbn.
    replace (Z.succ (i + 1)) with (i + 1 + 1) by lia. by replace (Z.pred (Z.of_nat (S k))) with (Z.of_nat k) by lia.
Qed.

Lemma concat_singletons {A : Type} (l : list A) : concat (map (λ z, [z]) l) = l.
Proof. induction l as [|x l IH]; [done|]. cbn. by rewrite IH. Qed.

Lemma start_components n : components n [] (mkClasses [] (map (λ z, [z]) (seqZ 1 n))).
Proof.
  split; [|split].
  - split; cbn; [by rewrite concat_singletons, app_nil_r|]. apply Forall_fmap. by apply Forall_true.
  - by intros x y ?%elem_of_nil.
  - intros x y [[Hx Hy]|(a & b & A & -> & -> & HA & Ha & Hb)].
    + destruct x; [by apply elem_of_nil in Hx|]. destruct y; [by apply elem_of_nil in Hy|]. reflexivity.
    + cbn in HA. apply list_elem_of_fmap in HA as (z & -> & _). apply list_elem_of_singleton in Ha, Hb. subst. reflexivity.
Qed.

Lemma make_context_exists_ok n : 0 ≤ n →
  ∃ c h, make_context_exists n empty_heap = Ok (c, h) ∧ idle_cursor c ∧ cinv [] h c (mkClasses [] (map (λ z, [z]) (seqZ 1 n))).
Proof.
  intros Hn. assert (tsep (λ _, False) empty_heap ((T_List, (None, [])) :: (pair T_IntList <$> []))) as Hs.
  { apply tsep_nil. split; [intros x o Hx; cbn in Hx; by rewrite lookup_empty in Hx|]. done. }
  destruct (singletons_ok (Z.to_nat n) 0 empty_heap None [] [] [] Hs) as (p & csC & pcs & h & E & Hs' & HC & Hz); [done|constructor|].
  rewrite Z2Nat.id in Hz by done. eexists _, h. split; [unfold make_context_exists; by erewrite bind_Ok by exact E|].
  split; [done|]. exists [], csC, pcs. cbn. rewrite app_nil_r. split_and!; try done. by apply tsep_nil.
Qed.

Lemma run_loop_collect {A : Type} (g : datum → list A → loop (list A) (list A)) (f : datum → A) ds :
  Forall (λ d, ∀ acc, g d acc = Cont (acc ++ [f d])) ds → ∀ acc, run_loop g ds acc = Cont (acc ++ map f ds).
Proof.
  induction 1 as [|d ds Hd _ IH]; intros acc; cbn; [by rewrite app_nil_r|]. rewrite Hd, IH. by rewrite <- app_assoc.
Qed.

Definition int_of (d : datum) : Z := match d with DInt z => z | _ => 0 end.

Lemma read_ints_ok h p zs : heap_ok h → ints h p zs → read_ints p h = Ok (zs, h).
Proof.
  intros Hok (cs & Hl & Hd). cbn in Hl, Hd. unfold read_ints.
  erewrite bind_Ok.
  2: { apply (foreach_readonly _ (λ d acc, Cont (acc ++ [int_of d])) h T_IntList p cs); [done..|].
       intros l d acc Hin. destruct (is_list_cell _ _ _ _ _ _ Hl Hin) as [n Hc].
       assert (d ∈ DInt <$> zs) as (z & -> & _)%list_elem_of_fmap.
       { rewrite <- Hd. apply list_elem_of_fmap. by exists (l, d). }
       by erewrite bind_Ok by by eapply lfirst_int_Ok. }
  rewrite (run_loop_collect _ int_of) by (by apply Forall_true). cbn [app].
  assert (map int_of cs.*2 = zs) as -> by (rewrite Hd; clear; induction zs as [|z zs IH]; [done|]; cbn; by rewrite IH).
  erewrite bind_Ok by (by eapply list_length_ok). apply (f_equal length) in Hd. rewrite !length_fmap in Hd.
  by rewrite Hd, Z.eqb_refl.
Qed.

Lemma read_components_ok h p ps comps : heap_ok h → comps_at h p ps comps → read_components p h = Ok (comps, h).
Proof.
  intros Hok [(cs & Hl & Hd) Hps]. cbn in Hl, Hd. unfold read_components.
  set (f := λ d, match d with DPtr p => match read_ints p h with Ok (zs, _) => zs | _ => [] end | _ => [] end).
  erewrite bind_Ok.
  2: { apply (foreach_readonly _ (λ d acc, Cont (acc ++ [f d])) h T_List p cs); [done..|].
       intros l d acc Hin. destruct (is_list_cell _ _ _ _ _ _ Hl Hin) as [n Hc].
       assert (d ∈ DPtr <$> ps) as (q & -> & Hq)%list_elem_of_fmap.
       { rewrite <- Hd. apply list_elem_of_fmap. by exists (l, d). }
       erewrite bind_Ok by by eapply lfirst_Ok. apply list_elem_of_lookup in Hq as [i Hi].
       destruct (Forall2_lookup_l _ _ _ _ _ Hps Hi) as (zs & _ & Hz). subst f. cbn.
       rewrite (bind_Ok _ _ _ _ _ (read_ints_ok h q zs Hok Hz)). by rewrite (read_ints_ok h q zs Hok Hz). }
  rewrite (run_loop_collect _ f) by (by apply Forall_true). cbn [app].
  assert (map f cs.*2 = comps) as ->.
  { rewrite Hd. clear -Hok Hps. induction Hps as [|q zs ps comps Hz _ IH]; [done|]. cbn. rewrite IH. subst f. cbn.
    by rewrite (read_ints_ok h q zs Hok Hz). }
  erewrite bind_Ok by (by eapply list_length_ok). apply (f_equal length) in Hd. rewrite !length_fmap in Hd.
  by rewrite Hd, (Forall2_length _ _ _ Hps), Z.eqb_refl.
Qed.

Lemma refs_connect refs st : create_connexe (NList (map RangeTblRef refs)) st = Ok (false, st).
Proof. cbn. by induction refs as [|r refs IH]; [|exact IH]. Qed.

(** The components that [optimize_exist] reads. *)
Lemma components_of_ok n refs quals : 0 ≤ n → join_cond n quals = true →
  ∃ s, components_of n (FromExpr (NList (map RangeTblRef refs)) quals) = Ok (c_comps s) ∧ components n (edges quals) s.
Proof.
  intros Hn Hq. destruct (make_context_exists_ok n Hn) as (c & h & E & Hid & Hc).
  destruct (proj1 (cond_connects n quals) Hq h c _ _ (start_components n) Hc Hid) as (h' & c' & s & E' & Hc' & _ & Hs).
  exists s. split; [|exact Hs]. unfold components_of. rewrite E.
  assert (create_connexe (FromExpr (NList (map RangeTblRef refs)) quals) (h, c) = Ok (false, (h', c'))) as ->.
  { cbn [create_connexe expression_tree_walker]. by erewrite bind_Ok by apply refs_connect. }
  destruct Hc' as (csS & csC & pcs & Hsep & _ & HC & Hz). unfold run.
  erewrite (read_components_ok h' _ pcs.*1 (c_comps s)); [done|apply Hsep|].
  eapply comps_at_sep; [exact Hsep|right; left|done|done|]. intros l Hl. apply (tsep_elem _ _ (T_IntList, l) _ Hsep).
  do 2 right. by apply tagged_elem.
Qed.
End Comp.

(** ** Property *)

(** C13: on conditions built from comparisons with at most two variables each, the
    components that [optimize_exist] computes on the heap are the connected components of
    the graph of the query, whose vertices are its relations and the outer query and whose
    edges are the comparisons: together with the relations connected to the outer query
    they partition the relations, and two relations are in one of them exactly if they are
    connected with each other and not with the outer query. *)
Theorem components_of_connected {B : Build} n refs quals : 0 ≤ n → join_cond n quals = true →
  ∃ comps sub, components_of n (FromExpr (NList (map RangeTblRef refs)) quals) = Ok comps ∧
    concat comps ++ sub ≡ₚ seqZ 1 n ∧ Forall (λ C, C ≠ []) comps ∧
    (∀ a, 1 ≤ a ≤ n → a ∈ sub ↔ connected (edges quals) (Some a) None) ∧
    (∀ a b, 1 ≤ a ≤ n → (∃ C, C ∈ comps ∧ a ∈ C ∧ b ∈ C) ↔
       connected (edges quals) (Some a) (Some b) ∧ ¬ connected (edges quals) (Some a) None).
Proof.
  intros Hn Hq. destruct (components_of_ok n refs quals Hn Hq) as (s & E & Hs). pose proof Hs as (Hp & _ & _).
  exists (c_comps s), (c_sub s). split; [done|]. split; [apply Hp|]. split; [apply Hp|].
  assert (∀ a x, 1 ≤ a ≤ n → same_class s (Some a) x ↔ connected (edges quals) (Some a) x) as Hex.
  { intros a x Ha. apply (components_exact n); [done|]. by intros ? [= <-]. }
  assert (∀ a, 1 ≤ a ≤ n → a ∈ c_sub s ↔ connected (edges quals) (Some a) None) as Hsub.
  { intros a Ha. rewrite <- Hex by done. split; [by left|]. intros [[? _]|(? & ? & ? & _ & ? & _)]; done. }
  split; [exact Hsub|]. intros a b Ha. rewrite <- Hex, <- Hsub by done. split.
  - intros (C & HC & HaC & HbC). split; [right; by exists a, b, C|by eapply class_not_sub].
  - intros [[[? _]|(? & ? & C & [= <-] & [= <-] & ?)] Hn']; [done|]. by exists C.
Qed.

(** r1.x = q.x AND r2.x = r3.x AND r4.x > 1: relation 1 is connected to the outer query. *)
Lemma components_of_connected_witness :
  let quals := all_of [cmp 96 (col 0 1 1) (col 1 1 1); cmp 96 (col 0 2 1) (col 0 3 1); cmp 521 (col 0 4 1) (lit 1)] in
  ∃ comps sub, components_of (B := with_asserts) 4 (FromExpr (NList (map RangeTblRef [1; 2; 3; 4])) quals) = Ok comps ∧
    concat comps ++ sub ≡ₚ seqZ 1 4 ∧ Forall (λ C, C ≠ []) comps ∧
    (∀ a, 1 ≤ a ≤ 4 → a ∈ sub ↔ connected (edges quals) (Some a) None) ∧
    (∀ a b, 1 ≤ a ≤ 4 → (∃ C, C ∈ comps ∧ a ∈ C ∧ b ∈ C) ↔
       connected (edges quals) (Some a) (Some b) ∧ ¬ connected (edges quals) (Some a) None).
Proof. apply (components_of_connected (B := with_asserts)); [lia|reflexivity]. Defined.
