(* ===== verification/ExistMove.v ===== *)
(** The loop of [optimize_exist]: one component after the other is moved.

    Each turn moves the first component and renumbers the rest of the query and the
    other components.  For components that no comparison mentions, which is what
    self_optimize.c leaves of the relations that are not joined with anything, the loop
    ends and EXISTS of the query keeps its value; with the components that
    [create_connexe] finds, this is the whole of [optimize_exist] after its first
    statement. *)

From Stdlib Require Import Sorted.
From stdpp Require Import relations.
From S2P Require Import Prelude Nodes Terms PgList Semantics SelfOpt ExistOpt SplitProps Mutators CoddProps CoddNeg SelfProps.
From S2P Require Import Rename ExistProps SelfPush SelfQuery ExistQuery ExistGraph ExistComp Samples.

#[local] Arguments is_in_list : simpl never.

Section Move.
Context {B : Build} {I : Interp}.

(** ** Conditions while components are moved *)

(** Comparisons, and EXISTS whose value does not depend on the row. *)
Fixpoint part (n : node) : Prop :=
  match n with
  | OpExpr _ (NList args) => args ≠ [] ∧ forallb is_term args = true
  | BoolExpr AND_EXPR (NList l) _ =>
      l ≠ [] ∧ (fix go (l : list node) : Prop := match l with [] => True | x :: l => part x ∧ go l end) l
  | SubLink _ NULL (Query _ _ _ _) => ∀ e e', eval n e = eval n e'
  | _ => False
  end.

Lemma part_and l loc : part (BoolExpr AND_EXPR (NList l) loc) ↔ l ≠ [] ∧ Forall part l.
Proof.
  cbn. assert ((fix go (l : list node) : Prop := match l with [] => True | x :: l => part x ∧ go l end) l ↔ Forall part l) as H; [|by rewrite H].
  induction l as [|x l IH]; [done|]. by rewrite Forall_cons, IH.
Qed.

Lemma part_ind (Q : node → Prop) :
  (∀ o args, args ≠ [] → forallb is_term args = true → Q (OpExpr o (NList args))) →
  (∀ l loc, l ≠ [] → Forall part l → Forall Q l → Q (BoolExpr AND_EXPR (NList l) loc)) →
  (∀ t qi rt jt tl, let n := SubLink t NULL (Query qi rt jt tl) in (∀ e e', eval n e = eval n e') → Q n) →
  ∀ n, part n → Q n.
Proof.
  intros Hop Hand Hsub n. enough ((part n → Q n) ∧ ∀ l, n = NList l → Forall part l → Forall Q l) as H by apply H.
  induction n using node_ind'; destruct_and?; (split; [|intros l' [=]; subst; try done]); try done.
  - destruct n; try done. intros [? ?]. by apply Hop.
  - destruct b, n; try done. intros [Hne Hl]%part_and. apply Hand; eauto.
  - destruct n1; try done. destruct n2; try done. apply Hsub.
  - intros Hl. rewrite Forall_forall in H, Hl |- *. intros x Hx. apply H; auto.
Qed.

(** [mutator_conn] leaves a condition alone that does not mention the component. *)
Lemma mentions_and L l loc : mentions L (BoolExpr AND_EXPR (NList l) loc) = existsb (mentions L) l.
Proof. unfold mentions. cbn. induction l as [|x l IH]; [done|]. cbn. by rewrite existsb_app, IH. Qed.

Lemma conn_leaves n : part n → ∀ c, to_remove c = false → mentions (c_list_varno c) n = false → mutator_conn n c = Ok (n, c).
Proof.
  revert n. apply (part_ind (λ n, ∀ c, to_remove c = false → mentions (c_list_varno c) n = false → mutator_conn n c = Ok (n, c))).
  - intros o args Hne Ht c Hr Hm. rewrite cmp_noted, Hm; [done| |done]. cbn. by destruct args.
  - intros l loc Hne _ IH c Hr Hm. rewrite mentions_and in Hm. cbn [mutator_conn]. cbn.
    assert (mutate_list mutator_conn l c = Ok (l, c)) as E.
    { clear Hne. induction IH as [|x l Hx _ IHl]; [done|]. cbn in Hm. apply orb_false_iff in Hm as [Hmx Hm].
      cbn. erewrite bind_Ok by (by apply Hx). by erewrite bind_Ok by (by apply IHl). }
    rewrite bind_assoc. erewrite bind_Ok by exact E. unfold bind, ret. by rewrite of_list_ne.
  - done.
Qed.

(** The renumbered condition. *)
Definition renumbered (s : temp_context_connex_rew2) (n n' : node) : Prop :=
  carried varquals_name s n n' ∧ part n' ∧ term_vars n' = map (varquals_name s) (term_vars n).

Lemma part_renumbered s n : part n → renamed mutator_varquals s (renumbered s) n.
Proof.
  revert n. apply (part_ind (renamed mutator_varquals s (renumbered s))).
  - intros o args Hne Ht. destruct (renamed_args mutator_varquals varquals_name s (carried_term varquals_name s) args Hne) as (l' & E & Hl).
    { by apply (renamed_term mutator_varquals varquals_name s (NList args)). }
    destruct (carried_args _ _ _ _ Hl) as [Ht' Hv']. exists (OpExpr o (NList l')). split; [cbn; by erewrite bind_Ok by exact E|].
    split; [|split; [|exact Hv']].
    + intros e1 e2 Hc. cbn [eval]. by rewrite (carried_terms _ _ _ _ e1 e2 Hl Hc).
    + split; [|done]. intros ->. by apply Forall2_nil_inv_r in Hl.
  - intros l loc Hne _ IH. destruct (renamed_args mutator_varquals varquals_name s (renumbered s) l Hne IH) as (l' & E & Hl).
    exists (BoolExpr AND_EXPR (NList l') loc). split; [cbn [mutator_varquals expression_tree_mutator]; by erewrite bind_Ok by exact E|].
    split; [|split].
    + intros e1 e2 Hc. cbn [eval]. f_equal. apply (carried_conj varquals_name s); [|done]. eapply Forall2_impl; [exact Hl|]. by intros x y [? _].
    + apply part_and. split; [intros ->; by apply Forall2_nil_inv_r in Hl|]. clear -Hl.
      induction Hl as [|x y l l' (_ & ? & _) _ ?]; by constructor.
    + cbn. clear -Hl. induction Hl as [|x y l l' (_ & _ & Hv) _ IH]; [done|]. cbn. by rewrite map_app, Hv, IH.
  - intros t qi rt jt tl n Hn. exists n. split; [done|]. split; [|done]. intros e1 e2 _. apply Hn.
Qed.

(** ** One turn *)

(** A query over [l] during the loop: its FROM list names the relations that are left, and
    some comparison is about one of them. *)
Definition moving (q : node) (qi : queryinfo) (l : list node) (vs : list var) : Prop :=
  ∃ tl args loc, (∃ v, v ∈ vs ∧ varlevelsup v = 0) ∧ forallb simple_target tl = true ∧
    q = Query qi (of_list l) (FromExpr (NList (map RangeTblRef (seqZ 1 (Z.of_nat (length l))))) (BoolExpr AND_EXPR (NList args) loc)) (of_list tl) ∧
    part (BoolExpr AND_EXPR (NList args) loc) ∧ term_vars (BoolExpr AND_EXPR (NList args) loc) = vs ∧
    Forall (in_table (Z.of_nat (length l))) vs.

Lemma moving_from_ok q qi l vs : moving q qi l vs → from_ok q = true.
Proof. intros (tl & args & loc & _ & _ & -> & _). cbn. rewrite list_of_of_list. apply names_all_seqZ. Qed.

Definition exists_same (q q' : node) : Prop :=
  ∀ t e, eval (SubLink EXISTS_SUBLINK t q') e = eval (SubLink EXISTS_SUBLINK t q) e.

Lemma closed_exists t qi rt fl tl : ∀ e e',
  eval (SubLink EXISTS_SUBLINK t (Query qi rt (FromExpr fl NULL) tl)) e = eval (SubLink EXISTS_SUBLINK t (Query qi rt (FromExpr fl NULL) tl)) e'.
Proof. done. Qed.

(** Numbers after a component is gone. *)
Lemma below_bound L : ∀ i v, StronglySorted Z.lt L → Forall (Z.lt i) L → below L v ≤ Z.max 0 (v - i - 1).
Proof.
  induction L as [|x L IH]; intros i v Hs Hi; [unfold below; cbn; lia|].
  apply StronglySorted_inv in Hs as [Hs Hx]. apply Forall_cons in Hi as [Hi _]. rewrite below_cons.
  specialize (IH x v Hs Hx). destruct (Z.ltb_spec x v); [lia|].
  rewrite below_none; [lia|]. eapply Forall_impl; [exact Hx|]. cbn. lia.
Qed.

Lemma below_step L : ∀ v w, StronglySorted Z.lt L → v ∉ L → v < w → below L w ≤ below L v + (w - v - 1).
Proof.
  induction L as [|x L IH]; intros v w Hs Hv Hvw; [unfold below; cbn; lia|].
  pose proof Hs as Hs'. apply StronglySorted_inv in Hs as [Hs Hx]. apply not_elem_of_cons in Hv as [Hne Hv].
  destruct (Z.lt_trichotomy x v) as [Hlt|[->|Hgt]]; [|done|].
  - specialize (IH v w Hs Hv Hvw). rewrite !below_cons. destruct (Z.ltb_spec x v), (Z.ltb_spec x w); lia.
  - assert (Forall (Z.lt v) (x :: L)) as Hall by (constructor; [done|]; eapply Forall_impl; [exact Hx|]; cbn; lia).
    pose proof (below_bound (x :: L) v w Hs' Hall). rewrite (below_none _ v); [lia|]. eapply Forall_impl; [exact Hall|]. cbn. lia.
Qed.

Lemma deacrease_lt L v w : StronglySorted Z.lt L → v ∉ L → v < w → deacrease v L < deacrease w L.
Proof. intros Hs Hv Hvw. rewrite !deacrease_below. pose proof (below_step L v w Hs Hv Hvw). lia. Qed.

Lemma deacrease_inj L v w : StronglySorted Z.lt L → v ∉ L → w ∉ L → deacrease v L = deacrease w L → v = w.
Proof.
  intros Hs Hv Hw E. destruct (Z.lt_trichotomy v w) as [Hlt|[Heq|Hgt]]; [|done|].
  - pose proof (deacrease_lt L v w Hs Hv Hlt). lia.
  - pose proof (deacrease_lt L w v Hs Hw Hgt). lia.
Qed.

Lemma deacrease_bounds (l : list node) L v : StronglySorted Z.lt L → Forall (λ v, 1 ≤ v ≤ Z.of_nat (length l)) L →
  1 ≤ v ≤ Z.of_nat (length l) → v ∉ L → 1 ≤ deacrease v L ≤ Z.of_nat (length (remove_at 0 l L)).
Proof.
  intros Hs Hb Hv Hn. rewrite deacrease_below. destruct (remove_at_ok L l 0 Hs Hb) as [Hlen Hk].
  specialize (Hk v ltac:(lia) Hn). rewrite !Z.sub_0_r in Hk.
  destruct (lookup_lt_is_Some_2 l (Z.to_nat (v - 1))) as [x Hx]; [lia|]. rewrite Hx in Hk. apply lookup_lt_Some in Hk.
  assert (below L v ≤ Z.max 0 (v - 0 - 1)) as Hbel; [|lia]. apply below_bound; [done|].
  eapply Forall_impl; [exact Hb|]. cbn. lia.
Qed.

(** A relation that a comparison is about stays. *)
Lemma relation_left (n : nat) a vs v : 1 ≤ a ≤ Z.of_nat n → Forall (in_table (Z.of_nat n)) vs →
  Forall (λ v, of_component [a] v = false) vs → v ∈ vs → varlevelsup v = 0 → (1 < n)%nat.
Proof.
  rewrite !Forall_forall. intros Ha Htab Hnot Hv Hlv. specialize (Htab v Hv Hlv). specialize (Hnot v Hv).
  assert (varno v ≠ a); [|lia]. intros Heq. rewrite (proj2 (of_component_true [a] v)) in Hnot; [done|].
  split; [done|]. by apply list_elem_of_singleton.
Qed.

(** A relation that no comparison mentions is moved. *)
Lemma turn_ok q qi l vs L : moving q qi l vs → length L = 1%nat → StronglySorted Z.lt L → Forall (λ v, 1 ≤ v ≤ Z.of_nat (length l)) L →
  Forall (λ v, of_component L v = false) vs →
  ∃ q', rewrite_connexe q L = Ok q' ∧ exists_same q q' ∧
    moving q' qi (remove_at 0 l L) (map (varquals_name (make_temp_context_connex_rew2 L)) vs).
Proof.
  intros (tl & args & loc & (v0 & Hv0 & Hlv0) & Htl & -> & Hpart & Hvs & Htab) HL Hs Hb Hnot.
  assert (1 < length l)%nat as Hleft.
  { destruct L as [|a [|? ?]]; try done. apply Forall_cons in Hb as [Ha _]. by eapply relation_left. }
  assert (l ≠ [] ∧ L ≠ []) as [Hl HLne] by (split; [destruct l|destruct L]; cbn in *; (done || lia)).
  assert (seqZ 1 (Z.of_nat (length l)) ≠ []) as Hrefs by by rewrite seqZ_cons by lia.
  destruct (moved_from_ok l L Hl Hs Hb) as [Hfrom Hsub].
  rewrite bool_decide_eq_true_2 in Hfrom by lia. rewrite bool_decide_eq_true_2 in Hsub by done.
  set (quals := BoolExpr AND_EXPR (NList args) loc) in *. set (c2 := make_temp_context_connex_rew2 L).
  destruct (part_renumbered c2 quals Hpart) as (quals' & Eq & Hcar & Hpart' & Hvs').
  assert (mentions L quals = false) as Hm.
  { unfold mentions. rewrite Hvs. clear -Hnot. induction Hnot as [|v vs Hv _ IH]; [done|]. cbn. by rewrite Hv. }
  assert (Hconn : expression_tree_mutator mutator_conn quals (make_temp_context_connex_rew L) = Ok (quals, make_temp_context_connex_rew L)).
  { change (expression_tree_mutator mutator_conn quals) with (mutator_conn quals). by apply conn_leaves. }
  destruct (rewrite_connexe_runs qi l _ _ _ quals' _ tl L Hrefs HLne Hs Hb Htl Hconn Eq) as (n & tl' & Hrefs' & Htl' & E).
  rewrite length_seqZ, Nat2Z.id in E.
  eexists. split; [exact E|]. split.
  - intros t e. apply exists_iff. apply exists_moved; [done|done|apply names_all_seqZ|done|done|].
    intros rows m k Hsp. cbn [list_constraint of_list eval].
    assert (eval quals' (push k e) = eval quals (push rows e)) as ->; [|by split; [|intros [? _]]].
    apply Hcar. rewrite Hvs. rewrite Forall_forall in Htab, Hnot |- *. intros v Hv. apply (kept_var l L rows m k e v Hsp); auto.
  - exists tl', [quals'; SubLink EXISTS_SUBLINK NULL (create_from_query_list (of_list (pick l L)) NULL n)], (-1).
    split.
    { exists (varquals_name c2 v0). split; [by apply list_elem_of_fmap_2|]. unfold varquals_name. by destruct (_ =? 0). }
    split; [done|]. split.
    { destruct (remove_at_ok L l 0 Hs Hb) as [Hlen _]. rewrite take_seqZ by lia. do 5 f_equal. lia. }
    split; [|split].
    + apply part_and. split; [done|]. constructor; [done|]. constructor; [|constructor]. intros e e'. apply closed_exists.
    + cbn. rewrite app_nil_r, Hvs', Hvs. done.
    + rewrite Forall_forall in Htab, Hnot |- *. intros v' (v & -> & Hv)%list_elem_of_fmap Hlv.
      unfold varquals_name in *. destruct (Z.eqb_spec (varlevelsup v) 0) as [Hlv1|]; [|done]. cbn.
      apply deacrease_bounds; [done..|by apply Htab|]. intros Hin. specialize (Hnot v Hv).
      by rewrite (proj2 (of_component_true L v)) in Hnot.
Qed.

(** ** The loop *)

(** Relations that can be moved one after the other. *)
Fixpoint movable (n : Z) (vs : list var) (comps : list (list Z)) : Prop :=
  match comps with
  | [] => True
  | L :: comps =>
      length L = 1%nat ∧ StronglySorted Z.lt L ∧ Forall (λ v, 1 ≤ v ≤ n) L ∧ Forall (λ v, of_component L v = false) vs ∧
      Forall (λ L', Forall (λ v, v ∉ L) L') comps ∧ movable n vs comps
  end.

Lemma sorted_map (f : Z → Z) L : StronglySorted Z.lt L → (∀ v w, v ∈ L → w ∈ L → v < w → f v < f w) → StronglySorted Z.lt (map f L).
Proof.
  induction 1 as [|x L Hs IH Hx]; intros Hf; [constructor|]. cbn. constructor.
  - apply IH. intros v w Hv Hw. apply Hf; by right.
  - apply Forall_fmap. rewrite Forall_forall in Hx |- *. intros y Hy. apply Hf; [left|by right|by apply Hx].
Qed.

(** The other components are as movable after a turn. *)
Lemma movable_next (l : list node) vs L comps :
  StronglySorted Z.lt L → Forall (λ v, 1 ≤ v ≤ Z.of_nat (length l)) L → Forall (in_table (Z.of_nat (length l))) vs →
  Forall (λ v, of_component L v = false) vs → Forall (λ L', Forall (λ v, v ∉ L) L') comps →
  movable (Z.of_nat (length l)) vs comps →
  movable (Z.of_nat (length (remove_at 0 l L))) (map (varquals_name (make_temp_context_connex_rew2 L)) vs)
    (map (map (λ v, deacrease v L)) comps).
Proof.
  intros Hs Hb Htab Hnot. induction comps as [|K comps IH]; intros Hdis Hmov; [done|].
  apply Forall_cons in Hdis as [HK Hdis]. destruct Hmov as (Hne & HsK & HbK & HnK & HdK & Hmov).
  rewrite Forall_forall in HK, HbK. cbn. split; [by rewrite length_map|]. split; [|split; [|split; [|split; [|by apply IH]]]].
  - apply sorted_map; [done|]. intros v w Hv Hw. apply deacrease_lt; auto.
  - apply Forall_fmap, Forall_forall. intros v Hv. cbn. apply deacrease_bounds; auto.
  - apply Forall_fmap. rewrite Forall_forall in Htab, Hnot, HnK |- *. intros v Hv. cbn.
    destruct (of_component (map (λ v, deacrease v L) K) _) eqn:E; [|done]. exfalso.
    apply of_component_true in E as [Hlv Hin]. unfold varquals_name in *.
    assert (varlevelsup v = 0) as Hv0 by (by destruct (Z.eqb_spec (varlevelsup v) 0)). rewrite Hv0 in Hin. cbn in Hin.
    apply list_elem_of_fmap in Hin as (w & Ew & Hw). apply deacrease_inj in Ew; [|done| |auto].
    + specialize (HnK v Hv). rewrite (proj2 (of_component_true K v)) in HnK; [done|]. by rewrite Ew.
    + intros HvL. specialize (Hnot v Hv). by rewrite (proj2 (of_component_true L v)) in Hnot.
  - apply Forall_fmap. rewrite Forall_forall in HdK, Hdis |- *. intros K' HK'. cbn. apply Forall_fmap, Forall_forall.
    intros v Hv. cbn. intros (w & Ew & Hw)%list_elem_of_fmap. specialize (HdK K' HK'). specialize (Hdis K' HK').
    rewrite Forall_forall in HdK, Hdis. apply deacrease_inj in Ew; [|done|auto|auto]. subst w. by apply (HdK v).
Qed.

Lemma move_components_ok comps : ∀ q qi l vs, moving q qi l vs → movable (Z.of_nat (length l)) vs comps →
  ∃ q', move_components (length comps) q comps = Ok q' ∧ from_ok q' = true ∧ exists_same q q'.
Proof.
  remember (length comps) as k eqn:Hk. revert comps Hk. induction k as [|k IH]; intros [|L comps] Hk q qi l vs Hq Hmov; try done.
  - exists q. split; [done|]. split; [by eapply moving_from_ok|done].
  - destruct Hmov as (Hne & HsL & HbL & HnL & HdL & Hmov).
    destruct (turn_ok q qi l vs L Hq Hne HsL HbL HnL) as (q1 & E1 & Hsame1 & Hq1).
    destruct (IH (map (map (λ v, deacrease v L)) comps)) with (q := q1) (qi := qi) (l := remove_at 0 l L)
      (vs := map (varquals_name (make_temp_context_connex_rew2 L)) vs) as (q2 & E2 & Hfrom2 & Hsame2); [|done| |].
    + rewrite length_map. by injection Hk.
    + destruct Hq as (tl & args & loc & _ & _ & _ & _ & _ & Htab). by apply movable_next.
    + exists q2. split; [cbn; by rewrite E1|]. split; [done|]. intros t e. by rewrite Hsame2.
Qed.
End Move.

(** ** Property *)

(** The vertices of an edge are variables of a comparison. *)
Lemma edges_vars cmps x y : Forall (λ n, is_cmp n = true) cmps → (x, y) ∈ concat (map edges cmps) →
  ∃ v w, v ∈ term_vars (NList cmps) ∧ w ∈ term_vars (NList cmps) ∧ x = end_of v ∧ y = end_of w.
Proof.
  induction 1 as [|n cmps Hn _ IH]; cbn [map concat]; [by intros ?%elem_of_nil|]. rewrite term_vars_cons.
  intros [Hxy|Hxy]%elem_of_app; setoid_rewrite elem_of_app; [|destruct (IH Hxy) as (v & w & ? & ? & ? & ?); exists v, w; auto 10].
  destruct n as [| | | |o a| | | | | | | | | | | |]; try done. cbn in Hxy |- *. unfold edge_of in Hxy.
  destruct (term_vars a) as [|v [|w [|? ?]]]; try (by apply elem_of_nil in Hxy).
  apply list_elem_of_singleton in Hxy as [= -> ->]. exists v, w. split_and!; try done; left; [left|right; left].
Qed.

(** A vertex of an edge is connected to the outer query if all variables are. *)
Definition all_correlated (quals : node) : Prop :=
  Forall (λ v, varlevelsup v = 0 → connected (edges quals) (Some (varno v)) None) (term_vars quals).

Lemma end_correlated quals v a : all_correlated quals → v ∈ term_vars quals → Some a = end_of v → connected (edges quals) (Some a) None.
Proof.
  unfold all_correlated, end_of. rewrite Forall_forall. intros Hall Hv. specialize (Hall v Hv).
  destruct (Z.eqb_spec (varlevelsup v) 0) as [Hlv|]; [|done]. intros [= ->]. auto.
Qed.

(** A component that is not connected to the outer query is a single relation. *)
Lemma free_alone cmps loc a b : let quals := BoolExpr AND_EXPR (NList cmps) loc in
  Forall (λ n, is_cmp n = true) cmps → all_correlated quals → connected (edges quals) (Some a) (Some b) →
  ¬ connected (edges quals) (Some a) None → a = b.
Proof.
  intros quals Hc Hall Hab Hn. unfold connected, rtsc in Hab. inversion Hab as [|x y z Hxy _]; subst; [done|].
  destruct Hn. destruct Hxy as [Hxy|Hxy]; unfold linked in Hxy; destruct (edges_vars cmps _ _ Hc Hxy) as (v & w & Hv & Hw & Ev & Ew).
  - by apply (end_correlated quals v a).
  - by apply (end_correlated quals w a).
Qed.

Lemma all_equal_singleton (a : Z) C : a ∈ C → NoDup C → (∀ b, b ∈ C → a = b) → C = [a].
Proof.
  destruct C as [|x [|y C]]; [by intros ?%elem_of_nil| |].
  - by intros ->%list_elem_of_singleton.
  - intros _ [Hx _]%NoDup_cons Hall. exfalso. apply Hx. rewrite <- (Hall x), (Hall y); [left|right; left|left].
Qed.

Lemma free_movable n cmps loc s : let quals := BoolExpr AND_EXPR (NList cmps) loc in
  Forall (λ n, is_cmp n = true) cmps → all_correlated quals → components n (edges quals) s →
  movable n (term_vars quals) (c_comps s).
Proof.
  intros quals Hc Hall Hs. pose proof Hs as (Hp & _ & Hout).
  assert (∀ C a, C ∈ c_comps s → a ∈ C → ¬ connected (edges quals) (Some a) None ∧ 1 ≤ a ≤ n ∧ C = [a]) as Hfree.
  { intros C a HC Ha.
    assert (1 ≤ a ≤ n) as Hr.
    { assert (a ∈ concat (c_comps s) ++ c_sub s) as Hin by (apply elem_of_app; left; apply concat_elem; eauto).
      destruct Hp as [Hp _]. rewrite Hp in Hin. apply elem_of_seqZ in Hin. lia. }
    assert (¬ connected (edges quals) (Some a) None) as Hn.
    { rewrite <- (components_exact n (edges quals) s) by (done || by intros ? [= <-]).
      intros [[Hsub _]|(? & ? & ? & _ & ? & _)]; [|done]. by eapply (class_not_sub n s C a). }
    split; [done|]. split; [done|]. apply all_equal_singleton; [done| |].
    - apply partition_NoDup, NoDup_app in Hp as (Hp & _ & _). apply list_elem_of_split in HC as (l1 & l2 & E).
      rewrite E, concat_app in Hp. cbn in Hp. apply NoDup_app in Hp as (_ & _ & Hp). by apply NoDup_app in Hp as (Hp & _ & _).
    - intros b Hb. apply (free_alone cmps loc); try done. apply Hout. right. by exists a, b, C. }
  pose proof (partition_NoDup _ _ Hp) as Hnd. apply NoDup_app in Hnd as (Hnd & _ & _). destruct Hp as [_ Hne]. clear Hs Hout.
  induction (c_comps s) as [|C comps IH]; [done|]. apply Forall_cons in Hne as [HCne Hne]. cbn in Hnd. apply NoDup_app in Hnd as (_ & Hdis & Hnd).
  assert (∃ a, a ∈ C) as [a Ha] by (destruct C as [|a C]; [done|exists a; left]).
  destruct (Hfree C a ltac:(left) Ha) as (Hna & Hra & ->). cbn. split; [done|]. split; [repeat constructor|].
  split; [constructor; [done|constructor]|]. split; [|split; [|apply IH; [done| |done]]].
  - apply Forall_forall. intros v Hv. destruct (of_component [a] v) eqn:E; [|done]. exfalso. apply of_component_true in E as [Hlv Hin].
    apply list_elem_of_singleton in Hin. apply Hna. apply (end_correlated quals v a); [done|done|]. unfold end_of. by rewrite Hlv, Hin.
  - apply Forall_forall. intros C HC. apply Forall_forall. intros v Hv Hva. apply (Hdis v Hva). apply concat_elem. eauto.
  - intros D d HD Hd. apply Hfree; [by right|done].
Qed.

(** The variables of comparisons with at most two variables are in their scope. *)
Lemma join_in_table k cmps loc : Forall (λ n, is_cmp n = true) cmps → join_cond k (BoolExpr AND_EXPR (NList cmps) loc) = true →
  Forall (in_table k) (term_vars (NList cmps)).
Proof.
  intros Hc Hj. cbn in Hj. apply forallb_Forall in Hj. induction Hj as [|n cmps Hn _ IH]; [constructor|].
  apply Forall_cons in Hc as [Hcn Hc]. rewrite term_vars_cons. apply Forall_app. split; [|by apply IH].
  destruct n as [| | | |o a| | | | | | | | | | | |]; try done. destruct a; try done.
  cbn in Hn. rewrite !andb_true_iff in Hn. destruct Hn as [_ Hn]. apply forallb_Forall in Hn. eapply Forall_impl; [exact Hn|].
  intros v Hv. apply scopedb_ok in Hv as (_ & ? & ?). split; auto.
Qed.

(** C14: the loop of [optimize_exist] after its first statement.  The sub-query has a FROM
    list that names its relations in order, a target list of columns and constants, and a
    conjunction of comparisons, each with at most two variables; every local variable of
    them is a column of a relation that is connected to the outer query, and there is such a
    variable.  Then [move_connexe] returns: the components are computed, every other relation
    is moved into an EXISTS of its own, and EXISTS of the result, whose FROM list names the
    relations that are left, is true exactly where EXISTS of the query was. *)
Theorem move_connexe_sound {B : Build} {I : Interp} qi l cmps loc tl :
  forallb simple_target tl = true → Forall (λ n, is_cmp n = true) cmps →
  let quals := BoolExpr AND_EXPR (NList cmps) loc in
  join_cond (Z.of_nat (length l)) quals = true → all_correlated quals →
  (∃ v, v ∈ term_vars quals ∧ varlevelsup v = 0) →
  let q := Query qi (NList l) (FromExpr (NList (map RangeTblRef (seqZ 1 (Z.of_nat (length l))))) quals) (of_list tl) in
  ∃ q', move_connexe q = Ok q' ∧ from_ok q' = true ∧
    ∀ t e, eval (SubLink EXISTS_SUBLINK t q') e = eval (SubLink EXISTS_SUBLINK t q) e.
Proof.
  intros Htl Hc quals Hj Hall Hloc q. pose proof (join_in_table _ _ _ Hc Hj) as Htab.
  assert (l ≠ []) as Hl.
  { destruct Hloc as (v & Hv & Hlv). rewrite Forall_forall in Htab. specialize (Htab v Hv Hlv). destruct l; [cbn in Htab; lia|done]. }
  assert (cmps ≠ []) as Hne by (intros ->; destruct Hloc as (v & Hv & _); by apply elem_of_nil in Hv).
  destruct (components_of_ok (Z.of_nat (length l)) (seqZ 1 (Z.of_nat (length l))) quals ltac:(lia) Hj) as (s & E & Hs).
  destruct (move_components_ok (c_comps s) q qi l (term_vars quals)) as (q' & E' & Hfrom & Hsame).
  - exists tl, cmps, loc. rewrite (of_list_ne l Hl). do 3 (split; [done|]). split; [|split; [done|exact Htab]].
    apply part_and. split; [done|]. eapply Forall_impl; [exact Hc|]. intros n Hn.
    destruct n as [| | | |o a| | | | | | | | | | | |]; try done. destruct a; try done. by apply bool_nonempty in Hn.
  - by apply free_movable.
  - exists q'. split; [|done]. unfold move_connexe, q. cbn [length_field]. by rewrite E.
Qed.

(** SELECT FROM r1, r2, r3 WHERE r1.x = q.x: the second and third relation move. *)
Lemma move_connexe_sound_witness :
  let q := select [10; 20; 30] (all_of [cmp 96 (col 0 1 1) (col 1 1 1)]) in
  ∃ q', move_connexe (B := with_asserts) q = Ok q' ∧ from_ok q' = true ∧
    ∀ t e, eval (I := sample_interp) (SubLink EXISTS_SUBLINK t q') e = eval (I := sample_interp) (SubLink EXISTS_SUBLINK t q) e.
Proof.
  apply (move_connexe_sound (B := with_asserts) (I := sample_interp) new_queryinfo (map rel [10; 20; 30])
    [cmp 96 (col 0 1 1) (col 1 1 1)] (-1) [TargetEntry (mkTe 1 "x" false) (col 0 1 1)]); try done.
  - by repeat constructor.
  - constructor; [|constructor; [|constructor]]; intros Hlv; [|done]. apply rtsc_lr. left.
  - eexists. split; [left|done].
Defined.
