(* ===== verification/Bitmapset.v ===== *)
(** The bitmap sets of the backend, src/backend/nodes/bitmapset.c.

    A set is an array of 32-bit words; NULL is an empty set, but not the only
    representation of it.  The pointer is an option, the array a list of integers
    between 0 and 2^32; loops over an index are recursions over the words.  Words are
    kept at their width: [~w] and [-w] are taken modulo 2^32, as in unsigned
    arithmetic.

    The routines that recycle their argument return it changed; the caller may not
    use the old pointer, so they are functions on values here.  Members are C ints,
    modelled as integers without wrap-around: [bms_ints_fit] in BitProps shows which
    numbers can occur. *)

From S2P Require Import Prelude.

Definition BITS_PER_BITMAPWORD : Z := 32.

Definition bitmapword := Z.

(** [a->nwords] is the length of the list. *)
Definition Bitmapset := list bitmapword.

Definition nwords (a : Bitmapset) : Z := Z.of_nat (length a).

Inductive BMS_Comparison := BMS_EQUAL | BMS_SUBSET1 | BMS_SUBSET2 | BMS_DIFFERENT.

Inductive BMS_Membership := BMS_EMPTY_SET | BMS_SINGLETON | BMS_MULTIPLE.

#[global] Instance BMS_Comparison_eq_dec : EqDecision BMS_Comparison.
Proof. solve_decision. Defined.

(** ** Words *)

Definition WORDNUM (x : Z) : Z := x / BITS_PER_BITMAPWORD.
Definition BITNUM (x : Z) : Z := x mod BITS_PER_BITMAPWORD.

Definition wrap (z : Z) : bitmapword := z mod 2 ^ BITS_PER_BITMAPWORD.

(** [~w] of a bitmapword. *)
Definition lnot_word (w : bitmapword) : bitmapword := wrap (Z.lnot w).

(** [(bitmapword) 1 << bitnum]. *)
Definition bit (bitnum : Z) : bitmapword := wrap (Z.shiftl 1 bitnum).

Definition RIGHTMOST_ONE (x : bitmapword) : bitmapword := Z.land x (wrap (- x)).

Definition HAS_MULTIPLE_ONES (x : bitmapword) : bool := negb (RIGHTMOST_ONE x =? x).

Definition rightmost_one_pos : list Z :=
  [0; 0; 1; 0; 2; 0; 1; 0; 3; 0; 1; 0; 2; 0; 1; 0;
   4; 0; 1; 0; 2; 0; 1; 0; 3; 0; 1; 0; 2; 0; 1; 0;
   5; 0; 1; 0; 2; 0; 1; 0; 3; 0; 1; 0; 2; 0; 1; 0;
   4; 0; 1; 0; 2; 0; 1; 0; 3; 0; 1; 0; 2; 0; 1; 0;
   6; 0; 1; 0; 2; 0; 1; 0; 3; 0; 1; 0; 2; 0; 1; 0;
   4; 0; 1; 0; 2; 0; 1; 0; 3; 0; 1; 0; 2; 0; 1; 0;
   5; 0; 1; 0; 2; 0; 1; 0; 3; 0; 1; 0; 2; 0; 1; 0;
   4; 0; 1; 0; 2; 0; 1; 0; 3; 0; 1; 0; 2; 0; 1; 0;
   7; 0; 1; 0; 2; 0; 1; 0; 3; 0; 1; 0; 2; 0; 1; 0;
   4; 0; 1; 0; 2; 0; 1; 0; 3; 0; 1; 0; 2; 0; 1; 0;
   5; 0; 1; 0; 2; 0; 1; 0; 3; 0; 1; 0; 2; 0; 1; 0;
   4; 0; 1; 0; 2; 0; 1; 0; 3; 0; 1; 0; 2; 0; 1; 0;
   6; 0; 1; 0; 2; 0; 1; 0; 3; 0; 1; 0; 2; 0; 1; 0;
   4; 0; 1; 0; 2; 0; 1; 0; 3; 0; 1; 0; 2; 0; 1; 0;
   5; 0; 1; 0; 2; 0; 1; 0; 3; 0; 1; 0; 2; 0; 1; 0;
   4; 0; 1; 0; 2; 0; 1; 0; 3; 0; 1; 0; 2; 0; 1; 0].

Definition number_of_ones : list Z :=
  [0; 1; 1; 2; 1; 2; 2; 3; 1; 2; 2; 3; 2; 3; 3; 4;
   1; 2; 2; 3; 2; 3; 3; 4; 2; 3; 3; 4; 3; 4; 4; 5;
   1; 2; 2; 3; 2; 3; 3; 4; 2; 3; 3; 4; 3; 4; 4; 5;
   2; 3; 3; 4; 3; 4; 4; 5; 3; 4; 4; 5; 4; 5; 5; 6;
   1; 2; 2; 3; 2; 3; 3; 4; 2; 3; 3; 4; 3; 4; 4; 5;
   2; 3; 3; 4; 3; 4; 4; 5; 3; 4; 4; 5; 4; 5; 5; 6;
   2; 3; 3; 4; 3; 4; 4; 5; 3; 4; 4; 5; 4; 5; 5; 6;
   3; 4; 4; 5; 4; 5; 5; 6; 4; 5; 5; 6; 5; 6; 6; 7;
   1; 2; 2; 3; 2; 3; 3; 4; 2; 3; 3; 4; 3; 4; 4; 5;
   2; 3; 3; 4; 3; 4; 4; 5; 3; 4; 4; 5; 4; 5; 5; 6;
   2; 3; 3; 4; 3; 4; 4; 5; 3; 4; 4; 5; 4; 5; 5; 6;
   3; 4; 4; 5; 4; 5; 5; 6; 4; 5; 5; 6; 5; 6; 6; 7;
   2; 3; 3; 4; 3; 4; 4; 5; 3; 4; 4; 5; 4; 5; 5; 6;
   3; 4; 4; 5; 4; 5; 5; 6; 4; 5; 5; 6; 5; 6; 6; 7;
   3; 4; 4; 5; 4; 5; 5; 6; 4; 5; 5; 6; 5; 6; 6; 7;
   4; 5; 5; 6; 5; 6; 6; 7; 5; 6; 6; 7; 6; 7; 7; 8].

(** A table indexed with [w & 255]. *)
Definition table (t : list Z) (w : bitmapword) : Z := nth (Z.to_nat (Z.land w 255)) t 0.

(** The position of the rightmost one, counted from [result]: the loop that skips zero
    bytes.  Four turns are enough for a word that is not zero. *)
Fixpoint skip_bytes (fuel : nat) (w : bitmapword) (result : Z) : res Z :=
  if Z.land w 255 =? 0 then
    match fuel with
    | O => Err EFuel
    | S fuel => skip_bytes fuel (Z.shiftr w 8) (result + 8)
    end
  else Ok (result + table rightmost_one_pos w).

Definition first_bit (w : bitmapword) (result : Z) : res Z := skip_bytes 4 w result.

(** The loop that counts the ones of a word. *)
Fixpoint count_ones (fuel : nat) (w : bitmapword) (result : Z) : res Z :=
  if w =? 0 then Ok result
  else
    match fuel with
    | O => Err EFuel
    | S fuel => count_ones fuel (Z.shiftr w 8) (result + table number_of_ones w)
    end.

(** ** Construction *)

Definition bms_copy (a : option Bitmapset) : option Bitmapset := a.

Definition bms_make_singleton (x : Z) : res (option Bitmapset) :=
  if x <? 0 then Err EElog
  else Ok (Some (replicate (Z.to_nat (WORDNUM x)) 0 ++ [bit (BITNUM x)])).

(** ** Tests *)

Fixpoint all_zero (a : Bitmapset) : bool :=
  match a with
  | [] => true
  | w :: a => if negb (w =? 0) then false else all_zero a
  end.

Definition bms_is_empty (a : option Bitmapset) : bool :=
  match a with None => true | Some a => all_zero a end.

(** The two loops of [bms_equal], the first argument being the shorter one. *)
Fixpoint equal_words (shorter longer : Bitmapset) : bool :=
  match shorter, longer with
  | w :: shorter, w' :: longer => if negb (w =? w') then false else equal_words shorter longer
  | _, longer => all_zero longer
  end.

Definition bms_equal (a b : option Bitmapset) : bool :=
  match a, b with
  | None, None => true
  | None, Some _ => bms_is_empty b
  | Some _, None => bms_is_empty a
  | Some a, Some b => if nwords a <=? nwords b then equal_words a b else equal_words b a
  end.

Fixpoint subset_words (a b : Bitmapset) : bool :=
  match a, b with
  | w :: a, w' :: b => if negb (Z.land w (lnot_word w') =? 0) then false else subset_words a b
  | a, [] => all_zero a
  | [], _ => true
  end.

Definition bms_is_subset (a b : option Bitmapset) : bool :=
  match a, b with
  | None, _ => true
  | Some _, None => bms_is_empty a
  | Some a, Some b => subset_words a b
  end.

(** [result] after a word of the first (second) set that has members the other has
    not; None stands for the early return of BMS_DIFFERENT. *)
Definition not_subset1 (result : BMS_Comparison) : option BMS_Comparison :=
  match result with BMS_SUBSET1 => None | _ => Some BMS_SUBSET2 end.
Definition not_subset2 (result : BMS_Comparison) : option BMS_Comparison :=
  match result with BMS_SUBSET2 => None | _ => Some BMS_SUBSET1 end.

(** The loops over the extra words of one of the sets. *)
Fixpoint extra_words (note : BMS_Comparison → option BMS_Comparison) (result : BMS_Comparison) (a : Bitmapset)
    : BMS_Comparison :=
  match a with
  | [] => result
  | w :: a =>
      if negb (w =? 0) then
        match note result with None => BMS_DIFFERENT | Some result => extra_words note result a end
      else extra_words note result a
  end.

Fixpoint compare_words (result : BMS_Comparison) (a b : Bitmapset) : BMS_Comparison :=
  match a, b with
  | aword :: a, bword :: b =>
      match (if negb (Z.land aword (lnot_word bword) =? 0) then not_subset1 result else Some result) with
      | None => BMS_DIFFERENT
      | Some result =>
          match (if negb (Z.land bword (lnot_word aword) =? 0) then not_subset2 result else Some result) with
          | None => BMS_DIFFERENT
          | Some result => compare_words result a b
          end
      end
  | a, [] => extra_words not_subset1 result a
  | [], b => extra_words not_subset2 result b
  end.

Definition bms_subset_compare (a b : option Bitmapset) : BMS_Comparison :=
  match a, b with
  | None, None => BMS_EQUAL
  | None, Some _ => if bms_is_empty b then BMS_EQUAL else BMS_SUBSET1
  | Some _, None => if bms_is_empty a then BMS_EQUAL else BMS_SUBSET2
  | Some a, Some b => compare_words BMS_EQUAL a b
  end.

Definition bms_is_member (x : Z) (a : option Bitmapset) : res bool :=
  if x <? 0 then Err EElog else
  match a with
  | None => Ok false
  | Some a =>
      if nwords a <=? WORDNUM x then Ok false
      else Ok (negb (Z.land (nth (Z.to_nat (WORDNUM x)) a 0) (bit (BITNUM x)) =? 0))
  end.

Fixpoint overlap_words (a b : Bitmapset) : bool :=
  match a, b with
  | w :: a, w' :: b => if negb (Z.land w w' =? 0) then true else overlap_words a b
  | _, _ => false
  end.

Definition bms_overlap (a b : option Bitmapset) : bool :=
  match a, b with Some a, Some b => overlap_words a b | _, _ => false end.

Fixpoint difference_nonempty (a b : Bitmapset) : bool :=
  match a, b with
  | w :: a, w' :: b => if negb (Z.land w (lnot_word w') =? 0) then true else difference_nonempty a b
  | a, [] => negb (all_zero a)
  | [], _ => false
  end.

Definition bms_nonempty_difference (a b : option Bitmapset) : bool :=
  match a, b with
  | None, _ => false
  | Some _, None => negb (bms_is_empty a)
  | Some a, Some b => difference_nonempty a b
  end.

(** ** Members *)

(** The loop that looks for the only member; None is "multiple members". *)
Fixpoint only_member (wordnum result : Z) (a : Bitmapset) : res (option Z) :=
  match a with
  | [] => Ok (Some result)
  | w :: a =>
      if negb (w =? 0) then
        if (0 <=? result) || HAS_MULTIPLE_ONES w then Ok None
        else
          match first_bit w (wordnum * BITS_PER_BITMAPWORD) with
          | Err e => Err e
          | Ok result => only_member (wordnum + 1) result a
          end
      else only_member (wordnum + 1) result a
  end.

Definition bms_singleton_member (a : option Bitmapset) : res Z :=
  match a with
  | None => Err EElog
  | Some a =>
      match only_member 0 (-1) a with
      | Err e => Err e
      | Ok None => Err EElog
      | Ok (Some result) => if result <? 0 then Err EElog else Ok result
      end
  end.

(** Returns the member, if the set is a singleton. *)
Definition bms_get_singleton_member (a : option Bitmapset) : res (option Z) :=
  match a with
  | None => Ok None
  | Some a =>
      match only_member 0 (-1) a with
      | Err e => Err e
      | Ok None => Ok None
      | Ok (Some result) => Ok (if result <? 0 then None else Some result)
      end
  end.

Fixpoint num_members_words (result : Z) (a : Bitmapset) : res Z :=
  match a with
  | [] => Ok result
  | w :: a =>
      match count_ones 4 w result with
      | Err e => Err e
      | Ok result => num_members_words result a
      end
  end.

Definition bms_num_members (a : option Bitmapset) : res Z :=
  match a with None => Ok 0 | Some a => num_members_words 0 a end.

Fixpoint membership_words (result : BMS_Membership) (a : Bitmapset) : BMS_Membership :=
  match a with
  | [] => result
  | w :: a =>
      if negb (w =? 0) then
        match result with
        | BMS_EMPTY_SET => if HAS_MULTIPLE_ONES w then BMS_MULTIPLE else membership_words BMS_SINGLETON a
        | _ => BMS_MULTIPLE
        end
      else membership_words result a
  end.

Definition bms_membership (a : option Bitmapset) : BMS_Membership :=
  match a with None => BMS_EMPTY_SET | Some a => membership_words BMS_EMPTY_SET a end.

(** ** Set operations *)

(** [result->words[i] |= other->words[i]] for the words of [other]. *)
Fixpoint or_words (result other : Bitmapset) : Bitmapset :=
  match result, other with
  | w :: result, w' :: other => Z.lor w w' :: or_words result other
  | result, _ => result
  end.

Fixpoint and_words (result other : Bitmapset) : Bitmapset :=
  match result, other with
  | w :: result, w' :: other => Z.land w w' :: and_words result other
  | result, _ => result
  end.

Fixpoint andnot_words (result other : Bitmapset) : Bitmapset :=
  match result, other with
  | w :: result, w' :: other => Z.land w (lnot_word w') :: andnot_words result other
  | result, _ => result
  end.

Definition bms_union (a b : option Bitmapset) : option Bitmapset :=
  match a, b with
  | None, _ => bms_copy b
  | _, None => bms_copy a
  | Some a, Some b => Some (if nwords a <=? nwords b then or_words b a else or_words a b)
  end.

Definition bms_intersect (a b : option Bitmapset) : option Bitmapset :=
  match a, b with
  | Some a, Some b => Some (if nwords a <=? nwords b then and_words a b else and_words b a)
  | _, _ => None
  end.

Definition bms_difference (a b : option Bitmapset) : option Bitmapset :=
  match a, b with
  | None, _ => None
  | _, None => bms_copy a
  | Some a, Some b => Some (andnot_words a b)
  end.

Definition bms_add_member (a : option Bitmapset) (x : Z) : res (option Bitmapset) :=
  if x <? 0 then Err EElog else
  match a with
  | None => bms_make_singleton x
  | Some a =>
      let wordnum := WORDNUM x in
      let a := if nwords a <=? wordnum then a ++ replicate (Z.to_nat (wordnum + 1 - nwords a)) 0 else a in
      Ok (Some (alter (λ w, Z.lor w (bit (BITNUM x))) (Z.to_nat wordnum) a))
  end.

Definition bms_del_member (a : option Bitmapset) (x : Z) : res (option Bitmapset) :=
  if x <? 0 then Err EElog else
  match a with
  | None => Ok None
  | Some a =>
      Ok (Some (if WORDNUM x <? nwords a
                then alter (λ w, Z.land w (lnot_word (bit (BITNUM x)))) (Z.to_nat (WORDNUM x)) a
                else a))
  end.

Definition bms_add_members (a b : option Bitmapset) : option Bitmapset :=
  match a, b with
  | None, _ => bms_copy b
  | _, None => a
  | Some a, Some b => Some (if nwords a <? nwords b then or_words b a else or_words a b)
  end.

(** The words of [a] beyond those of [b] are cleared. *)
Fixpoint int_words (a b : Bitmapset) : Bitmapset :=
  match a, b with
  | w :: a, w' :: b => Z.land w w' :: int_words a b
  | _ :: a, [] => 0 :: int_words a []
  | [], _ => []
  end.

Definition bms_int_members (a b : option Bitmapset) : option Bitmapset :=
  match a, b with
  | Some a, Some b => Some (int_words a b)
  | _, _ => None
  end.

Definition bms_del_members (a b : option Bitmapset) : option Bitmapset :=
  match a, b with
  | None, _ => None
  | _, None => a
  | Some a, Some b => Some (andnot_words a b)
  end.

Definition bms_join (a b : option Bitmapset) : option Bitmapset :=
  match a, b with
  | None, _ => b
  | _, None => a
  | Some a, Some b => Some (if nwords a <? nwords b then or_words b a else or_words a b)
  end.

(** ** Iteration *)

(** The member, or None, and the words left. *)
Fixpoint first_member_words (wordnum : Z) (a : Bitmapset) : res (option Z * Bitmapset) :=
  match a with
  | [] => Ok (None, [])
  | w :: a =>
      if negb (w =? 0) then
        let w1 := RIGHTMOST_ONE w in
        match first_bit w1 (wordnum * BITS_PER_BITMAPWORD) with
        | Err e => Err e
        | Ok result => Ok (Some result, Z.land w (lnot_word w1) :: a)
        end
      else
        match first_member_words (wordnum + 1) a with
        | Err e => Err e
        | Ok (r, a) => Ok (r, w :: a)
        end
  end.

Definition bms_first_member (a : option Bitmapset) : res (Z * option Bitmapset) :=
  match a with
  | None => Ok (-1, None)
  | Some a =>
      match first_member_words 0 a with
      | Err e => Err e
      | Ok (None, a) => Ok (-1, Some a)
      | Ok (Some result, a) => Ok (result, Some a)
      end
  end.

(** [(~(bitmapword) 0) << n]. *)
Definition high_mask (n : Z) : bitmapword := wrap (Z.shiftl (lnot_word 0) n).

(** The loop from word number [wordnum] on; [a] are the words from there on. *)
Fixpoint next_member_words (wordnum : Z) (mask : bitmapword) (a : Bitmapset) : res Z :=
  match a with
  | [] => Ok (-2)
  | w :: a =>
      let w := Z.land w mask in
      if negb (w =? 0) then first_bit w (wordnum * BITS_PER_BITMAPWORD)
      else next_member_words (wordnum + 1) (lnot_word 0) a
  end.

Definition INT_MAX : Z := 2 ^ 31 - 1.

(** For [prevbit] at least -1, as the comment asks.  It is an int: at INT_MAX the increment
    wraps around, and the loop starts to read far before the array. *)
Definition bms_next_member (a : option Bitmapset) (prevbit : Z) : res Z :=
  match a with
  | None => Ok (-2)
  | Some a =>
      if INT_MAX <=? prevbit then Err EDangling else
      let prevbit := prevbit + 1 in
      next_member_words (WORDNUM prevbit) (high_mask (BITNUM prevbit)) (drop (Z.to_nat (WORDNUM prevbit)) a)
  end.

(** ** Hashing *)

(** The words up to the last one that is not zero. *)
Fixpoint strip (a : Bitmapset) : Bitmapset :=
  match a with
  | [] => []
  | w :: a => match strip a with [] => if w =? 0 then [] else [w] | a => w :: a end
  end.

(** [hash_any] stands for the hash of the bytes of an array of words. *)
Definition bms_hash_value (hash_any : Bitmapset → Z) (a : option Bitmapset) : Z :=
  match a with
  | None => 0
  | Some a => match strip a with [] => 0 | words => hash_any words end
  end.
