(* ===== verification/BitWords.v ===== *)
(** The word level of bitmapset.c: which bits the masks, the complement, the trick for
    the rightmost one and the two lookup tables give, for every 32-bit word. *)

From S2P Require Import Prelude Bitmapset.

Definition word_ok (w : bitmapword) : Prop := 0 ≤ w < 2 ^ 32.

#[global] Instance word_ok_dec w : Decision (word_ok w).
Proof. unfold word_ok. apply _. Defined.

(** ** Bits *)

Lemma testbit_neg w n : n < 0 → Z.testbit w n = false.
Proof. apply Z.testbit_neg_r. Qed.

Lemma testbit_high w n : word_ok w → 32 ≤ n → Z.testbit w n = false.
Proof.
  intros [H0 H1] Hn. destruct (decide (w = 0)) as [->|Hw]; [apply Z.bits_0|].
  apply Z.bits_above_log2; [lia|].
  apply Z.log2_lt_pow2; [lia|]. apply Z.lt_le_trans with (2 ^ 32); [lia|]. by apply Z.pow_le_mono_r.
Qed.

Lemma word_ok_bits w : 0 ≤ w → (∀ n, 32 ≤ n → Z.testbit w n = false) → word_ok w.
Proof.
  intros H0 Hb. split; [done|]. destruct (decide (w = 0)) as [->|Hw]; [lia|].
  apply Z.log2_lt_pow2; [lia|]. destruct (decide (Z.log2 w < 32)) as [|Hge]; [done|].
  specialize (Hb (Z.log2 w) ltac:(lia)). rewrite Z.bit_log2 in Hb by lia. done.
Qed.

Lemma zero_bits w : (∀ n, Z.testbit w n = false) → w = 0.
Proof. intros H. apply Z.bits_inj'. intros n _. by rewrite H, Z.bits_0. Qed.

Lemma nonzero_bit w : 0 ≤ w → w ≠ 0 → ∃ n, 0 ≤ n ∧ Z.testbit w n = true.
Proof. intros ??. exists (Z.log2 w). split; [apply Z.log2_nonneg|]. apply Z.bit_log2. lia. Qed.

Lemma wrap_testbit z n : 0 ≤ n → Z.testbit (wrap z) n = (n <? 32) && Z.testbit z n.
Proof.
  intros Hn. unfold wrap, BITS_PER_BITMAPWORD. rewrite Z.testbit_mod_pow2 by lia. by rewrite andb_comm.
Qed.

Lemma lnot_testbit w n : 0 ≤ n → Z.testbit (lnot_word w) n = (n <? 32) && negb (Z.testbit w n).
Proof. intros Hn. unfold lnot_word. rewrite wrap_testbit, Z.lnot_spec by done. done. Qed.

Lemma bit_testbit b n : 0 ≤ b < 32 → Z.testbit (bit b) n = (n =? b).
Proof.
  intros Hb. destruct (decide (n < 0)); [rewrite testbit_neg by done; lia|].
  unfold bit. rewrite wrap_testbit by lia. rewrite Z.shiftl_1_l, Z.pow2_bits_eqb by lia. lia.
Qed.

Lemma high_mask_testbit k n : 0 ≤ k < 32 → 0 ≤ n → Z.testbit (high_mask k) n = (n <? 32) && (k <=? n).
Proof.
  intros Hk Hn. unfold high_mask. rewrite wrap_testbit, Z.shiftl_spec by done.
  destruct (decide (n < k)); [rewrite testbit_neg by lia; lia|].
  rewrite lnot_testbit, Z.bits_0 by lia. lia.
Qed.

Lemma all_ones_testbit n : 0 ≤ n → Z.testbit (lnot_word 0) n = (n <? 32).
Proof. intros Hn. rewrite lnot_testbit, Z.bits_0 by done. simpl. apply andb_true_r. Qed.

(** Rewrites the bits of an expression on words at a position that is not negative. *)
Ltac bits :=
  repeat first
    [ rewrite Z.lor_spec | rewrite Z.land_spec | rewrite Z.bits_0
    | rewrite lnot_testbit by lia | rewrite bit_testbit by lia | rewrite all_ones_testbit by lia
    | rewrite high_mask_testbit by lia | rewrite Z.shiftr_spec by lia ].

(** Every word operation stays within 32 bits. *)
Lemma wrap_ok z : word_ok (wrap z).
Proof. unfold word_ok, wrap, BITS_PER_BITMAPWORD. by apply Z.mod_pos_bound. Qed.

Lemma land_ok_l w v : word_ok w → 0 ≤ v → word_ok (Z.land w v).
Proof.
  intros Hw Hv. apply word_ok_bits; [apply Z.land_nonneg; unfold word_ok in *; lia|].
  intros n Hn. by rewrite Z.land_spec, testbit_high.
Qed.

Lemma lor_ok w v : word_ok w → word_ok v → word_ok (Z.lor w v).
Proof.
  intros Hw Hv. apply word_ok_bits; [apply Z.lor_nonneg; unfold word_ok in *; lia|].
  intros n Hn. by rewrite Z.lor_spec, !testbit_high.
Qed.

Lemma word_ok_nonneg w : word_ok w → 0 ≤ w.
Proof. unfold word_ok. lia. Qed.

Lemma word_ok_0 : word_ok 0.
Proof. unfold word_ok. lia. Qed.

Lemma lnot_ok w : word_ok (lnot_word w).
Proof. apply wrap_ok. Qed.

Lemma bit_ok b : word_ok (bit b).
Proof. apply wrap_ok. Qed.

Lemma high_mask_ok k : word_ok (high_mask k).
Proof. apply wrap_ok. Qed.

Create HintDb word discriminated.
#[export] Hint Resolve wrap_ok lor_ok land_ok_l word_ok_nonneg word_ok_0 lnot_ok bit_ok high_mask_ok : word.

Lemma shiftr_ok w k : word_ok w → 0 ≤ k → word_ok (Z.shiftr w k).
Proof.
  intros Hw Hk. apply word_ok_bits; [apply Z.shiftr_nonneg; auto with word|].
  intros n Hn. rewrite Z.shiftr_spec by lia. apply testbit_high; [done|lia].
Qed.
#[export] Hint Resolve shiftr_ok : word.

(** ** The rightmost one *)

(** [k] is the position of the rightmost one of [w]. *)
Definition lowest (w k : Z) : Prop :=
  0 ≤ k ∧ Z.testbit w k = true ∧ ∀ j, j < k → Z.testbit w j = false.

Lemma lowest_unique w k k' : lowest w k → lowest w k' → k = k'.
Proof.
  intros (_ & H1 & H2) (_ & H3 & H4). destruct (Z.lt_trichotomy k k') as [Hl|[->|Hl]]; [|done|].
  - rewrite (H4 _ Hl) in H1. done.
  - rewrite (H2 _ Hl) in H3. done.
Qed.

Lemma lowest_lt w k : word_ok w → lowest w k → k < 32.
Proof.
  intros Hw (_ & Hk & _). destruct (decide (k < 32)) as [|Hge]; [done|].
  rewrite testbit_high in Hk by (done || lia). done.
Qed.

(** The table is right on every byte, by computation. *)
Definition rightmost_check (b : nat) : bool :=
  let k := nth b rightmost_one_pos 0 in
  (0 <=? k) && Z.testbit (Z.of_nat b) k
  && forallb (λ j, (k <=? Z.of_nat j) || negb (Z.testbit (Z.of_nat b) (Z.of_nat j))) (seq 0 8).

Lemma rightmost_table : forallb rightmost_check (seq 1 255) = true.
Proof. vm_compute. reflexivity. Qed.

Lemma byte_testbit w n : Z.testbit (Z.land w 255) n = (n <? 8) && Z.testbit w n.
Proof.
  destruct (decide (n < 0)); [rewrite !testbit_neg by done; by rewrite andb_false_r|].
  change 255 with (Z.ones 8). rewrite Z.land_ones by lia. rewrite Z.testbit_mod_pow2 by lia.
  by rewrite andb_comm.
Qed.

Lemma byte_range w : 0 ≤ Z.land w 255 < 256.
Proof. change 255 with (Z.ones 8). rewrite Z.land_ones by lia. by apply Z.mod_pos_bound. Qed.

Lemma table_lowest w : Z.land w 255 ≠ 0 → lowest w (table rightmost_one_pos w).
Proof.
  intros Hne. pose proof (byte_range w) as Hr. unfold table.
  assert (H : rightmost_check (Z.to_nat (Z.land w 255)) = true).
  { pose proof (proj1 (forallb_Forall _ _) rightmost_table) as HF.
    rewrite Forall_forall in HF. apply HF. apply elem_of_seq. lia. }
  unfold rightmost_check in H. rewrite Z2Nat.id in H by lia.
  set (k := nth (Z.to_nat (Z.land w 255)) rightmost_one_pos 0) in *.
  apply andb_prop in H as [H H3]. apply andb_prop in H as [H1 H2].
  rewrite byte_testbit in H2. apply andb_prop in H2 as [H2 H2'].
  split; [lia|]. split; [done|]. intros j Hj.
  destruct (decide (j < 0)); [by apply testbit_neg|].
  apply (proj1 (forallb_Forall _ _)) in H3. rewrite Forall_forall in H3.
  specialize (H3 (Z.to_nat j) ltac:(apply elem_of_seq; lia)).
  rewrite Z2Nat.id, byte_testbit in H3 by lia. destruct (Z.testbit w j); [lia|done].
Qed.

Lemma zero_byte w j : Z.land w 255 = 0 → j < 8 → Z.testbit w j = false.
Proof.
  intros H Hj. pose proof (byte_testbit w j) as E. rewrite H, Z.bits_0 in E.
  destruct (Z.testbit w j); [|done]. rewrite andb_true_r in E. lia.
Qed.

(** The loop over bytes ends within four turns on a word that is not zero, at its
    rightmost one. *)
Lemma skip_bytes_ok n w r :
  0 ≤ w < 2 ^ (8 * (Z.of_nat n + 1)) → w ≠ 0 →
  ∃ k, skip_bytes n w r = Ok (r + k) ∧ lowest w k.
Proof.
  revert w r. induction n as [|n IH]; intros w r Hw Hne; simpl;
    (destruct (Z.eqb_spec (Z.land w 255) 0) as [E|E]; [|eauto using table_lowest]).
  - exfalso. apply Hne. change 255 with (Z.ones 8) in E. rewrite Z.land_ones, Z.mod_small in E by lia. done.
  - assert (Hs : Z.shiftr w 8 ≠ 0).
    { intros E'. apply Hne, zero_bits. intros j. destruct (decide (j < 8)); [by apply zero_byte|].
      replace j with ((j - 8) + 8) by lia. rewrite <-Z.shiftr_spec by lia. by rewrite E', Z.bits_0. }
    destruct (IH (Z.shiftr w 8) (r + 8)) as (k & E1 & Hk1 & Hk2 & Hk3); [|done|].
    { split; [apply Z.shiftr_nonneg; lia|]. rewrite Z.shiftr_div_pow2 by lia.
      apply Z.div_lt_upper_bound; [lia|]. rewrite <-Z.pow_add_r by lia.
      replace (8 + 8 * (Z.of_nat n + 1)) with (8 * (Z.of_nat (S n) + 1)) by lia. lia. }
    exists (k + 8). split; [rewrite E1; f_equal; lia|]. split; [lia|].
    rewrite Z.shiftr_spec in Hk2 by lia. split; [done|]. intros j Hj.
    destruct (decide (j < 8)); [by apply zero_byte|].
    replace j with ((j - 8) + 8) by lia. rewrite <-Z.shiftr_spec by lia. apply Hk3. lia.
Qed.

Lemma first_bit_ok w r : word_ok w → w ≠ 0 → ∃ k, first_bit w r = Ok (r + k) ∧ lowest w k.
Proof.
  intros [H0 H1] Hne. apply skip_bytes_ok; [|done]. split; [done|].
  eapply Z.lt_le_trans; [done|]. by apply Z.pow_le_mono_r.
Qed.

Lemma first_bit_lowest w r k : word_ok w → lowest w k → first_bit w r = Ok (r + k).
Proof.
  intros Hw Hk. destruct (first_bit_ok w r) as (k' & E & Hk'); [done| |].
  - intros ->. destruct Hk as (_ & Hk & _). by rewrite Z.bits_0 in Hk.
  - by rewrite (lowest_unique _ _ _ Hk Hk').
Qed.

Lemma lowest_exists w : word_ok w → w ≠ 0 → ∃ k, lowest w k.
Proof. intros Hw Hne. destruct (first_bit_ok w 0) as (k & _ & Hk); eauto. Qed.

(** [w & -w] keeps exactly the rightmost one. *)
Lemma land_opp_pow2 m k : 0 ≤ k → Z.land ((2 * m + 1) * 2 ^ k) (- ((2 * m + 1) * 2 ^ k)) = 2 ^ k.
Proof.
  intros Hk. rewrite <-Z.mul_opp_l, <-!Z.shiftl_mul_pow2, <-Z.shiftl_land by done.
  rewrite <-(Z.mul_1_l (2 ^ k)), <-Z.shiftl_mul_pow2 by done. f_equal.
  replace (- (2 * m + 1)) with (2 * Z.lnot m + 1) by (unfold Z.lnot; lia).
  apply Z.bits_inj'. intros n Hn. rewrite Z.land_spec.
  destruct (decide (n = 0)) as [->|]; [by rewrite !Z.testbit_odd_0|].
  replace n with (Z.succ (n - 1)) by lia. rewrite !Z.testbit_odd_succ by lia.
  rewrite Z.lnot_spec, andb_negb_r by lia. symmetry.
  change 1 with (2 ^ 0) at 1. apply Z.pow2_bits_false. lia.
Qed.

Lemma lowest_split w k : lowest w k → ∃ m, w = (2 * m + 1) * 2 ^ k.
Proof.
  intros (H0 & H1 & H2). exists (Z.shiftr w (k + 1)).
  assert (E : Z.shiftr w k = 2 * Z.shiftr w (k + 1) + 1).
  { replace (Z.shiftr w (k + 1)) with (Z.div2 (Z.shiftr w k))
      by (rewrite Z.div2_spec, Z.shiftr_shiftr by lia; done).
    rewrite (Z.div2_odd (Z.shiftr w k)) at 1. f_equal.
    rewrite <-Z.bit0_odd, Z.shiftr_spec by lia. by rewrite Z.add_0_l, H1. }
  rewrite <-E, <-Z.shiftl_mul_pow2 by done.
  apply Z.bits_inj'. intros n Hn. rewrite Z.shiftl_spec by done.
  destruct (decide (n < k)); [rewrite (testbit_neg _ (n - k)) by lia; by apply H2|].
  rewrite Z.shiftr_spec by lia. f_equal. lia.
Qed.

Lemma land_wrap w z : word_ok w → Z.land w (wrap z) = Z.land w z.
Proof.
  intros Hw. apply Z.bits_inj'. intros n Hn. rewrite !Z.land_spec, wrap_testbit by done.
  destruct (Z.ltb_spec n 32); [done|]. by rewrite (testbit_high w).
Qed.

Lemma RIGHTMOST_ONE_lowest w k : word_ok w → lowest w k → RIGHTMOST_ONE w = 2 ^ k.
Proof.
  intros Hw Hk. unfold RIGHTMOST_ONE. rewrite land_wrap by done.
  destruct (lowest_split _ _ Hk) as [m ->]. apply land_opp_pow2. by destruct Hk.
Qed.

(** [HAS_MULTIPLE_ONES] is false exactly on the words with one bit. *)
Lemma HAS_MULTIPLE_ONES_spec w k :
  word_ok w → lowest w k → HAS_MULTIPLE_ONES w = false ↔ ∀ n, Z.testbit w n = true → n = k.
Proof.
  intros Hw Hk. unfold HAS_MULTIPLE_ONES. rewrite (RIGHTMOST_ONE_lowest w k) by done.
  rewrite negb_false_iff, Z.eqb_eq. assert (0 ≤ k) by (by destruct Hk). split.
  - intros <- n. rewrite Z.pow2_bits_eqb by done. lia.
  - intros H1. apply Z.bits_inj'. intros n Hn. rewrite Z.pow2_bits_eqb by done.
    destruct (Z.eqb_spec k n) as [<-|Hne]; [by destruct Hk as (_ & -> & _)|].
    destruct (Z.testbit w n) eqn:E; [|done]. by apply H1 in E.
Qed.

(** ** Counting ones *)

(** The number of ones among the bits from [s] on, [n] of them. *)
Definition ones (w : Z) (s n : nat) : Z :=
  Z.of_nat (length (filter (λ i, Z.testbit w (Z.of_nat i) = true) (seq s n))).

Lemma ones_add w s n m : ones w s (n + m) = ones w s n + ones w (s + n) m.
Proof. unfold ones. rewrite seq_app, filter_app, length_app. lia. Qed.

Lemma ones_ext w v s n m :
  (∀ i, (i < n)%nat → Z.testbit w (Z.of_nat (s + i)) = Z.testbit v (Z.of_nat (m + i))) → ones w s n = ones v m n.
Proof.
  revert s m. induction n as [|n IH]; intros s m H; [done|]. unfold ones. simpl. rewrite !filter_cons.
  pose proof (H 0%nat ltac:(lia)) as H0. rewrite !Nat.add_0_r in H0. rewrite H0.
  specialize (IH (S s) (S m)). unfold ones in IH.
  assert (E := IH ltac:(intros i Hi; specialize (H (S i) ltac:(lia)); by rewrite !Nat.add_succ_r in H)).
  case_decide; simpl; lia.
Qed.

Definition ones_check (b : nat) : bool := nth b number_of_ones 0 =? ones (Z.of_nat b) 0 8.

Lemma ones_table : forallb ones_check (seq 0 256) = true.
Proof. vm_compute. reflexivity. Qed.

Lemma table_ones w : table number_of_ones w = ones w 0 8.
Proof.
  pose proof (byte_range w) as Hr. unfold table.
  assert (H : ones_check (Z.to_nat (Z.land w 255)) = true).
  { pose proof (proj1 (forallb_Forall _ _) ones_table) as HF.
    rewrite Forall_forall in HF. apply HF. apply elem_of_seq. lia. }
  unfold ones_check in H. apply Z.eqb_eq in H. rewrite H, Z2Nat.id by lia.
  apply ones_ext. intros i Hi. rewrite byte_testbit. destruct (Z.ltb_spec (Z.of_nat (0 + i)) 8); [done|lia].
Qed.

Lemma ones_0 s n : ones 0 s n = 0.
Proof.
  unfold ones. revert s. induction n as [|n IH]; intros s; [done|]. simpl. rewrite filter_cons, Z.bits_0.
  case_decide; [done|]. apply IH.
Qed.

Lemma ones_shiftr w k n : ones (Z.shiftr w (Z.of_nat k)) 0 n = ones w k n.
Proof. apply ones_ext. intros i Hi. rewrite Z.shiftr_spec by lia. f_equal. lia. Qed.

(** The loop over bytes ends within four turns and adds the number of ones. *)
Lemma count_ones_ok n w r :
  0 ≤ w < 2 ^ (8 * Z.of_nat n) → count_ones n w r = Ok (r + ones w 0 (8 * n)).
Proof.
  revert w r. induction n as [|n IH]; intros w r Hw; simpl count_ones;
    (destruct (Z.eqb_spec w 0) as [->|Hne]; [rewrite ones_0; f_equal; lia|]).
  - simpl in Hw. lia.
  - rewrite IH.
    + replace (8 * S n)%nat with (8 + 8 * n)%nat by lia. rewrite ones_add, table_ones.
      change 8 with (Z.of_nat 8) at 1. rewrite ones_shiftr. f_equal. simpl (0 + 8)%nat. lia.
    + split; [apply Z.shiftr_nonneg; lia|]. rewrite Z.shiftr_div_pow2 by lia.
      apply Z.div_lt_upper_bound; [lia|]. rewrite <-Z.pow_add_r by lia.
      replace (8 + 8 * Z.of_nat n) with (8 * Z.of_nat (S n)) by lia. lia.
Qed.
