(* ===== verification/BitSpec.v ===== *)
(** The set a bitmap set stands for, and what the loops over the words of bitmapset.c
    compute of it. *)

From S2P Require Import Prelude Bitmapset BitWords.

(** ** The set of an array of words *)

(** The array as one integer, least significant word first. *)
Fixpoint value (a : Bitmapset) : Z :=
  match a with [] => 0 | w :: a => Z.lor w (Z.shiftl (value a) 32) end.

Definition inb (a : Bitmapset) (x : Z) : bool := Z.testbit (value a) x.

Definition words (a : option Bitmapset) : Bitmapset := default [] a.

(** Every word fits its 32 bits. *)
Definition bms_ok (a : option Bitmapset) : Prop := Forall word_ok (words a).

Definition members (a : option Bitmapset) : gset Z :=
  list_to_set (filter (λ x, inb (words a) x = true) (seqZ 0 (32 * nwords (words a)))).

Lemma inb_nil x : inb [] x = false.
Proof. apply Z.bits_0. Qed.

Lemma inb_neg a x : x < 0 → inb a x = false.
Proof. apply testbit_neg. Qed.

Lemma inb_cons w a x : word_ok w → inb (w :: a) x = if x <? 32 then Z.testbit w x else inb a (x - 32).
Proof.
  intros Hw. unfold inb. simpl value. destruct (decide (x < 0)).
  - rewrite !testbit_neg by lia. by destruct (x <? 32).
  - rewrite Z.lor_spec, Z.shiftl_spec by lia. destruct (Z.ltb_spec x 32).
    + rewrite (testbit_neg _ (x - 32)) by lia. apply orb_false_r.
    + by rewrite testbit_high.
Qed.

Lemma inb_hi w a x : word_ok w → 0 ≤ x → inb (w :: a) (x + 32) = inb a x.
Proof. intros Hw Hx. rewrite inb_cons by done. destruct (Z.ltb_spec (x + 32) 32); [lia|]. f_equal. lia. Qed.

Lemma inb_range a x : Forall word_ok a → inb a x = true → 0 ≤ x < 32 * nwords a.
Proof.
  intros Ha. revert x. induction Ha as [|w a Hw Ha IH]; intros x; [by rewrite inb_nil|].
  intros H. destruct (decide (x < 0)); [by rewrite inb_neg in H|].
  rewrite inb_cons in H by done. unfold nwords in *. simpl length. destruct (Z.ltb_spec x 32); [lia|].
  apply IH in H. lia.
Qed.

Lemma elem_of_members a x : bms_ok a → x ∈ members a ↔ inb (words a) x = true.
Proof.
  intros Ha. unfold members. rewrite elem_of_list_to_set, list_elem_of_filter, elem_of_seqZ.
  split; [tauto|]. intros H. pose proof (inb_range _ _ Ha H). split; [done|lia].
Qed.

Lemma inb_members a x : bms_ok a → inb (words a) x = bool_decide (x ∈ members a).
Proof.
  intros Ha. pose proof (elem_of_members a x Ha) as H. case_bool_decide; [tauto|].
  destruct (inb (words a) x); tauto.
Qed.

(** Sets are equal when they answer alike; the set of an operation is read off the bits
    of its result. *)
Lemma members_ext a X :
  bms_ok a → (∀ x, inb (words a) x = true ↔ x ∈ X) → members a = X.
Proof. intros Ha H. apply set_eq. intros x. by rewrite elem_of_members, H. Qed.

(** ** Predicates on the bits of two arrays *)

Section pointwise.
Context (P : bool → bool → Prop) (P_ff : P false false).

Lemma pointwise_cons w a w' b :
  word_ok w → word_ok w' →
  (∀ x, P (inb (w :: a) x) (inb (w' :: b) x)) ↔
  (∀ n, P (Z.testbit w n) (Z.testbit w' n)) ∧ (∀ x, P (inb a x) (inb b x)).
Proof.
  intros Hw Hw'. split.
  - intros H. split; intros x.
    + specialize (H x). rewrite !inb_cons in H by done. destruct (Z.ltb_spec x 32); [done|].
      by rewrite !testbit_high.
    + destruct (decide (x < 0)); [by rewrite !inb_neg|].
      specialize (H (x + 32)). by rewrite !inb_hi in H by (done || lia).
  - intros [H1 H2] x. rewrite !inb_cons by done. by destruct (x <? 32).
Qed.
End pointwise.

(** ** Tests *)

Lemma land_lnot_zero w w' :
  word_ok w → Z.land w (lnot_word w') = 0 ↔ ∀ n, Z.testbit w n = true → Z.testbit w' n = true.
Proof.
  intros Hw. split.
  - intros E n Hn. destruct (decide (n < 0)); [by rewrite testbit_neg in Hn|].
    destruct (decide (n < 32)); [|by rewrite testbit_high in Hn by (done || lia)].
    assert (H : Z.testbit (Z.land w (lnot_word w')) n = false) by (by rewrite E, Z.bits_0).
    revert H. bits. rewrite Hn. destruct (Z.testbit w' n); [done|]. simpl. lia.
  - intros H. apply zero_bits. intros n. destruct (decide (n < 0)); [by apply testbit_neg|].
    bits. specialize (H n). destruct (Z.testbit w n); [|done]. rewrite H by done. simpl. by rewrite andb_false_r.
Qed.

Lemma land_zero w w' : Z.land w w' = 0 ↔ ∀ n, Z.testbit w n && Z.testbit w' n = false.
Proof.
  split; [intros E n; by rewrite <-Z.land_spec, E, Z.bits_0|].
  intros H. apply zero_bits. intros n. by rewrite Z.land_spec.
Qed.

Lemma all_zero_spec a : Forall word_ok a → all_zero a = true ↔ ∀ x, inb a x = false.
Proof.
  induction 1 as [|w a Hw Ha IH]; simpl; [split; [|done]; intros _ x; apply inb_nil|].
  rewrite (pointwise_cons (λ p _, p = false) eq_refl w a w a), <-IH by done.
  destruct (Z.eqb_spec w 0) as [->|Hne]; simpl.
  - split; [|tauto]. intros H. split; [apply Z.bits_0|done].
  - split; [done|]. intros [H _]. by apply zero_bits in H.
Qed.

Lemma equal_words_spec a b :
  Forall word_ok a → Forall word_ok b → (length a ≤ length b)%nat →
  equal_words a b = true ↔ ∀ x, inb a x = inb b x.
Proof.
  intros Ha. revert b. induction Ha as [|w a Hw Ha IH]; intros b Hb Hl.
  - simpl. destruct b as [|w' b]; [done|]. rewrite all_zero_spec by done.
    split; intros H x; specialize (H x); by rewrite inb_nil in *.
  - destruct Hb as [|w' b Hw' Hb]; simpl in *; [lia|].
    rewrite (pointwise_cons eq eq_refl), <-IH by (done || lia).
    destruct (Z.eqb_spec w w') as [->|Hne]; simpl; [tauto|]. split; [done|].
    intros [H _]. by apply Z.bits_inj in H.
Qed.

Lemma subset_words_spec a b :
  Forall word_ok a → Forall word_ok b →
  subset_words a b = true ↔ ∀ x, inb a x = true → inb b x = true.
Proof.
  intros Ha. revert b. induction Ha as [|w a Hw Ha IH]; intros b Hb.
  - destruct b; simpl; split; try done; intros _ x; by rewrite inb_nil.
  - destruct Hb as [|w' b Hw' Hb].
    + change (subset_words (w :: a) []) with (all_zero (w :: a)). rewrite all_zero_spec by (by constructor).
      split; intros H x; specialize (H x); rewrite inb_nil in *; [congruence|].
      destruct (inb (w :: a) x); [symmetry; by apply H|done].
    + simpl. rewrite (pointwise_cons (λ p q, p = true → q = true)), <-IH, <-land_lnot_zero by done.
      destruct (Z.eqb_spec (Z.land w (lnot_word w')) 0); simpl; [tauto|]. split; [done|tauto].
Qed.

Lemma overlap_words_spec a b :
  Forall word_ok a → Forall word_ok b →
  overlap_words a b = false ↔ ∀ x, inb a x && inb b x = false.
Proof.
  intros Ha. revert b. induction Ha as [|w a Hw Ha IH]; intros b Hb.
  - split; [|done]. intros _ x. by rewrite inb_nil.
  - destruct Hb as [|w' b Hw' Hb].
    + split; [|done]. intros _ x. by rewrite inb_nil, andb_false_r.
    + simpl. rewrite (pointwise_cons (λ p q, p && q = false)), <-IH, <-land_zero by done.
      destruct (Z.eqb_spec (Z.land w w') 0); simpl; [tauto|]. split; [done|tauto].
Qed.

Lemma difference_nonempty_subset a b : difference_nonempty a b = negb (subset_words a b).
Proof.
  revert b. induction a as [|w a IH]; intros [|w' b]; try done. simpl. rewrite IH. by destruct (_ =? 0).
Qed.

(** The status of [bms_subset_compare] as two facts: whether the first set is still
    known to be within the second, and the second within the first. *)
Definition verdict (le ge : bool) : BMS_Comparison :=
  match le, ge with
  | true, true => BMS_EQUAL
  | true, false => BMS_SUBSET1
  | false, true => BMS_SUBSET2
  | false, false => BMS_DIFFERENT
  end.

Lemma extra_words_1 le ge a :
  le || ge = true → extra_words not_subset1 (verdict le ge) a = verdict (le && all_zero a) ge.
Proof.
  revert le. induction a as [|w a IH]; intros le H; simpl; [by rewrite andb_true_r|].
  destruct (w =? 0); simpl; [by apply IH|].
  destruct ge; destruct le; simpl in *; try done; apply (IH false); done.
Qed.

Lemma extra_words_2 le ge a :
  le || ge = true → extra_words not_subset2 (verdict le ge) a = verdict le (ge && all_zero a).
Proof.
  revert ge. induction a as [|w a IH]; intros ge H; simpl; [by rewrite andb_true_r|].
  destruct (w =? 0); simpl; [by apply IH|].
  destruct ge; destruct le; simpl in *; try done; apply (IH false); done.
Qed.

Lemma compare_words_verdict le ge a b :
  le || ge = true →
  compare_words (verdict le ge) a b = verdict (le && subset_words a b) (ge && subset_words b a).
Proof.
  revert le ge b. induction a as [|w a IH]; intros le ge b H.
  - destruct b as [|w' b]; [simpl; by rewrite !andb_true_r|].
    change (subset_words [] (w' :: b)) with true. rewrite andb_true_r. by apply extra_words_2.
  - destruct b as [|w' b].
    + change (subset_words [] (w :: a)) with true. rewrite andb_true_r. by apply extra_words_1.
    + simpl. destruct (Z.land w (lnot_word w') =? 0), (Z.land w' (lnot_word w) =? 0), le, ge; simpl in *; try done.
      all: try (by apply (IH true true)); try (by apply (IH true false)); try (by apply (IH false true)).
Qed.

(** ** Operations *)

Lemma or_words_ok a b :
  Forall word_ok a → Forall word_ok b → (length b ≤ length a)%nat →
  Forall word_ok (or_words a b) ∧ ∀ x, inb (or_words a b) x = inb a x || inb b x.
Proof.
  intros Ha. revert b. induction Ha as [|w a Hw Ha IH]; intros b Hb Hl.
  - destruct b; simpl in *; [|lia]. split; [constructor|]. intros x. by rewrite inb_nil.
  - destruct Hb as [|w' b Hw' Hb]; simpl in *.
    + split; [by constructor|]. intros x. by rewrite inb_nil, orb_false_r.
    + destruct (IH b Hb ltac:(lia)) as [Ho Hi]. split; [constructor; auto with word|]. intros x.
      rewrite !inb_cons by auto with word. rewrite Hi, Z.lor_spec. by destruct (x <? 32).
Qed.

Lemma and_words_ok a b :
  Forall word_ok a → Forall word_ok b → (length a ≤ length b)%nat →
  Forall word_ok (and_words a b) ∧ ∀ x, inb (and_words a b) x = inb a x && inb b x.
Proof.
  intros Ha. revert b. induction Ha as [|w a Hw Ha IH]; intros b Hb Hl.
  - split; [constructor|]. intros x. simpl. by rewrite inb_nil.
  - destruct Hb as [|w' b Hw' Hb]; simpl in *; [lia|].
    destruct (IH b Hb ltac:(lia)) as [Ho Hi]. split; [constructor; auto with word|]. intros x.
    rewrite !inb_cons by auto with word. rewrite Hi, Z.land_spec. by destruct (x <? 32).
Qed.

Lemma int_words_ok a b :
  Forall word_ok a → Forall word_ok b →
  Forall word_ok (int_words a b) ∧ ∀ x, inb (int_words a b) x = inb a x && inb b x.
Proof.
  intros Ha. revert b. induction Ha as [|w a Hw Ha IH]; intros b Hb.
  - split; [constructor|]. intros x. simpl. by rewrite inb_nil.
  - destruct Hb as [|w' b Hw' Hb]; simpl in *.
    + destruct (IH [] ltac:(constructor)) as [Ho Hi]. split; [constructor; auto with word|]. intros x.
      rewrite !inb_cons by auto with word. rewrite Hi, !inb_nil, !andb_false_r, Z.bits_0. by destruct (x <? 32).
    + destruct (IH b Hb) as [Ho Hi]. split; [constructor; auto with word|]. intros x.
      rewrite !inb_cons by auto with word. rewrite Hi, Z.land_spec. by destruct (x <? 32).
Qed.

Lemma andnot_words_ok a b :
  Forall word_ok a → Forall word_ok b →
  Forall word_ok (andnot_words a b) ∧ ∀ x, inb (andnot_words a b) x = inb a x && negb (inb b x).
Proof.
  intros Ha. revert b. induction Ha as [|w a Hw Ha IH]; intros b Hb.
  - split; [constructor|]. intros x. simpl. by rewrite inb_nil.
  - destruct Hb as [|w' b Hw' Hb]; simpl in *.
    + split; [by constructor|]. intros x. by rewrite inb_nil, andb_true_r.
    + destruct (IH b Hb) as [Ho Hi]. split; [constructor; auto with word|]. intros x.
      rewrite !inb_cons by auto with word. rewrite Hi. destruct (Z.ltb_spec x 32); [|done].
      destruct (decide (x < 0)); [by rewrite !testbit_neg|]. bits.
      destruct (Z.ltb_spec x 32); [done|lia].
Qed.

(** A word rewritten in place. *)
Lemma inb_alter f a i x :
  Forall word_ok a → (∀ w, word_ok w → word_ok (f w)) → (i < length a)%nat →
  Forall word_ok (alter f i a) ∧
  inb (alter f i a) x =
    (if decide (32 * Z.of_nat i ≤ x < 32 * Z.of_nat i + 32)
     then Z.testbit (f (nth i a 0)) (x - 32 * Z.of_nat i) else inb a x).
Proof.
  intros Ha Hf. revert i x. induction Ha as [|w a Hw Ha IH]; intros [|i] x Hl; simpl in Hl; try lia.
  - simpl. split; [constructor; auto|]. rewrite !inb_cons by auto.
    case_decide as E; destruct (Z.ltb_spec x 32); try done; try lia.
    + f_equal. lia.
    + by rewrite !testbit_neg by lia.
  - destruct (IH i (x - 32) ltac:(lia)) as [Ho Hi].
    change (alter f (S i) (w :: a)) with (w :: alter f i a). simpl nth.
    split; [by constructor|]. rewrite !inb_cons by done. rewrite Hi.
    destruct (Z.ltb_spec x 32); case_decide; case_decide; try lia; try done.
    f_equal. lia.
Qed.

Lemma inb_app_zeros a n x : Forall word_ok a → inb (a ++ replicate n 0) x = inb a x.
Proof.
  intros Ha. revert x. induction Ha as [|w a Hw Ha IH]; intros x; simpl.
  - induction n as [|n IH] in x |- *; [done|]. simpl. rewrite inb_cons, IH, !inb_nil, Z.bits_0 by auto with word.
    by destruct (x <? 32).
  - rewrite !inb_cons by done. by rewrite IH.
Qed.

Lemma zeros_ok n : Forall word_ok (replicate n 0).
Proof. apply Forall_replicate, word_ok_0. Qed.

Lemma inb_nth a x :
  Forall word_ok a → 0 ≤ x →
  inb a x = Z.testbit (nth (Z.to_nat (x / 32)) a 0) (x mod 32).
Proof.
  intros Ha. revert x. induction Ha as [|w a Hw Ha IH]; intros x Hx.
  - rewrite inb_nil. by destruct (Z.to_nat (x / 32)); simpl; rewrite Z.bits_0.
  - rewrite inb_cons by done. destruct (Z.ltb_spec x 32).
    + rewrite Z.div_small, Z.mod_small by lia. done.
    + rewrite IH by lia. replace x with ((x - 32) + 1 * 32) at 3 4 by lia.
      rewrite Z.div_add, Z.mod_add by lia.
      replace (Z.to_nat ((x - 32) / 32 + 1)) with (S (Z.to_nat ((x - 32) / 32))); [done|].
      pose proof (Z.div_pos (x - 32) 32). lia.
Qed.

Lemma inb_drop n a x : Forall word_ok a → 0 ≤ x → inb (drop n a) x = inb a (x + 32 * Z.of_nat n).
Proof.
  intros Ha. revert n x. induction Ha as [|w a Hw Ha IH]; intros [|n] x Hx; try (simpl; f_equal; lia).
  - by rewrite !inb_nil.
  - change (drop (S n) (w :: a)) with (drop n a). rewrite IH by done.
    replace (x + 32 * Z.of_nat (S n)) with (x + 32 * Z.of_nat n + 32) by lia. by rewrite inb_hi by (done || lia).
Qed.
