(* ===== verification/BitIter.v ===== *)
(** Members of a bitmap set one by one: the least member beyond a position, removal of
    the least member, the sole member, the count of members and the words that are
    hashed. *)

From stdpp Require Import sorting.
From S2P Require Import Prelude Bitmapset BitWords BitSpec.

(** ** The next member *)

(** [x] is the least member of [a] that is at least [k]. *)
Definition least_from (a : Bitmapset) (k x : Z) : Prop :=
  k ≤ x ∧ inb a x = true ∧ ∀ y, k ≤ y < x → inb a y = false.

Definition none_from (a : Bitmapset) (k : Z) : Prop := ∀ y, k ≤ y → inb a y = false.

Lemma mask_lowest w k n :
  word_ok w → 0 ≤ k < 32 → lowest (Z.land w (high_mask k)) n →
  k ≤ n < 32 ∧ Z.testbit w n = true ∧ ∀ j, k ≤ j < n → Z.testbit w j = false.
Proof.
  intros Hw Hk Hn. assert (Hm : n < 32) by (eapply lowest_lt; [|done]; auto with word).
  destruct Hn as (H0 & H1 & H2). revert H1. bits. intros H1.
  apply andb_prop in H1 as [H1 H3]. split; [lia|]. split; [done|]. intros j Hj.
  specialize (H2 j ltac:(lia)). revert H2. bits. destruct (Z.testbit w j); [|done]. simpl. lia.
Qed.

Lemma mask_zero w k :
  word_ok w → 0 ≤ k < 32 → Z.land w (high_mask k) = 0 → ∀ j, k ≤ j → Z.testbit w j = false.
Proof.
  intros Hw Hk E j Hj. destruct (decide (j < 32)); [|apply testbit_high; [done|lia]].
  pose proof (Z.bits_0 j) as H. rewrite <-E in H. revert H. bits.
  destruct (Z.testbit w j); [|done]. simpl. lia.
Qed.

Lemma next_member_words_ok wordnum k a :
  Forall word_ok a → 0 ≤ k < 32 →
  (next_member_words wordnum (high_mask k) a = Ok (-2) ∧ none_from a k) ∨
  (∃ x, next_member_words wordnum (high_mask k) a = Ok (32 * wordnum + x) ∧ least_from a k x).
Proof.
  intros Ha. revert wordnum k. induction Ha as [|w a Hw Ha IH]; intros wordnum k Hk.
  - left. split; [done|]. intros y _. apply inb_nil.
  - simpl. destruct (Z.eqb_spec (Z.land w (high_mask k)) 0) as [E|E]; simpl.
    + assert (Hlow : ∀ y, k ≤ y < 32 → inb (w :: a) y = false).
      { intros y Hy. rewrite inb_cons by done. destruct (Z.ltb_spec y 32); [|lia].
        eapply mask_zero; [done| |done|]; lia. }
      change (lnot_word 0) with (high_mask 0).
      destruct (IH (wordnum + 1) 0 ltac:(lia)) as [[-> Hn]|(x & -> & H1 & H2 & H3)].
      * left. split; [done|]. intros y Hy. destruct (decide (y < 32)); [apply Hlow; lia|].
        replace y with ((y - 32) + 32) by lia. rewrite inb_hi by (done || lia). apply Hn. lia.
      * right. exists (x + 32). split; [f_equal; lia|]. split; [lia|].
        split; [by rewrite inb_hi|]. intros y Hy. destruct (decide (y < 32)); [apply Hlow; lia|].
        replace y with ((y - 32) + 32) by lia. rewrite inb_hi by (done || lia). apply H3. lia.
    + right. destruct (lowest_exists (Z.land w (high_mask k))) as [n Hn]; [auto with word|done|].
      exists n. rewrite (first_bit_lowest _ _ n) by auto with word.
      destruct (mask_lowest w k n) as (H1 & H2 & H3); try done.
      split; [unfold BITS_PER_BITMAPWORD; f_equal; lia|]. split; [lia|].
      rewrite inb_cons by done. destruct (Z.ltb_spec n 32); [|lia]. split; [done|].
      intros y Hy. rewrite inb_cons by done. destruct (Z.ltb_spec y 32); [by apply H3|lia].
Qed.

(** [bms_next_member] returns the least member above [prevbit], or -2. *)
Lemma bms_next_member_ok a prevbit :
  bms_ok a → -1 ≤ prevbit < INT_MAX →
  (bms_next_member a prevbit = Ok (-2) ∧ none_from (words a) (prevbit + 1)) ∨
  (∃ x, bms_next_member a prevbit = Ok x ∧ least_from (words a) (prevbit + 1) x).
Proof.
  intros Ha Hp. destruct a as [a|]; [|left; split; [done|]; intros y _; apply inb_nil].
  cbn [bms_next_member]. rewrite (proj2 (Z.leb_gt INT_MAX prevbit)) by lia.
  unfold WORDNUM, BITNUM, BITS_PER_BITMAPWORD. set (p := prevbit + 1). unfold bms_ok in Ha. simpl in Ha |- *.
  pose proof (Z.div_mod p 32 ltac:(lia)) as Hdm. pose proof (Z.mod_pos_bound p 32 ltac:(lia)) as Hm.
  assert (Hd : 0 ≤ p / 32) by (apply Z.div_pos; lia).
  assert (Hdrop : ∀ y, p ≤ y → inb a y = inb (drop (Z.to_nat (p / 32)) a) (y - 32 * (p / 32))).
  { intros y Hy. rewrite inb_drop by (done || lia). f_equal. lia. }
  destruct (next_member_words_ok (p / 32) (p mod 32) (drop (Z.to_nat (p / 32)) a)) as [[-> Hn]|(x & -> & H1 & H2 & H3)];
    [by apply Forall_drop|lia| |].
  - left. split; [done|]. intros y Hy. rewrite Hdrop by done. apply Hn. lia.
  - right. exists (32 * (p / 32) + x). split; [done|]. split; [lia|].
    rewrite Hdrop by lia. split; [rewrite <-H2; f_equal; lia|].
    intros y Hy. rewrite Hdrop by lia. apply H3. lia.
Qed.

(** ** Removing the least member *)

Lemma remove_lowest w k n :
  word_ok w → lowest w k → 0 ≤ n →
  Z.testbit (Z.land w (lnot_word (RIGHTMOST_ONE w))) n = Z.testbit w n && negb (n =? k).
Proof.
  intros Hw Hk Hn. rewrite (RIGHTMOST_ONE_lowest w k) by done. bits.
  rewrite Z.pow2_bits_eqb by (by destruct Hk). rewrite (Z.eqb_sym k n).
  destruct (Z.ltb_spec n 32); [done|]. by rewrite testbit_high.
Qed.

Lemma first_bit_rightmost w k r : word_ok w → lowest w k → first_bit (RIGHTMOST_ONE w) r = Ok (r + k).
Proof.
  intros Hw Hk. rewrite (RIGHTMOST_ONE_lowest w k) by done. assert (0 ≤ k) by (by destruct Hk).
  pose proof (lowest_lt w k Hw Hk). apply first_bit_lowest.
  - split; [by apply Z.pow_nonneg|]. by apply Z.pow_lt_mono_r.
  - split; [done|]. rewrite Z.pow2_bits_true by done. split; [done|].
    intros j Hj. apply Z.pow2_bits_false. lia.
Qed.

Lemma first_member_words_ok wordnum a :
  Forall word_ok a →
  (first_member_words wordnum a = Ok (None, a) ∧ none_from a 0) ∨
  (∃ x a', first_member_words wordnum a = Ok (Some (32 * wordnum + x), a') ∧ least_from a 0 x ∧
     Forall word_ok a' ∧ length a' = length a ∧ ∀ y, inb a' y = inb a y && negb (y =? x)).
Proof.
  intros Ha. revert wordnum. induction Ha as [|w a Hw Ha IH]; intros wordnum.
  - left. split; [done|]. intros y _. apply inb_nil.
  - simpl. destruct (Z.eqb_spec w 0) as [->|Hne]; simpl.
    + destruct (IH (wordnum + 1)) as [[-> Hn]|(x & a' & -> & (H1 & H2 & H3) & Ha' & Hl & H4)].
      * left. split; [done|]. intros y Hy. rewrite inb_cons, Z.bits_0 by done.
        destruct (Z.ltb_spec y 32); [done|]. apply Hn. lia.
      * right. exists (x + 32), (0 :: a'). split; [do 3 f_equal; lia|].
        split; [split; [lia|]; split; [by rewrite inb_hi|]|].
        -- intros y Hy. rewrite inb_cons, Z.bits_0 by done. destruct (Z.ltb_spec y 32); [done|]. apply H3. lia.
        -- split; [by constructor|]. split; [simpl; lia|]. intros y. rewrite !inb_cons, Z.bits_0 by done.
           destruct (Z.ltb_spec y 32); [done|]. rewrite H4. do 2 f_equal. lia.
    + right. destruct (lowest_exists w) as [k Hk]; [done..|].
      exists k, (Z.land w (lnot_word (RIGHTMOST_ONE w)) :: a).
      rewrite (first_bit_rightmost w k) by done.
      pose proof (lowest_lt w k Hw Hk). split; [unfold BITS_PER_BITMAPWORD; do 3 f_equal; lia|].
      assert (Hk' := Hk). destruct Hk' as (H0 & H1 & H2). split; [split; [done|]|].
      * rewrite inb_cons by done. destruct (Z.ltb_spec k 32); [|lia]. split; [done|].
        intros y Hy. rewrite inb_cons by done. destruct (Z.ltb_spec y 32); [apply H2|]; lia.
      * split; [constructor; auto with word|]. split; [done|]. intros y. rewrite !inb_cons by auto with word.
        destruct (Z.ltb_spec y 32).
        -- destruct (decide (y < 0)); [by rewrite !testbit_neg|]. apply remove_lowest; (done || lia).
        -- destruct (Z.eqb_spec y k); [lia|]. by rewrite andb_true_r.
Qed.

Lemma bms_first_member_ok a :
  bms_ok a →
  (bms_first_member a = Ok (-1, a) ∧ none_from (words a) 0) ∨
  (∃ x a', bms_first_member a = Ok (x, a') ∧ least_from (words a) 0 x ∧
     bms_ok a' ∧ length (words a') = length (words a) ∧ ∀ y, inb (words a') y = inb (words a) y && negb (y =? x)).
Proof.
  intros Ha. destruct a as [a|]; [|left; split; [done|]; intros y _; apply inb_nil]. simpl.
  destruct (first_member_words_ok 0 a Ha) as [[-> Hn]|(x & a' & -> & H)]; [by left|].
  right. exists x, (Some a'). by replace (32 * 0 + x) with x by lia.
Qed.

(** ** The loops of the callers *)

(** [while ((x = bms_next_member(a, x)) >= 0) process x]: the members in the order they
    are processed. *)
Fixpoint next_loop (fuel : nat) (a : option Bitmapset) (x : Z) : res (list Z) :=
  match fuel with
  | O => Err EFuel
  | S fuel =>
      match bms_next_member a x with
      | Err e => Err e
      | Ok x =>
          if 0 <=? x then
            match next_loop fuel a x with Err e => Err e | Ok l => Ok (x :: l) end
          else Ok []
      end
  end.

(** [while ((x = bms_first_member(a)) >= 0) process x], and the set it leaves. *)
Fixpoint first_loop (fuel : nat) (a : option Bitmapset) : res (list Z * option Bitmapset) :=
  match fuel with
  | O => Err EFuel
  | S fuel =>
      match bms_first_member a with
      | Err e => Err e
      | Ok (x, a) =>
          if 0 <=? x then
            match first_loop fuel a with Err e => Err e | Ok (l, a) => Ok (x :: l, a) end
          else Ok ([], a)
      end
  end.

(** The members from [k] on in increasing order. *)
Definition enum (a : Bitmapset) (k : Z) : list Z :=
  filter (λ x, inb a x = true) (seqZ k (32 * nwords a - k)).

Lemma filter_none {A} (P : A → Prop) `{∀ x, Decision (P x)} l : (∀ x, x ∈ l → ¬ P x) → filter P l = [].
Proof.
  induction l as [|x l IH]; intros Hl; [done|].
  rewrite filter_cons_False by (apply Hl; by left). apply IH. intros y Hy. apply Hl. by right.
Qed.

Lemma filter_agree {A} (P Q : A → Prop) `{∀ x, Decision (P x), ∀ x, Decision (Q x)} (l : list A) :
  (∀ x, x ∈ l → P x ↔ Q x) → filter P l = filter Q l.
Proof.
  induction l as [|x l IH]; intros Hl; [done|]. rewrite !filter_cons, IH by (intros; apply Hl; by right).
  pose proof (Hl x ltac:(by left)). by repeat case_decide; try tauto.
Qed.

Lemma filter_seqZ_sorted (P : Z → Prop) `{∀ x, Decision (P x)} m n : StronglySorted Z.lt (filter P (seqZ m n)).
Proof.
  destruct (decide (n ≤ 0)); [rewrite seqZ_nil by done; constructor|].
  replace n with (Z.of_nat (Z.to_nat n)) by lia. revert m. induction (Z.to_nat n) as [|k IH]; intros m.
  - rewrite seqZ_nil by lia. constructor.
  - rewrite seqZ_cons by lia. replace (Z.pred (Z.of_nat (S k))) with (Z.of_nat k) by lia.
    rewrite filter_cons. case_decide; [|apply IH]. constructor; [apply IH|].
    apply Forall_forall. intros x Hx. apply list_elem_of_filter in Hx as [_ Hx]. apply elem_of_seqZ in Hx. lia.
Qed.

Lemma enum_none a k : none_from a k → enum a k = [].
Proof.
  intros H. unfold enum. apply filter_none. intros x Hx. apply elem_of_seqZ in Hx. rewrite H; [done|lia].
Qed.

Lemma enum_least a k x :
  Forall word_ok a → 0 ≤ k → least_from a k x → enum a k = x :: enum a (x + 1).
Proof.
  intros Ha Hk (H1 & H2 & H3). pose proof (inb_range a x Ha H2). unfold enum.
  replace (32 * nwords a - k) with ((x - k) + (32 * nwords a - x)) by lia.
  rewrite seqZ_app by lia. rewrite filter_app.
  rewrite (filter_none _ (seqZ k (x - k))).
  - replace (k + (x - k)) with x by lia. rewrite (seqZ_cons x) by lia. rewrite filter_cons_True by done.
    simpl. do 3 f_equal; lia.
  - intros y Hy. apply elem_of_seqZ in Hy. rewrite H3 by lia. done.
Qed.

Lemma next_loop_ok fuel a x :
  bms_ok a → (∀ y, inb (words a) y = true → y < INT_MAX) → -1 ≤ x < INT_MAX → (length (enum (words a) (x + 1)) < fuel)%nat →
  next_loop fuel a x = Ok (enum (words a) (x + 1)).
Proof.
  intros Ha Hint. revert x. induction fuel as [|fuel IH]; intros x Hx Hf; [lia|]. simpl.
  destruct (bms_next_member_ok a x Ha Hx) as [[-> Hn]|(y & -> & Hy)].
  - simpl. by rewrite enum_none.
  - rewrite (enum_least _ _ y) in Hf |- * by (done || lia). assert (x + 1 ≤ y) by (by destruct Hy).
    destruct (Z.leb_spec 0 y); [|lia]. rewrite IH; [done| |simpl in Hf; lia].
    split; [lia|]. apply Hint. by destruct Hy as (_ & ? & _).
Qed.

(** After INT_MAX the loop leaves the array. *)
Lemma next_loop_overflow fuel a x :
  bms_ok a → inb (words a) INT_MAX = true → -1 ≤ x < INT_MAX → (length (enum (words a) (x + 1)) < fuel)%nat →
  next_loop fuel a x = Err EDangling.
Proof.
  intros Ha Hmax. revert x. induction fuel as [|fuel IH]; intros x Hx Hf; [lia|]. cbn [next_loop].
  destruct (bms_next_member_ok a x Ha Hx) as [[_ Hn]|(y & -> & Hy)]; [by rewrite Hn in Hmax by lia|].
  rewrite (enum_least _ _ y) in Hf by (done || lia). cbn [length] in Hf. destruct Hy as (Hxy & _ & Hleast).
  destruct (Z.leb_spec 0 y); [|lia]. destruct (decide (y < INT_MAX)) as [Hlt|Hge]; [by rewrite IH by lia|].
  assert (y = INT_MAX) as ->.
  { destruct (decide (y = INT_MAX)) as [|Hne]; [done|]. by rewrite Hleast in Hmax by lia. }
  destruct fuel; [lia|]. by destruct a as [a|].
Qed.

Lemma enum_remove a a' x :
  Forall word_ok a → least_from a 0 x → length a' = length a →
  (∀ y, inb a' y = inb a y && negb (y =? x)) → enum a' 0 = enum a (x + 1).
Proof.
  intros Ha (H1 & H2 & H3) Hl H4. pose proof (inb_range a x Ha H2). unfold enum, nwords in *. rewrite Hl.
  replace (32 * Z.of_nat (length a) - 0) with ((x + 1) + (32 * Z.of_nat (length a) - (x + 1))) by lia.
  rewrite seqZ_app by lia. rewrite filter_app, filter_none.
  - apply filter_agree. intros y Hy. apply elem_of_seqZ in Hy.
    rewrite H4. destruct (Z.eqb_spec y x); [lia|]. by rewrite andb_true_r.
  - intros y Hy. apply elem_of_seqZ in Hy. rewrite H4. destruct (Z.eqb_spec y x); [by rewrite andb_false_r|].
    rewrite H3 by lia. done.
Qed.

Lemma first_loop_ok fuel a :
  bms_ok a → (length (enum (words a) 0) < fuel)%nat →
  ∃ a', first_loop fuel a = Ok (enum (words a) 0, a') ∧ bms_ok a' ∧ none_from (words a') 0.
Proof.
  revert a. induction fuel as [|fuel IH]; intros a Ha Hf; [lia|]. simpl.
  destruct (bms_first_member_ok a Ha) as [[-> Hn]|(x & a' & -> & Hx & Ha' & Hl & H4)].
  - exists a. simpl. by rewrite enum_none.
  - assert (0 ≤ x) by (by destruct Hx). pose proof (enum_remove _ _ x Ha Hx Hl H4) as E.
    rewrite (enum_least _ _ x) in Hf |- * by (done || lia).
    destruct (Z.leb_spec 0 x); [|lia]. destruct (IH a' Ha') as (a'' & E' & H5); [simpl in Hf; rewrite E; lia|].
    exists a''. by rewrite E', E.
Qed.

Lemma enum_members a : list_to_set (enum (words a) 0) = members a.
Proof. unfold enum, members. by rewrite Z.sub_0_r. Qed.

Lemma enum_sorted a : StronglySorted Z.lt (enum a 0).
Proof. apply filter_seqZ_sorted. Qed.

Lemma enum_length a : length (enum (words a) 0) = size (members a).
Proof.
  rewrite <-enum_members. symmetry. apply size_list_to_set. apply NoDup_filter, NoDup_seqZ.
Qed.

(** ** Counting *)

Lemma num_members_words_ok r a :
  Forall word_ok a → num_members_words r a = Ok (r + ones (value a) 0 (32 * length a)).
Proof.
  intros Ha. revert r. induction Ha as [|w a Hw Ha IH]; intros r; [simpl; f_equal; unfold ones; simpl; lia|].
  cbn [num_members_words]. rewrite count_ones_ok by done. rewrite IH.
  replace (32 * length (w :: a))%nat with (32 + 32 * length a)%nat by (simpl; lia). rewrite ones_add.
  replace (ones (value (w :: a)) 0 32) with (ones w 0 (8 * 4)); [|apply ones_ext; intros i Hi].
  - replace (ones (value (w :: a)) (0 + 32) (32 * length a)) with (ones (value a) 0 (32 * length a)).
    + f_equal. lia.
    + apply ones_ext. intros i Hi. pose proof (inb_hi w a (Z.of_nat (0 + i)) Hw ltac:(lia)) as E.
      unfold inb in E. rewrite <-E. f_equal. lia.
  - pose proof (inb_cons w a (Z.of_nat (0 + i)) Hw) as E. unfold inb in E. rewrite E.
    destruct (Z.ltb_spec (Z.of_nat (0 + i)) 32); [done|lia].
Qed.

Lemma ones_enum a : ones (value a) 0 (32 * length a) = Z.of_nat (length (enum a 0)).
Proof.
  unfold ones, enum, nwords. f_equal. rewrite Z.sub_0_r.
  replace (seqZ 0 (32 * Z.of_nat (length a))) with (Z.of_nat <$> seq 0 (32 * length a)).
  - unfold inb. induction (seq 0 (32 * length a)) as [|i l IH]; [done|].
    rewrite fmap_cons, !filter_cons. case_decide; simpl; by rewrite IH.
  - unfold seqZ. replace (Z.to_nat (32 * Z.of_nat (length a))) with (32 * length a)%nat by lia.
    apply list_fmap_ext. intros. lia.
Qed.

Lemma bms_num_members_ok a : bms_ok a → bms_num_members a = Ok (Z.of_nat (size (members a))).
Proof.
  intros Ha. rewrite <-enum_length. destruct a as [a|]; [|done]. simpl.
  rewrite num_members_words_ok by done. by rewrite ones_enum.
Qed.

(** ** The sole member *)

Lemma single_word w k :
  word_ok w → lowest w k → HAS_MULTIPLE_ONES w = false → ∀ n, Z.testbit w n = (n =? k).
Proof.
  intros Hw Hk H n. pose proof (proj1 (HAS_MULTIPLE_ONES_spec w k Hw Hk) H n) as Hn.
  destruct (Z.eqb_spec n k) as [->|Hne]; [by destruct Hk as (_ & -> & _)|].
  destruct (Z.testbit w n); [by rewrite Hn in Hne|done].
Qed.

Lemma multiple_word w k :
  word_ok w → lowest w k → HAS_MULTIPLE_ONES w = true → ∃ n, n ≠ k ∧ 0 ≤ n < 32 ∧ Z.testbit w n = true.
Proof.
  intros Hw Hk H. assert (Hk0 : 0 ≤ k) by (by destruct Hk).
  destruct (nonzero_bit (Z.ldiff w (2 ^ k))) as (n & Hn & Hb).
  - apply Z.ldiff_nonneg. left. auto with word.
  - intros E. assert (Hf : HAS_MULTIPLE_ONES w = false); [|congruence].
    apply (HAS_MULTIPLE_ONES_spec w k Hw Hk). intros n Hn.
    pose proof (Z.bits_0 n) as H0. rewrite <-E, Z.ldiff_spec, Hn, Z.pow2_bits_eqb in H0 by done.
    destruct (Z.eqb_spec k n); [done|]. by simpl in H0.
  - rewrite Z.ldiff_spec, Z.pow2_bits_eqb in Hb by done. apply andb_prop in Hb as [Hb Hne].
    exists n. split; [intros ->; by rewrite Z.eqb_refl in Hne|]. split; [|done].
    split; [done|]. destruct (decide (n < 32)); [done|]. by rewrite testbit_high in Hb by (done || lia).
Qed.

Lemma not_all_zero a : Forall word_ok a → all_zero a = false → ∃ x, 0 ≤ x ∧ inb a x = true.
Proof.
  induction 1 as [|w a Hw Ha IH]; simpl; [done|]. destruct (Z.eqb_spec w 0) as [->|Hne]; simpl.
  - intros H. destruct (IH H) as (x & Hx & Hb). exists (x + 32). split; [lia|]. by rewrite inb_hi.
  - intros _. destruct (lowest_exists w Hw Hne) as [k Hk]. pose proof (lowest_lt w k Hw Hk).
    destruct Hk as (Hk0 & Hk & _). exists k. split; [done|]. rewrite inb_cons by done.
    by destruct (Z.ltb_spec k 32); [|lia].
Qed.

(** What [only_member] says of a set: no member, one, or several. *)
Definition sole (wordnum : Z) (a : Bitmapset) (o : option Z) : Prop :=
  match o with
  | None => ∃ x y, x ≠ y ∧ inb a x = true ∧ inb a y = true
  | Some r => (r = -1 ∧ ∀ x, inb a x = false) ∨ (∃ k, 0 ≤ k ∧ r = 32 * wordnum + k ∧ ∀ x, inb a x = (x =? k))
  end.

Lemma sole_zero wordnum a o : sole (wordnum + 1) a o → sole wordnum (0 :: a) o.
Proof.
  assert (Hc : ∀ x, inb (0 :: a) x = if x <? 32 then false else inb a (x - 32))
    by (intros x; rewrite inb_cons, Z.bits_0; auto with word).
  assert (Hh : ∀ x, inb a x = true → inb (0 :: a) (x + 32) = true).
  { intros x Hx. destruct (decide (x < 0)); [by rewrite inb_neg in Hx|]. by rewrite inb_hi by (auto with word; lia). }
  destruct o as [r|]; simpl.
  - intros [[-> H]|(k & Hk & -> & H)]; [left; split; [done|]; intros x; rewrite Hc, H; by destruct (x <? 32)|].
    right. exists (k + 32). split; [lia|]. split; [lia|]. intros x. rewrite Hc, H.
    destruct (Z.ltb_spec x 32), (Z.eqb_spec x (k + 32)); lia.
  - intros (x & y & Hne & Hx & Hy). exists (x + 32), (y + 32). split; [lia|]. auto.
Qed.

Lemma only_member_found wordnum r a :
  0 ≤ r → only_member wordnum r a = Ok (if all_zero a then Some r else None).
Proof.
  intros Hr. revert wordnum. induction a as [|w a IH]; intros wordnum; [done|]. simpl.
  destruct (Z.leb_spec 0 r); [|lia]. by destruct (w =? 0); simpl.
Qed.

Lemma only_member_ok wordnum a :
  Forall word_ok a → 0 ≤ wordnum → ∃ o, only_member wordnum (-1) a = Ok o ∧ sole wordnum a o.
Proof.
  intros Ha. revert wordnum. induction Ha as [|w a Hw Ha IH]; intros wordnum Hn.
  - exists (Some (-1)). split; [done|]. left. split; [done|]. apply inb_nil.
  - simpl. destruct (Z.eqb_spec w 0) as [->|Hne]; simpl.
    { destruct (IH (wordnum + 1) ltac:(lia)) as (o & -> & Ho). eauto using sole_zero. }
    destruct (lowest_exists w Hw Hne) as [k Hk]. pose proof (lowest_lt w k Hw Hk).
    assert (Hk0 : 0 ≤ k) by (by destruct Hk).
    assert (Hin : ∀ n, n < 32 → Z.testbit w n = true → inb (w :: a) n = true).
    { intros n Hn' Hb. rewrite inb_cons by done. by destruct (Z.ltb_spec n 32); [|lia]. }
    destruct (HAS_MULTIPLE_ONES w) eqn:Hm.
    + destruct (multiple_word w k Hw Hk Hm) as (n & Hnk & Hn' & Hb). exists None. split; [done|].
      exists n, k. split; [done|]. split; apply Hin; try lia; try done. by destruct Hk as (_ & ? & _).
    + rewrite (first_bit_lowest w _ k) by done. rewrite only_member_found by (unfold BITS_PER_BITMAPWORD; lia).
      eexists. split; [done|]. pose proof (single_word w k Hw Hk Hm) as H1.
      destruct (all_zero a) eqn:Hz.
      * right. exists k. split; [done|]. split; [unfold BITS_PER_BITMAPWORD; lia|].
        intros x. rewrite inb_cons, H1 by done. apply all_zero_spec with (x := x - 32) in Hz; [|done].
        rewrite Hz. destruct (Z.ltb_spec x 32), (Z.eqb_spec x k); lia.
      * destruct (not_all_zero a Ha Hz) as (n & Hn' & Hb). exists k, (n + 32). split; [lia|].
        split; [apply Hin; [done|by destruct Hk as (_ & ? & _)]|by rewrite inb_hi].
Qed.

(** [bms_membership] stops where the search for the sole member does. *)
Lemma membership_words_found a : membership_words BMS_SINGLETON a = if all_zero a then BMS_SINGLETON else BMS_MULTIPLE.
Proof. induction a as [|w a IH]; simpl; [done|]. by destruct (w =? 0). Qed.

Lemma membership_words_ok wordnum a o :
  Forall word_ok a → 0 ≤ wordnum → only_member wordnum (-1) a = Ok o →
  membership_words BMS_EMPTY_SET a =
    match o with None => BMS_MULTIPLE | Some r => if r <? 0 then BMS_EMPTY_SET else BMS_SINGLETON end.
Proof.
  intros Ha. revert wordnum. induction Ha as [|w a Hw Ha IH]; intros wordnum Hn; simpl; [by intros [= <-]|].
  destruct (Z.eqb_spec w 0) as [->|Hne]; simpl; [by apply IH; lia|].
  destruct (HAS_MULTIPLE_ONES w); [by intros [= <-]|].
  destruct (lowest_exists w Hw Hne) as [k Hk]. assert (0 ≤ k) by (by destruct Hk).
  rewrite (first_bit_lowest w _ k) by done. rewrite only_member_found by (unfold BITS_PER_BITMAPWORD; lia).
  intros [= <-]. rewrite membership_words_found. destruct (all_zero a); [|done].
  unfold BITS_PER_BITMAPWORD. by destruct (Z.ltb_spec (wordnum * 32 + k) 0); [lia|].
Qed.

(** ** Hashing *)

Lemma strip_zero a : Forall word_ok a → (∀ x, inb a x = false) → strip a = [].
Proof.
  intros Ha H. apply all_zero_spec in H; [|done]. clear Ha. induction a as [|w a IH]; [done|]. simpl in *.
  destruct (w =? 0); simpl in *; [|done]. by rewrite IH.
Qed.

(** Trailing zero words do not matter. *)
Lemma strip_ext a b :
  Forall word_ok a → Forall word_ok b → (∀ x, inb a x = inb b x) → strip a = strip b.
Proof.
  intros Ha. revert b. induction Ha as [|w a Hw Ha IH]; intros b Hb H.
  - symmetry. apply strip_zero; [done|]. intros x. by rewrite <-H, inb_nil.
  - destruct Hb as [|w' b Hw' Hb].
    + apply strip_zero; [by constructor|]. intros x. by rewrite H, inb_nil.
    + apply (pointwise_cons eq eq_refl) in H as [H1 H2]; [|done..]. apply Z.bits_inj in H1 as ->.
      simpl. by rewrite (IH b).
Qed.
