(* ===== verification/BitProps.v ===== *)
(** What bitmapset.c promises: its routines compute the set operations on the sets their
    arguments stand for, whatever number of trailing zero words represents them. *)

From stdpp Require Import sorting.
From S2P Require Import Prelude Bitmapset BitWords BitSpec BitIter.

(** [r] is a well-formed representation of [X]. *)
Definition stands_for (r : option Bitmapset) (X : gset Z) : Prop := bms_ok r ∧ members r = X.

#[global] Instance bms_ok_dec a : Decision (bms_ok a).
Proof. unfold bms_ok. apply _. Defined.

Lemma stands_for_bits a X :
  Forall word_ok a → (∀ x, inb a x = true ↔ x ∈ X) → stands_for (Some a) X.
Proof. intros Ha H. split; [done|]. by apply members_ext. Qed.

Lemma stands_for_self a : bms_ok a → stands_for a (members a).
Proof. done. Qed.

Lemma members_None : members None = ∅.
Proof. done. Qed.

Lemma stands_for_eq a X Y : stands_for a X → X = Y → stands_for a Y.
Proof. by intros H <-. Qed.

Section two.
Context (a b : Bitmapset) (Ha : Forall word_ok a) (Hb : Forall word_ok b).

Lemma inb_Some x c : Forall word_ok c → inb c x = bool_decide (x ∈ members (Some c)).
Proof. intros Hc. apply (inb_members (Some c)). apply Hc. Qed.

Lemma stands_or_l :
  (length b ≤ length a)%nat → stands_for (Some (or_words a b)) (members (Some a) ∪ members (Some b)).
Proof using Ha Hb.
  intros Hl. destruct (or_words_ok a b Ha Hb Hl) as [Ho Hi]. apply stands_for_bits; [done|].
  intros x. rewrite Hi, !inb_Some by done. rewrite orb_true_iff, !bool_decide_eq_true. set_solver.
Qed.

Lemma stands_and_l :
  (length a ≤ length b)%nat → stands_for (Some (and_words a b)) (members (Some a) ∩ members (Some b)).
Proof using Ha Hb.
  intros Hl. destruct (and_words_ok a b Ha Hb Hl) as [Ho Hi]. apply stands_for_bits; [done|].
  intros x. rewrite Hi, !inb_Some by done. rewrite andb_true_iff, !bool_decide_eq_true. set_solver.
Qed.

Lemma stands_int : stands_for (Some (int_words a b)) (members (Some a) ∩ members (Some b)).
Proof using Ha Hb.
  destruct (int_words_ok a b Ha Hb) as [Ho Hi]. apply stands_for_bits; [done|].
  intros x. rewrite Hi, !inb_Some by done. rewrite andb_true_iff, !bool_decide_eq_true. set_solver.
Qed.

Lemma stands_andnot : stands_for (Some (andnot_words a b)) (members (Some a) ∖ members (Some b)).
Proof using Ha Hb.
  destruct (andnot_words_ok a b Ha Hb) as [Ho Hi]. apply stands_for_bits; [done|].
  intros x. rewrite Hi, !inb_Some by done.
  rewrite andb_true_iff, negb_true_iff, bool_decide_eq_true, bool_decide_eq_false. set_solver.
Qed.
End two.

Lemma or_longer a b c :
  Forall word_ok a → Forall word_ok b →
  c = or_words b a ∧ (length a ≤ length b)%nat ∨ c = or_words a b ∧ (length b ≤ length a)%nat →
  stands_for (Some c) (members (Some a) ∪ members (Some b)).
Proof.
  intros Ha Hb [[-> Hl]|[-> Hl]]; [|by apply stands_or_l].
  eapply stands_for_eq; [by apply stands_or_l|]. by rewrite (comm_L (∪)).
Qed.

(** C28: The seven operations on two sets - union, intersection and difference, those
    that recycle their left argument, and the join that recycles both - return a
    well-formed bitmap set for the union, intersection or difference of the sets their
    arguments stand for, NULL and unequal numbers of words included. *)
Theorem bms_binary_operations a b :
  bms_ok a → bms_ok b →
  stands_for (bms_union a b) (members a ∪ members b) ∧
  stands_for (bms_intersect a b) (members a ∩ members b) ∧
  stands_for (bms_difference a b) (members a ∖ members b) ∧
  stands_for (bms_add_members a b) (members a ∪ members b) ∧
  stands_for (bms_int_members a b) (members a ∩ members b) ∧
  stands_for (bms_del_members a b) (members a ∖ members b) ∧
  stands_for (bms_join a b) (members a ∪ members b).
Proof.
  intros Ha Hb.
  destruct a as [a|], b as [b|]; simpl; unfold bms_ok in *; simpl in *.
  2-4: rewrite members_None; split_and!; (eapply stands_for_eq; [by apply stands_for_self|]); set_solver.
  - split_and!; try (by apply stands_andnot); try (by apply stands_int).
    + apply or_longer; [done..|]. unfold nwords. case_match; [left|right]; split; try done; lia.
    + unfold nwords. destruct (Z.leb_spec (Z.of_nat (length a)) (Z.of_nat (length b))).
      * apply stands_and_l; [done..|lia].
      * rewrite (comm_L (∩)). apply stands_and_l; [done..|lia].
    + apply or_longer; [done..|]. unfold nwords. case_match; [left|right]; split; try done; lia.
    + apply or_longer; [done..|]. unfold nwords. case_match; [left|right]; split; try done; lia.
Qed.

(** {1, 40} with a trailing zero word, and {40, 70}. *)
Definition set_a : option Bitmapset := Some [2; 256; 0].
Definition set_b : option Bitmapset := Some [0; 256; 64; 0].

Lemma bms_binary_operations_witness :
  (bms_ok set_a ∧ bms_ok set_b) ∧
  stands_for (bms_union set_a set_b) {[1; 40; 70]} ∧ stands_for (bms_int_members set_a set_b) {[40]}.
Proof.
  assert (Ha : bms_ok set_a) by (by apply (bool_decide_unpack _); vm_compute).
  assert (Hb : bms_ok set_b) by (by apply (bool_decide_unpack _); vm_compute).
  destruct (bms_binary_operations set_a set_b Ha Hb) as (H1 & _ & _ & _ & H5 & _).
  split_and!; [done..| |]; (eapply stands_for_eq; [done|]); apply (bool_decide_unpack _); by vm_compute.
Defined.

(** ** Single members *)

Lemma inb_singleton_bits n b x :
  0 ≤ b < 32 → inb (replicate n 0 ++ [bit b]) x = (x =? 32 * Z.of_nat n + b).
Proof.
  intros Hb. revert x. induction n as [|n IH]; intros x; simpl.
  - rewrite inb_cons, inb_nil, bit_testbit by auto with word. rewrite Z.mul_0_r, Z.add_0_l.
    destruct (Z.ltb_spec x 32); [done|]. destruct (Z.eqb_spec x b); lia.
  - rewrite inb_cons, Z.bits_0, IH by auto with word.
    destruct (Z.ltb_spec x 32), (Z.eqb_spec (x - 32) (32 * Z.of_nat n + b)), (Z.eqb_spec x (32 * Z.of_nat (S n) + b));
      lia.
Qed.

Lemma make_singleton_stands x :
  0 ≤ x → ∃ s, bms_make_singleton x = Ok s ∧ stands_for s {[x]}.
Proof.
  intros Hx. unfold bms_make_singleton. destruct (Z.ltb_spec x 0); [lia|]. eexists. split; [done|].
  unfold WORDNUM, BITNUM, BITS_PER_BITMAPWORD.
  pose proof (Z.div_mod x 32 ltac:(lia)). pose proof (Z.mod_pos_bound x 32 ltac:(lia)).
  pose proof (Z.div_pos x 32 ltac:(lia) ltac:(lia)).
  apply stands_for_bits; [apply Forall_app; split; [apply zeros_ok|repeat constructor; apply bit_ok]|].
  intros y. rewrite inb_singleton_bits by done. rewrite elem_of_singleton, Z.eqb_eq, Z2Nat.id by done. lia.
Qed.

Section member.
Context (x : Z) (Hx : 0 ≤ x).

Lemma div_mod_32 : x = 32 * (x / 32) + x mod 32 ∧ 0 ≤ x / 32 ∧ 0 ≤ x mod 32 < 32.
Proof using Hx.
  pose proof (Z.div_mod x 32 ltac:(lia)). pose proof (Z.mod_pos_bound x 32 ltac:(lia)).
  pose proof (Z.div_pos x 32 ltac:(lia) ltac:(lia)). lia.
Qed.

(** A word changed in place: only the bits of the word of [x] can change. *)
Lemma alter_word f g a :
  Forall word_ok a → x / 32 < Z.of_nat (length a) →
  (∀ w, word_ok w → word_ok (f w)) →
  (∀ w n, word_ok w → 0 ≤ n < 32 → Z.testbit (f w) n = g (n =? x mod 32) (Z.testbit w n)) →
  (∀ p, g false p = p) →
  Forall word_ok (alter f (Z.to_nat (x / 32)) a) ∧
  ∀ y, inb (alter f (Z.to_nat (x / 32)) a) y = g (y =? x) (inb a y).
Proof using Hx.
  intros Ha Hl Hf Hg Hg0. destruct div_mod_32 as (E & Hd & Hm).
  split; [apply (inb_alter f a _ 0); [done..|lia]|]. intros y.
  destruct (inb_alter f a (Z.to_nat (x / 32)) y) as [_ ->]; [done..|lia|].
  rewrite Z2Nat.id by done. case_decide as Hc.
  - rewrite (inb_nth a y) by (done || lia).
    assert (Ed : y / 32 = x / 32) by (symmetry; apply (Z.div_unique y 32 _ (y - 32 * (x / 32))); lia).
    assert (Em : y mod 32 = y - 32 * (x / 32)) by (symmetry; apply (Z.mod_unique y 32 (x / 32)); lia).
    assert (Hw : word_ok (nth (Z.to_nat (x / 32)) a 0))
      by (destruct (nth_in_or_default (Z.to_nat (x / 32)) a 0) as [Hin| ->]; [|apply word_ok_0];
          rewrite Forall_forall in Ha; by apply Ha, list_elem_of_In).
    rewrite Ed, Em, Hg by (done || lia).
    f_equal. destruct (Z.eqb_spec (y - 32 * (x / 32)) (x mod 32)), (Z.eqb_spec y x); lia.
  - destruct (Z.eqb_spec y x); [lia|]. by rewrite Hg0.
Qed.
End member.

Lemma add_member_stands a x :
  bms_ok a → 0 ≤ x → ∃ p, bms_add_member a x = Ok p ∧ stands_for p ({[x]} ∪ members a).
Proof.
  intros Ha Hx. unfold bms_add_member. destruct (Z.ltb_spec x 0); [lia|]. destruct a as [a|].
  - eexists. split; [done|]. unfold WORDNUM, BITNUM, BITS_PER_BITMAPWORD, nwords, bms_ok in *. simpl in Ha.
    destruct (div_mod_32 x Hx) as (E & Hd & Hm).
    set (a' := if _ <=? _ then _ else _).
    assert (Ha' : Forall word_ok a' ∧ (∀ y, inb a' y = inb a y) ∧ x / 32 < Z.of_nat (length a')).
    { unfold a'. destruct (Z.leb_spec (Z.of_nat (length a)) (x / 32)); [|done].
      split; [apply Forall_app; split; [done|apply zeros_ok]|]. split; [intros y; by apply inb_app_zeros|].
      rewrite length_app, length_replicate. lia. }
    destruct Ha' as (Ha1 & Ha2 & Ha3).
    destruct (alter_word x Hx (λ w, Z.lor w (bit (x mod 32))) orb a') as [H1 H2]; try done; [auto with word| |].
    { intros w n Hw Hn. bits. apply orb_comm. }
    apply stands_for_bits; [done|]. intros y. rewrite H2, Ha2, (inb_Some y a) by done.
    rewrite orb_true_iff, Z.eqb_eq, bool_decide_eq_true. set_solver.
  - destruct (make_singleton_stands x Hx) as (s & -> & Hs). exists s. split; [done|].
    eapply stands_for_eq; [done|]. rewrite members_None. set_solver.
Qed.

Lemma del_member_stands a x :
  bms_ok a → 0 ≤ x → ∃ d, bms_del_member a x = Ok d ∧ stands_for d (members a ∖ {[x]}).
Proof.
  intros Ha Hx. unfold bms_del_member. destruct (Z.ltb_spec x 0); [lia|].
  destruct a as [a|]; (eexists; split; [done|]).
  - unfold WORDNUM, BITNUM, BITS_PER_BITMAPWORD, nwords, bms_ok in *. simpl in Ha.
    destruct (div_mod_32 x Hx) as (E & Hd & Hm). destruct (Z.ltb_spec (x / 32) (Z.of_nat (length a))).
    + destruct (alter_word x Hx (λ w, Z.land w (lnot_word (bit (x mod 32)))) (λ p q, negb p && q) a) as [H1 H2];
        try done; [auto with word| |].
      { intros w n Hw Hn. bits. destruct (Z.ltb_spec n 32); [|lia]. apply andb_comm. }
      apply stands_for_bits; [done|]. intros y. rewrite H2, (inb_Some y a) by done.
      rewrite andb_true_iff, negb_true_iff, Z.eqb_neq, bool_decide_eq_true. set_solver.
    + eapply stands_for_eq; [by apply stands_for_self|]. apply set_eq. intros y.
      rewrite elem_of_difference, elem_of_singleton, elem_of_members by done. split; [|tauto].
      intros Hy. split; [done|]. intros ->. apply inb_range in Hy; [|done]. unfold nwords in Hy. simpl in Hy. lia.
  - rewrite members_None. split; [done|set_solver].
Qed.

Lemma is_member_decides a x : bms_ok a → 0 ≤ x → bms_is_member x a = Ok (bool_decide (x ∈ members a)).
Proof.
  intros Ha Hx. unfold bms_is_member. destruct (Z.ltb_spec x 0); [lia|]. rewrite <-inb_members by done.
  destruct a as [a|]; [|simpl; by rewrite inb_nil]. simpl.
  unfold WORDNUM, BITNUM, BITS_PER_BITMAPWORD, nwords. destruct (div_mod_32 x Hx) as (E & Hd & Hm).
  rewrite inb_nth by done. destruct (Z.leb_spec (Z.of_nat (length a)) (x / 32)).
  - rewrite nth_overflow by lia. by rewrite Z.bits_0.
  - f_equal. set (w := nth _ a 0). destruct (Z.testbit w (x mod 32)) eqn:Eb.
    + destruct (Z.eqb_spec (Z.land w (bit (x mod 32))) 0) as [Hz|]; [|done].
      apply land_zero with (n := x mod 32) in Hz. rewrite Eb, bit_testbit, Z.eqb_refl in Hz by done. done.
    + apply negb_false_iff, Z.eqb_eq, land_zero. intros n. rewrite bit_testbit by done.
      destruct (Z.eqb_spec n (x mod 32)) as [->|]; [by rewrite Eb|apply andb_false_r].
Qed.

(** C30: Members one at a time: for a number that is not negative, [bms_is_member] decides
    membership, [bms_make_singleton] makes the singleton, [bms_add_member] adds the
    member - enlarging the array when its word does not exist yet - and [bms_del_member]
    removes it; each of the four raises an error for a negative number. *)
Theorem bms_member_operations a x :
  bms_ok a →
  if x <? 0 then
    bms_is_member x a = Err EElog ∧ bms_make_singleton x = Err EElog ∧
    bms_add_member a x = Err EElog ∧ bms_del_member a x = Err EElog
  else
    bms_is_member x a = Ok (bool_decide (x ∈ members a)) ∧
    (∃ s, bms_make_singleton x = Ok s ∧ stands_for s {[x]}) ∧
    (∃ p, bms_add_member a x = Ok p ∧ stands_for p ({[x]} ∪ members a)) ∧
    (∃ d, bms_del_member a x = Ok d ∧ stands_for d (members a ∖ {[x]})).
Proof.
  intros Ha. destruct (Z.ltb_spec x 0) as [Hx|Hx].
  - unfold bms_is_member, bms_make_singleton, bms_add_member, bms_del_member.
    by destruct (Z.ltb_spec x 0); [|lia].
  - auto using is_member_decides, make_singleton_stands, add_member_stands, del_member_stands.
Qed.

Lemma bms_member_operations_witness :
  bms_ok set_a ∧ bms_is_member 40 set_a = Ok true ∧ bms_is_member (-1) set_a = Err EElog ∧
  (∃ p, bms_add_member set_a 100 = Ok p ∧ stands_for p {[1; 40; 100]}).
Proof.
  assert (Ha : bms_ok set_a) by (by apply (bool_decide_unpack _); vm_compute).
  destruct (bms_member_operations set_a 40 Ha) as (H1 & _).
  destruct (bms_member_operations set_a (-1) Ha) as (H2 & _).
  destruct (bms_member_operations set_a 100 Ha) as (_ & _ & (p & H3 & H4) & _).
  split_and!; [done|rewrite H1; by vm_compute|done|]. exists p. split; [done|].
  eapply stands_for_eq; [done|]. apply (bool_decide_unpack _). by vm_compute.
Defined.

(** ** Tests *)

Lemma bool_decide_iff (b : bool) (P : Prop) `{Decision P} : (b = true ↔ P) → b = bool_decide P.
Proof. intros E. destruct b; symmetry; [by apply bool_decide_eq_true, E|]. apply bool_decide_eq_false. intros HP. by apply E in HP. Qed.

Lemma is_empty_words a : bms_ok a → bms_is_empty a = true ↔ ∀ x, inb (words a) x = false.
Proof.
  intros Ha. destruct a as [a|]; simpl; [by apply all_zero_spec|]. split; [|done]. intros _ x. apply inb_nil.
Qed.

Lemma subset_members a b :
  bms_ok a → bms_ok b → members a ⊆ members b ↔ ∀ x, inb (words a) x = true → inb (words b) x = true.
Proof.
  intros Ha Hb. rewrite elem_of_subseteq. apply forall_proper. intros x. by rewrite !elem_of_members.
Qed.

Lemma equal_members a b :
  bms_ok a → bms_ok b → members a = members b ↔ ∀ x, inb (words a) x = inb (words b) x.
Proof.
  intros Ha Hb. rewrite set_eq. apply forall_proper. intros x. rewrite !elem_of_members by done.
  destruct (inb (words a) x), (inb (words b) x); naive_solver.
Qed.

Lemma is_empty_decides a : bms_ok a → bms_is_empty a = bool_decide (members a = ∅).
Proof.
  intros Ha. apply bool_decide_iff. rewrite is_empty_words by done.
  rewrite <-members_None, (equal_members a None) by (done || constructor). apply forall_proper. intros x. by rewrite inb_nil.
Qed.

Lemma equal_decides a b : bms_ok a → bms_ok b → bms_equal a b = bool_decide (members a = members b).
Proof.
  intros Ha Hb. destruct a as [a|], b as [b|]; simpl.
  - apply bool_decide_iff. rewrite equal_members by done. unfold nwords.
    destruct (Z.leb_spec (Z.of_nat (length a)) (Z.of_nat (length b))).
    + apply (equal_words_spec a b); [done..|lia].
    + rewrite (equal_words_spec b a) by (done || lia). simpl. split; intros E x; by rewrite E.
  - rewrite members_None. apply (is_empty_decides (Some a) Ha).
  - rewrite members_None, (is_empty_decides (Some b) Hb : all_zero b = _). apply bool_decide_ext. split; congruence.
  - by rewrite bool_decide_eq_true_2.
Qed.

Lemma is_subset_decides a b : bms_ok a → bms_ok b → bms_is_subset a b = bool_decide (members a ⊆ members b).
Proof.
  intros Ha Hb. destruct a as [a|]; [destruct b as [b|]|]; simpl.
  - apply bool_decide_iff. rewrite subset_members by done. by apply subset_words_spec.
  - rewrite members_None, (is_empty_decides (Some a) Ha : all_zero a = _). apply bool_decide_ext. set_solver.
  - rewrite members_None. symmetry. apply bool_decide_eq_true_2. set_solver.
Qed.

Lemma overlap_decides a b :
  bms_ok a → bms_ok b → bms_overlap a b = bool_decide (members a ∩ members b ≠ ∅).
Proof.
  intros Ha Hb. destruct a as [a|], b as [b|]; simpl.
  2-4: symmetry; apply bool_decide_eq_false_2; rewrite members_None; set_solver.
  rewrite bool_decide_not, <-(negb_involutive (overlap_words a b)). f_equal. apply bool_decide_iff.
  rewrite negb_true_iff, overlap_words_spec by done. rewrite set_eq. apply forall_proper. intros x.
  rewrite !inb_Some by done. rewrite andb_false_iff, !bool_decide_eq_false, elem_of_intersection, elem_of_empty.
  destruct (decide (x ∈ members (Some a))); naive_solver.
Qed.

Lemma nonempty_difference_subset a b : bms_nonempty_difference a b = negb (bms_is_subset a b).
Proof. destruct a as [a|]; [destruct b as [b|]|]; simpl; [apply difference_nonempty_subset|done..]. Qed.

Lemma subset_compare_verdict a b :
  bms_subset_compare a b = verdict (bms_is_subset a b) (bms_is_subset b a).
Proof.
  destruct a as [a|], b as [b|]; simpl; [|by destruct (all_zero _)..|done].
  apply (compare_words_verdict true true a b eq_refl).
Qed.

(** C31: The tests decide what their names say of the sets, not of the arrays: emptiness,
    equality, inclusion, overlap, a nonempty difference; and the one-pass
    [bms_subset_compare] gives the same answer as two tests of inclusion. *)
Theorem bms_tests_decide a b :
  bms_ok a → bms_ok b →
  bms_is_empty a = bool_decide (members a = ∅) ∧
  bms_equal a b = bool_decide (members a = members b) ∧
  bms_is_subset a b = bool_decide (members a ⊆ members b) ∧
  bms_overlap a b = bool_decide (members a ∩ members b ≠ ∅) ∧
  bms_nonempty_difference a b = bool_decide (members a ∖ members b ≠ ∅) ∧
  bms_subset_compare a b =
    (if decide (members a ⊆ members b)
     then if decide (members b ⊆ members a) then BMS_EQUAL else BMS_SUBSET1
     else if decide (members b ⊆ members a) then BMS_SUBSET2 else BMS_DIFFERENT).
Proof.
  intros Ha Hb.
  split_and!; [by apply is_empty_decides|by apply equal_decides|by apply is_subset_decides|by apply overlap_decides| |].
  - rewrite nonempty_difference_subset, is_subset_decides, <-bool_decide_not by done. apply bool_decide_ext.
    split; intros H E; apply H; [by apply empty_difference_subseteq_L|by apply subseteq_empty_difference_L].
  - rewrite subset_compare_verdict, !is_subset_decides by done. unfold bool_decide. by repeat case_decide.
Qed.

Lemma bms_tests_decide_witness :
  (bms_ok set_a ∧ bms_ok set_b) ∧
  bms_is_empty set_a = false ∧ bms_overlap set_a set_b = true ∧ bms_subset_compare set_a set_b = BMS_DIFFERENT.
Proof.
  assert (Ha : bms_ok set_a) by (by apply (bool_decide_unpack _); vm_compute).
  assert (Hb : bms_ok set_b) by (by apply (bool_decide_unpack _); vm_compute).
  destruct (bms_tests_decide set_a set_b Ha Hb) as (H1 & _ & _ & H4 & _ & H6).
  split_and!; [done..|rewrite H1|rewrite H4|rewrite H6]; by vm_compute.
Defined.

(** ** Iteration *)

(** C40: [bms_next_member] returns the smallest member greater than [prevbit], and -2 when
    there is none, as its comment promises, for every [prevbit] of at least -1 and below
    INT_MAX, where the increment of [prevbit] would overflow. *)
Theorem bms_next_member_least a prevbit :
  bms_ok a → -1 ≤ prevbit < INT_MAX →
  ∃ x, bms_next_member a prevbit = Ok x ∧
    ((x = -2 ∧ ∀ y, y ∈ members a → y ≤ prevbit) ∨
     (prevbit < x ∧ x ∈ members a ∧ ∀ y, y ∈ members a → prevbit < y → x ≤ y)).
Proof.
  intros Ha Hp. destruct (bms_next_member_ok a prevbit Ha Hp) as [[E H]|(x & E & H1 & H2 & H3)];
    (eexists; split; [done|]).
  - left. split; [done|]. intros y Hy. apply elem_of_members in Hy; [|done].
    destruct (decide (y ≤ prevbit)); [done|]. rewrite H in Hy by lia. done.
  - right. split; [lia|]. split; [by apply elem_of_members|]. intros y Hy Hlt.
    apply elem_of_members in Hy; [|done]. destruct (decide (x ≤ y)); [done|]. rewrite H3 in Hy by lia. done.
Qed.

Lemma bms_next_member_least_witness :
  (bms_ok set_b ∧ -1 ≤ 40 < INT_MAX) ∧ ∃ x, bms_next_member set_b 40 = Ok x ∧ x = 70.
Proof.
  assert (Hb : bms_ok set_b) by (by apply (bool_decide_unpack _); vm_compute).
  assert (-1 ≤ 40 < INT_MAX) as Hx by (by vm_compute).
  destruct (bms_next_member_least set_b 40 Hb Hx) as (x & E & _).
  split; [done|]. exists x. split; [done|]. vm_compute in E. by simplify_eq.
Defined.

(** C29: The two ways to run through a set visit the same members in the same, increasing
    order, each once: the loop on [bms_next_member] that leaves the set alone, and the
    loop on [bms_first_member] that empties it.  Both end after one turn more than there
    are members; only with INT_MAX as a member the first loop, which then increments
    INT_MAX, reads outside the array. *)
Theorem bms_loops_visit a :
  bms_ok a →
  ∃ l, ((∀ x, x ∈ members a → x < INT_MAX) → next_loop (S (size (members a))) a (-1) = Ok l) ∧
    (INT_MAX ∈ members a → next_loop (S (size (members a))) a (-1) = Err EDangling) ∧
    (∃ a', first_loop (S (size (members a))) a = Ok (l, a') ∧ stands_for a' ∅) ∧
    StronglySorted Z.lt l ∧ list_to_set l = members a.
Proof.
  intros Ha. exists (enum (words a) 0). pose proof (enum_length a) as Hl.
  split.
  { intros Hint. apply (next_loop_ok _ a (-1)); [done| |unfold INT_MAX; lia|change (-1 + 1) with 0; lia].
    intros y Hy. by apply Hint, elem_of_members. }
  split.
  { intros Hmax%elem_of_members; [|done]. apply next_loop_overflow; [done|done|unfold INT_MAX; lia|change (-1 + 1) with 0; lia]. }
  split; [|split; [apply enum_sorted|apply enum_members]].
  destruct (first_loop_ok (S (size (members a))) a Ha ltac:(lia)) as (a' & E & Ha' & Hn). exists a'.
  split; [done|]. split; [done|]. apply members_ext; [done|]. intros x. rewrite elem_of_empty.
  split; [|done]. destruct (decide (x < 0)); [by rewrite inb_neg|]. rewrite Hn by lia. done.
Qed.

Lemma bms_loops_visit_witness :
  bms_ok set_b ∧ ∃ l, next_loop 3 set_b (-1) = Ok l ∧ l = [40; 70].
Proof.
  assert (Hb : bms_ok set_b) by (by apply (bool_decide_unpack _); vm_compute).
  destruct (bms_loops_visit set_b Hb) as (l & E & _). assert (∀ x, x ∈ members set_b → x < INT_MAX) as Hint.
  { intros x Hx%elem_of_members; [|done]. apply inb_range in Hx; [|done]. assert (32 * nwords (words set_b) ≤ 1000) by (by vm_compute).
    unfold INT_MAX. lia. }
  specialize (E Hint). split; [done|]. exists l. split; [exact E|]. vm_compute in E. by simplify_eq.
Defined.

(** ** Counting *)

(** The three outcomes of the search for the sole member, on the sets. *)
Lemma sole_members a o :
  bms_ok a → sole 0 (words a) o →
  match o with
  | None => (1 < size (members a))%nat
  | Some r => (r = -1 ∧ members a = ∅) ∨ (0 ≤ r ∧ members a = {[r]})
  end.
Proof.
  intros Ha. destruct o as [r|]; simpl.
  - intros [[-> H]|(k & Hk & -> & H)]; [left|right]; (split; [lia|]); apply members_ext; try done; intros x.
    + rewrite H, elem_of_empty. done.
    + rewrite H, Z.eqb_eq, elem_of_singleton. lia.
  - intros (x & y & Hne & Hx & Hy). apply elem_of_members in Hx, Hy; [|done..].
    apply Nat.lt_le_trans with (size ({[x; y]} : gset Z)); [|apply subseteq_size; set_solver].
    rewrite size_union, !size_singleton by set_solver. lia.
Qed.

(** C32: Counting and singletons: [bms_num_members] is the number of members,
    [bms_membership] says whether there are none, one or more, [bms_get_singleton_member]
    returns the member exactly of a singleton, and [bms_singleton_member] raises an error
    on every other set. *)
Theorem bms_counting a :
  bms_ok a →
  bms_num_members a = Ok (Z.of_nat (size (members a))) ∧
  bms_membership a =
    match size (members a) with O => BMS_EMPTY_SET | 1%nat => BMS_SINGLETON | _ => BMS_MULTIPLE end ∧
  (∀ x, bms_singleton_member a = Ok x ↔ members a = {[x]}) ∧
  (∀ x, bms_get_singleton_member a = Ok (Some x) ↔ members a = {[x]}) ∧
  (size (members a) ≠ 1%nat → bms_singleton_member a = Err EElog ∧ bms_get_singleton_member a = Ok None).
Proof.
  intros Ha. split; [by apply bms_num_members_ok|].
  destruct a as [a|]; [|rewrite members_None; split_and!; [done|split; set_solver..|done]].
  destruct (only_member_ok 0 a Ha ltac:(lia)) as (o & E & Ho).
  pose proof (membership_words_ok 0 a o Ha ltac:(lia) E) as Em.
  apply (sole_members (Some a) o Ha) in Ho. simpl bms_membership. rewrite Em.
  unfold bms_singleton_member, bms_get_singleton_member. rewrite E. destruct o as [r|].
  - destruct Ho as [[-> Hm]|[Hr Hm]]; rewrite Hm.
    + rewrite size_empty. split_and!; [done|split; set_solver..|done].
    + destruct (Z.ltb_spec r 0); [lia|]. rewrite size_singleton.
      split_and!; [done|intros x; split; [by intros [= ->]|by intros ->%(inj _)]..|done].
  - destruct (size (members (Some a))) as [|[|n]] eqn:Es; [lia..|].
    split_and!; [done|intros x; split; [done|intros Hm; rewrite Hm, size_singleton in Es; lia]..|done].
Qed.

Lemma bms_counting_witness :
  (bms_ok set_b ∧ size (members set_b) ≠ 1%nat) ∧
  bms_num_members set_b = Ok 2 ∧ bms_singleton_member set_b = Err EElog.
Proof.
  assert (Hb : bms_ok set_b) by (by apply (bool_decide_unpack _); vm_compute).
  assert (Hs : size (members set_b) ≠ 1%nat) by (by vm_compute).
  destruct (bms_counting set_b Hb) as (H1 & _ & _ & _ & H5).
  split_and!; [done..|by rewrite H1; vm_compute|by apply H5].
Defined.

(** ** Hashing *)

(** Two sets that [bms_equal] calls equal hash alike, for every hash function on the
    words, and whatever trailing zero words they have. *)
Theorem bms_equal_hash_alike (hash_any : Bitmapset → Z) a b :
  bms_ok a → bms_ok b → bms_equal a b = true → bms_hash_value hash_any a = bms_hash_value hash_any b.
Proof.
  intros Ha Hb H. rewrite equal_decides, bool_decide_eq_true, equal_members in H by done.
  assert (E : ∀ c, bms_hash_value hash_any c = match strip (words c) with [] => 0 | ws => hash_any ws end)
    by (by intros [c|]).
  by rewrite !E, (strip_ext _ _ Ha Hb H).
Qed.

Lemma bms_equal_hash_alike_witness :
  (bms_ok set_a ∧ bms_ok (Some [2; 256]) ∧ bms_equal set_a (Some [2; 256]) = true) ∧
  bms_hash_value (foldr Z.add 7) set_a = bms_hash_value (foldr Z.add 7) (Some [2; 256]).
Proof.
  assert (Ha : bms_ok set_a) by (by apply (bool_decide_unpack _); vm_compute).
  assert (Hb : bms_ok (Some [2; 256])) by (by apply (bool_decide_unpack _); vm_compute).
  split; [by split_and!|]. by apply (bms_equal_hash_alike (foldr Z.add 7) set_a (Some [2; 256]) Ha Hb).
Defined.

(** ** Ranges of the C types *)

(** No more words than the members of type int need. *)
Definition int_sized (a : option Bitmapset) : Prop := nwords (words a) ≤ 2 ^ 26.

Lemma length_or_words a b : length (or_words a b) = length a.
Proof. revert b. induction a as [|w a IH]; intros [|w' b]; simpl; auto. Qed.

Lemma length_and_words a b : length (and_words a b) = length a.
Proof. revert b. induction a as [|w a IH]; intros [|w' b]; simpl; auto. Qed.

Lemma length_andnot_words a b : length (andnot_words a b) = length a.
Proof. revert b. induction a as [|w a IH]; intros [|w' b]; simpl; auto. Qed.

Lemma length_int_words a b : length (int_words a b) = length a.
Proof. revert b. induction a as [|w a IH]; intros [|w' b]; simpl; auto. Qed.

Ltac lengths := unfold int_sized, nwords in *; simpl in *;
  rewrite ?length_or_words, ?length_and_words, ?length_andnot_words, ?length_int_words in *.

Lemma member_int a x : bms_ok a → int_sized a → x ∈ members a → 0 ≤ x ≤ INT_MAX.
Proof.
  intros Ha Hs Hx. apply elem_of_members in Hx; [|done]. apply inb_range in Hx; [|done].
  unfold int_sized, INT_MAX in *. lia.
Qed.

Lemma add_member_int a x p :
  int_sized a → x ≤ INT_MAX → bms_add_member a x = Ok p → int_sized p.
Proof.
  intros Hs Hx. unfold bms_add_member. destruct (Z.ltb_spec x 0); [done|].
  assert (WORDNUM x < 2 ^ 26).
  { unfold WORDNUM, BITS_PER_BITMAPWORD. apply Z.div_lt_upper_bound; unfold INT_MAX in *; lia. }
  assert (0 ≤ WORDNUM x) by (unfold WORDNUM, BITS_PER_BITMAPWORD; apply Z.div_pos; lia).
  destruct a as [a|].
  - intros [= <-]. lengths. rewrite length_alter. destruct (Z.leb_spec (Z.of_nat (length a)) (WORDNUM x)); [|done].
    rewrite length_app, length_replicate. lia.
  - unfold bms_make_singleton. destruct (Z.ltb_spec x 0); [done|]. intros [= <-]. lengths.
    rewrite length_app, length_replicate. simpl. lia.
Qed.

(** C33: Integers of type int suffice.  Arrays of at most 2^26 words are closed under every
    operation, as long as the members that are added are ints; their members are ints,
    and so are the results of [bms_next_member] and, unless every int is a member, of
    [bms_num_members]. *)
Theorem bms_ints_fit a b x :
  bms_ok a → bms_ok b → int_sized a → int_sized b → x ≤ INT_MAX →
  (int_sized (bms_union a b) ∧ int_sized (bms_intersect a b) ∧ int_sized (bms_difference a b) ∧
   int_sized (bms_add_members a b) ∧ int_sized (bms_int_members a b) ∧ int_sized (bms_del_members a b) ∧
   int_sized (bms_join a b)) ∧
  (∀ p, bms_add_member a x = Ok p → int_sized p) ∧
  (∀ d, bms_del_member a x = Ok d → int_sized d) ∧
  (∀ y, y ∈ members a → 0 ≤ y ≤ INT_MAX) ∧
  (∀ y, -1 ≤ x < INT_MAX → bms_next_member a x = Ok y → -2 ≤ y ≤ INT_MAX) ∧
  (∀ n, bms_num_members a = Ok n → 0 ≤ n ≤ INT_MAX + 1).
Proof.
  intros Ha Hb Hsa Hsb Hx. split; [|split_and!].
  - destruct a as [a|], b as [b|]; simpl; split_and!; try done; lengths; try case_match; lengths; lia.
  - intros p. by apply add_member_int.
  - unfold bms_del_member. intros d. destruct (x <? 0); [done|]. destruct a as [a|]; intros [= <-]; [|done].
    unfold int_sized, nwords in *. simpl in *. destruct (_ <? _); [|done].
    apply Z.le_trans with (Z.of_nat (length a)); [apply Z.eq_le_incl; f_equal; apply length_alter|exact Hsa].
  - intros y. by apply member_int.
  - intros y Hx1 Hy. destruct (bms_next_member_ok a x Ha Hx1) as [[E _]|(z & E & Hz & Hin & _)];
      rewrite Hy in E; simplify_eq; [unfold INT_MAX; lia|].
    pose proof (member_int a z Ha Hsa) as H. rewrite elem_of_members in H by done. specialize (H Hin). lia.
  - intros n Hn. rewrite bms_num_members_ok in Hn by done. simplify_eq. split; [lia|].
    rewrite <-enum_length. unfold enum. unfold int_sized, INT_MAX in *.
    pose proof (length_filter (λ x, inb (words a) x = true) (seqZ 0 (32 * nwords (words a) - 0))) as H.
    rewrite length_seqZ in H. lia.
Qed.

Lemma bms_ints_fit_witness :
  (bms_ok set_a ∧ bms_ok set_b ∧ int_sized set_a ∧ int_sized set_b ∧ 100 ≤ INT_MAX) ∧
  int_sized (bms_join set_a set_b).
Proof.
  assert (Ha : bms_ok set_a) by (by apply (bool_decide_unpack _); vm_compute).
  assert (Hb : bms_ok set_b) by (by apply (bool_decide_unpack _); vm_compute).
  assert (Hsa : int_sized set_a) by (by vm_compute).
  assert (Hsb : int_sized set_b) by (by vm_compute).
  assert (Hx : 100 ≤ INT_MAX) by (by vm_compute).
  destruct (bms_ints_fit set_a set_b 100 Ha Hb Hsa Hsb Hx) as (H & _). by split_and!; destruct_and!.
Defined.
