(* ===== verification/NodeText.v ===== *)
(** Tokens of the textual form of nodes: the lexer of backend/nodes/read.c, the escaping of
    backend/nodes/outfuncs.c, and what both use of printf, strtol and strtoul.

    A C string is the list of its characters before the terminating NUL.  The state of the
    lexer, [pg_strtok_ptr], is the part of the string that is still to be read.  A token is
    a pointer into the string and a length: the text from the start of the token on, and
    the number of characters that belong to it. *)

From Stdlib Require Export Ascii.
From S2P Require Import Prelude.

#[local] Open Scope char_scope.

Definition text : Type := list ascii.

(** A string literal. *)
Definition lit_text (s : string) : text := String.list_ascii_of_string s.

Definition space : ascii := " ".
Definition newline : ascii := "010".
Definition tab : ascii := "009".
Definition quote : ascii := "034".
Definition backslash : ascii := "\".

(** ** Characters *)

Definition is_ws (c : ascii) : bool := (c =? space) || (c =? newline) || (c =? tab).

Definition is_paren (c : ascii) : bool := (c =? "(") || (c =? ")") || (c =? "{") || (c =? "}").

(** The characters that end a token. *)
Definition delimits (c : ascii) : bool := is_ws c || is_paren c.

Definition code (c : ascii) : Z := Z.of_N (N_of_ascii c).

Definition isdigit (c : ascii) : bool := (48 <=? code c)%Z && (code c <=? 57)%Z.

(** isspace of the C locale. *)
Definition isspace (c : ascii) : bool := (c =? space) || ((9 <=? code c)%Z && (code c <=? 13)%Z).

#[local] Open Scope Z_scope.

(** ** Printing numbers *)

Definition digit (d : Z) : ascii := ascii_of_N (Z.to_N (48 + d)).

(** The digits of a number, last digit first. *)
Fixpoint digits_rev (fuel : nat) (n : Z) : text :=
  match fuel with
  | O => []
  | S fuel => digit (n mod 10) :: (if n <? 10 then [] else digits_rev fuel (n / 10))
  end.

Definition print_unsigned (n : Z) : text := rev (digits_rev (S (Z.to_nat (Z.log2 n))) n).

(** %d, %ld and %u. *)
Definition print_int (n : Z) : text := if n <? 0 then ("-"%char : ascii) :: print_unsigned (- n) else print_unsigned n.

(** ** Reading numbers *)

Definition INT32_MIN : Z := - 2 ^ 31.
Definition INT32_MAX : Z := 2 ^ 31 - 1.
Definition LONG_MIN : Z := - 2 ^ 63.
Definition LONG_MAX : Z := 2 ^ 63 - 1.

(** Conversions to narrower types. *)
Definition to_signed (bits : Z) (z : Z) : Z :=
  let m := z mod 2 ^ bits in if m <? 2 ^ (bits - 1) then m else m - 2 ^ bits.
Definition to_int (z : Z) : Z := to_signed 32 z.
Definition to_uint (z : Z) : Z := z mod 2 ^ 32.

Fixpoint span (f : ascii → bool) (s : text) : text :=
  match s with
  | c :: s => if f c then c :: span f s else []
  | [] => []
  end.

Definition digits_value (ds : text) : Z := fold_left (λ acc c, acc * 10 + (code c - 48)) ds 0.

(** The number at the start of a string: negative or not, its digits, and how many
    characters it takes; none if there are no digits. *)
Definition scan_number (s : text) : option (bool * Z * nat) :=
  let ws := span isspace s in
  let s1 := drop (length ws) s in
  let '(neg, signs) := match s1 with
                       | c :: _ => if (c =? "-")%char then (true, 1%nat) else if (c =? "+")%char then (false, 1%nat) else (false, 0%nat)
                       | [] => (false, 0%nat)
                       end in
  let ds := span isdigit (drop signs s1) in
  match ds with
  | [] => None
  | _ => Some (neg, digits_value ds, (length ws + signs + length ds)%nat)
  end.

(** [strtol(s, &endptr, 10)]: the value, whether errno is ERANGE, and [endptr - s]. *)
Definition strtol (s : text) : Z * bool * nat :=
  match scan_number s with
  | None => (0, false, 0%nat)
  | Some (neg, v, n) =>
      let v := if neg then - v else v in
      if v <? LONG_MIN then (LONG_MIN, true, n)
      else if LONG_MAX <? v then (LONG_MAX, true, n)
      else (v, false, n)
  end.

(** [strtoul]: a minus sign negates in the unsigned type. *)
Definition strtoul (s : text) : Z * nat :=
  match scan_number s with
  | None => (0, 0%nat)
  | Some (neg, v, n) =>
      if 2 ^ 64 <=? v then (2 ^ 64 - 1, n)
      else ((if neg then - v else v) mod 2 ^ 64, n)
  end.

Definition atol (s : text) : Z := (strtol s).1.1.
Definition atoi (s : text) : Z := to_int (atol s).
Definition atoui (s : text) : Z := to_uint (strtoul s).1.
Definition atooid (s : text) : Z := to_uint (strtoul s).1.

(** ** The lexer *)

Fixpoint skip_ws (s : text) : text :=
  match s with
  | c :: s' => if is_ws c then skip_ws s' else s
  | [] => []
  end.

(** The length of a token that does not start with a parenthesis or brace. *)
Fixpoint token_length (s : text) : nat :=
  match s with
  | [] => 0
  | c :: s' =>
      if delimits c then 0
      else if (c =? backslash)%char then
        match s' with
        | _ :: s'' => 2 + token_length s''
        | [] => 1
        end
      else 1 + token_length s'
  end.

Record token := mkToken { tok_text : text; tok_len : nat }.

(** The characters of a token. *)
Definition tok_chars (t : token) : text := take (tok_len t) (tok_text t).

(** [*token]; NUL at the end of the string. *)
Definition first_char (t : token) : ascii := match tok_text t with c :: _ => c | [] => zero end.

Definition pg_strtok : M text (option token) := λ s,
  match skip_ws s with
  | [] => Ok (None, [])
  | c :: s' =>
      let len := if is_paren c then 1%nat else token_length (c :: s') in
      let reported := match c :: take (len - 1) s' with
                      | [c1; c2] => if (c1 =? "<")%char && (c2 =? ">")%char then 0%nat else len
                      | _ => len
                      end in
      Ok (Some (mkToken (c :: s') reported), drop len (c :: s'))
  end.

(** A token that the caller dereferences without a check. *)
Definition strtok_deref : M text token :=
  t <- pg_strtok;;
  match t with
  | Some t => ret t
  | None => fail ENullDeref
  end.

(** A token whose absence the caller reports. *)
Definition strtok_or_elog : M text token :=
  t <- pg_strtok;;
  match t with
  | Some t => ret t
  | None => fail EElog
  end.

(** ** Escapes *)

(** The characters of a token without their protective backslashes. *)
Fixpoint debackslash (s : text) : text :=
  match s with
  | [] => []
  | c :: s' =>
      if (c =? backslash)%char then
        match s' with
        | c' :: s'' => c' :: debackslash s''
        | [] => [c]
        end
      else c :: debackslash s'
  end.

Definition escaped (c : ascii) : bool := delimits c || (c =? backslash)%char.

Fixpoint escape (s : text) : text :=
  match s with
  | [] => []
  | c :: s => (if escaped c then [backslash; c] else [c]) ++ escape s
  end.

(** Whether the first character needs a backslash because of its position. *)
Definition escape_first (s : text) : bool :=
  match s with
  | [] => false
  | c :: s' =>
      (c =? "<")%char || (c =? quote)%char || isdigit c ||
      (((c =? "+")%char || (c =? "-")%char) &&
       match s' with c' :: _ => isdigit c' || (c' =? ".")%char | [] => false end)
  end.

(** [None] is the NULL pointer. *)
Definition outToken (s : option text) : text :=
  match s with
  | None | Some [] => lit_text "<>"
  | Some s => (if escape_first s then [backslash] else []) ++ escape s
  end.
