(* ===== verification/NodeTree.v ===== *)
(** Trees of nodes as backend/nodes/outfuncs.c writes them and readfuncs.c reads them.

    Unlike [node] of Nodes, which has the fields that the hooks use, a [tree] has all fields
    that are written: a struct is its tag with the values of its fields by name, and a
    field that is not listed is zero, as makeNode leaves it. *)

From S2P Require Import Prelude NodeText Bitmapset.

(** The node types that are written with braces. *)
Inductive NodeTag :=
  | T_Query | T_WithCheckOption | T_SortGroupClause | T_GroupingSet | T_WindowClause | T_RowMarkClause
  | T_CommonTableExpr | T_SetOperationStmt | T_Alias | T_RangeVar | T_IntoClause | T_Var | T_Const | T_Param
  | T_Aggref | T_GroupingFunc | T_WindowFunc | T_ArrayRef | T_FuncExpr | T_NamedArgExpr | T_OpExpr
  | T_DistinctExpr | T_NullIfExpr | T_ScalarArrayOpExpr | T_BoolExpr | T_SubLink | T_FieldSelect
  | T_FieldStore | T_RelabelType | T_CoerceViaIO | T_ArrayCoerceExpr | T_ConvertRowtypeExpr | T_CollateExpr
  | T_CaseExpr | T_CaseWhen | T_CaseTestExpr | T_ArrayExpr | T_RowExpr | T_RowCompareExpr | T_CoalesceExpr
  | T_MinMaxExpr | T_XmlExpr | T_NullTest | T_BooleanTest | T_CoerceToDomain | T_CoerceToDomainValue
  | T_SetToDefault | T_CurrentOfExpr | T_InferenceElem | T_TargetEntry | T_RangeTblRef | T_JoinExpr
  | T_FromExpr | T_OnConflictExpr | T_RangeTblEntry | T_RangeTblFunction | T_TableSampleClause | T_NotifyStmt
  | T_DefElem | T_DeclareCursorStmt | T_PlannedStmt | T_NestLoopParam | T_PlanRowMark | T_PlanInvalItem
  | T_AlternativeSubPlan.

#[global] Instance NodeTag_eq_dec : EqDecision NodeTag.
Proof. solve_decision. Defined.

(** A Datum: by value, or a pointer to the bytes of the value (as many as datumGetSize
    finds there); bytes are chars, which are signed. *)
Inductive datum :=
  | ByValue (bytes : list Z)
  | ByReference (bytes : option (list Z)).

(** The value of a field: numbers, enums and chars (as codes from 0 to 255); booleans;
    strings; nodes; sets; data.  A tree is a node: the NULL pointer, a Value, a list or a
    struct. *)
Inductive fval :=
  | VInt (z : Z)
  | VBool (b : bool)
  | VString (s : option text)
  | VNode (t : tree)
  | VBitmapset (a : option Bitmapset)
  | VDatum (d : datum)

with tree :=
  | NULL_ptr
  | TInteger (ival : Z)
  | TFloat (str : text)
  | TString (str : text)
  | TBitString (str : text)
  | TList (l : list tree)
  | TIntList (l : list Z)
  | TOidList (l : list Z)
  | Struct (tag : NodeTag) (fields : list (string * fval)).

(** The macros WRITE_..._FIELD and READ_..._FIELD with the names of their fields;
    [INT16_FIELD] is WRITE_INT_FIELD and READ_INT_FIELD of an AttrNumber. *)
Inductive field :=
  | INT_FIELD (f : string)
  | INT16_FIELD (f : string)
  | UINT_FIELD (f : string)
  | OID_FIELD (f : string)
  | CHAR_FIELD (f : string)
  | ENUM_FIELD (f : string)
  | BOOL_FIELD (f : string)
  | STRING_FIELD (f : string)
  | LOCATION_FIELD (f : string)
  | NODE_FIELD (f : string)
  | BITMAPSET_FIELD (f : string).

Definition field_name (fl : field) : string :=
  match fl with
  | INT_FIELD f | INT16_FIELD f | UINT_FIELD f | OID_FIELD f | CHAR_FIELD f | ENUM_FIELD f | BOOL_FIELD f
  | STRING_FIELD f | LOCATION_FIELD f | NODE_FIELD f | BITMAPSET_FIELD f => f
  end.

(** An output or input function consists of the macros only, or has code of its own. *)
Inductive node_function (D C : Type) :=
  | Macros (d : D)
  | Code (c : C).
Arguments Macros {D C} d.
Arguments Code {D C} c.

(** ** Fields of a struct *)

Definition fields : Type := list (string * fval).

Fixpoint lookup_field {A} (f : string) (n : list (string * A)) : option A :=
  match n with
  | [] => None
  | (g, v) :: n => if String.eqb f g then Some v else lookup_field f n
  end.

(** [node->f]. *)
Definition int_of (f : string) (n : fields) : Z := match lookup_field f n with Some (VInt z) => z | _ => 0 end.
Definition bool_of (f : string) (n : fields) : bool := match lookup_field f n with Some (VBool b) => b | _ => false end.
Definition string_of (f : string) (n : fields) : option text := match lookup_field f n with Some (VString s) => s | _ => None end.
Definition node_of (f : string) (n : fields) : tree := match lookup_field f n with Some (VNode t) => t | _ => NULL_ptr end.
Definition bitmapset_of (f : string) (n : fields) : option Bitmapset :=
  match lookup_field f n with Some (VBitmapset a) => a | _ => None end.
Definition datum_of (f : string) (n : fields) : datum :=
  match lookup_field f n with Some (VDatum d) => d | _ => ByReference None end.

(** A scalar field as a number, a boolean being 0 or 1, and as a condition. *)
Definition scalar_of (f : string) (n : fields) : Z :=
  match lookup_field f n with Some (VInt z) => z | Some (VBool b) => Z.b2z b | _ => 0 end.
Definition true_of (f : string) (n : fields) : bool := negb (scalar_of f n =? 0).

(** [local_node->f = v]; makeNode gives a struct of zeros. *)
Definition makeNode : fields := [].
Definition set_field (f : string) (v : fval) (n : fields) : fields := n ++ [(f, v)].
