(* ===== verification/NodeSchema.v ===== *)
(** The fields that the output functions of outfuncs.c write and the input functions of
    readfuncs.c read, in their order, with the label of the node type, for the node types all of whose fields go through the
    WRITE_..._FIELD and READ_..._FIELD macros.  The others are in NodeOut and NodeRead. *)

From S2P Require Import Prelude NodeTree.

#[local] Open Scope string_scope.

(** ** outfuncs.c *)

Definition outNotifyStmt : string * list field :=
  ("NOTIFY",
   [STRING_FIELD "conditionname"; STRING_FIELD "payload"]).

Definition outDeclareCursorStmt : string * list field :=
  ("DECLARECURSOR",
   [STRING_FIELD "portalname"; INT_FIELD "options"; NODE_FIELD "query"]).

Definition outWithCheckOption : string * list field :=
  ("WITHCHECKOPTION",
   [ENUM_FIELD "kind"; STRING_FIELD "relname"; STRING_FIELD "polname"; NODE_FIELD "qual"; BOOL_FIELD "cascaded"]).

Definition outSortGroupClause : string * list field :=
  ("SORTGROUPCLAUSE",
   [UINT_FIELD "tleSortGroupRef"; OID_FIELD "eqop"; OID_FIELD "sortop"; BOOL_FIELD "nulls_first";
   BOOL_FIELD "hashable"]).

Definition outGroupingSet : string * list field :=
  ("GROUPINGSET",
   [ENUM_FIELD "kind"; NODE_FIELD "content"; LOCATION_FIELD "location"]).

Definition outWindowClause : string * list field :=
  ("WINDOWCLAUSE",
   [STRING_FIELD "name"; STRING_FIELD "refname"; NODE_FIELD "partitionClause"; NODE_FIELD "orderClause";
   INT_FIELD "frameOptions"; NODE_FIELD "startOffset"; NODE_FIELD "endOffset"; UINT_FIELD "winref";
   BOOL_FIELD "copiedOrder"]).

Definition outRowMarkClause : string * list field :=
  ("ROWMARKCLAUSE",
   [UINT_FIELD "rti"; ENUM_FIELD "strength"; ENUM_FIELD "waitPolicy"; BOOL_FIELD "pushedDown"]).

Definition outCommonTableExpr : string * list field :=
  ("COMMONTABLEEXPR",
   [STRING_FIELD "ctename"; NODE_FIELD "aliascolnames"; NODE_FIELD "ctequery"; LOCATION_FIELD "location";
   BOOL_FIELD "cterecursive"; INT_FIELD "cterefcount"; NODE_FIELD "ctecolnames"; NODE_FIELD "ctecoltypes";
   NODE_FIELD "ctecoltypmods"; NODE_FIELD "ctecolcollations"]).

Definition outSetOperationStmt : string * list field :=
  ("SETOPERATIONSTMT",
   [ENUM_FIELD "op"; BOOL_FIELD "all"; NODE_FIELD "larg"; NODE_FIELD "rarg"; NODE_FIELD "colTypes";
   NODE_FIELD "colTypmods"; NODE_FIELD "colCollations"; NODE_FIELD "groupClauses"]).

Definition outAlias : string * list field :=
  ("ALIAS",
   [STRING_FIELD "aliasname"; NODE_FIELD "colnames"]).

Definition outIntoClause : string * list field :=
  ("INTOCLAUSE",
   [NODE_FIELD "rel"; NODE_FIELD "colNames"; NODE_FIELD "options"; ENUM_FIELD "onCommit";
   STRING_FIELD "tableSpaceName"; NODE_FIELD "viewQuery"; BOOL_FIELD "skipData"]).

Definition outVar : string * list field :=
  ("VAR",
   [UINT_FIELD "varno"; INT16_FIELD "varattno"; OID_FIELD "vartype"; INT_FIELD "vartypmod"; OID_FIELD "varcollid";
   UINT_FIELD "varlevelsup"; UINT_FIELD "varnoold"; INT16_FIELD "varoattno"; LOCATION_FIELD "location"]).

Definition outParam : string * list field :=
  ("PARAM",
   [ENUM_FIELD "paramkind"; INT_FIELD "paramid"; OID_FIELD "paramtype"; INT_FIELD "paramtypmod";
   OID_FIELD "paramcollid"; LOCATION_FIELD "location"]).

Definition outAggref : string * list field :=
  ("AGGREF",
   [OID_FIELD "aggfnoid"; OID_FIELD "aggtype"; OID_FIELD "aggoutputtype"; OID_FIELD "aggcollid";
   OID_FIELD "inputcollid"; OID_FIELD "aggtranstype"; NODE_FIELD "aggargtypes"; NODE_FIELD "aggdirectargs";
   NODE_FIELD "args"; NODE_FIELD "aggorder"; NODE_FIELD "aggdistinct"; NODE_FIELD "aggfilter";
   BOOL_FIELD "aggstar"; BOOL_FIELD "aggvariadic"; BOOL_FIELD "aggcombine"; BOOL_FIELD "aggpartial";
   CHAR_FIELD "aggkind"; UINT_FIELD "agglevelsup"; LOCATION_FIELD "location"]).

Definition outGroupingFunc : string * list field :=
  ("GROUPINGFUNC",
   [NODE_FIELD "args"; NODE_FIELD "refs"; NODE_FIELD "cols"; UINT_FIELD "agglevelsup"; LOCATION_FIELD "location"]).

Definition outWindowFunc : string * list field :=
  ("WINDOWFUNC",
   [OID_FIELD "winfnoid"; OID_FIELD "wintype"; OID_FIELD "wincollid"; OID_FIELD "inputcollid"; NODE_FIELD "args";
   NODE_FIELD "aggfilter"; UINT_FIELD "winref"; BOOL_FIELD "winstar"; BOOL_FIELD "winagg";
   LOCATION_FIELD "location"]).

Definition outArrayRef : string * list field :=
  ("ARRAYREF",
   [OID_FIELD "refarraytype"; OID_FIELD "refelemtype"; INT_FIELD "reftypmod"; OID_FIELD "refcollid";
   NODE_FIELD "refupperindexpr"; NODE_FIELD "reflowerindexpr"; NODE_FIELD "refexpr"; NODE_FIELD "refassgnexpr"]).

Definition outFuncExpr : string * list field :=
  ("FUNCEXPR",
   [OID_FIELD "funcid"; OID_FIELD "funcresulttype"; BOOL_FIELD "funcretset"; BOOL_FIELD "funcvariadic";
   ENUM_FIELD "funcformat"; OID_FIELD "funccollid"; OID_FIELD "inputcollid"; NODE_FIELD "args";
   LOCATION_FIELD "location"]).

Definition outNamedArgExpr : string * list field :=
  ("NAMEDARGEXPR",
   [NODE_FIELD "arg"; STRING_FIELD "name"; INT_FIELD "argnumber"; LOCATION_FIELD "location"]).

Definition outOpExpr : string * list field :=
  ("OPEXPR",
   [OID_FIELD "opno"; OID_FIELD "opfuncid"; OID_FIELD "opresulttype"; BOOL_FIELD "opretset"; OID_FIELD "opcollid";
   OID_FIELD "inputcollid"; NODE_FIELD "args"; LOCATION_FIELD "location"]).

Definition outDistinctExpr : string * list field :=
  ("DISTINCTEXPR",
   [OID_FIELD "opno"; OID_FIELD "opfuncid"; OID_FIELD "opresulttype"; BOOL_FIELD "opretset"; OID_FIELD "opcollid";
   OID_FIELD "inputcollid"; NODE_FIELD "args"; LOCATION_FIELD "location"]).

Definition outNullIfExpr : string * list field :=
  ("NULLIFEXPR",
   [OID_FIELD "opno"; OID_FIELD "opfuncid"; OID_FIELD "opresulttype"; BOOL_FIELD "opretset"; OID_FIELD "opcollid";
   OID_FIELD "inputcollid"; NODE_FIELD "args"; LOCATION_FIELD "location"]).

Definition outScalarArrayOpExpr : string * list field :=
  ("SCALARARRAYOPEXPR",
   [OID_FIELD "opno"; OID_FIELD "opfuncid"; BOOL_FIELD "useOr"; OID_FIELD "inputcollid"; NODE_FIELD "args";
   LOCATION_FIELD "location"]).

Definition outSubLink : string * list field :=
  ("SUBLINK",
   [ENUM_FIELD "subLinkType"; INT_FIELD "subLinkId"; NODE_FIELD "testexpr"; NODE_FIELD "operName";
   NODE_FIELD "subselect"; LOCATION_FIELD "location"]).

Definition outFieldSelect : string * list field :=
  ("FIELDSELECT",
   [NODE_FIELD "arg"; INT16_FIELD "fieldnum"; OID_FIELD "resulttype"; INT_FIELD "resulttypmod";
   OID_FIELD "resultcollid"]).

Definition outFieldStore : string * list field :=
  ("FIELDSTORE",
   [NODE_FIELD "arg"; NODE_FIELD "newvals"; NODE_FIELD "fieldnums"; OID_FIELD "resulttype"]).

Definition outRelabelType : string * list field :=
  ("RELABELTYPE",
   [NODE_FIELD "arg"; OID_FIELD "resulttype"; INT_FIELD "resulttypmod"; OID_FIELD "resultcollid";
   ENUM_FIELD "relabelformat"; LOCATION_FIELD "location"]).

Definition outCoerceViaIO : string * list field :=
  ("COERCEVIAIO",
   [NODE_FIELD "arg"; OID_FIELD "resulttype"; OID_FIELD "resultcollid"; ENUM_FIELD "coerceformat";
   LOCATION_FIELD "location"]).

Definition outArrayCoerceExpr : string * list field :=
  ("ARRAYCOERCEEXPR",
   [NODE_FIELD "arg"; OID_FIELD "elemfuncid"; OID_FIELD "resulttype"; INT_FIELD "resulttypmod";
   OID_FIELD "resultcollid"; BOOL_FIELD "isExplicit"; ENUM_FIELD "coerceformat"; LOCATION_FIELD "location"]).

Definition outConvertRowtypeExpr : string * list field :=
  ("CONVERTROWTYPEEXPR",
   [NODE_FIELD "arg"; OID_FIELD "resulttype"; ENUM_FIELD "convertformat"; LOCATION_FIELD "location"]).

Definition outCollateExpr : string * list field :=
  ("COLLATE",
   [NODE_FIELD "arg"; OID_FIELD "collOid"; LOCATION_FIELD "location"]).

Definition outCaseExpr : string * list field :=
  ("CASE",
   [OID_FIELD "casetype"; OID_FIELD "casecollid"; NODE_FIELD "arg"; NODE_FIELD "args"; NODE_FIELD "defresult";
   LOCATION_FIELD "location"]).

Definition outCaseWhen : string * list field :=
  ("WHEN",
   [NODE_FIELD "expr"; NODE_FIELD "result"; LOCATION_FIELD "location"]).

Definition outCaseTestExpr : string * list field :=
  ("CASETESTEXPR",
   [OID_FIELD "typeId"; INT_FIELD "typeMod"; OID_FIELD "collation"]).

Definition outArrayExpr : string * list field :=
  ("ARRAY",
   [OID_FIELD "array_typeid"; OID_FIELD "array_collid"; OID_FIELD "element_typeid"; NODE_FIELD "elements";
   BOOL_FIELD "multidims"; LOCATION_FIELD "location"]).

Definition outRowExpr : string * list field :=
  ("ROW",
   [NODE_FIELD "args"; OID_FIELD "row_typeid"; ENUM_FIELD "row_format"; NODE_FIELD "colnames";
   LOCATION_FIELD "location"]).

Definition outRowCompareExpr : string * list field :=
  ("ROWCOMPARE",
   [ENUM_FIELD "rctype"; NODE_FIELD "opnos"; NODE_FIELD "opfamilies"; NODE_FIELD "inputcollids";
   NODE_FIELD "largs"; NODE_FIELD "rargs"]).

Definition outCoalesceExpr : string * list field :=
  ("COALESCE",
   [OID_FIELD "coalescetype"; OID_FIELD "coalescecollid"; NODE_FIELD "args"; LOCATION_FIELD "location"]).

Definition outMinMaxExpr : string * list field :=
  ("MINMAX",
   [OID_FIELD "minmaxtype"; OID_FIELD "minmaxcollid"; OID_FIELD "inputcollid"; ENUM_FIELD "op"; NODE_FIELD "args";
   LOCATION_FIELD "location"]).

Definition outXmlExpr : string * list field :=
  ("XMLEXPR",
   [ENUM_FIELD "op"; STRING_FIELD "name"; NODE_FIELD "named_args"; NODE_FIELD "arg_names"; NODE_FIELD "args";
   ENUM_FIELD "xmloption"; OID_FIELD "type"; INT_FIELD "typmod"; LOCATION_FIELD "location"]).

Definition outNullTest : string * list field :=
  ("NULLTEST",
   [NODE_FIELD "arg"; ENUM_FIELD "nulltesttype"; BOOL_FIELD "argisrow"; LOCATION_FIELD "location"]).

Definition outBooleanTest : string * list field :=
  ("BOOLEANTEST",
   [NODE_FIELD "arg"; ENUM_FIELD "booltesttype"; LOCATION_FIELD "location"]).

Definition outCoerceToDomain : string * list field :=
  ("COERCETODOMAIN",
   [NODE_FIELD "arg"; OID_FIELD "resulttype"; INT_FIELD "resulttypmod"; OID_FIELD "resultcollid";
   ENUM_FIELD "coercionformat"; LOCATION_FIELD "location"]).

Definition outCoerceToDomainValue : string * list field :=
  ("COERCETODOMAINVALUE",
   [OID_FIELD "typeId"; INT_FIELD "typeMod"; OID_FIELD "collation"; LOCATION_FIELD "location"]).

Definition outSetToDefault : string * list field :=
  ("SETTODEFAULT",
   [OID_FIELD "typeId"; INT_FIELD "typeMod"; OID_FIELD "collation"; LOCATION_FIELD "location"]).

Definition outCurrentOfExpr : string * list field :=
  ("CURRENTOFEXPR",
   [UINT_FIELD "cvarno"; STRING_FIELD "cursor_name"; INT_FIELD "cursor_param"]).

Definition outInferenceElem : string * list field :=
  ("INFERENCEELEM",
   [NODE_FIELD "expr"; OID_FIELD "infercollid"; OID_FIELD "inferopclass"]).

Definition outTargetEntry : string * list field :=
  ("TARGETENTRY",
   [NODE_FIELD "expr"; INT16_FIELD "resno"; STRING_FIELD "resname"; UINT_FIELD "ressortgroupref";
   OID_FIELD "resorigtbl"; INT16_FIELD "resorigcol"; BOOL_FIELD "resjunk"]).

Definition outRangeTblRef : string * list field :=
  ("RANGETBLREF",
   [INT_FIELD "rtindex"]).

Definition outJoinExpr : string * list field :=
  ("JOINEXPR",
   [ENUM_FIELD "jointype"; BOOL_FIELD "isNatural"; NODE_FIELD "larg"; NODE_FIELD "rarg"; NODE_FIELD "usingClause";
   NODE_FIELD "quals"; NODE_FIELD "alias"; INT_FIELD "rtindex"]).

Definition outFromExpr : string * list field :=
  ("FROMEXPR",
   [NODE_FIELD "fromlist"; NODE_FIELD "quals"]).

Definition outOnConflictExpr : string * list field :=
  ("ONCONFLICTEXPR",
   [ENUM_FIELD "action"; NODE_FIELD "arbiterElems"; NODE_FIELD "arbiterWhere"; OID_FIELD "constraint";
   NODE_FIELD "onConflictSet"; NODE_FIELD "onConflictWhere"; INT_FIELD "exclRelIndex"; NODE_FIELD "exclRelTlist"]).

Definition outRangeTblFunction : string * list field :=
  ("RANGETBLFUNCTION",
   [NODE_FIELD "funcexpr"; INT_FIELD "funccolcount"; NODE_FIELD "funccolnames"; NODE_FIELD "funccoltypes";
   NODE_FIELD "funccoltypmods"; NODE_FIELD "funccolcollations"; BITMAPSET_FIELD "funcparams"]).

Definition outTableSampleClause : string * list field :=
  ("TABLESAMPLECLAUSE",
   [OID_FIELD "tsmhandler"; NODE_FIELD "args"; NODE_FIELD "repeatable"]).

Definition outDefElem : string * list field :=
  ("DEFELEM",
   [STRING_FIELD "defnamespace"; STRING_FIELD "defname"; NODE_FIELD "arg"; ENUM_FIELD "defaction"]).

Definition outPlannedStmt : string * list field :=
  ("PLANNEDSTMT",
   [ENUM_FIELD "commandType"; UINT_FIELD "queryId"; BOOL_FIELD "hasReturning"; BOOL_FIELD "hasModifyingCTE";
   BOOL_FIELD "canSetTag"; BOOL_FIELD "transientPlan"; NODE_FIELD "planTree"; NODE_FIELD "rtable";
   NODE_FIELD "resultRelations"; NODE_FIELD "utilityStmt"; NODE_FIELD "subplans";
   BITMAPSET_FIELD "rewindPlanIDs"; NODE_FIELD "rowMarks"; NODE_FIELD "relationOids"; NODE_FIELD "invalItems";
   INT_FIELD "nParamExec"; BOOL_FIELD "hasRowSecurity"; BOOL_FIELD "parallelModeNeeded";
   BOOL_FIELD "hasForeignJoin"]).

Definition outNestLoopParam : string * list field :=
  ("NESTLOOPPARAM",
   [INT_FIELD "paramno"; NODE_FIELD "paramval"]).

Definition outPlanRowMark : string * list field :=
  ("PLANROWMARK",
   [UINT_FIELD "rti"; UINT_FIELD "prti"; UINT_FIELD "rowmarkId"; ENUM_FIELD "markType"; INT_FIELD "allMarkTypes";
   ENUM_FIELD "strength"; ENUM_FIELD "waitPolicy"; BOOL_FIELD "isParent"]).

Definition outPlanInvalItem : string * list field :=
  ("PLANINVALITEM",
   [INT_FIELD "cacheId"; UINT_FIELD "hashValue"]).

Definition outAlternativeSubPlan : string * list field :=
  ("ALTERNATIVESUBPLAN",
   [NODE_FIELD "subplans"]).

(** ** readfuncs.c *)

Definition readNotifyStmt : list field :=
  [STRING_FIELD "conditionname"; STRING_FIELD "payload"].

Definition readDeclareCursorStmt : list field :=
  [STRING_FIELD "portalname"; INT_FIELD "options"; NODE_FIELD "query"].

Definition readWithCheckOption : list field :=
  [ENUM_FIELD "kind"; STRING_FIELD "relname"; STRING_FIELD "polname"; NODE_FIELD "qual"; BOOL_FIELD "cascaded"].

Definition readSortGroupClause : list field :=
  [UINT_FIELD "tleSortGroupRef"; OID_FIELD "eqop"; OID_FIELD "sortop"; BOOL_FIELD "nulls_first";
   BOOL_FIELD "hashable"].

Definition readGroupingSet : list field :=
  [ENUM_FIELD "kind"; NODE_FIELD "content"; LOCATION_FIELD "location"].

Definition readWindowClause : list field :=
  [STRING_FIELD "name"; STRING_FIELD "refname"; NODE_FIELD "partitionClause"; NODE_FIELD "orderClause";
   INT_FIELD "frameOptions"; NODE_FIELD "startOffset"; NODE_FIELD "endOffset"; UINT_FIELD "winref";
   BOOL_FIELD "copiedOrder"].

Definition readRowMarkClause : list field :=
  [UINT_FIELD "rti"; ENUM_FIELD "strength"; ENUM_FIELD "waitPolicy"; BOOL_FIELD "pushedDown"].

Definition readCommonTableExpr : list field :=
  [STRING_FIELD "ctename"; NODE_FIELD "aliascolnames"; NODE_FIELD "ctequery"; LOCATION_FIELD "location";
   BOOL_FIELD "cterecursive"; INT_FIELD "cterefcount"; NODE_FIELD "ctecolnames"; NODE_FIELD "ctecoltypes";
   NODE_FIELD "ctecoltypmods"; NODE_FIELD "ctecolcollations"].

Definition readSetOperationStmt : list field :=
  [ENUM_FIELD "op"; BOOL_FIELD "all"; NODE_FIELD "larg"; NODE_FIELD "rarg"; NODE_FIELD "colTypes";
   NODE_FIELD "colTypmods"; NODE_FIELD "colCollations"; NODE_FIELD "groupClauses"].

Definition readAlias : list field :=
  [STRING_FIELD "aliasname"; NODE_FIELD "colnames"].

Definition readIntoClause : list field :=
  [NODE_FIELD "rel"; NODE_FIELD "colNames"; NODE_FIELD "options"; ENUM_FIELD "onCommit";
   STRING_FIELD "tableSpaceName"; NODE_FIELD "viewQuery"; BOOL_FIELD "skipData"].

Definition readVar : list field :=
  [UINT_FIELD "varno"; INT16_FIELD "varattno"; OID_FIELD "vartype"; INT_FIELD "vartypmod"; OID_FIELD "varcollid";
   UINT_FIELD "varlevelsup"; UINT_FIELD "varnoold"; INT16_FIELD "varoattno"; LOCATION_FIELD "location"].

Definition readParam : list field :=
  [ENUM_FIELD "paramkind"; INT_FIELD "paramid"; OID_FIELD "paramtype"; INT_FIELD "paramtypmod";
   OID_FIELD "paramcollid"; LOCATION_FIELD "location"].

Definition readAggref : list field :=
  [OID_FIELD "aggfnoid"; OID_FIELD "aggtype"; OID_FIELD "aggoutputtype"; OID_FIELD "aggcollid";
   OID_FIELD "inputcollid"; OID_FIELD "aggtranstype"; NODE_FIELD "aggargtypes"; NODE_FIELD "aggdirectargs";
   NODE_FIELD "args"; NODE_FIELD "aggorder"; NODE_FIELD "aggdistinct"; NODE_FIELD "aggfilter";
   BOOL_FIELD "aggstar"; BOOL_FIELD "aggvariadic"; BOOL_FIELD "aggcombine"; BOOL_FIELD "aggpartial";
   CHAR_FIELD "aggkind"; UINT_FIELD "agglevelsup"; LOCATION_FIELD "location"].

Definition readGroupingFunc : list field :=
  [NODE_FIELD "args"; NODE_FIELD "refs"; NODE_FIELD "cols"; UINT_FIELD "agglevelsup"; LOCATION_FIELD "location"].

Definition readWindowFunc : list field :=
  [OID_FIELD "winfnoid"; OID_FIELD "wintype"; OID_FIELD "wincollid"; OID_FIELD "inputcollid"; NODE_FIELD "args";
   NODE_FIELD "aggfilter"; UINT_FIELD "winref"; BOOL_FIELD "winstar"; BOOL_FIELD "winagg";
   LOCATION_FIELD "location"].

Definition readArrayRef : list field :=
  [OID_FIELD "refarraytype"; OID_FIELD "refelemtype"; INT_FIELD "reftypmod"; OID_FIELD "refcollid";
   NODE_FIELD "refupperindexpr"; NODE_FIELD "reflowerindexpr"; NODE_FIELD "refexpr"; NODE_FIELD "refassgnexpr"].

Definition readFuncExpr : list field :=
  [OID_FIELD "funcid"; OID_FIELD "funcresulttype"; BOOL_FIELD "funcretset"; BOOL_FIELD "funcvariadic";
   ENUM_FIELD "funcformat"; OID_FIELD "funccollid"; OID_FIELD "inputcollid"; NODE_FIELD "args";
   LOCATION_FIELD "location"].

Definition readNamedArgExpr : list field :=
  [NODE_FIELD "arg"; STRING_FIELD "name"; INT_FIELD "argnumber"; LOCATION_FIELD "location"].

Definition readOpExpr : list field :=
  [OID_FIELD "opno"; OID_FIELD "opfuncid"; OID_FIELD "opresulttype"; BOOL_FIELD "opretset"; OID_FIELD "opcollid";
   OID_FIELD "inputcollid"; NODE_FIELD "args"; LOCATION_FIELD "location"].

Definition readDistinctExpr : list field :=
  [OID_FIELD "opno"; OID_FIELD "opfuncid"; OID_FIELD "opresulttype"; BOOL_FIELD "opretset"; OID_FIELD "opcollid";
   OID_FIELD "inputcollid"; NODE_FIELD "args"; LOCATION_FIELD "location"].

Definition readNullIfExpr : list field :=
  [OID_FIELD "opno"; OID_FIELD "opfuncid"; OID_FIELD "opresulttype"; BOOL_FIELD "opretset"; OID_FIELD "opcollid";
   OID_FIELD "inputcollid"; NODE_FIELD "args"; LOCATION_FIELD "location"].

Definition readScalarArrayOpExpr : list field :=
  [OID_FIELD "opno"; OID_FIELD "opfuncid"; BOOL_FIELD "useOr"; OID_FIELD "inputcollid"; NODE_FIELD "args";
   LOCATION_FIELD "location"].

Definition readSubLink : list field :=
  [ENUM_FIELD "subLinkType"; INT_FIELD "subLinkId"; NODE_FIELD "testexpr"; NODE_FIELD "operName";
   NODE_FIELD "subselect"; LOCATION_FIELD "location"].

Definition readFieldSelect : list field :=
  [NODE_FIELD "arg"; INT16_FIELD "fieldnum"; OID_FIELD "resulttype"; INT_FIELD "resulttypmod";
   OID_FIELD "resultcollid"].

Definition readFieldStore : list field :=
  [NODE_FIELD "arg"; NODE_FIELD "newvals"; NODE_FIELD "fieldnums"; OID_FIELD "resulttype"].

Definition readRelabelType : list field :=
  [NODE_FIELD "arg"; OID_FIELD "resulttype"; INT_FIELD "resulttypmod"; OID_FIELD "resultcollid";
   ENUM_FIELD "relabelformat"; LOCATION_FIELD "location"].

Definition readCoerceViaIO : list field :=
  [NODE_FIELD "arg"; OID_FIELD "resulttype"; OID_FIELD "resultcollid"; ENUM_FIELD "coerceformat";
   LOCATION_FIELD "location"].

Definition readArrayCoerceExpr : list field :=
  [NODE_FIELD "arg"; OID_FIELD "elemfuncid"; OID_FIELD "resulttype"; INT_FIELD "resulttypmod";
   OID_FIELD "resultcollid"; BOOL_FIELD "isExplicit"; ENUM_FIELD "coerceformat"; LOCATION_FIELD "location"].

Definition readConvertRowtypeExpr : list field :=
  [NODE_FIELD "arg"; OID_FIELD "resulttype"; ENUM_FIELD "convertformat"; LOCATION_FIELD "location"].

Definition readCollateExpr : list field :=
  [NODE_FIELD "arg"; OID_FIELD "collOid"; LOCATION_FIELD "location"].

Definition readCaseExpr : list field :=
  [OID_FIELD "casetype"; OID_FIELD "casecollid"; NODE_FIELD "arg"; NODE_FIELD "args"; NODE_FIELD "defresult";
   LOCATION_FIELD "location"].

Definition readCaseWhen : list field :=
  [NODE_FIELD "expr"; NODE_FIELD "result"; LOCATION_FIELD "location"].

Definition readCaseTestExpr : list field :=
  [OID_FIELD "typeId"; INT_FIELD "typeMod"; OID_FIELD "collation"].

Definition readArrayExpr : list field :=
  [OID_FIELD "array_typeid"; OID_FIELD "array_collid"; OID_FIELD "element_typeid"; NODE_FIELD "elements";
   BOOL_FIELD "multidims"; LOCATION_FIELD "location"].

Definition readRowExpr : list field :=
  [NODE_FIELD "args"; OID_FIELD "row_typeid"; ENUM_FIELD "row_format"; NODE_FIELD "colnames";
   LOCATION_FIELD "location"].

Definition readRowCompareExpr : list field :=
  [ENUM_FIELD "rctype"; NODE_FIELD "opnos"; NODE_FIELD "opfamilies"; NODE_FIELD "inputcollids";
   NODE_FIELD "largs"; NODE_FIELD "rargs"].

Definition readCoalesceExpr : list field :=
  [OID_FIELD "coalescetype"; OID_FIELD "coalescecollid"; NODE_FIELD "args"; LOCATION_FIELD "location"].

Definition readMinMaxExpr : list field :=
  [OID_FIELD "minmaxtype"; OID_FIELD "minmaxcollid"; OID_FIELD "inputcollid"; ENUM_FIELD "op"; NODE_FIELD "args";
   LOCATION_FIELD "location"].

Definition readXmlExpr : list field :=
  [ENUM_FIELD "op"; STRING_FIELD "name"; NODE_FIELD "named_args"; NODE_FIELD "arg_names"; NODE_FIELD "args";
   ENUM_FIELD "xmloption"; OID_FIELD "type"; INT_FIELD "typmod"; LOCATION_FIELD "location"].

Definition readNullTest : list field :=
  [NODE_FIELD "arg"; ENUM_FIELD "nulltesttype"; BOOL_FIELD "argisrow"; LOCATION_FIELD "location"].

Definition readBooleanTest : list field :=
  [NODE_FIELD "arg"; ENUM_FIELD "booltesttype"; LOCATION_FIELD "location"].

Definition readCoerceToDomain : list field :=
  [NODE_FIELD "arg"; OID_FIELD "resulttype"; INT_FIELD "resulttypmod"; OID_FIELD "resultcollid";
   ENUM_FIELD "coercionformat"; LOCATION_FIELD "location"].

Definition readCoerceToDomainValue : list field :=
  [OID_FIELD "typeId"; INT_FIELD "typeMod"; OID_FIELD "collation"; LOCATION_FIELD "location"].

Definition readSetToDefault : list field :=
  [OID_FIELD "typeId"; INT_FIELD "typeMod"; OID_FIELD "collation"; LOCATION_FIELD "location"].

Definition readCurrentOfExpr : list field :=
  [UINT_FIELD "cvarno"; STRING_FIELD "cursor_name"; INT_FIELD "cursor_param"].

Definition readInferenceElem : list field :=
  [NODE_FIELD "expr"; OID_FIELD "infercollid"; OID_FIELD "inferopclass"].

Definition readTargetEntry : list field :=
  [NODE_FIELD "expr"; INT16_FIELD "resno"; STRING_FIELD "resname"; UINT_FIELD "ressortgroupref";
   OID_FIELD "resorigtbl"; INT16_FIELD "resorigcol"; BOOL_FIELD "resjunk"].

Definition readRangeTblRef : list field :=
  [INT_FIELD "rtindex"].

Definition readJoinExpr : list field :=
  [ENUM_FIELD "jointype"; BOOL_FIELD "isNatural"; NODE_FIELD "larg"; NODE_FIELD "rarg"; NODE_FIELD "usingClause";
   NODE_FIELD "quals"; NODE_FIELD "alias"; INT_FIELD "rtindex"].

Definition readFromExpr : list field :=
  [NODE_FIELD "fromlist"; NODE_FIELD "quals"].

Definition readOnConflictExpr : list field :=
  [ENUM_FIELD "action"; NODE_FIELD "arbiterElems"; NODE_FIELD "arbiterWhere"; OID_FIELD "constraint";
   NODE_FIELD "onConflictSet"; NODE_FIELD "onConflictWhere"; INT_FIELD "exclRelIndex"; NODE_FIELD "exclRelTlist"].

Definition readRangeTblFunction : list field :=
  [NODE_FIELD "funcexpr"; INT_FIELD "funccolcount"; NODE_FIELD "funccolnames"; NODE_FIELD "funccoltypes";
   NODE_FIELD "funccoltypmods"; NODE_FIELD "funccolcollations"; BITMAPSET_FIELD "funcparams"].

Definition readTableSampleClause : list field :=
  [OID_FIELD "tsmhandler"; NODE_FIELD "args"; NODE_FIELD "repeatable"].

Definition readDefElem : list field :=
  [STRING_FIELD "defnamespace"; STRING_FIELD "defname"; NODE_FIELD "arg"; ENUM_FIELD "defaction"].

Definition readPlannedStmt : list field :=
  [ENUM_FIELD "commandType"; UINT_FIELD "queryId"; BOOL_FIELD "hasReturning"; BOOL_FIELD "hasModifyingCTE";
   BOOL_FIELD "canSetTag"; BOOL_FIELD "transientPlan"; NODE_FIELD "planTree"; NODE_FIELD "rtable";
   NODE_FIELD "resultRelations"; NODE_FIELD "utilityStmt"; NODE_FIELD "subplans";
   BITMAPSET_FIELD "rewindPlanIDs"; NODE_FIELD "rowMarks"; NODE_FIELD "relationOids"; NODE_FIELD "invalItems";
   INT_FIELD "nParamExec"; BOOL_FIELD "hasRowSecurity"; BOOL_FIELD "parallelModeNeeded";
   BOOL_FIELD "hasForeignJoin"].

Definition readNestLoopParam : list field :=
  [INT_FIELD "paramno"; NODE_FIELD "paramval"].

Definition readPlanRowMark : list field :=
  [UINT_FIELD "rti"; UINT_FIELD "prti"; UINT_FIELD "rowmarkId"; ENUM_FIELD "markType"; INT_FIELD "allMarkTypes";
   ENUM_FIELD "strength"; ENUM_FIELD "waitPolicy"; BOOL_FIELD "isParent"].

Definition readPlanInvalItem : list field :=
  [INT_FIELD "cacheId"; UINT_FIELD "hashValue"].

Definition readAlternativeSubPlan : list field :=
  [NODE_FIELD "subplans"].
