(* ===== verification/NodeOut.v ===== *)
(** outfuncs.c: the textual form of a tree of nodes.

    The output functions append to a StringInfo, which is the state here.  The functions
    for single node types are given the struct and, for its node fields, the function that
    writes the node in a field. *)

From S2P Require Import Prelude NodeText NodeTree NodeSchema Bitmapset BitIter.

#[local] Open Scope string_scope.
#[local] Open Scope Z_scope.

(** [appendStringInfo] and its variants. *)
Definition append_text (t : text) : M text () := modify (λ str, str ++ t)%list.
Definition append (s : string) : M text () := append_text (lit_text s).
Definition append_char (c : ascii) : M text () := append_text [c].

(** ** Values, lists, sets and data *)

Definition outInt (z : Z) : M text () := append_text (print_int z).
Definition outUint (z : Z) : M text () := append_text (print_unsigned z).

(** The Value nodes. *)
Definition outValue (t : tree) : M text () :=
  match t with
  | TInteger ival => outInt ival
  | TFloat str | TBitString str => append_text str
  | TString str =>
      append_char quote;;;
      match str with [] => ret () | _ => append_text (outToken (Some str)) end;;;
      append_char quote
  | _ => fail EElog
  end.

Fixpoint out_each {A} (out : A → M text ()) (l : list A) : M text () :=
  match l with
  | [] => ret ()
  | x :: l => out x;;; out_each out l
  end.

(** The three kinds of lists; [out_nodes] writes the elements of a list of nodes. *)
Definition outList (out_nodes : M text ()) (t : tree) : M text () :=
  append "(";;;
  match t with
  | TIntList l => append "i";;; out_each (λ z, append " ";;; outInt z) l
  | TOidList l => append "o";;; out_each (λ z, append " ";;; outUint z) l
  | _ => out_nodes
  end;;;
  append ")".

Definition outBitmapset (bms : option Bitmapset) : M text () :=
  append "(";;;
  append "b";;;
  l <- of_res (next_loop (S (32 * length (default [] bms))) bms (-1));;
  out_each (λ x, append " ";;; outInt x) l;;;
  append ")".

(** A byte of memory; reading beyond the bytes of the object is an error of the model. *)
Definition byte_at (s : list Z) (i : nat) : res Z :=
  match s !! i with Some b => Ok (b mod 256) | None => Err EDangling end.

(** sizeof of varatt_indirect, varatt_expanded and varatt_external after the tag. *)
Definition VARTAG_SIZE (tag : Z) : res Z :=
  if tag =? 1 then Ok 8
  else if Z.land tag (Z.lnot 1) =? 2 then Ok 8
  else if tag =? 18 then Ok 16
  else Err EAssert.

(** The length of a varlena from its header, on a little-endian machine. *)
Definition VARSIZE_ANY (s : list Z) : res Z :=
  match byte_at s 0 with
  | Err e => Err e
  | Ok b0 =>
      if b0 =? 1 then
        match byte_at s 1 with
        | Err e => Err e
        | Ok tag => match VARTAG_SIZE tag with Ok size => Ok (2 + size) | Err e => Err e end
        end
      else if Z.land b0 1 =? 1 then Ok (Z.land (Z.shiftr b0 1) 127)
      else
        match byte_at s 1, byte_at s 2, byte_at s 3 with
        | Ok b1, Ok b2, Ok b3 => Ok (Z.land (Z.shiftr (b0 + 2 ^ 8 * b1 + 2 ^ 16 * b2 + 2 ^ 24 * b3) 2) (2 ^ 30 - 1))
        | _, _, _ => Err EDangling
        end
  end.

Fixpoint strlen (s : list Z) : res Z :=
  match s with
  | [] => Err EDangling
  | b :: s => if b =? 0 then Ok 0 else match strlen s with Ok n => Ok (n + 1) | Err e => Err e end
  end.

(** The number of bytes of a value, in a build without assertions. *)
Definition datumGetSize (value : datum) (typByVal : bool) (typLen : Z) : res Z :=
  match typByVal, value with
  | true, ByValue _ => Ok typLen
  | false, ByReference s =>
      if 0 <? typLen then Ok typLen
      else if typLen =? -1 then match s with None => Err EElog | Some s => VARSIZE_ANY s end
      else if typLen =? -2 then
        match s with None => Err EElog | Some s => match strlen s with Ok n => Ok (n + 1) | Err e => Err e end end
      else Err EElog
  | _, _ => Err EBadCast
  end.

Definition outDatum (value : datum) (typlen : Z) (typbyval : bool) : M text () :=
  length <- of_res (datumGetSize value typbyval typlen);;
  match value with
  | ByReference None => append "0 [ ]"
  | ByValue bytes =>
      outUint (to_uint length);;;
      append " [ ";;;
      out_each (λ b, outInt b;;; append " ") bytes;;;
      append "]"
  | ByReference (Some s) =>
      outUint (to_uint length);;;
      append " [ ";;;
      (if Z.of_nat (List.length s) <? length then fail EDangling
       else out_each (λ b, outInt b;;; append " ") (take (Z.to_nat length) s));;;
      append "]"
  end.

(** ** Structs *)

Section Struct.
Context (n : fields) (outChild : string → M text ()).

Definition booltostr (b : bool) : string := if b then "true" else "false".

(** The WRITE_..._FIELD macros. *)
Definition write_field (fl : field) : M text () :=
  append " :";;; append (field_name fl);;; append " ";;;
  match fl with
  | INT_FIELD f | INT16_FIELD f | ENUM_FIELD f | LOCATION_FIELD f => outInt (int_of f n)
  | UINT_FIELD f | OID_FIELD f => outUint (int_of f n)
  | CHAR_FIELD f => append_char (ascii_of_N (Z.to_N (int_of f n)))
  | BOOL_FIELD f => append (booltostr (bool_of f n))
  | STRING_FIELD f => append_text (outToken (string_of f n))
  | NODE_FIELD f => outChild f
  | BITMAPSET_FIELD f => outBitmapset (bitmapset_of f n)
  end.

Definition write_fields (l : list field) : M text () := out_each write_field l.

(** A function that consists of the macros only. *)
Definition write_node (o : string * list field) : M text () :=
  append o.1;;; write_fields o.2.

Definition outQuery : M text () :=
  append "QUERY";;;
  write_fields [ENUM_FIELD "commandType"; ENUM_FIELD "querySource"; BOOL_FIELD "canSetTag"];;;
  match node_of "utilityStmt" n with
  | NULL_ptr => append " :utilityStmt <>"
  | Struct T_NotifyStmt _ | Struct T_DeclareCursorStmt _ => write_fields [NODE_FIELD "utilityStmt"]
  | _ => append " :utilityStmt ?"
  end;;;
  write_fields
    [INT_FIELD "resultRelation"; BOOL_FIELD "hasAggs"; BOOL_FIELD "hasWindowFuncs"; BOOL_FIELD "hasSubLinks";
     BOOL_FIELD "hasDistinctOn"; BOOL_FIELD "hasRecursive"; BOOL_FIELD "hasModifyingCTE"; BOOL_FIELD "hasForUpdate";
     BOOL_FIELD "hasRowSecurity"; NODE_FIELD "cteList"; NODE_FIELD "rtable"; NODE_FIELD "jointree";
     NODE_FIELD "targetList"; NODE_FIELD "onConflict"; NODE_FIELD "returningList"; NODE_FIELD "groupClause";
     NODE_FIELD "groupingSets"; NODE_FIELD "havingQual"; NODE_FIELD "windowClause"; NODE_FIELD "distinctClause";
     NODE_FIELD "sortClause"; NODE_FIELD "limitOffset"; NODE_FIELD "limitCount"; NODE_FIELD "rowMarks";
     NODE_FIELD "setOperations"; NODE_FIELD "constraintDeps"].

(** The field catalogname is not written. *)
Definition outRangeVar : string * list field :=
  ("RANGEVAR",
   [STRING_FIELD "schemaname"; STRING_FIELD "relname"; ENUM_FIELD "inhOpt"; CHAR_FIELD "relpersistence";
    NODE_FIELD "alias"; LOCATION_FIELD "location"]).

Definition outConst : M text () :=
  write_node ("CONST",
    [OID_FIELD "consttype"; INT_FIELD "consttypmod"; OID_FIELD "constcollid"; INT_FIELD "constlen";
     BOOL_FIELD "constbyval"; BOOL_FIELD "constisnull"; LOCATION_FIELD "location"]);;;
  append " :constvalue ";;;
  if bool_of "constisnull" n then append "<>"
  else outDatum (datum_of "constvalue" n) (int_of "constlen" n) (bool_of "constbyval" n).

(** The codes of BoolExprType. *)
Definition boolop_str (op : Z) : option string :=
  if op =? 0 then Some "and" else if op =? 1 then Some "or" else if op =? 2 then Some "not" else None.

Definition outBoolExpr : M text () :=
  append "BOOLEXPR";;;
  append " :boolop ";;;
  append_text (outToken (lit_text <$> boolop_str (int_of "boolop" n)));;;
  write_fields [NODE_FIELD "args"; LOCATION_FIELD "location"].

(** The codes of RTEKind and the fields of each kind. *)
Definition outRangeTblEntry_kind (rtekind : Z) : option (list field) :=
  match rtekind with
  | 0 => Some [OID_FIELD "relid"; CHAR_FIELD "relkind"; NODE_FIELD "tablesample"]
  | 1 => Some [NODE_FIELD "subquery"; BOOL_FIELD "security_barrier"]
  | 2 => Some [ENUM_FIELD "jointype"; NODE_FIELD "joinaliasvars"]
  | 3 => Some [NODE_FIELD "functions"; BOOL_FIELD "funcordinality"]
  | 4 => Some [NODE_FIELD "values_lists"; NODE_FIELD "values_collations"]
  | 5 => Some [STRING_FIELD "ctename"; UINT_FIELD "ctelevelsup"; BOOL_FIELD "self_reference";
               NODE_FIELD "ctecoltypes"; NODE_FIELD "ctecoltypmods"; NODE_FIELD "ctecolcollations"]
  | _ => None
  end.

Definition outRangeTblEntry : M text () :=
  write_node ("RTE", [NODE_FIELD "alias"; NODE_FIELD "eref"; ENUM_FIELD "rtekind"]);;;
  match outRangeTblEntry_kind (int_of "rtekind" n) with
  | Some l => write_fields l
  | None => fail EElog
  end;;;
  write_fields
    [BOOL_FIELD "lateral"; BOOL_FIELD "inh"; BOOL_FIELD "inFromCl"; UINT_FIELD "requiredPerms";
     OID_FIELD "checkAsUser"; BITMAPSET_FIELD "selectedCols"; BITMAPSET_FIELD "insertedCols";
     BITMAPSET_FIELD "updatedCols"; NODE_FIELD "securityQuals"].

(** The switch of outNode. *)
Definition outFunction (tag : NodeTag) : node_function (string * list field) (M text ()) :=
  match tag with
  | T_Query => Code outQuery
  | T_WithCheckOption => Macros outWithCheckOption
  | T_SortGroupClause => Macros outSortGroupClause
  | T_GroupingSet => Macros outGroupingSet
  | T_WindowClause => Macros outWindowClause
  | T_RowMarkClause => Macros outRowMarkClause
  | T_CommonTableExpr => Macros outCommonTableExpr
  | T_SetOperationStmt => Macros outSetOperationStmt
  | T_Alias => Macros outAlias
  | T_RangeVar => Macros outRangeVar
  | T_IntoClause => Macros outIntoClause
  | T_Var => Macros outVar
  | T_Const => Code outConst
  | T_Param => Macros outParam
  | T_Aggref => Macros outAggref
  | T_GroupingFunc => Macros outGroupingFunc
  | T_WindowFunc => Macros outWindowFunc
  | T_ArrayRef => Macros outArrayRef
  | T_FuncExpr => Macros outFuncExpr
  | T_NamedArgExpr => Macros outNamedArgExpr
  | T_OpExpr => Macros outOpExpr
  | T_DistinctExpr => Macros outDistinctExpr
  | T_NullIfExpr => Macros outNullIfExpr
  | T_ScalarArrayOpExpr => Macros outScalarArrayOpExpr
  | T_BoolExpr => Code outBoolExpr
  | T_SubLink => Macros outSubLink
  | T_FieldSelect => Macros outFieldSelect
  | T_FieldStore => Macros outFieldStore
  | T_RelabelType => Macros outRelabelType
  | T_CoerceViaIO => Macros outCoerceViaIO
  | T_ArrayCoerceExpr => Macros outArrayCoerceExpr
  | T_ConvertRowtypeExpr => Macros outConvertRowtypeExpr
  | T_CollateExpr => Macros outCollateExpr
  | T_CaseExpr => Macros outCaseExpr
  | T_CaseWhen => Macros outCaseWhen
  | T_CaseTestExpr => Macros outCaseTestExpr
  | T_ArrayExpr => Macros outArrayExpr
  | T_RowExpr => Macros outRowExpr
  | T_RowCompareExpr => Macros outRowCompareExpr
  | T_CoalesceExpr => Macros outCoalesceExpr
  | T_MinMaxExpr => Macros outMinMaxExpr
  | T_XmlExpr => Macros outXmlExpr
  | T_NullTest => Macros outNullTest
  | T_BooleanTest => Macros outBooleanTest
  | T_CoerceToDomain => Macros outCoerceToDomain
  | T_CoerceToDomainValue => Macros outCoerceToDomainValue
  | T_SetToDefault => Macros outSetToDefault
  | T_CurrentOfExpr => Macros outCurrentOfExpr
  | T_InferenceElem => Macros outInferenceElem
  | T_TargetEntry => Macros outTargetEntry
  | T_RangeTblRef => Macros outRangeTblRef
  | T_JoinExpr => Macros outJoinExpr
  | T_FromExpr => Macros outFromExpr
  | T_OnConflictExpr => Macros outOnConflictExpr
  | T_RangeTblEntry => Code outRangeTblEntry
  | T_RangeTblFunction => Macros outRangeTblFunction
  | T_TableSampleClause => Macros outTableSampleClause
  | T_NotifyStmt => Macros outNotifyStmt
  | T_DefElem => Macros outDefElem
  | T_DeclareCursorStmt => Macros outDeclareCursorStmt
  | T_PlannedStmt => Macros outPlannedStmt
  | T_NestLoopParam => Macros outNestLoopParam
  | T_PlanRowMark => Macros outPlanRowMark
  | T_PlanInvalItem => Macros outPlanInvalItem
  | T_AlternativeSubPlan => Macros outAlternativeSubPlan
  end.

Definition outStruct (tag : NodeTag) : M text () :=
  match outFunction tag with
  | Macros o => write_node o
  | Code out => out
  end.
End Struct.

(** ** outNode *)

Fixpoint outNode (obj : tree) : M text () :=
  match obj with
  | NULL_ptr => append "<>"
  | TList l =>
      outList ((fix out_nodes (l : list tree) : M text () :=
                  match l with
                  | [] => ret ()
                  | x :: l' =>
                      outNode x;;;
                      match l' with [] => ret () | _ => append " " end;;;
                      out_nodes l'
                  end) l) obj
  | TIntList _ | TOidList _ => outList (ret ()) obj
  | TInteger _ | TFloat _ | TString _ | TBitString _ => outValue obj
  | Struct tag n =>
      let written := map (λ '(f, v), (f, match v with VNode t => outNode t | _ => append "<>" end)) n in
      append "{";;;
      outStruct n (λ f, default (append "<>") (lookup_field f written)) tag;;;
      append "}"
  end.

Definition nodeToString (obj : tree) : res text :=
  match outNode obj [] with
  | Ok (_, str) => Ok str
  | Err e => Err e
  end.
