(* ===== verification/NodeRead.v ===== *)
(** read.c and readfuncs.c: from the textual form back to a tree of nodes.

    The input functions take tokens from the string that [pg_strtok] reads, which is the
    state here.  The functions for single node types are given the function that reads a
    node, [nodeRead (NULL, 0)].  Fuel bounds the loops and the nesting of nodeRead;
    [NodeTotal] shows that a number larger than the length of the string is enough. *)

From S2P Require Import Prelude NodeText NodeTree NodeSchema Bitmapset.

#[local] Open Scope string_scope.
#[local] Open Scope Z_scope.

(** ** Sets and data *)

Definition is_char (t : token) (c : ascii) : bool := Ascii.eqb (first_char t) c.

Definition is_one_char (t : token) (c : ascii) : bool := Nat.eqb (tok_len t) 1 && is_char t c.

(** The number that is a whole token, or an error. *)
Definition whole_int (t : token) : res Z :=
  let '(v, _, n) := strtol (tok_text t) in if Nat.eqb n (tok_len t) then Ok (to_int v) else Err EElog.

Definition whole_oid (t : token) : res Z :=
  let '(v, n) := strtoul (tok_text t) in if Nat.eqb n (tok_len t) then Ok (to_uint v) else Err EElog.

Fixpoint readBitmapset_loop (fuel : nat) (result : option Bitmapset) : M text (option Bitmapset) :=
  match fuel with
  | O => fail EFuel
  | S fuel =>
      token <- strtok_or_elog;;
      if is_one_char token ")" then ret result
      else
        val <- of_res (whole_int token);;
        result <- of_res (bms_add_member result val);;
        readBitmapset_loop fuel result
  end.

Definition readBitmapset (fuel : nat) : M text (option Bitmapset) :=
  token <- strtok_or_elog;;
  if negb (is_one_char token "(") then fail EElog
  else
    token <- strtok_or_elog;;
    if negb (is_one_char token "b") then fail EElog
    else readBitmapset_loop fuel None.

(** The loop over the bytes of a value; an assignment to a char. *)
Fixpoint read_bytes (n : nat) : M text (list Z) :=
  match n with
  | O => ret []
  | S n =>
      token <- strtok_deref;;
      r <- read_bytes n;;
      ret (to_signed 8 (atoi (tok_text token)) :: r)
  end.

Definition expect (c : ascii) : M text () :=
  token <- strtok_or_elog;;
  if is_char token c then ret () else fail EElog.

Definition sizeof_Datum : Z := 8.

Definition readDatum (typbyval : bool) : M text datum :=
  token <- strtok_deref;;
  let length := atoui (tok_text token) in
  expect "[";;;
  res <- (if typbyval then
            if sizeof_Datum <? length then fail EElog
            else bytes <- read_bytes (Z.to_nat sizeof_Datum);; ret (ByValue bytes)
          else if length <=? 0 then ret (ByReference None)
          else bytes <- read_bytes (Z.to_nat length);; ret (ByReference (Some bytes)));;
  expect "]";;;
  ret res.

(** ** Structs *)

Section Struct.
Context (fuel : nat) (nodeRead : M text tree).

Definition strtobool (t : token) : bool := is_char t "t".

Definition nullable_string (t : token) : option text :=
  if Nat.eqb (tok_len t) 0 then None else Some (debackslash (tok_chars t)).

(** The value of a READ_..._FIELD, after the name of the field is skipped. *)
Definition read_value (fl : field) : M text fval :=
  match fl with
  | INT_FIELD _ | ENUM_FIELD _ => token <- strtok_deref;; ret (VInt (atoi (tok_text token)))
  | INT16_FIELD _ => token <- strtok_deref;; ret (VInt (to_signed 16 (atoi (tok_text token))))
  | UINT_FIELD _ => token <- strtok_deref;; ret (VInt (atoui (tok_text token)))
  | OID_FIELD _ => token <- strtok_deref;; ret (VInt (atooid (tok_text token)))
  | CHAR_FIELD _ => token <- strtok_deref;; ret (VInt (code (first_char token)))
  | BOOL_FIELD _ => token <- strtok_deref;; ret (VBool (strtobool token))
  | STRING_FIELD _ =>
      token <- pg_strtok;;
      ret (VString (match token with Some t => nullable_string t | None => None end))
  | LOCATION_FIELD _ => pg_strtok;;; ret (VInt (-1))
  | NODE_FIELD _ => t <- nodeRead;; ret (VNode t)
  | BITMAPSET_FIELD _ => a <- readBitmapset fuel;; ret (VBitmapset a)
  end.

(** The READ_..._FIELD macros. *)
Definition read_field (fl : field) (local_node : fields) : M text fields :=
  pg_strtok;;;
  v <- read_value fl;;
  ret (set_field (field_name fl) v local_node).

Fixpoint read_fields (l : list field) (local_node : fields) : M text fields :=
  match l with
  | [] => ret local_node
  | fl :: l => local_node <- read_field fl local_node;; read_fields l local_node
  end.

(** A function that consists of the macros only. *)
Definition read_node (tag : NodeTag) (l : list field) : M text tree :=
  local_node <- read_fields l makeNode;; ret (Struct tag local_node).

Definition readQuery : list field :=
    [ENUM_FIELD "commandType"; ENUM_FIELD "querySource"; BOOL_FIELD "canSetTag"; NODE_FIELD "utilityStmt";
     INT_FIELD "resultRelation"; BOOL_FIELD "hasAggs"; BOOL_FIELD "hasWindowFuncs"; BOOL_FIELD "hasSubLinks";
     BOOL_FIELD "hasDistinctOn"; BOOL_FIELD "hasRecursive"; BOOL_FIELD "hasModifyingCTE"; BOOL_FIELD "hasForUpdate";
     BOOL_FIELD "hasRowSecurity"; NODE_FIELD "cteList"; NODE_FIELD "rtable"; NODE_FIELD "jointree";
     NODE_FIELD "targetList"; NODE_FIELD "onConflict"; NODE_FIELD "returningList"; NODE_FIELD "groupClause";
     NODE_FIELD "groupingSets"; NODE_FIELD "havingQual"; NODE_FIELD "windowClause"; NODE_FIELD "distinctClause";
     NODE_FIELD "sortClause"; NODE_FIELD "limitOffset"; NODE_FIELD "limitCount"; NODE_FIELD "rowMarks";
     NODE_FIELD "setOperations"; NODE_FIELD "constraintDeps"].

Definition readRangeVar : list field :=
  [STRING_FIELD "schemaname"; STRING_FIELD "relname"; ENUM_FIELD "inhOpt"; CHAR_FIELD "relpersistence";
   NODE_FIELD "alias"; LOCATION_FIELD "location"].

Definition readConst : M text tree :=
  local_node <- read_fields
    [OID_FIELD "consttype"; INT_FIELD "consttypmod"; OID_FIELD "constcollid"; INT_FIELD "constlen";
     BOOL_FIELD "constbyval"; BOOL_FIELD "constisnull"; LOCATION_FIELD "location"] makeNode;;
  pg_strtok;;;
  if bool_of "constisnull" local_node then pg_strtok;;; ret (Struct T_Const local_node)
  else
    d <- readDatum (bool_of "constbyval" local_node);;
    ret (Struct T_Const (set_field "constvalue" (VDatum d) local_node)).

(** [strncmp(token, s, strlen(s)) == 0]. *)
Definition starts_with (t : token) (s : string) : bool :=
  bool_decide (take (String.length s) (tok_text t) = lit_text s).

Definition read_boolop (t : token) : res Z :=
  if starts_with t "and" then Ok 0
  else if starts_with t "or" then Ok 1
  else if starts_with t "not" then Ok 2
  else Err EElog.

Definition readBoolExpr : M text tree :=
  pg_strtok;;;
  token <- strtok_deref;;
  boolop <- of_res (read_boolop token);;
  local_node <- read_fields [NODE_FIELD "args"; LOCATION_FIELD "location"]
                  (set_field "boolop" (VInt boolop) makeNode);;
  ret (Struct T_BoolExpr local_node).

Definition readRangeTblEntry_kind (rtekind : Z) : option (list field) :=
  match rtekind with
  | 0 => Some [OID_FIELD "relid"; CHAR_FIELD "relkind"; NODE_FIELD "tablesample"]
  | 1 => Some [NODE_FIELD "subquery"; BOOL_FIELD "security_barrier"]
  | 2 => Some [ENUM_FIELD "jointype"; NODE_FIELD "joinaliasvars"]
  | 3 => Some [NODE_FIELD "functions"; BOOL_FIELD "funcordinality"]
  | 4 => Some [NODE_FIELD "values_lists"; NODE_FIELD "values_collations"]
  | 5 => Some [STRING_FIELD "ctename"; UINT_FIELD "ctelevelsup"; BOOL_FIELD "self_reference";
               NODE_FIELD "ctecoltypes"; NODE_FIELD "ctecoltypmods"; NODE_FIELD "ctecolcollations"]
  | _ => None
  end.

Definition readRangeTblEntry : M text tree :=
  local_node <- read_fields [NODE_FIELD "alias"; NODE_FIELD "eref"; ENUM_FIELD "rtekind"] makeNode;;
  local_node <- match readRangeTblEntry_kind (int_of "rtekind" local_node) with
                | Some l => read_fields l local_node
                | None => fail EElog
                end;;
  local_node <- read_fields
    [BOOL_FIELD "lateral"; BOOL_FIELD "inh"; BOOL_FIELD "inFromCl"; UINT_FIELD "requiredPerms";
     OID_FIELD "checkAsUser"; BITMAPSET_FIELD "selectedCols"; BITMAPSET_FIELD "insertedCols";
     BITMAPSET_FIELD "updatedCols"; NODE_FIELD "securityQuals"] local_node;;
  ret (Struct T_RangeTblEntry local_node).

(** The input function of a node type. *)
Definition readFunction (tag : NodeTag) : node_function (list field) (M text tree) :=
  match tag with
  | T_Query => Macros readQuery
  | T_WithCheckOption => Macros readWithCheckOption
  | T_SortGroupClause => Macros readSortGroupClause
  | T_GroupingSet => Macros readGroupingSet
  | T_WindowClause => Macros readWindowClause
  | T_RowMarkClause => Macros readRowMarkClause
  | T_CommonTableExpr => Macros readCommonTableExpr
  | T_SetOperationStmt => Macros readSetOperationStmt
  | T_Alias => Macros readAlias
  | T_RangeVar => Macros readRangeVar
  | T_IntoClause => Macros readIntoClause
  | T_Var => Macros readVar
  | T_Const => Code readConst
  | T_Param => Macros readParam
  | T_Aggref => Macros readAggref
  | T_GroupingFunc => Macros readGroupingFunc
  | T_WindowFunc => Macros readWindowFunc
  | T_ArrayRef => Macros readArrayRef
  | T_FuncExpr => Macros readFuncExpr
  | T_NamedArgExpr => Macros readNamedArgExpr
  | T_OpExpr => Macros readOpExpr
  | T_DistinctExpr => Macros readDistinctExpr
  | T_NullIfExpr => Macros readNullIfExpr
  | T_ScalarArrayOpExpr => Macros readScalarArrayOpExpr
  | T_BoolExpr => Code readBoolExpr
  | T_SubLink => Macros readSubLink
  | T_FieldSelect => Macros readFieldSelect
  | T_FieldStore => Macros readFieldStore
  | T_RelabelType => Macros readRelabelType
  | T_CoerceViaIO => Macros readCoerceViaIO
  | T_ArrayCoerceExpr => Macros readArrayCoerceExpr
  | T_ConvertRowtypeExpr => Macros readConvertRowtypeExpr
  | T_CollateExpr => Macros readCollateExpr
  | T_CaseExpr => Macros readCaseExpr
  | T_CaseWhen => Macros readCaseWhen
  | T_CaseTestExpr => Macros readCaseTestExpr
  | T_ArrayExpr => Macros readArrayExpr
  | T_RowExpr => Macros readRowExpr
  | T_RowCompareExpr => Macros readRowCompareExpr
  | T_CoalesceExpr => Macros readCoalesceExpr
  | T_MinMaxExpr => Macros readMinMaxExpr
  | T_XmlExpr => Macros readXmlExpr
  | T_NullTest => Macros readNullTest
  | T_BooleanTest => Macros readBooleanTest
  | T_CoerceToDomain => Macros readCoerceToDomain
  | T_CoerceToDomainValue => Macros readCoerceToDomainValue
  | T_SetToDefault => Macros readSetToDefault
  | T_CurrentOfExpr => Macros readCurrentOfExpr
  | T_InferenceElem => Macros readInferenceElem
  | T_TargetEntry => Macros readTargetEntry
  | T_RangeTblRef => Macros readRangeTblRef
  | T_JoinExpr => Macros readJoinExpr
  | T_FromExpr => Macros readFromExpr
  | T_OnConflictExpr => Macros readOnConflictExpr
  | T_RangeTblEntry => Code readRangeTblEntry
  | T_RangeTblFunction => Macros readRangeTblFunction
  | T_TableSampleClause => Macros readTableSampleClause
  | T_NotifyStmt => Macros readNotifyStmt
  | T_DefElem => Macros readDefElem
  | T_DeclareCursorStmt => Macros readDeclareCursorStmt
  | T_PlannedStmt => Macros readPlannedStmt
  | T_NestLoopParam => Macros readNestLoopParam
  | T_PlanRowMark => Macros readPlanRowMark
  | T_PlanInvalItem => Macros readPlanInvalItem
  | T_AlternativeSubPlan => Macros readAlternativeSubPlan
  end.

Definition readStruct (tag : NodeTag) : M text tree :=
  match readFunction tag with
  | Macros l => read_node tag l
  | Code read => read
  end.

(** The labels that [parseNodeString] compares with, in its order; the functions for plan
    nodes are not modelled. *)
Definition labels : list (string * option NodeTag) :=
  [("QUERY", Some T_Query); ("WITHCHECKOPTION", Some T_WithCheckOption);
   ("SORTGROUPCLAUSE", Some T_SortGroupClause); ("GROUPINGSET", Some T_GroupingSet);
   ("WINDOWCLAUSE", Some T_WindowClause); ("ROWMARKCLAUSE", Some T_RowMarkClause);
   ("COMMONTABLEEXPR", Some T_CommonTableExpr); ("SETOPERATIONSTMT", Some T_SetOperationStmt);
   ("ALIAS", Some T_Alias); ("RANGEVAR", Some T_RangeVar); ("INTOCLAUSE", Some T_IntoClause); ("VAR", Some T_Var);
   ("CONST", Some T_Const); ("PARAM", Some T_Param); ("AGGREF", Some T_Aggref);
   ("GROUPINGFUNC", Some T_GroupingFunc); ("WINDOWFUNC", Some T_WindowFunc); ("ARRAYREF", Some T_ArrayRef);
   ("FUNCEXPR", Some T_FuncExpr); ("NAMEDARGEXPR", Some T_NamedArgExpr); ("OPEXPR", Some T_OpExpr);
   ("DISTINCTEXPR", Some T_DistinctExpr); ("NULLIFEXPR", Some T_NullIfExpr);
   ("SCALARARRAYOPEXPR", Some T_ScalarArrayOpExpr); ("BOOLEXPR", Some T_BoolExpr); ("SUBLINK", Some T_SubLink);
   ("FIELDSELECT", Some T_FieldSelect); ("FIELDSTORE", Some T_FieldStore); ("RELABELTYPE", Some T_RelabelType);
   ("COERCEVIAIO", Some T_CoerceViaIO); ("ARRAYCOERCEEXPR", Some T_ArrayCoerceExpr);
   ("CONVERTROWTYPEEXPR", Some T_ConvertRowtypeExpr); ("COLLATE", Some T_CollateExpr); ("CASE", Some T_CaseExpr);
   ("WHEN", Some T_CaseWhen); ("CASETESTEXPR", Some T_CaseTestExpr); ("ARRAY", Some T_ArrayExpr);
   ("ROW", Some T_RowExpr); ("ROWCOMPARE", Some T_RowCompareExpr); ("COALESCE", Some T_CoalesceExpr);
   ("MINMAX", Some T_MinMaxExpr); ("XMLEXPR", Some T_XmlExpr); ("NULLTEST", Some T_NullTest);
   ("BOOLEANTEST", Some T_BooleanTest); ("COERCETODOMAIN", Some T_CoerceToDomain);
   ("COERCETODOMAINVALUE", Some T_CoerceToDomainValue); ("SETTODEFAULT", Some T_SetToDefault);
   ("CURRENTOFEXPR", Some T_CurrentOfExpr); ("INFERENCEELEM", Some T_InferenceElem);
   ("TARGETENTRY", Some T_TargetEntry); ("RANGETBLREF", Some T_RangeTblRef); ("JOINEXPR", Some T_JoinExpr);
   ("FROMEXPR", Some T_FromExpr); ("ONCONFLICTEXPR", Some T_OnConflictExpr); ("RTE", Some T_RangeTblEntry);
   ("RANGETBLFUNCTION", Some T_RangeTblFunction); ("TABLESAMPLECLAUSE", Some T_TableSampleClause);
   ("NOTIFY", Some T_NotifyStmt); ("DEFELEM", Some T_DefElem); ("DECLARECURSOR", Some T_DeclareCursorStmt);
   ("PLANNEDSTMT", Some T_PlannedStmt); ("PLAN", None); ("RESULT", None); ("MODIFYTABLE", None); ("APPEND", None);
   ("MERGEAPPEND", None); ("RECURSIVEUNION", None); ("BITMAPAND", None); ("BITMAPOR", None); ("SCAN", None);
   ("SEQSCAN", None); ("SAMPLESCAN", None); ("INDEXSCAN", None); ("INDEXONLYSCAN", None);
   ("BITMAPINDEXSCAN", None); ("BITMAPHEAPSCAN", None); ("TIDSCAN", None); ("SUBQUERYSCAN", None);
   ("FUNCTIONSCAN", None); ("VALUESSCAN", None); ("CTESCAN", None); ("WORKTABLESCAN", None); ("FOREIGNSCAN", None);
   ("CUSTOMSCAN", None); ("JOIN", None); ("NESTLOOP", None); ("MERGEJOIN", None); ("HASHJOIN", None);
   ("MATERIAL", None); ("SORT", None); ("GROUP", None); ("AGG", None); ("WINDOWAGG", None); ("UNIQUE", None);
   ("GATHER", None); ("HASH", None); ("SETOP", None); ("LOCKROWS", None); ("LIMIT", None);
   ("NESTLOOPPARAM", Some T_NestLoopParam); ("PLANROWMARK", Some T_PlanRowMark);
   ("PLANINVALITEM", Some T_PlanInvalItem); ("SUBPLAN", None); ("ALTERNATIVESUBPLAN", Some T_AlternativeSubPlan);
   ("EXTENSIBLENODE", None)].

Definition parseNodeString : M text tree :=
  token <- strtok_or_elog;;
  match lookup_field (String.string_of_list_ascii (tok_chars token)) labels with
  | Some (Some tag) => readStruct tag
  | Some None => fail EUnmodelled
  | None => fail EElog
  end.
End Struct.

(** ** nodeRead *)

Inductive token_type :=
  | T_Integer | T_Float | T_String | T_BitString | RIGHT_PAREN | LEFT_PAREN | LEFT_BRACE | OTHER_TOKEN.

(** The token starts like a number. *)
Definition looks_numeric (t : token) : bool :=
  let c := first_char t in
  let '(num, numlen) := if Ascii.eqb c "+" || Ascii.eqb c "-" then (tail (tok_text t), (tok_len t - 1)%nat)
                        else (tok_text t, tok_len t) in
  match num with
  | c1 :: rest =>
      (Nat.ltb 0 numlen && isdigit c1) ||
      (Nat.ltb 1 numlen && Ascii.eqb c1 "." && match rest with c2 :: _ => isdigit c2 | [] => false end)
  | [] => false
  end.

Definition nodeTokenType (t : token) : token_type :=
  let c := first_char t in
  if looks_numeric t then
    let '(val, erange, n) := strtol (tok_text t) in
    if negb (Nat.eqb n (tok_len t)) || erange || negb (val =? to_int val) then T_Float else T_Integer
  else if Ascii.eqb c "(" then LEFT_PAREN
  else if Ascii.eqb c ")" then RIGHT_PAREN
  else if Ascii.eqb c "{" then LEFT_BRACE
  else if Ascii.eqb c quote && Nat.ltb 1 (tok_len t) &&
          bool_decide (tok_text t !! (tok_len t - 1)%nat = Some quote) then T_String
  else if Ascii.eqb c "b" then T_BitString
  else OTHER_TOKEN.

(** The loops over the elements of a list, up to the closing parenthesis. *)
Fixpoint read_int_list (fuel : nat) (read : token → res Z) (l : list Z) : M text (list Z) :=
  match fuel with
  | O => fail EFuel
  | S fuel =>
      token <- strtok_or_elog;;
      if is_char token ")" then ret l
      else val <- of_res (read token);; read_int_list fuel read (l ++ [val])
  end.

Fixpoint read_node_list (fuel : nat) (nodeRead : token → M text tree) (token : token) (l : list tree)
    : M text (list tree) :=
  match fuel with
  | O => fail EFuel
  | S fuel =>
      if is_char token ")" then ret l
      else
        x <- nodeRead token;;
        token <- strtok_or_elog;;
        read_node_list fuel nodeRead token (l ++ [x])
  end.

(** NIL is the NULL pointer. *)
Definition int_list (l : list Z) : tree := match l with [] => NULL_ptr | _ => TIntList l end.
Definition oid_list (l : list Z) : tree := match l with [] => NULL_ptr | _ => TOidList l end.
Definition node_list (l : list tree) : tree := match l with [] => NULL_ptr | _ => TList l end.

(** [nodeRead (token, tok_len)], from the first call with a token on. *)
Fixpoint nodeRead (fuel : nat) (token : token) : M text tree :=
  match fuel with
  | O => fail EFuel
  | S fuel =>
      let readNext : M text tree :=
        token <- pg_strtok;;
        match token with
        | None => ret NULL_ptr
        | Some token => nodeRead fuel token
        end in
      match nodeTokenType token with
      | LEFT_BRACE =>
          result <- parseNodeString fuel readNext;;
          token <- strtok_or_elog;;
          if is_char token "}" then ret result else fail EElog
      | LEFT_PAREN =>
          token <- strtok_or_elog;;
          if is_one_char token "i" then l <- read_int_list fuel whole_int [];; ret (int_list l)
          else if is_one_char token "o" then l <- read_int_list fuel whole_oid [];; ret (oid_list l)
          else l <- read_node_list fuel (nodeRead fuel) token [];; ret (node_list l)
      | RIGHT_PAREN => fail EElog
      | OTHER_TOKEN => if Nat.eqb (tok_len token) 0 then ret NULL_ptr else fail EElog
      | T_Integer => ret (TInteger (atol (tok_text token)))
      | T_Float => ret (TFloat (tok_chars token))
      | T_String => ret (TString (debackslash (take (tok_len token - 2) (tail (tok_text token)))))
      | T_BitString => ret (TBitString (tail (tok_chars token)))
      end
  end.

(** [nodeRead (NULL, 0)]. *)
Definition nodeRead_next (fuel : nat) : M text tree :=
  token <- pg_strtok;;
  match token with
  | None => ret NULL_ptr
  | Some token => nodeRead fuel token
  end.

(** The state of the lexer is restored after the call. *)
Definition stringToNode (fuel : nat) (str : text) : res tree :=
  match nodeRead_next fuel str with
  | Ok (retval, _) => Ok retval
  | Err e => Err e
  end.
