(* ===== verification/NodeTextProps.v ===== *)
(** What the lexer makes of what the output functions write. *)

From S2P Require Import Prelude NodeText.

#[local] Open Scope Z_scope.

(** ** Ends of tokens *)

(** Text at which a token ends. *)
Definition ends (rest : text) : Prop := match rest with [] => True | c :: _ => delimits c = true end.

(** Text that is part of one token, whatever follows. *)
Fixpoint sealed (s : text) : bool :=
  match s with
  | [] => true
  | c :: s' =>
      if delimits c then false
      else if (c =? backslash)%char then match s' with _ :: s'' => sealed s'' | [] => false end
      else sealed s'
  end.

(** Induction over escaped pairs. *)
Lemma text_ind2 (P : text → Prop) :
  P [] → (∀ c, P [c]) → (∀ c c' s, P s → P (c' :: s) → P (c :: c' :: s)) → ∀ s, P s.
Proof.
  intros H0 H1 H2. enough (∀ s, P s ∧ ∀ c, P (c :: s)) as H by (intros s; apply H).
  induction s as [|c s [IH1 IH2]]; [by split; [|intros c]|]. split; [apply IH2|]. intros c'. apply H2; [done|apply IH2].
Qed.

Lemma sealed_app s t : sealed s = true → sealed t = true → sealed (s ++ t) = true.
Proof.
  intros Hs Ht. revert Hs. induction s as [|c|c c' s IH1 IH2] using text_ind2; [done| |].
  - cbn. destruct (delimits c); [done|]. by destruct (c =? backslash)%char.
  - cbn [sealed app]. destruct (delimits c); [done|]. destruct (c =? backslash)%char; [apply IH1|apply IH2].
Qed.

Lemma token_length_sealed s rest : sealed s = true → ends rest → token_length (s ++ rest) = length s.
Proof.
  intros Hs Hr. revert Hs. induction s as [|c|c c' s IH1 IH2] using text_ind2.
  - intros _. destruct rest as [|c rest]; [done|]. cbn in *. by rewrite Hr.
  - cbn [sealed token_length app]. destruct (delimits c); [done|]. destruct (c =? backslash)%char; [done|]. intros _.
    destruct rest as [|c' rest]; [done|]. cbn in *. by rewrite Hr.
  - intros Hs. change (token_length ((c :: c' :: s) ++ rest)) with
      (if delimits c then 0%nat else if (c =? backslash)%char then (2 + token_length (s ++ rest))%nat
       else (1 + token_length ((c' :: s) ++ rest))%nat).
    change (sealed (c :: c' :: s)) with
      (if delimits c then false else if (c =? backslash)%char then sealed s else sealed (c' :: s)) in Hs.
    destruct (delimits c); [done|]. destruct (c =? backslash)%char; [by rewrite IH1|by rewrite IH2].
Qed.

(** Characters that stand for themselves in a token. *)
Definition plain_char (c : ascii) : bool := negb (delimits c) && negb (c =? backslash)%char.

Definition word (s : text) : bool := forallb plain_char s.

Lemma word_sealed s : word s = true → sealed s = true.
Proof.
  induction s as [|c s IH]; [done|]. cbn. unfold plain_char. rewrite !andb_true_iff, !negb_true_iff.
  intros [[-> ->] Hs]. auto.
Qed.

(** ** Tokens *)

Definition null_word : text := lit_text "<>".

Lemma reported_length (c : ascii) (s : text) (len : nat) : c :: s ≠ null_word →
  match c :: s with
  | [c1; c2] => if (c1 =? "<")%char && (c2 =? ">")%char then 0%nat else len
  | _ => len
  end = len.
Proof.
  intros Hne. destruct s as [|c2 [|c3 s]]; try done. destruct ((c =? "<") && (c2 =? ">"))%char eqn:E; [|done].
  apply andb_true_iff in E as [->%Ascii.eqb_eq ->%Ascii.eqb_eq]. done.
Qed.

Lemma strtok_sealed s rest : s ≠ [] → sealed s = true → s ≠ null_word → ends rest →
  pg_strtok (s ++ rest) = Ok (Some (mkToken (s ++ rest) (length s)), rest).
Proof.
  intros Hne Hs Hnull Hr. destruct s as [|c s]; [done|].
  assert (delimits c = false) as Hc by (cbn in Hs; by destruct (delimits c)). pose proof Hc as Hc'.
  unfold delimits in Hc'. apply orb_false_iff in Hc' as [Hw Hp]. unfold pg_strtok. cbn [app skip_ws]. rewrite Hw, Hp.
  assert (token_length (c :: s ++ rest) = S (length s)) as -> by (by apply (token_length_sealed (c :: s))).
  cbn [Nat.sub length]. rewrite Nat.sub_0_r, take_app_length.
  rewrite reported_length by done. cbn [drop]. by rewrite drop_app_length.
Qed.

Lemma strtok_null rest : ends rest → pg_strtok (null_word ++ rest) = Ok (Some (mkToken (null_word ++ rest) 0), rest).
Proof. intros Hr. destruct rest as [|c rest]; [done|]. unfold pg_strtok. cbn in *. by rewrite Hr. Qed.

Lemma strtok_paren c s : is_paren c = true → pg_strtok (c :: s) = Ok (Some (mkToken (c :: s) 1), s).
Proof.
  intros Hp. unfold pg_strtok. cbn [skip_ws]. assert (is_ws c = false) as ->.
  { unfold is_paren in Hp. rewrite !orb_true_iff, !Ascii.eqb_eq in Hp. naive_solver. }
  rewrite Hp. cbn [drop Nat.sub take]. done.
Qed.

Lemma strtok_space s : pg_strtok (space :: s) = pg_strtok s.
Proof. done. Qed.

Lemma ends_space s : ends (space :: s).
Proof. done. Qed.

(** ** Escapes *)

Lemma escape_sealed s : sealed (escape s) = true.
Proof.
  induction s as [|c s IH]; [done|]. cbn [escape]. unfold escaped. destruct (delimits c) eqn:Hd; [done|].
  destruct (c =? backslash)%char eqn:Hb; cbn [orb app sealed]; [done|]. by rewrite Hd, Hb.
Qed.

Lemma debackslash_escape s : debackslash (escape s) = s.
Proof.
  induction s as [|c s IH]; [done|]. cbn [escape]. destruct (escaped c) eqn:He; cbn; [by rewrite IH|].
  unfold escaped in He. apply orb_false_iff in He as [_ ->]. by rewrite IH.
Qed.

(** The characters that are escaped in the first position are not escaped elsewhere. *)
Lemma first_not_escaped c s : escape_first (c :: s) = true → escaped c = false.
Proof. destruct c as [[] [] [] [] [] [] [] []]; cbn; (done || by destruct s). Qed.

Lemma outToken_some s : s ≠ [] →
  let w := outToken (Some s) in w ≠ [] ∧ sealed w = true ∧ w ≠ null_word ∧ debackslash w = s.
Proof.
  intros Hne. destruct s as [|c s]; [done|]. cbn [outToken]. destruct (escape_first (c :: s)) eqn:Hf.
  - pose proof (first_not_escaped c s Hf) as Hc. cbn [escape app]. rewrite Hc. split_and!; try done.
    + apply escape_sealed.
    + cbn. f_equal. apply debackslash_escape.
  - cbn [app]. split_and!; [|apply escape_sealed| |apply debackslash_escape].
    + cbn. by destruct (escaped c).
    + cbn. intros E. destruct (escaped c) eqn:Hc; [by injection E|]. cbn in E. injection E as -> _. done.
Qed.

(** ** Numbers *)

Lemma code_digit d : 0 ≤ d < 10 → code (digit d) = 48 + d.
Proof. intros Hd. unfold code, digit. rewrite N_ascii_embedding; lia. Qed.

Definition rev_value (ds : text) : Z := foldr (λ c acc, acc * 10 + (code c - 48)) 0 ds.

Lemma digits_value_rev ds : digits_value (rev ds) = rev_value ds.
Proof. induction ds as [|c ds IH]; [done|]. unfold digits_value in *. cbn. by rewrite fold_left_app, IH. Qed.

Lemma digits_rev_ok fuel n : 0 ≤ n < 10 ^ Z.of_nat fuel →
  rev_value (digits_rev fuel n) = n ∧ forallb isdigit (digits_rev fuel n) = true.
Proof.
  revert n. induction fuel as [|fuel IH]; intros n Hn; [cbn in Hn; split; [cbn; lia|done]|].
  rewrite Nat2Z.inj_succ, Z.pow_succ_r in Hn by lia. cbn [digits_rev]. pose proof (Z.mod_pos_bound n 10 ltac:(lia)) as Hm.
  assert (isdigit (digit (n mod 10)) = true) as Hd.
  { unfold isdigit. rewrite code_digit by done. apply andb_true_iff. rewrite !Z.leb_le. lia. }
  destruct (Z.ltb_spec n 10) as [Hlt|Hge].
  - cbn [rev_value foldr forallb]. rewrite code_digit, Hd by done. rewrite Z.mod_small by lia. split; [lia|done].
  - destruct (IH (n / 10)) as [Hv Hf].
    { split; [apply Z.div_pos; lia|]. apply Z.div_lt_upper_bound; lia. }
    cbn [rev_value foldr forallb]. fold (rev_value (digits_rev fuel (n / 10))). rewrite Hv, Hd, Hf, code_digit by done.
    split; [|done]. pose proof (Z.div_mod n 10). lia.
Qed.

Lemma log_fuel n : 0 ≤ n → n < 10 ^ Z.of_nat (S (Z.to_nat (Z.log2 n))).
Proof.
  intros Hn. rewrite Nat2Z.inj_succ, Z2Nat.id by apply Z.log2_nonneg.
  destruct (decide (n = 0)) as [->|Hne]; [done|]. pose proof (Z.log2_spec n ltac:(lia)) as [_ H].
  eapply Z.lt_le_trans; [exact H|]. apply Z.pow_le_mono_l. lia.
Qed.

Lemma print_unsigned_ok n : 0 ≤ n → print_unsigned n ≠ [] ∧ digits_value (print_unsigned n) = n ∧
  forallb isdigit (print_unsigned n) = true.
Proof.
  intros Hn. destruct (digits_rev_ok (S (Z.to_nat (Z.log2 n))) n) as [Hv Hf]; [split; [done|by apply log_fuel]|].
  unfold print_unsigned. split_and!.
  - intros E%(f_equal length). by rewrite length_rev in E.
  - by rewrite digits_value_rev.
  - apply forallb_Forall. apply forallb_Forall in Hf. rewrite Forall_forall in Hf |- *. intros c Hc. apply Hf.
    by apply list_elem_of_In, in_rev, list_elem_of_In.
Qed.

Lemma span_app f (s rest : text) : forallb f s = true → match rest with c :: _ => f c = false | [] => True end →
  span f (s ++ rest) = s.
Proof.
  intros Hs Hr. induction s as [|c s IH]; [by destruct rest as [|c rest]; [|cbn; rewrite Hr]|].
  cbn in Hs |- *. apply andb_true_iff in Hs as [-> Hs]. by rewrite IH.
Qed.

Lemma delimiter_not_digit c : delimits c = true → isdigit c = false.
Proof. destruct c as [[] [] [] [] [] [] [] []]; done. Qed.

Lemma digit_class c : isdigit c = true →
  isspace c = false ∧ plain_char c = true ∧ (c =? "-")%char = false ∧ (c =? "+")%char = false ∧
  (c =? "<")%char = false ∧ (c =? "(")%char = false ∧ (c =? ")")%char = false.
Proof. destruct c as [[] [] [] [] [] [] [] []]; done. Qed.

(** Text after a number. *)
Lemma ends_number rest : ends rest → match rest with c :: _ => isdigit c = false | [] => True end.
Proof. destruct rest; [done|]. apply delimiter_not_digit. Qed.

Lemma scan_digits ds rest : ds ≠ [] → forallb isdigit ds = true → ends rest →
  scan_number (ds ++ rest) = Some (false, digits_value ds, length ds) ∧
  scan_number ("-"%char :: ds ++ rest) = Some (true, digits_value ds, S (length ds)).
Proof.
  intros Hne Hd Hr%ends_number. destruct ds as [|c ds]; [done|]. pose proof Hd as [Hc _]%andb_true_iff.
  destruct (digit_class c Hc) as (Hs & _ & Hm & Hp & _).
  assert (span isspace ((c :: ds) ++ rest) = []) as Hws by (cbn; by rewrite Hs).
  pose proof (span_app isdigit (c :: ds) rest Hd Hr) as Hsp.
  split.
  - unfold scan_number. rewrite Hws. cbn [length drop app] in *. rewrite Hm, Hp. cbn [drop]. by rewrite Hsp.
  - unfold scan_number. change (span isspace ("-"%char :: (c :: ds) ++ rest)) with ([] : text). cbn [length drop app] in *.
    rewrite Ascii.eqb_refl. cbn [drop]. by rewrite Hsp.
Qed.

Lemma scan_int z rest : ends rest →
  scan_number (print_int z ++ rest) = Some (z <? 0, Z.abs z, length (print_int z)).
Proof.
  intros Hr. unfold print_int. destruct (Z.ltb_spec z 0) as [Hz|Hz].
  - destruct (print_unsigned_ok (- z) ltac:(lia)) as (Hne & Hv & Hd).
    destruct (scan_digits _ rest Hne Hd Hr) as [_ E]. cbn [app length]. rewrite E, Hv. by replace (Z.abs z) with (- z) by lia.
  - destruct (print_unsigned_ok z Hz) as (Hne & Hv & Hd).
    destruct (scan_digits _ rest Hne Hd Hr) as [E _]. rewrite E, Hv. by replace (Z.abs z) with z by lia.
Qed.

Lemma print_unsigned_int z : 0 ≤ z → print_unsigned z = print_int z.
Proof. intros Hz. unfold print_int. by rewrite (proj2 (Z.ltb_ge z 0)). Qed.

Lemma to_signed_id bits z : 0 < bits → - 2 ^ (bits - 1) ≤ z < 2 ^ (bits - 1) → to_signed bits z = z.
Proof.
  intros Hb Hz. unfold to_signed. assert (2 ^ bits = 2 * 2 ^ (bits - 1)) as E.
  { rewrite <- Z.pow_succ_r by lia. f_equal. lia. }
  destruct (decide (0 ≤ z)) as [Hp|Hp].
  - rewrite Z.mod_small by lia. by rewrite (proj2 (Z.ltb_lt _ _)) by lia.
  - assert (z mod 2 ^ bits = z + 2 ^ bits) as ->.
    { symmetry. apply Z.mod_unique with (-1); lia. }
    rewrite (proj2 (Z.ltb_ge _ _)) by lia. lia.
Qed.

(** The numbers that fit the types. *)
Definition int_ok (z : Z) : bool := (INT32_MIN <=? z) && (z <=? INT32_MAX).
Definition int16_ok (z : Z) : bool := (- 2 ^ 15 <=? z) && (z <? 2 ^ 15).
Definition int8_ok (z : Z) : bool := (- 2 ^ 7 <=? z) && (z <? 2 ^ 7).
Definition uint_ok (z : Z) : bool := (0 <=? z) && (z <? 2 ^ 32).

Lemma strtol_int z rest : int_ok z = true → ends rest → strtol (print_int z ++ rest) = (z, false, length (print_int z)).
Proof.
  unfold int_ok, INT32_MIN, INT32_MAX. rewrite andb_true_iff, !Z.leb_le. intros Hz Hr. unfold strtol. rewrite scan_int by done.
  assert ((if z <? 0 then - Z.abs z else Z.abs z) = z) as -> by (destruct (Z.ltb_spec z 0); lia).
  unfold LONG_MIN, LONG_MAX. by rewrite (proj2 (Z.ltb_ge _ _)), (proj2 (Z.ltb_ge _ _)) by lia.
Qed.

Lemma to_int_id z : int_ok z = true → to_int z = z.
Proof. unfold int_ok, INT32_MIN, INT32_MAX. rewrite andb_true_iff, !Z.leb_le. intros Hz. apply to_signed_id; cbn; lia. Qed.

Lemma atoi_print z rest : int_ok z = true → ends rest → atoi (print_int z ++ rest) = z.
Proof. intros Hz Hr. unfold atoi, atol. rewrite strtol_int by done. by apply to_int_id. Qed.

Lemma strtoul_print z rest : uint_ok z = true → ends rest →
  strtoul (print_unsigned z ++ rest) = (z, length (print_unsigned z)).
Proof.
  unfold uint_ok. rewrite andb_true_iff, Z.leb_le, Z.ltb_lt. intros Hz Hr. rewrite print_unsigned_int by lia.
  unfold strtoul. rewrite scan_int by done. rewrite (proj2 (Z.ltb_ge z 0)), Z.abs_eq by lia.
  rewrite (proj2 (Z.leb_gt _ _)) by lia. by rewrite Z.mod_small by lia.
Qed.

Lemma to_uint_id z : uint_ok z = true → to_uint z = z.
Proof. unfold uint_ok. rewrite andb_true_iff, Z.leb_le, Z.ltb_lt. intros Hz. by apply Z.mod_small. Qed.

Lemma atoui_print z rest : uint_ok z = true → ends rest → atoui (print_unsigned z ++ rest) = z.
Proof. intros Hz Hr. unfold atoui. rewrite strtoul_print by done. by apply to_uint_id. Qed.

(** Printed numbers are words. *)
Lemma digits_word ds : forallb isdigit ds = true → word ds = true.
Proof.
  unfold word. rewrite !forallb_Forall. intros H. eapply Forall_impl; [exact H|]. intros c Hc. by destruct (digit_class c Hc) as (_ & ? & _).
Qed.

Lemma print_int_word z : word (print_int z) = true ∧ print_int z ≠ [] ∧
  match print_int z with c :: _ => (c =? "-")%char || isdigit c = true | [] => False end.
Proof.
  unfold print_int. destruct (Z.ltb_spec z 0) as [Hz|Hz].
  - destruct (print_unsigned_ok (- z) ltac:(lia)) as (_ & _ & Hd). split; [|done]. apply digits_word in Hd. cbn. done.
  - destruct (print_unsigned_ok z Hz) as (Hne & _ & Hd). split; [by apply digits_word|]. split; [done|].
    destruct (print_unsigned z) as [|c s]; [done|]. cbn in Hd. apply andb_true_iff in Hd as [-> _]. by rewrite orb_true_r.
Qed.

Lemma strtok_int z rest : ends rest →
  pg_strtok (print_int z ++ rest) = Ok (Some (mkToken (print_int z ++ rest) (length (print_int z))), rest).
Proof.
  intros Hr. destruct (print_int_word z) as (Hw & Hne & Hc). apply strtok_sealed; [done|by apply word_sealed| |done].
  intros E. rewrite E in Hc. done.
Qed.

Lemma strtok_uint z rest : 0 ≤ z → ends rest →
  pg_strtok (print_unsigned z ++ rest) = Ok (Some (mkToken (print_unsigned z ++ rest) (length (print_unsigned z))), rest).
Proof. intros Hz. rewrite print_unsigned_int by done. apply strtok_int. Qed.
