(* ===== verification/NodeStore.v ===== *)
(** The trees that can be stored as text, and what is read back.

    [storable] says which trees survive [nodeToString] and [stringToNode]; [stored] is the
    tree that is read back: locations are forgotten, fields that are not written are zero,
    an empty string is NULL, and a set may have lost words without members. *)

From S2P Require Import Prelude NodeText NodeTree NodeSchema NodeOut NodeRead NodeTextProps.
From S2P Require Import Bitmapset BitWords BitSpec BitIter BitProps.

#[local] Open Scope string_scope.
#[local] Open Scope list_scope.
#[local] Open Scope Z_scope.

(** ** Induction on trees *)

Section Ind.
Context (P : tree → Prop).
Context (Hnull : P NULL_ptr) (Hint : ∀ z, P (TInteger z)) (Hfloat : ∀ s, P (TFloat s)) (Hstring : ∀ s, P (TString s)).
Context (Hbits : ∀ s, P (TBitString s)) (Hlist : ∀ l, Forall P l → P (TList l)).
Context (Hints : ∀ l, P (TIntList l)) (Hoids : ∀ l, P (TOidList l)).
Context (Hstruct : ∀ tag n, Forall (λ p : string * fval, match p.2 with VNode t => P t | _ => True end) n → P (Struct tag n)).

Fixpoint tree_ind' (t : tree) : P t.
Proof.
  destruct t as [| | | | |l| | |tag n];
    [exact Hnull|apply Hint|apply Hfloat|apply Hstring|apply Hbits| |apply Hints|apply Hoids|].
  - apply Hlist. induction l as [|x l IH]; constructor; [apply tree_ind'|exact IH].
  - apply Hstruct. induction n as [|[f v] n IH]; constructor; [|exact IH]. destruct v; [exact I|exact I|exact I|apply tree_ind'|exact I|exact I].
Qed.
End Ind.

(** ** Fields *)

Lemma lookup_map {A B} (g : A → B) f (n : list (string * A)) :
  lookup_field f (map (λ '(f, v), (f, g v)) n) = g <$> lookup_field f n.
Proof. induction n as [|[h v] n IH]; [done|]. cbn. by destruct (String.eqb f h). Qed.

(** A function on the nodes in the fields of a struct. *)
Definition child {A} (zero : A) (g : tree → A) (n : fields) (f : string) : A :=
  default zero (lookup_field f (map (λ '(f, v), (f, match v with VNode t => g t | _ => zero end)) n)).

Lemma child_node {A} (zero : A) g n f : g NULL_ptr = zero → child zero g n f = g (node_of f n).
Proof.
  intros Hz. unfold child, node_of. rewrite (lookup_map (λ v, match v with VNode t => g t | _ => zero end)).
  destruct (lookup_field f n) as [[]|]; cbn; done.
Qed.

(** A property of the nodes in all fields holds of the node in a field. *)
Lemma node_of_Forall (P : tree → Prop) n f : P NULL_ptr →
  Forall (λ p : string * fval, match p.2 with VNode t => P t | _ => True end) n → P (node_of f n).
Proof.
  intros Hnull. unfold node_of. induction 1 as [|[g v] n Hv _ IH]; [done|]. cbn. destruct (String.eqb f g); [|done]. by destruct v.
Qed.

Lemma node_of_forallb (P : tree → bool) n f : P NULL_ptr = true →
  forallb (λ p : string * fval, match p.2 with VNode t => P t | _ => true end) n = true → P (node_of f n) = true.
Proof.
  intros Hnull Hn%forallb_Forall. apply (node_of_Forall (λ t, P t = true)); [done|].
  eapply Forall_impl; [exact Hn|]. by intros [g []].
Qed.

(** The fields that the macros of the output function write. *)
Definition written_fields (tag : NodeTag) (n : fields) : list field :=
  match outFunction n (λ _, ret ()) tag, tag with
  | Macros o, _ => o.2
  | Code _, T_Query => readQuery
  | Code _, T_Const =>
      [OID_FIELD "consttype"; INT_FIELD "consttypmod"; OID_FIELD "constcollid"; INT_FIELD "constlen";
       BOOL_FIELD "constbyval"; BOOL_FIELD "constisnull"; LOCATION_FIELD "location"]
  | Code _, T_BoolExpr => [NODE_FIELD "args"; LOCATION_FIELD "location"]
  | Code _, _ =>
      [NODE_FIELD "alias"; NODE_FIELD "eref"; ENUM_FIELD "rtekind"] ++
      default [] (outRangeTblEntry_kind (int_of "rtekind" n)) ++
      [BOOL_FIELD "lateral"; BOOL_FIELD "inh"; BOOL_FIELD "inFromCl"; UINT_FIELD "requiredPerms";
       OID_FIELD "checkAsUser"; BITMAPSET_FIELD "selectedCols"; BITMAPSET_FIELD "insertedCols";
       BITMAPSET_FIELD "updatedCols"; NODE_FIELD "securityQuals"]
  end.

(** ** Storable trees *)

(** A set of ints, without INT_MAX, at which the loop of [outBitmapset] fails. *)
Definition set_ok (a : option Bitmapset) : bool :=
  forallb (λ w, (0 <=? w) && (w <? 2 ^ 32)) (words a) &&
  if nwords (words a) <? 2 ^ 26 then true else (nwords (words a) =? 2 ^ 26) && negb (inb (words a) INT_MAX).

(** The value of a field has its type and, for a char, is one token. *)
Definition field_ok (n : fields) (ok : string → bool) (fl : field) : bool :=
  match fl with
  | INT_FIELD f | ENUM_FIELD f => int_ok (int_of f n)
  | INT16_FIELD f => int16_ok (int_of f n)
  | UINT_FIELD f | OID_FIELD f => uint_ok (int_of f n)
  | CHAR_FIELD f => (0 <? int_of f n) && (int_of f n <? 256) && plain_char (ascii_of_N (Z.to_N (int_of f n)))
  | BOOL_FIELD _ | STRING_FIELD _ | LOCATION_FIELD _ => true
  | NODE_FIELD f => ok f
  | BITMAPSET_FIELD f => set_ok (bitmapset_of f n)
  end.

Definition datum_ok (typbyval : bool) (typlen : Z) (d : datum) : bool :=
  match typbyval, d with
  | true, ByValue bytes =>
      forallb int8_ok bytes && (Z.of_nat (length bytes) =? sizeof_Datum) && (0 <=? typlen) && (typlen <=? sizeof_Datum)
  | false, ByReference (Some bytes) =>
      forallb int8_ok bytes && (0 <? Z.of_nat (length bytes)) && (Z.of_nat (length bytes) <? 2 ^ 32) &&
      bool_decide (datumGetSize d typbyval typlen = Ok (Z.of_nat (length bytes)))
  | false, ByReference None => 0 <? typlen
  | _, _ => false
  end.

(** What the functions with code of their own ask for. *)
Definition code_ok (tag : NodeTag) (n : fields) : bool :=
  match tag with
  | T_Query => match node_of "utilityStmt" n with
               | NULL_ptr | Struct T_NotifyStmt _ | Struct T_DeclareCursorStmt _ => true
               | _ => false
               end
  | T_Const => bool_of "constisnull" n ||
               datum_ok (bool_of "constbyval" n) (int_of "constlen" n) (datum_of "constvalue" n)
  | T_BoolExpr => (0 <=? int_of "boolop" n) && (int_of "boolop" n <=? 2)
  | T_RangeTblEntry => bool_decide (is_Some (outRangeTblEntry_kind (int_of "rtekind" n)))
  | _ => true
  end.

(** A word that [nodeRead] takes for a float. *)
Definition float_ok (s : text) : bool :=
  let t := mkToken s (length s) in
  word s && looks_numeric t && match nodeTokenType t with T_Float => true | _ => false end.

Fixpoint storable (t : tree) : bool :=
  match t with
  | NULL_ptr | TString _ => true
  | TInteger z => int_ok z
  | TFloat s => float_ok s
  | TBitString _ => false
  | TList l => match l with [] => false | _ => forallb storable l end
  | TIntList l => match l with [] => false | _ => forallb int_ok l end
  | TOidList l => match l with [] => false | _ => forallb uint_ok l end
  | Struct tag n => code_ok tag n && forallb (field_ok n (child true storable n)) (written_fields tag n)
  end.

(** ** What is read back *)

Fixpoint add_all (l : list Z) (a : option Bitmapset) : res (option Bitmapset) :=
  match l with
  | [] => Ok a
  | x :: l => match bms_add_member a x with Ok a => add_all l a | Err e => Err e end
  end.

Definition rebuilt (a : option Bitmapset) : option Bitmapset :=
  match add_all (enum (words a) 0) None with Ok a => a | Err _ => None end.

Definition stored_value (n : fields) (node : string → tree) (fl : field) : fval :=
  match fl with
  | INT_FIELD f | INT16_FIELD f | ENUM_FIELD f | UINT_FIELD f | OID_FIELD f | CHAR_FIELD f => VInt (int_of f n)
  | BOOL_FIELD f => VBool (bool_of f n)
  | STRING_FIELD f => VString (match string_of f n with Some [] => None | s => s end)
  | LOCATION_FIELD _ => VInt (-1)
  | NODE_FIELD f => VNode (node f)
  | BITMAPSET_FIELD f => VBitmapset (rebuilt (bitmapset_of f n))
  end.

Definition stored_fields (n : fields) (node : string → tree) (l : list field) : fields :=
  map (λ fl, (field_name fl, stored_value n node fl)) l.

Definition stored_struct (tag : NodeTag) (n : fields) (node : string → tree) : fields :=
  let l := stored_fields n node (written_fields tag n) in
  match tag with
  | T_Const => if bool_of "constisnull" n then l else l ++ [("constvalue", VDatum (datum_of "constvalue" n))]
  | T_BoolExpr => ("boolop", VInt (int_of "boolop" n)) :: l
  | _ => l
  end.

Fixpoint stored (t : tree) : tree :=
  match t with
  | TList l => TList (map stored l)
  | Struct tag n => Struct tag (stored_struct tag n (child NULL_ptr stored n))
  | _ => t
  end.

Example stored_var :
  let v := Struct T_Var [("varno", VInt 1); ("varattno", VInt 2); ("vartype", VInt 23); ("location", VInt 40)] in
  storable v = true ∧
  stored v = Struct T_Var [("varno", VInt 1); ("varattno", VInt 2); ("vartype", VInt 23); ("vartypmod", VInt 0);
    ("varcollid", VInt 0); ("varlevelsup", VInt 0); ("varnoold", VInt 0); ("varoattno", VInt 0); ("location", VInt (-1))].
Proof. done. Qed.
