(* ===== verification/NodeRoundtrip.v ===== *)
(** The round trip: [stringToNode] of [nodeToString] gives the stored tree. *)

From S2P Require Import Prelude NodeText NodeTree NodeSchema NodeOut NodeRead NodeTextProps NodeStore.
From S2P Require Import Bitmapset BitWords BitSpec BitIter BitProps.

#[local] Open Scope string_scope.
#[local] Open Scope list_scope.
#[local] Open Scope Z_scope.

(** ** Output *)

(** [m] appends [w]. *)
Definition writes (m : M text ()) (w : text) : Prop := ∀ str, m str = Ok ((), str ++ w).

Lemma writes_text w : writes (append_text w) w.
Proof. done. Qed.

Lemma writes_string s : writes (append s) (lit_text s).
Proof. done. Qed.

Lemma writes_ret : writes (ret ()) [].
Proof. intros str. by rewrite app_nil_r. Qed.

Lemma writes_bind m1 m2 w1 w2 : writes m1 w1 → writes m2 w2 → writes (m1;;; m2) (w1 ++ w2).
Proof. intros H1 H2 str. erewrite bind_Ok by apply H1. by rewrite H2, app_assoc. Qed.

Lemma writes_eq m w w' : writes m w → w = w' → writes m w'.
Proof. by intros ? <-. Qed.

(** The text of a sequence of items. *)
Lemma writes_each {A} (out : A → M text ()) (item : A → text) l :
  (∀ x, x ∈ l → writes (out x) (item x)) → writes (out_each out l) (concat (map item l)).
Proof.
  induction l as [|x l IH]; intros Hl; [apply writes_ret|]. cbn. apply writes_bind; [apply Hl; by left|].
  apply IH. intros y Hy. apply Hl. by right.
Qed.

(** ** Input *)

(** [m] reads [w], and nothing of what follows it. *)
Definition reads {A} (m : M text A) (w : text) (a : A) : Prop := ∀ rest, ends rest → m (w ++ rest) = Ok (a, rest).

(** A token that neither closes a list nor starts a list of numbers. *)
Definition ordinary (t : token) : Prop :=
  is_char t ")" = false ∧ is_one_char t "i" = false ∧ is_one_char t "o" = false.

(** [w] is the text of a node. *)
Definition reads_node (w : text) (r : tree) : Prop := ∀ rest, ends rest →
  ∃ tok s1, pg_strtok (w ++ rest) = Ok (Some tok, s1) ∧ ordinary tok ∧
    ∀ fuel, (length w < fuel)%nat → nodeRead fuel tok s1 = Ok (r, rest).

Lemma reads_node_next w r fuel : reads_node w r → (length w < fuel)%nat → reads (nodeRead_next fuel) w r.
Proof.
  intros Hw Hf rest Hr. destruct (Hw rest Hr) as (tok & s1 & E & _ & Hn). unfold nodeRead_next.
  erewrite bind_Ok by exact E. by apply Hn.
Qed.

(** ** Values *)

Lemma null_reads : reads_node null_word NULL_ptr.
Proof.
  intros rest Hr. rewrite strtok_null by done. eexists _, _. split; [done|]. split; [done|].
  intros [|fuel] Hf; [cbn in Hf; lia|]. done.
Qed.

Lemma number_start z rest : ∃ c s, print_int z ++ rest = c :: s ∧ ((c =? "-")%char || isdigit c) = true.
Proof.
  destruct (print_int_word z) as (_ & _ & Hc). destruct (print_int z) as [|c s]; [done|]. by exists c, (s ++ rest).
Qed.

Lemma number_numeric z rest : looks_numeric (mkToken (print_int z ++ rest) (length (print_int z))) = true.
Proof.
  unfold looks_numeric, first_char. cbn [tok_text tok_len]. unfold print_int. destruct (Z.ltb_spec z 0) as [Hlt|Hge].
  - destruct (print_unsigned_ok (- z) ltac:(lia)) as (Hne & _ & Hd). destruct (print_unsigned (- z)) as [|c s]; [done|].
    cbn in Hd. apply andb_true_iff in Hd as [Hd _]. cbn. by rewrite Hd.
  - destruct (print_unsigned_ok z Hge) as (Hne & _ & Hd). destruct (print_unsigned z) as [|c s]; [done|].
    cbn in Hd. apply andb_true_iff in Hd as [Hd _]. destruct (digit_class c Hd) as (_ & _ & Hm & Hp & _).
    cbn [app]. rewrite Hm, Hp. cbn [orb length]. by rewrite Hd.
Qed.

Lemma number_type z rest : int_ok z = true → ends rest →
  nodeTokenType (mkToken (print_int z ++ rest) (length (print_int z))) = T_Integer.
Proof.
  intros Hz Hr. unfold nodeTokenType. rewrite number_numeric. cbn [tok_text tok_len].
  by rewrite strtol_int, Nat.eqb_refl, to_int_id, Z.eqb_refl by done.
Qed.

Lemma number_ordinary z rest : ordinary (mkToken (print_int z ++ rest) (length (print_int z))).
Proof.
  destruct (number_start z rest) as (c & s & -> & Hc). unfold ordinary, is_one_char, is_char, first_char. cbn [tok_text].
  assert (((c =? ")") || (c =? "i") || (c =? "o"))%char = false) as Hn by (by destruct c as [[] [] [] [] [] [] [] []]).
  rewrite !orb_false_iff in Hn. destruct Hn as [[-> ->] ->]. by rewrite !andb_false_r.
Qed.

Lemma integer_reads z : int_ok z = true → reads_node (print_int z) (TInteger z).
Proof.
  intros Hz rest Hr. rewrite strtok_int by done. eexists _, _. split; [done|]. split; [apply number_ordinary|].
  intros [|fuel] Hf; [lia|]. cbn [nodeRead]. rewrite number_type by done. unfold atol. cbn [tok_text]. by rewrite strtol_int.
Qed.

Lemma span_stop f (s rest : text) : match rest with c :: _ => f c = false | [] => True end → span f (s ++ rest) = span f s.
Proof.
  intros Hr. induction s as [|c s IH]; [by destruct rest; [|cbn; rewrite Hr]|]. cbn. by destruct (f c); [rewrite IH|].
Qed.

(** A number is scanned up to the end of its token. *)
Lemma scan_stop c s rest : isspace c = false → ends rest → scan_number ((c :: s) ++ rest) = scan_number (c :: s).
Proof.
  intros Hc Hr%ends_number. unfold scan_number.
  assert (∀ t, span isspace (c :: t) = []) as Hsp by (intros t; cbn; by rewrite Hc). cbn [app]. rewrite !Hsp. cbn [length drop].
  destruct (c =? "-")%char; [cbn [drop]; rewrite !drop_0; by rewrite span_stop|].
  destruct (c =? "+")%char; cbn [drop]; [rewrite !drop_0; by rewrite span_stop|].
  change (c :: s ++ rest) with ((c :: s) ++ rest). by rewrite span_stop.
Qed.

Lemma strtol_stop c s rest : isspace c = false → ends rest → strtol ((c :: s) ++ rest) = strtol (c :: s).
Proof. intros Hc Hr. unfold strtol. by rewrite scan_stop. Qed.

Lemma numeric_app s rest : looks_numeric (mkToken (s ++ rest) (length s)) = true ↔ looks_numeric (mkToken s (length s)) = true.
Proof.
  unfold looks_numeric, first_char. cbn [tok_text tok_len]. destruct s as [|c [|c2 [|c3 s]]]; cbn [app length tail Nat.sub].
  - destruct rest as [|c rest]; [done|]. by destruct ((c =? "+") || (c =? "-"))%char; destruct rest.
  - destruct ((c =? "+") || (c =? "-"))%char; [by destruct rest|]. cbn. by rewrite !orb_false_r.
  - destruct ((c =? "+") || (c =? "-"))%char; cbn; [by rewrite !orb_false_r|done].
  - by destruct ((c =? "+") || (c =? "-"))%char.
Qed.

Lemma numeric_first c s len : looks_numeric (mkToken (c :: s) len) = true →
  isspace c = false ∧ ((c =? ")") || (c =? "i") || (c =? "o") || (c =? "<"))%char = false.
Proof.
  unfold looks_numeric, first_char. cbn [tok_text tok_len tail]. intros H.
  assert (((c =? "+") || (c =? "-") || isdigit c || (c =? "."))%char = true) as Hc.
  { destruct ((c =? "+") || (c =? "-"))%char; [done|]. cbn [orb]. destruct (isdigit c); [done|].
    rewrite andb_false_r in H. cbn [orb] in *. destruct (c =? ".")%char; [done|]. by rewrite andb_false_r in H. }
  clear H. destruct c as [[] [] [] [] [] [] [] []]; done.
Qed.

Lemma float_reads s : float_ok s = true → reads_node s (TFloat s).
Proof.
  unfold float_ok. intros [[Hw Hn]%andb_true_iff Ht]%andb_true_iff rest Hr. destruct s as [|c s]; [done|].
  destruct (numeric_first c s _ Hn) as [Hsp Hc]. rewrite !orb_false_iff in Hc. destruct Hc as [[[H1 H2] H3] H4].
  rewrite strtok_sealed; [|done|by apply word_sealed|by intros [= -> _]|done]. eexists _, _. split; [done|]. split.
  { unfold ordinary, is_one_char, is_char, first_char. cbn [tok_text app]. rewrite H1, H2, H3. by rewrite !andb_false_r. }
  intros [|fuel] Hf; [lia|]. cbn [nodeRead]. assert (nodeTokenType (mkToken ((c :: s) ++ rest) (length (c :: s))) = T_Float) as ->.
  { unfold nodeTokenType in Ht |- *. rewrite (proj2 (numeric_app _ _) Hn). rewrite Hn in Ht. cbn [tok_text tok_len] in *.
    rewrite strtol_stop by done. destruct (strtol (c :: s)) as [[v e] k]. by destruct (_ || _). }
  unfold tok_chars. cbn [tok_text tok_len]. by rewrite take_app_length.
Qed.

Definition quoted (s : text) : text := quote :: match s with [] => [] | _ => outToken (Some s) end ++ [quote].

Lemma string_reads s : reads_node (quoted s) (TString s).
Proof.
  intros rest Hr. set (body := match s with [] => [] | _ => outToken (Some s) end).
  assert (sealed body = true ∧ debackslash body = s) as [Hs Hd].
  { destruct s as [|c s]; [done|]. by destruct (outToken_some (c :: s)) as (_ & ? & _ & ?). }
  change (quoted s) with (quote :: body ++ [quote]).
  rewrite strtok_sealed; [|done| |by intros E%(f_equal (hd zero))|done].
  2: { change (sealed (body ++ [quote]) = true). by apply sealed_app. }
  eexists _, _. split; [done|]. split; [split_and!; [done|apply andb_false_r..]|]. intros [|fuel] Hf; [lia|]. cbn [nodeRead].
  assert (nodeTokenType (mkToken ((quote :: body ++ [quote]) ++ rest) (length (quote :: body ++ [quote]))) = T_String) as ->.
  { unfold nodeTokenType. cbn [tok_text tok_len]. rewrite bool_decide_eq_true_2.
    - cbn. rewrite length_app. cbn. by rewrite Nat.add_1_r.
    - cbn [length app Nat.sub]. rewrite Nat.sub_0_r, length_app, Nat.add_1_r. cbn. rewrite <- app_assoc. by apply list_lookup_middle. }
  cbn [tok_text tok_len tail app length]. rewrite length_app. cbn [length Nat.sub].
  rewrite Nat.add_1_r. cbn [Nat.sub]. rewrite Nat.sub_0_r, <- app_assoc, take_app_length. by rewrite Hd.
Qed.

(** ** Lists and sets *)

Lemma strtok_Ok {A} s tok s1 (k : token → M text A) : pg_strtok s = Ok (Some tok, s1) →
  bind strtok_or_elog k s = k tok s1 ∧ bind strtok_deref k s = k tok s1.
Proof. intros E. unfold strtok_or_elog, strtok_deref. split; rewrite bind_assoc; by erewrite bind_Ok by exact E. Qed.

Lemma elog_Ok {A} s tok s1 (k : token → M text A) : pg_strtok s = Ok (Some tok, s1) → bind strtok_or_elog k s = k tok s1.
Proof. apply strtok_Ok. Qed.

Lemma deref_Ok {A} s tok s1 (k : token → M text A) : pg_strtok s = Ok (Some tok, s1) → bind strtok_deref k s = k tok s1.
Proof. apply strtok_Ok. Qed.

(** Items with a space before each. *)
Definition spaced (item : Z → text) (l : list Z) : text := concat (map (λ z, space :: item z) l).

Lemma spaced_ends item l rest : ends rest → ends (spaced item l ++ rest).
Proof. by destruct l. Qed.

(** The token of an item, what is left after it and its value. *)
Definition item_reads (item : Z → text) (read : token → res Z) (z : Z) : Prop := ∀ rest, ends rest →
  ∃ tok, pg_strtok (item z ++ rest) = Ok (Some tok, rest) ∧ is_char tok ")" = false ∧ read tok = Ok z.

Lemma int_item z : int_ok z = true → item_reads print_int whole_int z.
Proof.
  intros Hz rest Hr. rewrite strtok_int by done. eexists. split; [done|]. destruct (number_ordinary z rest) as [Hc _].
  split; [done|]. unfold whole_int. cbn [tok_text tok_len]. by rewrite strtol_int, Nat.eqb_refl, to_int_id.
Qed.

Lemma oid_item z : uint_ok z = true → item_reads print_unsigned whole_oid z.
Proof.
  intros Hz rest Hr. assert (0 ≤ z) as Hp by (apply andb_true_iff in Hz as [Hz _]; lia). rewrite strtok_uint by done.
  eexists. split; [done|]. split; [|unfold whole_oid; cbn [tok_text tok_len]; by rewrite strtoul_print, Nat.eqb_refl, to_uint_id].
  rewrite print_unsigned_int by done. by destruct (number_ordinary z rest) as [Hc _].
Qed.

Lemma spaced_length item l : (length l ≤ length (spaced item l))%nat.
Proof. induction l as [|z l IH]; [done|]. unfold spaced in *. cbn. rewrite length_app. lia. Qed.

Lemma int_list_reads item read l : Forall (item_reads item read) l → ∀ fuel acc rest, (length l < fuel)%nat →
  read_int_list fuel read acc (spaced item l ++ ")"%char :: rest) = Ok (acc ++ l, rest).
Proof.
  induction 1 as [|z l Hz _ IH]; intros [|fuel] acc rest Hf; try (cbn in Hf; lia); cbn [read_int_list].
  - erewrite elog_Ok by by apply strtok_paren. by rewrite app_nil_r.
  - change (spaced item (z :: l)) with (space :: item z ++ spaced item l). rewrite <- app_comm_cons, <- app_assoc.
    destruct (Hz (spaced item l ++ ")"%char :: rest)) as (tok & E & Hc & Hv); [by apply spaced_ends|].
    erewrite elog_Ok by (rewrite strtok_space; exact E). rewrite Hc. erewrite bind_Ok by (unfold of_res; by rewrite Hv).
    rewrite IH by (cbn in Hf; lia). by rewrite <- app_assoc.
Qed.

(** A list of numbers, with the letter that starts it. *)
Definition number_list (letter : ascii) (item : Z → text) (l : list Z) : text :=
  "("%char :: letter :: spaced item l ++ [")"%char].

Lemma letter_token letter s : plain_char letter = true → ends s → pg_strtok (letter :: s) = Ok (Some (mkToken (letter :: s) 1), s).
Proof.
  intros Hl Hs. apply (strtok_sealed [letter]); [done|apply word_sealed; cbn; by rewrite Hl|done|done].
Qed.

Lemma list_head s : pg_strtok ("("%char :: s) = Ok (Some (mkToken ("("%char :: s) 1), s) ∧ ordinary (mkToken ("("%char :: s) 1) ∧
  nodeTokenType (mkToken ("("%char :: s) 1) = LEFT_PAREN.
Proof. split; [by apply strtok_paren|]. done. Qed.

Lemma one_char c s c' : is_one_char (mkToken (c :: s) 1) c' = (c =? c')%char.
Proof. done. Qed.

(** The numbers after the letter, with the fuel that the text provides. *)
Lemma numbers_read letter item read l fuel rest : Forall (item_reads item read) l →
  (length (number_list letter item l) < S fuel)%nat →
  read_int_list fuel read [] (spaced item l ++ [")"%char] ++ rest) = Ok (l, rest).
Proof.
  intros Hl Hf. apply (int_list_reads item read l Hl fuel [] rest).
  pose proof (spaced_length item l). unfold number_list in Hf. cbn in Hf. rewrite length_app in Hf. lia.
Qed.

Lemma ints_read l : l ≠ [] → forallb int_ok l = true → reads_node (number_list "i" print_int l) (TIntList l).
Proof.
  intros Hne Hl%forallb_Forall rest Hr. unfold number_list. rewrite <- !app_comm_cons, <- app_assoc.
  destruct (list_head ("i"%char :: spaced print_int l ++ [")"%char] ++ rest)) as (E & Ho & Ht).
  eexists _, _. split; [exact E|]. split; [exact Ho|]. intros [|fuel] Hf; [lia|]. cbn [nodeRead]. rewrite Ht.
  erewrite elog_Ok by (apply letter_token; [done|]; by apply spaced_ends). rewrite one_char, Ascii.eqb_refl.
  erewrite bind_Ok by (eapply numbers_read; [eapply Forall_impl; [exact Hl|apply int_item]|exact Hf]). by destruct l.
Qed.

Lemma oids_read l : l ≠ [] → forallb uint_ok l = true → reads_node (number_list "o" print_unsigned l) (TOidList l).
Proof.
  intros Hne Hl%forallb_Forall rest Hr. unfold number_list. rewrite <- !app_comm_cons, <- app_assoc.
  destruct (list_head ("o"%char :: spaced print_unsigned l ++ [")"%char] ++ rest)) as (E & Ho & Ht).
  eexists _, _. split; [exact E|]. split; [exact Ho|]. intros [|fuel] Hf; [lia|]. cbn [nodeRead]. rewrite Ht.
  erewrite elog_Ok by (apply letter_token; [done|]; by apply spaced_ends). rewrite !one_char, Ascii.eqb_refl.
  change ("o" =? "i")%char with false. cbn iota.
  erewrite bind_Ok by (eapply numbers_read; [eapply Forall_impl; [exact Hl|apply oid_item]|exact Hf]). by destruct l.
Qed.

(** Nodes with a space between two of them. *)
Fixpoint separated (ws : list text) : text :=
  match ws with
  | [] => []
  | [w] => w
  | w :: ws => w ++ space :: separated ws
  end.

Lemma separated_cons w ws : ws ≠ [] → separated (w :: ws) = w ++ space :: separated ws.
Proof. by destruct ws. Qed.

Lemma reads_node_nonempty w r : reads_node w r → w ≠ [].
Proof. intros H ->. by destruct (H [] Logic.I) as (tok & s1 & E & _). Qed.

Lemma node_list_reads ws rs : Forall2 reads_node ws rs → ws ≠ [] → ∀ fuel k acc rest,
  Forall (λ w, (length w < fuel)%nat) ws → (length ws < k)%nat →
  ∃ tok s1, pg_strtok (separated ws ++ ")"%char :: rest) = Ok (Some tok, s1) ∧ ordinary tok ∧
    read_node_list k (nodeRead fuel) tok acc s1 = Ok (acc ++ rs, rest).
Proof.
  induction 1 as [|w r ws rs Hw Hws IH]; [done|]. intros _ fuel [|k] acc rest Hf Hk; [cbn in Hk; lia|].
  apply Forall_cons in Hf as [Hfw Hf]. destruct (decide (ws = [])) as [->|Hne].
  - apply Forall2_nil_inv_l in Hws as ->. cbn [separated].
    destruct (Hw (")"%char :: rest)) as (tok & s1 & E & Ho & Hn); [done|]. exists tok, s1. split; [done|]. split; [done|].
    cbn [read_node_list]. rewrite (proj1 Ho). erewrite bind_Ok by by apply Hn. erewrite elog_Ok by by apply strtok_paren.
    destruct k as [|k]; [cbn in Hk; lia|]. done.
  - rewrite separated_cons, <- app_assoc, <- app_comm_cons by done.
    destruct (Hw (space :: separated ws ++ ")"%char :: rest)) as (tok & s1 & E & Ho & Hn); [done|].
    exists tok, s1. split; [done|]. split; [done|]. cbn [read_node_list]. rewrite (proj1 Ho).
    erewrite bind_Ok by by apply Hn.
    destruct (IH Hne fuel k (acc ++ [r]) rest Hf ltac:(cbn in Hk; lia)) as (tok' & s1' & E' & _ & El).
    erewrite elog_Ok by (rewrite strtok_space; exact E'). rewrite El. by rewrite <- app_assoc.
Qed.

Lemma separated_length (ws : list text) : Forall (λ w : text, w ≠ []) ws → (length ws ≤ length (separated ws))%nat ∧
  Forall (λ w : text, (length w ≤ length (separated ws))%nat) ws.
Proof.
  induction 1 as [|w ws Hw _ [IH1 IH2]]; [by split|]. assert (1 ≤ length w)%nat as Hl by (destruct w; [done|cbn; lia]).
  destruct (decide (ws = [])) as [->|Hne]; [split; [cbn; lia|by constructor]|].
  rewrite separated_cons, length_app by done. cbn [length]. split; [lia|]. constructor; [lia|].
  eapply Forall_impl; [exact IH2|]. cbn. lia.
Qed.

Lemma nodes_read ws rs : Forall2 reads_node ws rs → ws ≠ [] →
  reads_node ("("%char :: separated ws ++ [")"%char]) (TList rs).
Proof.
  intros Hall Hne rest Hr. rewrite <- app_comm_cons, <- app_assoc.
  destruct (list_head (separated ws ++ [")"%char] ++ rest)) as (E & Ho & Ht).
  eexists _, _. split; [exact E|]. split; [exact Ho|]. intros [|fuel] Hf; [lia|]. cbn [nodeRead]. rewrite Ht.
  assert (Forall (λ w : text, w ≠ []) ws) as Hws.
  { clear -Hall. induction Hall as [|w r ws rs Hw _ IH]; constructor; [by eapply reads_node_nonempty|done]. }
  destruct (separated_length ws Hws) as [H1 H2]. cbn [length] in Hf. rewrite length_app in Hf. cbn [length] in Hf.
  destruct (node_list_reads ws rs Hall Hne fuel fuel [] rest) as (tok & s1 & E' & (_ & Hi & Hoid) & El).
  - eapply Forall_impl; [exact H2|]. cbn. lia.
  - lia.
  - erewrite elog_Ok by exact E'. rewrite Hi, Hoid. erewrite bind_Ok by exact El.
    destruct rs; [by apply Forall2_nil_inv_r in Hall|done].
Qed.

(** Sets. *)
Lemma set_ok_spec a : set_ok a = true → bms_ok a ∧ int_sized a.
Proof.
  unfold set_ok. intros [Hw%forallb_Forall Hl]%andb_true_iff. split.
  - eapply Forall_impl; [exact Hw|]. intros w [H1%Z.leb_le H2%Z.ltb_lt]%andb_true_iff. done.
  - unfold int_sized. destruct (Z.ltb_spec (nwords (words a)) (2 ^ 26)); [lia|]. apply andb_true_iff in Hl as [Hl%Z.eqb_eq _]. lia.
Qed.

Lemma set_ok_below a y : set_ok a = true → inb (words a) y = true → y < INT_MAX.
Proof.
  intros Hok Hy. pose proof (set_ok_spec a Hok) as [Ha _]. pose proof (inb_range _ y Ha Hy) as Hr.
  unfold set_ok in Hok. apply andb_true_iff in Hok as [_ Hl]. destruct (Z.ltb_spec (nwords (words a)) (2 ^ 26)).
  - unfold INT_MAX. lia.
  - apply andb_true_iff in Hl as [Hl%Z.eqb_eq Hn%negb_true_iff]. assert (y ≠ INT_MAX) by congruence. unfold INT_MAX in *. lia.
Qed.

Lemma enum_bound a : (length (enum (words a) 0) ≤ 32 * length (words a))%nat.
Proof.
  unfold enum. etrans; [apply length_filter|]. rewrite length_seqZ. unfold nwords. lia.
Qed.

Lemma enum_items a : bms_ok a → int_sized a → Forall (λ x, 0 ≤ x ∧ int_ok x = true) (enum (words a) 0).
Proof.
  intros Ha Hs. apply Forall_forall. intros x Hx. assert (0 ≤ x ≤ INT_MAX) as Hm.
  { apply (member_int a); [done..|]. rewrite <- enum_members. by apply elem_of_list_to_set. }
  split; [lia|]. unfold int_ok, INT32_MIN, INT32_MAX, INT_MAX in *. apply andb_true_iff. rewrite !Z.leb_le. lia.
Qed.

Lemma add_all_ok l : Forall (λ x, 0 ≤ x) l → ∀ a, bms_ok a →
  ∃ r, add_all l a = Ok r ∧ stands_for r (list_to_set l ∪ members a).
Proof.
  induction 1 as [|x l Hx _ IH]; intros a Ha; cbn [add_all].
  - exists a. split; [done|]. eapply stands_for_eq; [by apply stands_for_self|]. set_solver.
  - destruct (add_member_stands a x Ha Hx) as (p & -> & Hp & Hm). destruct (IH p Hp) as (r & -> & Hr).
    exists r. split; [done|]. eapply stands_for_eq; [exact Hr|]. rewrite Hm. set_solver.
Qed.

(** A set is read back with its members. *)
Lemma rebuilt_ok a : set_ok a = true → add_all (enum (words a) 0) None = Ok (rebuilt a) ∧ stands_for (rebuilt a) (members a).
Proof.
  intros [Ha Hs]%set_ok_spec. pose proof (enum_items a Ha Hs) as He.
  destruct (add_all_ok (enum (words a) 0)) with (a := @None Bitmapset) as (r & E & Hr); [|constructor|].
  { eapply Forall_impl; [exact He|]. by intros x []. }
  unfold rebuilt. rewrite E. split; [done|]. eapply stands_for_eq; [exact Hr|]. rewrite enum_members, members_None. set_solver.
Qed.

Lemma set_writes a : set_ok a = true → writes (outBitmapset a) (number_list "b" print_int (enum (words a) 0)).
Proof.
  intros Hok str. pose proof (set_ok_spec a Hok) as [Ha Hs]. unfold outBitmapset. erewrite bind_Ok by apply writes_string. erewrite bind_Ok by apply writes_string.
  erewrite bind_Ok.
  2: { unfold of_res. rewrite next_loop_ok; [reflexivity|done|intros y; by apply set_ok_below|unfold INT_MAX; lia|]. pose proof (enum_bound a). change (-1 + 1) with 0. unfold words in *. lia. }
  erewrite bind_Ok by (apply (writes_each _ (λ z, space :: print_int z)); intros x _; apply (writes_bind _ _ [space]); done).
  rewrite (writes_string ")"). change (-1 + 1) with 0. unfold number_list, spaced. by rewrite <- !app_assoc.
Qed.

Lemma set_loop_reads l : Forall (λ x, int_ok x = true) l → ∀ fuel a r rest, (length l < fuel)%nat → add_all l a = Ok r →
  readBitmapset_loop fuel a (spaced print_int l ++ ")"%char :: rest) = Ok (r, rest).
Proof.
  induction 1 as [|z l Hz _ IH]; intros [|fuel] a r rest Hf E; try (cbn in Hf; lia); cbn [readBitmapset_loop].
  - injection E as ->. by erewrite elog_Ok by by apply strtok_paren.
  - change (spaced print_int (z :: l)) with (space :: print_int z ++ spaced print_int l). rewrite <- app_comm_cons, <- app_assoc.
    destruct (int_item z Hz (spaced print_int l ++ ")"%char :: rest)) as (tok & Et & Hc & Hv); [by apply spaced_ends|].
    erewrite elog_Ok by (rewrite strtok_space; exact Et). unfold is_one_char. rewrite Hc, andb_false_r.
    erewrite bind_Ok by (unfold of_res; by rewrite Hv). cbn [add_all] in E. destruct (bms_add_member a z) as [a'|]; [|done].
    erewrite bind_Ok by reflexivity. apply IH; [cbn in Hf; lia|done].
Qed.

Lemma set_reads a fuel : set_ok a = true → (length (number_list "b" print_int (enum (words a) 0)) < fuel)%nat →
  reads (readBitmapset fuel) (number_list "b" print_int (enum (words a) 0)) (rebuilt a).
Proof.
  intros Ha Hf rest Hr. destruct (rebuilt_ok a Ha) as [E _]. apply set_ok_spec in Ha as [Ha Hs].
  unfold readBitmapset, number_list. rewrite <- !app_comm_cons, <- app_assoc.
  erewrite elog_Ok by by apply strtok_paren. rewrite one_char, Ascii.eqb_refl. cbn [negb].
  erewrite elog_Ok by (apply letter_token; [done|]; by apply spaced_ends). rewrite one_char, Ascii.eqb_refl. cbn [negb].
  apply set_loop_reads; [|pose proof (spaced_length print_int (enum (words a) 0)); unfold number_list in Hf; cbn in Hf; rewrite length_app in Hf; lia|done].
  eapply Forall_impl; [exact (enum_items a Ha Hs)|]. by intros x [].
Qed.

(** ** Data *)

Definition byte_texts (bytes : list Z) : text := concat (map (λ b, print_int b ++ [space]) bytes).

Definition datum_text (len : Z) (bytes : list Z) : text :=
  print_unsigned len ++ lit_text " [ " ++ byte_texts bytes ++ lit_text "]".

Lemma int8_int b : int8_ok b = true → int_ok b = true ∧ to_signed 8 b = b.
Proof.
  unfold int8_ok, int_ok, INT32_MIN, INT32_MAX. rewrite !andb_true_iff, !Z.leb_le, Z.ltb_lt. intros Hb.
  split; [lia|]. apply to_signed_id; cbn; lia.
Qed.

Lemma bytes_read bytes t : forallb int8_ok bytes = true →
  read_bytes (length bytes) (space :: byte_texts bytes ++ t) = Ok (bytes, space :: t).
Proof.
  induction bytes as [|b bytes IH]; [done|]. cbn [forallb length read_bytes]. intros [Hb Hl]%andb_true_iff.
  destruct (int8_int b Hb) as [Hi Hs].
  assert (byte_texts (b :: bytes) ++ t = print_int b ++ space :: byte_texts bytes ++ t) as -> by (unfold byte_texts; cbn; by rewrite <- !app_assoc).
  erewrite deref_Ok by (rewrite strtok_space; by apply strtok_int). erewrite bind_Ok by by apply IH.
  cbn [tok_text]. by rewrite atoi_print, Hs.
Qed.

Lemma expect_reads c : plain_char c = true → reads (expect c) [c] ().
Proof.
  intros Hc rest Hr. unfold expect. erewrite elog_Ok by (by apply letter_token).
  unfold is_char, first_char. cbn [tok_text]. by rewrite Ascii.eqb_refl.
Qed.

Lemma datum_head len bytes rest {A} (k : token → M text A) : uint_ok len = true →
  bind strtok_deref k (datum_text len bytes ++ rest) =
    k (mkToken (datum_text len bytes ++ rest) (length (print_unsigned len)))
      (lit_text " [ " ++ byte_texts bytes ++ lit_text "]" ++ rest) ∧ atoui (datum_text len bytes ++ rest) = len.
Proof.
  intros Hlen. unfold datum_text. rewrite <- !app_assoc. split; [|by apply atoui_print].
  erewrite deref_Ok; [reflexivity|]. apply strtok_uint; [|done]. apply andb_true_iff in Hlen as [H _]. lia.
Qed.

(** The length, the brackets and what is between them. *)
Lemma readDatum_reads (typbyval : bool) len bytes d : uint_ok len = true →
  (∀ t, (if typbyval then
           if sizeof_Datum <? len then fail EElog
           else bytes <- read_bytes (Z.to_nat sizeof_Datum);; ret (ByValue bytes)
         else if len <=? 0 then ret (ByReference None)
         else bytes <- read_bytes (Z.to_nat len);; ret (ByReference (Some bytes)))
     (space :: byte_texts bytes ++ t) = Ok (d, space :: t)) →
  reads (readDatum typbyval) (datum_text len bytes) d.
Proof.
  intros Hlen Hd rest Hr. unfold readDatum.
  match goal with |- bind strtok_deref ?k _ = _ => destruct (datum_head len bytes rest k Hlen) as [-> Ha] end.
  cbn [tok_text]. rewrite Ha. change (lit_text " [ ") with (space :: "["%char :: [space]). rewrite <- !app_comm_cons, app_nil_l.
  erewrite bind_Ok by (exact (expect_reads "["%char eq_refl (space :: byte_texts bytes ++ lit_text "]" ++ rest) (ends_space _))).
  erewrite bind_Ok by exact (Hd _). by erewrite bind_Ok by (exact (expect_reads "]"%char eq_refl rest Hr)).
Qed.

Lemma outDatum_writes d typlen typbyval len bytes : datumGetSize d typbyval typlen = Ok len → uint_ok len = true →
  match d with
  | ByValue b => b = bytes
  | ByReference (Some b) => b = bytes ∧ len = Z.of_nat (length bytes)
  | ByReference None => False
  end →
  writes (outDatum d typlen typbyval) (datum_text len bytes).
Proof.
  intros Hs Hlen Hb. assert (writes (outUint (to_uint len);;; append " [ ";;; out_each (λ b, outInt b;;; append " ") bytes;;; append "]")
    (datum_text len bytes)) as Hw.
  { rewrite to_uint_id by done. apply writes_bind; [done|]. apply writes_bind; [done|]. apply writes_bind; [|done].
    apply writes_each. intros x _. by apply writes_bind. }
  intros str. unfold outDatum. erewrite bind_Ok by (unfold of_res; by rewrite Hs).
  destruct d as [b|[b|]]; [by subst| |done]. destruct Hb as [-> ->]. rewrite Z.ltb_irrefl, Nat2Z.id, firstn_all. apply Hw.
Qed.

Lemma datum_stores d typlen typbyval : datum_ok typbyval typlen d = true →
  ∃ w, writes (outDatum d typlen typbyval) w ∧ reads (readDatum typbyval) w d.
Proof.
  destruct typbyval, d as [bytes|[bytes|]]; cbn [datum_ok]; try done.
  - rewrite !andb_true_iff, Z.eqb_eq, !Z.leb_le. intros [[[Hb Hl] H0] H8]. unfold sizeof_Datum in *.
    assert (uint_ok typlen = true) as Hu by (unfold uint_ok; rewrite andb_true_iff, Z.leb_le, Z.ltb_lt; lia).
    exists (datum_text typlen bytes). split; [by apply outDatum_writes|]. apply readDatum_reads; [done|]. intros t.
    unfold sizeof_Datum. rewrite (proj2 (Z.ltb_ge 8 typlen)) by lia. erewrite bind_Ok; [reflexivity|].
    replace (Z.to_nat 8) with (length bytes) by lia. by apply bytes_read.
  - rewrite !andb_true_iff, !Z.ltb_lt, bool_decide_eq_true. intros [[[Hb H0] Hl] Hs]. set (len := Z.of_nat (length bytes)) in *.
    assert (uint_ok len = true) as Hu by (unfold uint_ok; rewrite andb_true_iff, Z.leb_le, Z.ltb_lt; lia).
    exists (datum_text len bytes). split; [by apply outDatum_writes|]. apply readDatum_reads; [done|]. intros t.
    rewrite (proj2 (Z.leb_gt len 0)) by lia. erewrite bind_Ok; [reflexivity|]. subst len. rewrite Nat2Z.id. by apply bytes_read.
  - intros Hl. exists (datum_text 0 []). split.
    + intros str. unfold outDatum, datumGetSize. by rewrite Hl.
    + by apply readDatum_reads.
Qed.

(** ** Fields *)

Definition name_ok (fl : field) : bool := word (lit_text (field_name fl)).

Definition label_text (fl : field) : text := lit_text " :" ++ lit_text (field_name fl) ++ [space].

Lemma label_reads fl v : name_ok fl = true → pg_strtok (label_text fl ++ v) =
  Ok (Some (mkToken (":"%char :: lit_text (field_name fl) ++ [space] ++ v) (S (length (lit_text (field_name fl))))), space :: v).
Proof.
  intros Hn. unfold label_text. change (lit_text " :") with [space; ":"%char].
  rewrite <- !app_assoc. cbn [app]. rewrite strtok_space.
  apply (strtok_sealed (":"%char :: lit_text (field_name fl))); [done|by apply word_sealed|by intros [=]|done].
Qed.

Section Fields.
Context (n : fields) (outChild : string → M text ()) (node : string → tree).

(** The value of a field is written and read. *)
Definition stores (fl : field) : Prop := ∃ v, writes (write_field n outChild fl) (label_text fl ++ v) ∧
  ∀ fuel, (length v < fuel)%nat → ∀ rest, ends rest →
    read_value fuel (nodeRead_next fuel) fl (space :: v ++ rest) = Ok (stored_value n node fl, rest).

Lemma stores_intro fl v (m : M text ()) : writes m v →
  (∀ str, write_field n outChild fl str = (append " :";;; append (field_name fl);;; append " ";;; m) str) →
  (∀ fuel, (length v < fuel)%nat → ∀ rest, ends rest →
    read_value fuel (nodeRead_next fuel) fl (space :: v ++ rest) = Ok (stored_value n node fl, rest)) → stores fl.
Proof.
  intros Hm Hw Hr. exists v. split; [|done]. intros str. rewrite Hw. unfold label_text. rewrite <- !app_assoc.
  do 3 (apply writes_bind; [done|]). exact Hm.
Qed.

Lemma next_space fuel v rest : nodeRead_next fuel (space :: v ++ rest) = nodeRead_next fuel (v ++ rest).
Proof. unfold nodeRead_next, bind. by rewrite strtok_space. Qed.

Lemma bool_word b : word (lit_text (booltostr b)) = true.
Proof. by destruct b. Qed.

(** A field whose value is one token. *)
Lemma stores_token fl v (m : M text ()) (get : token → fval) : writes m v → sealed v = true → v ≠ [] → v ≠ null_word →
  (∀ str, write_field n outChild fl str = (append " :";;; append (field_name fl);;; append " ";;; m) str) →
  (∀ fuel rest, ends rest → read_value fuel (nodeRead_next fuel) fl (space :: v ++ rest) =
    (token <- strtok_deref;; ret (get token)) (space :: v ++ rest)) →
  (∀ rest, ends rest → get (mkToken (v ++ rest) (length v)) = stored_value n node fl) → stores fl.
Proof.
  intros Hm Hs Hne Hnull Hw Hr Hg. apply (stores_intro _ v m); [done..|]. intros fuel _ rest He. rewrite Hr by done.
  erewrite deref_Ok by (rewrite strtok_space; by apply strtok_sealed). by rewrite Hg.
Qed.

Lemma int_token z : sealed (print_int z) = true ∧ print_int z ≠ [] ∧ print_int z ≠ null_word.
Proof.
  destruct (print_int_word z) as (Hw & Hne & Hc). split; [by apply word_sealed|]. split; [done|].
  intros E. by rewrite E in Hc.
Qed.

Lemma uint_token z : uint_ok z = true → sealed (print_unsigned z) = true ∧ print_unsigned z ≠ [] ∧ print_unsigned z ≠ null_word.
Proof. intros [Hz%Z.leb_le _]%andb_true_iff. rewrite print_unsigned_int by done. apply int_token. Qed.

Lemma int16_int z : int16_ok z = true → int_ok z = true ∧ to_signed 16 z = z.
Proof.
  unfold int16_ok, int_ok, INT32_MIN, INT32_MAX. rewrite !andb_true_iff, !Z.leb_le, Z.ltb_lt. intros Hz.
  split; [lia|]. apply to_signed_id; cbn; lia.
Qed.

Lemma char_code z : 0 < z < 256 → code (ascii_of_N (Z.to_N z)) = z.
Proof. intros Hz. unfold code. rewrite N_ascii_embedding; lia. Qed.

Lemma nullable_some (v rest : text) : v ≠ [] → nullable_string (mkToken (v ++ rest) (length v)) = Some (debackslash v).
Proof. intros Hv. unfold nullable_string, tok_chars. cbn [tok_text tok_len]. rewrite take_app_length. by destruct v. Qed.

Lemma string_stores f : stores (STRING_FIELD f).
Proof.
  apply (stores_intro _ (outToken (string_of f n)) (append_text (outToken (string_of f n)))); [done..|].
  intros fuel _ rest Hr. cbn [read_value stored_value]. unfold bind. rewrite strtok_space.
  destruct (string_of f n) as [[|c s]|] eqn:E; [change (outToken (Some [])) with null_word; by rewrite strtok_null| |
    change (outToken None) with null_word; by rewrite strtok_null].
  destruct (outToken_some (c :: s)) as (Hne & Hs & Hnull & Hd); [done|].
  rewrite strtok_sealed by done. rewrite nullable_some by done. unfold ret. do 3 f_equal. by f_equal.
Qed.

Lemma set_stores f : set_ok (bitmapset_of f n) = true → stores (BITMAPSET_FIELD f).
Proof.
  intros Ha. eapply stores_intro; [by apply set_writes|done|]. intros fuel Hf rest Hr. cbn [read_value].
  assert (∀ s, readBitmapset fuel (space :: s) = readBitmapset fuel s) as Hsp by done.
  unfold bind. rewrite Hsp. by rewrite (set_reads _ fuel Ha Hf rest Hr).
Qed.

Lemma field_stores fl : field_ok n (λ _, true) fl = true →
  (∀ f, fl = NODE_FIELD f → ∃ w, writes (outChild f) w ∧ reads_node w (node f)) → stores fl.
Proof.
  intros Hok Hchild. destruct fl as [f|f|f|f|f|f|f|f|f|f|f]; cbn [field_ok] in Hok.
  - destruct (int_token (int_of f n)) as (? & ? & ?). eapply stores_token; [by apply writes_text|done..|]. intros rest Hr.
    cbn [tok_text]. by rewrite atoi_print.
  - destruct (int_token (int_of f n)) as (? & ? & ?), (int16_int _ Hok) as [Hi Hs].
    eapply stores_token; [by apply writes_text|done..|]. intros rest Hr. cbn [tok_text]. by rewrite atoi_print, Hs.
  - destruct (uint_token _ Hok) as (? & ? & ?). eapply stores_token; [by apply writes_text|done..|]. intros rest Hr.
    cbn [tok_text]. by rewrite atoui_print.
  - destruct (uint_token _ Hok) as (? & ? & ?). eapply stores_token; [by apply writes_text|done..|]. intros rest Hr.
    cbn [tok_text]. change atooid with atoui. by rewrite atoui_print.
  - rewrite !andb_true_iff, !Z.ltb_lt in Hok. destruct Hok as [Hz Hp].
    apply (stores_token _ [ascii_of_N (Z.to_N (int_of f n))] (append_char (ascii_of_N (Z.to_N (int_of f n))))
      (λ t, VInt (code (first_char t)))); [done| |done..|].
    + apply word_sealed. unfold word, forallb. by rewrite Hp.
    + intros rest Hr. unfold first_char. cbn [tok_text app stored_value]. by rewrite char_code.
  - destruct (int_token (int_of f n)) as (? & ? & ?). eapply stores_token; [by apply writes_text|done..|]. intros rest Hr.
    cbn [tok_text]. by rewrite atoi_print.
  - apply (stores_token _ (lit_text (booltostr (bool_of f n))) (append (booltostr (bool_of f n))) (λ t, VBool (strtobool t)));
      [done|apply word_sealed, bool_word|by destruct (bool_of f n)..|done|done|].
    intros rest Hr. cbn [stored_value]. by destruct (bool_of f n).
  - apply string_stores.
  - destruct (int_token (int_of f n)) as (? & ? & ?). eapply stores_intro; [by apply writes_text|done|].
    intros fuel _ rest Hr. cbn [read_value]. erewrite bind_Ok; [reflexivity|]. rewrite strtok_space. by apply strtok_sealed.
  - destruct (Hchild f eq_refl) as (w & Hw & Hn). eapply stores_intro; [exact Hw|done|]. intros fuel Hf rest Hr. cbn [read_value].
    erewrite bind_Ok; [reflexivity|]. rewrite next_space. by apply (reads_node_next w).
  - by apply set_stores.
Qed.

(** A sequence of fields is written, and read after the fields in [acc]. *)
Definition stores_all (l : list field) : Prop := ∃ w, writes (write_fields n outChild l) w ∧
  (∀ rest, ends rest → ends (w ++ rest)) ∧
  ∀ fuel, (length w < fuel)%nat → ∀ acc rest, ends rest →
    read_fields fuel (nodeRead_next fuel) l acc (w ++ rest) = Ok (acc ++ stored_fields n node l, rest).

Lemma fields_stores l : forallb name_ok l = true → Forall stores l → stores_all l.
Proof.
  intros Hn. induction 1 as [|fl l (v & Hv & Hr) _ IH].
  - exists []. split; [apply writes_ret|]. split; [done|]. intros fuel _ acc rest _. cbn. by rewrite app_nil_r.
  - cbn in Hn. apply andb_true_iff in Hn as [Hn1 Hn]. destruct (IH Hn) as (w & Hw & He & Hrd). exists ((label_text fl ++ v) ++ w).
    split; [by apply writes_bind|]. split; [done|]. intros fuel Hf acc rest Hrest. rewrite !length_app in Hf.
    cbn [read_fields]. unfold read_field. rewrite !bind_assoc, <- !app_assoc.
    erewrite bind_Ok by by apply label_reads. rewrite bind_assoc. erewrite bind_Ok by (apply Hr; [lia|by apply He]).
    erewrite bind_Ok by reflexivity. unfold set_field. rewrite Hrd by (lia || done). by rewrite <- app_assoc.
Qed.
End Fields.
