(* ===== verification/NodeProps.v ===== *)
(** Structs and trees: what [nodeToString] writes, [stringToNode] reads. *)

From S2P Require Import Prelude NodeText NodeTree NodeSchema NodeOut NodeRead NodeTextProps NodeStore NodeRoundtrip.
From S2P Require Import Bitmapset.

#[local] Open Scope string_scope.
#[local] Open Scope list_scope.
#[local] Open Scope Z_scope.

(** ** Structs *)

(** The functions that consist of macros write and read the same fields. *)
Lemma macros_agree n outChild fuel next tag o : outFunction n outChild tag = Macros o →
  readFunction fuel next tag = Macros o.2 ∧ lookup_field o.1 labels = Some (Some tag) ∧
  word (lit_text o.1) = true ∧ o.1 ≠ ""%string ∧ forallb name_ok o.2 = true ∧ written_fields tag n = o.2 ∧
  ∀ node, stored_struct tag n node = stored_fields n node o.2.
Proof. destruct tag; intros [= <-]; done. Qed.

Section Structs.
Context (n : fields) (outChild : string → M text ()) (node : string → tree).

(** The body of a struct: its label and its fields. *)
Definition struct_stores (tag : NodeTag) : Prop := ∃ label w,
  writes (outStruct n outChild tag) (lit_text label ++ w) ∧ (∀ rest, ends rest → ends (w ++ rest)) ∧
  lookup_field label labels = Some (Some tag) ∧ word (lit_text label) = true ∧ label ≠ ""%string ∧
  ∀ fuel, (length w < fuel)%nat → ∀ rest, ends rest →
    readStruct fuel (nodeRead_next fuel) tag (w ++ rest) = Ok (Struct tag (stored_struct tag n node), rest).

Lemma macros_store tag o : outFunction n outChild tag = Macros o → Forall (stores n outChild node) (written_fields tag n) →
  struct_stores tag.
Proof.
  intros E Hst. destruct (macros_agree n outChild 0 (fail EFuel) tag o E) as (_ & Hl & Hw & Hne & Hn & Hwf & Hss).
  rewrite Hwf in Hst. destruct (fields_stores _ _ _ _ Hn Hst) as (w & Hws & He & Hr).
  exists o.1, w. split; [|split_and!; [done..|]].
  - unfold outStruct. rewrite E. by apply writes_bind.
  - intros fuel Hf rest Hrest. unfold readStruct. destruct (macros_agree n outChild fuel (nodeRead_next fuel) tag o E) as [-> _].
    unfold read_node. erewrite bind_Ok by by apply Hr. by rewrite Hss.
Qed.

Lemma write_fields_app l1 l2 str : write_fields n outChild (l1 ++ l2) str = (write_fields n outChild l1;;; write_fields n outChild l2) str.
Proof.
  revert str. induction l1 as [|fl l1 IH]; intros str; [done|]. unfold write_fields in *. cbn [app out_each].
  rewrite bind_assoc. apply bind_ext. intros a s. apply IH.
Qed.

Lemma writes_unique (m : M text ()) w w' : writes m w → writes m w' → w = w'.
Proof. intros H1 H2. specialize (H1 []). rewrite H2 in H1. by injection H1. Qed.

Lemma query_stores : (∀ f, node_of f n = NULL_ptr → outChild f = append "<>") →
  code_ok T_Query n = true → Forall (stores n outChild node) (written_fields T_Query n) → struct_stores T_Query.
Proof.
  intros Hnull Hc Hst. destruct (fields_stores n outChild node readQuery eq_refl Hst) as (w & Hw & He & Hr).
  exists "QUERY", w. split; [|split_and!; [done..|]].
  - change (writes (outQuery n outChild) (lit_text "QUERY" ++ w)). apply writes_bind; [done|]. intros str. rewrite <- Hw.
    change readQuery with (take 3 readQuery ++ [NODE_FIELD "utilityStmt"] ++ drop 4 readQuery).
    rewrite write_fields_app. apply bind_ext. intros [] s. rewrite write_fields_app. cbn [code_ok] in Hc.
    destruct (node_of "utilityStmt" n) as [| | | | | | | |[] ?] eqn:E; try done.
    assert (write_fields n outChild [NODE_FIELD "utilityStmt"] s = append " :utilityStmt <>" s) as Hu.
    { unfold write_fields, out_each, write_field. rewrite (Hnull _ E).
      unfold append, append_text, modify, bind, ret. by rewrite <- !app_assoc. }
    unfold bind. by rewrite Hu.
  - intros fuel Hf rest Hrest. unfold readStruct. cbn [readFunction]. unfold read_node. by erewrite bind_Ok by by apply Hr.
Qed.

(** The token before a value that is read by code of its own. *)
Lemma label_skip (l : string) {A} (k : option token → M text A) v : word (lit_text l) = true → ∃ tok,
  bind pg_strtok k (lit_text " :" ++ lit_text l ++ [space] ++ v) = k tok (space :: v).
Proof.
  intros Hl. eexists. erewrite bind_Ok; [reflexivity|]. pose proof (label_reads (INT_FIELD l) v Hl) as H.
  unfold label_text in H. rewrite <- !app_assoc in H. exact H.
Qed.

Lemma const_stores : code_ok T_Const n = true → Forall (stores n outChild node) (written_fields T_Const n) → struct_stores T_Const.
Proof.
  intros Hc Hst. apply fields_stores in Hst as (w & Hw & He & Hr); [|done].
  assert (∃ v, writes (if bool_of "constisnull" n then append "<>"
                       else outDatum (datum_of "constvalue" n) (int_of "constlen" n) (bool_of "constbyval" n)) v ∧
    ∀ l rest, bool_of "constisnull" l = bool_of "constisnull" n → bool_of "constbyval" l = bool_of "constbyval" n → ends rest →
    (if bool_of "constisnull" l then pg_strtok;;; ret (Struct T_Const l)
     else d <- readDatum (bool_of "constbyval" l);; ret (Struct T_Const (set_field "constvalue" (VDatum d) l))) (space :: v ++ rest) =
    Ok (Struct T_Const (if bool_of "constisnull" n then l else l ++ [("constvalue", VDatum (datum_of "constvalue" n))]), rest))
    as (v & Hv & Hrv).
  { cbn [code_ok] in Hc. destruct (bool_of "constisnull" n).
    - exists null_word. split; [done|]. intros l rest -> _ Hrest. by erewrite bind_Ok by (rewrite strtok_space; by apply strtok_null).
    - destruct (datum_stores _ _ _ Hc) as (v & Hv & Hd). exists v. split; [done|]. intros l rest -> -> Hrest.
      assert (∀ b s, readDatum b (space :: s) = readDatum b s) as Hsp by done.
      unfold bind. rewrite Hsp. by rewrite (Hd rest Hrest). }
  exists "CONST", (w ++ lit_text " :" ++ lit_text "constvalue" ++ [space] ++ v). split; [|split_and!; [|done..|]].
  - change (writes (outConst n outChild) (lit_text "CONST" ++ w ++ lit_text " :" ++ lit_text "constvalue" ++ [space] ++ v)).
    rewrite app_assoc. apply writes_bind; [by apply writes_bind|]. by apply (writes_bind _ _ (lit_text " :constvalue ")).
  - intros rest Hrest. rewrite <- app_assoc. by apply He.
  - intros fuel Hf rest Hrest. rewrite length_app in Hf. unfold readStruct. cbn [readFunction]. unfold readConst.
    rewrite <- app_assoc. erewrite bind_Ok by (apply Hr; [lia|done]). rewrite <- !app_assoc.
    match goal with |- bind pg_strtok ?k _ = _ => destruct (label_skip "constvalue" k (v ++ rest) eq_refl) as [tok ->] end.
    by rewrite Hrv.
Qed.

Lemma boolop_cases : code_ok T_BoolExpr n = true → ∃ s, boolop_str (int_of "boolop" n) = Some s ∧
  ∀ rest, ends rest → pg_strtok (lit_text s ++ rest) = Ok (Some (mkToken (lit_text s ++ rest) (length (lit_text s))), rest) ∧
  ∀ len, read_boolop (mkToken (lit_text s ++ rest) len) = Ok (int_of "boolop" n).
Proof.
  cbn [code_ok]. rewrite andb_true_iff, !Z.leb_le. intros Hb.
  assert (int_of "boolop" n = 0 ∨ int_of "boolop" n = 1 ∨ int_of "boolop" n = 2) as [->|[->| ->]] by lia;
    (eexists; split; [reflexivity|]; intros rest Hr; split; [by apply strtok_sealed|done]).
Qed.

Lemma boolexpr_stores : code_ok T_BoolExpr n = true → Forall (stores n outChild node) (written_fields T_BoolExpr n) →
  struct_stores T_BoolExpr.
Proof.
  intros Hc Hst. apply fields_stores in Hst as (w & Hw & He & Hr); [|done].
  destruct (boolop_cases Hc) as (s & Hs & Hb).
  exists "BOOLEXPR", (lit_text " :" ++ lit_text "boolop" ++ [space] ++ lit_text s ++ w). split; [|split_and!; [done..|]].
  - change (writes (outBoolExpr n outChild) (lit_text "BOOLEXPR" ++ lit_text " :boolop " ++ lit_text s ++ w)).
    apply writes_bind; [done|]. apply writes_bind; [done|]. apply writes_bind; [|done]. rewrite Hs.
    cbn [code_ok] in Hc. unfold boolop_str in Hs. repeat case_match; by simplify_eq.
  - intros fuel Hf rest Hrest. rewrite !length_app in Hf. unfold readStruct. cbn [readFunction]. unfold readBoolExpr.
    rewrite <- !app_assoc.
    match goal with |- bind pg_strtok ?k _ = _ => destruct (label_skip "boolop" k (lit_text s ++ w ++ rest) eq_refl) as [tok ->] end.
    destruct (Hb (w ++ rest) (He rest Hrest)) as [Et Hv]. erewrite deref_Ok by (rewrite strtok_space; exact Et).
    erewrite bind_Ok by (unfold of_res; by rewrite Hv). by erewrite bind_Ok by (apply Hr; [lia|done]).
Qed.

Lemma rte_kinds k l : outRangeTblEntry_kind k = Some l → readRangeTblEntry_kind k = Some l ∧ forallb name_ok l = true.
Proof. unfold outRangeTblEntry_kind. repeat case_match; intros [= <-]; done. Qed.

Lemma rte_stores : code_ok T_RangeTblEntry n = true → Forall (stores n outChild node) (written_fields T_RangeTblEntry n) →
  struct_stores T_RangeTblEntry.
Proof.
  cbn [code_ok]. intros [l Hl]%bool_decide_eq_true Hst. unfold written_fields in Hst. cbn [outFunction] in Hst. rewrite Hl in Hst.
  destruct (rte_kinds _ _ Hl) as [Hk Hn]. apply Forall_app in Hst as [H1 [H2 H3]%Forall_app]. cbn [default] in H2.
  apply fields_stores in H1 as (w1 & Hw1 & He1 & Hr1); [|done]. apply fields_stores in H2 as (w2 & Hw2 & He2 & Hr2); [|done].
  apply fields_stores in H3 as (w3 & Hw3 & He3 & Hr3); [|done].
  exists "RTE", (w1 ++ w2 ++ w3). split; [|split_and!; [|done..|]].
  - change (writes (outRangeTblEntry n outChild) (lit_text "RTE" ++ w1 ++ w2 ++ w3)). unfold outRangeTblEntry. rewrite Hl.
    rewrite app_assoc. apply writes_bind; [by apply writes_bind|]. by apply writes_bind.
  - intros rest Hrest. rewrite <- !app_assoc. by apply He1, He2, He3.
  - intros fuel Hf rest Hrest. rewrite !length_app in Hf. unfold readStruct. cbn [readFunction]. unfold readRangeTblEntry.
    rewrite <- !app_assoc. erewrite bind_Ok by (apply Hr1; [lia|by apply He2, He3]).
    change (int_of "rtekind" _) with (int_of "rtekind" n). rewrite Hk. erewrite bind_Ok by (apply Hr2; [lia|by apply He3]).
    erewrite bind_Ok by (apply Hr3; [lia|done]). unfold stored_struct, written_fields. cbn [outFunction]. rewrite Hl.
    unfold stored_fields. rewrite !map_app. cbn [default makeNode]. by rewrite app_nil_l, <- app_assoc.
Qed.

Lemma structs_store tag : (∀ f, node_of f n = NULL_ptr → outChild f = append "<>") →
  code_ok tag n = true → Forall (stores n outChild node) (written_fields tag n) → struct_stores tag.
Proof.
  intros Hnull Hc Hst. destruct (outFunction n outChild tag) as [o|c] eqn:E; [by eapply macros_store|].
  destruct tag; try discriminate E; [by apply query_stores|by apply const_stores|by apply boolexpr_stores|by apply rte_stores].
Qed.

(** A struct with its braces. *)
Lemma struct_reads tag : struct_stores tag → ∃ w, writes (append "{";;; outStruct n outChild tag;;; append "}") w ∧
  reads_node w (Struct tag (stored_struct tag n node)).
Proof.
  intros (label & w & Hw & He & Hl & Hword & Hne & Hr). exists ("{"%char :: (lit_text label ++ w) ++ ["}"%char]). split.
  { apply (writes_bind _ _ ["{"%char]); [done|]. by apply writes_bind. }
  intros rest Hrest. eexists _, _. rewrite <- app_comm_cons, <- !app_assoc. split; [by apply strtok_paren|]. split; [done|].
  intros [|fuel] Hf; [lia|]. cbn [length] in Hf. rewrite !length_app in Hf. cbn [nodeRead].
  change (nodeTokenType _) with LEFT_BRACE. cbv iota. unfold parseNodeString. rewrite bind_assoc.
  assert (lit_text label ≠ [] ∧ lit_text label ≠ null_word) as [Hn1 Hn2].
  { destruct label as [|c label]; [done|]. split; [done|]. intros E. apply (f_equal String.string_of_list_ascii) in E.
    unfold lit_text in E. rewrite String.string_of_list_ascii_of_string in E. rewrite E in Hl. done. }
  erewrite elog_Ok by (apply strtok_sealed; [done|by apply word_sealed|done|by apply He]).
  unfold tok_chars. cbn [tok_text tok_len]. rewrite take_app_length. unfold lit_text at 1.
  rewrite String.string_of_list_ascii_of_string, Hl.
  erewrite bind_Ok by (apply (Hr fuel); [lia|done]).
  erewrite elog_Ok by by apply strtok_paren. done.
Qed.
End Structs.

(** ** Trees *)

Fixpoint out_nodes (l : list tree) : M text () :=
  match l with
  | [] => ret ()
  | x :: l' => outNode x;;; match l' with [] => ret () | _ => append " " end;;; out_nodes l'
  end.

Lemma out_nodes_writes l ws : Forall2 (λ x w, writes (outNode x) w) l ws → writes (out_nodes l) (separated ws).
Proof.
  induction 1 as [|x w l ws Hx Hl IH]; [apply writes_ret|]. cbn [out_nodes]. destruct Hl as [|y w' l ws Hy Hl].
  - cbn [separated]. rewrite <- (app_nil_r w). apply writes_bind; [done|]. by apply (writes_bind _ _ [] []).
  - rewrite separated_cons by done. apply writes_bind; [done|]. by apply (writes_bind _ _ [space]).
Qed.

(** Every tree is written as the text of what is read back. *)
Definition node_stores (t : tree) : Prop := ∃ w, writes (outNode t) w ∧ reads_node w (stored t).

Lemma list_stores l : l ≠ [] → Forall node_stores l → node_stores (TList l).
Proof.
  intros Hne Hl. assert (∃ ws, Forall2 (λ x w, writes (outNode x) w) l ws ∧ Forall2 reads_node ws (map stored l)) as (ws & Hw & Hr).
  { clear Hne. induction Hl as [|x l (w & Hw & Hr) _ (ws & IH1 & IH2)]; [by exists []|]. exists (w :: ws). by split; constructor. }
  exists ("("%char :: separated ws ++ [")"%char]). split.
  - change (writes (append "(";;; out_nodes l;;; append ")") (["("%char] ++ separated ws ++ [")"%char])).
    apply writes_bind; [done|]. apply writes_bind; [by apply out_nodes_writes|done].
  - apply nodes_read; [done|]. intros ->. by apply Forall2_nil_inv_r in Hw.
Qed.

Lemma numbers_store letter item l :
  writes (append "(";;; (append_text [letter];;; out_each (λ z, append " ";;; append_text (item z)) l);;; append ")") (number_list letter item l).
Proof.
  apply (writes_bind _ _ ["("%char]); [done|]. rewrite app_comm_cons. apply writes_bind; [|done].
  apply (writes_bind _ _ [letter]); [done|]. apply writes_each. intros x _. by apply (writes_bind _ _ [space]).
Qed.

Lemma struct_node_stores tag n : (∀ f, storable (node_of f n) = true → node_stores (node_of f n)) →
  storable (Struct tag n) = true → node_stores (Struct tag n).
Proof.
  intros Hch. cbn [storable]. intros [Hc Hf]%andb_true_iff. apply struct_reads, structs_store; [|done|].
  - intros f Hf'. change (child (append "<>") outNode n f = append "<>"). rewrite child_node by done. by rewrite Hf'.
  - apply forallb_Forall in Hf. eapply Forall_impl; [exact Hf|]. intros fl Hfl. apply field_stores; [by destruct fl|].
    intros f ->. change (child true storable n f = true) in Hfl. change (child NULL_ptr _ _ f) with (child NULL_ptr stored n f).
    rewrite child_node in Hfl by done. rewrite child_node by done. destruct (Hch f Hfl) as (w & Hw & Hr).
    exists w. split; [|done]. change (writes (child (append "<>") outNode n f) w). by rewrite child_node.
Qed.

Lemma tree_stores t : storable t = true → node_stores t.
Proof.
  induction t as [|z|s|s|s|l IH|l|l|tag n IH] using tree_ind'; intros Ht.
  - exists null_word. split; [done|apply null_reads].
  - exists (print_int z). split; [done|by apply integer_reads].
  - exists s. split; [done|by apply float_reads].
  - exists (quoted s). split; [|apply string_reads]. apply (writes_bind _ _ [quote]); [done|].
    apply writes_bind; [|done]. destruct s; [apply writes_ret|done].
  - done.
  - apply list_stores; [by intros ->|]. cbn [storable] in Ht. destruct l as [|x l]; [done|]. apply forallb_Forall in Ht.
    eapply Forall_impl; [exact (proj2 (Forall_and _ _) (conj IH Ht))|]. cbn. intros y [Hy1 Hy2]. by apply Hy1.
  - exists (number_list "i" print_int l). cbn [storable] in Ht. split; [apply numbers_store|].
    destruct l; [done|]. by apply ints_read.
  - exists (number_list "o" print_unsigned l). cbn [storable] in Ht. split; [apply numbers_store|].
    destruct l; [done|]. by apply oids_read.
  - apply struct_node_stores; [|done]. intros f. apply (node_of_Forall (λ t, storable t = true → node_stores t)); [|exact IH].
    intros _. exists null_word. split; [done|apply null_reads].
Qed.

Lemma writes_toString t w : writes (outNode t) w → nodeToString t = Ok w.
Proof. intros Hw. unfold nodeToString. by rewrite Hw. Qed.

Lemma reads_string w r fuel : reads_node w r → (length w < fuel)%nat → stringToNode fuel w = Ok r.
Proof.
  intros Hr Hf. unfold stringToNode. pose proof (reads_node_next w r fuel Hr Hf [] Logic.I) as E.
  rewrite app_nil_r in E. by rewrite E.
Qed.

(** C16: what [nodeToString] writes of a [storable] tree, [stringToNode] reads back.  Storable
    trees have no bit strings and no empty lists; their numbers are in the ranges of the C
    types, a float is a word that the lexer takes for one, char fields hold a character
    other than NUL, white space, delimiters and the backslash, sets are sets of ints below
    INT_MAX, the bytes of constants have the length that their type asks for, rtekind and
    boolop are known, and a utilityStmt is NULL, NOTIFY or DECLARE CURSOR.  The text exists,
    and with fuel above its length the reader returns the [stored] form of the tree, which
    differs from the tree in its locations (-1), in the fields that are not written (absent),
    in empty strings (NULL) and in set words without members (dropped). *)
Theorem stringToNode_nodeToString t : storable t = true →
  ∃ s, nodeToString t = Ok s ∧ ∀ fuel, (length s < fuel)%nat → stringToNode fuel s = Ok (stored t).
Proof.
  intros Ht. destruct (tree_stores t Ht) as (w & Hw & Hr). exists w. split; [by apply writes_toString|].
  intros fuel Hf. by apply reads_string.
Qed.

(** A condition of the form that the hooks log: a = 1 AND b IS NOT NULL. *)
Definition logged_quals : tree :=
  Struct T_BoolExpr
    [("boolop", VInt 0); ("location", VInt 40);
     ("args", VNode (TList
       [Struct T_OpExpr
          [("opno", VInt 96); ("opfuncid", VInt 65); ("opresulttype", VInt 16);
           ("args", VNode (TList
              [Struct T_Var [("varno", VInt 1); ("varattno", VInt 1); ("vartype", VInt 23); ("vartypmod", VInt (-1))];
               Struct T_Const
                 [("consttype", VInt 23); ("constlen", VInt 4); ("constbyval", VBool true);
                  ("constvalue", VDatum (ByValue [1; 0; 0; 0; 0; 0; 0; 0]))]]))];
        Struct T_NullTest
          [("arg", VNode (Struct T_Var [("varno", VInt 1); ("varattno", VInt 2); ("vartype", VInt 23)]));
           ("nulltesttype", VInt 1)]]))].

Lemma stringToNode_nodeToString_witness :
  ∃ s, nodeToString logged_quals = Ok s ∧ ∀ fuel, (length s < fuel)%nat → stringToNode fuel s = Ok (stored logged_quals).
Proof. apply stringToNode_nodeToString. vm_compute. reflexivity. Defined.

(** ** Bit strings *)

Lemma bit_token c (s : text) : word (c :: s) = true → c :: s ≠ null_word →
  nodeToString (TBitString (c :: s)) = Ok (c :: s) ∧
  ∀ fuel, stringToNode (S fuel) (c :: s) = match nodeRead (S fuel) (mkToken (c :: s) (S (length s))) [] with
                                           | Ok (t, _) => Ok t
                                           | Err e => Err e
                                           end.
Proof.
  intros Hw Hn. split; [done|]. intros fuel.
  assert (pg_strtok (c :: s) = Ok (Some (mkToken (c :: s) (S (length s))), [])) as E.
  { pose proof (strtok_sealed (c :: s) []) as E. rewrite app_nil_r in E. apply E; [done|by apply word_sealed|done|done]. }
  unfold stringToNode, nodeRead_next. by rewrite (bind_Ok _ _ _ _ _ E).
Qed.

(** The type of a word that starts with one of the two letters. *)
Lemma letter_type c (s : text) len : c = "b"%char ∨ c = "x"%char → nodeTokenType (mkToken (c :: s) (S len)) =
  if (c =? "b")%char then T_BitString else OTHER_TOKEN.
Proof.
  intros Hc. assert (looks_numeric (mkToken (c :: s) (S len)) = false) as Hn.
  { unfold looks_numeric. cbn [tok_text tok_len]. destruct Hc as [-> | ->]; cbn; by destruct (match len with O => _ | S _ => _ end). }
  unfold nodeTokenType. rewrite Hn. by destruct Hc as [-> | ->].
Qed.

(** C22: bit strings do not survive: the scanner keeps the letter of a bit string literal as
    its first character and the text form has it too, but the reader takes a leading b
    away, and it does not take a word that starts with x for a bit string at all. *)
Theorem bit_strings_not_stored (s : text) fuel : word s = true →
  nodeToString (TBitString ("b"%char :: s)) = Ok ("b"%char :: s) ∧
  stringToNode (S fuel) ("b"%char :: s) = Ok (TBitString s) ∧
  nodeToString (TBitString ("x"%char :: s)) = Ok ("x"%char :: s) ∧
  stringToNode (S fuel) ("x"%char :: s) = Err EElog.
Proof.
  intros Hs. destruct (bit_token "b" s Hs ltac:(done)) as [H1 H2], (bit_token "x" s Hs ltac:(done)) as [H3 H4].
  split; [done|]. split; [|split; [done|rewrite H4]]; [rewrite H2|]; cbn [nodeRead]; rewrite letter_type by (by left + by right); [|done].
  unfold ret, tok_chars. cbn [tok_text tok_len take tail]. by rewrite take_ge.
Qed.

Lemma bit_strings_not_stored_witness :
  nodeToString (TBitString (lit_text "b101")) = Ok (lit_text "b101") ∧
  stringToNode 5 (lit_text "b101") = Ok (TBitString (lit_text "101")) ∧
  nodeToString (TBitString (lit_text "x101")) = Ok (lit_text "x101") ∧
  stringToNode 5 (lit_text "x101") = Err EElog.
Proof. exact (bit_strings_not_stored (lit_text "101") 4 eq_refl). Defined.
