(* ===== verification/NodeTotal.v ===== *)
(** The reader on every string, not only on what the output functions write: it comes to an
    end, and fuel that is as large as the string is long decides nothing about the result.

    Two runs of the same code with different fuel are compared: on strings up to a bound
    they give the same, do not run out of fuel, and leave a string that is not longer. *)

From S2P Require Import Prelude NodeText NodeTree NodeSchema NodeRead Bitmapset.

#[local] Open Scope nat_scope.

(** ** Runs that agree *)

Definition agree {A} (b : nat) (m m' : M text A) : Prop := ∀ s, length s ≤ b →
  m s = m' s ∧ match m s with Ok (_, s') => length s' ≤ length s | Err e => e ≠ EFuel end.

Lemma agree_mono {A} b b' (m m' : M text A) : b' ≤ b → agree b m m' → agree b' m m'.
Proof. intros Hb Hm s Hs. apply Hm. lia. Qed.

Lemma agree_ret {A} b (a : A) : agree b (ret a) (ret a).
Proof. intros s _. cbn. split; [done|lia]. Qed.

Lemma agree_fail {A} b e : e ≠ EFuel → agree b (fail e : M text A) (fail e).
Proof. by intros He s _. Qed.

Lemma agree_res {A} b (r : res A) : (∀ e, r = Err e → e ≠ EFuel) → agree b (of_res r) (of_res r).
Proof. intros Hr s _. split; [done|]. unfold of_res. destruct r; [cbn; lia|]. by apply Hr. Qed.

Lemma agree_bind {A B} b (m m' : M text A) (k k' : A → M text B) :
  agree b m m' → (∀ a, agree b (k a) (k' a)) → agree b (bind m k) (bind m' k').
Proof.
  intros Hm Hk s Hs. destruct (Hm s Hs) as [E Hl]. unfold bind. rewrite <- E. destruct (m s) as [[a s1]|e]; [|done].
  destruct (Hk a s1) as [E2 Hl2]; [lia|]. split; [done|]. destruct (k a s1) as [[b' s2]|]; [lia|done].
Qed.

(** ** Tokens *)

Lemma skip_ws_length s : length (skip_ws s) ≤ length s.
Proof. induction s as [|c s IH]; [done|]. cbn. destruct (is_ws c); cbn; lia. Qed.

Lemma skip_ws_head s c s' : skip_ws s = c :: s' → is_ws c = false.
Proof. induction s as [|d s IH]; [done|]. cbn. destruct (is_ws d) eqn:E; [done|]. by intros [= -> _]. Qed.

(** A token takes at least one character. *)
Lemma strtok_shorter s :
  (∃ tok s', pg_strtok s = Ok (Some tok, s') ∧ length s' < length s) ∨ pg_strtok s = Ok (None, []).
Proof.
  unfold pg_strtok. pose proof (skip_ws_length s) as Hl. destruct (skip_ws s) as [|c s'] eqn:E; [by right|left].
  eexists _, _. split; [done|]. apply skip_ws_head in E. rewrite length_drop. cbn [length] in *.
  destruct (is_paren c) eqn:Ep; [lia|]. cbn [token_length]. unfold delimits. rewrite E, Ep. cbn [orb].
  destruct (c =? backslash)%char; [destruct s'|]; lia.
Qed.

Section Strtok.
Context {A : Type} (b : nat).

Lemma agree_strtok (k k' : option token → M text A) :
  (0 < b → ∀ tok, agree (b - 1) (k (Some tok)) (k' (Some tok))) → agree b (k None) (k' None) →
  agree b (bind pg_strtok k) (bind pg_strtok k').
Proof.
  intros Hsome Hnone s Hs. unfold bind. destruct (strtok_shorter s) as [(tok & s' & -> & Hl)| ->].
  - destruct (Hsome ltac:(lia) tok s') as [E Hr]; [lia|]. split; [done|]. destruct (k (Some tok) s') as [[a s2]|]; [lia|done].
  - destruct (Hnone []) as [E Hr]; [cbn; lia|]. split; [done|]. destruct (k None []) as [[a s2]|]; [cbn in Hr; lia|done].
Qed.

Lemma agree_elog (k k' : token → M text A) : (0 < b → ∀ tok, agree (b - 1) (k tok) (k' tok)) →
  agree b (bind strtok_or_elog k) (bind strtok_or_elog k').
Proof.
  intros Hk s Hs. unfold strtok_or_elog. rewrite !bind_assoc. revert s Hs. apply agree_strtok; [|by apply agree_fail].
  intros Hb tok. exact (Hk Hb tok).
Qed.

Lemma agree_deref (k k' : token → M text A) : (0 < b → ∀ tok, agree (b - 1) (k tok) (k' tok)) →
  agree b (bind strtok_deref k) (bind strtok_deref k').
Proof.
  intros Hk s Hs. unfold strtok_deref. rewrite !bind_assoc. revert s Hs. apply agree_strtok; [|by apply agree_fail].
  intros Hb tok. exact (Hk Hb tok).
Qed.
End Strtok.

#[local] Hint Resolve agree_ret agree_fail : core.

(** ** Sets, data and lists *)

Lemma whole_int_res tok e : whole_int tok = Err e → e ≠ EFuel.
Proof. unfold whole_int. destruct (strtol _) as [[v r] k]. by destruct (k =? tok_len tok); intros [= <-]. Qed.

Lemma whole_oid_res tok e : whole_oid tok = Err e → e ≠ EFuel.
Proof. unfold whole_oid. destruct (strtoul _) as [v k]. by destruct (k =? tok_len tok); intros [= <-]. Qed.

Lemma add_member_res a x e : bms_add_member a x = Err e → e ≠ EFuel.
Proof. unfold bms_add_member, bms_make_singleton. destruct (x <? 0)%Z; [by intros [= <-]|]. by destruct a. Qed.

#[local] Hint Resolve whole_int_res whole_oid_res add_member_res : core.

Lemma set_loop_agree b : ∀ f f' a, b < f → b < f' → agree b (readBitmapset_loop f a) (readBitmapset_loop f' a).
Proof.
  induction b as [b IH] using lt_wf_ind. intros [|f] [|f'] a Hf Hf'; [lia..|]. cbn [readBitmapset_loop].
  apply agree_elog. intros Hb tok. destruct (is_one_char tok ")"); [done|].
  apply agree_bind; [apply agree_res; eauto|]. intros v. apply agree_bind; [apply agree_res; eauto|]. intros a'. apply IH; lia.
Qed.

Lemma set_agree b f f' : b ≤ f → b ≤ f' → agree b (readBitmapset f) (readBitmapset f').
Proof.
  intros Hf Hf'. unfold readBitmapset. apply agree_elog. intros Hb tok. destruct (negb _); [by apply agree_fail|].
  apply agree_elog. intros Hb' tok'. destruct (negb _); [by apply agree_fail|]. apply set_loop_agree; lia.
Qed.

Lemma bytes_agree n : ∀ b, agree b (read_bytes n) (read_bytes n).
Proof. induction n as [|n IH]; intros b; [apply agree_ret|]. cbn [read_bytes]. apply agree_deref. intros _ tok. by apply agree_bind. Qed.

Lemma expect_agree b c : agree b (expect c) (expect c).
Proof. apply agree_elog. intros _ tok. destruct (is_char tok c); [done|by apply agree_fail]. Qed.

Lemma datum_agree b typbyval : agree b (readDatum typbyval) (readDatum typbyval).
Proof.
  unfold readDatum. apply agree_deref. intros _ tok. apply agree_bind; [apply expect_agree|]. intros _.
  apply agree_bind; [|intros d; apply agree_bind; [apply expect_agree|done]].
  destruct typbyval, (_ : bool); [by apply agree_fail|by apply agree_bind; [apply bytes_agree|]|done|by apply agree_bind; [apply bytes_agree|]].
Qed.

Lemma int_list_agree read b : (∀ tok e, read tok = Err e → e ≠ EFuel) →
  ∀ f f' l, b < f → b < f' → agree b (read_int_list f read l) (read_int_list f' read l).
Proof.
  intros Hread. induction b as [b IH] using lt_wf_ind. intros [|f] [|f'] l Hf Hf'; [lia..|]. cbn [read_int_list].
  apply agree_elog. intros Hb tok. destruct (is_char tok ")"); [done|].
  apply agree_bind; [apply agree_res; eauto|]. intros v. apply IH; lia.
Qed.

Lemma node_list_agree nr nr' b : (∀ tok, agree b (nr tok) (nr' tok)) →
  ∀ f f' tok l, b < f → b < f' → agree b (read_node_list f nr tok l) (read_node_list f' nr' tok l).
Proof.
  induction b as [b IH] using lt_wf_ind. intros Hnr [|f] [|f'] tok l Hf Hf'; [lia..|]. cbn [read_node_list].
  destruct (is_char tok ")"); [done|]. apply agree_bind; [done|]. intros x. apply agree_elog. intros Hb tok'.
  apply IH; [lia| |lia|lia]. intros t. by eapply agree_mono; [|apply Hnr]; lia.
Qed.

(** ** Structs *)

Section Structs.
Context (b f f' : nat) (next next' : M text tree).
Context (Hf : b ≤ f) (Hf' : b ≤ f') (Hnext : agree b next next').

Lemma value_agree fl : agree b (read_value f next fl) (read_value f' next' fl).
Proof.
  destruct fl; cbn [read_value]; try (apply agree_deref; intros _ tok; apply agree_ret);
    try (apply agree_strtok; [intros _ tok|]; apply agree_ret).
  - by apply agree_bind.
  - apply agree_bind; [by apply set_agree|done].
Qed.

Lemma skip_agree {A} (k k' : option token → M text A) : (∀ t, agree b (k t) (k' t)) →
  agree b (bind pg_strtok k) (bind pg_strtok k').
Proof. intros Hk. apply agree_strtok; [|done]. intros _ tok. eapply agree_mono; [|apply Hk]. lia. Qed.

Lemma fields_agree l : ∀ n, agree b (read_fields f next l n) (read_fields f' next' l n).
Proof.
  induction l as [|fl l IH]; intros n; [apply agree_ret|]. cbn [read_fields]. apply agree_bind; [|done]. unfold read_field.
  apply skip_agree. intros _. apply agree_bind; [apply value_agree|done].
Qed.

Lemma struct_agree tag : agree b (readStruct f next tag) (readStruct f' next' tag).
Proof.
  assert (∀ l, agree b (read_node f next tag l) (read_node f' next' tag l)) as Hm
    by (intros l; apply agree_bind; [apply fields_agree|done]).
  unfold readStruct. destruct tag; cbn [readFunction]; try apply Hm.
  - unfold readConst. apply agree_bind; [apply fields_agree|]. intros n. apply skip_agree. intros _.
    destruct (bool_of _ n); [by apply skip_agree|]. apply agree_bind; [apply datum_agree|done].
  - unfold readBoolExpr. apply skip_agree. intros _. apply agree_deref. intros _ tok. eapply agree_mono; [apply Nat.le_sub_l|].
    apply agree_bind; [apply agree_res|intros v; apply agree_bind; [apply fields_agree|done]].
    unfold read_boolop. intros e. repeat case_match; by intros [= <-].
  - unfold readRangeTblEntry. apply agree_bind; [apply fields_agree|]. intros n. apply agree_bind; [|intros n'].
    + destruct (readRangeTblEntry_kind _); [apply fields_agree|by apply agree_fail].
    + apply agree_bind; [apply fields_agree|done].
Qed.

Lemma parse_agree : agree b (parseNodeString f next) (parseNodeString f' next').
Proof.
  apply agree_elog. intros _ tok. eapply agree_mono; [apply Nat.le_sub_l|].
  destruct (lookup_field _ labels) as [[tag|]|]; [apply struct_agree|by apply agree_fail..].
Qed.
End Structs.

(** ** Nodes *)

Lemma next_agree b f f' : (0 < b → ∀ tok, agree (b - 1) (nodeRead f tok) (nodeRead f' tok)) →
  agree b (nodeRead_next f) (nodeRead_next f').
Proof. intros H. by apply agree_strtok. Qed.

Lemma node_agree b : ∀ f f' tok, b < f → b < f' → agree b (nodeRead f tok) (nodeRead f' tok).
Proof.
  induction b as [b IH] using lt_wf_ind. intros [|f] [|f'] tok Hf Hf'; [lia..|]. cbn [nodeRead].
  assert (∀ b', b' ≤ b → agree b' (nodeRead_next f) (nodeRead_next f')) as Hnext.
  { intros b' Hb'. apply next_agree. intros Hb t. apply IH; lia. }
  destruct (nodeTokenType tok); [done..| | | |].
  - by apply agree_fail.
  - apply agree_elog. intros Hb t. destruct (is_one_char t "i"), (is_one_char t "o");
      (apply agree_bind; [|intros r; apply agree_ret]); try (apply int_list_agree; [eauto|lia|lia]).
    apply node_list_agree; [|lia|lia]. intros t'. apply IH; lia.
  - apply agree_bind; [apply parse_agree; [lia|lia|by apply Hnext]|]. intros r. apply agree_elog. intros _ t.
    destruct (is_char t "}"); [done|by apply agree_fail].
  - destruct (tok_len tok =? 0); [done|by apply agree_fail].
Qed.

(** C19: the reader terminates on every string, well-formed or not: with fuel at least the
    length of the string it does not run out of fuel, and the result, a node or an error,
    does not depend on the fuel.  The labels of plan nodes, whose readers are not modelled,
    count as an error ([EUnmodelled]). *)
Theorem stringToNode_total s fuel fuel' : length s ≤ fuel → length s ≤ fuel' →
  stringToNode fuel s ≠ Err EFuel ∧ stringToNode fuel s = stringToNode fuel' s.
Proof.
  intros Hf Hf'. destruct (next_agree (length s) fuel fuel') with (s := s) as [E H]; [|done|].
  { intros Hb tok. apply node_agree; lia. }
  unfold stringToNode. rewrite <- E. destruct (nodeRead_next fuel s) as [[t s']|e]; [done|]. split; [|done]. by intros [= ->].
Qed.

(** A malformed string: the list is not closed. *)
Lemma stringToNode_total_witness :
  stringToNode 12 (lit_text "({ALIAS :ali") ≠ Err EFuel ∧
  stringToNode 12 (lit_text "({ALIAS :ali") = stringToNode 99 (lit_text "({ALIAS :ali").
Proof. apply stringToNode_total; apply Nat.leb_le; vm_compute; reflexivity. Defined.

(** The string ends where the value of a field is expected: strings may be missing, numbers
    are read through the NULL pointer that the lexer returns. *)
Example truncated_string : stringToNode 20 (lit_text "({ALIAS :ali") = Err EElog.
Proof. vm_compute. reflexivity. Qed.

Example truncated_number : stringToNode 20 (lit_text "{VAR :varno") = Err ENullDeref.
Proof. vm_compute. reflexivity. Qed.
