(* ===== verification/NodeTyped.v ===== *)
(** The types of what the reader returns, on every string: a struct has the fields of its
    type in their order, and a number fits the C type of its field. *)

From S2P Require Import Prelude NodeText NodeTree NodeSchema NodeRead NodeTextProps NodeStore.
From S2P Require Import Bitmapset BitWords BitSpec BitProps.

#[local] Open Scope string_scope.
#[local] Open Scope list_scope.
#[local] Open Scope Z_scope.

(** ** Well-typed trees *)

Definition value_typed (fl : field) (v : fval) : bool :=
  match fl, v with
  | INT_FIELD _, VInt z | ENUM_FIELD _, VInt z => int_ok z
  | INT16_FIELD _, VInt z => int16_ok z
  | UINT_FIELD _, VInt z | OID_FIELD _, VInt z => uint_ok z
  | CHAR_FIELD _, VInt z => (0 <=? z) && (z <? 256)
  | LOCATION_FIELD _, VInt z => z =? -1
  | BOOL_FIELD _, VBool _ | STRING_FIELD _, VString _ | NODE_FIELD _, VNode _ => true
  | BITMAPSET_FIELD _, VBitmapset a => forallb (λ w, (0 <=? w) && (w <? 2 ^ 32)) (words a)
  | _, _ => false
  end.

Fixpoint fields_typed (l : list field) (n : fields) : bool :=
  match l, n with
  | [], [] => true
  | fl :: l, (f, v) :: n => String.eqb f (field_name fl) && value_typed fl v && fields_typed l n
  | _, _ => false
  end.

Definition datum_typed (typbyval : bool) (d : datum) : bool :=
  match typbyval, d with
  | true, ByValue bytes => forallb int8_ok bytes && (Z.of_nat (length bytes) =? sizeof_Datum)
  | false, ByReference None => true
  | false, ByReference (Some bytes) =>
      forallb int8_ok bytes && (0 <? Z.of_nat (length bytes)) && (Z.of_nat (length bytes) <? 2 ^ 32)
  | _, _ => false
  end.

Definition const_fields : list field :=
  [OID_FIELD "consttype"; INT_FIELD "consttypmod"; OID_FIELD "constcollid"; INT_FIELD "constlen";
   BOOL_FIELD "constbyval"; BOOL_FIELD "constisnull"; LOCATION_FIELD "location"].

Definition rte_head : list field := [NODE_FIELD "alias"; NODE_FIELD "eref"; ENUM_FIELD "rtekind"].

Definition rte_tail : list field :=
  [BOOL_FIELD "lateral"; BOOL_FIELD "inh"; BOOL_FIELD "inFromCl"; UINT_FIELD "requiredPerms";
   OID_FIELD "checkAsUser"; BITMAPSET_FIELD "selectedCols"; BITMAPSET_FIELD "insertedCols";
   BITMAPSET_FIELD "updatedCols"; NODE_FIELD "securityQuals"].

(** A constant has a value unless it is null; the fields of a range table entry are those
    of its kind. *)
Definition struct_typed (tag : NodeTag) (n : fields) : bool :=
  match tag with
  | T_Const =>
      fields_typed const_fields (take 7 n) &&
      match drop 7 n with
      | [] => bool_of "constisnull" n
      | [(f, VDatum d)] =>
          String.eqb f "constvalue" && negb (bool_of "constisnull" n) && datum_typed (bool_of "constbyval" n) d
      | _ => false
      end
  | T_BoolExpr =>
      match n with
      | (f, VInt op) :: n =>
          String.eqb f "boolop" && (0 <=? op) && (op <=? 2) && fields_typed [NODE_FIELD "args"; LOCATION_FIELD "location"] n
      | _ => false
      end
  | T_RangeTblEntry =>
      match readRangeTblEntry_kind (int_of "rtekind" n) with
      | Some l => fields_typed (rte_head ++ l ++ rte_tail) n
      | None => false
      end
  | _ => match readFunction 0 (fail EFuel) tag with
         | Macros l => fields_typed l n
         | Code _ => false
         end
  end.

Fixpoint well_typed (t : tree) : bool :=
  match t with
  | NULL_ptr | TFloat _ | TString _ | TBitString _ => true
  | TInteger z => int_ok z
  | TList l => match l with [] => false | _ => forallb well_typed l end
  | TIntList l => match l with [] => false | _ => forallb int_ok l end
  | TOidList l => match l with [] => false | _ => forallb uint_ok l end
  | Struct tag n => struct_typed tag n && forallb (λ p, match p.2 with VNode t => well_typed t | _ => true end) n
  end.

Definition children_typed (n : fields) : bool := forallb (λ p, match p.2 with VNode t => well_typed t | _ => true end) n.

(** ** What a computation returns *)

Definition gives {A} (m : M text A) (P : A → Prop) : Prop := ∀ s a s', m s = Ok (a, s') → P a.

Lemma gives_ret {A} (a : A) (P : A → Prop) : P a → gives (ret a) P.
Proof. intros Ha s b s' [= <- _]. done. Qed.

Lemma gives_fail {A} e (P : A → Prop) : gives (fail e) P.
Proof. by intros s a s' [=]. Qed.

Lemma gives_res {A} (r : res A) (P : A → Prop) : (∀ a, r = Ok a → P a) → gives (of_res r) P.
Proof. intros Hr s a s'. unfold of_res. destruct r; intros [= <- _]. by apply Hr. Qed.

Lemma gives_bind {A B} (m : M text A) (k : A → M text B) (P : A → Prop) Q :
  gives m P → (∀ a, P a → gives (k a) Q) → gives (bind m k) Q.
Proof. intros Hm Hk s b s' E. mstep E. eapply Hk; [by eapply Hm|done]. Qed.

Lemma gives_seq {A B} (m : M text A) (k : A → M text B) Q : (∀ a, gives (k a) Q) → gives (bind m k) Q.
Proof. intros Hk. eapply (gives_bind _ _ (λ _, True)); [done|]. intros a _. apply Hk. Qed.

(** ** Numbers *)

Lemma to_signed_range bits z : 0 < bits → - 2 ^ (bits - 1) ≤ to_signed bits z < 2 ^ (bits - 1).
Proof.
  intros Hb. unfold to_signed. assert (2 ^ bits = 2 * 2 ^ (bits - 1)) as E by (rewrite <- Z.pow_succ_r by lia; f_equal; lia).
  pose proof (Z.mod_pos_bound z (2 ^ bits) ltac:(lia)). destruct (Z.ltb_spec (z mod 2 ^ bits) (2 ^ (bits - 1))); lia.
Qed.

Lemma to_int_ok z : int_ok (to_int z) = true.
Proof.
  pose proof (to_signed_range 32 z ltac:(lia)) as H. unfold int_ok, to_int, INT32_MIN, INT32_MAX. cbn in H.
  apply andb_true_iff. rewrite !Z.leb_le. cbn. lia.
Qed.

Lemma to_signed_16 z : int16_ok (to_signed 16 z) = true.
Proof.
  pose proof (to_signed_range 16 z ltac:(lia)) as H. unfold int16_ok. cbn in H. apply andb_true_iff. rewrite Z.leb_le, Z.ltb_lt. cbn. lia.
Qed.

Lemma to_signed_8 z : int8_ok (to_signed 8 z) = true.
Proof.
  pose proof (to_signed_range 8 z ltac:(lia)) as H. unfold int8_ok. cbn in H. apply andb_true_iff. rewrite Z.leb_le, Z.ltb_lt. cbn. lia.
Qed.

Lemma to_uint_ok z : uint_ok (to_uint z) = true.
Proof.
  unfold uint_ok, to_uint. pose proof (Z.mod_pos_bound z (2 ^ 32) ltac:(lia)). apply andb_true_iff. rewrite Z.leb_le, Z.ltb_lt. lia.
Qed.

Lemma code_range c : (0 <=? code c) && (code c <? 256) = true.
Proof. unfold code. pose proof (N_ascii_bounded c). apply andb_true_iff. rewrite Z.leb_le, Z.ltb_lt. lia. Qed.

Lemma whole_int_ok tok z : whole_int tok = Ok z → int_ok z = true.
Proof. unfold whole_int. destruct (strtol _) as [[v r] k]. destruct (k =? tok_len tok)%nat; intros [= <-]. apply to_int_ok. Qed.

Lemma whole_oid_ok tok z : whole_oid tok = Ok z → uint_ok z = true.
Proof. unfold whole_oid. destruct (strtoul _) as [v k]. destruct (k =? tok_len tok)%nat; intros [= <-]. apply to_uint_ok. Qed.

(** A token that is taken for an integer has the value of an int. *)
Lemma integer_ok tok : nodeTokenType tok = T_Integer → int_ok (atol (tok_text tok)) = true.
Proof.
  unfold nodeTokenType, atol. destruct (looks_numeric tok); [|by repeat case_match].
  destruct (strtol (tok_text tok)) as [[v r] k]. destruct (v =? to_int v) eqn:E.
  - intros _. apply Z.eqb_eq in E. cbn. rewrite E. apply to_int_ok.
  - rewrite orb_true_r. done.
Qed.

(** ** Sets, data and lists *)

Lemma words_typed a : bms_ok a → forallb (λ w, (0 <=? w) && (w <? 2 ^ 32)) (words a) = true.
Proof.
  intros Ha. apply forallb_Forall. eapply Forall_impl; [exact Ha|]. intros w [H1 H2]. cbn.
  rewrite andb_true_iff, Z.leb_le, Z.ltb_lt. done.
Qed.

Lemma set_loop_ok fuel : ∀ a, bms_ok a → gives (readBitmapset_loop fuel a) bms_ok.
Proof.
  induction fuel as [|fuel IH]; intros a Ha; [apply gives_fail|]. cbn [readBitmapset_loop]. apply gives_seq. intros tok.
  destruct (is_one_char tok ")"); [by apply gives_ret|]. apply gives_seq. intros v.
  eapply gives_bind; [apply gives_res|exact IH]. intros a' E. destruct (Z.ltb_spec v 0) as [Hv|Hv].
  - unfold bms_add_member in E. by rewrite (proj2 (Z.ltb_lt v 0)) in E.
  - destruct (add_member_stands a v Ha Hv) as (p & E' & Hp & _). rewrite E in E'. by injection E' as ->.
Qed.

Lemma set_typed fuel : gives (readBitmapset fuel) bms_ok.
Proof.
  apply gives_seq. intros t1. destruct (negb _); [apply gives_fail|]. apply gives_seq. intros t2.
  destruct (negb _); [apply gives_fail|]. apply set_loop_ok. constructor.
Qed.

Lemma bytes_typed k : gives (read_bytes k) (λ bytes, length bytes = k ∧ forallb int8_ok bytes = true).
Proof.
  induction k as [|k IH]; [by apply gives_ret|]. cbn [read_bytes]. apply gives_seq. intros tok.
  eapply gives_bind; [exact IH|]. intros bytes [Hl Hb]. apply gives_ret. cbn. by rewrite Hl, Hb, to_signed_8.
Qed.

Lemma datum_gives typbyval : gives (readDatum typbyval) (λ d, datum_typed typbyval d = true).
Proof.
  apply gives_seq. intros tok. apply gives_seq. intros _. set (len := atoui (tok_text tok)).
  assert (uint_ok len = true) as [H0%Z.leb_le H1%Z.ltb_lt]%andb_true_iff by apply to_uint_ok.
  eapply gives_bind; [|intros d Hd; apply gives_seq; intros _; apply gives_ret; exact Hd]. destruct typbyval.
  - destruct (sizeof_Datum <? len); [apply gives_fail|]. eapply gives_bind; [apply bytes_typed|]. intros bytes [Hl Hb].
    apply gives_ret. cbn. by rewrite Hb, Hl.
  - destruct (Z.leb_spec len 0); [by apply gives_ret|]. eapply gives_bind; [apply bytes_typed|]. intros bytes [Hl Hb].
    apply gives_ret. cbn [datum_typed]. rewrite Hb, Hl, Z2Nat.id by lia. rewrite !andb_true_iff, !Z.ltb_lt. lia.
Qed.

Lemma int_list_typed (ok : Z → bool) read : (∀ tok z, read tok = Ok z → ok z = true) →
  ∀ fuel l, forallb ok l = true → gives (read_int_list fuel read l) (λ l, forallb ok l = true).
Proof.
  intros Hread fuel. induction fuel as [|fuel IH]; intros l Hl; [apply gives_fail|]. cbn [read_int_list]. apply gives_seq.
  intros tok. destruct (is_char tok ")"); [by apply gives_ret|].
  eapply gives_bind; [apply gives_res; apply Hread|]. intros z Hz. apply IH. rewrite forallb_app, Hl. cbn. by rewrite Hz.
Qed.

Lemma node_list_typed nr : (∀ tok, gives (nr tok) (λ t, well_typed t = true)) →
  ∀ fuel tok l, forallb well_typed l = true → gives (read_node_list fuel nr tok l) (λ l, forallb well_typed l = true).
Proof.
  intros Hnr fuel. induction fuel as [|fuel IH]; intros tok l Hl; [apply gives_fail|]. cbn [read_node_list].
  destruct (is_char tok ")"); [by apply gives_ret|]. eapply gives_bind; [apply Hnr|]. intros t Ht. apply gives_seq. intros tok'.
  apply IH. rewrite forallb_app, Hl. cbn. by rewrite Ht.
Qed.

(** ** Structs *)

Lemma fields_typed_app l1 l2 n1 n2 : fields_typed l1 n1 = true → fields_typed l2 n2 = true → fields_typed (l1 ++ l2) (n1 ++ n2) = true.
Proof.
  revert n1. induction l1 as [|fl l1 IH]; intros [|[f v] n1] H1 H2; try done. cbn in *. apply andb_true_iff in H1 as [-> H1].
  by apply IH.
Qed.

Lemma fields_typed_length l n : fields_typed l n = true → length n = length l.
Proof.
  revert n. induction l as [|fl l IH]; intros [|[f v] n] H; try done. cbn in *. apply andb_true_iff in H as [_ H]. f_equal. auto.
Qed.

Lemma children_app n1 n2 : children_typed n1 = true → children_typed n2 = true → children_typed (n1 ++ n2) = true.
Proof. intros H1 H2. unfold children_typed in *. by rewrite forallb_app, H1, H2. Qed.

Section Structs.
Context (fuel : nat) (next : M text tree) (Hnext : gives next (λ t, well_typed t = true)).

Lemma value_gives fl :
  gives (read_value fuel next fl) (λ v, value_typed fl v = true ∧ match v with VNode t => well_typed t = true | _ => True end).
Proof.
  destruct fl; cbn [read_value]; [apply gives_seq; intros tok; apply gives_ret; (split; [|done]); cbn [value_typed]..| |].
  - apply to_int_ok.
  - apply to_signed_16.
  - apply to_uint_ok.
  - apply to_uint_ok.
  - apply code_range.
  - apply to_int_ok.
  - done.
  - done.
  - done.
  - eapply gives_bind; [exact Hnext|]. intros t Ht. by apply gives_ret.
  - eapply gives_bind; [apply set_typed|]. intros a Ha. apply gives_ret. split; [by apply words_typed|done].
Qed.

(** The fields that are read are appended. *)
Lemma fields_gives l : ∀ n, gives (read_fields fuel next l n)
  (λ n', ∃ r, n' = n ++ r ∧ fields_typed l r = true ∧ children_typed r = true).
Proof.
  induction l as [|fl l IH]; intros n; [apply gives_ret; exists []; by rewrite app_nil_r|]. cbn [read_fields]. unfold read_field.
  eapply (gives_bind _ _ (λ n', ∃ v, n' = n ++ [(field_name fl, v)] ∧ value_typed fl v = true ∧ children_typed [(field_name fl, v)] = true)).
  - apply gives_seq. intros _. eapply gives_bind; [apply value_gives|]. intros v [Hv Ht]. apply gives_ret. exists v.
    split; [done|]. split; [done|]. cbn. destruct v; try done. by rewrite Ht.
  - intros n' (v & -> & Hv & Hc). intros s a s' E. destruct (IH _ s a s' E) as (r & -> & Hr & Hrc).
    exists ((field_name fl, v) :: r). rewrite <- app_assoc. split; [done|]. split; [|by apply (children_app [_])].
    cbn [fields_typed]. by rewrite String.eqb_refl, Hv.
Qed.

Lemma fields_fresh l : gives (read_fields fuel next l makeNode) (λ n, fields_typed l n = true ∧ children_typed n = true).
Proof. intros s a s' E. destruct (fields_gives l makeNode s a s' E) as (r & -> & H). done. Qed.

Lemma macros_typed tag l n : readFunction fuel next tag = Macros l → fields_typed l n = true → struct_typed tag n = true.
Proof. destruct tag; intros [= <-]; done. Qed.

Lemma const_typed n d : fields_typed const_fields n = true →
  struct_typed T_Const n = bool_of "constisnull" n ∧
  (bool_of "constisnull" n = false → datum_typed (bool_of "constbyval" n) d = true →
   struct_typed T_Const (set_field "constvalue" (VDatum d) n) = true).
Proof.
  intros Hn. pose proof (fields_typed_length _ _ Hn) as Hl. cbn in Hl.
  do 7 (destruct n as [|? n]; [done|]). destruct n; [|done]. unfold struct_typed.
  cbn [set_field app take drop]. rewrite Hn. split; [done|]. intros Hnull Hd.
  repeat match goal with p : string * fval |- _ => destruct p end. cbn in Hn. rewrite !andb_true_iff, !String.eqb_eq in Hn.
  destruct_and!. subst. unfold bool_of in *. cbn in *. by rewrite Hnull, Hd.
Qed.

(** The fields of a range table entry, read in three parts. *)
Lemma rte_typed n1 n2 n3 l : fields_typed rte_head n1 = true → readRangeTblEntry_kind (int_of "rtekind" n1) = Some l →
  fields_typed l n2 = true → fields_typed rte_tail n3 = true → struct_typed T_RangeTblEntry ((n1 ++ n2) ++ n3) = true.
Proof.
  intros H1 Hk H2 H3. unfold struct_typed. assert (int_of "rtekind" ((n1 ++ n2) ++ n3) = int_of "rtekind" n1) as ->.
  { pose proof (fields_typed_length _ _ H1) as Hl. do 3 (destruct n1 as [|[? ?] n1]; [done|]). destruct n1; [|done].
    cbn in H1. rewrite !andb_true_iff, !String.eqb_eq in H1. destruct_and!. by subst. }
  rewrite Hk, <- app_assoc. by repeat apply fields_typed_app.
Qed.

Lemma boolop_typed tok op : read_boolop tok = Ok op → (0 <=? op) && (op <=? 2) = true.
Proof. unfold read_boolop. repeat case_match; by intros [= <-]. Qed.

Lemma struct_gives tag : gives (readStruct fuel next tag) (λ t, well_typed t = true).
Proof.
  unfold readStruct. destruct (readFunction fuel next tag) as [l|c] eqn:E.
  - eapply gives_bind; [apply fields_fresh|]. intros n [Hn Hc]. apply gives_ret. cbn [well_typed].
    rewrite (macros_typed _ _ _ E Hn). exact Hc.
  - destruct tag; try discriminate E; injection E as <-.
    + eapply gives_bind; [apply fields_fresh|]. intros n [Hn Hc]. apply gives_seq. intros _.
      destruct (const_typed n (ByReference None) Hn) as [Hnull _]. destruct (bool_of "constisnull" n) eqn:En.
      * apply gives_seq. intros _. apply gives_ret. cbn [well_typed]. rewrite Hnull. exact Hc.
      * eapply gives_bind; [apply datum_gives|]. intros d Hd. apply gives_ret. cbn [well_typed].
        destruct (const_typed n d Hn) as [_ Hs]. rewrite (Hs En Hd). by apply (children_app n [_]).
    + apply gives_seq. intros _. apply gives_seq. intros tok. eapply gives_bind; [apply gives_res, boolop_typed|].
      intros op Hop. eapply gives_bind; [apply fields_gives|]. intros n (r & -> & Hr & Hc). apply gives_ret.
      change (well_typed _) with (("boolop" =? "boolop")%string && (0 <=? op) && (op <=? 2) &&
        fields_typed [NODE_FIELD "args"; LOCATION_FIELD "location"] r && children_typed r).
      by rewrite String.eqb_refl, <- !andb_assoc, (andb_assoc (0 <=? op)), Hop, Hr, Hc.
    + eapply gives_bind; [apply fields_fresh|]. intros n1 [H1 C1].
      destruct (readRangeTblEntry_kind (int_of "rtekind" n1)) as [l|] eqn:Ek; [|by intros s a s' [=]].
      eapply gives_bind; [apply fields_gives|]. intros n12 (n2 & -> & H2 & C2).
      eapply gives_bind; [apply fields_gives|]. intros n (n3 & -> & H3 & C3). apply gives_ret. cbn [well_typed].
      rewrite (rte_typed n1 n2 n3 l) by done. by repeat apply children_app.
Qed.

Lemma parse_gives : gives (parseNodeString fuel next) (λ t, well_typed t = true).
Proof. apply gives_seq. intros tok. destruct (lookup_field _ labels) as [[tag|]|]; [apply struct_gives|apply gives_fail..]. Qed.
End Structs.

(** ** Nodes *)

Lemma lists_typed l : (forallb int_ok l = true → well_typed (int_list l) = true) ∧
  (forallb uint_ok l = true → well_typed (oid_list l) = true).
Proof. by destruct l. Qed.

Lemma nodeRead_gives fuel : ∀ tok, gives (nodeRead fuel tok) (λ t, well_typed t = true).
Proof.
  induction fuel as [|fuel IH]; intros tok; [apply gives_fail|]. cbn [nodeRead].
  assert (gives (nodeRead_next fuel) (λ t, well_typed t = true)) as Hnext.
  { apply gives_seq. intros [t|]; [apply IH|by apply gives_ret]. }
  destruct (nodeTokenType tok) eqn:Et; try by apply gives_ret.
  - apply gives_ret. by apply integer_ok.
  - apply gives_fail.
  - apply gives_seq. intros t. destruct (is_one_char t "i"), (is_one_char t "o");
      [eapply gives_bind; [by apply (int_list_typed int_ok), eq_refl; apply whole_int_ok|]; intros l Hl; by apply gives_ret, lists_typed..| |].
    + eapply gives_bind; [by apply (int_list_typed uint_ok), eq_refl; apply whole_oid_ok|]. intros l Hl. by apply gives_ret, lists_typed.
    + eapply gives_bind; [by apply node_list_typed|]. intros l Hl. apply gives_ret. by destruct l.
  - eapply gives_bind; [by apply parse_gives|]. intros t Ht. apply gives_seq. intros t'.
    destruct (is_char t' "}"); [by apply gives_ret|apply gives_fail].
  - destruct (tok_len tok =? 0)%nat; [by apply gives_ret|apply gives_fail].
Qed.

(** C20: whatever the string, a tree that the reader returns is well typed: every struct has
    the fields of its type in their order with values of their kind, numbers are in the
    range of their C types, lists are not empty, sets have 32-bit words, constants have
    exactly the bytes that their passing convention asks for.  Nothing is said of strings
    with the label of a plan node, whose readers are not modelled ([EUnmodelled]). *)
Theorem stringToNode_typed fuel s t : stringToNode fuel s = Ok t → well_typed t = true.
Proof.
  unfold stringToNode. destruct (nodeRead_next fuel s) as [[t' s']|e] eqn:E; intros [= <-]. revert E.
  apply (gives_seq pg_strtok _ (λ t, well_typed t = true)). intros [tok|]; [apply nodeRead_gives|by apply gives_ret].
Qed.

(** Numbers out of range are wrapped around on input. *)
Lemma stringToNode_typed_witness : ∃ t, stringToNode 200 (lit_text "{RANGETBLREF :rtindex 99999999999999999999}") = Ok t ∧
  well_typed t = true.
Proof.
  exists (Struct T_RangeTblRef [("rtindex", VInt (-1))]). split; [vm_compute; reflexivity|].
  apply (stringToNode_typed 200 (lit_text "{RANGETBLREF :rtindex 99999999999999999999}")). vm_compute. reflexivity.
Defined.
