(* ===== verification/NodeFields.v ===== *)
(** The fields that copyfuncs.c copies and equalfuncs.c compares, in their order, for the
    node types whose functions consist of the COPY_..._FIELD and COMPARE_..._FIELD macros
    only.  The others are in NodeCopy and NodeEqual. *)

From S2P Require Import Prelude NodeTree.

#[local] Open Scope string_scope.

(** The macros with the names of their fields. *)
Inductive copy_field :=
  | COPY_SCALAR_FIELD (f : string)
  | COPY_NODE_FIELD (f : string)
  | COPY_BITMAPSET_FIELD (f : string)
  | COPY_STRING_FIELD (f : string)
  | COPY_LOCATION_FIELD (f : string).

Inductive compare_field :=
  | COMPARE_SCALAR_FIELD (f : string)
  | COMPARE_NODE_FIELD (f : string)
  | COMPARE_BITMAPSET_FIELD (f : string)
  | COMPARE_STRING_FIELD (f : string)
  | COMPARE_LOCATION_FIELD (f : string)
  | COMPARE_COERCIONFORM_FIELD (f : string).

(** ** copyfuncs.c *)

Definition copyQuery : list copy_field :=
  [COPY_SCALAR_FIELD "commandType"; COPY_SCALAR_FIELD "querySource"; COPY_SCALAR_FIELD "queryId";
   COPY_SCALAR_FIELD "canSetTag"; COPY_NODE_FIELD "utilityStmt"; COPY_SCALAR_FIELD "resultRelation";
   COPY_SCALAR_FIELD "hasAggs"; COPY_SCALAR_FIELD "hasWindowFuncs"; COPY_SCALAR_FIELD "hasSubLinks";
   COPY_SCALAR_FIELD "hasDistinctOn"; COPY_SCALAR_FIELD "hasRecursive"; COPY_SCALAR_FIELD "hasModifyingCTE";
   COPY_SCALAR_FIELD "hasForUpdate"; COPY_SCALAR_FIELD "hasRowSecurity"; COPY_NODE_FIELD "cteList";
   COPY_NODE_FIELD "rtable"; COPY_NODE_FIELD "jointree"; COPY_NODE_FIELD "targetList";
   COPY_NODE_FIELD "onConflict"; COPY_NODE_FIELD "returningList"; COPY_NODE_FIELD "groupClause";
   COPY_NODE_FIELD "groupingSets"; COPY_NODE_FIELD "havingQual"; COPY_NODE_FIELD "windowClause";
   COPY_NODE_FIELD "distinctClause"; COPY_NODE_FIELD "sortClause"; COPY_NODE_FIELD "limitOffset";
   COPY_NODE_FIELD "limitCount"; COPY_NODE_FIELD "rowMarks"; COPY_NODE_FIELD "setOperations";
   COPY_NODE_FIELD "constraintDeps"; COPY_NODE_FIELD "withCheckOptions"].

Definition copyWithCheckOption : list copy_field :=
  [COPY_SCALAR_FIELD "kind"; COPY_STRING_FIELD "relname"; COPY_STRING_FIELD "polname"; COPY_NODE_FIELD "qual";
   COPY_SCALAR_FIELD "cascaded"].

Definition copySortGroupClause : list copy_field :=
  [COPY_SCALAR_FIELD "tleSortGroupRef"; COPY_SCALAR_FIELD "eqop"; COPY_SCALAR_FIELD "sortop";
   COPY_SCALAR_FIELD "nulls_first"; COPY_SCALAR_FIELD "hashable"].

Definition copyGroupingSet : list copy_field :=
  [COPY_SCALAR_FIELD "kind"; COPY_NODE_FIELD "content"; COPY_LOCATION_FIELD "location"].

Definition copyWindowClause : list copy_field :=
  [COPY_STRING_FIELD "name"; COPY_STRING_FIELD "refname"; COPY_NODE_FIELD "partitionClause";
   COPY_NODE_FIELD "orderClause"; COPY_SCALAR_FIELD "frameOptions"; COPY_NODE_FIELD "startOffset";
   COPY_NODE_FIELD "endOffset"; COPY_SCALAR_FIELD "winref"; COPY_SCALAR_FIELD "copiedOrder"].

Definition copyRowMarkClause : list copy_field :=
  [COPY_SCALAR_FIELD "rti"; COPY_SCALAR_FIELD "strength"; COPY_SCALAR_FIELD "waitPolicy";
   COPY_SCALAR_FIELD "pushedDown"].

Definition copyCommonTableExpr : list copy_field :=
  [COPY_STRING_FIELD "ctename"; COPY_NODE_FIELD "aliascolnames"; COPY_NODE_FIELD "ctequery";
   COPY_LOCATION_FIELD "location"; COPY_SCALAR_FIELD "cterecursive"; COPY_SCALAR_FIELD "cterefcount";
   COPY_NODE_FIELD "ctecolnames"; COPY_NODE_FIELD "ctecoltypes"; COPY_NODE_FIELD "ctecoltypmods";
   COPY_NODE_FIELD "ctecolcollations"].

Definition copySetOperationStmt : list copy_field :=
  [COPY_SCALAR_FIELD "op"; COPY_SCALAR_FIELD "all"; COPY_NODE_FIELD "larg"; COPY_NODE_FIELD "rarg";
   COPY_NODE_FIELD "colTypes"; COPY_NODE_FIELD "colTypmods"; COPY_NODE_FIELD "colCollations";
   COPY_NODE_FIELD "groupClauses"].

Definition copyAlias : list copy_field :=
  [COPY_STRING_FIELD "aliasname"; COPY_NODE_FIELD "colnames"].

Definition copyRangeVar : list copy_field :=
  [COPY_STRING_FIELD "catalogname"; COPY_STRING_FIELD "schemaname"; COPY_STRING_FIELD "relname";
   COPY_SCALAR_FIELD "inhOpt"; COPY_SCALAR_FIELD "relpersistence"; COPY_NODE_FIELD "alias";
   COPY_LOCATION_FIELD "location"].

Definition copyIntoClause : list copy_field :=
  [COPY_NODE_FIELD "rel"; COPY_NODE_FIELD "colNames"; COPY_NODE_FIELD "options"; COPY_SCALAR_FIELD "onCommit";
   COPY_STRING_FIELD "tableSpaceName"; COPY_NODE_FIELD "viewQuery"; COPY_SCALAR_FIELD "skipData"].

Definition copyVar : list copy_field :=
  [COPY_SCALAR_FIELD "varno"; COPY_SCALAR_FIELD "varattno"; COPY_SCALAR_FIELD "vartype";
   COPY_SCALAR_FIELD "vartypmod"; COPY_SCALAR_FIELD "varcollid"; COPY_SCALAR_FIELD "varlevelsup";
   COPY_SCALAR_FIELD "varnoold"; COPY_SCALAR_FIELD "varoattno"; COPY_LOCATION_FIELD "location"].

Definition copyParam : list copy_field :=
  [COPY_SCALAR_FIELD "paramkind"; COPY_SCALAR_FIELD "paramid"; COPY_SCALAR_FIELD "paramtype";
   COPY_SCALAR_FIELD "paramtypmod"; COPY_SCALAR_FIELD "paramcollid"; COPY_LOCATION_FIELD "location"].

Definition copyAggref : list copy_field :=
  [COPY_SCALAR_FIELD "aggfnoid"; COPY_SCALAR_FIELD "aggtype"; COPY_SCALAR_FIELD "aggoutputtype";
   COPY_SCALAR_FIELD "aggcollid"; COPY_SCALAR_FIELD "inputcollid"; COPY_SCALAR_FIELD "aggtranstype";
   COPY_NODE_FIELD "aggargtypes"; COPY_NODE_FIELD "aggdirectargs"; COPY_NODE_FIELD "args";
   COPY_NODE_FIELD "aggorder"; COPY_NODE_FIELD "aggdistinct"; COPY_NODE_FIELD "aggfilter";
   COPY_SCALAR_FIELD "aggstar"; COPY_SCALAR_FIELD "aggvariadic"; COPY_SCALAR_FIELD "aggcombine";
   COPY_SCALAR_FIELD "aggpartial"; COPY_SCALAR_FIELD "aggkind"; COPY_SCALAR_FIELD "agglevelsup";
   COPY_LOCATION_FIELD "location"].

Definition copyGroupingFunc : list copy_field :=
  [COPY_NODE_FIELD "args"; COPY_NODE_FIELD "refs"; COPY_NODE_FIELD "cols"; COPY_SCALAR_FIELD "agglevelsup";
   COPY_LOCATION_FIELD "location"].

Definition copyWindowFunc : list copy_field :=
  [COPY_SCALAR_FIELD "winfnoid"; COPY_SCALAR_FIELD "wintype"; COPY_SCALAR_FIELD "wincollid";
   COPY_SCALAR_FIELD "inputcollid"; COPY_NODE_FIELD "args"; COPY_NODE_FIELD "aggfilter";
   COPY_SCALAR_FIELD "winref"; COPY_SCALAR_FIELD "winstar"; COPY_SCALAR_FIELD "winagg";
   COPY_LOCATION_FIELD "location"].

Definition copyArrayRef : list copy_field :=
  [COPY_SCALAR_FIELD "refarraytype"; COPY_SCALAR_FIELD "refelemtype"; COPY_SCALAR_FIELD "reftypmod";
   COPY_SCALAR_FIELD "refcollid"; COPY_NODE_FIELD "refupperindexpr"; COPY_NODE_FIELD "reflowerindexpr";
   COPY_NODE_FIELD "refexpr"; COPY_NODE_FIELD "refassgnexpr"].

Definition copyFuncExpr : list copy_field :=
  [COPY_SCALAR_FIELD "funcid"; COPY_SCALAR_FIELD "funcresulttype"; COPY_SCALAR_FIELD "funcretset";
   COPY_SCALAR_FIELD "funcvariadic"; COPY_SCALAR_FIELD "funcformat"; COPY_SCALAR_FIELD "funccollid";
   COPY_SCALAR_FIELD "inputcollid"; COPY_NODE_FIELD "args"; COPY_LOCATION_FIELD "location"].

Definition copyNamedArgExpr : list copy_field :=
  [COPY_NODE_FIELD "arg"; COPY_STRING_FIELD "name"; COPY_SCALAR_FIELD "argnumber"; COPY_LOCATION_FIELD "location"].

Definition copyOpExpr : list copy_field :=
  [COPY_SCALAR_FIELD "opno"; COPY_SCALAR_FIELD "opfuncid"; COPY_SCALAR_FIELD "opresulttype";
   COPY_SCALAR_FIELD "opretset"; COPY_SCALAR_FIELD "opcollid"; COPY_SCALAR_FIELD "inputcollid";
   COPY_NODE_FIELD "args"; COPY_LOCATION_FIELD "location"].

Definition copyDistinctExpr : list copy_field :=
  [COPY_SCALAR_FIELD "opno"; COPY_SCALAR_FIELD "opfuncid"; COPY_SCALAR_FIELD "opresulttype";
   COPY_SCALAR_FIELD "opretset"; COPY_SCALAR_FIELD "opcollid"; COPY_SCALAR_FIELD "inputcollid";
   COPY_NODE_FIELD "args"; COPY_LOCATION_FIELD "location"].

Definition copyNullIfExpr : list copy_field :=
  [COPY_SCALAR_FIELD "opno"; COPY_SCALAR_FIELD "opfuncid"; COPY_SCALAR_FIELD "opresulttype";
   COPY_SCALAR_FIELD "opretset"; COPY_SCALAR_FIELD "opcollid"; COPY_SCALAR_FIELD "inputcollid";
   COPY_NODE_FIELD "args"; COPY_LOCATION_FIELD "location"].

Definition copyScalarArrayOpExpr : list copy_field :=
  [COPY_SCALAR_FIELD "opno"; COPY_SCALAR_FIELD "opfuncid"; COPY_SCALAR_FIELD "useOr";
   COPY_SCALAR_FIELD "inputcollid"; COPY_NODE_FIELD "args"; COPY_LOCATION_FIELD "location"].

Definition copyBoolExpr : list copy_field :=
  [COPY_SCALAR_FIELD "boolop"; COPY_NODE_FIELD "args"; COPY_LOCATION_FIELD "location"].

Definition copySubLink : list copy_field :=
  [COPY_SCALAR_FIELD "subLinkType"; COPY_SCALAR_FIELD "subLinkId"; COPY_NODE_FIELD "testexpr";
   COPY_NODE_FIELD "operName"; COPY_NODE_FIELD "subselect"; COPY_LOCATION_FIELD "location"].

Definition copyFieldSelect : list copy_field :=
  [COPY_NODE_FIELD "arg"; COPY_SCALAR_FIELD "fieldnum"; COPY_SCALAR_FIELD "resulttype";
   COPY_SCALAR_FIELD "resulttypmod"; COPY_SCALAR_FIELD "resultcollid"].

Definition copyFieldStore : list copy_field :=
  [COPY_NODE_FIELD "arg"; COPY_NODE_FIELD "newvals"; COPY_NODE_FIELD "fieldnums"; COPY_SCALAR_FIELD "resulttype"].

Definition copyRelabelType : list copy_field :=
  [COPY_NODE_FIELD "arg"; COPY_SCALAR_FIELD "resulttype"; COPY_SCALAR_FIELD "resulttypmod";
   COPY_SCALAR_FIELD "resultcollid"; COPY_SCALAR_FIELD "relabelformat"; COPY_LOCATION_FIELD "location"].

Definition copyCoerceViaIO : list copy_field :=
  [COPY_NODE_FIELD "arg"; COPY_SCALAR_FIELD "resulttype"; COPY_SCALAR_FIELD "resultcollid";
   COPY_SCALAR_FIELD "coerceformat"; COPY_LOCATION_FIELD "location"].

Definition copyArrayCoerceExpr : list copy_field :=
  [COPY_NODE_FIELD "arg"; COPY_SCALAR_FIELD "elemfuncid"; COPY_SCALAR_FIELD "resulttype";
   COPY_SCALAR_FIELD "resulttypmod"; COPY_SCALAR_FIELD "resultcollid"; COPY_SCALAR_FIELD "isExplicit";
   COPY_SCALAR_FIELD "coerceformat"; COPY_LOCATION_FIELD "location"].

Definition copyConvertRowtypeExpr : list copy_field :=
  [COPY_NODE_FIELD "arg"; COPY_SCALAR_FIELD "resulttype"; COPY_SCALAR_FIELD "convertformat";
   COPY_LOCATION_FIELD "location"].

Definition copyCollateExpr : list copy_field :=
  [COPY_NODE_FIELD "arg"; COPY_SCALAR_FIELD "collOid"; COPY_LOCATION_FIELD "location"].

Definition copyCaseExpr : list copy_field :=
  [COPY_SCALAR_FIELD "casetype"; COPY_SCALAR_FIELD "casecollid"; COPY_NODE_FIELD "arg"; COPY_NODE_FIELD "args";
   COPY_NODE_FIELD "defresult"; COPY_LOCATION_FIELD "location"].

Definition copyCaseWhen : list copy_field :=
  [COPY_NODE_FIELD "expr"; COPY_NODE_FIELD "result"; COPY_LOCATION_FIELD "location"].

Definition copyCaseTestExpr : list copy_field :=
  [COPY_SCALAR_FIELD "typeId"; COPY_SCALAR_FIELD "typeMod"; COPY_SCALAR_FIELD "collation"].

Definition copyArrayExpr : list copy_field :=
  [COPY_SCALAR_FIELD "array_typeid"; COPY_SCALAR_FIELD "array_collid"; COPY_SCALAR_FIELD "element_typeid";
   COPY_NODE_FIELD "elements"; COPY_SCALAR_FIELD "multidims"; COPY_LOCATION_FIELD "location"].

Definition copyRowExpr : list copy_field :=
  [COPY_NODE_FIELD "args"; COPY_SCALAR_FIELD "row_typeid"; COPY_SCALAR_FIELD "row_format";
   COPY_NODE_FIELD "colnames"; COPY_LOCATION_FIELD "location"].

Definition copyRowCompareExpr : list copy_field :=
  [COPY_SCALAR_FIELD "rctype"; COPY_NODE_FIELD "opnos"; COPY_NODE_FIELD "opfamilies";
   COPY_NODE_FIELD "inputcollids"; COPY_NODE_FIELD "largs"; COPY_NODE_FIELD "rargs"].

Definition copyCoalesceExpr : list copy_field :=
  [COPY_SCALAR_FIELD "coalescetype"; COPY_SCALAR_FIELD "coalescecollid"; COPY_NODE_FIELD "args";
   COPY_LOCATION_FIELD "location"].

Definition copyMinMaxExpr : list copy_field :=
  [COPY_SCALAR_FIELD "minmaxtype"; COPY_SCALAR_FIELD "minmaxcollid"; COPY_SCALAR_FIELD "inputcollid";
   COPY_SCALAR_FIELD "op"; COPY_NODE_FIELD "args"; COPY_LOCATION_FIELD "location"].

Definition copyXmlExpr : list copy_field :=
  [COPY_SCALAR_FIELD "op"; COPY_STRING_FIELD "name"; COPY_NODE_FIELD "named_args"; COPY_NODE_FIELD "arg_names";
   COPY_NODE_FIELD "args"; COPY_SCALAR_FIELD "xmloption"; COPY_SCALAR_FIELD "type"; COPY_SCALAR_FIELD "typmod";
   COPY_LOCATION_FIELD "location"].

Definition copyNullTest : list copy_field :=
  [COPY_NODE_FIELD "arg"; COPY_SCALAR_FIELD "nulltesttype"; COPY_SCALAR_FIELD "argisrow";
   COPY_LOCATION_FIELD "location"].

Definition copyBooleanTest : list copy_field :=
  [COPY_NODE_FIELD "arg"; COPY_SCALAR_FIELD "booltesttype"; COPY_LOCATION_FIELD "location"].

Definition copyCoerceToDomain : list copy_field :=
  [COPY_NODE_FIELD "arg"; COPY_SCALAR_FIELD "resulttype"; COPY_SCALAR_FIELD "resulttypmod";
   COPY_SCALAR_FIELD "resultcollid"; COPY_SCALAR_FIELD "coercionformat"; COPY_LOCATION_FIELD "location"].

Definition copyCoerceToDomainValue : list copy_field :=
  [COPY_SCALAR_FIELD "typeId"; COPY_SCALAR_FIELD "typeMod"; COPY_SCALAR_FIELD "collation";
   COPY_LOCATION_FIELD "location"].

Definition copySetToDefault : list copy_field :=
  [COPY_SCALAR_FIELD "typeId"; COPY_SCALAR_FIELD "typeMod"; COPY_SCALAR_FIELD "collation";
   COPY_LOCATION_FIELD "location"].

Definition copyCurrentOfExpr : list copy_field :=
  [COPY_SCALAR_FIELD "cvarno"; COPY_STRING_FIELD "cursor_name"; COPY_SCALAR_FIELD "cursor_param"].

Definition copyInferenceElem : list copy_field :=
  [COPY_NODE_FIELD "expr"; COPY_SCALAR_FIELD "infercollid"; COPY_SCALAR_FIELD "inferopclass"].

Definition copyTargetEntry : list copy_field :=
  [COPY_NODE_FIELD "expr"; COPY_SCALAR_FIELD "resno"; COPY_STRING_FIELD "resname";
   COPY_SCALAR_FIELD "ressortgroupref"; COPY_SCALAR_FIELD "resorigtbl"; COPY_SCALAR_FIELD "resorigcol";
   COPY_SCALAR_FIELD "resjunk"].

Definition copyRangeTblRef : list copy_field :=
  [COPY_SCALAR_FIELD "rtindex"].

Definition copyJoinExpr : list copy_field :=
  [COPY_SCALAR_FIELD "jointype"; COPY_SCALAR_FIELD "isNatural"; COPY_NODE_FIELD "larg"; COPY_NODE_FIELD "rarg";
   COPY_NODE_FIELD "usingClause"; COPY_NODE_FIELD "quals"; COPY_NODE_FIELD "alias"; COPY_SCALAR_FIELD "rtindex"].

Definition copyFromExpr : list copy_field :=
  [COPY_NODE_FIELD "fromlist"; COPY_NODE_FIELD "quals"].

Definition copyOnConflictExpr : list copy_field :=
  [COPY_SCALAR_FIELD "action"; COPY_NODE_FIELD "arbiterElems"; COPY_NODE_FIELD "arbiterWhere";
   COPY_SCALAR_FIELD "constraint"; COPY_NODE_FIELD "onConflictSet"; COPY_NODE_FIELD "onConflictWhere";
   COPY_SCALAR_FIELD "exclRelIndex"; COPY_NODE_FIELD "exclRelTlist"].

Definition copyRangeTblEntry : list copy_field :=
  [COPY_SCALAR_FIELD "rtekind"; COPY_SCALAR_FIELD "relid"; COPY_SCALAR_FIELD "relkind";
   COPY_NODE_FIELD "tablesample"; COPY_NODE_FIELD "subquery"; COPY_SCALAR_FIELD "security_barrier";
   COPY_SCALAR_FIELD "jointype"; COPY_NODE_FIELD "joinaliasvars"; COPY_NODE_FIELD "functions";
   COPY_SCALAR_FIELD "funcordinality"; COPY_NODE_FIELD "values_lists"; COPY_NODE_FIELD "values_collations";
   COPY_STRING_FIELD "ctename"; COPY_SCALAR_FIELD "ctelevelsup"; COPY_SCALAR_FIELD "self_reference";
   COPY_NODE_FIELD "ctecoltypes"; COPY_NODE_FIELD "ctecoltypmods"; COPY_NODE_FIELD "ctecolcollations";
   COPY_NODE_FIELD "alias"; COPY_NODE_FIELD "eref"; COPY_SCALAR_FIELD "lateral"; COPY_SCALAR_FIELD "inh";
   COPY_SCALAR_FIELD "inFromCl"; COPY_SCALAR_FIELD "requiredPerms"; COPY_SCALAR_FIELD "checkAsUser";
   COPY_BITMAPSET_FIELD "selectedCols"; COPY_BITMAPSET_FIELD "insertedCols";
   COPY_BITMAPSET_FIELD "updatedCols"; COPY_NODE_FIELD "securityQuals"].

Definition copyRangeTblFunction : list copy_field :=
  [COPY_NODE_FIELD "funcexpr"; COPY_SCALAR_FIELD "funccolcount"; COPY_NODE_FIELD "funccolnames";
   COPY_NODE_FIELD "funccoltypes"; COPY_NODE_FIELD "funccoltypmods"; COPY_NODE_FIELD "funccolcollations";
   COPY_BITMAPSET_FIELD "funcparams"].

Definition copyTableSampleClause : list copy_field :=
  [COPY_SCALAR_FIELD "tsmhandler"; COPY_NODE_FIELD "args"; COPY_NODE_FIELD "repeatable"].

Definition copyNotifyStmt : list copy_field :=
  [COPY_STRING_FIELD "conditionname"; COPY_STRING_FIELD "payload"].

Definition copyDefElem : list copy_field :=
  [COPY_STRING_FIELD "defnamespace"; COPY_STRING_FIELD "defname"; COPY_NODE_FIELD "arg";
   COPY_SCALAR_FIELD "defaction"].

Definition copyDeclareCursorStmt : list copy_field :=
  [COPY_STRING_FIELD "portalname"; COPY_SCALAR_FIELD "options"; COPY_NODE_FIELD "query"].

Definition copyPlannedStmt : list copy_field :=
  [COPY_SCALAR_FIELD "commandType"; COPY_SCALAR_FIELD "queryId"; COPY_SCALAR_FIELD "hasReturning";
   COPY_SCALAR_FIELD "hasModifyingCTE"; COPY_SCALAR_FIELD "canSetTag"; COPY_SCALAR_FIELD "transientPlan";
   COPY_NODE_FIELD "planTree"; COPY_NODE_FIELD "rtable"; COPY_NODE_FIELD "resultRelations";
   COPY_NODE_FIELD "utilityStmt"; COPY_NODE_FIELD "subplans"; COPY_BITMAPSET_FIELD "rewindPlanIDs";
   COPY_NODE_FIELD "rowMarks"; COPY_NODE_FIELD "relationOids"; COPY_NODE_FIELD "invalItems";
   COPY_SCALAR_FIELD "nParamExec"; COPY_SCALAR_FIELD "hasRowSecurity"; COPY_SCALAR_FIELD "parallelModeNeeded";
   COPY_SCALAR_FIELD "hasForeignJoin"].

Definition copyNestLoopParam : list copy_field :=
  [COPY_SCALAR_FIELD "paramno"; COPY_NODE_FIELD "paramval"].

Definition copyPlanRowMark : list copy_field :=
  [COPY_SCALAR_FIELD "rti"; COPY_SCALAR_FIELD "prti"; COPY_SCALAR_FIELD "rowmarkId";
   COPY_SCALAR_FIELD "markType"; COPY_SCALAR_FIELD "allMarkTypes"; COPY_SCALAR_FIELD "strength";
   COPY_SCALAR_FIELD "waitPolicy"; COPY_SCALAR_FIELD "isParent"].

Definition copyPlanInvalItem : list copy_field :=
  [COPY_SCALAR_FIELD "cacheId"; COPY_SCALAR_FIELD "hashValue"].

Definition copyAlternativeSubPlan : list copy_field :=
  [COPY_NODE_FIELD "subplans"].

(** ** equalfuncs.c *)

Definition equalQuery : list compare_field :=
  [COMPARE_SCALAR_FIELD "commandType"; COMPARE_SCALAR_FIELD "querySource"; COMPARE_SCALAR_FIELD "canSetTag";
   COMPARE_NODE_FIELD "utilityStmt"; COMPARE_SCALAR_FIELD "resultRelation"; COMPARE_SCALAR_FIELD "hasAggs";
   COMPARE_SCALAR_FIELD "hasWindowFuncs"; COMPARE_SCALAR_FIELD "hasSubLinks";
   COMPARE_SCALAR_FIELD "hasDistinctOn"; COMPARE_SCALAR_FIELD "hasRecursive";
   COMPARE_SCALAR_FIELD "hasModifyingCTE"; COMPARE_SCALAR_FIELD "hasForUpdate";
   COMPARE_SCALAR_FIELD "hasRowSecurity"; COMPARE_NODE_FIELD "cteList"; COMPARE_NODE_FIELD "rtable";
   COMPARE_NODE_FIELD "jointree"; COMPARE_NODE_FIELD "targetList"; COMPARE_NODE_FIELD "onConflict";
   COMPARE_NODE_FIELD "returningList"; COMPARE_NODE_FIELD "groupClause"; COMPARE_NODE_FIELD "groupingSets";
   COMPARE_NODE_FIELD "havingQual"; COMPARE_NODE_FIELD "windowClause"; COMPARE_NODE_FIELD "distinctClause";
   COMPARE_NODE_FIELD "sortClause"; COMPARE_NODE_FIELD "limitOffset"; COMPARE_NODE_FIELD "limitCount";
   COMPARE_NODE_FIELD "rowMarks"; COMPARE_NODE_FIELD "setOperations"; COMPARE_NODE_FIELD "constraintDeps";
   COMPARE_NODE_FIELD "withCheckOptions"].

Definition equalWithCheckOption : list compare_field :=
  [COMPARE_SCALAR_FIELD "kind"; COMPARE_STRING_FIELD "relname"; COMPARE_STRING_FIELD "polname";
   COMPARE_NODE_FIELD "qual"; COMPARE_SCALAR_FIELD "cascaded"].

Definition equalSortGroupClause : list compare_field :=
  [COMPARE_SCALAR_FIELD "tleSortGroupRef"; COMPARE_SCALAR_FIELD "eqop"; COMPARE_SCALAR_FIELD "sortop";
   COMPARE_SCALAR_FIELD "nulls_first"; COMPARE_SCALAR_FIELD "hashable"].

Definition equalGroupingSet : list compare_field :=
  [COMPARE_SCALAR_FIELD "kind"; COMPARE_NODE_FIELD "content"; COMPARE_LOCATION_FIELD "location"].

Definition equalWindowClause : list compare_field :=
  [COMPARE_STRING_FIELD "name"; COMPARE_STRING_FIELD "refname"; COMPARE_NODE_FIELD "partitionClause";
   COMPARE_NODE_FIELD "orderClause"; COMPARE_SCALAR_FIELD "frameOptions"; COMPARE_NODE_FIELD "startOffset";
   COMPARE_NODE_FIELD "endOffset"; COMPARE_SCALAR_FIELD "winref"; COMPARE_SCALAR_FIELD "copiedOrder"].

Definition equalRowMarkClause : list compare_field :=
  [COMPARE_SCALAR_FIELD "rti"; COMPARE_SCALAR_FIELD "strength"; COMPARE_SCALAR_FIELD "waitPolicy";
   COMPARE_SCALAR_FIELD "pushedDown"].

Definition equalCommonTableExpr : list compare_field :=
  [COMPARE_STRING_FIELD "ctename"; COMPARE_NODE_FIELD "aliascolnames"; COMPARE_NODE_FIELD "ctequery";
   COMPARE_LOCATION_FIELD "location"; COMPARE_SCALAR_FIELD "cterecursive"; COMPARE_SCALAR_FIELD "cterefcount";
   COMPARE_NODE_FIELD "ctecolnames"; COMPARE_NODE_FIELD "ctecoltypes"; COMPARE_NODE_FIELD "ctecoltypmods";
   COMPARE_NODE_FIELD "ctecolcollations"].

Definition equalSetOperationStmt : list compare_field :=
  [COMPARE_SCALAR_FIELD "op"; COMPARE_SCALAR_FIELD "all"; COMPARE_NODE_FIELD "larg"; COMPARE_NODE_FIELD "rarg";
   COMPARE_NODE_FIELD "colTypes"; COMPARE_NODE_FIELD "colTypmods"; COMPARE_NODE_FIELD "colCollations";
   COMPARE_NODE_FIELD "groupClauses"].

Definition equalAlias : list compare_field :=
  [COMPARE_STRING_FIELD "aliasname"; COMPARE_NODE_FIELD "colnames"].

Definition equalRangeVar : list compare_field :=
  [COMPARE_STRING_FIELD "catalogname"; COMPARE_STRING_FIELD "schemaname"; COMPARE_STRING_FIELD "relname";
   COMPARE_SCALAR_FIELD "inhOpt"; COMPARE_SCALAR_FIELD "relpersistence"; COMPARE_NODE_FIELD "alias";
   COMPARE_LOCATION_FIELD "location"].

Definition equalIntoClause : list compare_field :=
  [COMPARE_NODE_FIELD "rel"; COMPARE_NODE_FIELD "colNames"; COMPARE_NODE_FIELD "options";
   COMPARE_SCALAR_FIELD "onCommit"; COMPARE_STRING_FIELD "tableSpaceName"; COMPARE_NODE_FIELD "viewQuery";
   COMPARE_SCALAR_FIELD "skipData"].

Definition equalVar : list compare_field :=
  [COMPARE_SCALAR_FIELD "varno"; COMPARE_SCALAR_FIELD "varattno"; COMPARE_SCALAR_FIELD "vartype";
   COMPARE_SCALAR_FIELD "vartypmod"; COMPARE_SCALAR_FIELD "varcollid"; COMPARE_SCALAR_FIELD "varlevelsup";
   COMPARE_SCALAR_FIELD "varnoold"; COMPARE_SCALAR_FIELD "varoattno"; COMPARE_LOCATION_FIELD "location"].

Definition equalParam : list compare_field :=
  [COMPARE_SCALAR_FIELD "paramkind"; COMPARE_SCALAR_FIELD "paramid"; COMPARE_SCALAR_FIELD "paramtype";
   COMPARE_SCALAR_FIELD "paramtypmod"; COMPARE_SCALAR_FIELD "paramcollid"; COMPARE_LOCATION_FIELD "location"].

Definition equalAggref : list compare_field :=
  [COMPARE_SCALAR_FIELD "aggfnoid"; COMPARE_SCALAR_FIELD "aggtype"; COMPARE_SCALAR_FIELD "aggoutputtype";
   COMPARE_SCALAR_FIELD "aggcollid"; COMPARE_SCALAR_FIELD "inputcollid"; COMPARE_NODE_FIELD "aggargtypes";
   COMPARE_NODE_FIELD "aggdirectargs"; COMPARE_NODE_FIELD "args"; COMPARE_NODE_FIELD "aggorder";
   COMPARE_NODE_FIELD "aggdistinct"; COMPARE_NODE_FIELD "aggfilter"; COMPARE_SCALAR_FIELD "aggstar";
   COMPARE_SCALAR_FIELD "aggvariadic"; COMPARE_SCALAR_FIELD "aggcombine"; COMPARE_SCALAR_FIELD "aggpartial";
   COMPARE_SCALAR_FIELD "aggkind"; COMPARE_SCALAR_FIELD "agglevelsup"; COMPARE_LOCATION_FIELD "location"].

Definition equalGroupingFunc : list compare_field :=
  [COMPARE_NODE_FIELD "args"; COMPARE_SCALAR_FIELD "agglevelsup"; COMPARE_LOCATION_FIELD "location"].

Definition equalWindowFunc : list compare_field :=
  [COMPARE_SCALAR_FIELD "winfnoid"; COMPARE_SCALAR_FIELD "wintype"; COMPARE_SCALAR_FIELD "wincollid";
   COMPARE_SCALAR_FIELD "inputcollid"; COMPARE_NODE_FIELD "args"; COMPARE_NODE_FIELD "aggfilter";
   COMPARE_SCALAR_FIELD "winref"; COMPARE_SCALAR_FIELD "winstar"; COMPARE_SCALAR_FIELD "winagg";
   COMPARE_LOCATION_FIELD "location"].

Definition equalArrayRef : list compare_field :=
  [COMPARE_SCALAR_FIELD "refarraytype"; COMPARE_SCALAR_FIELD "refelemtype"; COMPARE_SCALAR_FIELD "reftypmod";
   COMPARE_SCALAR_FIELD "refcollid"; COMPARE_NODE_FIELD "refupperindexpr";
   COMPARE_NODE_FIELD "reflowerindexpr"; COMPARE_NODE_FIELD "refexpr"; COMPARE_NODE_FIELD "refassgnexpr"].

Definition equalFuncExpr : list compare_field :=
  [COMPARE_SCALAR_FIELD "funcid"; COMPARE_SCALAR_FIELD "funcresulttype"; COMPARE_SCALAR_FIELD "funcretset";
   COMPARE_SCALAR_FIELD "funcvariadic"; COMPARE_COERCIONFORM_FIELD "funcformat";
   COMPARE_SCALAR_FIELD "funccollid"; COMPARE_SCALAR_FIELD "inputcollid"; COMPARE_NODE_FIELD "args";
   COMPARE_LOCATION_FIELD "location"].

Definition equalNamedArgExpr : list compare_field :=
  [COMPARE_NODE_FIELD "arg"; COMPARE_STRING_FIELD "name"; COMPARE_SCALAR_FIELD "argnumber";
   COMPARE_LOCATION_FIELD "location"].

Definition equalBoolExpr : list compare_field :=
  [COMPARE_SCALAR_FIELD "boolop"; COMPARE_NODE_FIELD "args"; COMPARE_LOCATION_FIELD "location"].

Definition equalSubLink : list compare_field :=
  [COMPARE_SCALAR_FIELD "subLinkType"; COMPARE_SCALAR_FIELD "subLinkId"; COMPARE_NODE_FIELD "testexpr";
   COMPARE_NODE_FIELD "operName"; COMPARE_NODE_FIELD "subselect"; COMPARE_LOCATION_FIELD "location"].

Definition equalFieldSelect : list compare_field :=
  [COMPARE_NODE_FIELD "arg"; COMPARE_SCALAR_FIELD "fieldnum"; COMPARE_SCALAR_FIELD "resulttype";
   COMPARE_SCALAR_FIELD "resulttypmod"; COMPARE_SCALAR_FIELD "resultcollid"].

Definition equalFieldStore : list compare_field :=
  [COMPARE_NODE_FIELD "arg"; COMPARE_NODE_FIELD "newvals"; COMPARE_NODE_FIELD "fieldnums";
   COMPARE_SCALAR_FIELD "resulttype"].

Definition equalRelabelType : list compare_field :=
  [COMPARE_NODE_FIELD "arg"; COMPARE_SCALAR_FIELD "resulttype"; COMPARE_SCALAR_FIELD "resulttypmod";
   COMPARE_SCALAR_FIELD "resultcollid"; COMPARE_COERCIONFORM_FIELD "relabelformat";
   COMPARE_LOCATION_FIELD "location"].

Definition equalCoerceViaIO : list compare_field :=
  [COMPARE_NODE_FIELD "arg"; COMPARE_SCALAR_FIELD "resulttype"; COMPARE_SCALAR_FIELD "resultcollid";
   COMPARE_COERCIONFORM_FIELD "coerceformat"; COMPARE_LOCATION_FIELD "location"].

Definition equalArrayCoerceExpr : list compare_field :=
  [COMPARE_NODE_FIELD "arg"; COMPARE_SCALAR_FIELD "elemfuncid"; COMPARE_SCALAR_FIELD "resulttype";
   COMPARE_SCALAR_FIELD "resulttypmod"; COMPARE_SCALAR_FIELD "resultcollid"; COMPARE_SCALAR_FIELD "isExplicit";
   COMPARE_COERCIONFORM_FIELD "coerceformat"; COMPARE_LOCATION_FIELD "location"].

Definition equalConvertRowtypeExpr : list compare_field :=
  [COMPARE_NODE_FIELD "arg"; COMPARE_SCALAR_FIELD "resulttype"; COMPARE_COERCIONFORM_FIELD "convertformat";
   COMPARE_LOCATION_FIELD "location"].

Definition equalCollateExpr : list compare_field :=
  [COMPARE_NODE_FIELD "arg"; COMPARE_SCALAR_FIELD "collOid"; COMPARE_LOCATION_FIELD "location"].

Definition equalCaseExpr : list compare_field :=
  [COMPARE_SCALAR_FIELD "casetype"; COMPARE_SCALAR_FIELD "casecollid"; COMPARE_NODE_FIELD "arg";
   COMPARE_NODE_FIELD "args"; COMPARE_NODE_FIELD "defresult"; COMPARE_LOCATION_FIELD "location"].

Definition equalCaseWhen : list compare_field :=
  [COMPARE_NODE_FIELD "expr"; COMPARE_NODE_FIELD "result"; COMPARE_LOCATION_FIELD "location"].

Definition equalCaseTestExpr : list compare_field :=
  [COMPARE_SCALAR_FIELD "typeId"; COMPARE_SCALAR_FIELD "typeMod"; COMPARE_SCALAR_FIELD "collation"].

Definition equalArrayExpr : list compare_field :=
  [COMPARE_SCALAR_FIELD "array_typeid"; COMPARE_SCALAR_FIELD "array_collid";
   COMPARE_SCALAR_FIELD "element_typeid"; COMPARE_NODE_FIELD "elements"; COMPARE_SCALAR_FIELD "multidims";
   COMPARE_LOCATION_FIELD "location"].

Definition equalRowExpr : list compare_field :=
  [COMPARE_NODE_FIELD "args"; COMPARE_SCALAR_FIELD "row_typeid"; COMPARE_COERCIONFORM_FIELD "row_format";
   COMPARE_NODE_FIELD "colnames"; COMPARE_LOCATION_FIELD "location"].

Definition equalRowCompareExpr : list compare_field :=
  [COMPARE_SCALAR_FIELD "rctype"; COMPARE_NODE_FIELD "opnos"; COMPARE_NODE_FIELD "opfamilies";
   COMPARE_NODE_FIELD "inputcollids"; COMPARE_NODE_FIELD "largs"; COMPARE_NODE_FIELD "rargs"].

Definition equalCoalesceExpr : list compare_field :=
  [COMPARE_SCALAR_FIELD "coalescetype"; COMPARE_SCALAR_FIELD "coalescecollid"; COMPARE_NODE_FIELD "args";
   COMPARE_LOCATION_FIELD "location"].

Definition equalMinMaxExpr : list compare_field :=
  [COMPARE_SCALAR_FIELD "minmaxtype"; COMPARE_SCALAR_FIELD "minmaxcollid"; COMPARE_SCALAR_FIELD "inputcollid";
   COMPARE_SCALAR_FIELD "op"; COMPARE_NODE_FIELD "args"; COMPARE_LOCATION_FIELD "location"].

Definition equalXmlExpr : list compare_field :=
  [COMPARE_SCALAR_FIELD "op"; COMPARE_STRING_FIELD "name"; COMPARE_NODE_FIELD "named_args";
   COMPARE_NODE_FIELD "arg_names"; COMPARE_NODE_FIELD "args"; COMPARE_SCALAR_FIELD "xmloption";
   COMPARE_SCALAR_FIELD "type"; COMPARE_SCALAR_FIELD "typmod"; COMPARE_LOCATION_FIELD "location"].

Definition equalNullTest : list compare_field :=
  [COMPARE_NODE_FIELD "arg"; COMPARE_SCALAR_FIELD "nulltesttype"; COMPARE_SCALAR_FIELD "argisrow";
   COMPARE_LOCATION_FIELD "location"].

Definition equalBooleanTest : list compare_field :=
  [COMPARE_NODE_FIELD "arg"; COMPARE_SCALAR_FIELD "booltesttype"; COMPARE_LOCATION_FIELD "location"].

Definition equalCoerceToDomain : list compare_field :=
  [COMPARE_NODE_FIELD "arg"; COMPARE_SCALAR_FIELD "resulttype"; COMPARE_SCALAR_FIELD "resulttypmod";
   COMPARE_SCALAR_FIELD "resultcollid"; COMPARE_COERCIONFORM_FIELD "coercionformat";
   COMPARE_LOCATION_FIELD "location"].

Definition equalCoerceToDomainValue : list compare_field :=
  [COMPARE_SCALAR_FIELD "typeId"; COMPARE_SCALAR_FIELD "typeMod"; COMPARE_SCALAR_FIELD "collation";
   COMPARE_LOCATION_FIELD "location"].

Definition equalSetToDefault : list compare_field :=
  [COMPARE_SCALAR_FIELD "typeId"; COMPARE_SCALAR_FIELD "typeMod"; COMPARE_SCALAR_FIELD "collation";
   COMPARE_LOCATION_FIELD "location"].

Definition equalCurrentOfExpr : list compare_field :=
  [COMPARE_SCALAR_FIELD "cvarno"; COMPARE_STRING_FIELD "cursor_name"; COMPARE_SCALAR_FIELD "cursor_param"].

Definition equalInferenceElem : list compare_field :=
  [COMPARE_NODE_FIELD "expr"; COMPARE_SCALAR_FIELD "infercollid"; COMPARE_SCALAR_FIELD "inferopclass"].

Definition equalTargetEntry : list compare_field :=
  [COMPARE_NODE_FIELD "expr"; COMPARE_SCALAR_FIELD "resno"; COMPARE_STRING_FIELD "resname";
   COMPARE_SCALAR_FIELD "ressortgroupref"; COMPARE_SCALAR_FIELD "resorigtbl";
   COMPARE_SCALAR_FIELD "resorigcol"; COMPARE_SCALAR_FIELD "resjunk"].

Definition equalRangeTblRef : list compare_field :=
  [COMPARE_SCALAR_FIELD "rtindex"].

Definition equalJoinExpr : list compare_field :=
  [COMPARE_SCALAR_FIELD "jointype"; COMPARE_SCALAR_FIELD "isNatural"; COMPARE_NODE_FIELD "larg";
   COMPARE_NODE_FIELD "rarg"; COMPARE_NODE_FIELD "usingClause"; COMPARE_NODE_FIELD "quals";
   COMPARE_NODE_FIELD "alias"; COMPARE_SCALAR_FIELD "rtindex"].

Definition equalFromExpr : list compare_field :=
  [COMPARE_NODE_FIELD "fromlist"; COMPARE_NODE_FIELD "quals"].

Definition equalOnConflictExpr : list compare_field :=
  [COMPARE_SCALAR_FIELD "action"; COMPARE_NODE_FIELD "arbiterElems"; COMPARE_NODE_FIELD "arbiterWhere";
   COMPARE_SCALAR_FIELD "constraint"; COMPARE_NODE_FIELD "onConflictSet"; COMPARE_NODE_FIELD "onConflictWhere";
   COMPARE_SCALAR_FIELD "exclRelIndex"; COMPARE_NODE_FIELD "exclRelTlist"].

Definition equalRangeTblEntry : list compare_field :=
  [COMPARE_SCALAR_FIELD "rtekind"; COMPARE_SCALAR_FIELD "relid"; COMPARE_SCALAR_FIELD "relkind";
   COMPARE_NODE_FIELD "tablesample"; COMPARE_NODE_FIELD "subquery"; COMPARE_SCALAR_FIELD "security_barrier";
   COMPARE_SCALAR_FIELD "jointype"; COMPARE_NODE_FIELD "joinaliasvars"; COMPARE_NODE_FIELD "functions";
   COMPARE_SCALAR_FIELD "funcordinality"; COMPARE_NODE_FIELD "values_lists";
   COMPARE_NODE_FIELD "values_collations"; COMPARE_STRING_FIELD "ctename"; COMPARE_SCALAR_FIELD "ctelevelsup";
   COMPARE_SCALAR_FIELD "self_reference"; COMPARE_NODE_FIELD "ctecoltypes"; COMPARE_NODE_FIELD "ctecoltypmods";
   COMPARE_NODE_FIELD "ctecolcollations"; COMPARE_NODE_FIELD "alias"; COMPARE_NODE_FIELD "eref";
   COMPARE_SCALAR_FIELD "lateral"; COMPARE_SCALAR_FIELD "inh"; COMPARE_SCALAR_FIELD "inFromCl";
   COMPARE_SCALAR_FIELD "requiredPerms"; COMPARE_SCALAR_FIELD "checkAsUser";
   COMPARE_BITMAPSET_FIELD "selectedCols"; COMPARE_BITMAPSET_FIELD "insertedCols";
   COMPARE_BITMAPSET_FIELD "updatedCols"; COMPARE_NODE_FIELD "securityQuals"].

Definition equalRangeTblFunction : list compare_field :=
  [COMPARE_NODE_FIELD "funcexpr"; COMPARE_SCALAR_FIELD "funccolcount"; COMPARE_NODE_FIELD "funccolnames";
   COMPARE_NODE_FIELD "funccoltypes"; COMPARE_NODE_FIELD "funccoltypmods";
   COMPARE_NODE_FIELD "funccolcollations"; COMPARE_BITMAPSET_FIELD "funcparams"].

Definition equalTableSampleClause : list compare_field :=
  [COMPARE_SCALAR_FIELD "tsmhandler"; COMPARE_NODE_FIELD "args"; COMPARE_NODE_FIELD "repeatable"].

Definition equalNotifyStmt : list compare_field :=
  [COMPARE_STRING_FIELD "conditionname"; COMPARE_STRING_FIELD "payload"].

Definition equalDefElem : list compare_field :=
  [COMPARE_STRING_FIELD "defnamespace"; COMPARE_STRING_FIELD "defname"; COMPARE_NODE_FIELD "arg";
   COMPARE_SCALAR_FIELD "defaction"].

Definition equalDeclareCursorStmt : list compare_field :=
  [COMPARE_STRING_FIELD "portalname"; COMPARE_SCALAR_FIELD "options"; COMPARE_NODE_FIELD "query"].

Definition equalAlternativeSubPlan : list compare_field :=
  [COMPARE_NODE_FIELD "subplans"].
