(* ===== verification/NodeCopy.v ===== *)
(** copyfuncs.c: copies of trees of nodes.

    The functions for single node types are given the struct and, for its node fields, the
    copy of the node in a field. *)

From S2P Require Import Prelude NodeText NodeTree NodeFields NodeOut Bitmapset.

#[local] Open Scope string_scope.
#[local] Open Scope Z_scope.

(** Outcomes without a state. *)
#[global] Instance res_ret : MRet res := λ A a, Ok a.
#[global] Instance res_bind : MBind res := λ A B f r, match r with Ok a => f a | Err e => Err e end.

(** ** Data *)

(** [memcpy] of [size] bytes into a new object. *)
Definition copy_bytes (s : list Z) (size : Z) : res (list Z) :=
  if Z.of_nat (length s) <? size then Err EDangling else Ok (take (Z.to_nat size) s).

(** A pointer to an expanded object, whose flat form the object itself computes. *)
Definition VARATT_IS_EXTERNAL_EXPANDED (s : list Z) : res bool :=
  b0 ← byte_at s 0;
  if b0 =? 1 then tag ← byte_at s 1; Ok (Z.land tag (Z.lnot 1) =? 2) else Ok false.

Definition datumCopy (value : datum) (typByVal : bool) (typLen : Z) : res datum :=
  if typByVal then Ok value
  else
    match value with
    | ByValue _ => Err EBadCast
    | ByReference None => if typLen =? -1 then Err ENullDeref else _ ← datumGetSize value typByVal typLen; Err ENullDeref
    | ByReference (Some s) =>
        if typLen =? -1 then
          expanded ← VARATT_IS_EXTERNAL_EXPANDED s;
          if expanded : bool then Err EUnmodelled
          else realSize ← VARSIZE_ANY s; r ← copy_bytes s realSize; Ok (ByReference (Some r))
        else realSize ← datumGetSize value typByVal typLen; r ← copy_bytes s realSize; Ok (ByReference (Some r))
    end.

(** ** Structs *)

Section Struct.
Context (from : fields) (copyChild : string → res tree).

(** The COPY_..._FIELD macros; a field that is not listed is zero in both nodes. *)
Definition copy_one (fl : copy_field) (newnode : fields) : res fields :=
  match fl with
  | COPY_SCALAR_FIELD f | COPY_LOCATION_FIELD f =>
      Ok (match lookup_field f from with Some v => set_field f v newnode | None => newnode end)
  | COPY_NODE_FIELD f => t ← copyChild f; Ok (set_field f (VNode t) newnode)
  | COPY_BITMAPSET_FIELD f => Ok (set_field f (VBitmapset (bms_copy (bitmapset_of f from))) newnode)
  | COPY_STRING_FIELD f => Ok (set_field f (VString (string_of f from)) newnode)
  end.

Fixpoint copy_fields (l : list copy_field) (newnode : fields) : res fields :=
  match l with
  | [] => Ok newnode
  | fl :: l => newnode ← copy_one fl newnode; copy_fields l newnode
  end.

Definition copyConst : res fields :=
  newnode ← copy_fields
    [COPY_SCALAR_FIELD "consttype"; COPY_SCALAR_FIELD "consttypmod"; COPY_SCALAR_FIELD "constcollid";
     COPY_SCALAR_FIELD "constlen"] makeNode;
  constvalue ← (if true_of "constbyval" from || true_of "constisnull" from then Ok (datum_of "constvalue" from)
                else datumCopy (datum_of "constvalue" from) (true_of "constbyval" from) (scalar_of "constlen" from));
  copy_fields
    [COPY_SCALAR_FIELD "constisnull"; COPY_SCALAR_FIELD "constbyval"; COPY_LOCATION_FIELD "location"]
    (set_field "constvalue" (VDatum constvalue) newnode).

(** The switch of copyObject. *)
Definition copyFunction (tag : NodeTag) : node_function (list copy_field) (res fields) :=
  match tag with
  | T_Query => Macros copyQuery
  | T_WithCheckOption => Macros copyWithCheckOption
  | T_SortGroupClause => Macros copySortGroupClause
  | T_GroupingSet => Macros copyGroupingSet
  | T_WindowClause => Macros copyWindowClause
  | T_RowMarkClause => Macros copyRowMarkClause
  | T_CommonTableExpr => Macros copyCommonTableExpr
  | T_SetOperationStmt => Macros copySetOperationStmt
  | T_Alias => Macros copyAlias
  | T_RangeVar => Macros copyRangeVar
  | T_IntoClause => Macros copyIntoClause
  | T_Var => Macros copyVar
  | T_Const => Code copyConst
  | T_Param => Macros copyParam
  | T_Aggref => Macros copyAggref
  | T_GroupingFunc => Macros copyGroupingFunc
  | T_WindowFunc => Macros copyWindowFunc
  | T_ArrayRef => Macros copyArrayRef
  | T_FuncExpr => Macros copyFuncExpr
  | T_NamedArgExpr => Macros copyNamedArgExpr
  | T_OpExpr => Macros copyOpExpr
  | T_DistinctExpr => Macros copyDistinctExpr
  | T_NullIfExpr => Macros copyNullIfExpr
  | T_ScalarArrayOpExpr => Macros copyScalarArrayOpExpr
  | T_BoolExpr => Macros copyBoolExpr
  | T_SubLink => Macros copySubLink
  | T_FieldSelect => Macros copyFieldSelect
  | T_FieldStore => Macros copyFieldStore
  | T_RelabelType => Macros copyRelabelType
  | T_CoerceViaIO => Macros copyCoerceViaIO
  | T_ArrayCoerceExpr => Macros copyArrayCoerceExpr
  | T_ConvertRowtypeExpr => Macros copyConvertRowtypeExpr
  | T_CollateExpr => Macros copyCollateExpr
  | T_CaseExpr => Macros copyCaseExpr
  | T_CaseWhen => Macros copyCaseWhen
  | T_CaseTestExpr => Macros copyCaseTestExpr
  | T_ArrayExpr => Macros copyArrayExpr
  | T_RowExpr => Macros copyRowExpr
  | T_RowCompareExpr => Macros copyRowCompareExpr
  | T_CoalesceExpr => Macros copyCoalesceExpr
  | T_MinMaxExpr => Macros copyMinMaxExpr
  | T_XmlExpr => Macros copyXmlExpr
  | T_NullTest => Macros copyNullTest
  | T_BooleanTest => Macros copyBooleanTest
  | T_CoerceToDomain => Macros copyCoerceToDomain
  | T_CoerceToDomainValue => Macros copyCoerceToDomainValue
  | T_SetToDefault => Macros copySetToDefault
  | T_CurrentOfExpr => Macros copyCurrentOfExpr
  | T_InferenceElem => Macros copyInferenceElem
  | T_TargetEntry => Macros copyTargetEntry
  | T_RangeTblRef => Macros copyRangeTblRef
  | T_JoinExpr => Macros copyJoinExpr
  | T_FromExpr => Macros copyFromExpr
  | T_OnConflictExpr => Macros copyOnConflictExpr
  | T_RangeTblEntry => Macros copyRangeTblEntry
  | T_RangeTblFunction => Macros copyRangeTblFunction
  | T_TableSampleClause => Macros copyTableSampleClause
  | T_NotifyStmt => Macros copyNotifyStmt
  | T_DefElem => Macros copyDefElem
  | T_DeclareCursorStmt => Macros copyDeclareCursorStmt
  | T_PlannedStmt => Macros copyPlannedStmt
  | T_NestLoopParam => Macros copyNestLoopParam
  | T_PlanRowMark => Macros copyPlanRowMark
  | T_PlanInvalItem => Macros copyPlanInvalItem
  | T_AlternativeSubPlan => Macros copyAlternativeSubPlan
  end.

Definition copyStruct (tag : NodeTag) : res fields :=
  match copyFunction tag with
  | Macros l => copy_fields l makeNode
  | Code c => c
  end.
End Struct.

(** ** copyObject *)

Fixpoint copyObject (from : tree) : res tree :=
  match from with
  | NULL_ptr => Ok NULL_ptr
  | TInteger _ | TFloat _ | TString _ | TBitString _ => Ok from
  | TList [] => Err ENullDeref
  | TList l =>
      r ← (fix copyList (l : list tree) : res (list tree) :=
             match l with
             | [] => Ok []
             | x :: l => x' ← copyObject x; l' ← copyList l; Ok (x' :: l')
             end) l;
      Ok (TList r)
  | TIntList _ | TOidList _ => Ok from
  | Struct tag n =>
      let copied := map (λ '(f, v), (f, match v with VNode t => copyObject t | _ => Ok NULL_ptr end)) n in
      r ← copyStruct n (λ f, default (Ok NULL_ptr) (lookup_field f copied)) tag;
      Ok (Struct tag r)
  end.
