(* ===== verification/NodeEqual.v ===== *)
(** equalfuncs.c: comparison of trees of nodes.

    The comparison is that of two trees in different memory: the code also calls a tree
    equal to itself when it is given the same pointer twice.  The functions for single node
    types are given both structs and, for the node fields of the first one, the comparison
    with the node in a field. *)

From S2P Require Import Prelude NodeText NodeTree NodeFields NodeOut NodeCopy Bitmapset.

#[local] Open Scope string_scope.
#[local] Open Scope Z_scope.

(** ** Data *)

(** [memcmp] of [size] bytes. *)
Definition bytes_equal (s1 s2 : list Z) (size : Z) : res bool :=
  s1 ← copy_bytes s1 size; s2 ← copy_bytes s2 size; Ok (bool_decide (s1 = s2)).

Definition datumIsEqual (value1 value2 : datum) (typByVal : bool) (typLen : Z) : res bool :=
  match typByVal, value1, value2 with
  | true, ByValue b1, ByValue b2 => Ok (bool_decide (b1 = b2))
  | false, ByReference p1, ByReference p2 =>
      size1 ← datumGetSize value1 typByVal typLen;
      size2 ← datumGetSize value2 typByVal typLen;
      if negb (size1 =? size2) then Ok false
      else match p1, p2 with
           | Some s1, Some s2 => bytes_equal s1 s2 size1
           | _, _ => Err ENullDeref
           end
  | _, _, _ => Err EBadCast
  end.

(** ** Structs *)

Section Struct.
Context (a b : fields) (equalChild : string → tree → res bool).

(** The COMPARE_..._FIELD macros. *)
Definition compare_one (fl : compare_field) : res bool :=
  match fl with
  | COMPARE_SCALAR_FIELD f => Ok (scalar_of f a =? scalar_of f b)
  | COMPARE_NODE_FIELD f => equalChild f (node_of f b)
  | COMPARE_BITMAPSET_FIELD f => Ok (bms_equal (bitmapset_of f a) (bitmapset_of f b))
  | COMPARE_STRING_FIELD f => Ok (bool_decide (string_of f a = string_of f b))
  | COMPARE_LOCATION_FIELD _ | COMPARE_COERCIONFORM_FIELD _ => Ok true
  end.

Fixpoint compare_fields (l : list compare_field) : res bool :=
  match l with
  | [] => Ok true
  | fl :: l => r ← compare_one fl; if r : bool then compare_fields l else Ok false
  end.

Definition equalConst : res bool :=
  r ← compare_fields
    [COMPARE_SCALAR_FIELD "consttype"; COMPARE_SCALAR_FIELD "consttypmod"; COMPARE_SCALAR_FIELD "constcollid";
     COMPARE_SCALAR_FIELD "constlen"; COMPARE_SCALAR_FIELD "constisnull"; COMPARE_SCALAR_FIELD "constbyval";
     COMPARE_LOCATION_FIELD "location"];
  if negb r then Ok false
  else if true_of "constisnull" a then Ok true
  else datumIsEqual (datum_of "constvalue" a) (datum_of "constvalue" b) (true_of "constbyval" a) (scalar_of "constlen" a).

(** The operator's function may be filled in in one node only. *)
Definition opfuncid_differs : bool :=
  negb (scalar_of "opfuncid" a =? scalar_of "opfuncid" b) && negb (scalar_of "opfuncid" a =? 0) && negb (scalar_of "opfuncid" b =? 0).

Definition equal_operator (rest : list compare_field) : res bool :=
  r ← compare_fields [COMPARE_SCALAR_FIELD "opno"];
  if negb r then Ok false
  else if opfuncid_differs then Ok false
  else compare_fields rest.

Definition equalOpExpr : res bool :=
  equal_operator
    [COMPARE_SCALAR_FIELD "opresulttype"; COMPARE_SCALAR_FIELD "opretset"; COMPARE_SCALAR_FIELD "opcollid";
     COMPARE_SCALAR_FIELD "inputcollid"; COMPARE_NODE_FIELD "args"; COMPARE_LOCATION_FIELD "location"].

Definition equalDistinctExpr : res bool :=
  equal_operator
    [COMPARE_SCALAR_FIELD "opresulttype"; COMPARE_SCALAR_FIELD "opretset"; COMPARE_SCALAR_FIELD "opcollid";
     COMPARE_SCALAR_FIELD "inputcollid"; COMPARE_NODE_FIELD "args"; COMPARE_LOCATION_FIELD "location"].

Definition equalNullIfExpr : res bool :=
  equal_operator
    [COMPARE_SCALAR_FIELD "opresulttype"; COMPARE_SCALAR_FIELD "opretset"; COMPARE_SCALAR_FIELD "opcollid";
     COMPARE_SCALAR_FIELD "inputcollid"; COMPARE_NODE_FIELD "args"; COMPARE_LOCATION_FIELD "location"].

Definition equalScalarArrayOpExpr : res bool :=
  equal_operator
    [COMPARE_SCALAR_FIELD "useOr"; COMPARE_SCALAR_FIELD "inputcollid"; COMPARE_NODE_FIELD "args";
     COMPARE_LOCATION_FIELD "location"].

(** The switch of equal; plan nodes are not supported. *)
Definition equalFunction (tag : NodeTag) : node_function (list compare_field) (res bool) :=
  match tag with
  | T_Query => Macros equalQuery
  | T_WithCheckOption => Macros equalWithCheckOption
  | T_SortGroupClause => Macros equalSortGroupClause
  | T_GroupingSet => Macros equalGroupingSet
  | T_WindowClause => Macros equalWindowClause
  | T_RowMarkClause => Macros equalRowMarkClause
  | T_CommonTableExpr => Macros equalCommonTableExpr
  | T_SetOperationStmt => Macros equalSetOperationStmt
  | T_Alias => Macros equalAlias
  | T_RangeVar => Macros equalRangeVar
  | T_IntoClause => Macros equalIntoClause
  | T_Var => Macros equalVar
  | T_Const => Code equalConst
  | T_Param => Macros equalParam
  | T_Aggref => Macros equalAggref
  | T_GroupingFunc => Macros equalGroupingFunc
  | T_WindowFunc => Macros equalWindowFunc
  | T_ArrayRef => Macros equalArrayRef
  | T_FuncExpr => Macros equalFuncExpr
  | T_NamedArgExpr => Macros equalNamedArgExpr
  | T_OpExpr => Code equalOpExpr
  | T_DistinctExpr => Code equalDistinctExpr
  | T_NullIfExpr => Code equalNullIfExpr
  | T_ScalarArrayOpExpr => Code equalScalarArrayOpExpr
  | T_BoolExpr => Macros equalBoolExpr
  | T_SubLink => Macros equalSubLink
  | T_FieldSelect => Macros equalFieldSelect
  | T_FieldStore => Macros equalFieldStore
  | T_RelabelType => Macros equalRelabelType
  | T_CoerceViaIO => Macros equalCoerceViaIO
  | T_ArrayCoerceExpr => Macros equalArrayCoerceExpr
  | T_ConvertRowtypeExpr => Macros equalConvertRowtypeExpr
  | T_CollateExpr => Macros equalCollateExpr
  | T_CaseExpr => Macros equalCaseExpr
  | T_CaseWhen => Macros equalCaseWhen
  | T_CaseTestExpr => Macros equalCaseTestExpr
  | T_ArrayExpr => Macros equalArrayExpr
  | T_RowExpr => Macros equalRowExpr
  | T_RowCompareExpr => Macros equalRowCompareExpr
  | T_CoalesceExpr => Macros equalCoalesceExpr
  | T_MinMaxExpr => Macros equalMinMaxExpr
  | T_XmlExpr => Macros equalXmlExpr
  | T_NullTest => Macros equalNullTest
  | T_BooleanTest => Macros equalBooleanTest
  | T_CoerceToDomain => Macros equalCoerceToDomain
  | T_CoerceToDomainValue => Macros equalCoerceToDomainValue
  | T_SetToDefault => Macros equalSetToDefault
  | T_CurrentOfExpr => Macros equalCurrentOfExpr
  | T_InferenceElem => Macros equalInferenceElem
  | T_TargetEntry => Macros equalTargetEntry
  | T_RangeTblRef => Macros equalRangeTblRef
  | T_JoinExpr => Macros equalJoinExpr
  | T_FromExpr => Macros equalFromExpr
  | T_OnConflictExpr => Macros equalOnConflictExpr
  | T_RangeTblEntry => Macros equalRangeTblEntry
  | T_RangeTblFunction => Macros equalRangeTblFunction
  | T_TableSampleClause => Macros equalTableSampleClause
  | T_NotifyStmt => Macros equalNotifyStmt
  | T_DefElem => Macros equalDefElem
  | T_DeclareCursorStmt => Macros equalDeclareCursorStmt
  | T_PlannedStmt => Code (Err EElog)
  | T_NestLoopParam => Code (Err EElog)
  | T_PlanRowMark => Code (Err EElog)
  | T_PlanInvalItem => Code (Err EElog)
  | T_AlternativeSubPlan => Macros equalAlternativeSubPlan
  end.

Definition equalStruct (tag : NodeTag) : res bool :=
  match equalFunction tag with
  | Macros l => compare_fields l
  | Code c => c
  end.
End Struct.

(** ** equal *)

Definition is_NULL (t : tree) : bool := match t with NULL_ptr => true | _ => false end.

Fixpoint equal (a b : tree) : res bool :=
  match a, b with
  | NULL_ptr, _ => Ok (is_NULL b)
  | TInteger z, TInteger z' => Ok (z =? z')
  | TFloat s, TFloat s' | TString s, TString s' | TBitString s, TBitString s' => Ok (bool_decide (s = s'))
  | TList l, TList l' =>
      if negb (Nat.eqb (length l) (length l')) then Ok false
      else (fix equalList (l l' : list tree) : res bool :=
              match l, l' with
              | x :: l, x' :: l' => r ← equal x x'; if r : bool then equalList l l' else Ok false
              | _, _ => Ok true
              end) l l'
  | TIntList l, TIntList l' | TOidList l, TOidList l' => Ok (bool_decide (l = l'))
  | Struct tag n, Struct tag' n' =>
      if negb (bool_decide (tag = tag')) then Ok false
      else
        let compared := map (λ '(f, v), (f, match v with VNode t => equal t | _ => λ b, Ok (is_NULL b) end)) n in
        equalStruct n n' (λ f, default (λ b, Ok (is_NULL b)) (lookup_field f compared)) tag
  | _, _ => Ok false
  end.
