(* ===== verification/NodeCopyProps.v ===== *)
(** Copies: [copyObject] returns a tree with the same text form that [equal] calls equal. *)

From S2P Require Import Prelude NodeText NodeTree NodeSchema NodeOut NodeRead NodeStore NodeRoundtrip NodeProps NodeFields NodeCopy NodeEqual.
From S2P Require Import Bitmapset BitSpec BitProps.

#[local] Open Scope string_scope.
#[local] Open Scope list_scope.
#[local] Open Scope Z_scope.

#[global] Instance copy_field_eq_dec : EqDecision copy_field.
Proof. solve_decision. Defined.

#[global] Instance compare_field_eq_dec : EqDecision compare_field.
Proof. solve_decision. Defined.

(** ** Fields *)

Definition copy_name (fl : copy_field) : string :=
  match fl with
  | COPY_SCALAR_FIELD f | COPY_NODE_FIELD f | COPY_BITMAPSET_FIELD f | COPY_STRING_FIELD f | COPY_LOCATION_FIELD f => f
  end.

Lemma lookup_app {A} f (n n' : list (string * A)) :
  lookup_field f (n ++ n') = match lookup_field f n with Some v => Some v | None => lookup_field f n' end.
Proof. induction n as [|[g v] n IH]; [done|]. cbn. by destruct (String.eqb f g). Qed.

Section Fields.
Context (n : fields) (copyChild : string → res tree) (copy : string → tree).

(** The value of a field in the copy; none if it is zero. *)
Definition copied_value (fl : copy_field) : option fval :=
  match fl with
  | COPY_SCALAR_FIELD f | COPY_LOCATION_FIELD f => lookup_field f n
  | COPY_NODE_FIELD f => Some (VNode (copy f))
  | COPY_BITMAPSET_FIELD f => Some (VBitmapset (bitmapset_of f n))
  | COPY_STRING_FIELD f => Some (VString (string_of f n))
  end.

Definition copied_fields (l : list copy_field) : fields :=
  concat (map (λ fl, match copied_value fl with Some v => [(copy_name fl, v)] | None => [] end) l).

Lemma copy_fields_run l new : (∀ f, COPY_NODE_FIELD f ∈ l → copyChild f = Ok (copy f)) →
  copy_fields n copyChild l new = Ok (new ++ copied_fields l).
Proof.
  revert new. induction l as [|fl l IH]; intros new Hc; [cbn; by rewrite app_nil_r|].
  cbn [copy_fields]. change (copied_fields (fl :: l)) with
    (match copied_value fl with Some v => [(copy_name fl, v)] | None => [] end ++ copied_fields l).
  assert (copy_one n copyChild fl new = Ok (new ++ match copied_value fl with Some v => [(copy_name fl, v)] | None => [] end)) as ->.
  { destruct fl as [f|f|f|f|f]; cbn [copy_one copied_value copy_name];
      [by destruct (lookup_field f n); [|rewrite app_nil_r]| |done|done|by destruct (lookup_field f n); [|rewrite app_nil_r]].
    rewrite (Hc f) by by left. done. }
  unfold mbind, res_bind. rewrite IH by (intros f Hf; apply Hc; by right). by rewrite <- app_assoc.
Qed.

Lemma lookup_absent l f : f ∉ map copy_name l → lookup_field f (copied_fields l) = None.
Proof.
  induction l as [|fl l IH]; [done|]. cbn [map]. rewrite not_elem_of_cons. intros [Hne Hn].
  unfold copied_fields. cbn [map concat]. rewrite lookup_app. fold (copied_fields l). rewrite (IH Hn).
  destruct (copied_value fl); cbn; [|done]. by rewrite (proj2 (String.eqb_neq _ _)).
Qed.

Lemma lookup_copied l fl : NoDup (map copy_name l) → fl ∈ l → lookup_field (copy_name fl) (copied_fields l) = copied_value fl.
Proof.
  induction l as [|fl' l IH]; [by intros _ ?%elem_of_nil|]. cbn [map]. intros [Hn Hnd]%NoDup_cons Hin.
  unfold copied_fields. cbn [map concat]. rewrite lookup_app. fold (copied_fields l). apply elem_of_cons in Hin as [<-|Hin].
  - rewrite lookup_absent by done. destruct (copied_value fl); [|done]. cbn. by rewrite String.eqb_refl.
  - assert (copy_name fl ≠ copy_name fl') as Hne by (intros E; apply Hn; rewrite <- E; by apply (list_elem_of_fmap_2 copy_name)).
    rewrite (IH Hnd Hin). destruct (copied_value fl'); [|done]. cbn. by rewrite (proj2 (String.eqb_neq _ _)).
Qed.
End Fields.

(** ** Data *)

(** A value whose size is that of its bytes, and which is not an expanded object. *)
Definition datum_sized (typbyval : bool) (typlen : Z) (d : datum) : bool :=
  match d with
  | ByReference (Some s) =>
      negb typbyval && bool_decide (datumGetSize d false typlen = Ok (Z.of_nat (length s))) &&
      (negb (typlen =? -1) || bool_decide (VARATT_IS_EXTERNAL_EXPANDED s = Ok false))
  | ByReference None => false
  | ByValue _ => typbyval
  end.

Lemma copy_bytes_all (s : list Z) : copy_bytes s (Z.of_nat (length s)) = Ok s.
Proof. unfold copy_bytes. by rewrite Z.ltb_irrefl, Nat2Z.id, firstn_all. Qed.

Lemma datumCopy_sized typlen d : datum_sized false typlen d = true → datumCopy d false typlen = Ok d.
Proof.
  destruct d as [|[s|]]; try done. cbn [datum_sized negb andb]. rewrite andb_true_iff, bool_decide_eq_true, orb_true_iff.
  intros [Hs He]. unfold datumCopy. destruct (typlen =? -1) eqn:El.
  - cbn [negb] in He. destruct He as [He|He]; [done|]. rewrite bool_decide_eq_true in He. rewrite He.
    apply Z.eqb_eq in El as ->. cbn [datumGetSize Z.ltb Z.compare Z.eqb Pos.eqb] in Hs. cbn [mbind res_bind].
    unfold mbind, res_bind. rewrite Hs, copy_bytes_all. done.
  - unfold mbind, res_bind. by rewrite Hs, copy_bytes_all.
Qed.

Lemma datumIsEqual_sized typbyval typlen d : datum_sized typbyval typlen d = true → datumIsEqual d d typbyval typlen = Ok true.
Proof.
  destruct typbyval, d as [b|[s|]]; try done; cbn [datum_sized negb andb].
  - intros _. unfold datumIsEqual. by rewrite bool_decide_eq_true_2.
  - rewrite andb_true_iff, bool_decide_eq_true. intros [Hs _]. unfold datumIsEqual, mbind, res_bind. rewrite Hs, Z.eqb_refl. cbn [negb].
    unfold bytes_equal, mbind, res_bind. rewrite copy_bytes_all. by rewrite bool_decide_eq_true_2.
Qed.

(** ** Structs *)

(** The fields that the copy function of a type copies. *)
Definition copied_list (tag : NodeTag) : list copy_field :=
  match copyFunction [] (λ _, Ok NULL_ptr) tag with
  | Macros l => l
  | Code _ =>
      [COPY_SCALAR_FIELD "consttype"; COPY_SCALAR_FIELD "consttypmod"; COPY_SCALAR_FIELD "constcollid";
       COPY_SCALAR_FIELD "constlen"; COPY_SCALAR_FIELD "constisnull"; COPY_SCALAR_FIELD "constbyval";
       COPY_LOCATION_FIELD "location"]
  end.

Lemma copied_list_NoDup tag : NoDup (map copy_name (copied_list tag)).
Proof. apply (bool_decide_unpack _). by destruct tag. Qed.

Lemma copyFunction_macros n copyChild tag l : copyFunction n copyChild tag = Macros l → copied_list tag = l ∧ tag ≠ T_Const.
Proof. destruct tag; intros [= <-]; done. Qed.

Definition const_sized (tag : NodeTag) (n : fields) : bool :=
  match tag with
  | T_Const => true_of "constisnull" n || datum_sized (true_of "constbyval" n) (scalar_of "constlen" n) (datum_of "constvalue" n)
  | _ => true
  end.

(** [n'] has the fields of [n] that are copied. *)
Definition copies (tag : NodeTag) (n n' : fields) (copy : string → tree) : Prop :=
  (∀ fl, fl ∈ copied_list tag → lookup_field (copy_name fl) n' = copied_value n copy fl) ∧
  (tag = T_Const → datum_of "constvalue" n' = datum_of "constvalue" n).

Lemma const_copied n copyChild copy : const_sized T_Const n = true → ∃ n', copyConst n copyChild = Ok n' ∧ copies T_Const n n' copy.
Proof.
  intros Hs. unfold copyConst. set (l1 := [_; _; _; _]). set (l2 := [_; _; _]).
  assert (∀ l new, l = l1 ∨ l = l2 → copy_fields n copyChild l new = Ok (new ++ copied_fields n copy l)) as Hrun.
  { intros l new Hl. apply copy_fields_run. intros f Hf. exfalso. revert Hf. by destruct Hl as [-> | ->]; subst l1 l2; intros Hf;
      repeat (apply elem_of_cons in Hf as [Hf|Hf]; [done|]); apply elem_of_nil in Hf. }
  assert ((if true_of "constbyval" n || true_of "constisnull" n then Ok (datum_of "constvalue" n)
           else datumCopy (datum_of "constvalue" n) (true_of "constbyval" n) (scalar_of "constlen" n)) = Ok (datum_of "constvalue" n)) as Hd.
  { cbn [const_sized] in Hs. destruct (true_of "constbyval" n); [done|]. destruct (true_of "constisnull" n); [done|]. by apply datumCopy_sized. }
  rewrite Hrun by by left. unfold mbind, res_bind. rewrite Hd, Hrun by by right. eexists. split; [done|].
  pose proof (copied_list_NoDup T_Const) as Hnd. split.
  - intros fl Hin. rewrite <- (lookup_copied n copy _ fl Hnd Hin). change (copied_list T_Const) with (l1 ++ l2).
    unfold copied_fields, set_field. rewrite map_app, concat_app, !lookup_app. cbn [makeNode app].
    destruct (lookup_field (copy_name fl) (concat (map _ l1))); [done|]. cbn [lookup_field].
    rewrite (proj2 (String.eqb_neq _ _)); [done|]. intros E. apply (list_elem_of_fmap_2 copy_name) in Hin. rewrite E in Hin.
    revert Hin. apply (bool_decide_unpack _). done.
  - intros _. unfold datum_of, set_field. rewrite !lookup_app. cbn [makeNode app].
    rewrite lookup_absent by (apply (bool_decide_unpack _); done). done.
Qed.

Lemma struct_copied tag n copyChild copy : (∀ f, copyChild f = Ok (copy f)) → const_sized tag n = true →
  ∃ n', copyStruct n copyChild tag = Ok n' ∧ copies tag n n' copy.
Proof.
  intros Hc Hs. unfold copyStruct. destruct (copyFunction n copyChild tag) as [l|c] eqn:E.
  - destruct (copyFunction_macros _ _ _ _ E) as [El Hne]. rewrite (copy_fields_run n copyChild copy) by done. eexists. split; [done|].
    split; [|by intros ->]. intros fl Hin. rewrite El in Hin. apply lookup_copied; [|done]. rewrite <- El. apply copied_list_NoDup.
  - destruct tag; try discriminate E. injection E as <-. by apply const_copied.
Qed.

(** ** The text of a copy *)

(** The field that is written is among the copied ones, and copied as what it is. *)
Definition covers (l : list copy_field) (fl : field) : bool :=
  match fl with
  | INT_FIELD f | INT16_FIELD f | UINT_FIELD f | OID_FIELD f | CHAR_FIELD f | ENUM_FIELD f | BOOL_FIELD f | LOCATION_FIELD f =>
      bool_decide (COPY_SCALAR_FIELD f ∈ l) || bool_decide (COPY_LOCATION_FIELD f ∈ l)
  | STRING_FIELD f => bool_decide (COPY_STRING_FIELD f ∈ l)
  | NODE_FIELD f => bool_decide (COPY_NODE_FIELD f ∈ l)
  | BITMAPSET_FIELD f => bool_decide (COPY_BITMAPSET_FIELD f ∈ l)
  end.

(** Everything that is written is copied. *)
Lemma written_copied tag n : forallb (covers (copied_list tag)) (written_fields tag n) = true.
Proof.
  destruct (decide (tag = T_RangeTblEntry)) as [->|Hne]; [|by destruct tag].
  unfold written_fields. cbn [outFunction]. unfold outRangeTblEntry_kind. repeat case_match; done.
Qed.

Section Text.
Context (tag : NodeTag) (n n' : fields) (copy : string → tree) (Hcopies : copies tag n n' copy).

Lemma scalar_copied f : bool_decide (COPY_SCALAR_FIELD f ∈ copied_list tag) || bool_decide (COPY_LOCATION_FIELD f ∈ copied_list tag) = true →
  lookup_field f n' = lookup_field f n.
Proof. destruct Hcopies as [H _]. intros [E|E]%orb_true_iff; apply bool_decide_eq_true in E; apply (H _ E). Qed.

Lemma string_copied f : COPY_STRING_FIELD f ∈ copied_list tag → string_of f n' = string_of f n.
Proof. intros E. destruct Hcopies as [H _]. pose proof (H _ E) as El. cbn in El. unfold string_of at 1. by rewrite El. Qed.

Lemma set_copied f : COPY_BITMAPSET_FIELD f ∈ copied_list tag → bitmapset_of f n' = bitmapset_of f n.
Proof. intros E. destruct Hcopies as [H _]. pose proof (H _ E) as El. cbn in El. unfold bitmapset_of at 1. by rewrite El. Qed.

Lemma node_copied f : COPY_NODE_FIELD f ∈ copied_list tag → node_of f n' = copy f.
Proof. intros E. destruct Hcopies as [H _]. pose proof (H _ E) as El. cbn in El. unfold node_of. by rewrite El. Qed.

Lemma field_text outChild outChild' fl str : covers (copied_list tag) fl = true →
  (∀ f, COPY_NODE_FIELD f ∈ copied_list tag → ∀ str, outChild' f str = outChild f str) →
  write_field n' outChild' fl str = write_field n outChild fl str.
Proof.
  intros Hc Hch. unfold write_field. do 3 (apply bind_ext; intros _ ?).
  destruct fl; cbn [covers] in Hc; try (apply scalar_copied in Hc; unfold int_of, bool_of; by rewrite Hc).
  - apply bool_decide_eq_true in Hc. by rewrite string_copied.
  - apply bool_decide_eq_true in Hc. by apply Hch.
  - apply bool_decide_eq_true in Hc. by rewrite set_copied.
Qed.

Context (outChild outChild' : string → M text ()).
Context (Hch : ∀ f, COPY_NODE_FIELD f ∈ copied_list tag → ∀ str, outChild' f str = outChild f str).

Lemma fields_text l str : forallb (covers (copied_list tag)) l = true →
  write_fields n' outChild' l str = write_fields n outChild l str.
Proof.
  revert str. induction l as [|fl l IH]; intros str Hl; [done|]. cbn in Hl. apply andb_true_iff in Hl as [Hf Hl].
  unfold write_fields in *. cbn [out_each]. unfold bind. rewrite (field_text outChild outChild') by done.
  destruct (write_field n outChild fl str) as [[u s]|e]; [|done]. by apply IH.
Qed.

Lemma node_text o str : forallb (covers (copied_list tag)) o.2 = true →
  write_node n' outChild' o str = write_node n outChild o str.
Proof. intros Ho. apply bind_ext. intros _ s. by apply fields_text. Qed.

Lemma bind_same {A B} (m m' : M text A) (k k' : A → M text B) str :
  m' str = m str → (∀ a s, k' a s = k a s) → bind m' k' str = bind m k str.
Proof. intros Hm Hk. unfold bind. rewrite Hm. by destruct (m str) as [[a s]|]. Qed.

End Text.

(** What the output function of Query asks about the utility statement. *)
Definition stmt_shape (t : tree) : Z :=
  match t with NULL_ptr => 0 | Struct T_NotifyStmt _ | Struct T_DeclareCursorStmt _ => 1 | _ => 2 end.

Lemma struct_text tag n n' copy outChild outChild' str : copies tag n n' copy →
  (∀ f, COPY_NODE_FIELD f ∈ copied_list tag → ∀ str, outChild' f str = outChild f str) →
  (∀ f, COPY_NODE_FIELD f ∈ copied_list tag → stmt_shape (copy f) = stmt_shape (node_of f n)) →
  outStruct n' outChild' tag str = outStruct n outChild tag str.
Proof.
  intros Hcopies Hch Hshape. pose proof (written_copied tag n) as Hw. unfold outStruct.
  destruct (outFunction n outChild tag) as [o|c] eqn:E.
  - assert (outFunction n' outChild' tag = Macros o) as -> by (by destruct tag).
    eapply node_text; [done..|]. by destruct (macros_agree n outChild 0 (fail EFuel) tag o E) as (_ & _ & _ & _ & _ & <- & _).
  - destruct tag; try discriminate E; injection E as <-; cbn [outFunction].
    + unfold outQuery. apply bind_ext. intros _ s. apply bind_same; [by eapply fields_text|]. intros _ s1.
      apply bind_same; [|intros _ s2; by eapply fields_text].
      assert (COPY_NODE_FIELD "utilityStmt" ∈ copied_list T_Query) as Hin by (apply (bool_decide_unpack _); done).
      rewrite (node_copied _ _ _ _ Hcopies _ Hin). pose proof (Hshape _ Hin) as Hs.
      assert (write_fields n' outChild' [NODE_FIELD "utilityStmt"] s1 = write_fields n outChild [NODE_FIELD "utilityStmt"] s1) as Hu
        by (by eapply fields_text).
      destruct (node_of "utilityStmt" n) as [| | | | | | | |[] ?], (copy "utilityStmt") as [| | | | | | | |[] ?]; done.
    + unfold outConst. apply bind_same; [by eapply node_text|]. intros _ s. apply bind_ext. intros _ s1.
      rewrite (proj2 Hcopies eq_refl). unfold bool_of, int_of. by rewrite !(scalar_copied _ _ _ _ Hcopies).
    + unfold outBoolExpr. apply bind_ext. intros _ s. apply bind_ext. intros _ s1. unfold int_of. rewrite (scalar_copied _ _ _ _ Hcopies) by done.
      apply bind_ext. intros _ s2. by eapply fields_text.
    + unfold outRangeTblEntry. apply bind_same; [by eapply node_text|]. intros _ s. unfold int_of. rewrite (scalar_copied _ _ _ _ Hcopies) by done.
      apply bind_same; [|intros _ s2; by eapply fields_text]. unfold written_fields in Hw. cbn [outFunction] in Hw. unfold int_of in Hw.
      destruct (outRangeTblEntry_kind _); [|done]. eapply fields_text; [done..|]. rewrite !forallb_app, !andb_true_iff in Hw. apply Hw.
Qed.

(** ** Comparison *)

(** The fields that the comparison function of a type compares. *)
Definition compared_list (tag : NodeTag) : list compare_field :=
  match tag with
  | T_Const =>
      [COMPARE_SCALAR_FIELD "consttype"; COMPARE_SCALAR_FIELD "consttypmod"; COMPARE_SCALAR_FIELD "constcollid";
       COMPARE_SCALAR_FIELD "constlen"; COMPARE_SCALAR_FIELD "constisnull"; COMPARE_SCALAR_FIELD "constbyval";
       COMPARE_LOCATION_FIELD "location"]
  | T_OpExpr | T_DistinctExpr | T_NullIfExpr =>
      [COMPARE_SCALAR_FIELD "opno"; COMPARE_SCALAR_FIELD "opresulttype"; COMPARE_SCALAR_FIELD "opretset";
       COMPARE_SCALAR_FIELD "opcollid"; COMPARE_SCALAR_FIELD "inputcollid"; COMPARE_NODE_FIELD "args";
       COMPARE_LOCATION_FIELD "location"]
  | T_ScalarArrayOpExpr =>
      [COMPARE_SCALAR_FIELD "opno"; COMPARE_SCALAR_FIELD "useOr"; COMPARE_SCALAR_FIELD "inputcollid";
       COMPARE_NODE_FIELD "args"; COMPARE_LOCATION_FIELD "location"]
  | _ => match equalFunction [] [] (λ _ _, Ok true) tag with Macros l => l | Code _ => [] end
  end.

(** The types that [equal] supports: all but plan nodes. *)
Definition supported (tag : NodeTag) : bool :=
  match tag with T_PlannedStmt | T_NestLoopParam | T_PlanRowMark | T_PlanInvalItem => false | _ => true end.

Definition has_opfuncid (tag : NodeTag) : bool :=
  match tag with T_OpExpr | T_DistinctExpr | T_NullIfExpr | T_ScalarArrayOpExpr => true | _ => false end.

Section Compare.
Context (n n' : fields) (equalChild : string → tree → res bool).

Lemma compare_true l : (∀ fl, fl ∈ l → compare_one n n' equalChild fl = Ok true) → compare_fields n n' equalChild l = Ok true.
Proof.
  induction l as [|fl l IH]; intros Hl; [done|]. cbn [compare_fields]. rewrite Hl by by left. unfold mbind, res_bind.
  apply IH. intros fl' Hin. apply Hl. by right.
Qed.

Lemma operator_true rest : (∀ fl, fl ∈ COMPARE_SCALAR_FIELD "opno" :: rest → compare_one n n' equalChild fl = Ok true) →
  opfuncid_differs n n' = false → equal_operator n n' equalChild rest = Ok true.
Proof.
  intros Hl Ho. unfold equal_operator. rewrite (compare_true [COMPARE_SCALAR_FIELD "opno"]) by (intros fl ->%list_elem_of_singleton; apply Hl; by left).
  unfold mbind, res_bind. cbn [negb]. rewrite Ho. apply compare_true. intros fl Hin. apply Hl. by right.
Qed.

Lemma struct_equal tag : supported tag = true →
  (∀ fl, fl ∈ compared_list tag → compare_one n n' equalChild fl = Ok true) →
  (has_opfuncid tag = true → opfuncid_differs n n' = false) →
  (tag = T_Const → true_of "constisnull" n = false →
     datumIsEqual (datum_of "constvalue" n) (datum_of "constvalue" n') (true_of "constbyval" n) (scalar_of "constlen" n) = Ok true) →
  equalStruct n n' equalChild tag = Ok true.
Proof.
  intros Hs Hl Ho Hc. unfold equalStruct. destruct (equalFunction n n' equalChild tag) as [l|c] eqn:E.
  - apply compare_true. intros fl Hin. apply Hl. destruct tag; try discriminate E; by injection E as <-.
  - destruct tag; try discriminate E; try done; injection E as <-; try (apply operator_true; [exact Hl|by apply Ho]).
    unfold equalConst. rewrite compare_true by exact Hl. unfold mbind, res_bind. cbn [negb].
    destruct (true_of "constisnull" n) eqn:En; [done|by apply Hc].
Qed.
End Compare.
