(* ===== verification/NodeEquiv.v ===== *)
(** Trees: copies, comparison, and comparison with what is read back. *)

From S2P Require Import Prelude NodeText NodeTree NodeSchema NodeOut NodeRead NodeTextProps NodeStore NodeRoundtrip NodeProps.
From S2P Require Import NodeFields NodeCopy NodeEqual NodeCopyProps.
From S2P Require Import Bitmapset BitSpec BitProps.

#[local] Open Scope string_scope.
#[local] Open Scope list_scope.
#[local] Open Scope Z_scope.

(** ** Copies *)

(** Lists are not empty and the values of constants are as long as they say. *)
Fixpoint copyable (t : tree) : bool :=
  match t with
  | TList l => match l with [] => false | _ => forallb copyable l end
  | Struct tag n => const_sized tag n && forallb (λ p, match p.2 with VNode t => copyable t | _ => true end) n
  | _ => true
  end.

(** There are no plan nodes. *)
Fixpoint comparable (t : tree) : bool :=
  match t with
  | TList l => forallb comparable l
  | Struct tag n => supported tag && forallb (λ p, match p.2 with VNode t => comparable t | _ => true end) n
  | _ => true
  end.

Definition copied (t t' : tree) : Prop :=
  copyObject t = Ok t' ∧ (∀ str, outNode t' str = outNode t str) ∧ stmt_shape t' = stmt_shape t ∧
  (comparable t = true → equal t t' = Ok true).

Fixpoint copyList (l : list tree) : res (list tree) :=
  match l with
  | [] => Ok []
  | x :: l => x' ← copyObject x; l' ← copyList l; Ok (x' :: l')
  end.

Fixpoint equalList (l l' : list tree) : res bool :=
  match l, l' with
  | x :: l, x' :: l' => r ← equal x x'; if r : bool then equalList l l' else Ok false
  | _, _ => Ok true
  end.

Lemma list_copied l : l ≠ [] → Forall (λ t, ∃ t', copied t t') l → ∃ t', copied (TList l) t'.
Proof.
  intros Hne Hl. assert (∃ l', copyList l = Ok l' ∧ length l' = length l ∧ (∀ str, out_nodes l' str = out_nodes l str) ∧
    (forallb comparable l = true → equalList l l' = Ok true)) as (l' & Hc & Hlen & Ho & He).
  { clear Hne. induction Hl as [|x l (x' & Hc & Ho & _ & He) _ (l' & IHc & IHn & IHo & IHe)]; [by exists []|]. exists (x' :: l').
    cbn [copyList]. rewrite Hc. unfold mbind, res_bind. rewrite IHc. split; [done|]. split; [cbn; by rewrite IHn|]. split.
    - intros str. cbn [out_nodes]. apply bind_same; [apply Ho|]. intros _ s.
      apply bind_same; [by destruct l, l'|intros _ s1; apply IHo].
    - cbn [forallb]. intros [Hx Hl]%andb_true_iff. cbn [equalList]. rewrite (He Hx). unfold mbind, res_bind. by apply IHe. }
  exists (TList l'). split; [|split; [|split; [done|]]].
  - destruct l as [|x l]; [done|]. change (copyObject (TList (x :: l))) with (r ← copyList (x :: l); Ok (TList r)). by rewrite Hc.
  - intros str. change (outNode (TList l')) with (append "(";;; out_nodes l';;; append ")").
    change (outNode (TList l)) with (append "(";;; out_nodes l;;; append ")"). apply bind_ext. intros _ s. by apply bind_same.
  - intros Hcmp. change (equal (TList l) (TList l')) with (if negb (Nat.eqb (length l) (length l')) then Ok false else equalList l l').
    rewrite Hlen, Nat.eqb_refl. by apply He.
Qed.

(** What is compared is copied. *)
Definition compare_covers (l : list copy_field) (fl : compare_field) : bool :=
  match fl with
  | COMPARE_SCALAR_FIELD f => bool_decide (COPY_SCALAR_FIELD f ∈ l) || bool_decide (COPY_LOCATION_FIELD f ∈ l)
  | COMPARE_NODE_FIELD f => bool_decide (COPY_NODE_FIELD f ∈ l)
  | COMPARE_BITMAPSET_FIELD f => bool_decide (COPY_BITMAPSET_FIELD f ∈ l)
  | COMPARE_STRING_FIELD f => bool_decide (COPY_STRING_FIELD f ∈ l)
  | COMPARE_LOCATION_FIELD _ | COMPARE_COERCIONFORM_FIELD _ => true
  end.

Lemma compared_copied tag : forallb (compare_covers (copied_list tag)) (compared_list tag) = true.
Proof. by destruct tag. Qed.

Lemma opfuncid_copied tag : has_opfuncid tag = true → bool_decide (COPY_SCALAR_FIELD "opfuncid" ∈ copied_list tag) = true.
Proof. by destruct tag. Qed.

Lemma equal_words_refl a : equal_words a a = true.
Proof. induction a as [|w a IH]; [done|]. cbn. by rewrite Z.eqb_refl. Qed.

Lemma bms_equal_refl a : bms_equal a a = true.
Proof. destruct a as [a|]; [|done]. cbn. by rewrite Z.leb_refl, equal_words_refl. Qed.

Lemma copy_equal tag n n' copy equalChild : copies tag n n' copy → supported tag = true → const_sized tag n = true →
  (∀ f, equalChild f (copy f) = Ok true) → equalStruct n n' equalChild tag = Ok true.
Proof.
  intros Hc Hs Hsz Hch. apply struct_equal; [done| | |].
  - intros fl Hin. pose proof (compared_copied tag) as Hcov%forallb_Forall. rewrite Forall_forall in Hcov. specialize (Hcov fl Hin).
    destruct fl as [f|f|f|f|f|f]; cbn [compare_covers compare_one] in *; try done.
    + unfold scalar_of. rewrite (scalar_copied _ _ _ _ Hc) by done. by rewrite Z.eqb_refl.
    + rewrite bool_decide_eq_true in Hcov. by rewrite (node_copied _ _ _ _ Hc).
    + rewrite bool_decide_eq_true in Hcov. rewrite (set_copied _ _ _ _ Hc) by done. by rewrite bms_equal_refl.
    + rewrite bool_decide_eq_true in Hcov. rewrite (string_copied _ _ _ _ Hc) by done. by rewrite bool_decide_eq_true_2.
  - intros Ho. unfold opfuncid_differs, scalar_of. rewrite (scalar_copied _ _ _ _ Hc) by by rewrite opfuncid_copied.
    by rewrite Z.eqb_refl.
  - intros -> Hnull. rewrite (proj2 Hc eq_refl). cbn [const_sized] in Hsz. rewrite Hnull in Hsz. by apply datumIsEqual_sized.
Qed.

Lemma struct_node_copied tag n : (∀ f, ∃ t', copied (node_of f n) t') → const_sized tag n = true → ∃ t', copied (Struct tag n) t'.
Proof.
  intros Hch Hs. set (copy := λ f, match copyObject (node_of f n) with Ok t' => t' | Err _ => NULL_ptr end).
  assert (∀ f, copied (node_of f n) (copy f)) as Hcp.
  { intros f. destruct (Hch f) as (t' & Ht'). subst copy. cbv beta. by rewrite (proj1 Ht'). }
  destruct (struct_copied tag n (child (Ok NULL_ptr) copyObject n) copy) as (n' & En & Hn'); [|done|].
  { intros f. rewrite child_node by done. apply Hcp. }
  exists (Struct tag n'). split; [|split; [|split; [done|]]].
  - change (copyObject (Struct tag n)) with (r ← copyStruct n (child (Ok NULL_ptr) copyObject n) tag; Ok (Struct tag r)). by rewrite En.
  - intros str. change (outNode (Struct tag n')) with (append "{";;; outStruct n' (child (append "<>") outNode n') tag;;; append "}").
    change (outNode (Struct tag n)) with (append "{";;; outStruct n (child (append "<>") outNode n) tag;;; append "}").
    apply bind_ext. intros _ s. apply bind_same; [|done]. eapply struct_text; [exact Hn'| |].
    + intros f Hin s1. rewrite !child_node by done. rewrite (node_copied _ _ _ _ Hn' f Hin). apply Hcp.
    + intros f _. apply Hcp.
  - cbn [comparable]. intros [Hsup Hcmp]%andb_true_iff.
    change (equal (Struct tag n) (Struct tag n')) with (if negb (bool_decide (tag = tag)) then Ok false
      else equalStruct n n' (child (λ b, Ok (is_NULL b)) equal n) tag).
    rewrite bool_decide_eq_true_2 by done. cbn [negb]. apply (copy_equal _ _ _ copy); [done..|]. intros f.
    rewrite child_node by done. apply Hcp. by apply node_of_forallb.
Qed.

Lemma tree_copied t : copyable t = true → ∃ t', copied t t'.
Proof.
  assert (∀ t, copyObject t = Ok t → equal t t = Ok true → ∃ t', copied t t') as Hsame by (intros t0 ??; by exists t0).
  induction t as [|z|s|s|s|l IH|l|l|tag n IH] using tree_ind'; intros Ht;
    try (apply Hsame; cbn; by rewrite ?Z.eqb_refl, ?bool_decide_eq_true_2).
  - cbn [copyable] in Ht. apply list_copied; [by intros ->|]. destruct l as [|x l]; [done|]. apply forallb_Forall in Ht.
    eapply Forall_impl; [exact (proj2 (Forall_and _ _) (conj IH Ht))|]. cbn. intros y [H1 H2]. by apply H1.
  - cbn [copyable] in Ht. apply andb_true_iff in Ht as [Hs Ht]. apply struct_node_copied; [|done]. intros f.
    apply (node_of_Forall (λ t, copyable t = true → ∃ t', copied t t')); [intros _; by apply Hsame|exact IH|by apply node_of_forallb].
Qed.

(** C17: a copy is faithful.  For a tree without empty lists whose constants passed by
    reference are as long as they say ([copyable]), [copyObject] returns a tree that is
    written as the same text; if there is no PlannedStmt, NestLoopParam, PlanRowMark or
    PlanInvalItem in it, for which [equal] raises an error ([comparable]), [equal] calls the
    copy equal to the tree. *)
Theorem copyObject_faithful t : copyable t = true →
  ∃ t', copyObject t = Ok t' ∧ nodeToString t' = nodeToString t ∧ (comparable t = true → equal t t' = Ok true).
Proof.
  intros Ht. destruct (tree_copied t Ht) as (t' & Hc & Ho & _ & He). exists t'. split; [done|]. split; [|done].
  unfold nodeToString. by rewrite Ho.
Qed.

Lemma copyObject_faithful_witness :
  (copyable logged_quals && comparable logged_quals) = true ∧
  ∃ t', copyObject logged_quals = Ok t' ∧ nodeToString t' = nodeToString logged_quals ∧
    (comparable logged_quals = true → equal logged_quals t' = Ok true).
Proof. split; [vm_compute; reflexivity|]. apply copyObject_faithful. vm_compute. reflexivity. Defined.

(** ** Symmetry *)

Lemma equal_words_sym a b : length a = length b → equal_words a b = equal_words b a.
Proof.
  revert b. induction a as [|w a IH]; intros [|w' b] Hl; try done. cbn. rewrite (Z.eqb_sym w' w).
  destruct (w =? w'); [|done]. cbn. apply IH. by injection Hl.
Qed.

Lemma bms_equal_sym a b : bms_equal a b = bms_equal b a.
Proof.
  destruct a as [a|], b as [b|]; try done. cbn. destruct (Z.leb_spec (nwords a) (nwords b)), (Z.leb_spec (nwords b) (nwords a)); try done.
  - apply equal_words_sym. unfold nwords in *. lia.
  - lia.
Qed.

Lemma bool_decide_sym {A} `{EqDecision A} (x y : A) : bool_decide (x = y) = bool_decide (y = x).
Proof. by apply bool_decide_ext. Qed.

Section Symmetry.
Context (n n' : fields) (ec ec' : string → tree → res bool).
Context (Hch : ∀ f r, ec f (node_of f n') = Ok r → ec' f (node_of f n) = Ok r).

Lemma compare_one_sym fl r : compare_one n n' ec fl = Ok r → compare_one n' n ec' fl = Ok r.
Proof.
  destruct fl; cbn [compare_one]; [by rewrite Z.eqb_sym|apply Hch|by rewrite bms_equal_sym|by rewrite bool_decide_sym|done|done].
Qed.

Lemma compare_sym l r : compare_fields n n' ec l = Ok r → compare_fields n' n ec' l = Ok r.
Proof.
  induction l as [|fl l IH]; [done|]. cbn [compare_fields]. unfold mbind, res_bind.
  destruct (compare_one n n' ec fl) as [b|e] eqn:E; [|done]. rewrite (compare_one_sym _ _ E). by destruct b.
Qed.

Lemma compare_scalars l f : compare_fields n n' ec l = Ok true → COMPARE_SCALAR_FIELD f ∈ l → scalar_of f n = scalar_of f n'.
Proof.
  induction l as [|fl l IH]; [by intros _ ?%elem_of_nil|]. cbn [compare_fields]. unfold mbind, res_bind.
  destruct (compare_one n n' ec fl) as [b|e] eqn:E; [|done]. destruct b; [|done]. intros Hl [<-|Hin]%elem_of_cons; [|by apply IH].
  cbn in E. injection E as E. by apply Z.eqb_eq.
Qed.

Lemma opfuncid_sym : opfuncid_differs n n' = opfuncid_differs n' n.
Proof. unfold opfuncid_differs. rewrite (Z.eqb_sym (scalar_of "opfuncid" n') (scalar_of "opfuncid" n)), <- !andb_assoc. f_equal. apply andb_comm. Qed.

Lemma operator_sym rest r : equal_operator n n' ec rest = Ok r → equal_operator n' n ec' rest = Ok r.
Proof.
  unfold equal_operator, mbind, res_bind. destruct (compare_fields n n' ec [_]) as [b|e] eqn:E; [|done].
  rewrite (compare_sym _ _ E). destruct b; [|done]. cbn [negb]. rewrite opfuncid_sym. destruct (opfuncid_differs n' n); [done|]. apply compare_sym.
Qed.
End Symmetry.

Lemma datumIsEqual_sym d1 d2 typbyval typlen r : datumIsEqual d1 d2 typbyval typlen = Ok r → datumIsEqual d2 d1 typbyval typlen = Ok r.
Proof.
  unfold datumIsEqual, mbind, res_bind. destruct typbyval, d1 as [b1|p1], d2 as [b2|p2]; try done; [by rewrite bool_decide_sym|].
  destruct (datumGetSize (ByReference p1) false typlen) as [s1|], (datumGetSize (ByReference p2) false typlen) as [s2|]; try done.
  rewrite (Z.eqb_sym s2). destruct (Z.eqb_spec s1 s2) as [->|Hne]; [|done]. cbn [negb]. destruct p1 as [p1|], p2 as [p2|]; try done.
  unfold bytes_equal, mbind, res_bind. destruct (copy_bytes p1 s2), (copy_bytes p2 s2); try done. by rewrite bool_decide_sym.
Qed.

Lemma struct_sym n n' ec ec' tag r : (∀ f r, ec f (node_of f n') = Ok r → ec' f (node_of f n) = Ok r) →
  equalStruct n n' ec tag = Ok r → equalStruct n' n ec' tag = Ok r.
Proof.
  intros Hch. unfold equalStruct. destruct (equalFunction n n' ec tag) as [l|c] eqn:E.
  - assert (equalFunction n' n ec' tag = Macros l) as -> by (by destruct tag). by apply compare_sym.
  - destruct tag; try discriminate E; injection E as <-; cbn [equalFunction]; try (by apply operator_sym); try done.
    unfold equalConst, mbind, res_bind. set (l := [_; _; _; _; _; _; _]).
    destruct (compare_fields n n' ec l) as [b|e] eqn:El; [|done]. rewrite (compare_sym n n' ec ec' Hch _ _ El).
    destruct b; [|done]. cbn [negb]. unfold true_of.
    rewrite <- !(compare_scalars n n' ec l) by (done || by apply (bool_decide_unpack _)).
    destruct (negb _); [done|]. apply datumIsEqual_sym.
Qed.

Lemma list_sym l : Forall (λ a, ∀ b r, equal a b = Ok r → equal b a = Ok r) l →
  ∀ l' r, equalList l l' = Ok r → equalList l' l = Ok r.
Proof.
  induction 1 as [|x l Hx _ IH]; intros [|x' l'] r; try done. cbn [equalList]. unfold mbind, res_bind.
  destruct (equal x x') as [b|e] eqn:E; [|done]. rewrite (Hx _ _ E). destruct b; [apply IH|done].
Qed.

Lemma tree_sym a b r : equal a b = Ok r → equal b a = Ok r.
Proof.
  revert b r. induction a as [|z|s|s|s|l IH|l|l|tag n IH] using tree_ind'; intros [|z'|s'|s'|s'|l'|l'|l'|tag' n'] r; try done;
    try (cbn; by rewrite 1?Z.eqb_sym, 1?bool_decide_sym).
  - change (equal (TList l) (TList l')) with (if negb (Nat.eqb (length l) (length l')) then Ok false else equalList l l').
    change (equal (TList l') (TList l)) with (if negb (Nat.eqb (length l') (length l)) then Ok false else equalList l' l).
    rewrite (Nat.eqb_sym (length l')). destruct (negb _); [done|]. by apply list_sym.
  - change (equal (Struct tag n) (Struct tag' n')) with (if negb (bool_decide (tag = tag')) then Ok false
      else equalStruct n n' (child (λ b, Ok (is_NULL b)) equal n) tag).
    change (equal (Struct tag' n') (Struct tag n)) with (if negb (bool_decide (tag' = tag)) then Ok false
      else equalStruct n' n (child (λ b, Ok (is_NULL b)) equal n') tag').
    rewrite (bool_decide_sym tag'). case_bool_decide as Ht; [|done]. subst tag'. cbn [negb]. apply struct_sym.
    intros f b. rewrite !child_node by done.
    apply (node_of_Forall (λ a, ∀ b r, equal a b = Ok r → equal b a = Ok r)); [|exact IH]. by intros [].
Qed.

(** Comparison is not transitive: an operator whose function is not filled in is equal to
    the operator with every function. *)
Definition op_with (opfuncid : Z) : tree := Struct T_OpExpr [("opno", VInt 96); ("opfuncid", VInt opfuncid)].

(** C21: [equal] is symmetric on all trees; it is not transitive, because an operator whose
    function is not filled in yet is equal to the operator with any function. *)
Theorem equal_symmetric a b r : (equal a b = Ok r → equal b a = Ok r) ∧
  equal (op_with 65) (op_with 0) = Ok true ∧ equal (op_with 0) (op_with 144) = Ok true ∧ equal (op_with 65) (op_with 144) = Ok false.
Proof. split; [apply tree_sym|done]. Qed.
