(* ===== verification/NodeStoredEq.v ===== *)
(** What is read back is equal to what was written, where [equal] looks only at fields that
    the text form keeps. *)

From S2P Require Import Prelude NodeText NodeTree NodeSchema NodeOut NodeRead NodeTextProps NodeStore NodeRoundtrip NodeProps.
From S2P Require Import NodeFields NodeCopy NodeEqual NodeCopyProps NodeEquiv.
From S2P Require Import Bitmapset BitSpec BitProps.

#[local] Open Scope string_scope.
#[local] Open Scope list_scope.
#[local] Open Scope Z_scope.

(** ** The fields that are read back *)

Definition stored_list (tag : NodeTag) (n : fields) : list field :=
  match tag with
  | T_BoolExpr => ENUM_FIELD "boolop" :: written_fields tag n
  | _ => written_fields tag n
  end.

Definition stored_value_of_const (tag : NodeTag) (n : fields) : fields :=
  match tag with
  | T_Const => if bool_of "constisnull" n then [] else [("constvalue", VDatum (datum_of "constvalue" n))]
  | _ => []
  end.

Lemma stored_struct_list tag n node :
  stored_struct tag n node = stored_fields n node (stored_list tag n) ++ stored_value_of_const tag n.
Proof.
  unfold stored_struct, stored_list, stored_value_of_const. destruct tag; try by rewrite app_nil_r.
  destruct (bool_of "constisnull" n); by rewrite ?app_nil_r.
Qed.

(** How a field is written. *)
Definition written_as (tag : NodeTag) (n : fields) (f : string) : option field :=
  List.find (λ fl, String.eqb f (field_name fl)) (stored_list tag n).

Lemma find_stored n node f l :
  lookup_field f (stored_fields n node l) = stored_value n node <$> List.find (λ fl, String.eqb f (field_name fl)) l.
Proof. induction l as [|fl l IH]; [done|]. cbn. by destruct (String.eqb f (field_name fl)). Qed.

(** ** Trees that keep what is compared *)

Definition int_kind (v : option fval) : bool := match v with None | Some (VInt _) => true | _ => false end.
Definition bool_kind (v : option fval) : bool := match v with None | Some (VBool _) => true | _ => false end.

(** A field that is compared is written as what it is, or zero; an empty string is not
    distinguished from a missing one. *)
Definition kept_field (tag : NodeTag) (n : fields) (fl : compare_field) : bool :=
  match fl with
  | COMPARE_SCALAR_FIELD f =>
      match written_as tag n f with
      | Some (INT_FIELD _ | INT16_FIELD _ | UINT_FIELD _ | OID_FIELD _ | CHAR_FIELD _ | ENUM_FIELD _) => int_kind (lookup_field f n)
      | Some (BOOL_FIELD _) => bool_kind (lookup_field f n)
      | Some _ => false
      | None => scalar_of f n =? 0
      end
  | COMPARE_NODE_FIELD f =>
      match written_as tag n f with Some (NODE_FIELD _) => true | Some _ => false | None => is_NULL (node_of f n) end
  | COMPARE_STRING_FIELD f =>
      match written_as tag n f with
      | Some (STRING_FIELD _) => negb (bool_decide (string_of f n = Some []))
      | Some _ => false
      | None => bool_decide (string_of f n = None)
      end
  | COMPARE_BITMAPSET_FIELD f =>
      match written_as tag n f with
      | Some (BITMAPSET_FIELD _) => true
      | Some _ => false
      | None => bool_decide (bitmapset_of f n = None)
      end
  | COMPARE_LOCATION_FIELD _ | COMPARE_COERCIONFORM_FIELD _ => true
  end.

Definition kept_struct (tag : NodeTag) (n : fields) : bool :=
  forallb (kept_field tag n) (compared_list tag) &&
  (negb (has_opfuncid tag) || int_kind (lookup_field "opfuncid" n)) &&
  match tag with
  | T_Const => bool_of "constisnull" n || match datum_of "constvalue" n with ByReference None => false | _ => true end
  | _ => true
  end.

Fixpoint kept (t : tree) : bool :=
  match t with
  | TList l => forallb kept l
  | Struct tag n => kept_struct tag n && forallb (λ p, match p.2 with VNode t => kept t | _ => true end) n
  | _ => true
  end.

(** ** Structs *)

Section Struct.
Context (tag : NodeTag) (n : fields) (node : string → tree).

Lemma written_as_name f fl : written_as tag n f = Some fl → field_name fl = f ∧ fl ∈ stored_list tag n.
Proof. intros [Hin He%String.eqb_eq]%find_some. split; [done|]. by apply list_elem_of_In. Qed.

Lemma lookup_stored f : f ≠ "constvalue" →
  lookup_field f (stored_struct tag n node) = stored_value n node <$> written_as tag n f.
Proof.
  intros Hf. rewrite stored_struct_list, lookup_app, find_stored. unfold written_as.
  destruct (List.find _ _) as [fl|]; [done|]. cbn. unfold stored_value_of_const. destruct tag; try done.
  destruct (bool_of "constisnull" n); [done|]. cbn. by rewrite (proj2 (String.eqb_neq _ _)).
Qed.

Lemma no_constvalue f : COMPARE_SCALAR_FIELD f ∈ compared_list tag ∨ COMPARE_NODE_FIELD f ∈ compared_list tag ∨
  COMPARE_BITMAPSET_FIELD f ∈ compared_list tag ∨ COMPARE_STRING_FIELD f ∈ compared_list tag → f ≠ "constvalue".
Proof.
  intros H ->. revert H. apply (bool_decide_unpack _). by destruct tag.
Qed.

Lemma scalar_kept f : f ≠ "constvalue" → kept_field tag n (COMPARE_SCALAR_FIELD f) = true →
  scalar_of f (stored_struct tag n node) = scalar_of f n.
Proof.
  intros Hf. cbn [kept_field]. unfold scalar_of at 2. rewrite (lookup_stored f Hf).
  destruct (written_as tag n f) as [fl|] eqn:E; [|intros H%Z.eqb_eq; by rewrite H].
  destruct (written_as_name _ _ E) as [Hn _]. destruct fl; try done; cbn in Hn; subst; cbn; unfold int_of, bool_of, scalar_of;
    destruct (lookup_field f n) as [[]|]; done.
Qed.

Context (equalChild : string → tree → res bool).
Context (Hok : forallb (field_ok n (λ _, true)) (written_fields tag n) = true).
Context (Hch : ∀ f, NODE_FIELD f ∈ written_fields tag n → equalChild f (node f) = Ok true).
Context (Hnull : ∀ f, node_of f n = NULL_ptr → equalChild f NULL_ptr = Ok true).

Lemma stored_written fl : fl ∈ stored_list tag n → fl = ENUM_FIELD "boolop" ∨ fl ∈ written_fields tag n.
Proof. unfold stored_list. destruct tag; try (by right). intros [->|Hin]%elem_of_cons; [by left|by right]. Qed.

Lemma field_kept fl : fl ∈ compared_list tag → kept_field tag n fl = true →
  compare_one n (stored_struct tag n node) equalChild fl = Ok true.
Proof.
  intros Hin Hk. destruct fl as [f|f|f|f|f|f]; cbn [compare_one]; try done.
  - rewrite scalar_kept; [by rewrite Z.eqb_refl|apply no_constvalue; by left|done].
  - cbn [kept_field] in Hk. unfold node_of. rewrite lookup_stored by (apply no_constvalue; right; by left).
    destruct (written_as tag n f) as [fl|] eqn:E.
    + destruct (written_as_name _ _ E) as [Hn Hw]. destruct fl; try done. cbn in Hn. subst. cbn.
      apply Hch. by apply stored_written in Hw as [?|?].
    + cbn. apply Hnull. by destruct (node_of f n).
  - cbn [kept_field] in Hk. change (bitmapset_of f (stored_struct tag n node)) with
      (match lookup_field f (stored_struct tag n node) with Some (VBitmapset a) => a | _ => None end). rewrite lookup_stored by (apply no_constvalue; do 2 right; by left).
    destruct (written_as tag n f) as [fl|] eqn:E.
    + destruct (written_as_name _ _ E) as [Hn Hw]. destruct fl; try done. cbn in Hn. subst. cbn.
      apply stored_written in Hw as [?|Hw]; [done|]. apply forallb_Forall in Hok. rewrite Forall_forall in Hok.
      pose proof (Hok _ Hw) as Hs. cbn in Hs. destruct (rebuilt_ok _ Hs) as [_ [Hr1 Hr2]]. apply set_ok_spec in Hs as [Hs _].
      rewrite equal_decides by done. by rewrite bool_decide_eq_true_2.
    + apply bool_decide_eq_true in Hk. by rewrite Hk.
  - cbn [kept_field] in Hk. change (string_of f (stored_struct tag n node)) with
      (match lookup_field f (stored_struct tag n node) with Some (VString s) => s | _ => None end). rewrite lookup_stored by (apply no_constvalue; by do 3 right).
    destruct (written_as tag n f) as [fl|] eqn:E.
    + destruct (written_as_name _ _ E) as [Hn Hw]. destruct fl; try done. cbn in Hn. subst. cbn.
      destruct (string_of f n) as [[|c s]|]; [by rewrite bool_decide_eq_true_2 in Hk|by rewrite bool_decide_eq_true_2..].
    + apply bool_decide_eq_true in Hk. rewrite Hk. by rewrite bool_decide_eq_true_2.
Qed.
End Struct.

Lemma opfuncid_written tag n : has_opfuncid tag = true → written_as tag n "opfuncid" = Some (OID_FIELD "opfuncid").
Proof. by destruct tag. Qed.

(** The value of a constant. *)
Lemma const_kept n node : code_ok T_Const n = true → kept_struct T_Const n = true → true_of "constisnull" n = false →
  datumIsEqual (datum_of "constvalue" n) (datum_of "constvalue" (stored_struct T_Const n node))
    (true_of "constbyval" n) (scalar_of "constlen" n) = Ok true.
Proof.
  intros Hc Hk Hnull. unfold kept_struct in Hk. rewrite !andb_true_iff in Hk. destruct Hk as [[Hk _] Hd].
  cbn [compared_list forallb] in Hk. rewrite !andb_true_iff in Hk. destruct Hk as (_ & _ & _ & Hl & Hn & Hb & _).
  assert (bool_of "constisnull" n = false ∧ bool_of "constbyval" n = true_of "constbyval" n ∧ int_of "constlen" n = scalar_of "constlen" n)
    as (En & Eb & El).
  { revert Hl Hn Hb Hnull. cbn. unfold true_of, scalar_of, bool_of, int_of.
    destruct (lookup_field "constisnull" n) as [[| | | | |]|], (lookup_field "constbyval" n) as [[| |  | | |]|],
      (lookup_field "constlen" n) as [[| | | | |]|]; try done; intros; split_and!; try done;
      repeat match goal with b : bool |- _ => destruct b end; done. }
  cbn [code_ok] in Hc. rewrite En in Hc, Hd. cbn [orb] in Hc, Hd. rewrite Eb, El in Hc.
  assert (datum_of "constvalue" (stored_struct T_Const n node) = datum_of "constvalue" n) as ->.
  { unfold datum_of at 1. rewrite stored_struct_list, lookup_app, find_stored. unfold stored_value_of_const. by rewrite En. }
  destruct (true_of "constbyval" n), (datum_of "constvalue" n) as [b|[s|]]; try done; cbn [datum_ok] in Hc.
  - unfold datumIsEqual. by rewrite bool_decide_eq_true_2.
  - apply andb_true_iff in Hc as [_ Hs]. apply bool_decide_eq_true in Hs. unfold datumIsEqual, mbind, res_bind.
    rewrite Hs, Z.eqb_refl. cbn [negb]. unfold bytes_equal, mbind, res_bind. rewrite copy_bytes_all. by rewrite bool_decide_eq_true_2.
Qed.

(** ** Trees *)

Lemma struct_kept tag n : (∀ f, storable (node_of f n) = true → equal (node_of f n) (stored (node_of f n)) = Ok true) →
  storable (Struct tag n) = true → supported tag = true → kept_struct tag n = true →
  equal (Struct tag n) (stored (Struct tag n)) = Ok true.
Proof.
  intros Hch Hst Hsup Hk. set (ec := child (λ b, Ok (is_NULL b)) equal n). set (node := child NULL_ptr stored n).
  change (equal (Struct tag n) (stored (Struct tag n))) with
    (if negb (bool_decide (tag = tag)) then Ok false else equalStruct n (stored_struct tag n node) ec tag).
  rewrite bool_decide_eq_true_2 by done. cbn [negb]. cbn [storable] in Hst. apply andb_true_iff in Hst as [Hc Hf].
  pose proof Hk as Hk'. unfold kept_struct in Hk'. rewrite !andb_true_iff in Hk'. destruct Hk' as [[Hk1%forallb_Forall Hk2] _].
  rewrite Forall_forall in Hk1. apply forallb_Forall in Hf. apply struct_equal; [done| | |].
  - intros fl Hin. apply field_kept; [| | |done|by apply Hk1].
    + apply forallb_Forall. eapply Forall_impl; [exact Hf|]. by intros [].
    + intros f Hin'. subst ec node. rewrite !child_node by done. rewrite Forall_forall in Hf. pose proof (Hf _ Hin') as Hs.
      change (child true storable n f = true) in Hs. rewrite child_node in Hs by done. by apply Hch.
    + intros f Hn. subst ec. rewrite child_node by done. by rewrite Hn.
  - intros Ho. rewrite Ho in Hk2. cbn [negb orb] in Hk2. unfold opfuncid_differs. rewrite (scalar_kept tag n node "opfuncid");
      [by rewrite Z.eqb_refl|done|]. cbn [kept_field]. by rewrite opfuncid_written.
  - intros ->. by apply const_kept.
Qed.

Lemma list_kept l : Forall (λ t, equal t (stored t) = Ok true) l → equal (TList l) (TList (map stored l)) = Ok true.
Proof.
  intros Hl. change (equal (TList l) (TList (map stored l))) with
    (if negb (Nat.eqb (length l) (length (map stored l))) then Ok false else equalList l (map stored l)).
  rewrite length_map, Nat.eqb_refl. cbn [negb]. induction Hl as [|x l Hx _ IH]; [done|]. cbn. by rewrite Hx.
Qed.

Lemma tree_kept t : storable t = true → comparable t = true → kept t = true → equal t (stored t) = Ok true.
Proof.
  induction t as [|z|s|s|s|l IH|l|l|tag n IH] using tree_ind'; intros Hs Hc Hk;
    try (cbn; by rewrite ?Z.eqb_refl, ?bool_decide_eq_true_2).
  - apply list_kept. cbn [storable comparable kept] in *. destruct l as [|x l]; [done|].
    apply forallb_Forall in Hs, Hc, Hk. rewrite Forall_forall in IH, Hs, Hc, Hk |- *. intros y Hy. apply IH; auto.
  - cbn [comparable kept] in Hc, Hk. apply andb_true_iff in Hc as [Hsup Hc], Hk as [Hk1 Hk]. apply struct_kept; [|done..].
    intros f Hsf. apply (node_of_Forall (λ t, storable t = true → comparable t = true → kept t = true → equal t (stored t) = Ok true));
      [done|exact IH|done|by apply node_of_forallb..].
Qed.

(** C18: storing is faithful up to [equal]: for a tree whose compared fields are all kept by
    the text form (fields that are not written are zero, strings are not empty), the text is
    read back as a tree that [equal] calls equal to the original. *)
Theorem stored_equal t : storable t = true → comparable t = true → kept t = true →
  ∃ s, nodeToString t = Ok s ∧ ∀ fuel, (length s < fuel)%nat → ∃ t', stringToNode fuel s = Ok t' ∧ equal t t' = Ok true.
Proof.
  intros Hs Hc Hk. destruct (tree_stores t Hs) as (w & Hw & Hr). exists w. split; [by apply writes_toString|].
  intros fuel Hf. exists (stored t). split; [by apply reads_string|]. by apply tree_kept.
Qed.

Lemma stored_equal_witness : ∃ s, nodeToString logged_quals = Ok s ∧
  ∀ fuel, (length s < fuel)%nat → ∃ t', stringToNode fuel s = Ok t' ∧ equal logged_quals t' = Ok true.
Proof. apply stored_equal; vm_compute; reflexivity. Defined.

(** A field that is compared but not written: the catalog name of a relation. *)
Example catalog_name_lost :
  let t := Struct T_RangeVar [("catalogname", VString (Some (lit_text "db"))); ("relname", VString (Some (lit_text "r")));
                              ("relpersistence", VInt 112)] in
  storable t = true ∧ equal t (stored t) = Ok false.
Proof. vm_compute. by split. Qed.
