(* ===== verification/HookProps.v ===== *)
(** The hook as a whole on select-join queries.

    Without sub-queries there is nothing to rewrite: the walker and the mutator return
    the query as it is, and so do the split and the exists passes after the
    self-constraint pass.  The theorem composes the four passes: the hook returns on every
    such query and, if the columns in use keep their positions, the query it returns has
    the answers of the given one, and they are certain. *)

From S2P Require Import Prelude Nodes Terms PgList ListSpec ListOps ListSets TrueVar TrueVarSpec.
From S2P Require Import Walker Codd HookClass Semantics SelfOpt SplitOpt ExistOpt Hook Samples.
From S2P Require Import Mutators CoddProps CoddNeg NotNull Regions WalkerSpec QueryWalk QueryMutate CertainAnswer CoddCertain.
From S2P Require Import SelfProps SelfPush SelfQuery Answers.

(** ** Nodes without sub-queries *)

Fixpoint flat (n : node) : bool :=
  match n with
  | NULL | Var _ | Const _ | RangeTblRef _ => true
  | FuncExpr _ a | OpExpr _ a | RelabelType _ a | NullTest _ a _ | BoolExpr AND_EXPR a _ => flat a
  | NList l => match l with [] => false | _ => forallb flat l end
  | FromExpr f q => flat f && flat q
  | _ => false
  end.

(** The mutators that hand such nodes to the generic one. *)
Class PassesFlat {S : Type} (m : node → M S node) : Prop :=
  passes_flat n s : flat n = true → m n s = expression_tree_mutator m n s.

Section Flat.
Context {S : Type} (m : node → M S node) `{!PassesFlat m}.

Lemma flat_list l : Forall (λ x, flat x = true → ∀ s, m x s = Ok (x, s)) l → forallb flat l = true →
  ∀ s, mutate_list m l s = Ok (l, s).
Proof.
  induction 1 as [|x l Hx _ IH]; intros Hf s; [done|]. cbn in Hf. apply andb_true_iff in Hf as [Hfx Hf].
  cbn. erewrite bind_Ok by by apply Hx. by erewrite bind_Ok by by apply IH.
Qed.

(** A flat node is returned as it is. *)
Lemma flat_mutates n : flat n = true → ∀ s, m n s = Ok (n, s).
Proof.
  induction n using node_ind'; try done; intros Hf s; rewrite passes_flat by done; cbn; try done.
  1-2,4-5: by erewrite bind_Ok by by apply IHn.
  - destruct b; try done. by erewrite bind_Ok by by apply IHn.
  - cbn in Hf. apply andb_true_iff in Hf as [Hf1 Hf2]. erewrite bind_Ok by by apply IHn1. by erewrite bind_Ok by by apply IHn2.
  - apply bool_nonempty in Hf as [Hne Hf]. erewrite bind_Ok by by apply flat_list. unfold ret. by rewrite of_list_ne.
Qed.
End Flat.

Lemma flat_nlist l : l ≠ [] → forallb flat l = true → flat (NList l) = true.
Proof. by destruct l. Qed.

Lemma term_flat n : (is_term n = true → flat n = true) ∧ ∀ l, n = NList l → forallb is_term l = true → forallb flat l = true.
Proof.
  induction n using node_ind'; destruct_and?; (split; [|intros l' [=]; subst; try done]); try done.
  - destruct n; try done. intros [Hne Ht]%bool_nonempty. apply flat_nlist; eauto.
  - induction H as [|x l [Hx _] _ IH]; [done|]. cbn. rewrite !andb_true_iff. naive_solver.
Qed.

Lemma atom_flat n : is_atom n = true → flat n = true.
Proof.
  destruct n as [| | | |o a| |t a loc| | | | | | | | | |]; try done; [|exact (proj1 (term_flat a))].
  destruct a; try done. intros [Hne Ht]%bool_nonempty. apply flat_nlist; [done|]. by eapply term_flat.
Qed.

(** What the self-constraint pass leaves is flat. *)
Lemma stay_flat l l' : Forall2 stays l l' → Forall (λ n, is_atom n = true) l → forallb flat l' = true.
Proof.
  induction 1 as [|x x' l l' Hx _ IH]; [done|]. intros [Ha Hl]%Forall_cons. cbn. rewrite IH by done.
  destruct Hx as [->| ->]; [by rewrite atom_flat|done].
Qed.

Lemma remnant_flat quals quals' : Forall (λ n, is_atom n = true) (conjuncts quals) → conjuncts quals ≠ [] →
  remnant quals quals' → flat quals' = true.
Proof.
  intros Ha Hne [Hs|(l & l' & loc & -> & -> & _ & Hs)].
  - destruct Hs as [->| ->]; [|done].
    destruct (conjuncts_cases quals) as [Hq|(l & loc & ->)]; [rewrite Hq, Forall_singleton in Ha; by apply atom_flat|].
    apply flat_nlist; [done|]. eapply stay_flat; [|exact Ha]. apply Forall_Forall2_diag, Forall_true. by left.
  - apply flat_nlist; [|by eapply stay_flat]. intros ->. by apply Forall2_nil_inv_r in Hs.
Qed.

Lemma refs_flat refs : flat (of_list (map RangeTblRef refs)) = true.
Proof. destruct refs as [|i refs]; [done|]. cbn. by induction refs. Qed.

(** ** The passes after the self-constraint pass *)

#[global] Instance self_passes {B : Build} : PassesFlat mutator_deep.
Proof. by intros []. Qed.

#[global] Instance split_passes {B : Build} fuel : PassesFlat (mutator_split_deep fuel).
Proof. intros [| | | | |[] | | | | | | | | | | |] s; done. Qed.

#[global] Instance exist_passes {B : Build} : PassesFlat mutator_exist_deep.
Proof. by intros []. Qed.

(** ** The rewriting *)

Section Rewriting.
Context {B : Build} {C : SysCache} {I : Interp} {Co : Completion} {W : node → WM bool} {Mu : node → MM node}.
Context {pos_op neg_op : opinfo → list node → Prop} {pos_keys : stack → list node → list key} {ready_ok : bool → Prop}.
Context {HW : WalkerCases W} {HMu : MutatorCases Mu} {Hwalk : WalkedAtoms W pos_op neg_op pos_keys ready_ok}.

(** An atom that the mutator does not change outside negations. *)
Definition untouched (n : node) : Prop := ∀ h c, m_ready c = false → m_positive c = true → m_constraint_to_add c = [] →
  Mu n (h, c) = Ok (n, (h, c)).

Lemma untouched_list l : Forall untouched l → ∀ h c, m_ready c = false → m_positive c = true → m_constraint_to_add c = [] →
  mutate_list Mu l (h, c) = Ok (l, (h, c)).
Proof.
  induction 1 as [|x l Hx _ IH]; intros h c Hr Hp Hc; [done|]. cbn. erewrite bind_Ok by by apply Hx.
  by erewrite bind_Ok by by apply IH.
Qed.

Context (qi : queryinfo) (rt fl : list node) (tl : node).
Context (Hrt : forallb is_relation rt = true) (Hfl : forallb is_rtref fl = true) (Hne : fl ≠ []).

Local Abbreviation query quals := (Query qi (NList rt) (FromExpr (NList fl) quals) tl).
Local Abbreviation rewrites_to := (rewrites_to (W := W) (Mu := Mu)).

Lemma single_untouched quals : atom pos_op neg_op rt quals → untouched quals → rewrites_to (query quals) (query quals).
Proof.
  intros Ha Hu.
  destruct (query_walks [] qi rt fl quals tl _ _ _ _ _ Hrt Hfl (atom_walks rt quals Ha)
    _ _ _ _ _ _ _ _ _ _ walker_starts ready_at_first) as (P & h & c & lt & lf & E & _ & _ & Hq & Hlen & HG).
  cbn [app] in Hq. pose proof (Forall2_length _ _ _ HG) as Hlen'.
  destruct (qinv_remains _ _ _ _ _ _ _ _ _ _ (eq_trans Hlen (eq_sym Hlen')) Hq) as (w & <- & Htv & _ & Hleft & _).
  destruct (mutator_enters w c _ qi rt fl quals tl _ Hleft Htv Hfl) as (c0 & c1 & E0 & (_ & _ & _ & Hcs & _) & Hp & Hrd & _ & _ & Hrun).
  destruct (Hrun quals (left_heap w, c1)) as [s' E3]; [by apply Hu|]. rewrite of_list_ne in E3 by done. by eapply rewrites_eq.
Qed.

Lemma and_untouched args loc : args ≠ [] → Forall (atom pos_op neg_op rt) args → Forall untouched args →
  let quals := BoolExpr AND_EXPR (NList args) loc in rewrites_to (query quals) (query quals).
Proof.
  intros Hargs Ha Hu quals.
  destruct (and_walked qi rt fl args loc tl Hrt Hfl Ha) as (w & c & lt & u & lf & n & csT & E & Hleft & Htv & Hlt & _ & _ & _ & HT).
  destruct (mutator_enters w c _ qi rt fl quals tl _ Hleft Htv Hfl) as (c0 & c1 & E0 & Hm & Hp & Hrd & Hi & _ & Hmut).
  assert (length (cellsLT w) = S (length lt)) as HcT.
  { apply (f_equal length) in Hlt. rewrite !length_fmap, length_app in Hlt. cbn in Hlt. lia. }
  destruct (and_or_enter w (expression_tree_mutator Mu quals) (left_heap w) c1 _ _ 0 (cellsLT w) (lt ++ [u]) u csT
    (union_keys (concat (map (true_columns rt) args))) Hm Hi)
    as (h3 & l & _ & (_ & _ & _ & Hcs & _) & Hand); [lia|rewrite Hp; apply listLT|done| |exact HT|].
  { rewrite HcT, lookup_app_r by lia. by replace (S (length lt) - 0 - 1 - length lt)%nat with 0%nat by lia. }
  destruct (Hmut quals (h3, m_set_not_null (m_list_of_not_null_in_current c1) (m_set_where (m_where_i_am c1 + 1) (m_set_not_null l c1)))) as [s' E5].
  { subst quals. rewrite mutator_and_or by done. apply Hand. cbn [expression_tree_mutator]. rewrite mutator_other by done.
    cbn. rewrite bind_assoc. erewrite bind_Ok by by apply untouched_list. unfold bind, ret. by rewrite of_list_ne. }
  rewrite of_list_ne in E5 by done. by eapply rewrites_eq.
Qed.

(** A query whose conjuncts are not touched is returned as it is. *)
Lemma query_untouched quals : conjuncts quals ≠ [] → Forall (atom pos_op neg_op rt) (conjuncts quals) →
  Forall untouched (conjuncts quals) → rewrites_to (query quals) (query quals).
Proof.
  destruct (conjuncts_cases quals) as [->|(args & loc & ->)]; [|by apply and_untouched].
  rewrite !Forall_singleton. intros _. apply single_untouched.
Qed.
End Rewriting.

(** ** The hook *)

(** Comparisons of columns of the query over [l], each with at most two of them. *)
Definition comparison {C : SysCache} (l : list node) (n : node) : Prop :=
  match n with
  | OpExpr _ (NList args) => local_atom (Z.of_nat (length l)) n = true ∧ resolved [scope_of l] (NList args)
  | _ => False
  end.

Definition select_join {C : SysCache} (l : list node) (quals : node) : Prop :=
  conjuncts quals ≠ [] ∧ Forall (comparison l) (conjuncts quals).

Section Hook.
Context {B : Build} {C : SysCache} {I : Interp}.

Lemma comparison_local l n : comparison l n → local_atom (Z.of_nat (length l)) n = true.
Proof. destruct n as [| | | |o a| | | | | | | | | | | |]; try done. destruct a; try done. by intros [? _]. Qed.

Lemma comparison_is_atom l n : comparison l n → is_atom n = true.
Proof. intros Hn%comparison_local. unfold local_atom in Hn. rewrite !andb_true_iff in Hn. naive_solver. Qed.

Lemma comparison_atom l n : comparison l n → atom any_op known_op l n.
Proof.
  intros Hn. pose proof (comparison_is_atom l n Hn) as Ha. destruct n as [| | | |o a| | | | | | | | | | | |]; try done.
  destruct a; try done. destruct Hn as [_ Hr]. apply bool_nonempty in Ha as [Hne Ht]. done.
Qed.

Lemma atom_untouched n : is_atom n = true → untouched (Mu := my_mutator) n.
Proof.
  intros Ha h c Hr Hp Hc. destruct n as [| | | |o a| |t a loc| | | | | | | | | |]; try done.
  - destruct a as [| | | | | | | | | | | | | | |args|]; try done. apply bool_nonempty in Ha as [Hne Ht]. cbn [my_mutator]. unfold mutate_op.
    erewrite (bind_Ok _ _ _ _ (h, c)) by (unfold modc; cbn; by rewrite Hp). erewrite bind_Ok.
    2: { cbn. rewrite bind_assoc. erewrite bind_Ok; [unfold ret, bind; by rewrite of_list_ne|].
         clear Hne. induction args as [|x args IH]; [done|]. cbn in Ht. apply andb_true_iff in Ht as [Htx Ht].
         cbn. erewrite bind_Ok by by apply idle_term. by erewrite bind_Ok by by apply IH. }
    erewrite bind_Ok by reflexivity. cbn beta. cbn. by rewrite Hc.
  - cbn. by erewrite bind_Ok by by apply idle_term.
Qed.

Lemma base_relations l : Forall (λ n, base n = true) l → forallb is_relation l = true.
Proof.
  induction 1 as [|n l Hn _ IH]; [done|]. cbn. rewrite IH. destruct n as [| | | | | | | | | | | | |r q| | |]; try done.
  destruct q; try done. cbn in *. by destruct (rtekind r).
Qed.

Lemma select_join_rewritten qi l refs quals tl : Forall (λ n, base n = true) l → refs ≠ [] → select_join l quals →
  let q := Query qi (NList l) (FromExpr (NList (map RangeTblRef refs)) quals) tl in rewrite_query q = Ok q.
Proof.
  intros Hl Hrefs [Hne Hq] q.
  destruct (query_untouched (W := my_walker) (Mu := my_mutator) (ready_ok := any_ready) (pos_op := any_op) (neg_op := known_op)
    (pos_keys := op_keys) qi l (map RangeTblRef refs) tl) with (quals := quals)
    as (h & c & c0 & h' & c' & E1 & E2 & E3).
  - by apply base_relations.
  - clear. by induction refs.
  - by destruct refs.
  - done.
  - eapply Forall_impl; [exact Hq|]. apply comparison_atom.
  - eapply Forall_impl; [exact Hq|]. intros n Hn%comparison_is_atom. by apply atom_untouched.
  - unfold rewrite_query. subst q. by rewrite E1, E2, E3.
Qed.
(** The passes after the rewriting, from what the self-constraint pass returns. *)
Lemma passes_compose qi l from quals tl l' quals' fuel i i' :
  let q := Query qi (NList l) (FromExpr from quals) (NList tl) in
  let q' := Query qi (NList l') (FromExpr from quals') (NList tl) in
  flat from = true → flat quals = true → flat quals' = true →
  rewrite_query q = Ok q → optimize_self_constraint q i = Ok (q', i') →
  my_post_parse_analyse_hook fuel q i = Ok (q', i').
Proof.
  intros q q' Hf Hq Hq' E1 E2. unfold my_post_parse_analyse_hook.
  assert (∀ x, flat x = true → flat (FromExpr from x) = true) as Hj by (intros x Hx; cbn; by rewrite Hf, Hx).
  erewrite bind_Ok by (unfold of_res; by rewrite E1). erewrite bind_Ok.
  2: { unfold optimize_self_constraint_deep. subst q. cbn [mutator_deep]. erewrite bind_Ok; [exact E2|].
       rewrite <- passes_flat by auto. apply flat_mutates; auto with typeclass_instances. }
  erewrite bind_Ok by reflexivity. erewrite bind_Ok.
  2: { unfold optimize_split_deep, of_res. subst q'. cbv beta iota. rewrite (flat_mutates (mutator_split_deep fuel)) by auto. reflexivity. }
  erewrite bind_Ok by reflexivity. subst q'. cbn [optimize_exist_deep].
  by erewrite bind_Ok by (apply (flat_mutates mutator_exist_deep); auto).
Qed.

(** Comparisons that are true stay true when nulls get values. *)
Lemma comparisons_certain l quals db' e e' : Forall (comparison l) (conjuncts quals) → env_becomes e e' →
  eval quals e = TT → eval (I := with_db I db') quals e' = TT.
Proof.
  intros Hq He HT. apply conjuncts_true. rewrite conjuncts_eval in HT. rewrite and3_list_TT, Forall_forall in HT.
  rewrite Forall_forall in Hq |- *. intros n Hn. specialize (Hq n Hn). pose proof (comparison_is_atom l n Hq) as Ha.
  destruct n as [| | | |o a| | | | | | | | | | | |]; try done. destruct a; try done. apply bool_nonempty in Ha as [_ Ht].
  eapply (op_known db' e e' o); [done..| | |done].
  - apply Forall_Forall2_diag, Forall_forall. by intros ? _ ?.
  - symmetry. apply HT, list_elem_of_fmap. eauto.
Qed.

(** The rows that a combination of rows becomes. *)
Lemma rows_complete l db' rows : Forall (λ n, base n = true) l → db_completes db' → rows ∈ product (map rte_rows l) →
  ∃ rows', rows' ∈ product (map (rte_rows (I := with_db I db')) l) ∧ Forall2 row_completes rows rows'.
Proof.
  intros Hb Hdb. setoid_rewrite product_elem. revert rows. induction Hb as [|n l Hn _ IH]; intros rows Hrows.
  - apply Forall2_nil_inv_r in Hrows as ->. exists []. split; constructor.
  - apply Forall2_cons_inv_r in Hrows as (r & rows1 & Hr & Hrows & ->). destruct (IH _ Hrows) as (rows' & Hrows' & Hc).
    destruct n as [| | | | | | | | | | | | |rt s| | |]; try done. destruct s; try done. cbn in Hn, Hr. destruct (rtekind rt) eqn:Ek; try done.
    apply list_elem_of_lookup in Hr as [j Hj]. destruct (Forall2_lookup_l _ _ _ _ _ (Hdb (relid rt)) Hj) as (r' & Hj' & Hrr).
    exists (r' :: rows'). split; constructor; try done. cbn. rewrite Ek. by eapply list_elem_of_lookup_2.
Qed.

(** A tuple gives values to nulls of another. *)
Definition tuple_completes : list (option Z) → list (option Z) → Prop := Forall2 (λ v v', ∀ z, v = Some z → v' = Some z).

(** The answers of a select-join query are certain. *)
Lemma answers_certain qi l fl quals tl db' e t : Forall (λ n, base n = true) l → forallb simple_target tl = true →
  Forall (comparison l) (conjuncts quals) → db_completes db' →
  let q := Query qi (NList l) (FromExpr fl quals) (NList tl) in
  t ∈ answers q e → ∃ t', t' ∈ answers (I := with_db I db') q e ∧ tuple_completes t t'.
Proof.
  intros Hb Htl Hq Hdb q. subst q. rewrite !answers_query.
  destruct (names_all _ _); [|cbn; by intros ?%elem_of_nil].
  assert (∀ J : Interp, map (entry_rows (I := J) e) l = map (rte_rows (I := J)) l) as Hrows.
  { intros J. apply map_ext_in. intros x Hx%list_elem_of_In. apply base_rows. rewrite Forall_forall in Hb. auto. }
  rewrite !Hrows. cbn [list_of]. intros (rows & -> & [Hin HT%is_TT_true]%list_elem_of_In%filter_In)%list_elem_of_fmap.
  destruct (rows_complete l db' rows Hb Hdb) as (rows' & Hin' & Hc); [by apply list_elem_of_In|].
  assert (env_becomes (push rows e) (push rows' e)) as He by (apply becomes_push; [done|]; by intros lv no att z).
  eexists. split.
  - apply list_elem_of_fmap. exists rows'. split; [reflexivity|]. apply list_elem_of_In, filter_In.
    split; [by apply list_elem_of_In|]. apply is_TT_true. by eapply comparisons_certain.
  - clear -Htl He. unfold tuple_completes. induction tl as [|x tl IH]; [constructor|]. cbn in Htl. apply andb_true_iff in Htl as [Hx Htl].
    cbn [map]. constructor; [|by apply IH]. destruct x as [| | | | | | | | |te x| | | | | | |]; try done.
    destruct x as [|v| | | | | | | | | | | | | | |]; try done. intros z. apply He.
Qed.

End Hook.

