(* ===== verification/HookCases.v ===== *)
(** Queries on which the hooks do not do what they are meant to.

    Each theorem runs the model on one query, or on every query of a kind, and states
    the outcome: an error of the backend, an endless loop, or an answer that is not
    certain. *)

From S2P Require Import Prelude Nodes PgList TrueVar TrueVarSpec Walker Codd Marked.
From S2P Require Import Semantics SelfOpt SplitOpt ExistOpt Hook SplitProps CoddNeg Samples.

(** ** What the walker recorded *)

(** The keys of the lists recorded for the AND and OR of a query, in the order of
    [list_list_true]. *)
Definition read_keys (p : option positive) : M heap (list key) :=
  r <- foreach (R := list key) p (λ cell acc,
         t <- lfirst cell;; v <- get_var t;; ret (Cont (acc ++ [key_of v]))) [];;
  ret match r with Cont ks => ks | Done ks => ks end.

Definition recorded {B : Build} {C : SysCache} (query : node) : res (list (list key)) :=
  match Codd.my_walker query (empty_heap, make_context_walker_set_constraint) with
  | Err e => Err e
  | Ok (_, (h, ctx)) =>
      run (r <- foreach (R := list (list key)) (w_list_list_true ctx) (λ cell acc,
                  p <- lfirst cell;; ks <- read_keys p;; ret (Cont (acc ++ [ks]))) [];;
           ret match r with Cont kss => kss | Done kss => kss end) h
  end.

(** An arithmetic expression in the first comparison of a WHERE clause is an error:
    for "x + 1 = 2" the walker concatenates a list to itself, which [list_concat]
    refuses; with a comparison before it, "x = 1 AND y + 1 = 2", the list becomes
    cyclic, and a build without assertions does not come back from the next loop. *)
Theorem walker_nested_operator :
  recorded (B := without_asserts) (C := sample_catalog)
    (select [20] (cmp 96 (cmp 551 (col 0 1 1) (lit 1)) (lit 2))) = Err EElog ∧
  recorded (B := with_asserts) (C := sample_catalog)
    (select [20] (all_of [cmp 96 (col 0 1 1) (lit 1); cmp 96 (cmp 551 (col 0 1 2) (lit 1)) (lit 2)])) = Err EAssert ∧
  recorded (B := without_asserts) (C := sample_catalog)
    (select [20] (all_of [cmp 96 (col 0 1 1) (lit 1); cmp 96 (cmp 551 (col 0 1 2) (lit 1)) (lit 2)])) = Err EFuel.
Proof. split_and!; vm_compute; reflexivity. Qed.

(** [ready] is never reset and the list of the last operator is shared with
    [list_of_not_null_to_be_true]: in "x = 1 AND y IS NULL" the walker records that y
    is not null, although the condition is true only when y is null. *)
Theorem walker_null_test_recorded :
  recorded (B := with_asserts) (C := sample_catalog)
    (select [20] (all_of [cmp 96 (col 0 1 1) (lit 1); NullTest IS_NULL (col 0 1 2) (-1)]))
    = Ok [[(20, 1); (20, 2)]].
Proof. vm_compute. reflexivity. Qed.

(** The list recorded for a connective is the list that the next siblings are
    concatenated to: in "(x = 1 AND y = 1) OR z = 1" the list of the AND also gets z,
    which may be null when the AND is true. *)
Theorem walker_shared_list :
  recorded (B := with_asserts) (C := sample_catalog)
    (select [20; 30] (any_of [all_of [cmp 96 (col 0 1 1) (lit 1); cmp 96 (col 0 1 2) (lit 1)];
                              cmp 96 (col 0 2 1) (lit 1)]))
    = Ok [[(20, 1); (20, 2); (30, 1)]; []].
Proof. vm_compute. reflexivity. Qed.

(** Columns are compared by relation and number, so that two occurrences of a
    relation are confused: in "SELECT ... FROM s r1, s r2 WHERE r1.x = 1 OR r2.x = 1"
    the column x is recorded as not null, and the condition is true in a row where
    r1.x is null. *)
Theorem walker_self_join :
  let w := any_of [cmp 96 (col 0 1 1) (lit 1); cmp 96 (col 0 2 1) (lit 1)] in
  recorded (B := with_asserts) (C := sample_catalog) (select [20; 20] w) = Ok [[(20, 1)]] ∧
  let e : env := λ lv no att, if no =? 2 then Some 1 else None in
  eval (I := sample_interp) w e = TT ∧ look e (mkVar 1 1 23 (-1) 0 0 1 1 7) = None.
Proof. cbv zeta. split_and!; vm_compute; reflexivity. Qed.

(** Only plain relations and sub-selects are understood in the range table: every
    query with another kind of entry (a JOIN, a function, VALUES, a CTE) ends with the
    error that the generic walker raises. *)
Theorem walker_other_rte {B : Build} {C : SysCache} r s h c :
  rtekind r ≠ RTE_RELATION → rtekind r ≠ RTE_SUBQUERY →
  Codd.my_walker (RangeTblEntry r s) (h, c) = Err EElog.
Proof. intros H1 H2. cbn. by destruct (rtekind r). Qed.

Lemma walker_other_rte_witness :
  Codd.my_walker (B := with_asserts) (C := sample_catalog) (RangeTblEntry (mkRte RTE_JOIN 0 None None) NULL)
    (empty_heap, make_context_walker_set_constraint) = Err EElog.
Proof. apply walker_other_rte; done. Defined.

(** ** Answers that are not certain *)

(** The rewritten condition of a query. *)
Definition where_of (q : node) : node :=
  match q with Query _ _ (FromExpr _ quals) _ => quals | _ => NULL end.

(** A row of the outer relation as an environment. *)
Definition outer_row (x y : option Z) : env := λ lv no att,
  if (lv =? 0) && (no =? 1) then if att =? 1 then x else y else None.

(** Relation 20 has one row, (3, 3). *)
Definition one_row : Interp :=
  {| op_den := sample_op; func_den := λ _ _, None; db := λ r, if r =? 20 then [λ _, Some 3] else [] |}.

(** WHERE (y = 1 AND x = 1) OR (x = 1 AND NOT EXISTS (SELECT ... FROM s WHERE s.x = r.y)) *)
Definition two_conjunctions : node :=
  any_of [all_of [cmp 98 (col 0 1 2) (lit 1); cmp 98 (col 0 1 1) (lit 1)];
          all_of [cmp 98 (col 0 1 1) (lit 1);
                  no (in_exists (select [20] (cmp 98 (col 0 1 1) (col 1 1 2))))]].

(** The walker records its lists when it leaves a connective, the mutator reads
    them from the end when it enters one: with two conjunctions below an OR each gets
    the list of the other.  For [two_conjunctions] the mutator then takes y for not
    null in the second one and omits "r.y IS NULL": the row (1, NULL) is returned,
    although giving y the value 3 makes the original condition false. *)
Theorem mutator_wrong_list :
  ∃ q', Codd.rewrite_query (B := with_asserts) (C := sample_catalog) (select [10] two_conjunctions) = Ok q' ∧
    eval (I := one_row) (where_of q') (outer_row (Some 1) None) = TT ∧
    completes (outer_row (Some 1) None) (outer_row (Some 1) (Some 3)) ∧
    eval (I := one_row) two_conjunctions (outer_row (Some 1) (Some 3)) = FF.
Proof.
  eexists. split; [vm_compute; reflexivity|]. split; [vm_compute; reflexivity|]. split; [|vm_compute; reflexivity].
  intros lv no att z. unfold outer_row. destruct (_ && _); [|done]. by destruct (att =? 1).
Qed.

(** The equality of integers, operator 96, is not among the operators that the
    mutator rewrites: for "NOT EXISTS (SELECT ... FROM s WHERE s.x = r.y)" the
    rewritten query returns the row (1, NULL), which is not an answer when y is 3. *)
Theorem mutator_int4eq :
  let w := no (in_exists (select [20] (cmp 96 (col 0 1 1) (col 1 1 2)))) in
  Codd.rewrite_query (B := with_asserts) (C := sample_catalog) (select [10] w) = Ok (select [10] w) ∧
  eval (I := one_row) w (outer_row (Some 1) None) = TT ∧
  eval (I := one_row) w (outer_row (Some 1) (Some 3)) = FF.
Proof. cbv zeta. split_and!; vm_compute; reflexivity. Qed.

(** ** The hooks as a whole *)

(** The hook runs on every statement.  A utility statement other than DECLARE CURSOR has no
    jointree; on such a Query, without range table and target list, the hook dereferences
    NULL after the first optimisation. *)
Theorem hook_utility_statement {B : Build} {C : SysCache} fuel i qi :
  Hook.my_post_parse_analyse_hook fuel (Query qi NULL NULL NULL) i = Err ENullDeref.
Proof. destruct B; reflexivity. Qed.

(** The hook never comes back from a NOT EXISTS whose only condition is a comparison
    between nullable columns with operator 98: the condition becomes an OR, and [trueSplit]
    loops for ever on it. *)
Theorem hook_single_comparison_diverges fuel :
  Hook.my_post_parse_analyse_hook (B := without_asserts) (C := sample_catalog) fuel
    (select [10] (no (in_exists (select [20] (cmp 98 (col 0 1 1) (col 1 1 2)))))) 0 = Err EFuel.
Proof.
  unfold Hook.my_post_parse_analyse_hook.
  erewrite bind_Ok by (vm_compute; reflexivity). erewrite bind_Ok by (vm_compute; reflexivity).
  erewrite bind_Ok by (vm_compute; reflexivity). apply bind_Err.
  cbv -[trueSplit]. rewrite trueSplit_or_loops; [reflexivity|done|by repeat constructor].
Qed.

(** The hook for marked nulls frees the recorded lists with [list_free_deep], which
    frees their elements; a connective without "<>" recorded NULL, and freeing NULL is
    a crash: "x = 1 AND y = 1" is enough. *)
Theorem marked_hook_frees_null :
  Marked.my_post_parse_analyse_hook (B := without_asserts) (C := sample_catalog)
    (select [20] (all_of [cmp 96 (col 0 1 1) (lit 1); cmp 96 (col 0 1 2) (lit 1)])) = Err ENullDeref.
Proof. vm_compute. reflexivity. Qed.

(** Unloading the module restores the hook that was installed before it, and while
    it is loaded the hook of the module is the one that runs; the saved hook is
    never called. *)
Theorem init_fini_roundtrip my_hook s :
  post_parse_analyze_hook (PG_init my_hook s) = Some my_hook ∧
  post_parse_analyze_hook (PG_fini (PG_init my_hook s)) = post_parse_analyze_hook s.
Proof. done. Qed.
