(* ===== verification/OptCases.v ===== *)
(** Queries on which the optimisers change the meaning of a condition.

    As in [HookCases], each theorem runs the model on a query; here the passes of
    self_optimize.c and exist_optimize.c. *)

From S2P Require Import Prelude Nodes PgList Semantics SelfOpt ExistOpt Samples HookCases.

(** Column [j] of relation [i] equals [k]. *)
Definition col_is (i j k : Z) : node := cmp 96 (col 0 i j) (lit k).

(** What the self-constraint pass collects for the range table. *)
Definition collected_by (quals : node) : res node :=
  match my_modifier_self quals make_context_optimizer_self with
  | Ok (_, c) => Ok (already_constrain_rel c)
  | Err e => Err e
  end.

(** The pass does not look at negations: from "NOT x = 1" the comparison is taken
    out of the NOT, and the relation is restricted to the rows with x = 1, on which
    the condition is false. *)
Theorem self_loses_negation :
  collected_by (no (col_is 1 1 1)) = Ok (NList [col_is 1 1 1]) ∧
  eval (I := sample_interp) (NList [col_is 1 1 1]) (outer_row (Some 1) None) = TT ∧
  eval (I := sample_interp) (no (col_is 1 1 1)) (outer_row (Some 1) None) = FF.
Proof. split_and!; vm_compute; reflexivity. Qed.

(** The flag [add] tells only whether the last variable agreed with the first one:
    "s.x = 1 OR r.y = 2 OR s.x = 3" is collected as a constraint of s, and in the
    sub-select r.y has become s.y: the row s = (0, 0) is lost although r = (0, 2)
    satisfies the condition. *)
Theorem self_mixes_relations :
  let w := any_of [col_is 1 1 1; col_is 2 2 2; col_is 1 1 3] in
  let s : row := λ _, Some 0 in
  let r : row := λ a, if a =? 2 then Some 2 else Some 0 in
  collected_by w = Ok (NList [w]) ∧
  eval (I := sample_interp) w (push [s; r] no_columns) = TT ∧
  ∃ w', run (modif_rel w) () = Ok w' ∧ eval (I := sample_interp) w' (push [s] no_columns) = FF.
Proof. cbv zeta. split; [|split]; [vm_compute; reflexivity..|]. eexists. split; vm_compute; reflexivity. Qed.

(** A constraint is added to the first AND that mentions its relation, wherever
    that is: in "((x = 1 AND y = 2) OR x = 3) AND y = 5" it ends up inside the OR, and
    the row (3, 7) satisfies what is collected but not the condition. *)
Theorem self_adds_inside_or :
  let w := all_of [any_of [all_of [col_is 1 1 1; col_is 1 2 2]; col_is 1 1 3]; col_is 1 2 5] in
  ∃ c, collected_by w = Ok c ∧
    eval (I := sample_interp) c (outer_row (Some 3) (Some 7)) = TT ∧
    eval (I := sample_interp) w (outer_row (Some 3) (Some 7)) = FF.
Proof. cbv zeta. eexists. split_and!; vm_compute; reflexivity. Qed.

(** The condition of the sub-select that a range table entry has become. *)
Definition pushed_condition (q : node) : node :=
  match q with
  | Query _ (NList (RangeTblEntry _ (Query _ _ (FromExpr _ quals) _) :: _)) _ _ => quals
  | _ => NULL
  end.

(** A constraint on a column of the outer query is pushed into the relation of the
    same number of the inner query, without changing its level: it then reads the row
    of the inner relation.  For an outer row with y = 1 and an inner row with y = 0,
    "r.y = 1" is true and the condition of the sub-select false. *)
Theorem self_captures_outer :
  let w := cmp 96 (col 1 1 2) (lit 1) in
  let inner : row := λ _, Some 0 in
  let e := push [inner] (outer_row (Some 1) (Some 1)) in
  ∃ q', run (optimize_self_constraint (B := with_asserts) (select [20] w)) 0 = Ok q' ∧
    eval (I := sample_interp) w e = TT ∧
    eval (I := sample_interp) (pushed_condition q') (push [inner] e) = FF.
Proof. cbv zeta. eexists. split_and!; vm_compute; reflexivity. Qed.

(** The range table entries of a component are deleted with a running offset, which
    is right only for ascending numbers; "r3.x = r2.x" gives the component [3; 2], for
    which entries 3 and 1 of the range table are deleted instead of 3 and 2. *)
Theorem connexe_deletes_wrong_entry :
  let w := all_of [cmp 96 (col 0 1 1) (col 1 1 1); cmp 96 (col 0 4 1) (col 1 1 1);
                   cmp 96 (col 0 3 1) (col 0 2 1)] in
  components_of (B := with_asserts) 4 (FromExpr (NList (map RangeTblRef [1; 2; 3; 4])) w) = Ok [[3; 2]] ∧
  delete_entries (B := with_asserts) 0 (NList (map rel [10; 20; 30; 40])) [3; 2] = Ok (NList (map rel [20; 40])).
Proof. cbv zeta. split; vm_compute; reflexivity. Qed.

(** A null test raises the flag [to_remove] and does not lower it: with the
    component [2], "r2.x IS NULL AND r1.y = q.z" loses the comparison of r1, which is
    moved into the sub-query of r2, and keeps the test of r2. *)
Theorem connexe_null_test_leaks :
  let test := NullTest IS_NULL (col 0 2 1) (-1) in
  let other := cmp 96 (col 0 1 2) (col 1 1 1) in
  expression_tree_mutator mutator_conn (all_of [test; other]) (make_temp_context_connex_rew [2])
    = Ok (all_of [test; NULL], mkRewCtx [other] [2] false).
Proof. vm_compute. reflexivity. Qed.

(** The comparisons of a component are moved without renumbering their variables: in
    "r1.y = q.y AND r2.x = 5" the second relation moves, and in the sub-query, where it is
    the first and only one, the comparison still reads a column of the second; all FROM
    lists are right, and a query with a row has none any more. *)
Theorem connexe_keeps_numbers :
  let w := all_of [cmp 96 (col 0 1 2) (col 1 1 2); cmp 96 (col 0 2 1) (lit 5)] in
  let q := select [20; 10] w in
  let e := outer_row (Some 1) (Some 3) in
  components_of (B := with_asserts) 2 (FromExpr (NList (map RangeTblRef [1; 2])) w) = Ok [[2]] ∧
  eval (I := sample_interp) (in_exists q) e = TT ∧
  ∃ q', rewrite_connexe (B := with_asserts) q [2] = Ok q' ∧ from_ok q' = true ∧ eval (I := sample_interp) (in_exists q') e = FF.
Proof. cbv zeta. split; [|split]; [vm_compute; reflexivity..|]. eexists. split_and!; vm_compute; reflexivity. Qed.

(** A comparison of three variables goes wrong once the first was found connected to the
    outer query by the second: with "r1.x = f(q.x, q.y)" the list of these relations is
    concatenated to itself, which is an error; with "r1.x = f(q.x, r2.x)" it is entered
    among the components, to be moved away from the outer query. *)
Theorem connexe_three_variables :
  let fn l := FuncExpr 7 (NList l) in
  let from := NList (map RangeTblRef [1; 2]) in
  components_of (B := with_asserts) 2 (FromExpr from (cmp 96 (col 0 1 1) (fn [col 1 1 1; col 1 1 2]))) = Err EElog ∧
  components_of (B := with_asserts) 2 (FromExpr from (cmp 96 (col 0 1 1) (fn [col 1 1 1; col 0 2 1]))) = Ok [[1; 2]].
Proof. cbv zeta. split; vm_compute; reflexivity. Qed.
